(* ===== verification/_CoqProject ===== *)
-Q . S2P
Prelude.v
Tower.v
VoteState.v
AlpBase.v
AlpVote.v
AlpCert.v
AlpSlotState.v
AlpParentReady.v
AlpFinality.v
AlpVotor.v
AlpProgress.v
AlpPool.v
BankForks.v
ForkChoice.v
SbpfInsn.v
SbpfMemory.v
SbpfVm.v
SbpfValidate.v
TxProcessor.v
TokenProgram.v
TokenLayout.v
TokenLedger.v
SystemProgram.v
Lamports.v
NonceAccounts.v
TagCache.v
DedupStage.v
WireFormat.v
MeshLink.v
MeshLinkFifo.v
MerkleTree.v
Shreds.v
ShredVerifier.v
DualLink.v
FecResolver.v
ReedSolomon.v
ShredNetwork.v
PackScheduler.v
PackRuns.v
