(* ===== verification/Prelude.v ===== *)
(** * Karstflow: a verification library

    Karstflow is a Solana validator written in Rust.  This library models the parts of it
    that decide: which fork the validator votes for, which certificates it believes, which
    shreds it accepts and rebuilds, which transactions run at the same time, what a link
    between two tiles delivers, which bytes a program may touch, and who may move lamports
    and tokens.  Sources are under
    [src/crates]; definitions keep the names of the source, a method [T::f] being [T_f].

    ** The program and its parts

    Consensus in the classic mode.  A validator keeps a stack of its own votes, the tower
    ([karstflow-consensus/src/tower.rs]); the vote program keeps the same stack per
    validator on chain ([karstflow-sbpf/src/vote/state.rs]).  The banks it has replayed
    form a tree ([bank_forks.rs]), the votes it has seen give every fork a weight
    ([fork_choice.rs]), and [select_fork] picks a fork that the tower allows.

    Consensus in the Alpenglow mode ([karstflow-alpenglow/src]).  Votes and certificates
    arrive at the pool ([pool.rs]), which counts them per slot ([slot_state.rs]), follows
    finality ([finality_tracker.rs]) and the blocks that are ready to be built on
    ([parent_ready_tracker.rs]), and sends events to the voting engine ([votor.rs]).

    Execution ([karstflow-sbpf/src]).  A transaction is a list of instructions that
    [transaction_processor.rs] runs in turn, each by a native program such as the token
    program ([token_program.rs]) or the system program ([system_program.rs]), or by the
    interpreter ([interpreter.rs]) on a program that passed validation ([validation.rs]),
    over a checked memory ([memory.rs]).

    Tiles ([karstflow-mesh/src]).  The stages of the validator are threads joined by links:
    a producer writes a payload into a data region and its metadata into a ring, a consumer
    polls the ring and returns credits through a shared sequence number ([tile_link.rs],
    [meta_ring.rs], [data_region.rs], [flow.rs]); [dual.rs] sends typed messages over such
    a link with a codec.  A duplicate cache ([tag_cache.rs]) and the deduplication stage
    ([karstflow-stages/src/dedup_stage.rs]) drop transactions that were seen before; the
    pack stage ([karstflow-stages/src/pack_stage]) queues the others by priority and fills
    the microblocks that are executed in parallel.

    Shreds.  A block travels as shreds ([karstflow-types/src/shred]), which carry a Merkle
    proof ([karstflow-crypto/src/bmtree.rs]) to a root the leader signed.  The stage
    [karstflow-stages/src/shred_network.rs] checks each shred ([shred_verifier.rs]), keeps
    the incomplete FEC sets in a pool of buffers ([fec_resolver.rs]), rebuilds missing data
    shreds ([karstflow-crypto/src/reed_solomon.rs]) and hands on the completed sets.

    ** Files

    - [Prelude]: machine integers, floats, [result] and [Outcome] (a call that may panic),
      little-endian bytes, iteration order of hash containers, lemmas on finite maps.
    - [Tower]: [Tower] and [simulate_vote], [push_vote], [record_vote], [verify].
    - [VoteState]: [VoteState], [process_vote], [apply_vote_state_update], the encoding.
    - [AlpBase], [AlpVote], [AlpCert]: slots, stakes and quorums; aggregate signatures and
      votes; the five certificates.
    - [AlpSlotState]: [SlotState], [add_vote], [add_cert], the fallback conditions.
    - [AlpParentReady], [AlpFinality]: the two trackers.
    - [AlpVotor], [AlpProgress]: the handlers of the voting engine; that it votes when it
      should.
    - [AlpPool]: [add_vote], [add_cert], [add_block], [recover_from_standstill], and the
      composition of the pool with the voting engine.
    - [BankForks]: the tree of banks, its dead slots and its pruning.
    - [ForkChoice]: weights, best fork, and [select_fork] with [Tower] and [BankForks].
    - [SbpfInsn], [SbpfMemory], [SbpfVm], [SbpfValidate]: instruction words and opcodes;
      regions, loads and stores; the interpreter loop; static validation.
    - [TxProcessor]: accounts, contexts and the loop of [process_transaction].
    - [TokenProgram], [TokenLayout], [TokenLedger]: the 23 token instructions; the byte
      layout of their accounts; what they do to a ledger.
    - [SystemProgram], [Lamports], [NonceAccounts]: the 14 system instructions; that they
      conserve lamports, also beside the token program; what they do to a nonce account.
    - [TagCache], [DedupStage]: the two duplicate filters.
    - [PackScheduler], [PackRuns]: the queue, the account locks and the scheduler of
      microblocks; what its runs guarantee.
    - [WireFormat]: compact-u16 and the transaction parsers and serializers.
    - [MeshLink], [MeshLinkFifo]: the shared objects of a link and the steps of its two
      threads; that their interleavings are a queue.
    - [MerkleTree], [Shreds], [ShredVerifier]: the tree, its proofs and their verifier; the
      wire form and the link codec of shreds; the check of a shred against the leader.
    - [DualLink]: typed messages over a link, and shreds as an instance.
    - [FecResolver], [ReedSolomon], [ShredNetwork]: the pool of FEC sets, the reconstructor
      and the stage that composes them with the verifier.

    State that the code mutates is passed and returned.  A [HashMap], [BTreeMap] or
    [HashSet] is a [gmap] or [gset]; where the code iterates over a hash container the
    order is the class [IterOrder], and the theorems hold for every order.  Interfaces of
    the source are classes: [CertVote] for the votes of a certificate, [SyscallDispatch]
    for syscalls, [Programs] for the programs a transaction calls, [FragmentCodec] for the
    messages of a link.  Third-party code is a class without a definition: [Sha256],
    [Ed25519], [ReedSolomon]; what a theorem relies on is stated beside it
    ([ReedSolomonLaws], [CodecLaws]), and its witness gives an instance.

    ** What the theorems show

    - Tower: every reachable tower passes its own check, a refused vote is
      exactly one that breaks a lockout, a vote pops exactly the expired suffix, and
      consecutive votes double their lockouts.
    - Vote accounts: exactly when a tower sync is accepted and what it
      installs; the vote account follows the tower on consecutive votes; the encoding
      round-trips.
    - Alpenglow votes and certificates: who signed an aggregate, the wire
      form, domain separation of payloads, quorum intersection.
    - Slots: stake totals are the stakes of the votes on record; skip and
      final certificates are valid and timely; notarization certificates miss a vote.
    - Trackers: ready parents refine the documented condition; finality
      follows one chain and loses no slot; a late notarization undoes progress.
    - Voting engine and pool: on events of the kind the pool emits (64-bit slots, parents
      announced for window starts only) the engine casts only admissible votes and casts
      them when its conditions hold; the pool drives it without panics, a rejected message
      leaves no trace; two sequences that end in a double vote, a notarization after a skip,
      and in a crash.
    - Forks: dead subtrees stay dead, weights are the latest votes and the stake added
      directly, both searches are the heaviest-subtree walk, a selected fork violates no
      lockout, though a vote for it may be dropped without an error.
    - Virtual machine: programs and bytes determine each other, accesses are
      checked and exact, execution ends within its budget without a panic; validation
      and two conditions on fields it does not look at give such an execution, and
      without them programs pass that panic.
    - Tokens: supply equals the balances through every orderly transaction,
      changes name the key that has the authority, whose signature nobody checks; what
      the missing checks allow.
    - Lamports and nonces: a transaction of system and token instructions keeps the sum
      of lamports; the nonce instructions refine a three-state machine, and a nonce
      advances at most once per blockhash.
    - Duplicate filters: the tag cache is the window of the last tags, with deletion from
      its probe table exact; the deduplication stage is exact until it is full.
    - Scheduler: the microblocks in flight do not conflict and the check for conflicts is
      exact, a block stays within its cost limits, no transaction is lost or packed twice;
      five runs in which it departs from its documentation.
    - Transactions: serializing and parsing agree, and what a parser returns is in range.
    - Links: under every interleaving of the single memory accesses of producer and
      consumer the consumer receives what was sent, in order, without loss, and drains
      the link once the producer rests; typed messages arrive as they were given, shreds
      among them.
    - Merkle trees and shreds: honest proofs verify, a verifier that accepts a leaf under a
      root gives a collision of the hash or the leaf of that root; parsing and serializing
      agree; an accepted shred has a body whose proof leads to a root the leader signed, at
      the low bits of its leaf index, and the shreds of an honest leader are accepted.
    - Shred stage: the pool of buffers refines a map of FEC sets, it does not panic with a
      completed queue below its depth (with the default one it does), the shreds of a
      completed set were checked or rebuilt, rebuilding restores the payloads that were
      encoded; of a FEC set of Merkle shreds one shred is admitted, and a flush hands on the
      set with that shred alone.

    ** Bounds and fuel

    Integers have the width of the source: sums wrap, saturate or are checked as written.
    Loops that are not structural take fuel, and the theorems show that the fuel given is
    enough: one unit per tracked slot for the forward loops of the ready-parent tracker,
    the height of the walk for the ancestors of a finalized block, the number of forks or
    banks for walks over a tree (more steps mean a cycle, which [None] stands for),
    (budget + 1) * (length + 1) passes for the interpreter, one unit per table entry for
    the probes of the duplicate filters, the length of the queue for the loops of the
    scheduler, and the number of sets in progress for the eviction of FEC sets.  The threads of a link have no fuel: a schedule is a finite list
    of turns, and the liveness theorem says how many turns of the consumer suffice.

    ** Not modelled

    Networking, storage, snapshots, RPC, process control and configuration are input and
    output, threads, or calls into third-party libraries.  Signatures of the Alpenglow
    crate are a stub in the source and are translated as such; ed25519, hashes and
    Reed-Solomon are third-party code.  A link is modelled with sequentially consistent
    accesses: the acquire and release orderings of its atomics are not.  Tiles with several
    links, their credit heuristics and life cycle, and the channel side of the dual links
    are left out.  Of banks only the fields [bank_forks.rs] reads are kept; fees, rent and
    rewards are mostly floating-point formulas.  The ELF parser, the syscall handlers and
    the native programs other than system, vote and token are not modelled: a program
    behind [Programs] and a syscall behind [SyscallDispatch] may do anything its laws
    allow.  Error texts are kept as the data they are formatted from, except in the token
    program, and logging is left out. *)
From stdpp Require Import base tactics list sorting gmap.
From Stdlib Require Import ZArith Lia SpecFloat.
Local Open Scope Z_scope.

(** ** Machine integers

    The release profile of the workspace leaves overflow checks off, so a plain
    [+] or [-] on an unsigned integer wraps around; the saturating and checked
    operations are written out as the standard library documents them. *)

Definition u8_max : Z := 2 ^ 8 - 1.
Definition u16_max : Z := 2 ^ 16 - 1.
Definition u32_max : Z := 2 ^ 32 - 1.
Definition u64_max : Z := 2 ^ 64 - 1.

Definition wrap32 (z : Z) : Z := z mod 2 ^ 32.
Definition wrap64 (z : Z) : Z := z mod 2 ^ 64.

Definition u64_add (a b : Z) : Z := wrap64 (a + b).
Definition u64_sub (a b : Z) : Z := wrap64 (a - b).
Definition u64_saturating_add (a b : Z) : Z := Z.min (a + b) u64_max.
Definition u64_saturating_sub (a b : Z) : Z := Z.max (a - b) 0.
Definition u64_saturating_mul (a b : Z) : Z := Z.min (a * b) u64_max.
Definition u64_saturating_pow (b e : Z) : Z := Z.min (b ^ e) u64_max.
Definition u64_checked_pow (b e : Z) : option Z :=
  if b ^ e <=? u64_max then Some (b ^ e) else None.
Definition u64_checked_add (a b : Z) : option Z :=
  if a + b <=? u64_max then Some (a + b) else None.
Definition u64_checked_sub (a b : Z) : option Z :=
  if b <=? a then Some (a - b) else None.
Definition u64_checked_mul (a b : Z) : option Z :=
  if a * b <=? u64_max then Some (a * b) else None.
Definition u32_add (a b : Z) : Z := wrap32 (a + b).
Definition u32_saturating_add (a b : Z) : Z := Z.min (a + b) u32_max.

Definition is_u64 (z : Z) : Prop := 0 <= z <= u64_max.
Definition is_u32 (z : Z) : Prop := 0 <= z <= u32_max.
Definition is_byte (z : Z) : Prop := 0 <= z <= u8_max.

(** ** Double precision floats

    [as f64], [+], [*], [/] and [>=] on [f64] are the IEEE 754 binary64 operations with
    round to nearest even, computed by the standard library's [SpecFloat]. *)

Definition f64 : Type := spec_float.
Definition f64_of_u64 (z : Z) : f64 := binary_normalize 53 1024 z 0 false.
Definition f64_div (a b : f64) : f64 := SFdiv 53 1024 a b.
Definition f64_add (a b : f64) : f64 := SFadd 53 1024 a b.
Definition f64_mul (a b : f64) : f64 := SFmul 53 1024 a b.
Definition f64_ge (a b : f64) : bool := SFleb b a.
Definition f64_lt (a b : f64) : bool := SFltb a b.

(** [x as u64]: the integer part, saturated; NaN is 0. *)
Definition f64_to_u64 (x : f64) : Z :=
  match x with
  | S754_finite false m e =>
      Z.min (if 0 <=? e then Zpos m * 2 ^ e else Zpos m / 2 ^ (- e)) u64_max
  | S754_infinity false => u64_max
  | _ => 0
  end.

(** ** Results and panics

    [result] is Rust's [Result].  [Outcome] is the outcome of a call that may
    abort: [assert!], [expect], an index out of range. *)

Inductive result (A E : Type) : Type :=
| Ok (a : A)
| Err (e : E).
Arguments Ok {A E} a.
Arguments Err {A E} e.

Inductive Outcome (A : Type) : Type :=
| Done (a : A)
| Panicked.
Arguments Done {A} a.
Arguments Panicked {A}.

#[export] Instance Outcome_ret : MRet Outcome := @Done.
#[export] Instance Outcome_bind : MBind Outcome := λ A B f m,
  match m with
  | Done a => f a
  | Panicked => Panicked
  end.
#[export] Instance Outcome_fmap : FMap Outcome := λ A B f m, m ≫= λ x, mret (f x).

(** [assert!(b)] *)
Definition rust_assert (b : bool) : Outcome () :=
  if b then Done () else Panicked.

(** A loop [for x in l { body }] whose body may panic. *)
Fixpoint for_each {S A} (body : S → A → Outcome S) (s : S) (l : list A) : Outcome S :=
  match l with
  | [] => Done s
  | x :: l' => s' ← body s x; for_each body s' l'
  end.

Lemma Done_bind {A B} (x : A) (k : A → Outcome B) : Done x ≫= k = k x.
Proof. done. Qed.

Lemma bind_Done {A B} (m : Outcome A) (k : A → Outcome B) (b : B) :
  m ≫= k = Done b ↔ ∃ a, m = Done a ∧ k a = Done b.
Proof.
  unfold mbind, Outcome_bind. destruct m; split; intros H.
  - eauto.
  - destruct H as (? & [= <-] & ?). done.
  - done.
  - by destruct H as (? & ? & ?).
Qed.

#[export] Instance Done_inj {A} : Inj eq eq (@Done A).
Proof. by intros x y [= ->]. Qed.

Lemma rust_assert_Done b u : rust_assert b = Done u ↔ b = true.
Proof. destruct b, u; cbn; naive_solver. Qed.

(** A loop over two lists, one after the other. *)
Lemma for_each_app {S A} (body : S → A → Outcome S) l1 l2 : ∀ s,
  for_each body s (l1 ++ l2) = (s' ← for_each body s l1; for_each body s' l2).
Proof.
  induction l1 as [|x l1 IH]; intros s; cbn [app for_each]; [done|]. destruct (body s x) as [s'|]; [|done]. exact (IH s').
Qed.

(** [for_each] with an invariant of the loop state. *)
Lemma for_each_ind {S A} (body : S → A → Outcome S) (P : S → Prop) l s s' :
  (∀ x a b, x ∈ l → P a → body a x = Done b → P b) →
  P s → for_each body s l = Done s' → P s'.
Proof.
  revert s. induction l as [|x l IH]; intros s Hb Hs; cbn.
  - by intros [= <-].
  - intros (t & Ht & Hrest)%bind_Done.
    eapply IH; [|eapply Hb; [left|exact Hs|exact Ht]|exact Hrest].
    intros y a b Hy. apply Hb. by right.
Qed.

(** ** Automation *)

Create HintDb karst.

(** Split every [if] and [match] of the goal and close the contradictory
    branches. *)
Ltac split_cases :=
  repeat (case_match || case_decide); simplify_eq/=.

(** Turn boolean comparisons of the context into propositions. *)
Ltac b2p :=
  repeat match goal with
  | H : (_ <? _) = true |- _ => apply Z.ltb_lt in H
  | H : (_ <? _) = false |- _ => apply Z.ltb_ge in H
  | H : (_ <=? _) = true |- _ => apply Z.leb_le in H
  | H : (_ <=? _) = false |- _ => apply Z.leb_gt in H
  | H : (_ =? _) = true |- _ => apply Z.eqb_eq in H
  | H : (_ =? _) = false |- _ => apply Z.eqb_neq in H
  | H : negb _ = true |- _ => apply negb_true_iff in H
  | H : negb _ = false |- _ => apply negb_false_iff in H
  | H : _ && _ = true |- _ => apply andb_true_iff in H; destruct H
  | H : _ || _ = false |- _ => apply orb_false_iff in H; destruct H
  | H : bool_decide _ = true |- _ => apply bool_decide_eq_true in H
  | H : bool_decide _ = false |- _ => apply bool_decide_eq_false in H
  end.

Lemma wrap64_small z : is_u64 z → wrap64 z = z.
Proof. unfold is_u64, u64_max, wrap64. intros. apply Z.mod_small. lia. Qed.

Lemma wrap32_small z : is_u32 z → wrap32 z = z.
Proof. unfold is_u32, u32_max, wrap32. intros. apply Z.mod_small. lia. Qed.

(** Bit fields that do not overlap add up. *)
Lemma lor_shiftl a b k : 0 <= k → 0 <= a < 2 ^ k → Z.lor a (Z.shiftl b k) = a + b * 2 ^ k.
Proof.
  intros Hk Ha. rewrite <- Z.shiftl_mul_pow2 by lia.
  destruct (Z.eq_dec a 0) as [->|Hnz]; [by rewrite Z.lor_0_l|].
  assert (Hlog : Z.log2 a < k) by (apply Z.log2_lt_pow2; lia).
  assert (Hland : Z.land a (Z.shiftl b k) = 0).
  { apply Z.bits_inj'. intros n Hn. rewrite Z.land_spec, Z.bits_0. destruct (Z.ltb_spec n k).
    - rewrite Z.shiftl_spec_low by lia. apply andb_false_r.
    - by rewrite (Z.bits_above_log2 a n) by lia. }
  by rewrite Z.add_nocarry_lxor, Z.lxor_lor.
Qed.

(** Bitwise operations stay within a width. *)
Definition fits (k z : Z) : Prop := 0 <= z < 2 ^ k.

Lemma fits_ones k z : 0 <= k → 0 <= z → fits k z ↔ Z.land z (Z.ones k) = z.
Proof.
  intros Hk Hz. rewrite Z.land_ones by done. unfold fits. split; [intros; by apply Z.mod_small|].
  intros <-. apply Z.mod_pos_bound. lia.
Qed.

Lemma lor_fits k a b : 0 <= k → fits k a → fits k b → fits k (Z.lor a b).
Proof.
  intros Hk Ha Hb. pose proof (proj1 Ha). pose proof (proj1 Hb).
  apply fits_ones in Ha, Hb; [|done..]. apply fits_ones; [done|by apply Z.lor_nonneg|].
  by rewrite Z.land_lor_distr_l, Ha, Hb.
Qed.

Lemma lxor_fits k a b : 0 <= k → fits k a → fits k b → fits k (Z.lxor a b).
Proof.
  intros Hk Ha Hb. pose proof (proj1 Ha). pose proof (proj1 Hb).
  apply fits_ones in Ha, Hb; [|done..]. apply fits_ones; [done|by apply Z.lxor_nonneg|].
  apply Z.bits_inj'. intros n Hn. apply (f_equal (λ z, Z.testbit z n)) in Ha, Hb.
  rewrite Z.land_spec in *. rewrite Z.lxor_spec. by destruct (Z.testbit a n), (Z.testbit b n), (Z.testbit (Z.ones k) n).
Qed.

Lemma land_fits k a b : 0 <= k → fits k a → 0 <= b → fits k (Z.land a b).
Proof.
  intros Hk Ha Hb. pose proof (proj1 Ha). apply fits_ones in Ha; [|done..].
  apply fits_ones; [done|apply Z.land_nonneg; auto|].
  by rewrite <- Z.land_assoc, (Z.land_comm b), Z.land_assoc, Ha.
Qed.

Lemma shiftr_fits k a n : 0 <= n → fits k a → fits k (Z.shiftr a n).
Proof.
  unfold fits. intros Hn Ha. rewrite Z.shiftr_div_pow2 by done. split; [apply Z.div_pos; lia|].
  apply Z.le_lt_trans with a; [|lia]. apply Z.div_le_upper_bound; [lia|].
  pose proof (Z.pow_pos_nonneg 2 n). nia.
Qed.

Lemma div_fits k a b : fits k a → 0 < b → fits k (a / b).
Proof.
  unfold fits. intros Ha Hb. split; [apply Z.div_pos; lia|]. apply Z.le_lt_trans with a; [|lia].
  apply Z.div_le_upper_bound; nia.
Qed.

Lemma mod_fits k a b : fits k a → 0 < b → fits k (a mod b).
Proof.
  unfold fits. intros Ha Hb. pose proof (Z.mod_pos_bound a b). split; [lia|].
  apply Z.le_lt_trans with a; [|lia]. apply Z.mod_le; lia.
Qed.

Lemma wrap_fits k z : 0 <= k → fits k (z mod 2 ^ k).
Proof. intros. apply Z.mod_pos_bound. lia. Qed.

Lemma fits_mono k k' z : k <= k' → fits k z → fits k' z.
Proof. unfold fits. intros Hk Hz. pose proof (Z.pow_le_mono_r 2 k k'). lia. Qed.

(** ** Bytes

    [to_le_bytes n z] is [z.to_le_bytes()] for an [8 * n]-bit integer, and
    [from_le_bytes] its inverse.  [read_bytes data offset n] is the guarded
    slice [data[offset..offset + n]] that the decoders take: [None] when the
    data is too short. *)

Fixpoint to_le_bytes (n : nat) (z : Z) : list Z :=
  match n with
  | O => []
  | S m => z mod 256 :: to_le_bytes m (z / 256)
  end.

Fixpoint from_le_bytes (l : list Z) : Z :=
  match l with
  | [] => 0
  | b :: l' => b + 256 * from_le_bytes l'
  end.

Definition read_bytes (data : list Z) (offset n : nat) : option (list Z) :=
  if (length data <? offset + n)%nat then None else Some (take n (drop offset data)).

Lemma length_to_le_bytes n z : length (to_le_bytes n z) = n.
Proof. revert z. induction n; cbn; auto. Qed.

Lemma to_le_bytes_byte n z : Forall is_byte (to_le_bytes n z).
Proof.
  revert z. induction n as [|n IH]; intros z; cbn; constructor; [|done].
  unfold is_byte, u8_max. pose proof (Z.mod_pos_bound z 256). lia.
Qed.

Lemma from_to_le_bytes n z : 0 <= z < 256 ^ Z.of_nat n → from_le_bytes (to_le_bytes n z) = z.
Proof.
  revert z. induction n as [|n IH]; intros z Hz; cbn [to_le_bytes from_le_bytes].
  - cbn in Hz. lia.
  - rewrite Nat2Z.inj_succ, Z.pow_succ_r in Hz by lia. rewrite IH.
    + pose proof (Z.div_mod z 256). lia.
    + split; [apply Z.div_pos; lia|]. apply Z.div_lt_upper_bound; lia.
Qed.

Lemma from_to_le_bytes_mod n z : from_le_bytes (to_le_bytes n z) = z mod 256 ^ Z.of_nat n.
Proof.
  revert z. induction n as [|n IH]; intros z; cbn [to_le_bytes from_le_bytes].
  - cbn. by rewrite Z.mod_1_r.
  - rewrite IH, Nat2Z.inj_succ, Z.pow_succ_r by lia.
    symmetry. apply Z.rem_mul_r; lia.
Qed.

Lemma from_le_bytes_u64 z : is_u64 z → from_le_bytes (to_le_bytes 8 z) = z.
Proof. intros [? ?]. apply from_to_le_bytes. unfold u64_max in *. cbn. lia. Qed.

Lemma from_le_bytes_u32 z : is_u32 z → from_le_bytes (to_le_bytes 4 z) = z.
Proof. intros [? ?]. apply from_to_le_bytes. unfold u32_max in *. cbn. lia. Qed.

Lemma from_le_bytes_bound l : Forall is_byte l → 0 <= from_le_bytes l < 256 ^ Z.of_nat (length l).
Proof.
  unfold is_byte, u8_max. induction 1 as [|b l Hb _ IH]; [cbn; lia|].
  cbn [from_le_bytes length]. rewrite Nat2Z.inj_succ, Z.pow_succ_r by lia. lia.
Qed.

Lemma from_le_bytes_is_u64 l : length l = 8%nat → Forall is_byte l → is_u64 (from_le_bytes l).
Proof.
  intros Hl Hb. pose proof (from_le_bytes_bound l Hb) as H. rewrite Hl in H.
  unfold is_u64, u64_max. change (256 ^ Z.of_nat 8) with (2 ^ 64) in H. lia.
Qed.

Lemma to_from_le_bytes l :
  Forall is_byte l → to_le_bytes (length l) (from_le_bytes l) = l.
Proof.
  unfold is_byte, u8_max. induction 1 as [|b l Hb Hl IH]; [done|].
  cbn [length to_le_bytes from_le_bytes].
  rewrite Z.mul_comm, Z.mod_add, Z.mod_small by lia.
  rewrite Z.div_add, Z.div_small, Z.add_0_l by lia. by rewrite IH.
Qed.

Lemma to_le_bytes_inj n z z' :
  0 <= z < 256 ^ Z.of_nat n → 0 <= z' < 256 ^ Z.of_nat n →
  to_le_bytes n z = to_le_bytes n z' → z = z'.
Proof. intros H H' E. by rewrite <- (from_to_le_bytes n z), E, from_to_le_bytes. Qed.

(** Reading back a field from the middle of a buffer. *)
Lemma read_bytes_app pre field post :
  read_bytes (pre ++ field ++ post) (length pre) (length field) = Some field.
Proof.
  unfold read_bytes. rewrite !length_app, (proj2 (Nat.ltb_ge _ _)) by lia.
  by rewrite drop_app_length, take_app_length.
Qed.

Lemma read_bytes_at data pre field post off n :
  data = pre ++ field ++ post → off = length pre → n = length field →
  read_bytes data off n = Some field.
Proof. intros -> -> ->. apply read_bytes_app. Qed.

Lemma read_bytes_skip pre data off n :
  read_bytes (pre ++ data) (length pre + off) n = read_bytes data off n.
Proof.
  unfold read_bytes. rewrite length_app, drop_app_add.
  destruct (Nat.ltb_spec (length data) (off + n));
    [rewrite (proj2 (Nat.ltb_lt _ _)) by lia|rewrite (proj2 (Nat.ltb_ge _ _)) by lia]; done.
Qed.

Lemma read_bytes_head n field post :
  length field = n → read_bytes (field ++ post) 0 n = Some field.
Proof. intros <-. apply (read_bytes_app [] field post). Qed.

(** Reading the fixed-width integers [a], [b], [c] laid out one after another. *)
Lemma read_le1 pre n a post :
  read_bytes (pre ++ to_le_bytes n a ++ post) (length pre) n = Some (to_le_bytes n a).
Proof.
  rewrite <- (Nat.add_0_r (length pre)), read_bytes_skip. apply read_bytes_head.
  apply length_to_le_bytes.
Qed.

Lemma read_le2 pre n m a b post :
  read_bytes (pre ++ to_le_bytes n a ++ to_le_bytes m b ++ post) (length pre + n) m
  = Some (to_le_bytes m b).
Proof.
  rewrite read_bytes_skip. pose proof (read_le1 (to_le_bytes n a) m b post) as H.
  by rewrite length_to_le_bytes in H.
Qed.

Lemma read_le3 pre n m k a b c post :
  read_bytes (pre ++ to_le_bytes n a ++ to_le_bytes m b ++ to_le_bytes k c ++ post)
    (length pre + n + m) k = Some (to_le_bytes k c).
Proof.
  pose proof (read_le2 (pre ++ to_le_bytes n a) m k b c post) as H.
  by rewrite length_app, length_to_le_bytes, <- app_assoc in H.
Qed.

(** ** Lists *)

Lemma list_filter_ext_in {A} (P Q : A → Prop)
    {HP : ∀ x, Decision (P x)} {HQ : ∀ x, Decision (Q x)} (l : list A) :
  (∀ x, x ∈ l → P x ↔ Q x) → filter P l = filter Q l.
Proof.
  induction l as [|x l IH]; intros H; [done|]. rewrite !filter_cons.
  pose proof (H x ltac:(by left)).
  rewrite IH by (intros y Hy; apply H; by right).
  repeat case_decide; naive_solver.
Qed.

Lemma list_filter_all {A} (P : A → Prop) `{∀ x, Decision (P x)} (l : list A) :
  Forall P l → filter P l = l.
Proof. induction 1; [done|]. rewrite filter_cons, decide_True by done. by f_equal. Qed.

(** ** Walks down the keys of a map

    The fuel of a walk that goes from a key to a smaller one: the keys that are left. *)
Definition below {A} (m : gmap Z A) (c : Z) : nat := size (filter (λ s, s <= c) (dom m)).

Lemma below_le_size {A} (m : gmap Z A) c : (below m c <= size m)%nat.
Proof. unfold below. rewrite <- size_dom. apply subseteq_size. set_solver. Qed.

Lemma below_step {A} (m : gmap Z A) c p :
  is_Some (m !! c) → p < c → (below m p < below m c)%nat.
Proof.
  intros Hc Hp. unfold below. apply subset_size. split.
  - intros x [? ?]%elem_of_filter. apply elem_of_filter. split; [lia|done].
  - intros Hsub. specialize (Hsub c). rewrite !elem_of_filter, elem_of_dom in Hsub.
    destruct Hsub as [? _]; [split; [lia|done]|lia].
Qed.

(** The same for a walk to a greater key. *)
Definition above {A} (m : gmap Z A) (c : Z) : nat := size (filter (λ s, c < s) (dom m)).

Lemma above_le_size {A} (m : gmap Z A) c : (above m c <= size m)%nat.
Proof. unfold above. rewrite <- size_dom. apply subseteq_size. set_solver. Qed.

Lemma above_step {A} (m : gmap Z A) c s :
  is_Some (m !! s) → c < s → (above m s < above m c)%nat.
Proof.
  intros Hs Hc. unfold above. apply subset_size. split.
  - intros x [? ?]%elem_of_filter. apply elem_of_filter. split; [lia|done].
  - intros Hsub. specialize (Hsub s). rewrite !elem_of_filter, elem_of_dom in Hsub.
    destruct Hsub as [? _]; [split; [lia|done]|lia].
Qed.

(** A fold that keeps the better of two elements finds a best one. *)
Lemma foldl_best {A} (le : A → A → Prop) (pick : A → A → A) x l :
  Reflexive le → Transitive le →
  (∀ a b, (pick a b = a ∨ pick a b = b) ∧ le a (pick a b) ∧ le b (pick a b)) →
  foldl pick x l ∈ x :: l ∧ ∀ y, y ∈ x :: l → le y (foldl pick x l).
Proof.
  intros Hrefl Htrans Hpick. revert x. induction l as [|z l IH]; intros x; cbn.
  - split; [by left|]. intros y ->%list_elem_of_singleton. done.
  - destruct (Hpick x z) as (Hor & Hx & Hz). destruct (IH (pick x z)) as [Hin Hbest]. split.
    + apply elem_of_cons in Hin as [->|Hin]; [destruct Hor as [->| ->]; set_solver|set_solver].
    + assert (Hp : le (pick x z) (foldl pick (pick x z) l)) by (apply Hbest; left).
      intros y [->|[->|Hy]%elem_of_cons]%elem_of_cons; [by etrans|by etrans|]. apply Hbest. by right.
Qed.

(** ** Iteration order of a hash set

    A loop over a [HashSet] visits its elements in some order that the
    standard library does not fix: it is a parameter, constrained only to list
    the elements. *)
Class IterOrder (K : Type) `{Countable K} := {
  iter_order : gset K → list K;
  iter_order_perm : ∀ s, iter_order s ≡ₚ elements s;
}.

(** One possible order. *)
Definition elements_order (K : Type) `{Countable K} : IterOrder K :=
  {| iter_order := elements; iter_order_perm s := Permutation_refl _ |}.

Lemma elem_of_iter_order {K} `{IterOrder K} (s : gset K) x : x ∈ iter_order s ↔ x ∈ s.
Proof. by rewrite iter_order_perm, elem_of_elements. Qed.

(** [Result::expect]. *)
Definition expect {A E} (m : Outcome (result A E)) : Outcome A :=
  r ← m; match r with Ok a => mret a | Err _ => Panicked end.
