(* ===== verification/Tower.v ===== *)
(** * Tower BFT: the validator's own vote stack

    Model of [src/crates/karstflow-consensus/src/tower.rs].  A [Tower] is the
    stack of votes the validator has cast, most recent last; each vote locks
    the validator out of conflicting forks for [2 ^ confirmation_count] slots.
    Closures of type [impl Fn(u64, u64) -> bool] are Rocq functions. *)
From stdpp Require Import base tactics list sorting relations.
From Stdlib Require Import ZArith Lia.
From S2P Require Import Prelude.
Local Open Scope Z_scope.

(** ** Constants ([karstflow_constants::consensus]) *)

Definition VOTE_THRESHOLD_SIZE : f64 := f64_div (f64_of_u64 2) (f64_of_u64 3).
Definition SUPERMAJORITY_THRESHOLD : f64 := f64_div (f64_of_u64 2) (f64_of_u64 3).
(** The literal [0.38_f64] is the double nearest to 38/100. *)
Definition SWITCH_FORK_THRESHOLD : f64 := f64_div (f64_of_u64 38) (f64_of_u64 100).
Definition MAX_LOCKOUT_HISTORY : nat := 31.
Notation VOTE_THRESHOLD_DEPTH := (8)%nat (only parsing).
Definition INITIAL_LOCKOUT : Z := 2.
Definition MAX_EPOCH_CREDITS_HISTORY : nat := 64.
Definition MAX_CONFIRMATION_COUNT : Z := 31.

(** ** Votes *)

Record TowerVote := mkTowerVote {
  tv_slot : Z;
  tv_confirmation_count : Z;
}.

#[export] Instance TowerVote_eq_dec : EqDecision TowerVote.
Proof. solve_decision. Defined.

Definition TowerVote_new (slot : Z) : TowerVote :=
  {| tv_slot := slot; tv_confirmation_count := 1 |}.

Definition TowerVote_lockout (v : TowerVote) : Z :=
  u64_saturating_pow INITIAL_LOCKOUT (tv_confirmation_count v).

Definition TowerVote_expiration_slot (v : TowerVote) : Z :=
  u64_saturating_add (tv_slot v) (TowerVote_lockout v).

Definition TowerVote_is_locked_out_at (v : TowerVote) (slot : Z) : bool :=
  slot <? TowerVote_expiration_slot v.

Definition TowerVote_increment_confirmation (v : TowerVote) : TowerVote :=
  {| tv_slot := tv_slot v;
     tv_confirmation_count := u32_saturating_add (tv_confirmation_count v) 1 |}.
Arguments TowerVote_increment_confirmation : simpl never.

(** ** The tower *)

Record Tower := mkTower {
  tower_votes : list TowerVote;
  tower_root : option Z;
  tower_max_size : nat;
}.

Inductive TowerError :=
| LockoutViolation (slot : Z)
| VoteNotNewer (slot last_vote : Z)
| VoteBelowRoot (slot root : Z)
| SlotsNotOrdered (slot prev_slot : Z)
| ZeroConfirmation (slot : Z)
| ConfirmationTooLarge (slot confirmation : Z)
| ConfirmationsNotOrdered (slot confirmation : Z)
| TowerTooLarge (size max : nat).

Definition Tower_new : Tower :=
  {| tower_votes := []; tower_root := None; tower_max_size := MAX_LOCKOUT_HISTORY |}.

Definition Tower_with_root (root : Z) : Tower :=
  {| tower_votes := []; tower_root := Some root; tower_max_size := MAX_LOCKOUT_HISTORY |}.

Definition Tower_from_saved (votes : list TowerVote) (root : option Z) : Tower :=
  {| tower_votes := votes; tower_root := root; tower_max_size := MAX_LOCKOUT_HISTORY |}.

Definition Tower_last_vote_slot (t : Tower) : option Z :=
  tv_slot <$> last (tower_votes t).

(** The [while count > 0] loop of [simulate_vote]; [count] never exceeds the
    length, so the lookup succeeds. *)
Fixpoint Tower_simulate_vote_loop (votes : list TowerVote) (slot : Z) (count : nat) : nat :=
  match count with
  | O => O
  | S c =>
      match votes !! c with
      | Some vote =>
          if slot <? TowerVote_expiration_slot vote then count
          else Tower_simulate_vote_loop votes slot c
      | None => count
      end
  end.

Definition Tower_simulate_vote (t : Tower) (slot : Z) : nat :=
  Tower_simulate_vote_loop (tower_votes t) slot (length (tower_votes t)).

Definition Tower_is_locked_out (t : Tower) (slot : Z) (is_same_fork : Z → Z → bool) : bool :=
  if (match tower_root t with Some root => slot <=? root | None => false end)
  then true
  else existsb (λ vote, TowerVote_is_locked_out_at vote slot
                        && negb (is_same_fork (tv_slot vote) slot)) (tower_votes t).

(** The loop [for vote in self.votes.iter_mut().rev()] of [push_vote], over the
    reversed stack. *)
Fixpoint Tower_increment_loop (prev_conf : Z) (rev_votes : list TowerVote) : list TowerVote :=
  match rev_votes with
  | [] => []
  | vote :: rest =>
      let prev_conf := u32_add prev_conf 1 in
      if negb (tv_confirmation_count vote =? prev_conf) then vote :: rest
      else TowerVote_increment_confirmation vote :: Tower_increment_loop prev_conf rest
  end.

Definition Tower_push_vote (t : Tower) (slot : Z) : option Z * Tower :=
  if (match Tower_last_vote_slot t with Some last => slot <=? last | None => false end)
  then (None, t)
  else
    let remaining := Tower_simulate_vote t slot in
    let votes := take remaining (tower_votes t) in
    let '(new_root, root, votes) :=
      if (tower_max_size t <=? length votes)%nat then
        match votes with
        | bottom :: votes' => (Some (tv_slot bottom), Some (tv_slot bottom), votes')
        | [] => (None, tower_root t, votes)
        end
      else (None, tower_root t, votes) in
    let votes := reverse (Tower_increment_loop 0 (reverse votes)) in
    (new_root,
     {| tower_votes := votes ++ [TowerVote_new slot];
        tower_root := root;
        tower_max_size := tower_max_size t |}).

Definition Tower_set_root (t : Tower) (new_root : Z) : Tower :=
  {| tower_votes := base.filter (λ v, new_root < tv_slot v) (tower_votes t);
     tower_root := Some new_root;
     tower_max_size := tower_max_size t |}.

Definition Tower_clear_votes (t : Tower) : Tower :=
  {| tower_votes := []; tower_root := tower_root t; tower_max_size := tower_max_size t |}.

Definition Tower_record_vote (t : Tower) (slot : Z) (is_same_fork : Z → Z → bool) :
    result (option Z) TowerError * Tower :=
  if Tower_is_locked_out t slot is_same_fork then (Err (LockoutViolation slot), t)
  else let '(new_root, t') := Tower_push_vote t slot in (Ok new_root, t').

Definition Tower_check_switch_threshold (t : Tower) (total_stake stake_on_other_forks : Z) : bool :=
  if total_stake =? 0 then true
  else if bool_decide (tower_votes t = []) then true
  else f64_ge (f64_div (f64_of_u64 stake_on_other_forks) (f64_of_u64 total_stake))
              SWITCH_FORK_THRESHOLD.

Definition Tower_can_switch_to (t : Tower) (candidate total_stake current_fork_stake : Z)
    (is_same_fork : Z → Z → bool) : bool :=
  match Tower_last_vote_slot t with
  | None => true
  | Some last_vote_slot =>
      if is_same_fork last_vote_slot candidate then true
      else Tower_check_switch_threshold t total_stake
             (u64_saturating_sub total_stake current_fork_stake)
  end.

Definition Tower_check_threshold (t : Tower) (depth : nat) (stake_for_slot : Z → Z)
    (total_stake : Z) : bool :=
  if total_stake =? 0 then false
  else
    let check_depth := Nat.min depth (length (tower_votes t)) in
    if (check_depth =? 0)%nat then true
    else
      let idx := (length (tower_votes t) - check_depth)%nat in
      match tower_votes t !! idx with
      | None => true
      | Some vote =>
          f64_ge (f64_div (f64_of_u64 (stake_for_slot (tv_slot vote))) (f64_of_u64 total_stake))
                 VOTE_THRESHOLD_SIZE
      end.

(** [verify]: the loops over adjacent indices become recursions over adjacent
    elements. *)
Fixpoint Tower_verify_root (root : Z) (votes : list TowerVote) : result () TowerError :=
  match votes with
  | [] => Ok ()
  | vote :: rest =>
      if tv_slot vote <=? root then Err (VoteBelowRoot (tv_slot vote) root)
      else Tower_verify_root root rest
  end.

Fixpoint Tower_verify_slots (votes : list TowerVote) : result () TowerError :=
  match votes with
  | prev :: ((vote :: _) as rest) =>
      if tv_slot vote <=? tv_slot prev then Err (SlotsNotOrdered (tv_slot vote) (tv_slot prev))
      else Tower_verify_slots rest
  | _ => Ok ()
  end.

Fixpoint Tower_verify_confirmations (prev : option TowerVote) (votes : list TowerVote) :
    result () TowerError :=
  match votes with
  | [] => Ok ()
  | vote :: rest =>
      let conf := tv_confirmation_count vote in
      if conf =? 0 then Err (ZeroConfirmation (tv_slot vote))
      else if MAX_CONFIRMATION_COUNT <? conf then Err (ConfirmationTooLarge (tv_slot vote) conf)
      else if (match prev with
               | Some p => tv_confirmation_count p <? conf
               | None => false
               end)
      then Err (ConfirmationsNotOrdered (tv_slot vote) conf)
      else Tower_verify_confirmations (Some vote) rest
  end.

Definition Tower_verify (t : Tower) : result () TowerError :=
  if (tower_max_size t <? length (tower_votes t))%nat
  then Err (TowerTooLarge (length (tower_votes t)) (tower_max_size t))
  else
    match (match tower_root t with
           | Some root => Tower_verify_root root (tower_votes t)
           | None => Ok ()
           end) with
    | Err e => Err e
    | Ok _ =>
        match Tower_verify_slots (tower_votes t) with
        | Err e => Err e
        | Ok _ => Tower_verify_confirmations None (tower_votes t)
        end
    end.

(** The candidate loop of [select_vote_slot]. *)
Fixpoint Tower_select_loop (t : Tower) (is_same_fork : Z → Z → bool)
    (best : option (Z * Z)) (candidates : list (Z * Z)) : option (Z * Z) :=
  match candidates with
  | [] => best
  | (slot, weight) :: rest =>
      let best :=
        if (match Tower_last_vote_slot t with Some last => slot <=? last | None => false end)
        then best
        else if Tower_is_locked_out t slot is_same_fork then best
        else match best with
             | None => Some (slot, weight)
             | Some (best_slot, best_weight) =>
                 if (best_weight <? weight) || ((weight =? best_weight) && (slot <? best_slot))
                 then Some (slot, weight) else best
             end in
      Tower_select_loop t is_same_fork best rest
  end.

Definition Tower_select_vote_slot (t : Tower) (candidates : list (Z * Z))
    (is_same_fork : Z → Z → bool) : option Z :=
  fst <$> Tower_select_loop t is_same_fork None candidates.

(** Read-only queries. *)
Definition Tower_vote_slots (t : Tower) : list Z := tv_slot <$> tower_votes t.

(** ** The well-formedness invariant

    Stated on the reversed stack: walking from the newest vote down, the
    confirmation counts strictly increase and the slots strictly decrease. *)

Fixpoint stack_wf (conf_below : Z) (rev_votes : list TowerVote) : Prop :=
  match rev_votes with
  | [] => True
  | v :: rest =>
      conf_below < tv_confirmation_count v ∧
      Forall (λ w, tv_slot w < tv_slot v) rest ∧
      stack_wf (tv_confirmation_count v) rest
  end.

Record tower_wf (t : Tower) : Prop := {
  wf_max_size : tower_max_size t = MAX_LOCKOUT_HISTORY;
  wf_length : (length (tower_votes t) <= MAX_LOCKOUT_HISTORY)%nat;
  wf_stack : stack_wf 0 (reverse (tower_votes t));
  wf_conf : Forall (λ v, tv_confirmation_count v <= MAX_CONFIRMATION_COUNT) (tower_votes t);
  wf_root : ∀ root, tower_root t = Some root → Forall (λ v, root < tv_slot v) (tower_votes t);
}.

Section increment_loop.
Implicit Types (rv : list TowerVote) (v : TowerVote).

Lemma increment_confirmation_small v :
  tv_confirmation_count v <= MAX_CONFIRMATION_COUNT →
  tv_confirmation_count (TowerVote_increment_confirmation v) = tv_confirmation_count v + 1.
Proof.
  unfold MAX_CONFIRMATION_COUNT, TowerVote_increment_confirmation, u32_saturating_add, u32_max.
  simpl. lia.
Qed.

Lemma increment_loop_slots p rv :
  tv_slot <$> Tower_increment_loop p rv = tv_slot <$> rv.
Proof.
  revert p. induction rv as [|v rv IH]; intros p; cbn; [done|].
  case_match; cbn; [done|]. by rewrite IH.
Qed.

Lemma Forall_slots_eq (P : Z → Prop) rv rv' :
  tv_slot <$> rv = tv_slot <$> rv' →
  Forall (λ v, P (tv_slot v)) rv → Forall (λ v, P (tv_slot v)) rv'.
Proof.
  intros E H. change (Forall (P ∘ tv_slot) rv'). apply Forall_fmap.
  rewrite <- E. by apply Forall_fmap.
Qed.

Lemma increment_loop_wf p rv :
  0 <= p → p + Z.of_nat (length rv) < u32_max →
  Forall (λ v, tv_confirmation_count v <= MAX_CONFIRMATION_COUNT) rv →
  stack_wf p rv → stack_wf (p + 1) (Tower_increment_loop p rv).
Proof.
  revert p. induction rv as [|v rv IH]; intros p Hp Hlen Hmax; cbn -[Z.add]; [done|].
  intros (Hc & Hs & Hrest).
  assert (u32_add p 1 = p + 1) as Hadd.
  { unfold u32_add. rewrite wrap32_small; [done|]. cbn in Hlen.
    unfold is_u32 in *. lia. }
  rewrite Hadd. inversion Hmax; subst.
  destruct (tv_confirmation_count v =? p + 1) eqn:E; cbn -[Z.add].
  - apply Z.eqb_eq in E. rewrite increment_confirmation_small by done.
    split; [lia|]. split.
    + eapply (Forall_slots_eq (λ s, s < tv_slot v)); [|exact Hs].
      symmetry. apply increment_loop_slots.
    + replace (tv_confirmation_count v + 1) with (p + 1 + 1) by lia.
      apply IH; [lia| |done|].
      * cbn in Hlen. lia.
      * by rewrite <- E.
  - apply Z.eqb_neq in E. split; [lia|]. done.
Qed.

Lemma increment_loop_max p rv m :
  0 <= p → p + Z.of_nat (length rv) <= m → m < MAX_CONFIRMATION_COUNT →
  Forall (λ v, tv_confirmation_count v <= MAX_CONFIRMATION_COUNT) rv →
  Forall (λ v, tv_confirmation_count v <= MAX_CONFIRMATION_COUNT) (Tower_increment_loop p rv).
Proof.
  unfold MAX_CONFIRMATION_COUNT.
  revert p. induction rv as [|v rv IH]; intros p Hp Hlen Hm Hmax; cbn -[Z.add]; [done|].
  cbn in Hlen. inversion Hmax; subst.
  assert (u32_add p 1 = p + 1) as ->.
  { unfold u32_add. rewrite wrap32_small; [done|]. unfold is_u32, u32_max. lia. }
  case_match; [done|]. b2p.
  constructor.
  - rewrite increment_confirmation_small; unfold MAX_CONFIRMATION_COUNT; lia.
  - apply IH; [lia|lia|done|done].
Qed.
End increment_loop.

(** *** Sub-stacks of a well-formed stack *)

Lemma stack_wf_weaken c c' rv : c' <= c → stack_wf c rv → stack_wf c' rv.
Proof. destruct rv; cbn; [done|]. intros ? (? & ? & ?). split; [lia|done]. Qed.

Lemma stack_wf_suffix c rv rv' : stack_wf c (rv ++ rv') → stack_wf c rv'.
Proof.
  revert c. induction rv as [|v rv IH]; intros c; [done|].
  cbn. intros (? & ? & ?). eapply stack_wf_weaken; [|by apply IH]. lia.
Qed.

Lemma stack_wf_filter (P : TowerVote → Prop) `{∀ v, Decision (P v)} c rv :
  stack_wf c rv → stack_wf c (base.filter P rv).
Proof.
  revert c. induction rv as [|v rv IH]; intros c; [done|].
  intros (Hc & Hs & Hr). rewrite filter_cons. case_decide; cbn.
  - split; [done|]. split; [|by apply IH].
    rewrite Forall_forall in Hs |- *. intros w Hw%list_elem_of_filter. naive_solver.
  - eapply stack_wf_weaken; [|by apply IH]. lia.
Qed.

Lemma stack_wf_removelast c rv v : stack_wf c (rv ++ [v]) → stack_wf c rv.
Proof.
  revert c. induction rv as [|w rv IH]; intros c; [done|].
  cbn. intros (? & Hs & ?). split; [done|]. split; [|by eapply IH].
  by apply Forall_app in Hs as [? _].
Qed.

Lemma stack_wf_bottom c rv v :
  stack_wf c (rv ++ [v]) → Forall (λ w, tv_slot v < tv_slot w) rv.
Proof.
  revert c. induction rv as [|w rv IH]; intros c; [done|].
  cbn. intros (? & Hs & ?). constructor; [|by eapply IH].
  apply Forall_app in Hs as [_ Hs]. by inversion Hs.
Qed.

(** *** Expiry: [simulate_vote] finds the longest expired suffix *)

Lemma simulate_vote_loop_spec votes slot n :
  (n <= length votes)%nat →
  let k := Tower_simulate_vote_loop votes slot n in
  (k <= n)%nat ∧
  (∀ i v, (k <= i < n)%nat → votes !! i = Some v → TowerVote_expiration_slot v <= slot) ∧
  (∀ v, votes !! pred k = Some v → k ≠ 0%nat → slot < TowerVote_expiration_slot v).
Proof.
  induction n as [|n IH]; cbn; intros Hn; [split_and!; [lia|lia|lia]|].
  destruct (lookup_lt_is_Some_2 votes n) as [v Hv]; [lia|]. rewrite Hv.
  destruct (slot <? TowerVote_expiration_slot v) eqn:E; b2p.
  - split_and!; [lia|lia|]. cbn. intros w Hw _. naive_solver.
  - destruct IH as (IH1 & IH2 & IH3); [lia|]. split_and!; [lia| |done].
    intros i w Hi Hw. destruct (decide (i = n)) as [->|]; [naive_solver|].
    eapply IH2; [|done]. lia.
Qed.

(** The votes [push_vote] keeps and the ones it pops. *)
Lemma simulate_vote_split t slot :
  let kept := take (Tower_simulate_vote t slot) (tower_votes t) in
  let popped := drop (Tower_simulate_vote t slot) (tower_votes t) in
  tower_votes t = kept ++ popped ∧
  Forall (λ v, TowerVote_expiration_slot v <= slot) popped ∧
  (∀ v, last kept = Some v → slot < TowerVote_expiration_slot v).
Proof.
  destruct (simulate_vote_loop_spec (tower_votes t) slot (length (tower_votes t)))
    as (Hk & Hpop & Hkeep); [lia|].
  fold (Tower_simulate_vote t slot) in Hk, Hpop, Hkeep. cbn. split_and!.
  - by rewrite take_drop.
  - apply Forall_lookup. intros i v Hi. rewrite lookup_drop in Hi.
    eapply Hpop; [|exact Hi]. apply lookup_lt_Some in Hi. lia.
  - intros v Hv. rewrite last_lookup, length_take_le in Hv by lia.
    destruct (Tower_simulate_vote t slot) as [|k] eqn:E; [done|].
    apply Hkeep; [|done]. cbn in *. rewrite lookup_take_lt in Hv by lia. done.
Qed.

(** *** [push_vote] in terms of the kept votes *)

Definition below_last (t : Tower) (slot : Z) : Prop :=
  ∀ last_slot, Tower_last_vote_slot t = Some last_slot → last_slot < slot.

(** The stack before the new vote is added: the kept votes, less the bottom one
    when they fill the tower; and the root after the push. *)
Definition kept_votes (t : Tower) (slot : Z) : list TowerVote :=
  take (Tower_simulate_vote t slot) (tower_votes t).
Definition tower_fills (t : Tower) (slot : Z) : bool :=
  (tower_max_size t <=? length (kept_votes t slot))%nat.
Definition base_votes (t : Tower) (slot : Z) : list TowerVote :=
  if tower_fills t slot then tail (kept_votes t slot) else kept_votes t slot.
Definition rooted_slot (t : Tower) (slot : Z) : option Z :=
  if tower_fills t slot then tv_slot <$> head (kept_votes t slot) else None.

Lemma push_vote_fresh t slot :
  below_last t slot →
  Tower_push_vote t slot =
    (rooted_slot t slot,
     {| tower_votes := reverse (Tower_increment_loop 0 (reverse (base_votes t slot)))
                       ++ [TowerVote_new slot];
        tower_root := match rooted_slot t slot with Some r => Some r | None => tower_root t end;
        tower_max_size := tower_max_size t |}).
Proof.
  intros Hlast. unfold Tower_push_vote, rooted_slot, base_votes, tower_fills.
  assert ((match Tower_last_vote_slot t with Some l => slot <=? l | None => false end) = false)
    as ->.
  { destruct (Tower_last_vote_slot t) as [l|] eqn:E; [|done].
    apply Z.leb_gt. by apply Hlast. }
  fold (kept_votes t slot). destruct (_ <=? _)%nat; [|done].
  by destruct (kept_votes t slot).
Qed.

Lemma push_vote_stale t slot :
  ¬ below_last t slot → Tower_push_vote t slot = (None, t).
Proof.
  unfold below_last, Tower_push_vote. intros Hl.
  destruct (Tower_last_vote_slot t) as [l|]; [|naive_solver].
  destruct (slot <=? l) eqn:E; [done|]. b2p. naive_solver.
Qed.

#[export] Instance below_last_dec t slot : Decision (below_last t slot).
Proof.
  unfold below_last. destruct (Tower_last_vote_slot t) as [l|].
  - destruct (decide (l < slot)); [left|right]; naive_solver.
  - left. naive_solver.
Defined.

Lemma stack_wf_below c votes slot :
  stack_wf c (reverse votes) → (∀ v, last votes = Some v → tv_slot v < slot) →
  Forall (λ v, tv_slot v < slot) votes.
Proof.
  rewrite <- head_reverse, <- Forall_reverse.
  destruct (reverse votes) as [|v rv]; [done|]. cbn. intros (_ & Hs & _) Hv.
  specialize (Hv v eq_refl). constructor; [done|].
  eapply Forall_impl; [exact Hs|]. cbn. lia.
Qed.

(** What the stack before the new vote satisfies. *)
Record base_ok (slot : Z) (root : option Z) (base : list TowerVote) : Prop := {
  base_length : (length base < MAX_LOCKOUT_HISTORY)%nat;
  base_stack : stack_wf 0 (reverse base);
  base_slots : Forall (λ v, tv_slot v < slot) base;
  base_conf : Forall (λ v, tv_confirmation_count v <= MAX_CONFIRMATION_COUNT) base;
  base_root : ∀ r, root = Some r → r < slot ∧ Forall (λ v, r < tv_slot v) base;
}.

Lemma base_ok_push slot root base :
  base_ok slot root base →
  tower_wf {| tower_votes := reverse (Tower_increment_loop 0 (reverse base))
                             ++ [TowerVote_new slot];
              tower_root := root; tower_max_size := MAX_LOCKOUT_HISTORY |}.
Proof.
  intros [Hlen Hst Hs Hc Hr].
  assert (tv_slot <$> reverse (Tower_increment_loop 0 (reverse base)) = tv_slot <$> base) as Hsl.
  { by rewrite fmap_reverse, increment_loop_slots, <- fmap_reverse, reverse_involutive. }
  unfold MAX_LOCKOUT_HISTORY in *.
  split; cbn [tower_votes tower_root tower_max_size].
  - done.
  - rewrite length_app, <- (length_fmap tv_slot), Hsl, length_fmap. cbn.
    unfold MAX_LOCKOUT_HISTORY. lia.
  - rewrite reverse_snoc, reverse_involutive. cbn [stack_wf]. split; [by cbn|]. split.
    + eapply (Forall_slots_eq (λ s, s < slot)); [symmetry; apply increment_loop_slots|].
      by apply Forall_reverse.
    + apply (increment_loop_wf 0); [lia| |by apply Forall_reverse|done].
      rewrite length_reverse. unfold u32_max. lia.
  - apply Forall_app. split; [|by repeat constructor].
    apply Forall_reverse, (increment_loop_max 0 _ 30);
      [lia| |by vm_compute|by apply Forall_reverse].
    rewrite length_reverse. lia.
  - intros r Hr'. destruct (Hr r Hr') as [Hlt Hall]. apply Forall_app. split.
    + eapply (Forall_slots_eq (λ s, r < s)); [symmetry; exact Hsl|done].
    + by repeat constructor.
Qed.

Lemma kept_votes_ok t slot :
  tower_wf t → below_last t slot →
  let kept := kept_votes t slot in
  (length kept <= MAX_LOCKOUT_HISTORY)%nat ∧ stack_wf 0 (reverse kept) ∧
  Forall (λ v, tv_slot v < slot) kept ∧
  Forall (λ v, tv_confirmation_count v <= MAX_CONFIRMATION_COUNT) kept ∧
  (∀ r, tower_root t = Some r → Forall (λ v, r < tv_slot v) kept).
Proof.
  intros [_ Hlen Hst Hc Hr] Hlast. cbn.
  destruct (simulate_vote_split t slot) as (Hsplit & _ & _). cbn in Hsplit.
  fold (kept_votes t slot) in Hsplit.
  assert (Forall (λ v, tv_slot v < slot) (tower_votes t)) as Hslots.
  { eapply stack_wf_below; [done|]. intros v Hv. apply Hlast.
    unfold Tower_last_vote_slot. by rewrite Hv. }
  rewrite Hsplit in *. rewrite length_app in Hlen. rewrite reverse_app in Hst.
  apply Forall_app in Hc as [Hc _], Hslots as [Hslots _]. split_and!; try done.
  - lia.
  - by eapply stack_wf_suffix.
  - intros r Hr'. specialize (Hr r Hr'). by apply Forall_app in Hr as [Hr _].
Qed.

Lemma push_vote_wf t slot :
  tower_wf t → (∀ root, tower_root t = Some root → root < slot) →
  tower_wf (Tower_push_vote t slot).2.
Proof.
  intros Hwf Hroot.
  destruct (decide (below_last t slot)) as [Hlast|Hstale].
  2: { by rewrite push_vote_stale. }
  rewrite push_vote_fresh by done. cbn. rewrite (wf_max_size t) by done.
  destruct (kept_votes_ok t slot) as (Hk1 & Hk2 & Hk3 & Hk4 & Hk5); [done|done|].
  apply base_ok_push. unfold base_votes, rooted_slot, tower_fills.
  rewrite (wf_max_size t) by done.
  destruct (MAX_LOCKOUT_HISTORY <=? length (kept_votes t slot))%nat eqn:Hf.
  - destruct (kept_votes t slot) as [|b rest]; [done|].
    inversion Hk3; inversion Hk4; subst. rewrite reverse_cons in Hk2.
    split; [cbn in *; lia|by eapply stack_wf_removelast|done|done|].
    intros r [= <-]. split; [done|]. apply stack_wf_bottom in Hk2.
    rewrite Forall_reverse in Hk2. exact Hk2.
  - apply Nat.leb_gt in Hf. split; [done|done|done|done|naive_solver].
Qed.

(** *** [verify] accepts well-formed towers *)

Lemma stack_wf_bottom_conf c rv v :
  stack_wf c (rv ++ [v]) →
  c < tv_confirmation_count v ∧
  Forall (λ w, tv_confirmation_count w < tv_confirmation_count v) rv.
Proof.
  revert c. induction rv as [|w rv IH]; intros c; cbn.
  - naive_solver.
  - intros (Hc & _ & Hr). apply IH in Hr as [? ?]. split; [lia|].
    by constructor.
Qed.

Lemma verify_root_ok root votes :
  Forall (λ v, root < tv_slot v) votes → Tower_verify_root root votes = Ok ().
Proof. induction 1; cbn; [done|]. case_match; b2p; [lia|done]. Qed.

Lemma verify_slots_ok c votes :
  stack_wf c (reverse votes) → Tower_verify_slots votes = Ok ().
Proof.
  induction votes as [|v [|w votes] IH]; intros Hs; [done|done|].
  rewrite reverse_cons in Hs. cbn [Tower_verify_slots].
  pose proof (stack_wf_bottom _ _ _ Hs) as Hb. rewrite Forall_reverse in Hb.
  inversion Hb; subst. case_match; b2p; [lia|].
  apply IH. by eapply stack_wf_removelast.
Qed.

Lemma verify_confirmations_ok c prev votes :
  0 <= c → stack_wf c (reverse votes) →
  Forall (λ v, tv_confirmation_count v <= MAX_CONFIRMATION_COUNT) votes →
  (∀ p, prev = Some p →
        Forall (λ v, tv_confirmation_count v <= tv_confirmation_count p) votes) →
  Tower_verify_confirmations prev votes = Ok ().
Proof.
  revert prev. induction votes as [|v votes IH]; intros prev Hc Hs Hmax Hp; [done|].
  rewrite reverse_cons in Hs. apply Forall_cons in Hmax as [Hv Hmax].
  destruct (stack_wf_bottom_conf _ _ _ Hs) as [Hcv Hlt]. rewrite Forall_reverse in Hlt.
  cbn [Tower_verify_confirmations]. repeat (case_match; b2p); try lia; simplify_eq.
  - specialize (Hp _ eq_refl). apply Forall_cons in Hp as [? ?]. lia.
  - apply IH; [done|by eapply stack_wf_removelast|done|].
    intros p [= <-]. eapply Forall_impl; [exact Hlt|]. cbn. lia.
  - apply IH; [done|by eapply stack_wf_removelast|done|].
    intros p [= <-]. eapply Forall_impl; [exact Hlt|]. cbn. lia.
Qed.

Lemma wf_verify t : tower_wf t → Tower_verify t = Ok ().
Proof.
  intros [Hmax Hlen Hst Hc Hr]. unfold Tower_verify. rewrite Hmax.
  assert ((MAX_LOCKOUT_HISTORY <? length (tower_votes t))%nat = false) as ->.
  { apply Nat.ltb_ge. lia. }
  assert ((match tower_root t with
           | Some root => Tower_verify_root root (tower_votes t)
           | None => Ok () end) = Ok ()) as ->.
  { destruct (tower_root t); [|done]. apply verify_root_ok. by apply Hr. }
  erewrite verify_slots_ok by done.
  eapply (verify_confirmations_ok 0); [done|done|done|naive_solver].
Qed.

(** *** Reachable towers *)

Inductive tower_step : Tower → Tower → Prop :=
| step_record_vote t slot is_same_fork :
    tower_step t (Tower_record_vote t slot is_same_fork).2
| step_set_root t new_root : tower_step t (Tower_set_root t new_root)
| step_clear_votes t : tower_step t (Tower_clear_votes t).

Inductive tower_init : Tower → Prop :=
| init_new : tower_init Tower_new
| init_with_root root : tower_init (Tower_with_root root).

Lemma init_wf t : tower_init t → tower_wf t.
Proof. destruct 1; split; cbn; try done; try lia. Qed.

Lemma is_locked_out_false t slot same :
  Tower_is_locked_out t slot same = false ↔
  (∀ root, tower_root t = Some root → root < slot) ∧
  (∀ v, v ∈ tower_votes t → slot < TowerVote_expiration_slot v →
        same (tv_slot v) slot = true).
Proof.
  unfold Tower_is_locked_out.
  destruct (match tower_root t with Some root => slot <=? root | None => false end) eqn:E.
  - split; [done|]. intros [Hr _]. destruct (tower_root t) as [r|]; [|done].
    b2p. specialize (Hr r eq_refl). lia.
  - assert (∀ root, tower_root t = Some root → root < slot) as Hroot.
    { intros r Hr. rewrite Hr in E. by b2p. }
    rewrite <- not_true_iff_false, existsb_exists. split.
    + intros Hno. split; [done|]. intros v Hv Hlt.
      destruct (same (tv_slot v) slot) eqn:Es; [done|]. exfalso. apply Hno.
      exists v. rewrite <- list_elem_of_In. split; [done|].
      unfold TowerVote_is_locked_out_at. rewrite Es, (proj2 (Z.ltb_lt _ _)) by done. done.
    + intros [_ Hall] (v & Hv%list_elem_of_In & Hb). unfold TowerVote_is_locked_out_at in Hb.
      b2p. rewrite Hall in * by done. done.
Qed.

Lemma step_wf t t' : tower_wf t → tower_step t t' → tower_wf t'.
Proof.
  intros Hwf Hstep. destruct Hstep as [t slot same|t r|t].
  - unfold Tower_record_vote. destruct (Tower_is_locked_out t slot same) eqn:E; [done|].
    pose proof (push_vote_wf t slot Hwf) as H. destruct (Tower_push_vote t slot). apply H.
    by apply is_locked_out_false in E as [? _].
  - destruct Hwf as [Hmax Hlen Hst Hc Hr]. split; cbn [Tower_set_root tower_votes tower_root tower_max_size].
    + done.
    + etrans; [apply length_filter|done].
    + rewrite <- filter_reverse. by apply stack_wf_filter.
    + apply Forall_forall. intros v [_ Hv]%list_elem_of_filter.
      rewrite Forall_forall in Hc. by apply Hc.
    + intros root [= <-]. apply Forall_forall. by intros v [? _]%list_elem_of_filter.
  - destruct Hwf. split; cbn; try done; try lia.
Qed.
#[export] Hint Resolve init_wf step_wf wf_verify : karst.

Lemma reachable_wf t0 t : tower_init t0 → rtc tower_step t0 t → tower_wf t.
Proof.
  intros H0 Hr. apply init_wf in H0. induction Hr; [done|]. apply IHHr. by eapply step_wf.
Qed.

(** *** Runs of consecutive votes *)

(** The tower after voting for the [n] consecutive slots from [start]. *)
Fixpoint vote_run (start : Z) (n : nat) : Tower :=
  match n with
  | O => Tower_new
  | S m => (Tower_push_vote (vote_run start m) (start + Z.of_nat m)).2
  end.

(** A stack of [k] consecutive votes ending at [top], newest first, the [i]-th
    with [i + 1] confirmations. *)
Definition run_stack (top : Z) (k : nat) : list TowerVote :=
  (λ i : nat, mkTowerVote (top - Z.of_nat i) (Z.of_nat i + 1)) <$> seq 0 k.

Lemma run_stack_S top k :
  run_stack top (S k) = run_stack top k ++ [mkTowerVote (top - Z.of_nat k) (Z.of_nat k + 1)].
Proof. unfold run_stack. by rewrite seq_S, fmap_app. Qed.

Lemma run_stack_cons top k :
  run_stack top (S k) =
  TowerVote_new top :: ((λ v, mkTowerVote (tv_slot v) (tv_confirmation_count v + 1))
                          <$> run_stack (top - 1) k).
Proof.
  unfold run_stack, TowerVote_new. cbn. f_equal; [f_equal; lia|].
  rewrite <- fmap_S_seq, <- !list_fmap_compose. apply list_fmap_ext. intros i j _. cbn. f_equal; lia.
Qed.

Lemma increment_loop_run p l :
  0 <= p → p + Z.of_nat (length l) < u32_max →
  (∀ i v, l !! i = Some v → tv_confirmation_count v = p + 1 + Z.of_nat i) →
  Tower_increment_loop p l =
  (λ v, mkTowerVote (tv_slot v) (tv_confirmation_count v + 1)) <$> l.
Proof.
  revert p. induction l as [|v l IH]; intros p Hp Hlen Hl; [done|].
  cbn [length] in Hlen. cbn [Tower_increment_loop fmap list_fmap].
  assert (u32_add p 1 = p + 1) as ->.
  { unfold u32_add. rewrite wrap32_small; [done|]. unfold is_u32. lia. }
  pose proof (Hl 0%nat v eq_refl) as Hv. rewrite (proj2 (Z.eqb_eq _ _)) by lia. cbn [negb].
  f_equal.
  - unfold TowerVote_increment_confirmation, u32_saturating_add. f_equal. lia.
  - apply IH; [lia|lia|]. intros i w Hw. specialize (Hl (S i) w Hw). lia.
Qed.

Lemma increment_loop_run_stack top k :
  (k <= MAX_LOCKOUT_HISTORY)%nat →
  Tower_increment_loop 0 (run_stack top k) =
  (λ v, mkTowerVote (tv_slot v) (tv_confirmation_count v + 1)) <$> run_stack top k.
Proof.
  intros Hk. unfold MAX_LOCKOUT_HISTORY in Hk. apply increment_loop_run.
  - done.
  - unfold run_stack. rewrite length_fmap, length_seq. unfold u32_max. lia.
  - intros i v. unfold run_stack. rewrite list_lookup_fmap_Some.
    intros (j & -> & (-> & _)%lookup_seq). cbn. lia.
Qed.

Lemma simulate_vote_all_kept t slot v :
  last (tower_votes t) = Some v → slot < TowerVote_expiration_slot v →
  Tower_simulate_vote t slot = length (tower_votes t).
Proof.
  unfold Tower_simulate_vote. rewrite last_lookup.
  destruct (length (tower_votes t)) as [|n] eqn:E; [done|]. cbn. intros -> Hlt.
  by rewrite (proj2 (Z.ltb_lt _ _)).
Qed.

Lemma new_expiration_slot top :
  top + 2 <= u64_max → TowerVote_expiration_slot (TowerVote_new top) = top + 2.
Proof.
  intros H. unfold TowerVote_expiration_slot, u64_saturating_add.
  change (TowerVote_lockout (TowerVote_new top)) with 2. cbn [tv_slot TowerVote_new]. lia.
Qed.

Lemma run_stack_last top k v : last (reverse (run_stack top k)) = Some v → v = TowerVote_new top.
Proof.
  destruct k as [|k]; [done|]. rewrite run_stack_cons, reverse_cons, last_snoc. congruence.
Qed.

(** One more vote of a run: nothing expires. *)
Lemma run_kept_votes top k root :
  top + 2 <= u64_max →
  let t := mkTower (reverse (run_stack top k)) root MAX_LOCKOUT_HISTORY in
  below_last t (top + 1) ∧ kept_votes t (top + 1) = reverse (run_stack top k).
Proof.
  intros Htop t. split.
  - intros l Hl'. unfold Tower_last_vote_slot in Hl'.
    destruct (last (tower_votes t)) as [v|] eqn:E; [|done].
    apply run_stack_last in E as ->. cbn in Hl'. simplify_eq. lia.
  - unfold kept_votes. destruct (last (tower_votes t)) as [v|] eqn:E.
    + erewrite simulate_vote_all_kept, firstn_all; [done|exact E|].
      apply run_stack_last in E as ->. rewrite new_expiration_slot; lia.
    + apply last_None in E. rewrite E, take_nil. done.
Qed.

Lemma push_vote_run top k root :
  (k <= MAX_LOCKOUT_HISTORY)%nat → top + 2 <= u64_max →
  let t := mkTower (reverse (run_stack top k)) root MAX_LOCKOUT_HISTORY in
  (Tower_push_vote t (top + 1)).2 =
  if decide (k = MAX_LOCKOUT_HISTORY)
  then mkTower (reverse (run_stack (top + 1) k)) (Some (top - 30)) MAX_LOCKOUT_HISTORY
  else mkTower (reverse (run_stack (top + 1) (S k))) root MAX_LOCKOUT_HISTORY.
Proof.
  intros Hk Htop t. destruct (run_kept_votes top k root Htop) as [Hb Hkept].
  fold t in Hb, Hkept. rewrite push_vote_fresh by done.
  unfold rooted_slot, base_votes, tower_fills. rewrite Hkept.
  cbn [tower_votes tower_root tower_max_size t snd].
  assert (length (reverse (run_stack top k)) = k) as ->.
  { unfold run_stack. by rewrite length_reverse, length_fmap, length_seq. }
  case_decide as Hd; [subst k|].
  - rewrite (proj2 (Nat.leb_le _ _)) by done.
    change MAX_LOCKOUT_HISTORY with (S 30). rewrite (run_stack_S top), (run_stack_cons (top + 1)).
    rewrite reverse_snoc, reverse_cons. cbn [tail head fmap option_fmap option_map].
    rewrite reverse_involutive, increment_loop_run_stack by (unfold MAX_LOCKOUT_HISTORY; lia).
    by replace (top + 1 - 1) with top by lia.
  - rewrite (proj2 (Nat.leb_gt _ _)) by lia.
    rewrite reverse_involutive, increment_loop_run_stack by done.
    rewrite run_stack_cons, reverse_cons. by replace (top + 1 - 1) with top by lia.
Qed.

Lemma vote_run_spec (start : Z) (n : nat) :
  0 <= start → start + Z.of_nat n + 1 <= u64_max →
  vote_run start n =
    {| tower_votes :=
         reverse (run_stack (start + Z.of_nat n - 1) (Nat.min n MAX_LOCKOUT_HISTORY));
       tower_root := if decide (n <= MAX_LOCKOUT_HISTORY)%nat then None
                     else Some (start + Z.of_nat n - 32);
       tower_max_size := MAX_LOCKOUT_HISTORY |}.
Proof.
  intros Hs. induction n as [|n IH]; intros Hn; [done|].
  cbn [vote_run]. rewrite IH by lia.
  pose proof (push_vote_run (start + Z.of_nat n - 1)) as Hpush.
  replace (start + Z.of_nat n - 1 + 1) with (start + Z.of_nat n) in Hpush by lia.
  rewrite Hpush by lia. unfold MAX_LOCKOUT_HISTORY.
  repeat case_decide; try lia;
    first [ replace (Nat.min (S n) 31) with (S (Nat.min n 31)) by lia
          | replace (Nat.min (S n) 31) with (Nat.min n 31) by lia ];
    (apply f_equal3; [by do 2 f_equal; lia|first [done|f_equal; lia]|done]).
Qed.

(** ** Properties *)

(** C25. Every tower a validator can reach from [Tower::new] or
    [Tower::with_root] by recording votes (with any same-fork oracle), moving
    the root and clearing votes passes its own consistency check [verify]: at
    most 31 votes, slots strictly increasing and above the root, confirmation
    counts between 1 and 31 and never increasing towards the top. *)
Theorem reachable_tower_verifies (t0 t : Tower) :
  tower_init t0 → rtc tower_step t0 t → Tower_verify t = Ok ().
Proof. eauto using reachable_wf with karst. Qed.

(** [record_vote] refuses a vote exactly when the slot is not above the
    root or some vote still locked out at the slot is on another fork; it then
    changes nothing. *)
Theorem record_vote_lockout (t : Tower) (slot : Z) (is_same_fork : Z → Z → bool) :
  (Tower_record_vote t slot is_same_fork = (Err (LockoutViolation slot), t) ∧
   ((∃ root, tower_root t = Some root ∧ slot <= root) ∨
    (∃ v, v ∈ tower_votes t ∧ slot < TowerVote_expiration_slot v ∧
          is_same_fork (tv_slot v) slot = false))) ∨
  (Tower_record_vote t slot is_same_fork =
     (Ok (Tower_push_vote t slot).1, (Tower_push_vote t slot).2) ∧
   (∀ root, tower_root t = Some root → root < slot) ∧
   (∀ v, v ∈ tower_votes t → slot < TowerVote_expiration_slot v →
         is_same_fork (tv_slot v) slot = true)).
Proof.
  unfold Tower_record_vote.
  destruct (Tower_is_locked_out t slot is_same_fork) eqn:E.
  - left. split; [done|]. unfold Tower_is_locked_out in E. case_match eqn:Er.
    + left. destruct (tower_root t) as [r|]; [|done]. b2p. eauto.
    + right. apply existsb_exists in E as (v & Hv%list_elem_of_In & Hb).
      unfold TowerVote_is_locked_out_at in Hb. b2p. eauto.
  - right. destruct (Tower_push_vote t slot). split; [done|].
    by apply is_locked_out_false.
Qed.

(** A fresh vote pops exactly the longest suffix of expired votes: every
    popped vote has expired at the new slot, the newest kept vote has not; when
    the kept votes fill the tower the oldest becomes the root; the kept slots
    and the new one are the new stack. *)
Theorem push_vote_pops_expired_suffix (t : Tower) (slot : Z) :
  tower_wf t → below_last t slot →
  ∃ kept popped : list TowerVote,
    tower_votes t = kept ++ popped ∧
    Forall (λ v, TowerVote_expiration_slot v <= slot) popped ∧
    (∀ v, last kept = Some v → slot < TowerVote_expiration_slot v) ∧
    let '(new_root, t') := Tower_push_vote t slot in
    if decide (length kept = MAX_LOCKOUT_HISTORY) then
      ∃ bottom rest, kept = bottom :: rest ∧ new_root = Some (tv_slot bottom) ∧
        tower_root t' = Some (tv_slot bottom) ∧
        Tower_vote_slots t' = (tv_slot <$> rest) ++ [slot]
    else
      new_root = None ∧ tower_root t' = tower_root t ∧
      Tower_vote_slots t' = (tv_slot <$> kept) ++ [slot].
Proof.
  intros Hwf Hlast. destruct (simulate_vote_split t slot) as (Hsplit & Hpop & Hkeep).
  cbn in *. eexists _, _. split; [exact Hsplit|]. split; [exact Hpop|]. split; [exact Hkeep|].
  fold (kept_votes t slot). rewrite push_vote_fresh by done.
  unfold Tower_vote_slots, rooted_slot, base_votes, tower_fills.
  cbn [tower_votes tower_root tower_max_size]. rewrite (wf_max_size t) by done.
  rewrite !fmap_app, fmap_reverse, increment_loop_slots, <- fmap_reverse, reverse_involutive.
  destruct (kept_votes_ok t slot) as (Hk & _); [done|done|]. cbn in Hk. case_decide as Hd.
  - rewrite Hd. cbn [Nat.leb MAX_LOCKOUT_HISTORY].
    destruct (kept_votes t slot) as [|b rest]; [done|]. naive_solver.
  - rewrite (proj2 (Nat.leb_gt _ _)) by lia. done.
Qed.

(** Voting for [n] consecutive slots doubles lockouts as the protocol
    requires: the tower holds the last [min n 31] slots, the vote [i] places
    below the top has [i + 1] confirmations, and from the 32nd vote on the root
    is the slot voted 31 votes before the last. *)
Theorem consecutive_votes_double_lockouts (start : Z) (n : nat) :
  0 <= start → start + Z.of_nat n + 1 <= u64_max →
  vote_run start n =
    {| tower_votes :=
         reverse (run_stack (start + Z.of_nat n - 1) (Nat.min n MAX_LOCKOUT_HISTORY));
       tower_root := if decide (n <= MAX_LOCKOUT_HISTORY)%nat then None
                     else Some (start + Z.of_nat n - 32);
       tower_max_size := MAX_LOCKOUT_HISTORY |}.
Proof. apply vote_run_spec. Qed.

(** ** Witnesses *)

Lemma reachable_tower_verifies_witness :
  Tower_verify (Tower_record_vote Tower_new 5 (λ _ _, true)).2 = Ok ().
Proof.
  apply (reachable_tower_verifies Tower_new); [constructor|].
  apply rtc_once. apply step_record_vote.
Defined.

Lemma push_vote_pops_expired_suffix_witness :
  tower_wf (vote_run 10 3) ∧ below_last (vote_run 10 3) 15 ∧
  ∃ kept popped : list TowerVote, tower_votes (vote_run 10 3) = kept ++ popped.
Proof.
  assert (Hwf : tower_wf (vote_run 10 3)).
  { split; vm_compute; repeat constructor; discriminate. }
  assert (Hb : below_last (vote_run 10 3) 15) by (intros ? [= <-]; reflexivity).
  split; [exact Hwf|]. split; [exact Hb|].
  destruct (push_vote_pops_expired_suffix (vote_run 10 3) 15 Hwf Hb) as (kept & popped & H & _).
  exists kept, popped. exact H.
Defined.

Lemma consecutive_votes_double_lockouts_witness :
  tower_root (vote_run 100 40) = Some 108 ∧ length (tower_votes (vote_run 100 40)) = 31%nat.
Proof.
  rewrite (consecutive_votes_double_lockouts 100 40) by (unfold u64_max; lia).
  split; reflexivity.
Defined.
