(* ===== verification/VoteState.v ===== *)
(** * The vote account state of the on-chain vote program

    Model of [src/crates/karstflow-sbpf/src/vote/state.rs]: the lockout
    arithmetic, [process_vote], [apply_vote_state_update] and the account
    encoding.  A [&mut self] method returns its result with the new state. *)
From stdpp Require Import base tactics list sorting relations.
From Stdlib Require Import ZArith Lia.
From S2P Require Import Prelude Tower.
Local Open Scope Z_scope.

Notation VOTE_CREDITS_MAXIMUM_PER_SLOT := (16)%Z (only parsing).
Notation VOTE_CREDITS_GRACE_SLOTS := (2)%Z (only parsing).

Record Lockout := mkLockout { lo_slot : Z; lo_confirmation_count : Z }.

#[export] Instance Lockout_eq_dec : EqDecision Lockout.
Proof. solve_decision. Defined.

Definition Lockout_new (slot : Z) : Lockout :=
  {| lo_slot := slot; lo_confirmation_count := 1 |}.

Definition Lockout_expiration_slot (l : Lockout) : Z :=
  let lockout := default u64_max (u64_checked_pow INITIAL_LOCKOUT (lo_confirmation_count l)) in
  u64_saturating_add (lo_slot l) lockout.
Definition Lockout_last_locked_out_slot (l : Lockout) : Z := Lockout_expiration_slot l.
Definition Lockout_is_locked_out_at_slot (l : Lockout) (slot : Z) : bool :=
  slot <? Lockout_expiration_slot l.
Definition Lockout_increase_confirmation_count (l : Lockout) (by_ : Z) : Lockout :=
  {| lo_slot := lo_slot l;
     lo_confirmation_count := u32_saturating_add (lo_confirmation_count l) by_ |}.

Record LandedVote := mkLandedVote { lv_latency : Z; lv_lockout : Lockout }.

#[export] Instance LandedVote_eq_dec : EqDecision LandedVote.
Proof. solve_decision. Defined.

Definition LandedVote_new (slot latency : Z) : LandedVote :=
  {| lv_latency := latency; lv_lockout := Lockout_new slot |}.
Definition LandedVote_with_lockout (lockout : Lockout) (latency : Z) : LandedVote :=
  {| lv_latency := latency; lv_lockout := lockout |}.
Definition LandedVote_slot (v : LandedVote) : Z := lo_slot (lv_lockout v).

(** [Pubkey] is its 32 bytes; the BLS key its 48. *)
Record VoteState := mkVoteState {
  vs_node_pubkey : list Z;
  vs_authorized_voter : list Z;
  vs_authorized_withdrawer : list Z;
  vs_commission : Z;
  vs_votes : list LandedVote;
  vs_root_slot : option Z;
  vs_epoch_credits : list (Z * Z * Z);
  vs_bls_pubkey : option (list Z);
}.

Inductive VoteError :=
| InvalidAccountData
| VoteError_VoteBelowRoot (slot root : Z)
| VoteNotSequential (vote_slot last_vote_slot : Z)
| Unauthorized
| InsufficientFunds
| TooManyVotes
| EmptySlots
| RootRollBack
| ZeroConfirmations
| VoteError_ConfirmationTooLarge
| SlotSmallerThanRoot
| VoteError_SlotsNotOrdered
| VoteError_ConfirmationsNotOrdered
| LockoutMismatch
| LockoutConflict
| ConfirmationRollBack.

Definition VoteState_new (node_pubkey authorized_voter authorized_withdrawer : list Z)
    (commission : Z) : VoteState :=
  {| vs_node_pubkey := node_pubkey;
     vs_authorized_voter := authorized_voter;
     vs_authorized_withdrawer := authorized_withdrawer;
     vs_commission := commission;
     vs_votes := [];
     vs_root_slot := None;
     vs_epoch_credits := [];
     vs_bls_pubkey := None |}.

(** Field updates. *)
Definition set_votes (votes : list LandedVote) (s : VoteState) : VoteState :=
  mkVoteState (vs_node_pubkey s) (vs_authorized_voter s) (vs_authorized_withdrawer s)
    (vs_commission s) votes (vs_root_slot s) (vs_epoch_credits s) (vs_bls_pubkey s).
Definition set_root_slot (root : option Z) (s : VoteState) : VoteState :=
  mkVoteState (vs_node_pubkey s) (vs_authorized_voter s) (vs_authorized_withdrawer s)
    (vs_commission s) (vs_votes s) root (vs_epoch_credits s) (vs_bls_pubkey s).
Definition set_epoch_credits (credits : list (Z * Z * Z)) (s : VoteState) : VoteState :=
  mkVoteState (vs_node_pubkey s) (vs_authorized_voter s) (vs_authorized_withdrawer s)
    (vs_commission s) (vs_votes s) (vs_root_slot s) credits (vs_bls_pubkey s).

(** ** Voting *)

Definition VoteState_update_credits (s : VoteState) (slot : Z) : VoteState :=
  let credits_earned := 1 in
  match last (vs_epoch_credits s) with
  | Some (last_slot, last_credits, _) =>
      if last_slot <? slot then
        let new_credits := u64_saturating_add last_credits credits_earned in
        set_epoch_credits (vs_epoch_credits s ++ [(slot, new_credits, credits_earned)]) s
      else s
  | None => set_epoch_credits (vs_epoch_credits s ++ [(slot, credits_earned, credits_earned)]) s
  end.

(** The popping loop of [process_vote], over the reversed stack. *)
Fixpoint pop_expired (slot : Z) (rev_votes : list LandedVote) : list LandedVote :=
  match rev_votes with
  | [] => []
  | back :: rest =>
      if Lockout_expiration_slot (lv_lockout back) <=? slot then pop_expired slot rest
      else rev_votes
  end.

Definition LandedVote_increase (v : LandedVote) : LandedVote :=
  LandedVote_with_lockout (Lockout_increase_confirmation_count (lv_lockout v) 1) (lv_latency v).

Definition VoteState_process_vote (s : VoteState) (slot : Z) : result () VoteError * VoteState :=
  match (match vs_root_slot s with
         | Some root => if slot <=? root then Some (VoteError_VoteBelowRoot slot root) else None
         | None => None
         end) with
  | Some e => (Err e, s)
  | None =>
      match (match last (vs_votes s) with
             | Some last_vote =>
                 if slot <=? LandedVote_slot last_vote
                 then Some (VoteNotSequential slot (LandedVote_slot last_vote)) else None
             | None => None
             end) with
      | Some e => (Err e, s)
      | None =>
          let votes := reverse (pop_expired slot (reverse (vs_votes s))) in
          let votes := (LandedVote_increase <$> votes) ++ [LandedVote_new slot 0] in
          let s :=
            if (MAX_LOCKOUT_HISTORY <? length votes)%nat then
              match votes with
              | oldest :: rest => set_root_slot (Some (LandedVote_slot oldest)) (set_votes rest s)
              | [] => set_votes votes s
              end
            else set_votes votes s in
          (Ok (), VoteState_update_credits s slot)
      end
  end.

(** ** Tower sync *)

(** The validation loop over [new_votes]. *)
Fixpoint validate_votes (new_root : option Z) (prev : option LandedVote)
    (votes : list LandedVote) : option VoteError :=
  match votes with
  | [] => None
  | vote :: rest =>
      let conf := lo_confirmation_count (lv_lockout vote) in
      if conf =? 0 then Some ZeroConfirmations
      else if Z.of_nat MAX_LOCKOUT_HISTORY <? conf then Some VoteError_ConfirmationTooLarge
      else if (match new_root with
               | Some nr => (LandedVote_slot vote <=? nr) && negb (nr =? 0)
               | None => false
               end) then Some SlotSmallerThanRoot
      else
        match prev with
        | Some p =>
            if LandedVote_slot vote <=? LandedVote_slot p then Some VoteError_SlotsNotOrdered
            else if lo_confirmation_count (lv_lockout p) <=? conf
            then Some VoteError_ConfirmationsNotOrdered
            else if Lockout_last_locked_out_slot (lv_lockout p) <? LandedVote_slot vote
            then Some LockoutMismatch
            else validate_votes new_root (Some vote) rest
        | None => validate_votes new_root (Some vote) rest
        end
  end.

Definition VoteState_credits_for_vote (vote : LandedVote) : Z :=
  let latency := lv_latency vote in
  if latency <=? VOTE_CREDITS_GRACE_SLOTS then VOTE_CREDITS_MAXIMUM_PER_SLOT
  else
    let excess := u64_saturating_sub latency VOTE_CREDITS_GRACE_SLOTS in
    Z.max (u64_saturating_sub VOTE_CREDITS_MAXIMUM_PER_SLOT excess) 1.

(** The loop that sums the credits of the votes the new root covers. *)
Fixpoint earned_credits (new_root earned : Z) (votes : list LandedVote) : Z :=
  match votes with
  | [] => earned
  | vote :: rest =>
      if LandedVote_slot vote <=? new_root
      then earned_credits new_root (u64_saturating_add earned (VoteState_credits_for_vote vote)) rest
      else earned
  end.

(** The bound of the consistency check: the confirmation count is capped. *)
Definition last_locked (l : Lockout) : Z :=
  let conf := Z.min (lo_confirmation_count l) (Z.of_nat MAX_LOCKOUT_HISTORY) in
  u64_saturating_add (lo_slot l) (default u64_max (u64_checked_pow INITIAL_LOCKOUT conf)).

(** [verify_lockout_consistency]: the two indices become the two remaining
    suffixes, and each turn of the loop drops the head of at least one. *)
Fixpoint lockout_consistency_loop (current : list LandedVote) :
    list LandedVote → result () VoteError :=
  fix loop_new (new : list LandedVote) : result () VoteError :=
    match current, new with
    | cur :: current', new_vote :: new' =>
        if LandedVote_slot cur <? LandedVote_slot new_vote then
          if LandedVote_slot new_vote <=? last_locked (lv_lockout cur) then Err LockoutConflict
          else lockout_consistency_loop current' new
        else if LandedVote_slot cur =? LandedVote_slot new_vote then
          if lo_confirmation_count (lv_lockout new_vote) <? lo_confirmation_count (lv_lockout cur)
          then Err ConfirmationRollBack
          else lockout_consistency_loop current' new'
        else loop_new new'
    | _, _ => Ok ()
    end.

Definition VoteState_verify_lockout_consistency (s : VoteState) (new_votes : list LandedVote) :
    result () VoteError :=
  lockout_consistency_loop (vs_votes s) new_votes.

Definition VoteState_find_existing_latency (s : VoteState) (slot : Z) : option Z :=
  lv_latency <$> List.find (λ v, LandedVote_slot v =? slot) (vs_votes s).

Definition VoteState_add_epoch_credits (s : VoteState) (epoch credits : Z) : VoteState :=
  let prev := match last (vs_epoch_credits s) with Some (_, c, _) => c | None => 0 end in
  let total := u64_saturating_add prev credits in
  let push :=
    let pushed := vs_epoch_credits s ++ [(epoch, total, prev)] in
    set_epoch_credits (drop (length pushed - MAX_EPOCH_CREDITS_HISTORY) pushed) s in
  match last (vs_epoch_credits s) with
  | Some (last_epoch, last_credits, last_prev) =>
      if last_epoch =? epoch then
        set_epoch_credits
          (take (length (vs_epoch_credits s) - 1) (vs_epoch_credits s)
             ++ [(last_epoch, u64_saturating_add last_credits credits, last_prev)]) s
      else push
  | None => push
  end.

Definition VoteState_apply_vote_state_update (s : VoteState) (new_votes : list LandedVote)
    (new_root : option Z) (epoch current_slot : Z) : result () VoteError * VoteState :=
  if (MAX_LOCKOUT_HISTORY <? length new_votes)%nat then (Err TooManyVotes, s)
  else if bool_decide (new_votes = []) then (Err EmptySlots, s)
  else if (match vs_root_slot s, new_root with
           | Some current_root, Some proposed_root => proposed_root <? current_root
           | Some _, None => true
           | None, _ => false
           end) then (Err RootRollBack, s)
  else
    match validate_votes new_root None new_votes with
    | Some e => (Err e, s)
    | None =>
        let earned := match new_root with
                      | Some nr => earned_credits nr 0 (vs_votes s)
                      | None => 0
                      end in
        match VoteState_verify_lockout_consistency s new_votes with
        | Err e => (Err e, s)
        | Ok _ =>
            let final_votes :=
              (λ new_vote,
                 let latency :=
                   if 0 <? lv_latency new_vote then lv_latency new_vote
                   else default
                          (Z.min (u64_saturating_sub current_slot (LandedVote_slot new_vote)) u8_max)
                          (VoteState_find_existing_latency s (LandedVote_slot new_vote)) in
                 LandedVote_with_lockout (lv_lockout new_vote) latency) <$> new_votes in
            let root_changed := match vs_root_slot s, new_root with
                                | None, None => false
                                | Some old, Some new => negb (old =? new)
                                | _, _ => true
                                end in
            let s' := if root_changed && (0 <? earned)
                      then VoteState_add_epoch_credits s epoch earned else s in
            (Ok (), set_votes final_votes (set_root_slot new_root s'))
        end
    end.

Definition VoteState_process_slot (s : VoteState) (slot : Z) : VoteState :=
  let votes := (λ v, if LandedVote_slot v <? slot then LandedVote_increase v else v)
                 <$> vs_votes s in
  match votes with
  | oldest :: rest =>
      if Z.of_nat MAX_LOCKOUT_HISTORY <=? lo_confirmation_count (lv_lockout oldest)
      then set_root_slot (Some (LandedVote_slot oldest)) (set_votes rest s)
      else set_votes votes s
  | [] => set_votes votes s
  end.

(** ** Account encoding *)

Definition serialize_vote (v : LandedVote) : list Z :=
  to_le_bytes 8 (lo_slot (lv_lockout v)) ++ to_le_bytes 4 (lo_confirmation_count (lv_lockout v)).
Definition serialize_credit (c : Z * Z * Z) : list Z :=
  let '(epoch, credits, prev_credits) := c in
  to_le_bytes 8 epoch ++ to_le_bytes 8 credits ++ to_le_bytes 8 prev_credits.
Definition serialize_root (root : option Z) : list Z :=
  match root with Some root => 1 :: to_le_bytes 8 root | None => [0] end.
Definition serialize_bls (bls : option (list Z)) : list Z :=
  match bls with Some key => 1 :: key | None => [] end.

Definition VoteState_serialize (s : VoteState) : list Z :=
  vs_node_pubkey s ++ vs_authorized_voter s ++ vs_authorized_withdrawer s
    ++ [vs_commission s]
    ++ to_le_bytes 4 (wrap32 (Z.of_nat (length (vs_votes s))))
    ++ concat (serialize_vote <$> vs_votes s)
    ++ serialize_root (vs_root_slot s)
    ++ to_le_bytes 4 (wrap32 (Z.of_nat (length (vs_epoch_credits s))))
    ++ concat (serialize_credit <$> vs_epoch_credits s)
    ++ serialize_bls (vs_bls_pubkey s).

(** The vote loop: [None] is [Err(InvalidAccountData)]. *)
Fixpoint deserialize_votes (data : list Z) (offset vote_count : nat) :
    option (list LandedVote * nat) :=
  match vote_count with
  | O => Some ([], offset)
  | S n =>
      if (length data <? offset + 8 + 4)%nat then None
      else
        slot ← from_le_bytes <$> read_bytes data offset 8;
        confirmation_count ← from_le_bytes <$> read_bytes data (offset + 8) 4;
        '(votes, offset) ← deserialize_votes data (offset + 8 + 4) n;
        Some (mkLandedVote 0 (mkLockout slot confirmation_count) :: votes, offset)
  end.

Definition deserialize_root (data : list Z) (offset : nat) : option (option Z * nat) :=
  if bool_decide (data !! offset = Some 1) then
    slot ← from_le_bytes <$> read_bytes data (offset + 1) 8;
    Some (Some slot, (offset + 1 + 8)%nat)
  else if (offset <? length data)%nat then Some (None, (offset + 1)%nat)
  else Some (None, offset).

(** The epoch-credit loop, which stops early when the data runs out. *)
Fixpoint deserialize_credit_entries (data : list Z) (offset n : nat) :
    option (list (Z * Z * Z) * nat) :=
  match n with
  | O => Some ([], offset)
  | S n =>
      if (length data <? offset + 24)%nat then Some ([], offset)
      else
        epoch ← from_le_bytes <$> read_bytes data offset 8;
        credits ← from_le_bytes <$> read_bytes data (offset + 8) 8;
        prev_credits ← from_le_bytes <$> read_bytes data (offset + 8 + 8) 8;
        '(entries, offset) ← deserialize_credit_entries data (offset + 8 + 8 + 8) n;
        Some ((epoch, credits, prev_credits) :: entries, offset)
  end.

Definition deserialize_credits (data : list Z) (offset : nat) : option (list (Z * Z * Z) * nat) :=
  if (offset + 4 <=? length data)%nat then
    ec_count ← from_le_bytes <$> read_bytes data offset 4;
    deserialize_credit_entries data (offset + 4)
      (Nat.min (Z.to_nat ec_count) MAX_EPOCH_CREDITS_HISTORY)
  else Some ([], offset).

Definition deserialize_bls (data : list Z) (offset : nat) : option (list Z) :=
  if bool_decide (data !! offset = Some 1) then read_bytes data (offset + 1) 48 else None.

Definition VoteState_deserialize (data : list Z) : result VoteState VoteError :=
  match
    (if (length data <? 32 + 32 + 32 + 1)%nat then None
     else
       node_pubkey ← read_bytes data 0 32;
       authorized_voter ← read_bytes data 32 32;
       authorized_withdrawer ← read_bytes data 64 32;
       commission ← data !! 96%nat;
       vote_count ← from_le_bytes <$> read_bytes data 97 4;
       '(votes, offset) ← deserialize_votes data 101 (Z.to_nat vote_count);
       '(root_slot, offset) ← deserialize_root data offset;
       '(epoch_credits, offset) ← deserialize_credits data offset;
       Some (mkVoteState node_pubkey authorized_voter authorized_withdrawer commission
               votes root_slot epoch_credits (deserialize_bls data offset)))
  with
  | Some s => Ok s
  | None => Err InvalidAccountData
  end.

(** ** Ordering of a vote stack *)

Definition slot_lt (v w : LandedVote) : Prop := LandedVote_slot v < LandedVote_slot w.

(** What [apply_vote_state_update] requires of two neighbouring votes. *)
Definition nested (v w : LandedVote) : Prop :=
  LandedVote_slot v < LandedVote_slot w
  ∧ lo_confirmation_count (lv_lockout w) < lo_confirmation_count (lv_lockout v)
  ∧ LandedVote_slot w <= Lockout_expiration_slot (lv_lockout v).

Definition vote_ok (root : option Z) (v : LandedVote) : Prop :=
  1 <= lo_confirmation_count (lv_lockout v) <= Z.of_nat MAX_LOCKOUT_HISTORY
  ∧ match root with
    | Some r => r ≠ 0 → r < LandedVote_slot v
    | None => True
    end.

#[export] Instance slot_lt_trans : Transitive slot_lt.
Proof. unfold slot_lt. intros x y z. lia. Qed.

Lemma nested_slot_sorted votes : Sorted nested votes → StronglySorted slot_lt votes.
Proof.
  intros H. apply Sorted_StronglySorted; [apply _|].
  induction H as [|v votes H IH Hhd]; constructor; [done|].
  destruct Hhd as [|w ws [? _]]; by constructor.
Qed.

Lemma validate_votes_None root prev votes :
  Forall (λ v, 0 <= lo_confirmation_count (lv_lockout v)) votes →
  validate_votes root prev votes = None →
  Forall (vote_ok root) votes ∧ Sorted nested votes
  ∧ (∀ p, prev = Some p → HdRel nested p votes).
Proof.
  intros Hnn. revert prev. induction Hnn as [|v votes Hv Hnn IH]; intros prev Hval.
  { split_and!; by constructor. }
  cbn [validate_votes] in Hval.
  destruct (_ =? 0) eqn:E0; [done|]. destruct (_ <? lo_confirmation_count _) eqn:E31; [done|].
  destruct (match root with Some _ => _ | None => _ end) eqn:Er; [done|].
  assert (Hok : vote_ok root v).
  { split; [b2p; lia|]. destruct root; [|done]. intros ?. b2p. lia. }
  assert (Hrest : validate_votes root (Some v) votes = None
            ∧ ∀ p, prev = Some p → nested p v).
  { destruct prev as [p|]; [|by split]. unfold Lockout_last_locked_out_slot in Hval.
    repeat case_match; try done; (split; [done|]; intros ? [= <-];
    unfold nested; b2p; lia). }
  destruct Hrest as [Hrest Hp]. destruct (IH _ Hrest) as (HF & HS & Hhd).
  split_and!; [by constructor|constructor; [done|by apply Hhd]|].
  intros p Heq. constructor. by apply Hp.
Qed.

(** ** The consistency check against its specification *)

(** A current vote and a proposed one are consistent: a vote kept by the
    update does not lose confirmations, and a vote the update drops has
    expired at every later vote of the update. *)
Definition lockouts_respected (current new : list LandedVote) : Prop :=
  ∀ c n, c ∈ current → n ∈ new →
    (LandedVote_slot c = LandedVote_slot n →
     lo_confirmation_count (lv_lockout c) <= lo_confirmation_count (lv_lockout n))
    ∧ (LandedVote_slot c < LandedVote_slot n →
       (∀ m, m ∈ new → LandedVote_slot m ≠ LandedVote_slot c) →
       last_locked (lv_lockout c) < LandedVote_slot n).

Lemma StronglySorted_head v votes :
  StronglySorted slot_lt (v :: votes) → ∀ w, w ∈ votes → LandedVote_slot v < LandedVote_slot w.
Proof. intros [_ H]%StronglySorted_inv w Hw. rewrite Forall_forall in H. by apply H. Qed.

Lemma lockouts_respected_drop_current c current n new :
  StronglySorted slot_lt (n :: new) → LandedVote_slot c < LandedVote_slot n →
  lockouts_respected (c :: current) (n :: new)
  ↔ last_locked (lv_lockout c) < LandedVote_slot n ∧ lockouts_respected current (n :: new).
Proof.
  intros Hs Hlt. pose proof (StronglySorted_head _ _ Hs) as Hn. split.
  - intros H. split.
    + apply (H c n); [by left|by left|done|]. intros m [->|Hm]%elem_of_cons; [lia|].
      specialize (Hn _ Hm). lia.
    + intros c' n' Hc. apply H. by right.
  - intros [Hl H] c' n' [->|Hc]%elem_of_cons Hn'; [|by apply H].
    assert (LandedVote_slot n <= LandedVote_slot n').
    { apply elem_of_cons in Hn' as [->|Hn']; [lia|]. specialize (Hn _ Hn'). lia. }
    split; [lia|]. lia.
Qed.

Lemma lockouts_respected_same c current n new :
  StronglySorted slot_lt (c :: current) → StronglySorted slot_lt (n :: new) →
  LandedVote_slot c = LandedVote_slot n →
  lockouts_respected (c :: current) (n :: new)
  ↔ lo_confirmation_count (lv_lockout c) <= lo_confirmation_count (lv_lockout n)
    ∧ lockouts_respected current new.
Proof.
  intros Hsc Hsn Heq. pose proof (StronglySorted_head _ _ Hsn) as Hn.
  pose proof (StronglySorted_head _ _ Hsc) as Hc. split.
  - intros H. split; [by apply (H c n); [left|left|]|]. intros c' n' Hc' Hn'.
    destruct (H c' n' ltac:(by right) ltac:(by right)) as [H1 H2]. split; [done|].
    intros Hlt Hm. apply H2; [done|]. intros m [->|Hm']%elem_of_cons; [|by apply Hm].
    specialize (Hc _ Hc'). lia.
  - intros [Hconf H] c' n' [->|Hc']%elem_of_cons [->|Hn']%elem_of_cons.
    + split; [done|lia].
    + specialize (Hn _ Hn'). split; [lia|]. intros _ Hm.
      exfalso. apply (Hm n); [by left|done].
    + specialize (Hc _ Hc'). split; lia.
    + destruct (H c' n' Hc' Hn') as [H1 H2]. split; [done|]. intros Hlt Hm. apply H2; [done|].
      intros m Hm'. apply Hm. by right.
Qed.

Lemma lockouts_respected_drop_new c current n new :
  StronglySorted slot_lt (c :: current) → LandedVote_slot n < LandedVote_slot c →
  lockouts_respected (c :: current) (n :: new) ↔ lockouts_respected (c :: current) new.
Proof.
  intros Hs Hlt.
  assert (Hc : ∀ c', c' ∈ c :: current → LandedVote_slot n < LandedVote_slot c').
  { intros c' [->|Hc']%elem_of_cons; [done|]. pose proof (StronglySorted_head _ _ Hs _ Hc'). lia. }
  split.
  - intros H c' n' Hc' Hn'. destruct (H c' n' Hc' ltac:(by right)) as [H1 H2].
    split; [done|]. intros Hlt' Hm. apply H2; [done|]. intros m [->|Hm']%elem_of_cons; [|by apply Hm].
    specialize (Hc _ Hc'). lia.
  - intros H c' n' Hc' [->|Hn']%elem_of_cons; [specialize (Hc _ Hc'); split; lia|].
    destruct (H c' n' Hc' Hn') as [H1 H2]. split; [done|]. intros Hlt' Hm. apply H2; [done|].
    intros m Hm'. apply Hm. by right.
Qed.

Lemma lockout_consistency_loop_spec current new :
  StronglySorted slot_lt current → StronglySorted slot_lt new →
  lockout_consistency_loop current new = Ok () ↔ lockouts_respected current new.
Proof.
  revert new. induction current as [|c current IHc]; intros new Hc Hn.
  { destruct new; (split; [intros _ ? ? H; by apply elem_of_nil in H|done]). }
  induction new as [|n new IHn].
  { split; [intros _ ? ? _ H; by apply elem_of_nil in H|done]. }
  pose proof (proj1 (StronglySorted_inv Hc)) as Hc'.
  pose proof (proj1 (StronglySorted_inv Hn)) as Hn'.
  cbn [lockout_consistency_loop]. destruct (_ <? _) eqn:E1; b2p.
  { rewrite lockouts_respected_drop_current by done. destruct (_ <=? _) eqn:E2; b2p.
    - split; [done|lia].
    - rewrite IHc by done. intuition lia. }
  destruct (LandedVote_slot c =? LandedVote_slot n) eqn:E3; b2p.
  { rewrite lockouts_respected_same by done. destruct (_ <? lo_confirmation_count _) eqn:E2; b2p.
    - split; [done|lia].
    - rewrite IHc by done. intuition lia. }
  rewrite lockouts_respected_drop_new by (done || lia). by apply IHn.
Qed.

(** ** Acceptance of a tower sync *)

Lemma validate_votes_complete root prev votes :
  Forall (vote_ok root) votes → Sorted nested votes →
  (∀ p, prev = Some p → HdRel nested p votes) → validate_votes root prev votes = None.
Proof.
  intros HF HS. revert prev. induction HS as [|v votes HS IH Hhd]; intros prev Hp; [done|].
  apply Forall_cons in HF as [[Hc Hr] HF]. cbn [validate_votes].
  rewrite (proj2 (Z.eqb_neq _ _)) by lia. rewrite (proj2 (Z.ltb_ge _ _)) by lia.
  assert (E : (match root with
               | Some nr => (LandedVote_slot v <=? nr) && negb (nr =? 0)
               | None => false
               end) = false).
  { destruct root as [r|]; [|done]. destruct (decide (r = 0)) as [->|Hr0].
    - apply andb_false_r.
    - rewrite (proj2 (Z.leb_gt _ _)); [done|]. by apply Hr. }
  rewrite E. assert (Hrest : validate_votes root (Some v) votes = None).
  { apply IH; [done|]. by intros p [= <-]. }
  destruct prev as [p|]; [|done].
  specialize (Hp p eq_refl). apply HdRel_inv in Hp as (? & ? & ?).
  unfold Lockout_last_locked_out_slot.
  rewrite (proj2 (Z.leb_gt _ _)), (proj2 (Z.leb_gt _ _)), (proj2 (Z.ltb_ge _ _)) by lia. done.
Qed.

(** The root of an accepted update never moves back. *)
Definition root_advances (old new : option Z) : Prop :=
  match old, new with
  | Some r, Some r' => r <= r'
  | Some _, None => False
  | None, _ => True
  end.

Definition acceptable_update (s : VoteState) (new_votes : list LandedVote) (new_root : option Z) :
    Prop :=
  (length new_votes <= MAX_LOCKOUT_HISTORY)%nat ∧ new_votes ≠ []
  ∧ root_advances (vs_root_slot s) new_root
  ∧ Forall (vote_ok new_root) new_votes ∧ Sorted nested new_votes
  ∧ lockouts_respected (vs_votes s) new_votes.

Lemma root_rollback_check old new :
  (match old, new with
   | Some current_root, Some proposed_root => proposed_root <? current_root
   | Some _, None => true
   | None, _ => false
   end) = false ↔ root_advances old new.
Proof. destruct old, new; cbn; rewrite ?Z.ltb_ge; naive_solver. Qed.

Lemma add_epoch_credits_votes s epoch c :
  vs_votes (VoteState_add_epoch_credits s epoch c) = vs_votes s.
Proof. unfold VoteState_add_epoch_credits. by repeat case_match. Qed.

Definition with_lockouts_of (f : LandedVote → LandedVote) : Prop :=
  ∀ v, lv_lockout (f v) = lv_lockout v.

Lemma nested_fmap f votes :
  with_lockouts_of f → Sorted nested votes → Sorted nested (f <$> votes).
Proof.
  intros Hf. induction 1 as [|v votes HS IH Hhd]; cbn; constructor; [done|].
  destruct Hhd as [|w ws H]; constructor.
  unfold nested, LandedVote_slot in *. by rewrite !Hf.
Qed.

Lemma vote_ok_fmap root f votes :
  with_lockouts_of f → Forall (vote_ok root) votes → Forall (vote_ok root) (f <$> votes).
Proof.
  intros Hf H. apply Forall_fmap. eapply Forall_impl; [exact H|].
  intros v. unfold vote_ok, LandedVote_slot. cbn. by rewrite Hf.
Qed.

Lemma apply_update_cases s new_votes new_root epoch current_slot :
  let r := VoteState_apply_vote_state_update s new_votes new_root epoch current_slot in
  match r.1 with
  | Err _ => r.2 = s
  | Ok _ =>
      (length new_votes <= MAX_LOCKOUT_HISTORY)%nat ∧ new_votes ≠ []
      ∧ root_advances (vs_root_slot s) new_root
      ∧ validate_votes new_root None new_votes = None
      ∧ VoteState_verify_lockout_consistency s new_votes = Ok ()
      ∧ vs_root_slot r.2 = new_root
      ∧ ∃ f, with_lockouts_of f ∧ vs_votes r.2 = f <$> new_votes
  end.
Proof.
  unfold VoteState_apply_vote_state_update.
  destruct (_ <? _)%nat eqn:E1; [done|]. apply Nat.ltb_ge in E1.
  case_bool_decide as E2; [done|].
  destruct (match vs_root_slot s with Some _ => _ | None => _ end) eqn:E3; [done|].
  apply root_rollback_check in E3.
  destruct (validate_votes new_root None new_votes) eqn:E4; [done|].
  destruct (VoteState_verify_lockout_consistency s new_votes) as [[]|] eqn:E5; [|done].
  cbn. split_and!; try done. eexists. split; [|reflexivity]. done.
Qed.

Lemma apply_update_accepts s new_votes new_root epoch current_slot :
  (length new_votes <= MAX_LOCKOUT_HISTORY)%nat → new_votes ≠ [] →
  root_advances (vs_root_slot s) new_root →
  validate_votes new_root None new_votes = None →
  VoteState_verify_lockout_consistency s new_votes = Ok () →
  (VoteState_apply_vote_state_update s new_votes new_root epoch current_slot).1 = Ok ().
Proof.
  intros H1 H2 H3 H4 H5. unfold VoteState_apply_vote_state_update.
  apply Nat.ltb_ge in H1. apply root_rollback_check in H3.
  by rewrite H1, bool_decide_eq_false_2, H3, H4, H5.
Qed.

(** C26. A tower sync ([apply_vote_state_update]) is accepted exactly when it
    names between 1 and 31 votes, does not move the root back, its votes are
    above the root with counts between 1 and 31, each vote lies inside the
    lockout of the one below with a smaller count, and it respects every
    lockout of the current stack: a kept vote does not lose confirmations and
    a dropped vote has expired at every later vote of the update.  (The two
    index loop of [verify_lockout_consistency] is thus equivalent to a
    quantified specification.) *)
Theorem tower_sync_accepted_iff (s : VoteState) (new_votes : list LandedVote)
    (new_root : option Z) (epoch current_slot : Z) :
  StronglySorted slot_lt (vs_votes s) →
  Forall (λ v, 0 <= lo_confirmation_count (lv_lockout v)) new_votes →
  (VoteState_apply_vote_state_update s new_votes new_root epoch current_slot).1 = Ok ()
  ↔ acceptable_update s new_votes new_root.
Proof.
  intros Hs Hnn. split.
  - intros H. pose proof (apply_update_cases s new_votes new_root epoch current_slot) as Hc.
    cbn zeta in Hc. rewrite H in Hc. destruct Hc as (? & ? & ? & Hv & Hl & _).
    apply validate_votes_None in Hv as (HF & HS & _); [|done].
    apply lockout_consistency_loop_spec in Hl; [|done|by apply nested_slot_sorted].
    by split_and!.
  - intros (? & ? & ? & HF & HS & Hl). apply apply_update_accepts; try done.
    + by apply validate_votes_complete.
    + apply lockout_consistency_loop_spec; [done|by apply nested_slot_sorted|done].
Qed.

(** Every state the vote program can leave behind after a tower sync is
    well formed: a rejected sync changes nothing, and an accepted one installs
    the proposed root and lockouts, so the stack stays at most 31 high, nested
    and above the root, whatever the stack was before. *)
Theorem tower_sync_installs (s : VoteState) (new_votes : list LandedVote)
    (new_root : option Z) (epoch current_slot : Z) :
  Forall (λ v, 0 <= lo_confirmation_count (lv_lockout v)) new_votes →
  let r := VoteState_apply_vote_state_update s new_votes new_root epoch current_slot in
  match r.1 with
  | Err _ => r.2 = s
  | Ok _ =>
      vs_root_slot r.2 = new_root ∧ root_advances (vs_root_slot s) new_root
      ∧ lv_lockout <$> vs_votes r.2 = lv_lockout <$> new_votes
      ∧ (length (vs_votes r.2) <= MAX_LOCKOUT_HISTORY)%nat
      ∧ Forall (vote_ok new_root) (vs_votes r.2) ∧ Sorted nested (vs_votes r.2)
  end.
Proof.
  intros Hnn r. pose proof (apply_update_cases s new_votes new_root epoch current_slot) as Hc.
  cbn zeta in Hc. fold r in Hc. destruct (r.1); [|done].
  destruct Hc as (Hlen & ? & ? & Hv & _ & ? & f & Hf & Hvotes).
  apply validate_votes_None in Hv as (HF & HS & _); [|done]. rewrite Hvotes.
  split_and!; try done.
  - rewrite <- list_fmap_compose. apply list_fmap_ext. intros. apply Hf.
  - by rewrite length_fmap.
  - by apply vote_ok_fmap.
  - by apply nested_fmap.
Qed.

(** ** The on-chain stack and the validator's tower *)

Definition landed (v : TowerVote) : LandedVote :=
  mkLandedVote 0 (mkLockout (tv_slot v) (tv_confirmation_count v)).

(** The vote account after [process_vote] of each slot in turn. *)
Definition process_votes (s : VoteState) (slots : list Z) : VoteState :=
  foldl (λ s slot, (VoteState_process_vote s slot).2) s slots.

Definition tower_votes_for (t : Tower) (slots : list Z) : Tower :=
  foldl (λ t slot, (Tower_push_vote t slot).2) t slots.

Lemma landed_run_sorted root top k :
  0 <= top - Z.of_nat k → top <= u64_max → (k <= MAX_LOCKOUT_HISTORY)%nat →
  (∀ r, root = Some r → r <= top - Z.of_nat k) →
  Forall (vote_ok root) (landed <$> reverse (run_stack top k))
  ∧ Sorted nested (landed <$> reverse (run_stack top k)).
Proof.
  intros H0 Htop. induction k as [|k IH]; intros Hk Hr; [by split; constructor|].
  rewrite run_stack_S, reverse_snoc. cbn [fmap list_fmap].
  destruct IH as [HF HS]; [lia|lia|intros r ->; specialize (Hr r eq_refl); lia|].
  split; constructor; try done.
  - split; cbn; [unfold MAX_LOCKOUT_HISTORY in *; lia|].
    destruct root as [r|]; [|done]. specialize (Hr r eq_refl). lia.
  - destruct k as [|k]; [constructor|].
    rewrite run_stack_S, reverse_snoc. cbn [fmap list_fmap]. constructor.
    unfold nested, LandedVote_slot, Lockout_expiration_slot, u64_checked_pow,
      u64_saturating_add. cbn [landed lv_lockout lo_slot lo_confirmation_count tv_slot
      tv_confirmation_count]. unfold INITIAL_LOCKOUT.
    pose proof (Z.pow_pos_nonneg 2 (Z.of_nat (S k) + 1)).
    case_match; cbn; split_and!; lia.
Qed.

Lemma run_stack_bottom top k :
  reverse (run_stack top (S k)) =
  mkTowerVote (top - Z.of_nat k) (Z.of_nat k + 1) :: reverse (run_stack top k).
Proof. by rewrite run_stack_S, reverse_snoc. Qed.

Lemma sync_rooting_rejected top s epoch current_slot :
  31 <= top → top + 2 <= u64_max →
  vs_votes s = landed <$> reverse (run_stack top 31) →
  root_advances (vs_root_slot s) (Some (top - 30)) →
  VoteState_apply_vote_state_update s (landed <$> reverse (run_stack (top + 1) 31))
    (Some (top - 30)) epoch current_slot = (Err LockoutConflict, s).
Proof.
  intros H0 Htop Hv Hr. unfold VoteState_apply_vote_state_update.
  apply root_rollback_check in Hr. rewrite Hr.
  destruct (landed_run_sorted (Some (top - 30)) (top + 1) 31) as [HF HS];
    [lia|lia|done|intros ? [= <-]; lia|].
  rewrite (validate_votes_complete (Some (top - 30)) None) by done.
  assert (Hl : VoteState_verify_lockout_consistency s (landed <$> reverse (run_stack (top + 1) 31))
               = Err LockoutConflict).
  { unfold VoteState_verify_lockout_consistency. rewrite Hv.
    rewrite (run_stack_bottom top 30), (run_stack_bottom (top + 1) 30).
    generalize (reverse (run_stack top 30)), (reverse (run_stack (top + 1) 30)). intros l l'.
    cbn [fmap list_fmap lockout_consistency_loop]. unfold LandedVote_slot.
    cbn [landed lv_lockout lo_slot tv_slot tv_confirmation_count].
    rewrite (proj2 (Z.ltb_lt _ _)) by lia.
    change (last_locked _) with (Z.min (top - Z.of_nat 30 + 2147483648) u64_max).
    by rewrite (proj2 (Z.leb_le _ _)) by lia. }
  rewrite Hl, bool_decide_eq_false_2 by (rewrite (run_stack_bottom (top + 1) 30); done).
  done.
Qed.

(** [process_vote] of the slot after a run of consecutive votes. *)
Lemma increase_landed v :
  0 <= tv_confirmation_count v < u32_max →
  LandedVote_increase (landed v) =
  landed (mkTowerVote (tv_slot v) (tv_confirmation_count v + 1)).
Proof.
  intros ?. unfold LandedVote_increase, Lockout_increase_confirmation_count,
    u32_saturating_add. cbn. by rewrite Z.min_l by lia.
Qed.

Lemma increase_landed_run top k :
  (k <= MAX_LOCKOUT_HISTORY)%nat →
  (LandedVote_increase <$> (landed <$> reverse (run_stack top k))) ++ [LandedVote_new (top + 1) 0]
  = landed <$> reverse (run_stack (top + 1) (S k)).
Proof.
  intros Hk. rewrite run_stack_cons, reverse_cons, fmap_app, <- fmap_reverse.
  replace (top + 1 - 1) with top by lia. f_equal.
  rewrite <- !list_fmap_compose. apply list_fmap_ext. intros i v Hv. cbn.
  apply increase_landed.
  apply list_elem_of_lookup_2, elem_of_reverse, list_elem_of_fmap in Hv as (j & -> & Hj).
  apply elem_of_seq in Hj. cbn. unfold MAX_LOCKOUT_HISTORY, u32_max in *. lia.
Qed.

Lemma pop_expired_run top k :
  top + 2 <= u64_max →
  pop_expired (top + 1) (landed <$> run_stack top k) = landed <$> run_stack top k.
Proof.
  intros Htop. destruct k as [|k]; [done|]. rewrite run_stack_cons. cbn [fmap list_fmap pop_expired].
  rewrite (proj2 (Z.leb_gt _ _)); [done|].
  change (top + 1 < Z.min (top + 2) u64_max). lia.
Qed.

Lemma update_credits_votes s slot :
  vs_votes (VoteState_update_credits s slot) = vs_votes s
  ∧ vs_root_slot (VoteState_update_credits s slot) = vs_root_slot s.
Proof. unfold VoteState_update_credits. by repeat case_match. Qed.

Lemma process_vote_run s top k :
  (k <= MAX_LOCKOUT_HISTORY)%nat → top + 2 <= u64_max →
  vs_votes s = landed <$> reverse (run_stack top k) →
  (∀ r, vs_root_slot s = Some r → r <= top) →
  let r := VoteState_process_vote s (top + 1) in
  r.1 = Ok ()
  ∧ vs_votes r.2 = landed <$> reverse (run_stack (top + 1) (Nat.min (S k) MAX_LOCKOUT_HISTORY))
  ∧ vs_root_slot r.2 = if decide (k = MAX_LOCKOUT_HISTORY) then Some (top - 30)
                       else vs_root_slot s.
Proof.
  intros Hk Htop Hv Hr. unfold VoteState_process_vote.
  assert (E1 : (match vs_root_slot s with
     | Some root => if top + 1 <=? root then Some (VoteError_VoteBelowRoot (top + 1) root) else None
     | None => None end) = None).
  { destruct (vs_root_slot s) as [r|]; [|done]. specialize (Hr r eq_refl).
    by rewrite (proj2 (Z.leb_gt _ _)) by lia. }
  rewrite E1.
  assert (E2 : ∀ v, last (vs_votes s) = Some v → LandedVote_slot v = top).
  { intros v. rewrite Hv, fmap_reverse, last_reverse. destruct k as [|k]; [done|].
    rewrite run_stack_cons. by intros [= <-]. }
  destruct (match last (vs_votes s) with Some _ => _ | None => _ end) eqn:E3.
  { destruct (last (vs_votes s)) as [w|]; [|done]. rewrite (E2 w eq_refl) in E3.
    by rewrite (proj2 (Z.leb_gt _ _)) in E3 by lia. }
  assert (E4 : reverse (pop_expired (top + 1) (reverse (vs_votes s)))
               = landed <$> reverse (run_stack top k)).
  { rewrite Hv, <- fmap_reverse, reverse_involutive, pop_expired_run by done.
    symmetry. apply fmap_reverse. }
  rewrite E4. cbn [fst snd].
  rewrite increase_landed_run by done. rewrite !(proj1 (update_credits_votes _ _)),
    !(proj2 (update_credits_votes _ _)).
  assert (Hlen : length (landed <$> reverse (run_stack (top + 1) (S k))) = S k).
  { unfold run_stack. by rewrite length_fmap, length_reverse, length_fmap, length_seq. }
  rewrite Hlen. case_decide as Hd.
  - subst k. rewrite Nat.min_r by lia. change MAX_LOCKOUT_HISTORY with 31%nat.
    rewrite run_stack_bottom. cbn -[run_stack reverse]. split_and!; [done|done|].
    unfold LandedVote_slot; cbn. f_equal. lia.
  - rewrite (proj2 (Nat.ltb_ge _ _)) by lia. by rewrite Nat.min_l by lia.
Qed.

Lemma process_votes_snoc s start n :
  process_votes s (seqZ start (Z.of_nat (S n))) =
  (VoteState_process_vote (process_votes s (seqZ start (Z.of_nat n))) (start + Z.of_nat n)).2.
Proof.
  unfold process_votes. rewrite seqZ_S. by rewrite foldl_snoc.
Qed.

Lemma process_votes_spec s start n :
  0 <= start → start + Z.of_nat n + 1 <= u64_max → vs_votes s = [] → vs_root_slot s = None →
  let s' := process_votes s (seqZ start (Z.of_nat n)) in
  vs_votes s' =
    landed <$> reverse (run_stack (start + Z.of_nat n - 1) (Nat.min n MAX_LOCKOUT_HISTORY))
  ∧ vs_root_slot s' = if decide (n <= MAX_LOCKOUT_HISTORY)%nat then None
                      else Some (start + Z.of_nat n - 32).
Proof.
  intros H0 Hn Hv Hr. induction n as [|n IH]; [done|].
  cbv zeta. rewrite process_votes_snoc. destruct IH as [IHv IHr]; [lia|].
  pose proof (process_vote_run (process_votes s (seqZ start (Z.of_nat n)))
    (start + Z.of_nat n - 1) (Nat.min n MAX_LOCKOUT_HISTORY)) as Hstep.
  replace (start + Z.of_nat n - 1 + 1) with (start + Z.of_nat n) in Hstep by lia.
  destruct Hstep as (_ & Hv' & Hr'); [lia|lia|done| |].
  { rewrite IHr. intros r. case_decide; [done|]. intros [= <-]. lia. }
  split.
  - rewrite Hv'. replace (start + Z.of_nat (S n) - 1) with (start + Z.of_nat n) by lia.
    by replace (Nat.min (S (Nat.min n MAX_LOCKOUT_HISTORY)) MAX_LOCKOUT_HISTORY)
      with (Nat.min (S n) MAX_LOCKOUT_HISTORY) by lia.
  - rewrite Hr', IHr. repeat case_decide; try done; try lia; f_equal; lia.
Qed.

(** C37. On uninterrupted voting the on-chain program and the validator agree:
    after [process_vote] of [n] consecutive slots every vote was accepted and
    the account holds the slots, the confirmation counts and the root of the
    validator's own tower after the same [n] votes. *)
Theorem process_vote_matches_tower (s : VoteState) (start : Z) (n : nat) :
  0 <= start → start + Z.of_nat n + 1 <= u64_max → vs_votes s = [] → vs_root_slot s = None →
  let s' := process_votes s (seqZ start (Z.of_nat n)) in
  let t' := vote_run start n in
  vs_votes s' = landed <$> tower_votes t' ∧ vs_root_slot s' = tower_root t'
  ∧ (VoteState_process_vote s' (start + Z.of_nat n)).1 = Ok ().
Proof.
  intros H0 Hn Hv Hr. destruct (process_votes_spec s start n) as [Hv' Hr']; try done.
  cbv zeta. rewrite vote_run_spec by done. cbn [tower_votes tower_root].
  split_and!; [done|done|].
  pose proof (process_vote_run (process_votes s (seqZ start (Z.of_nat n)))
    (start + Z.of_nat n - 1) (Nat.min n MAX_LOCKOUT_HISTORY)) as Hstep.
  replace (start + Z.of_nat n - 1 + 1) with (start + Z.of_nat n) in Hstep by lia.
  destruct Hstep as (Hok & _); [lia|lia|done| |done].
  rewrite Hr'. intros r. case_decide; [done|]. intros [= <-]. lia.
Qed.

(** After an expiry they disagree.  [process_vote] increments the count of
    every surviving vote, the tower only a vote whose count has been reached by
    the votes above it: voting for 1, 2, 4, ..., 2^40 lets every older vote
    expire in the tower, but leaves slot 1 locked out on chain with 41
    confirmations, more than the 31 that [apply_vote_state_update] accepts. *)
Theorem process_vote_diverges_after_expiry :
  let slots := (λ k, 2 ^ Z.of_nat k) <$> seq 0 41 in
  let s := process_votes (VoteState_new [] [] [] 0) slots in
  let t := tower_votes_for Tower_new slots in
  (lv_lockout <$> vs_votes s) = [mkLockout 1 41; mkLockout (2 ^ 40) 1]
  ∧ tower_votes t = [mkTowerVote (2 ^ 40) 1]
  ∧ Tower_verify t = Ok ()
  ∧ (VoteState_apply_vote_state_update s (vs_votes s) None 0 (2 ^ 40)).1
    = Err VoteError_ConfirmationTooLarge.
Proof. vm_compute. done. Qed.

(** No tower sync can root a vote of a full tower.  Once the account holds
    the tower of [n >= 31] consecutive votes, the sync that carries the
    validator's own tower after the next vote (which pops the oldest vote into
    the root) is refused: the lockout comparison treats the newly rooted vote
    as one that was dropped before its lockout expired. *)
Theorem tower_sync_refuses_rooting (s : VoteState) (start : Z) (n : nat)
    (epoch current_slot : Z) :
  1 <= start → (31 <= n)%nat → start + Z.of_nat n + 2 <= u64_max →
  vs_votes s = landed <$> tower_votes (vote_run start n) →
  vs_root_slot s = tower_root (vote_run start n) →
  VoteState_apply_vote_state_update s (landed <$> tower_votes (vote_run start (S n)))
    (tower_root (vote_run start (S n))) epoch current_slot = (Err LockoutConflict, s).
Proof.
  intros H0 Hn Hb Hv Hr. rewrite !vote_run_spec in * by lia.
  cbn [tower_votes tower_root] in *. unfold MAX_LOCKOUT_HISTORY in *.
  rewrite Nat.min_r in * by lia. rewrite (decide_False (P := (S n <= 31)%nat)) by lia.
  pose proof (sync_rooting_rejected (start + Z.of_nat n - 1) s epoch current_slot) as Hrej.
  replace (start + Z.of_nat n - 1 - 30) with (start + Z.of_nat (S n) - 32) in Hrej by lia.
  replace (start + Z.of_nat n - 1 + 1) with (start + Z.of_nat (S n) - 1) in Hrej by lia.
  apply Hrej; [lia|lia|done|]. rewrite Hr. case_decide; cbn; [done|lia].
Qed.

(** ** The account encoding round-trips *)

Definition is_credit (c : Z * Z * Z) : Prop := is_u64 c.1.1 ∧ is_u64 c.1.2 ∧ is_u64 c.2.
Definition vote_in_range (v : LandedVote) : Prop :=
  is_u64 (lo_slot (lv_lockout v)) ∧ is_u32 (lo_confirmation_count (lv_lockout v)).

(** The ranges that the Rust types give every field. *)
Record vote_state_typed (s : VoteState) : Prop := {
  typed_node : length (vs_node_pubkey s) = 32%nat;
  typed_voter : length (vs_authorized_voter s) = 32%nat;
  typed_withdrawer : length (vs_authorized_withdrawer s) = 32%nat;
  typed_votes : Forall vote_in_range (vs_votes s);
  typed_votes_len : Z.of_nat (length (vs_votes s)) <= u32_max;
  typed_root : ∀ r, vs_root_slot s = Some r → is_u64 r;
  typed_credits : Forall is_credit (vs_epoch_credits s);
  typed_credits_len : Z.of_nat (length (vs_epoch_credits s)) <= u32_max;
  typed_bls : ∀ k, vs_bls_pubkey s = Some k → length k = 48%nat;
}.

Definition clear_latency (v : LandedVote) : LandedVote := mkLandedVote 0 (lv_lockout v).

Lemma length_serialize_vote v : length (serialize_vote v) = 12%nat.
Proof. unfold serialize_vote. by rewrite length_app, !length_to_le_bytes. Qed.

Lemma length_serialize_credit c : length (serialize_credit c) = 24%nat.
Proof. destruct c as [[? ?] ?]. cbn -[to_le_bytes]. by rewrite !length_app, !length_to_le_bytes. Qed.

Lemma deserialize_votes_serialize pre votes post :
  Forall vote_in_range votes →
  deserialize_votes (pre ++ concat (serialize_vote <$> votes) ++ post) (length pre) (length votes)
  = Some (clear_latency <$> votes, length (pre ++ concat (serialize_vote <$> votes))).
Proof.
  intros H. revert pre. induction H as [|v votes [Hs Hc] H IH]; intros pre.
  { cbn. by rewrite app_nil_r. }
  cbn [length deserialize_votes fmap list_fmap concat].
  rewrite (proj2 (Nat.ltb_ge _ _)) by (rewrite !length_app, length_serialize_vote; lia).
  set (C := concat (serialize_vote <$> votes)) in *.
  assert (E : (serialize_vote v ++ C) ++ post =
              to_le_bytes 8 (lo_slot (lv_lockout v))
                ++ to_le_bytes 4 (lo_confirmation_count (lv_lockout v)) ++ C ++ post)
    by (unfold serialize_vote; by rewrite <- !app_assoc).
  specialize (IH (pre ++ serialize_vote v)). rewrite <- !app_assoc, (app_assoc _ C post), E in IH.
  rewrite E, read_le1, read_le2. cbn [fmap option_fmap option_map mbind option_bind].
  rewrite from_le_bytes_u64, from_le_bytes_u32 by done.
  replace (length pre + 8 + 4)%nat with (length (pre ++ serialize_vote v))
    by (rewrite length_app, length_serialize_vote; lia).
  rewrite IH. cbn [mbind option_bind]. by destruct v as [? [? ?]].
Qed.

Lemma deserialize_credit_entries_serialize pre credits post :
  Forall is_credit credits →
  deserialize_credit_entries (pre ++ concat (serialize_credit <$> credits) ++ post)
    (length pre) (length credits)
  = Some (credits, length (pre ++ concat (serialize_credit <$> credits))).
Proof.
  intros H. revert pre.
  induction H as [|[[e c] p] credits (He & Hc & Hp) H IH]; intros pre.
  { cbn. by rewrite app_nil_r. }
  cbn [length deserialize_credit_entries fmap list_fmap concat].
  rewrite (proj2 (Nat.ltb_ge _ _)) by (rewrite !length_app, length_serialize_credit; lia).
  set (C := concat (serialize_credit <$> credits)) in *.
  assert (E : (serialize_credit (e, c, p) ++ C) ++ post =
              to_le_bytes 8 e ++ to_le_bytes 8 c ++ to_le_bytes 8 p ++ C ++ post)
    by (unfold serialize_credit; by rewrite <- !app_assoc).
  specialize (IH (pre ++ serialize_credit (e, c, p))).
  rewrite <- !app_assoc, (app_assoc _ C post), E in IH.
  rewrite E, read_le1, read_le2, read_le3. cbn [fmap option_fmap option_map mbind option_bind].
  cbn in He, Hc, Hp. rewrite !from_le_bytes_u64 by done.
  replace (length pre + 8 + 8 + 8)%nat with (length (pre ++ serialize_credit (e, c, p)))
    by (rewrite length_app, length_serialize_credit; lia).
  by rewrite IH.
Qed.

Lemma deserialize_root_serialize pre root post :
  (∀ r, root = Some r → is_u64 r) →
  deserialize_root (pre ++ serialize_root root ++ post) (length pre)
  = Some (root, length (pre ++ serialize_root root)).
Proof.
  intros Hr. unfold deserialize_root. destruct root as [r|]; cbn [serialize_root].
  - rewrite bool_decide_eq_true_2 by (cbn; by rewrite list_lookup_middle).
    rewrite (read_bytes_at _ (pre ++ [1]) (to_le_bytes 8 r) post)
      by (rewrite ?length_app, ?length_to_le_bytes, <- ?app_assoc; done).
    cbn [fmap option_fmap option_map mbind option_bind].
    rewrite from_le_bytes_u64 by by apply Hr. do 2 f_equal.
    rewrite length_app. cbn. lia.
  - rewrite bool_decide_eq_false_2
      by (cbn; rewrite list_lookup_middle by done; done).
    rewrite (proj2 (Nat.ltb_lt _ _)) by (rewrite !length_app; cbn; lia).
    by rewrite length_app.
Qed.

(** Only the first 64 entries of the credit history are read back. *)
Lemma deserialize_credits_serialize pre credits post :
  Forall is_credit credits → Z.of_nat (length credits) <= u32_max →
  deserialize_credits
    (pre ++ to_le_bytes 4 (wrap32 (Z.of_nat (length credits)))
       ++ concat (serialize_credit <$> credits) ++ post) (length pre)
  = Some (take MAX_EPOCH_CREDITS_HISTORY credits,
          length (pre ++ to_le_bytes 4 (wrap32 (Z.of_nat (length credits)))
            ++ concat (serialize_credit <$> take MAX_EPOCH_CREDITS_HISTORY credits))).
Proof.
  intros Hc Hlen. unfold deserialize_credits.
  assert (Hu : is_u32 (Z.of_nat (length credits))) by (split; lia).
  rewrite (wrap32_small _ Hu). set (cnt := to_le_bytes 4 _).
  assert (Hcnt : length cnt = 4%nat) by apply length_to_le_bytes.
  rewrite (proj2 (Nat.leb_le _ _)) by (rewrite !length_app, Hcnt; lia).
  rewrite (read_bytes_at _ pre cnt (concat (serialize_credit <$> credits) ++ post)) by done.
  cbn [fmap option_fmap option_map mbind option_bind].
  rewrite (from_le_bytes_u32 _ Hu : from_le_bytes cnt = _), Nat2Z.id.
  pose proof (deserialize_credit_entries_serialize (pre ++ cnt)
    (take MAX_EPOCH_CREDITS_HISTORY credits)
    (concat (serialize_credit <$> drop MAX_EPOCH_CREDITS_HISTORY credits) ++ post)) as H.
  rewrite (app_assoc (concat _)), <- concat_app, <- fmap_app, take_drop in H.
  rewrite length_take, length_app, Hcnt, Nat.min_comm, <- !app_assoc in H. apply H.
  by apply Forall_take.
Qed.

Lemma deserialize_bls_shift pre post :
  deserialize_bls (pre ++ post) (length pre) = deserialize_bls post 0.
Proof.
  unfold deserialize_bls. rewrite lookup_app_r, Nat.sub_diag by lia.
  unfold read_bytes. rewrite length_app, drop_app_add.
  replace (length pre + length post <? length pre + 1 + 48)%nat
    with (length post <? 0 + 1 + 48)%nat; [done|].
  destruct (Nat.ltb_spec (length post) (0 + 1 + 48)), 
    (Nat.ltb_spec (length pre + length post) (length pre + 1 + 48)); lia.
Qed.

Lemma deserialize_bls_serialize bls :
  (∀ k, bls = Some k → length k = 48%nat) → deserialize_bls (serialize_bls bls) 0 = bls.
Proof.
  intros H. destruct bls as [k|]; [|done]. specialize (H k eq_refl).
  unfold deserialize_bls. cbn -[read_bytes].
  apply (read_bytes_at _ [1] k []); [by rewrite app_nil_r|done|done].
Qed.

Lemma header_reads nk av aw com cnt rest :
  length nk = 32%nat → length av = 32%nat → length aw = 32%nat → length cnt = 4%nat →
  let data := nk ++ av ++ aw ++ [com] ++ cnt ++ rest in
  (length data <? 32 + 32 + 32 + 1)%nat = false
  ∧ read_bytes data 0 32 = Some nk ∧ read_bytes data 32 32 = Some av
  ∧ read_bytes data 64 32 = Some aw ∧ data !! 96%nat = Some com
  ∧ read_bytes data 97 4 = Some cnt.
Proof.
  intros H1 H2 H3 H4 data. split_and!.
  - apply Nat.ltb_ge. unfold data. rewrite !length_app. cbn. lia.
  - by apply (read_bytes_at data [] nk (av ++ aw ++ [com] ++ cnt ++ rest)).
  - by apply (read_bytes_at data nk av (aw ++ [com] ++ cnt ++ rest)).
  - apply (read_bytes_at data (nk ++ av) aw ([com] ++ cnt ++ rest));
      rewrite ?length_app, <- ?app_assoc; done || lia.
  - unfold data. rewrite (app_assoc av), (app_assoc nk). apply list_lookup_middle.
    rewrite !length_app. lia.
  - apply (read_bytes_at data (nk ++ av ++ aw ++ [com]) cnt rest);
      rewrite ?length_app, <- ?app_assoc; done || (cbn; lia).
Qed.

(** What reading an account back gives, in general. *)
Lemma deserialize_serialize s :
  vote_state_typed s →
  VoteState_deserialize (VoteState_serialize s) =
  Ok (mkVoteState (vs_node_pubkey s) (vs_authorized_voter s) (vs_authorized_withdrawer s)
        (vs_commission s) (clear_latency <$> vs_votes s) (vs_root_slot s)
        (take MAX_EPOCH_CREDITS_HISTORY (vs_epoch_credits s))
        (deserialize_bls
           (concat (serialize_credit <$> drop MAX_EPOCH_CREDITS_HISTORY (vs_epoch_credits s))
              ++ serialize_bls (vs_bls_pubkey s)) 0)).
Proof.
  intros [H1 H2 H3 Hv Hvl Hr Hc Hcl Hb]. destruct s as [nk av aw com vs root cr bls].
  cbn [vs_node_pubkey vs_authorized_voter vs_authorized_withdrawer vs_commission vs_votes
    vs_root_slot vs_epoch_credits vs_bls_pubkey] in *.
  assert (Hu : is_u32 (Z.of_nat (length vs))) by (split; lia).
  set (cnt := to_le_bytes 4 (Z.of_nat (length vs))).
  assert (Hcnt : length cnt = 4%nat) by apply length_to_le_bytes.
  set (data := VoteState_serialize _).
  set (head := nk ++ av ++ aw ++ [com] ++ cnt).
  set (vbytes := concat (serialize_vote <$> vs)).
  set (ccnt := to_le_bytes 4 (wrap32 (Z.of_nat (length cr)))).
  set (cbytes := concat (serialize_credit <$> cr) ++ serialize_bls bls).
  assert (Hdata : data = nk ++ av ++ aw ++ [com] ++ cnt
                    ++ vbytes ++ serialize_root root ++ ccnt ++ cbytes).
  { unfold data, VoteState_serialize. cbn [vs_votes vs_epoch_credits vs_node_pubkey
      vs_authorized_voter vs_authorized_withdrawer vs_commission vs_root_slot vs_bls_pubkey].
    by rewrite (wrap32_small _ Hu). }
  destruct (header_reads nk av aw com cnt (vbytes ++ serialize_root root ++ ccnt ++ cbytes))
    as (E0 & E1 & E2 & E3 & E4 & E5); [done..|].
  unfold VoteState_deserialize. rewrite Hdata, E0, E1, E2, E3, E4, E5, <- Hdata.
  cbn [fmap option_fmap option_map mbind option_bind].
  rewrite (from_le_bytes_u32 _ Hu : from_le_bytes cnt = _), Nat2Z.id.
  assert (Hd2 : data = head ++ vbytes ++ serialize_root root ++ ccnt ++ cbytes)
    by (rewrite Hdata; unfold head; by rewrite <- !app_assoc).
  assert (Hh : length head = 101%nat) by (unfold head; rewrite !length_app; cbn; lia).
  assert (Ev : deserialize_votes data 101 (length vs)
               = Some (clear_latency <$> vs, length (head ++ vbytes)))
    by (rewrite Hd2, <- Hh; by apply deserialize_votes_serialize).
  rewrite app_assoc in Hd2. rewrite Ev. cbn [mbind option_bind].
  assert (Er : deserialize_root data (length (head ++ vbytes))
               = Some (root, length ((head ++ vbytes) ++ serialize_root root)))
    by (rewrite Hd2; by apply deserialize_root_serialize).
  rewrite app_assoc in Hd2. rewrite Er. cbn [mbind option_bind].
  set (pre := (head ++ vbytes) ++ serialize_root root) in *.
  rewrite Hd2. unfold cbytes, ccnt. rewrite deserialize_credits_serialize by done.
  cbn [mbind option_bind]. do 2 f_equal.
  rewrite <- (take_drop MAX_EPOCH_CREDITS_HISTORY cr) at 2.
  rewrite fmap_app, concat_app, <- (app_assoc (concat _)), (app_assoc _ (concat _)), app_assoc.
  apply deserialize_bls_shift.
Qed.

(** Voting keeps every field in the range of its type. *)
Lemma pop_expired_suffix slot rv : ∃ popped, rv = popped ++ pop_expired slot rv.
Proof.
  induction rv as [|v rv [popped IH]]; [by exists []|]. cbn.
  case_match; [exists (v :: popped); cbn; by f_equal|by exists []].
Qed.

Lemma process_vote_votes_typed slot votes :
  is_u64 slot → Forall vote_in_range votes →
  Forall vote_in_range
    ((LandedVote_increase <$> reverse (pop_expired slot (reverse votes))) ++ [LandedVote_new slot 0]).
Proof.
  intros Hs Hv. apply Forall_app. split.
  - apply Forall_fmap, Forall_reverse. rewrite <- Forall_reverse in Hv.
    destruct (pop_expired_suffix slot (reverse votes)) as [p Hp]. rewrite Hp in Hv.
    apply Forall_app in Hv as [_ Hv]. eapply Forall_impl; [exact Hv|].
    intros v [? [? ?]]. split; [done|]. cbn. unfold u32_saturating_add, is_u32, u32_max in *. lia.
  - apply Forall_singleton. split; [done|]. cbn. unfold is_u32, u32_max. lia.
Qed.

Lemma update_credits_push s slot :
  (∀ c, last (vs_epoch_credits s) = Some c → c.1.1 < slot) →
  ∃ total, VoteState_update_credits s slot =
           set_epoch_credits (vs_epoch_credits s ++ [(slot, total, 1)]) s
           ∧ ((∀ c, last (vs_epoch_credits s) = Some c → is_u64 c.1.2) → is_u64 total).
Proof.
  intros Hl. unfold VoteState_update_credits.
  destruct (last (vs_epoch_credits s)) as [[[ls lc] lp]|].
  - specialize (Hl _ eq_refl). cbn in Hl. rewrite (proj2 (Z.ltb_lt _ _)) by lia.
    eexists. split; [done|]. intros H. specialize (H _ eq_refl). cbn in H.
    unfold u64_saturating_add, is_u64, u64_max in *. lia.
  - eexists. split; [done|]. intros _. unfold is_u64, u64_max. lia.
Qed.

Lemma typed_last_credit s c :
  vote_state_typed s → last (vs_epoch_credits s) = Some c → is_credit c.
Proof.
  intros Ht Hl. eapply Forall_forall; [apply (typed_credits s Ht)|].
  apply last_Some in Hl as [l ->]. set_solver.
Qed.

(** An accepted vote for a slot above the last credited one: the state it
    leaves, up to the stack and root, and that its fields stay in range. *)
Lemma process_vote_credit_entry s slot :
  vote_state_typed s → is_u64 slot → Z.of_nat (length (vs_votes s)) < u32_max →
  Z.of_nat (length (vs_epoch_credits s)) < u32_max →
  (∀ c, last (vs_epoch_credits s) = Some c → c.1.1 < slot) →
  (VoteState_process_vote s slot).1 = Ok () →
  let s' := (VoteState_process_vote s slot).2 in
  vote_state_typed s' ∧ vs_bls_pubkey s' = vs_bls_pubkey s
  ∧ ∃ total, vs_epoch_credits s' = vs_epoch_credits s ++ [(slot, total, 1)].
Proof.
  intros Ht Hslot Hn Hnc Hlast Hok. unfold VoteState_process_vote in *.
  destruct (match vs_root_slot s with Some _ => _ | None => _ end); [done|].
  destruct (match last (vs_votes s) with Some _ => _ | None => _ end); [done|].
  clear Hok. pose proof (process_vote_votes_typed slot _ Hslot (typed_votes s Ht)) as Hvt.
  destruct (pop_expired_suffix slot (reverse (vs_votes s))) as [p Hp].
  apply (f_equal length) in Hp. rewrite length_app, length_reverse in Hp.
  set (votes := (LandedVote_increase <$> _) ++ _) in *.
  assert (Hlen : (length votes <= S (length (vs_votes s)))%nat).
  { unfold votes. rewrite length_app, length_fmap, length_reverse. cbn. lia. }
  set (s1 := if (_ <? _)%nat then _ else _).
  assert (Hs1 : vote_state_typed s1 ∧ vs_bls_pubkey s1 = vs_bls_pubkey s
                ∧ vs_epoch_credits s1 = vs_epoch_credits s).
  { destruct Ht. unfold s1. destruct votes as [|o rest]; repeat case_match; split_and!; try done;
      split; cbn in *; try done; try lia; try (by apply Forall_cons in Hvt as [_ ?]).
    intros r [= <-]. by apply Forall_cons in Hvt as [[? _] _]. }
  clearbody s1. destruct Hs1 as (Ht1 & Hb1 & Hc1). rewrite <- Hc1 in Hlast, Hnc.
  destruct (update_credits_push s1 slot Hlast) as (total & E & Htot).
  cbn [snd]. rewrite E. split_and!; [|done|by exists total; cbn; rewrite Hc1].
  pose proof Ht1 as Ht2. destruct Ht1. split; cbn; try done.
  - apply Forall_app; split; [done|]. apply Forall_singleton. split_and!; cbn; [done| |].
    + apply Htot. intros c Hc. by apply (typed_last_credit s1) in Hc as (_ & ? & _).
    + unfold is_u64, u64_max. lia.
  - rewrite length_app. cbn. lia.
Qed.

(** Storing a vote account and loading it back returns the same state, as
    long as the credit history has at most 64 entries: identities, commission,
    lockouts, root, credits and the optional BLS key all survive.  Only the
    latencies are lost: the encoding has no field for them. *)
Theorem vote_state_roundtrip (s : VoteState) :
  vote_state_typed s → (length (vs_epoch_credits s) <= MAX_EPOCH_CREDITS_HISTORY)%nat →
  VoteState_deserialize (VoteState_serialize s) =
  Ok (set_votes (clear_latency <$> vs_votes s) s).
Proof.
  intros Ht Hlen. rewrite deserialize_serialize by done.
  rewrite take_ge, drop_ge, app_nil_l by lia.
  rewrite deserialize_bls_serialize by apply (typed_bls s Ht). done.
Qed.

(** The vote program overruns that bound by itself.  [process_vote] adds a
    credit entry for every new slot and never trims the history, while
    [deserialize] reads at most 64 entries and then looks for the BLS key right
    after them: once an account has 64 entries, the next accepted vote stores
    a state that loads back without its BLS key and without the new credit
    (whenever the low byte of the slot is not 1, the presence marker). *)
Theorem process_vote_65th_credit_loses_bls_key (s : VoteState) (slot : Z) :
  vote_state_typed s → is_u64 slot → slot mod 256 ≠ 1 →
  Z.of_nat (length (vs_votes s)) < u32_max →
  length (vs_epoch_credits s) = MAX_EPOCH_CREDITS_HISTORY →
  (∀ c, last (vs_epoch_credits s) = Some c → c.1.1 < slot) →
  (VoteState_process_vote s slot).1 = Ok () →
  ∃ s'', VoteState_deserialize (VoteState_serialize (VoteState_process_vote s slot).2) = Ok s''
         ∧ vs_bls_pubkey s'' = None ∧ vs_epoch_credits s'' = vs_epoch_credits s.
Proof.
  intros Ht Hs Hm Hv Hc Hl Hok.
  destruct (process_vote_credit_entry s slot) as (Ht' & Hb & total & Hcr); try done.
  { rewrite Hc. unfold MAX_EPOCH_CREDITS_HISTORY, u32_max. lia. }
  eexists. rewrite deserialize_serialize by done. split; [done|].
  cbn [vs_bls_pubkey vs_epoch_credits]. rewrite Hcr, drop_app_length', take_app_length' by done.
  split; [|done]. unfold deserialize_bls. rewrite bool_decide_eq_false_2; [done|].
  cbn. intros [= E]. done.
Qed.

(** ** Witnesses *)

Definition sample_key (n : nat) : list Z := repeat 7 n.
Definition sample_state : VoteState :=
  mkVoteState (sample_key 32) (sample_key 32) (sample_key 32) 5
    [mkLandedVote 3 (mkLockout 10 2); mkLandedVote 1 (mkLockout 11 1)] (Some 4)
    [(9, 1, 1); (10, 2, 1)] (Some (sample_key 48)).
Definition sample_update : list LandedVote :=
  [mkLandedVote 0 (mkLockout 10 3); mkLandedVote 0 (mkLockout 11 2);
   mkLandedVote 0 (mkLockout 12 1)].

Lemma tower_sync_accepted_iff_witness : acceptable_update sample_state sample_update (Some 4).
Proof.
  apply (tower_sync_accepted_iff sample_state sample_update (Some 4) 0 12).
  - repeat constructor.
  - repeat constructor; discriminate.
  - reflexivity.
Defined.

Lemma tower_sync_installs_witness :
  (VoteState_apply_vote_state_update sample_state sample_update (Some 4) 0 12).1 = Ok ()
  ∧ vs_root_slot (VoteState_apply_vote_state_update sample_state sample_update (Some 4) 0 12).2
    = Some 4.
Proof.
  split; [reflexivity|].
  pose proof (tower_sync_installs sample_state sample_update (Some 4) 0 12) as H.
  destruct H as [H _]; [repeat constructor; discriminate|]. exact H.
Defined.

Lemma process_vote_matches_tower_witness :
  vs_votes (process_votes (VoteState_new [] [] [] 0) (seqZ 100 (Z.of_nat 40)))
  = landed <$> tower_votes (vote_run 100 40).
Proof.
  apply (process_vote_matches_tower (VoteState_new [] [] [] 0) 100 40);
    [lia|unfold u64_max; lia|reflexivity|reflexivity].
Defined.

Lemma tower_sync_refuses_rooting_witness :
  let s := process_votes (VoteState_new [] [] [] 0) (seqZ 100 (Z.of_nat 31)) in
  VoteState_apply_vote_state_update s (landed <$> tower_votes (vote_run 100 32)) (Some 100) 0 131
  = (Err LockoutConflict, s).
Proof.
  apply (tower_sync_refuses_rooting
    (process_votes (VoteState_new [] [] [] 0) (seqZ 100 (Z.of_nat 31))) 100 31 0 131);
    [lia|lia|unfold u64_max; lia|vm_compute; reflexivity|vm_compute; reflexivity].
Defined.

Lemma sample_state_typed : vote_state_typed sample_state.
Proof.
  split; try reflexivity.
  - repeat constructor; vm_compute; discriminate.
  - discriminate.
  - intros r [= <-]. split; discriminate.
  - repeat constructor; vm_compute; discriminate.
  - discriminate.
  - intros k [= <-]. reflexivity.
Qed.

Lemma vote_state_roundtrip_witness :
  VoteState_deserialize (VoteState_serialize sample_state) =
  Ok (set_votes (clear_latency <$> vs_votes sample_state) sample_state).
Proof.
  apply (vote_state_roundtrip sample_state); [apply sample_state_typed|].
  apply Nat.leb_le. reflexivity.
Defined.

Definition sample_full_state : VoteState :=
  set_epoch_credits ((λ i, (Z.of_nat i, Z.of_nat i + 1, 1)) <$> seq 0 64) sample_state.

Lemma sample_full_state_typed : vote_state_typed sample_full_state.
Proof.
  split; try reflexivity.
  - repeat constructor; vm_compute; discriminate.
  - discriminate.
  - intros r [= <-]. split; discriminate.
  - apply Forall_fmap, Forall_seq. intros i Hi. cbn in Hi.
    split_and!; split; cbn; unfold u64_max; lia.
  - discriminate.
  - intros k [= <-]. reflexivity.
Qed.

Lemma process_vote_65th_credit_loses_bls_key_witness :
  ∃ s'', VoteState_deserialize
           (VoteState_serialize (VoteState_process_vote sample_full_state 100).2) = Ok s''
         ∧ vs_bls_pubkey s'' = None ∧ vs_epoch_credits s'' = vs_epoch_credits sample_full_state.
Proof.
  apply (process_vote_65th_credit_loses_bls_key sample_full_state 100).
  - apply sample_full_state_typed.
  - split; discriminate.
  - discriminate.
  - reflexivity.
  - reflexivity.
  - intros c [= <-]. reflexivity.
  - reflexivity.
Defined.
