(* ===== verification/AlpBase.v ===== *)
(** * Alpenglow: base types, quorums, windows and the validator set

    Model of [src/crates/karstflow-alpenglow/src/base.rs] and [epoch_info.rs].
    A 32-byte hash, a public key and a signature are their byte lists. *)
From stdpp Require Import base tactics list numbers countable gmap.
From Stdlib Require Import ZArith Lia.
From S2P Require Import Prelude.
Local Open Scope Z_scope.

Abbreviation BlockHash := (list Z) (only parsing).

Definition GENESIS_BLOCK_HASH : BlockHash := replicate 32 0.
Definition SLOTS_PER_WINDOW : Z := 4.
Notation SLOTS_PER_EPOCH := (18000)%Z (only parsing).

Notation WEAKEST_QUORUM_NUMER := (1)%Z (only parsing).
Notation WEAK_QUORUM_NUMER := (2)%Z (only parsing).
Definition QUORUM_NUMER : Z := 3.
Definition STRONG_QUORUM_NUMER : Z := 4.
Definition QUORUM_DENOM : Z := 5.

Record BlockId := mkBlockId { bi_slot : Z; bi_hash : BlockHash }.

#[export] Instance BlockId_eq_dec : EqDecision BlockId.
Proof. solve_decision. Defined.
#[export] Instance BlockId_countable : Countable BlockId.
Proof.
  refine (inj_countable' (λ b, (bi_slot b, bi_hash b)) (λ p, mkBlockId p.1 p.2) _).
  by intros [].
Defined.

Definition BlockId_genesis (slot : Z) : BlockId :=
  {| bi_slot := slot; bi_hash := GENESIS_BLOCK_HASH |}.

(** The products are taken at 128 bits, where two 64-bit factors cannot
    overflow. *)
Definition fraction_is_met (stake total numer denom : Z) : bool :=
  total * numer <=? stake * denom.

Definition is_weakest_quorum (stake total : Z) : bool :=
  fraction_is_met stake total WEAKEST_QUORUM_NUMER QUORUM_DENOM.
Definition is_weak_quorum (stake total : Z) : bool :=
  fraction_is_met stake total WEAK_QUORUM_NUMER QUORUM_DENOM.
Definition is_quorum (stake total : Z) : bool :=
  fraction_is_met stake total QUORUM_NUMER QUORUM_DENOM.
Definition is_strong_quorum (stake total : Z) : bool :=
  fraction_is_met stake total STRONG_QUORUM_NUMER QUORUM_DENOM.

Definition first_slot_in_window (slot : Z) : Z := (slot / SLOTS_PER_WINDOW) * SLOTS_PER_WINDOW.
Definition last_slot_in_window (slot : Z) : Z :=
  u64_sub (u64_add (first_slot_in_window slot) SLOTS_PER_WINDOW) 1.
Definition is_start_of_window (slot : Z) : bool := slot mod SLOTS_PER_WINDOW =? 0.

(** ** The validator set of an epoch *)

Record ValidatorInfo := mkValidatorInfo {
  vi_id : Z;
  vi_stake : Z;
  vi_pubkey : list Z;
  vi_voting_pubkey : list Z;
}.

Record EpochInfo := mkEpochInfo {
  ei_validators : list ValidatorInfo;
  ei_total_stake : Z;
}.

(** The loop of [EpochInfo::new] over [validators.iter().enumerate()]. *)
Fixpoint EpochInfo_sum (i : nat) (total : Z) (validators : list ValidatorInfo) : Outcome Z :=
  match validators with
  | [] => mret total
  | v :: rest =>
      _ ← rust_assert (vi_id v =? Z.of_nat i);
      EpochInfo_sum (S i) (u64_saturating_add total (vi_stake v)) rest
  end.

Definition EpochInfo_new (validators : list ValidatorInfo) : Outcome EpochInfo :=
  _ ← rust_assert (negb (bool_decide (validators = [])));
  total ← EpochInfo_sum 0 0 validators;
  mret {| ei_validators := validators; ei_total_stake := total |}.

Definition EpochInfo_validator_cnt (ei : EpochInfo) : Z := Z.of_nat (length (ei_validators ei)).

(** [&self.validators[id as usize]]. *)
Definition EpochInfo_validator (ei : EpochInfo) (id : Z) : Outcome ValidatorInfo :=
  match ei_validators ei !! Z.to_nat id with
  | Some v => Done v
  | None => Panicked
  end.

Definition EpochInfo_is_weakest_quorum (ei : EpochInfo) (stake : Z) : bool :=
  is_weakest_quorum stake (ei_total_stake ei).
Definition EpochInfo_is_weak_quorum (ei : EpochInfo) (stake : Z) : bool :=
  is_weak_quorum stake (ei_total_stake ei).
Definition EpochInfo_is_quorum (ei : EpochInfo) (stake : Z) : bool :=
  is_quorum stake (ei_total_stake ei).
Definition EpochInfo_is_strong_quorum (ei : EpochInfo) (stake : Z) : bool :=
  is_strong_quorum stake (ei_total_stake ei).

(** ** Well-formed validator sets *)

Fixpoint stake_sum (vs : list ValidatorInfo) : Z :=
  match vs with
  | [] => 0
  | v :: rest => vi_stake v + stake_sum rest
  end.

(** Ids are positions, stakes are non-negative, the total fits in 64 bits and
    no more validators than a signer bitmask has room for. *)
Record epoch_wf (ei : EpochInfo) : Prop := {
  ewf_ids : ∀ i v, ei_validators ei !! i = Some v → vi_id v = Z.of_nat i;
  ewf_stakes : Forall (λ v, 0 <= vi_stake v) (ei_validators ei);
  ewf_total : ei_total_stake ei = stake_sum (ei_validators ei);
  ewf_fits : stake_sum (ei_validators ei) <= u64_max;
  ewf_count : (length (ei_validators ei) <= 2048)%nat;
}.

Lemma stake_sum_nonneg vs : Forall (λ v, 0 <= vi_stake v) vs → 0 <= stake_sum vs.
Proof. induction 1; cbn in *; lia. Qed.

Lemma stake_sum_app vs ws : stake_sum (vs ++ ws) = stake_sum vs + stake_sum ws.
Proof. induction vs as [|v vs IH]; cbn; [done|]. rewrite IH. lia. Qed.

#[export] Instance stake_sum_Permutation : Proper ((≡ₚ) ==> eq) stake_sum.
Proof. intros vs ws. induction 1; cbn; lia. Qed.

Lemma stake_sum_sublist vs ws :
  Forall (λ v, 0 <= vi_stake v) ws → sublist vs ws → stake_sum vs <= stake_sum ws.
Proof.
  intros H Hs. induction Hs as [|v vs ws Hs IH|v vs ws Hs IH]; cbn; [done| |];
    apply Forall_cons in H as [Hv H]; specialize (IH H); lia.
Qed.

Lemma EpochInfo_sum_spec i total vs :
  Forall (λ v, 0 <= vi_stake v) vs → total + stake_sum vs <= u64_max →
  (∀ j v, vs !! j = Some v → vi_id v = Z.of_nat (i + j)) →
  EpochInfo_sum i total vs = Done (total + stake_sum vs).
Proof.
  intros Hs. revert i total. induction Hs as [|v vs Hv Hs IH]; intros i total Hfit Hid; cbn in *.
  { f_equal. lia. }
  pose proof (stake_sum_nonneg _ Hs).
  rewrite (proj2 (Z.eqb_eq _ _)) by (rewrite (Hid 0%nat v eq_refl); lia). cbn.
  unfold u64_saturating_add. rewrite Z.min_l by lia. rewrite IH.
  - f_equal. lia.
  - lia.
  - intros j w Hw. rewrite (Hid (S j) w Hw). f_equal. lia.
Qed.

(** [EpochInfo::new] on an acceptable validator list builds a well-formed set. *)
Lemma EpochInfo_new_wf vs :
  vs ≠ [] → (∀ i v, vs !! i = Some v → vi_id v = Z.of_nat i) →
  Forall (λ v, 0 <= vi_stake v) vs → stake_sum vs <= u64_max → (length vs <= 2048)%nat →
  ∃ ei, EpochInfo_new vs = Done ei ∧ ei_validators ei = vs ∧ epoch_wf ei.
Proof.
  intros Hne Hid Hs Hfit Hlen. unfold EpochInfo_new. rewrite bool_decide_eq_false_2 by done.
  cbn. rewrite EpochInfo_sum_spec by done. cbn. eexists. split_and!; [done|done|].
  by split.
Qed.

Lemma fraction_is_met_iff stake total numer denom :
  fraction_is_met stake total numer denom = true ↔ total * numer <= stake * denom.
Proof. apply Z.leb_le. Qed.

(** ** Windows *)

Lemma window_bounds slot :
  first_slot_in_window slot <= slot < first_slot_in_window slot + 4.
Proof.
  unfold first_slot_in_window, SLOTS_PER_WINDOW.
  pose proof (Z.div_mod slot 4). pose proof (Z.mod_pos_bound slot 4). lia.
Qed.

Lemma last_slot_eq slot :
  is_u64 slot → last_slot_in_window slot = first_slot_in_window slot + 3.
Proof.
  intros [H0 H1]. pose proof (window_bounds slot) as Hb.
  unfold last_slot_in_window, u64_sub, u64_add, wrap64, SLOTS_PER_WINDOW.
  rewrite Zminus_mod_idemp_l.
  replace (first_slot_in_window slot + 4 - 1) with (first_slot_in_window slot + 3) by lia.
  apply Z.mod_small. unfold first_slot_in_window, SLOTS_PER_WINDOW, u64_max in *.
  change (2 ^ 64) with 18446744073709551616 in *.
  assert (slot / 4 <= 18446744073709551615 / 4) by (apply Z.div_le_mono; lia).
  change (18446744073709551615 / 4) with 4611686018427387903 in *.
  pose proof (Z.div_pos slot 4). lia.
Qed.

Lemma first_slot_is_start slot : is_start_of_window (first_slot_in_window slot) = true.
Proof.
  unfold is_start_of_window, first_slot_in_window, SLOTS_PER_WINDOW.
  by rewrite Z.mod_mul.
Qed.

Lemma is_start_of_window_iff slot :
  is_start_of_window slot = true ↔ first_slot_in_window slot = slot.
Proof.
  unfold is_start_of_window, first_slot_in_window, SLOTS_PER_WINDOW. rewrite Z.eqb_eq.
  pose proof (Z.div_mod slot 4). lia.
Qed.

(** ** Stake of a set of validators *)

Definition voters_stake (ei : EpochInfo) (S : gset Z) : Z :=
  stake_sum (filter (λ v, vi_id v ∈ S) (ei_validators ei)).

Section stake_filters.
Context (P Q : ValidatorInfo → Prop) {HP : ∀ v, Decision (P v)} {HQ : ∀ v, Decision (Q v)}.

Lemma stake_sum_filter_le vs :
  Forall (λ v, 0 <= vi_stake v) vs → stake_sum (filter P vs) <= stake_sum vs.
Proof.
  induction 1 as [|v vs Hv H IH]; [done|]. rewrite filter_cons. case_decide; cbn; lia.
Qed.

Lemma stake_sum_filter_nonneg vs :
  Forall (λ v, 0 <= vi_stake v) vs → 0 <= stake_sum (filter P vs).
Proof.
  induction 1 as [|v vs Hv H IH]; [done|]. rewrite filter_cons. case_decide; cbn; lia.
Qed.

(** Inclusion and exclusion. *)
Lemma stake_sum_overlap vs :
  Forall (λ v, 0 <= vi_stake v) vs →
  stake_sum (filter P vs) + stake_sum (filter Q vs)
  <= stake_sum vs + stake_sum (filter (λ v, P v ∧ Q v) vs).
Proof.
  induction 1 as [|v vs Hv H IH]; [done|]. rewrite !filter_cons.
  repeat case_decide; cbn; naive_solver lia.
Qed.

Lemma stake_sum_filter_mono vs :
  (∀ v, v ∈ vs → P v → Q v) → Forall (λ v, 0 <= vi_stake v) vs →
  stake_sum (filter P vs) <= stake_sum (filter Q vs).
Proof.
  intros Himp H. induction H as [|v vs Hv H IH]; [done|]. rewrite !filter_cons.
  specialize (IH ltac:(intros; apply Himp; [by right|done])).
  pose proof (Himp v ltac:(by left)). repeat case_decide; cbn; naive_solver lia.
Qed.
End stake_filters.

Lemma voters_stake_le ei S : epoch_wf ei → voters_stake ei S <= ei_total_stake ei.
Proof. intros [_ ? -> _ _]. by apply stake_sum_filter_le. Qed.

Lemma voters_stake_nonneg ei S : epoch_wf ei → 0 <= voters_stake ei S.
Proof. intros [_ ? _ _ _]. by apply stake_sum_filter_nonneg. Qed.

Lemma voters_stake_mono ei S T : epoch_wf ei → S ⊆ T → voters_stake ei S <= voters_stake ei T.
Proof. intros [_ ? _ _ _] HST. apply stake_sum_filter_mono; [set_solver|done]. Qed.

Lemma voters_stake_empty ei : voters_stake ei ∅ = 0.
Proof.
  unfold voters_stake. induction (ei_validators ei) as [|v vs IH]; [done|].
  rewrite filter_cons_False by set_solver. done.
Qed.

(** Filtering the numbered list [vs] by one more id adds that validator's stake. *)
Lemma stake_sum_add_id base vs (S : gset Z) i v :
  (∀ j w, vs !! j = Some w → vi_id w = Z.of_nat (base + j)) → vs !! i = Some v → vi_id v ∉ S →
  stake_sum (filter (λ w, vi_id w ∈ {[vi_id v]} ∪ S) vs)
  = vi_stake v + stake_sum (filter (λ w, vi_id w ∈ S) vs).
Proof.
  revert base i. induction vs as [|w vs IH]; intros base i Hid Hi HS; [done|].
  assert (Hid' : ∀ j w', vs !! j = Some w' → vi_id w' = Z.of_nat (Datatypes.S base + j)).
  { intros j w' Hj. rewrite (Hid (Datatypes.S j) w' Hj). f_equal. lia. }
  rewrite !filter_cons. destruct i as [|i]; cbn in Hi.
  - injection Hi as ->. rewrite decide_True by set_solver. rewrite (decide_False (P := vi_id v ∈ S)) by done.
    cbn. f_equal. f_equal. apply list_filter_ext_in. intros w Hw.
    apply list_elem_of_lookup in Hw as [j Hj]. pose proof (Hid' j w Hj).
    pose proof (Hid 0%nat v eq_refl). assert (vi_id w ≠ vi_id v) by lia. set_solver.
  - specialize (IH (Datatypes.S base) i Hid' Hi HS).
    pose proof (Hid 0%nat w eq_refl). pose proof (Hid' i v Hi).
    assert (vi_id w ≠ vi_id v) by lia.
    repeat case_decide; cbn; rewrite ?IH; try lia; set_solver.
Qed.

Lemma voters_stake_add ei S i v :
  epoch_wf ei → ei_validators ei !! i = Some v → Z.of_nat i ∉ S →
  voters_stake ei ({[Z.of_nat i]} ∪ S) = vi_stake v + voters_stake ei S.
Proof.
  intros [Hid _ _ _ _] Hi HS. pose proof (Hid i v Hi) as Hv. rewrite <- Hv in *.
  by apply (stake_sum_add_id 0 _ _ i).
Qed.

Lemma voters_stake_union ei S T :
  S ## T → voters_stake ei (S ∪ T) = voters_stake ei S + voters_stake ei T.
Proof.
  intros HST. unfold voters_stake. induction (ei_validators ei) as [|v vs IH]; [done|].
  rewrite !filter_cons. repeat case_decide; cbn; set_solver by lia.
Qed.

(** Adding the stakes of disjoint sets of validators does not wrap around. *)
Lemma add_disjoint_stake ei S T :
  epoch_wf ei → S ## T →
  u64_add (voters_stake ei S) (voters_stake ei T) = voters_stake ei (S ∪ T).
Proof.
  intros Hwf HST. rewrite voters_stake_union by done. apply wrap64_small.
  pose proof (voters_stake_nonneg ei S Hwf). pose proof (voters_stake_nonneg ei T Hwf).
  pose proof (voters_stake_le ei (S ∪ T) Hwf) as Hle. rewrite voters_stake_union in Hle by done.
  pose proof (ewf_fits ei Hwf). pose proof (ewf_total ei Hwf). unfold is_u64. lia.
Qed.
