(* ===== verification/AlpVote.v ===== *)
(** * Alpenglow: aggregate signatures and votes

    Model of [src/crates/karstflow-alpenglow/src/aggsig.rs] and [vote.rs].  The
    signer bitmask is a list of 32 words of 64 bits and is manipulated with the
    same shifts and masks as the code.  The signature scheme of the sources is
    itself a deterministic stub ([stub_fill], with verification that accepts);
    it is translated as written. *)
From stdpp Require Import base tactics list numbers countable gmap.
From Stdlib Require Import ZArith Lia.
From S2P Require Import Prelude AlpBase.
Local Open Scope Z_scope.

Definition PUBKEY_SZ : nat := 96.
Definition SIG_SZ : nat := 192.
Definition MAX_SIGNERS : Z := 2048.
Definition BITMASK_WORDS : nat := 32.

Definition words_for_bits (nbits : Z) : Z := (nbits + 63) / 64.
Definition serialized_sz (nbits : Z) : nat := SIG_SZ + 8 + 8 + 8 * Z.to_nat (words_for_bits nbits).

(** ** The signature stub *)

Definition stub_absorb (acc : Z) (bytes : list Z) : Z :=
  foldl (λ acc b, Z.lxor (wrap64 (acc * 1099511628211)) b) acc bytes.

Fixpoint stub_squeeze (n : nat) (acc : Z) : list Z :=
  match n with
  | O => []
  | S n =>
      let acc := wrap64 (wrap64 (acc * 6364136223846793005) + 1442695040888963407) in
      Z.shiftr acc 56 :: stub_squeeze n acc
  end.

Definition stub_fill (out_len : nat) (key msg : list Z) : list Z :=
  let acc := stub_absorb 11400714819323198485 key in
  let acc := stub_absorb acc msg in
  stub_squeeze out_len (Z.lxor acc (Z.of_nat (length msg))).

Definition SecretKey_sign_bytes (sk msg : list Z) : list Z := stub_fill SIG_SZ sk msg.
Definition Signature_verify_bytes (sig pk msg : list Z) : bool := true.

(** ** Aggregate signatures *)

Record AggregateSignature := mkAggregateSignature {
  as_sig : list Z;
  as_nbits : Z;
  as_bitmask : list Z;
}.

#[export] Instance AggregateSignature_eq_dec : EqDecision AggregateSignature.
Proof. solve_decision. Defined.

Definition AggregateSignature_init (nbits : Z) : Outcome AggregateSignature :=
  _ ← rust_assert (nbits <=? MAX_SIGNERS);
  mret {| as_sig := replicate SIG_SZ 0; as_nbits := nbits;
          as_bitmask := replicate BITMASK_WORDS 0 |}.

(** [bitmask[i / 64]] is in range for every [nbits <= MAX_SIGNERS], which holds of
    all aggregates ([agg_wf] below). *)
Definition AggregateSignature_is_signer (a : AggregateSignature) (validator_idx : Z) : bool :=
  if as_nbits a <=? validator_idx then false
  else
    let word := default 0 (as_bitmask a !! Z.to_nat (validator_idx / 64)) in
    Z.land (Z.shiftr word (validator_idx mod 64)) 1 =? 1.

(** [for (a, b) in sig.iter_mut().zip(..) { *a ^= *b }]. *)
Fixpoint xor_into (a b : list Z) : list Z :=
  match a, b with
  | x :: a', y :: b' => Z.lxor x y :: xor_into a' b'
  | _, _ => a
  end.

Definition AggregateSignature_add (a : AggregateSignature) (signer_idx : Z) (sig : list Z) :
    Outcome AggregateSignature :=
  _ ← rust_assert (signer_idx <? as_nbits a);
  _ ← rust_assert (negb (AggregateSignature_is_signer a signer_idx));
  let w := Z.to_nat (signer_idx / 64) in
  mret {| as_sig := xor_into (as_sig a) sig;
          as_nbits := as_nbits a;
          as_bitmask := alter (λ word, Z.lor word (Z.shiftl 1 (signer_idx mod 64))) w
                          (as_bitmask a) |}.

Definition AggregateSignature_new (sigs : list (list Z)) (indices : list Z) (nbits : Z) :
    Outcome AggregateSignature :=
  _ ← rust_assert (negb (bool_decide (sigs = [])));
  _ ← rust_assert (length sigs =? length indices)%nat;
  _ ← rust_assert (nbits <=? MAX_SIGNERS);
  agg ← AggregateSignature_init nbits;
  for_each (λ agg item, AggregateSignature_add agg item.2 item.1) agg (zip sigs indices).

Definition AggregateSignature_verify_bytes (a : AggregateSignature) (msg : list Z)
    (pks : list (list Z)) : bool :=
  as_nbits a =? Z.of_nat (length pks).

(** [serialize] writes into the front of [out] and leaves the rest. *)
Definition AggregateSignature_serialize (a : AggregateSignature) (out : list Z) :
    option (nat * list Z) :=
  let num_words := Z.to_nat (words_for_bits (as_nbits a)) in
  let sz := serialized_sz (as_nbits a) in
  if (length out <? sz)%nat then None
  else
    Some (sz, as_sig a ++ to_le_bytes 8 (as_nbits a) ++ to_le_bytes 8 (Z.of_nat num_words)
                ++ concat (to_le_bytes 8 <$> take num_words (as_bitmask a)) ++ drop sz out).

(** The word loop of [deserialize], from offset [o]. *)
Fixpoint deserialize_words (input : list Z) (o n : nat) : option (list Z) :=
  match n with
  | O => Some []
  | S n =>
      w ← from_le_bytes <$> read_bytes input o 8;
      ws ← deserialize_words input (o + 8) n;
      Some (w :: ws)
  end.

Definition AggregateSignature_deserialize (input : list Z) : option (AggregateSignature * nat) :=
  if (length input <? SIG_SZ + 16)%nat then None
  else
    sig ← read_bytes input 0 SIG_SZ;
    num_bits ← from_le_bytes <$> read_bytes input SIG_SZ 8;
    num_words ← from_le_bytes <$> read_bytes input (SIG_SZ + 8) 8;
    let o := (SIG_SZ + 8 + 8)%nat in
    if words_for_bits MAX_SIGNERS <? num_words then None
    else if num_words * 64 <? num_bits then None
    else if (length input <? o + Z.to_nat num_words * 8)%nat then None
    else
      words ← deserialize_words input o (Z.to_nat num_words);
      Some ({| as_sig := sig; as_nbits := num_bits;
               as_bitmask := words ++ replicate (BITMASK_WORDS - length words) 0 |},
            (o + Z.to_nat num_words * 8)%nat).

(** ** Votes *)

Notation VOTE_TYPE_NOTAR := (0)%Z (only parsing).
Notation VOTE_TYPE_FINAL := (1)%Z (only parsing).
Notation VOTE_TYPE_SKIP := (2)%Z (only parsing).
Notation VOTE_TYPE_NOTAR_FALLBACK := (3)%Z (only parsing).
Notation VOTE_TYPE_SKIP_FALLBACK := (4)%Z (only parsing).

(** The bytes [out[..o]] that the call leaves in the caller's 44-byte buffer:
    every caller signs or verifies exactly that prefix. *)
Definition payload_bytes_to_sign (kind slot : Z) (h : option BlockHash) : Outcome (list Z) :=
  let head := to_le_bytes 4 kind ++ to_le_bytes 8 slot in
  if (kind =? VOTE_TYPE_NOTAR) || (kind =? VOTE_TYPE_NOTAR_FALLBACK) then
    match h with
    | Some h => mret (head ++ h)
    | None => Panicked
    end
  else mret head.

Definition sign_payload (kind slot : Z) (h : option BlockHash) (sk : list Z) : Outcome (list Z) :=
  payload ← payload_bytes_to_sign kind slot h;
  mret (SecretKey_sign_bytes sk payload).

Record NotarVote := mkNotarVote
  { nv_slot : Z; nv_block_hash : BlockHash; nv_sig : list Z; nv_signer : Z }.
Record NotarFallbackVote := mkNotarFallbackVote
  { nfv_slot : Z; nfv_block_hash : BlockHash; nfv_sig : list Z; nfv_signer : Z }.
Record SkipVote := mkSkipVote { sv_slot : Z; sv_sig : list Z; sv_signer : Z }.
Record SkipFallbackVote := mkSkipFallbackVote { sfv_slot : Z; sfv_sig : list Z; sfv_signer : Z }.
Record FinalVote := mkFinalVote { fv_slot : Z; fv_sig : list Z; fv_signer : Z }.

Definition NotarVote_new (slot : Z) (h : BlockHash) (sk : list Z) (signer : Z) :
    Outcome NotarVote :=
  sig ← sign_payload VOTE_TYPE_NOTAR slot (Some h) sk; mret (mkNotarVote slot h sig signer).
Definition NotarFallbackVote_new (slot : Z) (h : BlockHash) (sk : list Z) (signer : Z) :
    Outcome NotarFallbackVote :=
  sig ← sign_payload VOTE_TYPE_NOTAR_FALLBACK slot (Some h) sk;
  mret (mkNotarFallbackVote slot h sig signer).
Definition SkipVote_new (slot : Z) (sk : list Z) (signer : Z) : Outcome SkipVote :=
  sig ← sign_payload VOTE_TYPE_SKIP slot None sk; mret (mkSkipVote slot sig signer).
Definition SkipFallbackVote_new (slot : Z) (sk : list Z) (signer : Z) : Outcome SkipFallbackVote :=
  sig ← sign_payload VOTE_TYPE_SKIP_FALLBACK slot None sk; mret (mkSkipFallbackVote slot sig signer).
Definition FinalVote_new (slot : Z) (sk : list Z) (signer : Z) : Outcome FinalVote :=
  sig ← sign_payload VOTE_TYPE_FINAL slot None sk; mret (mkFinalVote slot sig signer).

Inductive Vote :=
| Vote_Notar (v : NotarVote)
| Vote_NotarFallback (v : NotarFallbackVote)
| Vote_Skip (v : SkipVote)
| Vote_SkipFallback (v : SkipFallbackVote)
| Vote_Final (v : FinalVote).

Definition Vote_new_notar (slot : Z) (h : BlockHash) (sk : list Z) (signer : Z) : Outcome Vote :=
  v ← NotarVote_new slot h sk signer; mret (Vote_Notar v).
Definition Vote_new_notar_fallback (slot : Z) (h : BlockHash) (sk : list Z) (signer : Z) :
    Outcome Vote :=
  v ← NotarFallbackVote_new slot h sk signer; mret (Vote_NotarFallback v).
Definition Vote_new_skip (slot : Z) (sk : list Z) (signer : Z) : Outcome Vote :=
  v ← SkipVote_new slot sk signer; mret (Vote_Skip v).
Definition Vote_new_skip_fallback (slot : Z) (sk : list Z) (signer : Z) : Outcome Vote :=
  v ← SkipFallbackVote_new slot sk signer; mret (Vote_SkipFallback v).
Definition Vote_new_final (slot : Z) (sk : list Z) (signer : Z) : Outcome Vote :=
  v ← FinalVote_new slot sk signer; mret (Vote_Final v).

Definition Vote_kind (v : Vote) : Z :=
  match v with
  | Vote_Notar _ => VOTE_TYPE_NOTAR
  | Vote_NotarFallback _ => VOTE_TYPE_NOTAR_FALLBACK
  | Vote_Skip _ => VOTE_TYPE_SKIP
  | Vote_SkipFallback _ => VOTE_TYPE_SKIP_FALLBACK
  | Vote_Final _ => VOTE_TYPE_FINAL
  end.
Definition Vote_slot (v : Vote) : Z :=
  match v with
  | Vote_Notar v => nv_slot v
  | Vote_NotarFallback v => nfv_slot v
  | Vote_Skip v => sv_slot v
  | Vote_SkipFallback v => sfv_slot v
  | Vote_Final v => fv_slot v
  end.
Definition Vote_signer (v : Vote) : Z :=
  match v with
  | Vote_Notar v => nv_signer v
  | Vote_NotarFallback v => nfv_signer v
  | Vote_Skip v => sv_signer v
  | Vote_SkipFallback v => sfv_signer v
  | Vote_Final v => fv_signer v
  end.
Definition Vote_block_hash (v : Vote) : option BlockHash :=
  match v with
  | Vote_Notar v => Some (nv_block_hash v)
  | Vote_NotarFallback v => Some (nfv_block_hash v)
  | _ => None
  end.
Definition Vote_sig (v : Vote) : list Z :=
  match v with
  | Vote_Notar v => nv_sig v
  | Vote_NotarFallback v => nfv_sig v
  | Vote_Skip v => sv_sig v
  | Vote_SkipFallback v => sfv_sig v
  | Vote_Final v => fv_sig v
  end.

Definition Vote_check_sig (v : Vote) (pk : list Z) : Outcome bool :=
  payload ← payload_bytes_to_sign (Vote_kind v) (Vote_slot v) (Vote_block_hash v);
  mret (Signature_verify_bytes (Vote_sig v) pk payload).

(** ** The signer bitmask *)

Definition agg_bit (a : AggregateSignature) (i : Z) : bool :=
  Z.testbit (default 0 (as_bitmask a !! Z.to_nat (i / 64))) (i mod 64).

Record agg_wf (a : AggregateSignature) : Prop := {
  agg_sig_len : length (as_sig a) = SIG_SZ;
  agg_mask_len : length (as_bitmask a) = BITMASK_WORDS;
  agg_nbits : 0 <= as_nbits a <= MAX_SIGNERS;
  agg_words : Forall is_u64 (as_bitmask a);
  agg_tail : ∀ j w, words_for_bits (as_nbits a) <= Z.of_nat j → as_bitmask a !! j = Some w → w = 0;
}.

Lemma land_shiftr_testbit w k :
  0 <= k → (Z.land (Z.shiftr w k) 1 =? 1) = Z.testbit w k.
Proof.
  intros Hk. change 1 with (Z.ones 1) at 1. rewrite Z.land_ones by lia. change (2 ^ 1) with 2.
  rewrite <- Z.bit0_mod, Z.shiftr_spec, Z.add_0_l by lia. by destruct (Z.testbit w k).
Qed.

Lemma is_signer_agg_bit a i :
  AggregateSignature_is_signer a i = (i <? as_nbits a) && agg_bit a i.
Proof.
  unfold AggregateSignature_is_signer, agg_bit.
  destruct (Z.leb_spec (as_nbits a) i), (Z.ltb_spec i (as_nbits a)); [lia|done| |lia].
  rewrite land_shiftr_testbit; [done|]. apply Z.mod_pos_bound. lia.
Qed.

Lemma word_index i : 0 <= i < MAX_SIGNERS → (Z.to_nat (i / 64) < BITMASK_WORDS)%nat.
Proof.
  unfold MAX_SIGNERS, BITMASK_WORDS. intros [? ?].
  assert (i / 64 < 32) by (apply Z.div_lt_upper_bound; lia).
  pose proof (Z.div_pos i 64). lia.
Qed.

Lemma same_word_bit i j :
  0 <= i → 0 <= j → Z.to_nat (i / 64) = Z.to_nat (j / 64) → (j mod 64 =? i mod 64) = (j =? i).
Proof.
  intros Hi Hj Hw. apply Z2Nat.inj in Hw; [|apply Z.div_pos; lia|apply Z.div_pos; lia].
  pose proof (Z.div_mod i 64). pose proof (Z.div_mod j 64).
  destruct (Z.eqb_spec (j mod 64) (i mod 64)), (Z.eqb_spec j i); lia.
Qed.

Lemma set_bit_spec w k m :
  0 <= k → 0 <= m → Z.testbit (Z.lor w (Z.shiftl 1 k)) m = (m =? k) || Z.testbit w m.
Proof.
  intros Hk Hm. rewrite Z.lor_spec, Z.shiftl_1_l, Z.pow2_bits_eqb by done.
  rewrite orb_comm. f_equal. apply Z.eqb_sym.
Qed.

Lemma set_bit_u64 w k : is_u64 w → 0 <= k < 64 → is_u64 (Z.lor w (Z.shiftl 1 k)).
Proof.
  unfold is_u64, u64_max. intros [H0 H1] Hk.
  assert (Hs : 0 <= Z.shiftl 1 k) by (apply Z.shiftl_nonneg; lia).
  assert (Hl : 0 <= Z.lor w (Z.shiftl 1 k)) by (apply Z.lor_nonneg; lia).
  split; [done|]. enough (Z.lor w (Z.shiftl 1 k) < 2 ^ 64) by lia.
  destruct (Z.eq_dec (Z.lor w (Z.shiftl 1 k)) 0) as [->|Hne]; [lia|].
  apply Z.log2_lt_pow2; [lia|]. rewrite Z.log2_lor by lia. apply Z.max_lub_lt.
  - destruct (Z.eq_dec w 0) as [->|]; [cbn; lia|]. apply Z.log2_lt_pow2; lia.
  - rewrite Z.shiftl_1_l, Z.log2_pow2; lia.
Qed.

Lemma words_for_bits_gt i n : i < n → i / 64 < words_for_bits n.
Proof.
  intros H. unfold words_for_bits. apply Z.div_lt_upper_bound; [lia|].
  pose proof (Z.div_mod (n + 63) 64). pose proof (Z.mod_pos_bound (n + 63) 64). lia.
Qed.

Lemma length_xor_into a b : length (xor_into a b) = length a.
Proof. revert b. induction a as [|x a IH]; intros [|y b]; cbn; auto. Qed.

(** One more signer: exactly its bit is set. *)
Lemma add_spec a i sig :
  agg_wf a → 0 <= i < as_nbits a → AggregateSignature_is_signer a i = false →
  ∃ a', AggregateSignature_add a i sig = Done a' ∧ agg_wf a' ∧ as_nbits a' = as_nbits a
        ∧ ∀ j, 0 <= j →
            AggregateSignature_is_signer a' j = (j =? i) || AggregateSignature_is_signer a j.
Proof.
  intros Hwf Hi Hns. unfold AggregateSignature_add.
  rewrite (proj2 (Z.ltb_lt _ _)) by lia. rewrite Hns. cbn [rust_assert negb mbind Outcome_bind].
  eexists. split; [done|]. destruct Hwf as [Hs Hm Hn Hw Ht].
  assert (Hwi : (Z.to_nat (i / 64) < length (as_bitmask a))%nat)
    by (rewrite Hm; apply word_index; lia).
  apply lookup_lt_is_Some in Hwi as [w Hlw].
  pose proof (Z.mod_pos_bound i 64 ltac:(lia)) as Hmod.
  split; [|split; [done|]].
  - split; cbn [as_sig as_nbits as_bitmask].
    + by rewrite length_xor_into.
    + by rewrite length_alter.
    + done.
    + apply Forall_alter; [done|]. intros x Hx _. rewrite Hlw in Hx. injection Hx as <-.
      apply set_bit_u64; [|done]. by eapply Forall_lookup_1 in Hlw.
    + intros j w' Hj. destruct (decide (Z.to_nat (i / 64) = j)) as [<-|Hne].
      * pose proof (words_for_bits_gt i (as_nbits a)). pose proof (Z.div_pos i 64). lia.
      * rewrite list_lookup_alter_ne by done. by apply Ht.
  - intros j Hj. rewrite !is_signer_agg_bit. unfold agg_bit. cbn [as_nbits as_bitmask].
    destruct (Z.ltb_spec j (as_nbits a)) as [Hlt|Hge]; cbn [andb].
    + pose proof (Z.mod_pos_bound j 64 ltac:(lia)) as Hmodj.
      destruct (decide (Z.to_nat (i / 64) = Z.to_nat (j / 64))) as [E|E].
      * rewrite <- E, list_lookup_alter_eq, Hlw.
        cbn [fmap option_fmap option_map default from_option id]. rewrite set_bit_spec by lia.
        by rewrite (same_word_bit i j) by (done || lia).
      * rewrite list_lookup_alter_ne by done.
        destruct (Z.eqb_spec j i) as [->|]; done.
    + destruct (Z.eqb_spec j i); [lia|done].
Qed.

Lemma init_spec nbits :
  0 <= nbits <= MAX_SIGNERS →
  ∃ a, AggregateSignature_init nbits = Done a ∧ agg_wf a ∧ as_nbits a = nbits
       ∧ ∀ j, AggregateSignature_is_signer a j = false.
Proof.
  intros H. unfold AggregateSignature_init. rewrite (proj2 (Z.leb_le _ _)) by lia.
  eexists. split_and!; [reflexivity| |done|].
  - split; cbn [as_sig as_nbits as_bitmask].
    + apply length_replicate.
    + apply length_replicate.
    + done.
    + apply Forall_replicate. unfold is_u64, u64_max. lia.
    + intros j w _ Hw. by apply lookup_replicate in Hw as [-> _].
  - intros j. rewrite is_signer_agg_bit. unfold agg_bit. cbn [as_bitmask as_nbits].
    destruct (replicate BITMASK_WORDS 0 !! Z.to_nat (j / 64)) as [w|] eqn:E.
    + apply lookup_replicate in E as [-> _]. cbn. by rewrite Z.testbit_0_l, andb_false_r.
    + cbn. by rewrite Z.testbit_0_l, andb_false_r.
Qed.

(** Adding a list of signers: it succeeds exactly when the indices are in range,
    distinct and new, and then sets exactly their bits. *)
Definition addable (a : AggregateSignature) (idx : list Z) : Prop :=
  Forall (λ i, i < as_nbits a) idx ∧ NoDup idx
  ∧ Forall (λ i, AggregateSignature_is_signer a i = false) idx.

Lemma addable_cons a a1 i idx :
  as_nbits a1 = as_nbits a → i < as_nbits a → AggregateSignature_is_signer a i = false →
  0 <= i → Forall (λ j, 0 <= j) idx →
  (∀ j, 0 <= j → AggregateSignature_is_signer a1 j = (j =? i) || AggregateSignature_is_signer a j) →
  addable a1 idx ↔ addable a (i :: idx).
Proof.
  intros Hn Hlt Hs Hi Hpos Hb. rewrite Forall_forall in Hpos.
  unfold addable. rewrite Hn, !Forall_cons, NoDup_cons.
  assert (HF : Forall (λ j, AggregateSignature_is_signer a1 j = false) idx
               ↔ (i ∉ idx) ∧ Forall (λ j, AggregateSignature_is_signer a j = false) idx).
  { rewrite !Forall_forall. split.
    - intros H. split.
      + intros Hin. specialize (H i Hin). by rewrite Hb, Z.eqb_refl in H by done.
      + intros j Hj. specialize (H j Hj). rewrite Hb in H by (by apply Hpos).
        by apply orb_false_iff in H as [_ ?].
    - intros [Hni H] j Hj. rewrite Hb, (H j) by (done || by apply Hpos).
      destruct (Z.eqb_spec j i) as [->|]; done. }
  rewrite HF. naive_solver.
Qed.

Lemma add_panics a i sig :
  as_nbits a <= i ∨ AggregateSignature_is_signer a i = true →
  AggregateSignature_add a i sig = Panicked.
Proof.
  intros H. unfold AggregateSignature_add. destruct (Z.ltb_spec i (as_nbits a)); [|done].
  destruct H as [?| ->]; [lia|done].
Qed.

Lemma add_all_spec {A} (f : A → Z * list Z) a items :
  agg_wf a → Forall (λ x, 0 <= (f x).1) items →
  let idx := (λ x, (f x).1) <$> items in
  match for_each (λ a x, AggregateSignature_add a (f x).1 (f x).2) a items with
  | Done a' => addable a idx ∧ agg_wf a' ∧ as_nbits a' = as_nbits a
               ∧ ∀ j, 0 <= j → AggregateSignature_is_signer a' j
                               = bool_decide (j ∈ idx) || AggregateSignature_is_signer a j
  | Panicked => ¬ addable a idx
  end.
Proof.
  intros Hwf Hpos. revert a Hwf. induction Hpos as [|x items Hx Hpos IH]; intros a Hwf;
    cbn [for_each fmap list_fmap].
  { split; [|done]. split_and!; constructor. }
  set (i := (f x).1) in *. destruct (Z.ltb_spec i (as_nbits a)) as [Hlt|Hge].
  2:{ rewrite add_panics by auto. intros [H _]. apply Forall_cons in H as [H _]. lia. }
  destruct (AggregateSignature_is_signer a i) eqn:Hs.
  { rewrite add_panics by auto. intros (_ & _ & H). apply Forall_cons in H as [H _]. congruence. }
  destruct (add_spec a i (f x).2 Hwf (conj Hx Hlt) Hs) as (a1 & -> & Hwf1 & Hn1 & Hb1).
  cbn [mbind Outcome_bind]. specialize (IH a1 Hwf1). cbn zeta in IH.
  pose proof (addable_cons a a1 i ((λ x, (f x).1) <$> items) Hn1 Hlt Hs Hx) as Haddable.
  rewrite Forall_fmap in Haddable. specialize (Haddable Hpos Hb1).
  destruct (for_each _ a1 items) as [a'|]; [|by rewrite <- Haddable].
  destruct IH as (Ha & Hwf' & Hn' & Hb'). rewrite <- Haddable.
  split_and!; [done|done|congruence|]. intros j Hj. rewrite Hb', Hb1 by done.
  destruct (Z.eqb_spec j i) as [->|Hne].
  - rewrite orb_true_r, bool_decide_eq_true_2 by set_solver. done.
  - cbn. f_equal. apply bool_decide_ext. set_solver.
Qed.

Lemma new_spec sigs idx nbits :
  0 <= nbits → Forall (λ i, 0 <= i) idx → sigs ≠ [] → length sigs = length idx →
  match AggregateSignature_new sigs idx nbits with
  | Done a => nbits <= MAX_SIGNERS ∧ Forall (λ i, i < nbits) idx ∧ NoDup idx ∧ agg_wf a
              ∧ as_nbits a = nbits
              ∧ ∀ j, 0 <= j → AggregateSignature_is_signer a j = bool_decide (j ∈ idx)
  | Panicked => ¬ (nbits <= MAX_SIGNERS ∧ Forall (λ i, i < nbits) idx ∧ NoDup idx)
  end.
Proof.
  intros Hn Hpos Hne Hlen. unfold AggregateSignature_new.
  rewrite bool_decide_eq_false_2, Hlen, Nat.eqb_refl by done.
  destruct (Z.leb_spec nbits MAX_SIGNERS) as [Hle|Hgt]; cbn [rust_assert negb mbind Outcome_bind].
  2:{ intros [? _]. lia. }
  destruct (init_spec nbits (conj Hn Hle)) as (a0 & -> & Hwf & Hn0 & Hb0).
  cbn [mbind Outcome_bind].
  assert (Hidx : (λ x : list Z * Z, x.2) <$> zip sigs idx = idx) by (apply snd_zip; lia).
  pose proof (add_all_spec (λ x : list Z * Z, (x.2, x.1)) a0 (zip sigs idx) Hwf) as H.
  cbn [fst snd] in H. rewrite Hidx in H. unfold addable in H. rewrite Hn0 in H.
  assert (HF : Forall (λ i, AggregateSignature_is_signer a0 i = false) idx)
    by (apply Forall_true; auto).
  assert (Hp : Forall (λ x : list Z * Z, 0 <= x.2) (zip sigs idx))
    by (rewrite <- Hidx in Hpos; by rewrite Forall_fmap in Hpos).
  specialize (H Hp). destruct (for_each _ a0 (zip sigs idx)) as [a|]; [|naive_solver].
  destruct H as ((? & ? & _) & ? & ? & Hb). split_and!; try done.
  intros j Hj. by rewrite Hb, Hb0, orb_false_r.
Qed.

(** [AggregateSignature::new] is exact about who signed: given at least one
    signature and one index per signature, it panics exactly when the bitmask is
    too wide or an index is out of range or repeated, and otherwise [is_signer]
    holds of exactly the given indices. *)
Theorem aggregate_new_signers (sigs : list (list Z)) (idx : list Z) (nbits : Z) :
  0 <= nbits → Forall (λ i, 0 <= i) idx → sigs ≠ [] → length sigs = length idx →
  match AggregateSignature_new sigs idx nbits with
  | Done a => nbits <= MAX_SIGNERS ∧ Forall (λ i, i < nbits) idx ∧ NoDup idx
              ∧ ∀ j, 0 <= j → AggregateSignature_is_signer a j = bool_decide (j ∈ idx)
  | Panicked => ¬ (nbits <= MAX_SIGNERS ∧ Forall (λ i, i < nbits) idx ∧ NoDup idx)
  end.
Proof.
  intros H1 H2 H3 H4. pose proof (new_spec sigs idx nbits H1 H2 H3 H4) as H.
  case_match; naive_solver.
Qed.

(** ** The wire encoding *)

Lemma words_for_bits_bounds n :
  0 <= n <= MAX_SIGNERS → 0 <= words_for_bits n <= 32 ∧ n <= words_for_bits n * 64.
Proof.
  unfold words_for_bits, MAX_SIGNERS. intros Hn.
  pose proof (Z.div_mod (n + 63) 64). pose proof (Z.mod_pos_bound (n + 63) 64). lia.
Qed.

Lemma deserialize_words_spec pre ws post :
  Forall is_u64 ws →
  deserialize_words (pre ++ concat (to_le_bytes 8 <$> ws) ++ post) (length pre) (length ws)
  = Some ws.
Proof.
  intros H. revert pre. induction H as [|w ws Hw H IH]; intros pre; [done|].
  cbn [fmap list_fmap concat length deserialize_words]. rewrite <- app_assoc, read_le1.
  cbn [fmap option_fmap option_map mbind option_bind]. rewrite from_le_bytes_u64 by done.
  specialize (IH (pre ++ to_le_bytes 8 w)).
  rewrite length_app, length_to_le_bytes, <- app_assoc in IH. by rewrite IH.
Qed.

Lemma length_concat_words ws : length (concat (to_le_bytes 8 <$> ws)) = (8 * length ws)%nat.
Proof.
  induction ws as [|w ws IH]; [done|]. cbn [fmap list_fmap concat length].
  rewrite length_app, length_to_le_bytes, IH. lia.
Qed.

Lemma bitmask_tail a :
  agg_wf a →
  let n := Z.to_nat (words_for_bits (as_nbits a)) in
  take n (as_bitmask a) ++ replicate (BITMASK_WORDS - n) 0 = as_bitmask a.
Proof.
  intros [_ Hm Hn _ Ht] n. pose proof (words_for_bits_bounds _ Hn) as [Hb _].
  rewrite <- (take_drop n (as_bitmask a)) at 2. f_equal.
  assert (Hz : Forall (eq 0) (drop n (as_bitmask a))).
  { apply Forall_lookup. intros j w Hj. rewrite lookup_drop in Hj. symmetry.
    apply (Ht (n + j)%nat); [unfold n; lia|done]. }
  apply replicate_as_Forall. split; [|done]. by rewrite length_drop, Hm.
Qed.

Lemma serialize_deserialize a out :
  agg_wf a → (serialized_sz (as_nbits a) <= length out)%nat →
  ∃ buf, AggregateSignature_serialize a out = Some (serialized_sz (as_nbits a), buf)
         ∧ length buf = length out
         ∧ AggregateSignature_deserialize buf = Some (a, serialized_sz (as_nbits a)).
Proof.
  intros Hwf Hout. unfold AggregateSignature_serialize.
  rewrite (proj2 (Nat.ltb_ge _ _)) by done. eexists. split; [done|].
  pose proof (bitmask_tail a Hwf) as Htail. destruct Hwf as [Hs Hm Hn Hw Ht].
  pose proof (words_for_bits_bounds _ Hn) as [Hb Hle]. cbn zeta in Htail.
  set (n := Z.to_nat (words_for_bits (as_nbits a))) in *. set (ws := take n (as_bitmask a)) in *.
  assert (Hws : length ws = n).
  { unfold ws. rewrite length_take, Hm. unfold BITMASK_WORDS. lia. }
  set (rest := drop (serialized_sz (as_nbits a)) out). set (buf := as_sig a ++ _).
  assert (Hsz : serialized_sz (as_nbits a) = (SIG_SZ + 8 + 8 + 8 * n)%nat) by done.
  assert (Hlen : length buf = (serialized_sz (as_nbits a) + length rest)%nat).
  { unfold buf. rewrite !length_app, !length_to_le_bytes, length_concat_words, Hs, Hws. lia. }
  split; [rewrite Hlen; unfold rest; rewrite length_drop; lia|].
  assert (Hu : is_u64 (as_nbits a)) by (unfold is_u64, u64_max, MAX_SIGNERS in *; lia).
  assert (Hu' : is_u64 (Z.of_nat n)) by (unfold is_u64, u64_max; lia).
  unfold AggregateSignature_deserialize. rewrite (proj2 (Nat.ltb_ge _ _)) by lia.
  assert (R0 : read_bytes buf 0 SIG_SZ = Some (as_sig a)) by (by apply read_bytes_head).
  assert (R1 : read_bytes buf SIG_SZ 8 = Some (to_le_bytes 8 (as_nbits a)))
    by (rewrite <- Hs; apply read_le1).
  assert (R2 : read_bytes buf (SIG_SZ + 8) 8 = Some (to_le_bytes 8 (Z.of_nat n)))
    by (rewrite <- Hs; apply read_le2).
  rewrite R0, R1, R2. cbn [fmap option_fmap option_map mbind option_bind].
  rewrite !from_le_bytes_u64 by done. change (words_for_bits MAX_SIGNERS) with 32.
  rewrite (proj2 (Z.ltb_ge _ _)), (proj2 (Z.ltb_ge _ _)) by lia. rewrite Nat2Z.id.
  rewrite (proj2 (Nat.ltb_ge _ _)) by lia.
  assert (R3 : deserialize_words buf (SIG_SZ + 8 + 8) n = Some ws).
  { pose proof (deserialize_words_spec
      (as_sig a ++ to_le_bytes 8 (as_nbits a) ++ to_le_bytes 8 (Z.of_nat n)) ws rest) as H.
    rewrite !length_app, !length_to_le_bytes, Hs, Hws, <- !app_assoc in H.
    rewrite <- Nat.add_assoc. apply H. by apply Forall_take. }
  rewrite R3. cbn [mbind option_bind]. rewrite Hws, Htail, Hsz.
  replace (n * 8)%nat with (8 * n)%nat by lia. by destruct a.
Qed.

(** The wire form of an aggregate signature round-trips: every aggregate
    that [AggregateSignature::new] builds is written into any buffer that is
    large enough (without touching its length), and reading that buffer back
    returns the same aggregate and the number of bytes written, whatever
    follows it. *)
Theorem aggregate_roundtrip (sigs : list (list Z)) (idx : list Z) (nbits : Z)
    (a : AggregateSignature) (out : list Z) :
  0 <= nbits → Forall (λ i, 0 <= i) idx →
  AggregateSignature_new sigs idx nbits = Done a →
  (serialized_sz nbits <= length out)%nat →
  ∃ buf, AggregateSignature_serialize a out = Some (serialized_sz nbits, buf)
         ∧ length buf = length out
         ∧ AggregateSignature_deserialize buf = Some (a, serialized_sz nbits).
Proof.
  intros Hn Hpos Hnew Hout.
  assert (Hpre : sigs ≠ [] ∧ length sigs = length idx).
  { unfold AggregateSignature_new in Hnew. case_bool_decide; [done|].
    destruct (Nat.eqb_spec (length sigs) (length idx)); done. }
  destruct Hpre as [Hne Hlen]. pose proof (new_spec sigs idx nbits Hn Hpos Hne Hlen) as H.
  rewrite Hnew in H. destruct H as (_ & _ & _ & Hwf & Hnb & _). rewrite <- Hnb in *.
  by apply serialize_deserialize.
Qed.

(** ** Vote payloads *)

Definition vote_typed (v : Vote) : Prop :=
  is_u64 (Vote_slot v) ∧ ∀ h, Vote_block_hash v = Some h → length h = 32%nat.

Lemma payload_Done v :
  payload_bytes_to_sign (Vote_kind v) (Vote_slot v) (Vote_block_hash v)
  = Done (to_le_bytes 4 (Vote_kind v) ++ to_le_bytes 8 (Vote_slot v)
            ++ default [] (Vote_block_hash v)).
Proof.
  destruct v; cbn -[to_le_bytes]; rewrite ?app_nil_r; unfold mret, Outcome_ret;
    by rewrite <- ?app_assoc.
Qed.

(** Signed vote payloads are domain separated: two votes that sign the same
    bytes are of the same kind, for the same slot and for the same block, so a
    signature on one can not be replayed as another. *)
Theorem vote_payload_injective (v w : Vote) :
  vote_typed v → vote_typed w →
  payload_bytes_to_sign (Vote_kind v) (Vote_slot v) (Vote_block_hash v)
  = payload_bytes_to_sign (Vote_kind w) (Vote_slot w) (Vote_block_hash w) →
  Vote_kind v = Vote_kind w ∧ Vote_slot v = Vote_slot w ∧ Vote_block_hash v = Vote_block_hash w.
Proof.
  intros [Hv _] [Hw _]. rewrite !payload_Done. intros E%(inj Done).
  apply app_inj_1 in E as [Ek E]; [|by rewrite !length_to_le_bytes].
  apply app_inj_1 in E as [Es Eh]; [|by rewrite !length_to_le_bytes].
  apply to_le_bytes_inj in Ek; [|destruct v; cbv; split; congruence|destruct w; cbv; split; congruence].
  apply (f_equal from_le_bytes) in Es. rewrite !from_le_bytes_u64 in Es by done.
  split_and!; [done|done|]. destruct v, w; cbn in *; try discriminate; by f_equal.
Qed.

(** ** Witnesses *)

Lemma aggregate_new_signers_witness :
  match AggregateSignature_new [replicate 192 1; replicate 192 2] [5; 0] 8 with
  | Done a => AggregateSignature_is_signer a 5 = true ∧ AggregateSignature_is_signer a 3 = false
  | Panicked => False
  end.
Proof.
  pose proof (aggregate_new_signers [replicate 192 1; replicate 192 2] [5; 0] 8) as H.
  destruct (AggregateSignature_new _ _ _) as [a|] eqn:E.
  - destruct H as (_ & _ & _ & H); [lia|repeat constructor; lia|discriminate|reflexivity|].
    rewrite !H by lia. split; reflexivity.
  - vm_compute in E. discriminate.
Defined.

Lemma aggregate_roundtrip_witness :
  match AggregateSignature_new [replicate 192 1; replicate 192 2] [5; 0] 8 with
  | Done a => ∃ buf, AggregateSignature_serialize a (replicate 300 0) = Some (serialized_sz 8, buf)
                     ∧ AggregateSignature_deserialize buf = Some (a, serialized_sz 8)
  | Panicked => False
  end.
Proof.
  destruct (AggregateSignature_new _ _ _) as [a|] eqn:E.
  - destruct (aggregate_roundtrip [replicate 192 1; replicate 192 2] [5; 0] 8 a (replicate 300 0))
      as (buf & Hs & _ & Hd); [lia|repeat constructor; lia|exact E|vm_compute; lia|].
    exists buf. split; [exact Hs|exact Hd].
  - vm_compute in E. discriminate.
Defined.

Lemma vote_payload_injective_witness :
  let v := Vote_Notar (mkNotarVote 7 (replicate 32 1) [] 0) in
  let w := Vote_Notar (mkNotarVote 7 (replicate 32 1) [9] 3) in
  Vote_kind v = Vote_kind w ∧ Vote_slot v = Vote_slot w ∧ Vote_block_hash v = Vote_block_hash w.
Proof.
  apply (vote_payload_injective (Vote_Notar (mkNotarVote 7 (replicate 32 1) [] 0))
           (Vote_Notar (mkNotarVote 7 (replicate 32 1) [9] 3))).
  - split; [split; cbn; [lia|discriminate]|intros h [= <-]; reflexivity].
  - split; [split; cbn; [lia|discriminate]|intros h [= <-]; reflexivity].
  - reflexivity.
Defined.
