(* ===== verification/AlpCert.v ===== *)
(** * Alpenglow: certificates

    Model of [src/crates/karstflow-alpenglow/src/cert.rs]: the five certificate
    kinds, their construction from votes and their threshold check.  The vote
    loops of the five [try_new] functions differ only in the fields they read,
    so they are one loop over the interface [CertVote]. *)
From stdpp Require Import base tactics list numbers countable gmap.
From Stdlib Require Import ZArith Lia.
From S2P Require Import Prelude AlpBase AlpVote.
Local Open Scope Z_scope.

Notation CERT_TYPE_NOTAR := (0)%Z (only parsing).
Notation CERT_TYPE_NOTAR_FALLBACK := (1)%Z (only parsing).
Notation CERT_TYPE_SKIP := (2)%Z (only parsing).
Notation CERT_TYPE_FAST_FINAL := (3)%Z (only parsing).
Notation CERT_TYPE_FINAL := (4)%Z (only parsing).

Inductive CertError := SlotMismatch | BlockHashMismatch.

Record NotarCert := mkNotarCert {
  nc_slot : Z; nc_block_hash : BlockHash; nc_agg_sig : AggregateSignature; nc_stake : Z }.
Record NotarFallbackCert := mkNotarFallbackCert {
  nfc_slot : Z;
  nfc_block_hash : BlockHash;
  nfc_agg_sig_notar : option AggregateSignature;
  nfc_agg_sig_notar_fallback : option AggregateSignature;
  nfc_stake : Z;
}.
Record SkipCert := mkSkipCert {
  sc_slot : Z;
  sc_agg_sig_skip : option AggregateSignature;
  sc_agg_sig_skip_fallback : option AggregateSignature;
  sc_stake : Z;
}.
Record FastFinalCert := mkFastFinalCert {
  ffc_slot : Z; ffc_block_hash : BlockHash; ffc_agg_sig : AggregateSignature; ffc_stake : Z }.
Record FinalCert := mkFinalCert {
  fc_slot : Z; fc_agg_sig : AggregateSignature; fc_stake : Z }.

(** ** Construction *)

(** What a certificate reads of a vote; [None] for the kinds without a hash. *)
Class CertVote (A : Type) := {
  cvote_slot : A → Z;
  cvote_hash : A → option BlockHash;
  cvote_signer : A → Z;
  cvote_sig : A → list Z;
}.

#[export] Instance NotarVote_cert : CertVote NotarVote :=
  {| cvote_slot := nv_slot; cvote_hash v := Some (nv_block_hash v);
     cvote_signer := nv_signer; cvote_sig := nv_sig |}.
#[export] Instance NotarFallbackVote_cert : CertVote NotarFallbackVote :=
  {| cvote_slot := nfv_slot; cvote_hash v := Some (nfv_block_hash v);
     cvote_signer := nfv_signer; cvote_sig := nfv_sig |}.
#[export] Instance SkipVote_cert : CertVote SkipVote :=
  {| cvote_slot := sv_slot; cvote_hash _ := None; cvote_signer := sv_signer; cvote_sig := sv_sig |}.
#[export] Instance SkipFallbackVote_cert : CertVote SkipFallbackVote :=
  {| cvote_slot := sfv_slot; cvote_hash _ := None; cvote_signer := sfv_signer;
     cvote_sig := sfv_sig |}.
#[export] Instance FinalVote_cert : CertVote FinalVote :=
  {| cvote_slot := fv_slot; cvote_hash _ := None; cvote_signer := fv_signer; cvote_sig := fv_sig |}.

Definition agg_build (items : list (Z * list Z)) (nbits : Z) : Outcome AggregateSignature :=
  a ← AggregateSignature_init nbits;
  for_each (λ a item, AggregateSignature_add a item.1 item.2) a items.

Definition item_of {A} `{CertVote A} (v : A) : Z * list Z := (cvote_signer v, cvote_sig v).

(** The loop [for v in votes]: the stake so far, and the mismatch errors; the
    items collected are [item_of <$> votes]. *)
Fixpoint votes_loop {A} `{CertVote A} (slot : Z) (bh : option BlockHash)
    (validators : list ValidatorInfo) (stake : Z) (votes : list A) : Outcome (result Z CertError) :=
  match votes with
  | [] => mret (Ok stake)
  | v :: rest =>
      if negb (cvote_slot v =? slot) then mret (Err SlotMismatch)
      else if negb (bool_decide (cvote_hash v = bh)) then mret (Err BlockHashMismatch)
      else
        match validators !! Z.to_nat (cvote_signer v) with
        | Some info =>
            votes_loop slot bh validators (u64_saturating_add stake (vi_stake info)) rest
        | None => Panicked
        end
  end.

Definition num_bits (validators : list ValidatorInfo) : Z := Z.of_nat (length validators).

Definition NotarCert_try_new (votes : list NotarVote) (validators : list ValidatorInfo) :
    Outcome (result NotarCert CertError) :=
  match votes with
  | [] => Panicked
  | v0 :: _ =>
      r ← votes_loop (nv_slot v0) (Some (nv_block_hash v0)) validators 0 votes;
      match r with
      | Err e => mret (Err e)
      | Ok stake =>
          agg ← agg_build (item_of <$> votes) (num_bits validators);
          mret (Ok (mkNotarCert (nv_slot v0) (nv_block_hash v0) agg stake))
      end
  end.

Definition FastFinalCert_try_new (votes : list NotarVote) (validators : list ValidatorInfo) :
    Outcome (result FastFinalCert CertError) :=
  r ← NotarCert_try_new votes validators;
  match r with
  | Err e => mret (Err e)
  | Ok n => mret (Ok (mkFastFinalCert (nc_slot n) (nc_block_hash n) (nc_agg_sig n) (nc_stake n)))
  end.

Definition FinalCert_try_new (votes : list FinalVote) (validators : list ValidatorInfo) :
    Outcome (result FinalCert CertError) :=
  match votes with
  | [] => Panicked
  | v0 :: _ =>
      r ← votes_loop (fv_slot v0) None validators 0 votes;
      match r with
      | Err e => mret (Err e)
      | Ok stake =>
          agg ← agg_build (item_of <$> votes) (num_bits validators);
          mret (Ok (mkFinalCert (fv_slot v0) agg stake))
      end
  end.

(** [(!items.is_empty()).then(|| agg_build(&items, nbits))]. *)
Definition agg_build_opt (items : list (Z * list Z)) (nbits : Z) :
    Outcome (option AggregateSignature) :=
  match items with
  | [] => mret None
  | _ => a ← agg_build items nbits; mret (Some a)
  end.

Definition NotarFallbackCert_try_new (notar_votes : list NotarVote)
    (nf_votes : list NotarFallbackVote) (validators : list ValidatorInfo) :
    Outcome (result NotarFallbackCert CertError) :=
  match (match notar_votes, nf_votes with
         | v :: _, _ => Some (nv_slot v, nv_block_hash v)
         | [], v :: _ => Some (nfv_slot v, nfv_block_hash v)
         | [], [] => None
         end) with
  | None => Panicked
  | Some (slot, bh) =>
      r ← votes_loop slot (Some bh) validators 0 notar_votes;
      match r with
      | Err e => mret (Err e)
      | Ok stake =>
          r ← votes_loop slot (Some bh) validators stake nf_votes;
          match r with
          | Err e => mret (Err e)
          | Ok stake =>
              agg_notar ← agg_build_opt (item_of <$> notar_votes) (num_bits validators);
              agg_nf ← agg_build_opt (item_of <$> nf_votes) (num_bits validators);
              mret (Ok (mkNotarFallbackCert slot bh agg_notar agg_nf stake))
          end
      end
  end.

Definition SkipCert_try_new (skip_votes : list SkipVote) (sf_votes : list SkipFallbackVote)
    (validators : list ValidatorInfo) : Outcome (result SkipCert CertError) :=
  match (match skip_votes, sf_votes with
         | v :: _, _ => Some (sv_slot v)
         | [], v :: _ => Some (sfv_slot v)
         | [], [] => None
         end) with
  | None => Panicked
  | Some slot =>
      r ← votes_loop slot None validators 0 skip_votes;
      match r with
      | Err e => mret (Err e)
      | Ok stake =>
          r ← votes_loop slot None validators stake sf_votes;
          match r with
          | Err e => mret (Err e)
          | Ok stake =>
              agg_skip ← agg_build_opt (item_of <$> skip_votes) (num_bits validators);
              agg_sf ← agg_build_opt (item_of <$> sf_votes) (num_bits validators);
              mret (Ok (mkSkipCert slot agg_skip agg_sf stake))
          end
      end
  end.

(** ** The certificate sum type *)

Inductive Cert :=
| Cert_Notar (c : NotarCert)
| Cert_NotarFallback (c : NotarFallbackCert)
| Cert_Skip (c : SkipCert)
| Cert_FastFinal (c : FastFinalCert)
| Cert_Final (c : FinalCert).

Definition Cert_kind (c : Cert) : Z :=
  match c with
  | Cert_Notar _ => CERT_TYPE_NOTAR
  | Cert_NotarFallback _ => CERT_TYPE_NOTAR_FALLBACK
  | Cert_Skip _ => CERT_TYPE_SKIP
  | Cert_FastFinal _ => CERT_TYPE_FAST_FINAL
  | Cert_Final _ => CERT_TYPE_FINAL
  end.
Definition Cert_slot (c : Cert) : Z :=
  match c with
  | Cert_Notar c => nc_slot c
  | Cert_NotarFallback c => nfc_slot c
  | Cert_Skip c => sc_slot c
  | Cert_FastFinal c => ffc_slot c
  | Cert_Final c => fc_slot c
  end.
Definition Cert_stake (c : Cert) : Z :=
  match c with
  | Cert_Notar c => nc_stake c
  | Cert_NotarFallback c => nfc_stake c
  | Cert_Skip c => sc_stake c
  | Cert_FastFinal c => ffc_stake c
  | Cert_Final c => fc_stake c
  end.
Definition Cert_block_hash (c : Cert) : option BlockHash :=
  match c with
  | Cert_Notar c => Some (nc_block_hash c)
  | Cert_NotarFallback c => Some (nfc_block_hash c)
  | Cert_FastFinal c => Some (ffc_block_hash c)
  | _ => None
  end.

Definition opt_is_signer (o : option AggregateSignature) (v : Z) : bool :=
  match o with Some a => AggregateSignature_is_signer a v | None => false end.

Definition Cert_is_signer (c : Cert) (v : Z) : bool :=
  match c with
  | Cert_Notar c => AggregateSignature_is_signer (nc_agg_sig c) v
  | Cert_FastFinal c => AggregateSignature_is_signer (ffc_agg_sig c) v
  | Cert_Final c => AggregateSignature_is_signer (fc_agg_sig c) v
  | Cert_NotarFallback c =>
      opt_is_signer (nfc_agg_sig_notar c) v || opt_is_signer (nfc_agg_sig_notar_fallback c) v
  | Cert_Skip c =>
      opt_is_signer (sc_agg_sig_skip c) v || opt_is_signer (sc_agg_sig_skip_fallback c) v
  end.

Definition Cert_signed_stake (c : Cert) (ei : EpochInfo) : Z :=
  foldl u64_add 0
    (vi_stake <$> filter (λ v, Cert_is_signer c (vi_id v)) (ei_validators ei)).

Definition Cert_check_threshold (c : Cert) (ei : EpochInfo) : bool :=
  let stake := Cert_signed_stake c ei in
  match c with
  | Cert_FastFinal _ => EpochInfo_is_strong_quorum ei stake
  | _ => EpochInfo_is_quorum ei stake
  end.

Definition verify_agg (pks : list (list Z)) (agg : AggregateSignature) (kind slot : Z)
    (bh : option BlockHash) : Outcome bool :=
  payload ← payload_bytes_to_sign kind slot bh;
  mret (AggregateSignature_verify_bytes agg payload pks).

Definition verify_agg_opt (pks : list (list Z)) (agg : option AggregateSignature) (kind slot : Z)
    (bh : option BlockHash) : Outcome bool :=
  match agg with Some a => verify_agg pks a kind slot bh | None => mret true end.

Definition Cert_check_sig (c : Cert) (validators : list ValidatorInfo) : Outcome bool :=
  let pks := vi_voting_pubkey <$> validators in
  match c with
  | Cert_Notar c => verify_agg pks (nc_agg_sig c) VOTE_TYPE_NOTAR (nc_slot c) (Some (nc_block_hash c))
  | Cert_FastFinal c =>
      verify_agg pks (ffc_agg_sig c) VOTE_TYPE_NOTAR (ffc_slot c) (Some (ffc_block_hash c))
  | Cert_Final c => verify_agg pks (fc_agg_sig c) VOTE_TYPE_FINAL (fc_slot c) None
  | Cert_NotarFallback c =>
      ok1 ← verify_agg_opt pks (nfc_agg_sig_notar c) VOTE_TYPE_NOTAR (nfc_slot c)
              (Some (nfc_block_hash c));
      ok2 ← verify_agg_opt pks (nfc_agg_sig_notar_fallback c) VOTE_TYPE_NOTAR_FALLBACK (nfc_slot c)
              (Some (nfc_block_hash c));
      mret (ok1 && ok2)
  | Cert_Skip c =>
      ok1 ← verify_agg_opt pks (sc_agg_sig_skip c) VOTE_TYPE_SKIP (sc_slot c) None;
      ok2 ← verify_agg_opt pks (sc_agg_sig_skip_fallback c) VOTE_TYPE_SKIP_FALLBACK (sc_slot c) None;
      mret (ok1 && ok2)
  end.

(** ** Signed stake *)

Definition cert_signers_stake (c : Cert) (ei : EpochInfo) : Z :=
  stake_sum (filter (λ v, Cert_is_signer c (vi_id v)) (ei_validators ei)).

Lemma foldl_u64_add_stake acc vs :
  0 <= acc → Forall (λ v, 0 <= vi_stake v) vs → acc + stake_sum vs <= u64_max →
  foldl u64_add acc (vi_stake <$> vs) = acc + stake_sum vs.
Proof.
  intros Hacc Hs. revert acc Hacc. induction Hs as [|v vs Hv Hs IH]; intros acc Hacc Hfit; cbn in *.
  { lia. }
  pose proof (stake_sum_nonneg _ Hs).
  assert (E : u64_add acc (vi_stake v) = acc + vi_stake v).
  { apply wrap64_small. unfold is_u64. lia. }
  rewrite E, IH by lia. lia.
Qed.

Lemma signed_stake_eq c ei : epoch_wf ei → Cert_signed_stake c ei = cert_signers_stake c ei.
Proof.
  intros [_ Hs _ Hfit _]. unfold Cert_signed_stake, cert_signers_stake.
  rewrite foldl_u64_add_stake; [done|done| |].
  - apply Forall_forall. intros v [_ Hv]%list_elem_of_filter. rewrite Forall_forall in Hs. by apply Hs.
  - pose proof (stake_sum_filter_le (λ v, Cert_is_signer c (vi_id v)) _ Hs). lia.
Qed.

(** The quorum numerator of a certificate kind, in fifths. *)
Definition cert_numer (c : Cert) : Z :=
  match c with Cert_FastFinal _ => STRONG_QUORUM_NUMER | _ => QUORUM_NUMER end.

Lemma check_threshold_iff c ei :
  epoch_wf ei →
  Cert_check_threshold c ei = true ↔ ei_total_stake ei * cert_numer c <= cert_signers_stake c ei * 5.
Proof.
  intros Hwf. unfold Cert_check_threshold. rewrite signed_stake_eq by done.
  destruct c; apply fraction_is_met_iff.
Qed.

(** C27. Quorum intersection.  For any two certificates that pass
    [check_threshold] in a well-formed epoch, the validators that signed both
    hold at least a fifth of the total stake, two fifths when one of them is a
    fast-final certificate and three fifths when both are: conflicting
    certificates expose at least that much stake as double-signing. *)
Theorem quorum_intersection (ei : EpochInfo) (c1 c2 : Cert) :
  epoch_wf ei →
  Cert_check_threshold c1 ei = true → Cert_check_threshold c2 ei = true →
  ei_total_stake ei * (cert_numer c1 + cert_numer c2 - 5)
  <= 5 * stake_sum (filter (λ v, Cert_is_signer c1 (vi_id v) ∧ Cert_is_signer c2 (vi_id v))
                      (ei_validators ei)).
Proof.
  intros Hwf H1%check_threshold_iff H2%check_threshold_iff; [|done|done].
  destruct Hwf as [_ Hs Ht _ _].
  pose proof (stake_sum_overlap (λ v, Cert_is_signer c1 (vi_id v))
    (λ v, Cert_is_signer c2 (vi_id v)) _ Hs) as Ho.
  unfold cert_signers_stake in *. rewrite <- Ht in Ho. lia.
Qed.

(** ** Building a certificate *)

Section build.
Context {A : Type} `{CertVote A}.

(** Votes that may be aggregated: same slot and block, distinct known signers. *)
Definition votes_ok (slot : Z) (bh : option BlockHash) (validators : list ValidatorInfo)
    (votes : list A) : Prop :=
  Forall (λ v, cvote_slot v = slot ∧ cvote_hash v = bh
               ∧ 0 <= cvote_signer v < num_bits validators) votes
  ∧ NoDup (cvote_signer <$> votes).

Lemma votes_loop_Ok slot bh validators stake (votes : list A) :
  votes_ok slot bh validators votes →
  ∃ stake', votes_loop slot bh validators stake votes = Done (Ok stake').
Proof.
  intros [Hall _]. revert stake. induction Hall as [|v votes (Hs & Hh & Hr) Hall IH]; intros stake;
    [by eexists|].
  cbn. rewrite Hs, Z.eqb_refl, bool_decide_eq_true_2 by done. cbn.
  destruct (lookup_lt_is_Some_2 validators (Z.to_nat (cvote_signer v))) as [info ->].
  { unfold num_bits in Hr. lia. }
  apply IH.
Qed.

Lemma agg_build_spec (votes : list A) slot bh validators :
  (length validators <= 2048)%nat → votes_ok slot bh validators votes →
  ∃ a, agg_build (item_of <$> votes) (num_bits validators) = Done a
       ∧ as_nbits a = num_bits validators
       ∧ ∀ j, 0 <= j →
           AggregateSignature_is_signer a j = bool_decide (j ∈ cvote_signer <$> votes).
Proof.
  intros Hlen [Hall Hnd]. unfold agg_build.
  destruct (init_spec (num_bits validators)) as (a0 & -> & Hwf & Hn0 & Hb0).
  { unfold num_bits, MAX_SIGNERS. lia. }
  cbn [mbind Outcome_bind].
  pose proof (add_all_spec (λ x : Z * list Z, x) a0 (item_of <$> votes) Hwf) as Hadd.
  assert (Hidx : (λ x : Z * list Z, x.1) <$> (item_of <$> votes) = cvote_signer <$> votes)
    by (rewrite <- list_fmap_compose; done).
  assert (Hp : Forall (λ x : Z * list Z, 0 <= x.1) (item_of <$> votes)).
  { apply Forall_fmap. eapply Forall_impl; [exact Hall|]. cbn. intros v (_ & _ & ?). lia. }
  specialize (Hadd Hp). cbn zeta beta in Hadd. rewrite Hidx in Hadd.
  destruct (for_each _ a0 _) as [a|].
  - destruct Hadd as (_ & _ & Hn & Hb). exists a. split_and!; [done|congruence|].
    intros j Hj. by rewrite Hb, Hb0, orb_false_r.
  - exfalso. apply Hadd. split_and!; [|done|].
    + apply Forall_fmap. eapply Forall_impl; [exact Hall|]. cbn. rewrite Hn0.
      intros v (_ & _ & ?). lia.
    + apply Forall_true. auto.
Qed.

Lemma agg_build_opt_spec (votes : list A) slot bh validators :
  (length validators <= 2048)%nat → votes_ok slot bh validators votes →
  ∃ a, agg_build_opt (item_of <$> votes) (num_bits validators) = Done a
       ∧ (∀ a', a = Some a' → as_nbits a' = num_bits validators)
       ∧ ∀ j, 0 <= j → opt_is_signer a j = bool_decide (j ∈ cvote_signer <$> votes).
Proof.
  intros Hlen Hok. destruct votes as [|v votes]; [by eexists; split_and!|].
  destruct (agg_build_spec _ _ _ _ Hlen Hok) as (a & E & Hn & Hb).
  cbn [agg_build_opt fmap list_fmap] in *. rewrite E. cbn [mbind Outcome_bind].
  eexists. split_and!; [done| |done]. by intros a' [= <-].
Qed.
End build.

Lemma NotarCert_try_new_ok v votes validators :
  (length validators <= 2048)%nat →
  votes_ok (nv_slot v) (Some (nv_block_hash v)) validators (v :: votes) →
  ∃ c, NotarCert_try_new (v :: votes) validators = Done (Ok c)
       ∧ nc_slot c = nv_slot v ∧ nc_block_hash c = nv_block_hash v
       ∧ as_nbits (nc_agg_sig c) = num_bits validators
       ∧ ∀ j, 0 <= j → AggregateSignature_is_signer (nc_agg_sig c) j
                       = bool_decide (j ∈ nv_signer <$> (v :: votes)).
Proof.
  intros Hlen Hok. unfold NotarCert_try_new.
  destruct (votes_loop_Ok _ _ _ 0 _ Hok) as [stake ->].
  destruct (agg_build_spec _ _ _ _ Hlen Hok) as (a & E & Hn & Hb). rewrite Done_bind, E, Done_bind.
  eexists. split; [done|]. done.
Qed.

Lemma FinalCert_try_new_ok v votes validators :
  (length validators <= 2048)%nat → votes_ok (fv_slot v) None validators (v :: votes) →
  ∃ c, FinalCert_try_new (v :: votes) validators = Done (Ok c)
       ∧ fc_slot c = fv_slot v ∧ as_nbits (fc_agg_sig c) = num_bits validators
       ∧ ∀ j, 0 <= j → AggregateSignature_is_signer (fc_agg_sig c) j
                       = bool_decide (j ∈ fv_signer <$> (v :: votes)).
Proof.
  intros Hlen Hok. unfold FinalCert_try_new.
  destruct (votes_loop_Ok _ _ _ 0 _ Hok) as [stake ->].
  destruct (agg_build_spec _ _ _ _ Hlen Hok) as (a & E & Hn & Hb). rewrite Done_bind, E, Done_bind.
  eexists. split; [done|]. done.
Qed.

Lemma SkipCert_try_new_ok slot (skips : list SkipVote) (sfs : list SkipFallbackVote) validators :
  (length validators <= 2048)%nat → (skips ≠ [] ∨ sfs ≠ []) →
  votes_ok slot None validators skips → votes_ok slot None validators sfs →
  ∃ c, SkipCert_try_new skips sfs validators = Done (Ok c) ∧ sc_slot c = slot
       ∧ (∀ a, sc_agg_sig_skip c = Some a → as_nbits a = num_bits validators)
       ∧ (∀ a, sc_agg_sig_skip_fallback c = Some a → as_nbits a = num_bits validators)
       ∧ ∀ j, 0 <= j → Cert_is_signer (Cert_Skip c) j
           = bool_decide (j ∈ sv_signer <$> skips) || bool_decide (j ∈ sfv_signer <$> sfs).
Proof.
  intros Hlen Hne Hok1 Hok2. unfold SkipCert_try_new.
  assert (Hslot : (match skips, sfs with
                   | v :: _, _ => Some (sv_slot v)
                   | [], v :: _ => Some (sfv_slot v)
                   | [], [] => None
                   end) = Some slot).
  { destruct Hok1 as [H1 _], Hok2 as [H2 _]. destruct skips as [|v skips].
    - destruct sfs as [|v sfs]; [by destruct Hne|].
      apply Forall_cons in H2 as [(<- & _) _]. done.
    - apply Forall_cons in H1 as [(<- & _) _]. done. }
  rewrite Hslot.
  destruct (votes_loop_Ok _ _ _ 0 _ Hok1) as [stake ->]. rewrite Done_bind.
  destruct (votes_loop_Ok _ _ _ stake _ Hok2) as [stake' ->]. rewrite Done_bind.
  destruct (agg_build_opt_spec _ _ _ _ Hlen Hok1) as (a & -> & Hn & Hb). rewrite Done_bind.
  destruct (agg_build_opt_spec _ _ _ _ Hlen Hok2) as (a' & -> & Hn' & Hb'). rewrite Done_bind.
  eexists. split_and!; [done|done|done|done|]. intros j Hj. cbn. by rewrite Hb, Hb'.
Qed.

(** The signed stake of a certificate whose signers are the set [S]. *)
Lemma signers_stake_voters c ei (S : gset Z) :
  epoch_wf ei → (∀ j, 0 <= j → Cert_is_signer c j = bool_decide (j ∈ S)) →
  cert_signers_stake c ei = voters_stake ei S.
Proof.
  intros Hwf Hc. unfold cert_signers_stake, voters_stake. f_equal. apply list_filter_ext_in.
  intros v [i Hi]%list_elem_of_lookup. pose proof (ewf_ids ei Hwf i v Hi).
  rewrite Hc by lia. by rewrite bool_decide_spec.
Qed.

Lemma verify_agg_opt_ok validators a kind slot :
  (kind =? VOTE_TYPE_NOTAR) || (kind =? VOTE_TYPE_NOTAR_FALLBACK) = false →
  (∀ a', a = Some a' → as_nbits a' = num_bits validators) →
  verify_agg_opt (vi_voting_pubkey <$> validators) a kind slot None = Done true.
Proof.
  intros Hk Ha. destruct a as [a|]; [|done]. specialize (Ha a eq_refl). cbn.
  unfold verify_agg, payload_bytes_to_sign. rewrite Hk, Done_bind.
  unfold AggregateSignature_verify_bytes. rewrite length_fmap, Ha. unfold num_bits.
  by rewrite Z.eqb_refl.
Qed.

(** ** Witness *)

Lemma quorum_intersection_witness :
  let ei := mkEpochInfo [mkValidatorInfo 0 10 [] []] 10 in
  let agg := mkAggregateSignature [] 1 (1 :: replicate 31 0) in
  let c1 := Cert_Final (mkFinalCert 1 agg 10) in
  let c2 := Cert_FastFinal (mkFastFinalCert 1 [] agg 10) in
  Cert_check_threshold c1 ei = true ∧ Cert_check_threshold c2 ei = true
  ∧ 10 * 2 <= 5 * stake_sum (filter (λ v, Cert_is_signer c1 (vi_id v) ∧ Cert_is_signer c2 (vi_id v))
                               (ei_validators ei)).
Proof.
  intros ei agg c1 c2. split; [reflexivity|]. split; [reflexivity|].
  apply (quorum_intersection ei c1 c2); [|reflexivity|reflexivity].
  split; [|repeat constructor; discriminate|reflexivity|discriminate|cbn; lia].
  intros [|i] v; cbn; [intros [= <-]; reflexivity|discriminate].
Defined.
