(* ===== verification/AlpSlotState.v ===== *)
(** * Alpenglow: the state of one slot

    Model of [src/crates/karstflow-alpenglow/src/slot_state.rs]: the votes of a
    slot, the running stake totals, the certificates they produce and the
    safe-to-notar / safe-to-skip bookkeeping.  A [HashMap] is a [gmap], a
    [HashSet] a [gset]; the order in which the code iterates over a set is the
    parameter [IterOrder].  [&mut self] and the output buffer are passed and
    returned; a panic is [Panicked]. *)
From stdpp Require Import base tactics list numbers countable gmap sorting relations.
From Stdlib Require Import ZArith Lia.
From S2P Require Import Prelude AlpBase AlpVote AlpCert.
Local Open Scope Z_scope.

Inductive ParentStatus := Known | Certified.
Inductive S2n := SafeToNotar | MissingBlock | Awaiting.
Inductive SlashableOffence :=
| NotarDifferentHash
| SkipAndNotarize
| SkipAndFinalize
| NotarFallbackAndFinalize.
Record Slashable := mkSlashable {
  sl_offence : SlashableOffence; sl_validator : Z; sl_slot : Z }.
Inductive PoolEvent := PoolEvent_SafeToNotar (b : BlockId) | PoolEvent_SafeToSkip (slot : Z).
Inductive NotifyParent :=
| NotifyParent_None
| NotifyParent_Event (e : PoolEvent)
| NotifyParent_Repair (b : BlockId).

Record SlotStateOutputs := mkOutputs {
  out_certs : list Cert; out_events : list PoolEvent; out_repairs : list BlockId }.

Definition Outputs_default : SlotStateOutputs := mkOutputs [] [] [].
Definition push_cert (c : Cert) (o : SlotStateOutputs) : SlotStateOutputs :=
  mkOutputs (out_certs o ++ [c]) (out_events o) (out_repairs o).
Definition push_event (e : PoolEvent) (o : SlotStateOutputs) : SlotStateOutputs :=
  mkOutputs (out_certs o) (out_events o ++ [e]) (out_repairs o).
Definition push_repair (b : BlockId) (o : SlotStateOutputs) : SlotStateOutputs :=
  mkOutputs (out_certs o) (out_events o) (out_repairs o ++ [b]).

Record ValidatorVotes := mkValidatorVotes {
  vv_notar : option NotarVote;
  vv_skip : option SkipVote;
  vv_skip_fallback : option SkipFallbackVote;
  vv_finalize : option FinalVote;
}.
Definition ValidatorVotes_default : ValidatorVotes := mkValidatorVotes None None None None.

Record SlotCertificates := mkSlotCertificates {
  cs_notar : option NotarCert;
  cs_skip : option SkipCert;
  cs_fast_finalize : option FastFinalCert;
  cs_finalize : option FinalCert;
  cs_nf : list NotarFallbackCert;
}.
Definition SlotCertificates_default : SlotCertificates := mkSlotCertificates None None None None [].

Record SlotState := mkSlotState {
  ss_slot : Z;
  ss_own_id : Z;
  ss_votes : gmap Z ValidatorVotes;
  ss_nf_votes : gmap (Z * list Z) NotarFallbackVote;
  ss_notar_stake : gmap (list Z) Z;
  ss_nf_stake : gmap (list Z) Z;
  ss_skip_stake : Z;
  ss_skip_fallback_stake : Z;
  ss_finalize_stake : Z;
  ss_notar_or_skip_stake : Z;
  ss_top_notar_stake : Z;
  ss_parents : gmap (list Z) ParentStatus;
  ss_pending_s2n : gset (list Z);
  ss_sent_s2n : gset (list Z);
  ss_sent_safe_to_skip : bool;
  ss_certs : SlotCertificates;
}.

(** Field assignments. *)
Definition set_ss_votes (x : gmap Z ValidatorVotes) (s : SlotState) : SlotState :=
  mkSlotState (ss_slot s) (ss_own_id s) x (ss_nf_votes s) (ss_notar_stake s) (ss_nf_stake s)
    (ss_skip_stake s) (ss_skip_fallback_stake s) (ss_finalize_stake s)
    (ss_notar_or_skip_stake s) (ss_top_notar_stake s) (ss_parents s) (ss_pending_s2n s)
    (ss_sent_s2n s) (ss_sent_safe_to_skip s) (ss_certs s).
Definition set_ss_nf_votes (x : gmap (Z * list Z) NotarFallbackVote) (s : SlotState) : SlotState :=
  mkSlotState (ss_slot s) (ss_own_id s) (ss_votes s) x (ss_notar_stake s) (ss_nf_stake s)
    (ss_skip_stake s) (ss_skip_fallback_stake s) (ss_finalize_stake s)
    (ss_notar_or_skip_stake s) (ss_top_notar_stake s) (ss_parents s) (ss_pending_s2n s)
    (ss_sent_s2n s) (ss_sent_safe_to_skip s) (ss_certs s).
Definition set_ss_notar_stake (x : gmap (list Z) Z) (s : SlotState) : SlotState :=
  mkSlotState (ss_slot s) (ss_own_id s) (ss_votes s) (ss_nf_votes s) x (ss_nf_stake s) (ss_skip_stake
    s) (ss_skip_fallback_stake s) (ss_finalize_stake s) (ss_notar_or_skip_stake s)
    (ss_top_notar_stake s) (ss_parents s) (ss_pending_s2n s) (ss_sent_s2n s)
    (ss_sent_safe_to_skip s) (ss_certs s).
Definition set_ss_nf_stake (x : gmap (list Z) Z) (s : SlotState) : SlotState :=
  mkSlotState (ss_slot s) (ss_own_id s) (ss_votes s) (ss_nf_votes s) (ss_notar_stake s) x
    (ss_skip_stake s) (ss_skip_fallback_stake s) (ss_finalize_stake s)
    (ss_notar_or_skip_stake s) (ss_top_notar_stake s) (ss_parents s) (ss_pending_s2n s)
    (ss_sent_s2n s) (ss_sent_safe_to_skip s) (ss_certs s).
Definition set_ss_skip_stake (x : Z) (s : SlotState) : SlotState :=
  mkSlotState (ss_slot s) (ss_own_id s) (ss_votes s) (ss_nf_votes s) (ss_notar_stake s) (ss_nf_stake
    s) x (ss_skip_fallback_stake s) (ss_finalize_stake s) (ss_notar_or_skip_stake s)
    (ss_top_notar_stake s) (ss_parents s) (ss_pending_s2n s) (ss_sent_s2n s)
    (ss_sent_safe_to_skip s) (ss_certs s).
Definition set_ss_skip_fallback_stake (x : Z) (s : SlotState) : SlotState :=
  mkSlotState (ss_slot s) (ss_own_id s) (ss_votes s) (ss_nf_votes s) (ss_notar_stake s) (ss_nf_stake
    s) (ss_skip_stake s) x (ss_finalize_stake s) (ss_notar_or_skip_stake s)
    (ss_top_notar_stake s) (ss_parents s) (ss_pending_s2n s) (ss_sent_s2n s)
    (ss_sent_safe_to_skip s) (ss_certs s).
Definition set_ss_finalize_stake (x : Z) (s : SlotState) : SlotState :=
  mkSlotState (ss_slot s) (ss_own_id s) (ss_votes s) (ss_nf_votes s) (ss_notar_stake s) (ss_nf_stake
    s) (ss_skip_stake s) (ss_skip_fallback_stake s) x (ss_notar_or_skip_stake s)
    (ss_top_notar_stake s) (ss_parents s) (ss_pending_s2n s) (ss_sent_s2n s)
    (ss_sent_safe_to_skip s) (ss_certs s).
Definition set_ss_notar_or_skip_stake (x : Z) (s : SlotState) : SlotState :=
  mkSlotState (ss_slot s) (ss_own_id s) (ss_votes s) (ss_nf_votes s) (ss_notar_stake s) (ss_nf_stake
    s) (ss_skip_stake s) (ss_skip_fallback_stake s) (ss_finalize_stake s) x
    (ss_top_notar_stake s) (ss_parents s) (ss_pending_s2n s) (ss_sent_s2n s)
    (ss_sent_safe_to_skip s) (ss_certs s).
Definition set_ss_top_notar_stake (x : Z) (s : SlotState) : SlotState :=
  mkSlotState (ss_slot s) (ss_own_id s) (ss_votes s) (ss_nf_votes s) (ss_notar_stake s) (ss_nf_stake
    s) (ss_skip_stake s) (ss_skip_fallback_stake s) (ss_finalize_stake s)
    (ss_notar_or_skip_stake s) x (ss_parents s) (ss_pending_s2n s) (ss_sent_s2n s)
    (ss_sent_safe_to_skip s) (ss_certs s).
Definition set_ss_parents (x : gmap (list Z) ParentStatus) (s : SlotState) : SlotState :=
  mkSlotState (ss_slot s) (ss_own_id s) (ss_votes s) (ss_nf_votes s) (ss_notar_stake s) (ss_nf_stake
    s) (ss_skip_stake s) (ss_skip_fallback_stake s) (ss_finalize_stake s)
    (ss_notar_or_skip_stake s) (ss_top_notar_stake s) x (ss_pending_s2n s) (ss_sent_s2n s)
    (ss_sent_safe_to_skip s) (ss_certs s).
Definition set_ss_pending_s2n (x : gset (list Z)) (s : SlotState) : SlotState :=
  mkSlotState (ss_slot s) (ss_own_id s) (ss_votes s) (ss_nf_votes s) (ss_notar_stake s) (ss_nf_stake
    s) (ss_skip_stake s) (ss_skip_fallback_stake s) (ss_finalize_stake s)
    (ss_notar_or_skip_stake s) (ss_top_notar_stake s) (ss_parents s) x (ss_sent_s2n s)
    (ss_sent_safe_to_skip s) (ss_certs s).
Definition set_ss_sent_s2n (x : gset (list Z)) (s : SlotState) : SlotState :=
  mkSlotState (ss_slot s) (ss_own_id s) (ss_votes s) (ss_nf_votes s) (ss_notar_stake s) (ss_nf_stake
    s) (ss_skip_stake s) (ss_skip_fallback_stake s) (ss_finalize_stake s)
    (ss_notar_or_skip_stake s) (ss_top_notar_stake s) (ss_parents s) (ss_pending_s2n s) x
    (ss_sent_safe_to_skip s) (ss_certs s).
Definition set_ss_sent_safe_to_skip (x : bool) (s : SlotState) : SlotState :=
  mkSlotState (ss_slot s) (ss_own_id s) (ss_votes s) (ss_nf_votes s) (ss_notar_stake s) (ss_nf_stake
    s) (ss_skip_stake s) (ss_skip_fallback_stake s) (ss_finalize_stake s)
    (ss_notar_or_skip_stake s) (ss_top_notar_stake s) (ss_parents s) (ss_pending_s2n s)
    (ss_sent_s2n s) x (ss_certs s).
Definition set_ss_certs (x : SlotCertificates) (s : SlotState) : SlotState :=
  mkSlotState (ss_slot s) (ss_own_id s) (ss_votes s) (ss_nf_votes s) (ss_notar_stake s) (ss_nf_stake
    s) (ss_skip_stake s) (ss_skip_fallback_stake s) (ss_finalize_stake s)
    (ss_notar_or_skip_stake s) (ss_top_notar_stake s) (ss_parents s) (ss_pending_s2n s)
    (ss_sent_s2n s) (ss_sent_safe_to_skip s) x.

Definition SlotState_new (slot own_id : Z) : SlotState :=
  {| ss_slot := slot; ss_own_id := own_id; ss_votes := ∅; ss_nf_votes := ∅;
     ss_notar_stake := ∅; ss_nf_stake := ∅; ss_skip_stake := 0; ss_skip_fallback_stake := 0;
     ss_finalize_stake := 0; ss_notar_or_skip_stake := 0; ss_top_notar_stake := 0;
     ss_parents := ∅; ss_pending_s2n := ∅; ss_sent_s2n := ∅; ss_sent_safe_to_skip := false;
     ss_certs := SlotCertificates_default |}.

Definition SlotState_vv (s : SlotState) (v : Z) : option ValidatorVotes := ss_votes s !! v.

(** ** Collecting votes, ordered by signer *)

Definition signer_le {A} (signer : A → Z) (v w : A) : Prop := signer v <= signer w.
#[export] Instance signer_le_dec {A} (signer : A → Z) : RelDecision (signer_le signer).
Proof. intros v w. apply Z_le_dec. Defined.

Definition sort_by_signer {A} (signer : A → Z) (l : list A) : list A :=
  merge_sort (signer_le signer) l.

Definition SlotState_collect_notar (s : SlotState) (hash : BlockHash) : list NotarVote :=
  sort_by_signer nv_signer
    (filter (λ n, nv_block_hash n = hash) (omap vv_notar (map_to_list (ss_votes s)).*2)).
Definition SlotState_collect_nf (s : SlotState) (hash : BlockHash) : list NotarFallbackVote :=
  sort_by_signer nfv_signer
    (filter (λ kv : Z * list Z * NotarFallbackVote, kv.1.2 = hash) (map_to_list (ss_nf_votes s))).*2.
Definition SlotState_collect_skip (s : SlotState) : list SkipVote :=
  sort_by_signer sv_signer (omap vv_skip (map_to_list (ss_votes s)).*2).
Definition SlotState_collect_skip_fallback (s : SlotState) : list SkipFallbackVote :=
  sort_by_signer sfv_signer (omap vv_skip_fallback (map_to_list (ss_votes s)).*2).
Definition SlotState_collect_final (s : SlotState) : list FinalVote :=
  sort_by_signer fv_signer (omap vv_finalize (map_to_list (ss_votes s)).*2).

Definition SlotState_is_notar_fallback (s : SlotState) (block_hash : BlockHash) : bool :=
  existsb (λ c, bool_decide (nfc_block_hash c = block_hash)) (cs_nf (ss_certs s)).
Definition SlotState_notar_stake_of (s : SlotState) (h : BlockHash) : Z :=
  default 0 (ss_notar_stake s !! h).
Definition SlotState_nf_stake_of (s : SlotState) (h : BlockHash) : Z :=
  default 0 (ss_nf_stake s !! h).

Definition has_vote {A} (f : ValidatorVotes → option A) (vv : option ValidatorVotes) : bool :=
  match vv with Some vv => bool_decide (is_Some (f vv)) | None => false end.

(** [self.own_id as u16]. *)
Definition own_u16 (s : SlotState) : Z := ss_own_id s mod 65536.

(** ** Safe to notar *)

Definition SlotState_check_safe_to_notar (s : SlotState) (block_hash : BlockHash) (ei : EpochInfo) :
    S2n * SlotState :=
  let notar_stake := SlotState_notar_stake_of s block_hash in
  let skip_stake := ss_skip_stake s in
  if negb (EpochInfo_is_weakest_quorum ei notar_stake) then (Awaiting, s)
  else if negb (EpochInfo_is_weak_quorum ei notar_stake)
          && negb (EpochInfo_is_quorum ei (u64_add notar_stake skip_stake)) then
    (Awaiting, set_ss_pending_s2n ({[block_hash]} ∪ ss_pending_s2n s) s)
  else
    match ss_parents s !! block_hash with
    | None => (MissingBlock, s)
    | Some Known => (Awaiting, s)
    | Some Certified =>
        let vv := SlotState_vv s (own_u16 s) in
        let notar_hash := n ← vv ≫= vv_notar; Some (nv_block_hash n) in
        let emit := (SafeToNotar,
                     set_ss_sent_s2n ({[block_hash]} ∪ ss_sent_s2n s)
                       (set_ss_pending_s2n (ss_pending_s2n s ∖ {[block_hash]}) s)) in
        if has_vote vv_skip vv then emit
        else
          match notar_hash with
          | Some nh => if negb (bool_decide (nh = block_hash)) then emit else (Awaiting, s)
          | None => (Awaiting, set_ss_pending_s2n ({[block_hash]} ∪ ss_pending_s2n s) s)
          end
    end.

(** What the callers do with the answer. *)
Definition push_s2n (r : S2n) (slot : Z) (h : BlockHash) (o : SlotStateOutputs) : SlotStateOutputs :=
  match r with
  | SafeToNotar => push_event (PoolEvent_SafeToNotar (mkBlockId slot h)) o
  | MissingBlock => push_repair (mkBlockId slot h) o
  | Awaiting => o
  end.

Section slot_state.
Context `{!IterOrder (list Z)}.

Definition SlotState_process_pending_safe_to_notar (s : SlotState) (ei : EpochInfo)
    (out : SlotStateOutputs) : SlotState * SlotStateOutputs :=
  let snapshot := filter (λ h, h ∉ ss_sent_s2n s) (iter_order (ss_pending_s2n s)) in
  foldl (λ '(s, out) h,
           if bool_decide (h ∈ ss_sent_s2n s) then (s, out)
           else
             let '(r, s) := SlotState_check_safe_to_notar s h ei in
             (s, push_s2n r (ss_slot s) h out))
    (s, out) snapshot.

(** The safe-to-skip test that closes both counting functions. *)
Definition check_safe_to_skip (s : SlotState) (ei : EpochInfo) (out : SlotStateOutputs) :
    SlotState * SlotStateOutputs :=
  if negb (ss_sent_safe_to_skip s)
     && EpochInfo_is_weak_quorum ei (u64_sub (ss_notar_or_skip_stake s) (ss_top_notar_stake s))
     && has_vote vv_notar (SlotState_vv s (own_u16 s))
  then (set_ss_sent_safe_to_skip true s, push_event (PoolEvent_SafeToSkip (ss_slot s)) out)
  else (s, out).

Definition push_nf_cert (s : SlotState) (block_hash : BlockHash) (ei : EpochInfo)
    (out : SlotStateOutputs) : Outcome SlotStateOutputs :=
  let nv := SlotState_collect_notar s block_hash in
  let nf := SlotState_collect_nf s block_hash in
  c ← expect (NotarFallbackCert_try_new nv nf (ei_validators ei));
  mret (push_cert (Cert_NotarFallback c) out).

(** ** Counting stake *)

Definition SlotState_count_notar_stake (s : SlotState) (block_hash : BlockHash) (stake : Z)
    (ei : EpochInfo) (out : SlotStateOutputs) : Outcome (SlotState * SlotStateOutputs) :=
  let notar_stake := u64_add (SlotState_notar_stake_of s block_hash) stake in
  let s := set_ss_notar_stake (<[block_hash := notar_stake]> (ss_notar_stake s)) s in
  let s := set_ss_notar_or_skip_stake (u64_add (ss_notar_or_skip_stake s) stake) s in
  let s := set_ss_top_notar_stake (Z.max (ss_top_notar_stake s) notar_stake) s in
  let '(s, out) :=
    if bool_decide (block_hash ∉ ss_sent_s2n s) then
      let '(r, s) := SlotState_check_safe_to_notar s block_hash ei in
      (s, push_s2n r (ss_slot s) block_hash out)
    else (s, out) in
  let '(s, out) := check_safe_to_skip s ei out in
  let nf_stake := SlotState_nf_stake_of s block_hash in
  out ← (if EpochInfo_is_quorum ei (u64_add nf_stake notar_stake)
            && negb (SlotState_is_notar_fallback s block_hash)
         then push_nf_cert s block_hash ei out else mret out);
  out ← (if EpochInfo_is_quorum ei notar_stake && bool_decide (cs_notar (ss_certs s) = None) then
           c ← expect (NotarCert_try_new (SlotState_collect_notar s block_hash) (ei_validators ei));
           mret (push_cert (Cert_Notar c) out)
         else mret out);
  out ← (if EpochInfo_is_strong_quorum ei notar_stake
            && bool_decide (cs_fast_finalize (ss_certs s) = None) then
           c ← expect (FastFinalCert_try_new (SlotState_collect_notar s block_hash)
                         (ei_validators ei));
           mret (push_cert (Cert_FastFinal c) out)
         else mret out);
  mret (s, out).

Definition SlotState_count_notar_fallback_stake (s : SlotState) (block_hash : BlockHash) (stake : Z)
    (ei : EpochInfo) (out : SlotStateOutputs) : Outcome (SlotState * SlotStateOutputs) :=
  let nf_stake := u64_add (SlotState_nf_stake_of s block_hash) stake in
  let s := set_ss_nf_stake (<[block_hash := nf_stake]> (ss_nf_stake s)) s in
  let notar_stake := SlotState_notar_stake_of s block_hash in
  out ← (if EpochInfo_is_quorum ei (u64_add nf_stake notar_stake)
            && negb (SlotState_is_notar_fallback s block_hash)
         then push_nf_cert s block_hash ei out else mret out);
  mret (s, out).

Definition SlotState_count_skip_stake (s : SlotState) (stake : Z) (fallback : bool)
    (ei : EpochInfo) (out : SlotStateOutputs) : Outcome (SlotState * SlotStateOutputs) :=
  let s := if fallback
           then set_ss_skip_fallback_stake (u64_add (ss_skip_fallback_stake s) stake) s
           else set_ss_skip_stake (u64_add (ss_skip_stake s) stake) s in
  let '(s, out) := SlotState_process_pending_safe_to_notar s ei out in
  let total_skip := u64_add (ss_skip_stake s) (ss_skip_fallback_stake s) in
  out ← (if EpochInfo_is_quorum ei total_skip && bool_decide (cs_skip (ss_certs s) = None) then
           c ← expect (SkipCert_try_new (SlotState_collect_skip s)
                         (SlotState_collect_skip_fallback s) (ei_validators ei));
           mret (push_cert (Cert_Skip c) out)
         else mret out);
  mret (check_safe_to_skip s ei out).

Definition SlotState_count_finalize_stake (s : SlotState) (stake : Z) (ei : EpochInfo)
    (out : SlotStateOutputs) : Outcome (SlotState * SlotStateOutputs) :=
  let s := set_ss_finalize_stake (u64_add (ss_finalize_stake s) stake) s in
  out ← (if EpochInfo_is_quorum ei (ss_finalize_stake s)
            && bool_decide (cs_finalize (ss_certs s) = None) then
           c ← expect (FinalCert_try_new (SlotState_collect_final s) (ei_validators ei));
           mret (push_cert (Cert_Final c) out)
         else mret out);
  mret (s, out).

(** ** Certificates and votes *)

Definition SlotState_add_cert (s : SlotState) (cert : Cert) : SlotState :=
  let cs := ss_certs s in
  match cert with
  | Cert_Notar c => set_ss_certs (mkSlotCertificates (Some c) (cs_skip cs) (cs_fast_finalize cs)
                                    (cs_finalize cs) (cs_nf cs)) s
  | Cert_NotarFallback c =>
      if negb (SlotState_is_notar_fallback s (nfc_block_hash c))
      then set_ss_certs (mkSlotCertificates (cs_notar cs) (cs_skip cs) (cs_fast_finalize cs)
                           (cs_finalize cs) (cs_nf cs ++ [c])) s
      else s
  | Cert_Skip c => set_ss_certs (mkSlotCertificates (cs_notar cs) (Some c) (cs_fast_finalize cs)
                                   (cs_finalize cs) (cs_nf cs)) s
  | Cert_FastFinal c => set_ss_certs (mkSlotCertificates (cs_notar cs) (cs_skip cs) (Some c)
                                        (cs_finalize cs) (cs_nf cs)) s
  | Cert_Final c => set_ss_certs (mkSlotCertificates (cs_notar cs) (cs_skip cs)
                                    (cs_fast_finalize cs) (Some c) (cs_nf cs)) s
  end.

(** [self.votes.entry(voter).or_default()], updated. *)
Definition update_vv (voter : Z) (f : ValidatorVotes → ValidatorVotes) (s : SlotState) : SlotState :=
  let vv := default ValidatorVotes_default (ss_votes s !! voter) in
  set_ss_votes (<[voter := f vv]> (ss_votes s)) s.

Definition SlotState_add_vote (s : SlotState) (vote : Vote) (voter_stake : Z) (ei : EpochInfo)
    (out : SlotStateOutputs) : Outcome (SlotState * SlotStateOutputs) :=
  let voter := Vote_signer vote in
  r ← match vote with
      | Vote_Notar n =>
          r ← SlotState_count_notar_stake s (nv_block_hash n) voter_stake ei out;
          mret (update_vv voter (λ vv, mkValidatorVotes (Some n) (vv_skip vv) (vv_skip_fallback vv)
                                         (vv_finalize vv)) r.1, r.2)
      | Vote_NotarFallback n =>
          r ← SlotState_count_notar_fallback_stake s (nfv_block_hash n) voter_stake ei out;
          mret (set_ss_nf_votes (<[(voter, nfv_block_hash n) := n]> (ss_nf_votes r.1)) r.1, r.2)
      | Vote_Skip v =>
          let s := update_vv voter (λ vv, mkValidatorVotes (vv_notar vv) (Some v)
                                            (vv_skip_fallback vv) (vv_finalize vv)) s in
          let s := set_ss_notar_or_skip_stake (u64_add (ss_notar_or_skip_stake s) voter_stake) s in
          SlotState_count_skip_stake s voter_stake false ei out
      | Vote_SkipFallback v =>
          let s := update_vv voter (λ vv, mkValidatorVotes (vv_notar vv) (vv_skip vv) (Some v)
                                            (vv_finalize vv)) s in
          SlotState_count_skip_stake s voter_stake true ei out
      | Vote_Final v =>
          let s := update_vv voter (λ vv, mkValidatorVotes (vv_notar vv) (vv_skip vv)
                                            (vv_skip_fallback vv) (Some v)) s in
          SlotState_count_finalize_stake s voter_stake ei out
      end;
  mret (if voter =? ss_own_id r.1 then SlotState_process_pending_safe_to_notar r.1 ei r.2 else r).

End slot_state.

Definition SlotState_notify_parent_known (s : SlotState) (hash : BlockHash) : SlotState :=
  match ss_parents s !! hash with
  | Some _ => s
  | None => set_ss_parents (<[hash := Known]> (ss_parents s)) s
  end.

Definition SlotState_notify_parent_certified (s : SlotState) (hash : BlockHash) (ei : EpochInfo) :
    Outcome (NotifyParent * SlotState) :=
  _ ← rust_assert (bool_decide (is_Some (ss_parents s !! hash)));
  let s := set_ss_parents (<[hash := Certified]> (ss_parents s)) s in
  if bool_decide (hash ∈ ss_sent_s2n s) then mret (NotifyParent_None, s)
  else
    let '(r, s) := SlotState_check_safe_to_notar s hash ei in
    mret (match r with
          | SafeToNotar => NotifyParent_Event (PoolEvent_SafeToNotar (mkBlockId (ss_slot s) hash))
          | MissingBlock => NotifyParent_Repair (mkBlockId (ss_slot s) hash)
          | Awaiting => NotifyParent_None
          end, s).

(** ** Guards *)

Definition SlotState_check_slashable_offence (s : SlotState) (vote : Vote) : option Slashable :=
  let slot := Vote_slot vote in
  let voter := Vote_signer vote in
  let vv := SlotState_vv s voter in
  let mk o := Some (mkSlashable o voter slot) in
  match vote with
  | Vote_Notar n =>
      if has_vote vv_skip vv then mk SkipAndNotarize
      else
        match vv ≫= vv_notar with
        | Some existing =>
            if negb (bool_decide (nv_block_hash existing = nv_block_hash n))
            then mk NotarDifferentHash else None
        | None => None
        end
  | Vote_NotarFallback _ => if has_vote vv_finalize vv then mk NotarFallbackAndFinalize else None
  | Vote_Skip _ =>
      if has_vote vv_finalize vv then mk SkipAndFinalize
      else if has_vote vv_notar vv then mk SkipAndNotarize
      else None
  | Vote_SkipFallback _ => if has_vote vv_finalize vv then mk SkipAndFinalize else None
  | Vote_Final _ =>
      if has_vote vv_skip vv || has_vote vv_skip_fallback vv then mk SkipAndFinalize
      else if existsb (λ k : Z * list Z, k.1 =? voter) (map_to_list (ss_nf_votes s)).*1
      then mk NotarFallbackAndFinalize
      else None
  end.

Definition SlotState_should_ignore_vote (s : SlotState) (vote : Vote) : bool :=
  let voter := Vote_signer vote in
  let vv := SlotState_vv s voter in
  match vote with
  | Vote_Notar _ => has_vote vv_notar vv
  | Vote_NotarFallback n => bool_decide (is_Some (ss_nf_votes s !! (voter, nfv_block_hash n)))
  | Vote_Skip _ | Vote_SkipFallback _ => has_vote vv_skip vv || has_vote vv_skip_fallback vv
  | Vote_Final _ => has_vote vv_finalize vv
  end.

(** ** Who voted what *)

Definition voters (f : ValidatorVotes → bool) (m : gmap Z ValidatorVotes) : gset Z :=
  dom (filter (λ kv, f kv.2 = true) m).

Definition has {A} (g : ValidatorVotes → option A) (vv : ValidatorVotes) : bool :=
  bool_decide (is_Some (g vv)).
Definition notar_for (h : BlockHash) (vv : ValidatorVotes) : bool :=
  match vv_notar vv with Some n => bool_decide (nv_block_hash n = h) | None => false end.

Definition nf_voters (m : gmap (Z * list Z) NotarFallbackVote) (h : BlockHash) : gset Z :=
  set_map fst (filter (λ k, k.2 = h) (dom m)).

Lemma elem_of_voters f m v : v ∈ voters f m ↔ ∃ vv, m !! v = Some vv ∧ f vv = true.
Proof.
  unfold voters. rewrite elem_of_dom. unfold is_Some.
  setoid_rewrite map_lookup_filter_Some. naive_solver.
Qed.

Lemma elem_of_nf_voters m h v : v ∈ nf_voters m h ↔ is_Some (m !! (v, h)).
Proof.
  unfold nf_voters. rewrite elem_of_map. setoid_rewrite elem_of_filter.
  setoid_rewrite elem_of_dom. split.
  - intros ([v' h'] & -> & <- & ?). done.
  - intros ?. by exists (v, h).
Qed.

Section voters_update.
Context (f : ValidatorVotes → bool) (m : gmap Z ValidatorVotes) (v : Z) (vv' : ValidatorVotes).
Let vv := default ValidatorVotes_default (m !! v).
Context (Hdef : f ValidatorVotes_default = false).

Lemma voter_iff : v ∈ voters f m ↔ f vv = true.
Proof using Hdef.
  rewrite elem_of_voters. unfold vv. destruct (m !! v); cbn; [naive_solver|].
  rewrite Hdef. naive_solver.
Qed.

Lemma voters_insert_same : f vv' = f vv → voters f (<[v:=vv']> m) = voters f m.
Proof using Hdef.
  intros E. apply set_eq. intros w. destruct (decide (w = v)) as [->|Hne].
  - rewrite voter_iff, elem_of_voters, lookup_insert_eq, <- E. naive_solver.
  - by rewrite !elem_of_voters, lookup_insert_ne.
Qed.

Lemma voters_insert_new : f vv' = true → voters f (<[v:=vv']> m) = {[v]} ∪ voters f m.
Proof using Hdef.
  intros E. apply set_eq. intros w. rewrite elem_of_union, elem_of_singleton.
  destruct (decide (w = v)) as [->|Hne].
  - rewrite elem_of_voters, lookup_insert_eq. naive_solver.
  - rewrite !elem_of_voters, lookup_insert_ne by done. naive_solver.
Qed.
End voters_update.

(** ** The invariant of a slot state *)

Section invariant.
Context (ei : EpochInfo).

Definition in_epoch (v : Z) : Prop := 0 <= v < EpochInfo_validator_cnt ei.

(** The votes stored for validator [v] are its own and for this slot. *)
Definition votes_of (slot v : Z) (vv : ValidatorVotes) : Prop :=
  in_epoch v
  ∧ (∀ n, vv_notar vv = Some n → nv_signer n = v ∧ nv_slot n = slot)
  ∧ (∀ n, vv_skip vv = Some n → sv_signer n = v ∧ sv_slot n = slot)
  ∧ (∀ n, vv_skip_fallback vv = Some n → sfv_signer n = v ∧ sfv_slot n = slot)
  ∧ (∀ n, vv_finalize vv = Some n → fv_signer n = v ∧ fv_slot n = slot).

(** No validator has two conflicting votes on record. *)
Definition votes_exclusive (vv : ValidatorVotes) : Prop :=
  (is_Some (vv_notar vv) → vv_skip vv = None)
  ∧ (is_Some (vv_skip vv) → vv_skip_fallback vv = None)
  ∧ (is_Some (vv_finalize vv) → vv_skip vv = None ∧ vv_skip_fallback vv = None).

Record slot_wf (s : SlotState) : Prop := {
  swf_votes : map_Forall (λ v vv, votes_of (ss_slot s) v vv ∧ votes_exclusive vv) (ss_votes s);
  swf_nf : map_Forall (λ k n, in_epoch k.1 ∧ nfv_signer n = k.1 ∧ nfv_block_hash n = k.2
                              ∧ nfv_slot n = ss_slot s) (ss_nf_votes s);
  swf_nf_final : ∀ v h, is_Some (ss_nf_votes s !! (v, h)) → v ∉ voters (has vv_finalize) (ss_votes s);
  swf_skip : ss_skip_stake s = voters_stake ei (voters (has vv_skip) (ss_votes s));
  swf_skip_fallback :
    ss_skip_fallback_stake s = voters_stake ei (voters (has vv_skip_fallback) (ss_votes s));
  swf_finalize : ss_finalize_stake s = voters_stake ei (voters (has vv_finalize) (ss_votes s));
  swf_notar : ∀ h, SlotState_notar_stake_of s h = voters_stake ei (voters (notar_for h) (ss_votes s));
  swf_nf_stake : ∀ h, SlotState_nf_stake_of s h = voters_stake ei (nf_voters (ss_nf_votes s) h);
  swf_notar_or_skip :
    ss_notar_or_skip_stake s =
    voters_stake ei (voters (λ vv, has vv_notar vv || has vv_skip vv) (ss_votes s));
  swf_top_ge : ∀ h, SlotState_notar_stake_of s h <= ss_top_notar_stake s;
  swf_top_eq : ss_top_notar_stake s = 0 ∨ ∃ h, SlotState_notar_stake_of s h = ss_top_notar_stake s;
}.

(** The fields the invariant reads; the event bookkeeping leaves them alone. *)
Definition core (s : SlotState) :=
  (ss_slot s, ss_own_id s, ss_votes s, ss_nf_votes s, ss_notar_stake s, ss_nf_stake s,
   ss_skip_stake s, ss_skip_fallback_stake s, ss_finalize_stake s, ss_notar_or_skip_stake s,
   ss_top_notar_stake s).

Lemma slot_wf_core s s' : core s' = core s → slot_wf s → slot_wf s'.
Proof. destruct s, s'. intros [= -> -> -> -> -> -> -> -> -> -> ->] []. by split. Qed.

Lemma slot_new_wf slot own_id : slot_wf (SlotState_new slot own_id).
Proof.
  assert (Hv : ∀ f, voters f ∅ = ∅) 
    by (intros f; unfold voters; by rewrite map_filter_empty, dom_empty_L).
  assert (Hn : ∀ h, nf_voters ∅ h = ∅).
  { intros h. apply set_eq. intros v. rewrite elem_of_nf_voters, lookup_empty, is_Some_alt. set_solver. }
  split; unfold SlotState_notar_stake_of, SlotState_nf_stake_of;
    cbn [SlotState_new ss_votes ss_nf_votes ss_slot ss_skip_stake ss_skip_fallback_stake
         ss_finalize_stake ss_notar_stake ss_nf_stake ss_notar_or_skip_stake ss_top_notar_stake];
    intros; rewrite ?lookup_empty, ?Hv, ?Hn, ?voters_stake_empty; try done.
  by left.
Qed.
End invariant.

(** The event bookkeeping and the certificates keep the core. *)
Lemma check_safe_to_notar_core s h ei : core (SlotState_check_safe_to_notar s h ei).2 = core s.
Proof. unfold SlotState_check_safe_to_notar. by repeat case_match. Qed.

Lemma check_safe_to_notar_certs s h ei :
  ss_certs (SlotState_check_safe_to_notar s h ei).2 = ss_certs s.
Proof. unfold SlotState_check_safe_to_notar. by repeat case_match. Qed.

Lemma check_safe_to_skip_core s ei out :
  core (check_safe_to_skip s ei out).1 = core s
  ∧ ss_certs (check_safe_to_skip s ei out).1 = ss_certs s
  ∧ out_certs (check_safe_to_skip s ei out).2 = out_certs out.
Proof. unfold check_safe_to_skip. by repeat case_match. Qed.

Lemma check_safe_to_skip_events s ei out e :
  e ∈ out_events (check_safe_to_skip s ei out).2 →
  e ∈ out_events out ∨ e = PoolEvent_SafeToSkip (ss_slot s).
Proof.
  unfold check_safe_to_skip. case_match; cbn; [|auto]. rewrite elem_of_app, list_elem_of_singleton. tauto.
Qed.

Lemma push_s2n_certs r slot h out : out_certs (push_s2n r slot h out) = out_certs out.
Proof. by destruct r. Qed.

Lemma process_pending_core `{!IterOrder (list Z)} s ei out :
  let r := SlotState_process_pending_safe_to_notar s ei out in
  core r.1 = core s ∧ ss_certs r.1 = ss_certs s ∧ out_certs r.2 = out_certs out.
Proof.
  unfold SlotState_process_pending_safe_to_notar. cbn zeta. generalize (filter (λ h, h ∉ ss_sent_s2n s)
    (iter_order (ss_pending_s2n s))). intros l. revert s out.
  induction l as [|h l IH]; intros s out; [done|]. cbn [foldl]. case_bool_decide; [apply IH|].
  pose proof (check_safe_to_notar_core s h ei) as Hc.
  pose proof (check_safe_to_notar_certs s h ei) as Hc'.
  destruct (SlotState_check_safe_to_notar s h ei) as [r s1]. cbn in Hc, Hc'.
  destruct (IH s1 (push_s2n r (ss_slot s1) h out)) as (-> & -> & ->).
  by rewrite Hc, Hc', push_s2n_certs.
Qed.

Lemma add_cert_core s c : core (SlotState_add_cert s c) = core s.
Proof. destruct c; cbn; [done| |done..]. by case_match. Qed.

(** ** Accepted votes *)

Section accepted.
Context (ei : EpochInfo) (Hei : epoch_wf ei).

Definition stake_of (v stake : Z) : Prop :=
  ∃ info, ei_validators ei !! Z.to_nat v = Some info ∧ vi_stake info = stake.

(** What the pool has checked before it calls [add_vote]. *)
Record acceptable (s : SlotState) (vote : Vote) (stake : Z) : Prop := {
  acc_slot : Vote_slot vote = ss_slot s;
  acc_signer : in_epoch ei (Vote_signer vote);
  acc_stake : stake_of (Vote_signer vote) stake;
  acc_slashable : SlotState_check_slashable_offence s vote = None;
  acc_ignore : SlotState_should_ignore_vote s vote = false;
}.

Lemma add_voter_stake S v stake :
  in_epoch ei v → stake_of v stake → v ∉ S →
  u64_add (voters_stake ei S) stake = voters_stake ei ({[v]} ∪ S).
Proof using Hei.
  intros [Hv _] (info & Hi & <-) HS. pose proof (voters_stake_nonneg ei ({[v]} ∪ S) Hei).
  pose proof (voters_stake_le ei ({[v]} ∪ S) Hei). pose proof (ewf_fits ei Hei).
  rewrite (ewf_total ei Hei) in *.
  rewrite <- (Z2Nat.id v Hv) in HS |- *. pose proof (voters_stake_add ei S _ info Hei Hi HS) as E.
  rewrite (Z2Nat.id v Hv) in *. unfold u64_add. rewrite wrap64_small; [lia|].
  unfold is_u64. lia.
Qed.

Lemma has_vote_default {A} (g : ValidatorVotes → option A) (m : gmap Z ValidatorVotes) v :
  g ValidatorVotes_default = None →
  has_vote g (m !! v) = has g (default ValidatorVotes_default (m !! v)).
Proof.
  intros E. unfold has_vote, has. destruct (m !! v); [done|]. cbn. rewrite E.
  symmetry. apply bool_decide_eq_false_2. by intros [].
Qed.

Lemma has_false {A} (g : ValidatorVotes → option A) vv : has g vv = false ↔ g vv = None.
Proof. unfold has. rewrite bool_decide_eq_false, <- eq_None_not_Some. done. Qed.

(** The guards, as facts on the votes on record for the signer. *)
Definition guard_facts (s : SlotState) (vote : Vote) : Prop :=
  let vv := default ValidatorVotes_default (ss_votes s !! Vote_signer vote) in
  match vote with
  | Vote_Notar _ => vv_skip vv = None ∧ vv_notar vv = None
  | Vote_NotarFallback n =>
      vv_finalize vv = None ∧ ss_nf_votes s !! (Vote_signer vote, nfv_block_hash n) = None
  | Vote_Skip _ => vv_finalize vv = None ∧ vv_notar vv = None ∧ vv_skip vv = None
                   ∧ vv_skip_fallback vv = None
  | Vote_SkipFallback _ => vv_finalize vv = None ∧ vv_skip vv = None ∧ vv_skip_fallback vv = None
  | Vote_Final _ => vv_skip vv = None ∧ vv_skip_fallback vv = None ∧ vv_finalize vv = None
                    ∧ ∀ h, ss_nf_votes s !! (Vote_signer vote, h) = None
  end.

Lemma accepted_guards s vote stake : acceptable s vote stake → guard_facts s vote.
Proof.
  intros [_ _ _ Hs Hi]. unfold guard_facts, SlotState_check_slashable_offence,
    SlotState_should_ignore_vote, SlotState_vv in *.
  rewrite ?has_vote_default in * by done.
  destruct vote as [n|n|n|n|n]; cbn [Vote_signer] in *.
  - split; [|by apply has_false]. apply has_false. by destruct (has vv_skip _).
  - apply bool_decide_eq_false in Hi. split; [|by apply eq_None_not_Some]. apply has_false.
    by destruct (has vv_finalize _).
  - apply orb_false_iff in Hi as [? ?].
    destruct (has vv_finalize _) eqn:?; [done|]. destruct (has vv_notar _) eqn:?; [done|].
    split_and!; by apply has_false.
  - apply orb_false_iff in Hi as [? ?]. split_and!; apply has_false; try done.
    by destruct (has vv_finalize _).
  - destruct (has vv_skip _ || has vv_skip_fallback _) eqn:E; [done|].
    apply orb_false_iff in E as [? ?]. destruct (existsb _ _) eqn:E2; [done|].
    split_and!; [by apply has_false..|]. intros h. apply eq_None_not_Some. intros [x Hx].
    apply not_true_iff_false in E2. apply E2, existsb_exists. exists (fv_signer n, h).
    split; [|apply Z.eqb_refl]. apply list_elem_of_In, list_elem_of_fmap.
    exists (fv_signer n, h, x). split; [done|]. by apply elem_of_map_to_list.
Qed.

(** Storing one more vote of the signer keeps the votes well formed. *)
Lemma stored_votes s v vv' :
  slot_wf ei s → votes_of ei (ss_slot s) v vv' → votes_exclusive vv' →
  map_Forall (λ v vv, votes_of ei (ss_slot s) v vv ∧ votes_exclusive vv)
    (<[v := vv']> (ss_votes s)).
Proof. intros Hwf H1 H2. apply map_Forall_insert_2; [done|apply Hwf]. Qed.

Lemma signer_votes s v :
  slot_wf ei s → in_epoch ei v →
  let vv := default ValidatorVotes_default (ss_votes s !! v) in
  votes_of ei (ss_slot s) v vv ∧ votes_exclusive vv.
Proof.
  intros Hwf Hv. cbn. destruct (ss_votes s !! v) as [vv|] eqn:E; cbn.
  - by apply (swf_votes ei s Hwf).
  - split; [split_and!; done|]. unfold votes_exclusive. cbn. split_and!; intros []; done.
Qed.
End accepted.

(** The state [add_vote] leaves, up to the event bookkeeping. *)
Definition store_notar (n : NotarVote) (vv : ValidatorVotes) : ValidatorVotes :=
  mkValidatorVotes (Some n) (vv_skip vv) (vv_skip_fallback vv) (vv_finalize vv).
Definition store_skip (n : SkipVote) (vv : ValidatorVotes) : ValidatorVotes :=
  mkValidatorVotes (vv_notar vv) (Some n) (vv_skip_fallback vv) (vv_finalize vv).
Definition store_skip_fallback (n : SkipFallbackVote) (vv : ValidatorVotes) : ValidatorVotes :=
  mkValidatorVotes (vv_notar vv) (vv_skip vv) (Some n) (vv_finalize vv).
Definition store_final (n : FinalVote) (vv : ValidatorVotes) : ValidatorVotes :=
  mkValidatorVotes (vv_notar vv) (vv_skip vv) (vv_skip_fallback vv) (Some n).

Definition counted (s : SlotState) (vote : Vote) (stake : Z) : SlotState :=
  match vote with
  | Vote_Notar n =>
      let h := nv_block_hash n in
      let notar_stake := u64_add (SlotState_notar_stake_of s h) stake in
      update_vv (nv_signer n) (store_notar n)
        (set_ss_top_notar_stake (Z.max (ss_top_notar_stake s) notar_stake)
          (set_ss_notar_or_skip_stake (u64_add (ss_notar_or_skip_stake s) stake)
            (set_ss_notar_stake (<[h := notar_stake]> (ss_notar_stake s)) s)))
  | Vote_NotarFallback n =>
      let h := nfv_block_hash n in
      set_ss_nf_votes (<[(nfv_signer n, h) := n]> (ss_nf_votes s))
        (set_ss_nf_stake (<[h := u64_add (SlotState_nf_stake_of s h) stake]> (ss_nf_stake s)) s)
  | Vote_Skip n =>
      set_ss_skip_stake (u64_add (ss_skip_stake s) stake)
        (set_ss_notar_or_skip_stake (u64_add (ss_notar_or_skip_stake s) stake)
          (update_vv (sv_signer n) (store_skip n) s))
  | Vote_SkipFallback n =>
      set_ss_skip_fallback_stake (u64_add (ss_skip_fallback_stake s) stake)
        (update_vv (sfv_signer n) (store_skip_fallback n) s)
  | Vote_Final n =>
      set_ss_finalize_stake (u64_add (ss_finalize_stake s) stake)
        (update_vv (fv_signer n) (store_final n) s)
  end.

Section counted.
Context (ei : EpochInfo) (Hei : epoch_wf ei) (s : SlotState) (Hwf : slot_wf ei s).

(** Replacing the entry of [v] by [vv'] does not change the voters of [f]. *)
Lemma same_voters_stake f v vv' :
  f ValidatorVotes_default = false →
  f vv' = f (default ValidatorVotes_default (ss_votes s !! v)) →
  voters f (<[v := vv']> (ss_votes s)) = voters f (ss_votes s).
Proof. intros Hd E. by apply voters_insert_same. Qed.

(** It adds [v] to the voters of [f], and the stake total follows. *)
Lemma new_voter_stake f v vv' stake :
  f ValidatorVotes_default = false → in_epoch ei v → stake_of ei v stake →
  f (default ValidatorVotes_default (ss_votes s !! v)) = false → f vv' = true →
  u64_add (voters_stake ei (voters f (ss_votes s))) stake
  = voters_stake ei (voters f (<[v := vv']> (ss_votes s))).
Proof using Hei.
  intros Hd Hv Hst E E'. rewrite voters_insert_new by done. apply (add_voter_stake ei Hei); [done..|].
  rewrite voter_iff by done. congruence.
Qed.

(** Splits the invariant of a counted state into its fields. *)
Ltac open_counted :=
  split; unfold SlotState_notar_stake_of, SlotState_nf_stake_of;
  cbn [counted set_ss_skip_stake set_ss_skip_fallback_stake set_ss_finalize_stake set_ss_nf_votes
       set_ss_nf_stake set_ss_notar_stake set_ss_top_notar_stake
       set_ss_notar_or_skip_stake update_vv set_ss_votes ss_votes
       ss_nf_votes ss_slot ss_skip_stake ss_skip_fallback_stake ss_finalize_stake ss_notar_stake
       ss_nf_stake ss_notar_or_skip_stake ss_top_notar_stake];
  try apply Hwf.
Ltac unchanged := intros; rewrite same_voters_stake by done; by apply Hwf.

Lemma counted_skip_wf n stake :
  acceptable ei s (Vote_Skip n) stake → slot_wf ei (counted s (Vote_Skip n) stake).
Proof using Hei Hwf.
  intros Hacc. pose proof (accepted_guards ei s _ _ Hacc) as (Hf & Hn & Hs & Hsf).
  destruct Hacc as [Hslot Hin Hst _ _]. cbn in Hslot, Hin, Hst, Hf, Hn, Hs, Hsf.
  destruct (signer_votes ei s (sv_signer n) Hwf Hin) as [(_ & Hv1 & Hv2 & Hv3 & Hv4) _].
  open_counted; try unchanged.
  - apply stored_votes; [done| |].
    + split_and!; try done. by intros ? [= <-].
    + unfold votes_exclusive. cbn. rewrite Hf, Hn, Hsf. split_and!; try done; by intros [].
  - intros v h Hnf. rewrite same_voters_stake by done. by apply (swf_nf_final ei s Hwf v h).
  - rewrite (swf_skip ei s Hwf). apply new_voter_stake; [done..| |done]. by apply has_false.
  - rewrite (swf_notar_or_skip ei s Hwf).
    apply (new_voter_stake (λ vv, has vv_notar vv || has vv_skip vv)); [done..| |].
    + by rewrite (proj2 (has_false _ _) Hn), (proj2 (has_false _ _) Hs).
    + apply orb_true_r.
Qed.

Lemma counted_skip_fallback_wf n stake :
  acceptable ei s (Vote_SkipFallback n) stake → slot_wf ei (counted s (Vote_SkipFallback n) stake).
Proof using Hei Hwf.
  intros Hacc. pose proof (accepted_guards ei s _ _ Hacc) as (Hf & Hs & Hsf).
  destruct Hacc as [Hslot Hin Hst _ _]. cbn in Hslot, Hin, Hst, Hf, Hs, Hsf.
  destruct (signer_votes ei s (sfv_signer n) Hwf Hin) as [(_ & Hv1 & Hv2 & Hv3 & Hv4) _].
  open_counted; try unchanged.
  - apply stored_votes; [done| |].
    + split_and!; try done. by intros ? [= <-].
    + unfold votes_exclusive. cbn. rewrite Hf, Hs. split_and!; try done; by intros [].
  - intros v h Hnf. rewrite same_voters_stake by done. by apply (swf_nf_final ei s Hwf v h).
  - rewrite (swf_skip_fallback ei s Hwf). apply new_voter_stake; [done..| |done]. by apply has_false.
Qed.

Lemma counted_final_wf n stake :
  acceptable ei s (Vote_Final n) stake → slot_wf ei (counted s (Vote_Final n) stake).
Proof using Hei Hwf.
  intros Hacc. pose proof (accepted_guards ei s _ _ Hacc) as (Hs & Hsf & Hf & Hnf).
  destruct Hacc as [Hslot Hin Hst _ _]. cbn in Hslot, Hin, Hst, Hf, Hs, Hsf.
  destruct (signer_votes ei s (fv_signer n) Hwf Hin) as [(_ & Hv1 & Hv2 & Hv3 & Hv4) _].
  open_counted; try unchanged.
  - apply stored_votes; [done| |].
    + split_and!; try done. by intros ? [= <-].
    + unfold votes_exclusive. cbn. rewrite Hs, Hsf. split_and!; try done; by intros [].
  - intros v h Hv. rewrite voters_insert_new, not_elem_of_union, not_elem_of_singleton by done.
    split; [|by apply (swf_nf_final ei s Hwf v h)].
    intros ->. cbn in Hnf. rewrite Hnf in Hv. by destruct Hv.
  - rewrite (swf_finalize ei s Hwf). apply new_voter_stake; [done..| |done]. by apply has_false.
Qed.

Lemma nf_voters_insert n :
  nf_voters (<[(nfv_signer n, nfv_block_hash n) := n]> (ss_nf_votes s)) (nfv_block_hash n)
  = {[nfv_signer n]} ∪ nf_voters (ss_nf_votes s) (nfv_block_hash n).
Proof.
  apply set_eq. intros v. rewrite elem_of_union, elem_of_singleton, !elem_of_nf_voters.
  rewrite lookup_insert_is_Some'. split.
  - intros [E|?]; [left; congruence|by right].
  - intros [->|?]; [by left|by right].
Qed.

Lemma nf_voters_insert_ne n h :
  h ≠ nfv_block_hash n →
  nf_voters (<[(nfv_signer n, nfv_block_hash n) := n]> (ss_nf_votes s)) h
  = nf_voters (ss_nf_votes s) h.
Proof.
  intros Hne. apply set_eq. intros v. rewrite !elem_of_nf_voters, lookup_insert_ne by congruence. done.
Qed.

Lemma counted_notar_fallback_wf n stake :
  acceptable ei s (Vote_NotarFallback n) stake →
  slot_wf ei (counted s (Vote_NotarFallback n) stake).
Proof using Hei Hwf.
  intros Hacc. pose proof (accepted_guards ei s _ _ Hacc) as (Hf & Hnone).
  destruct Hacc as [Hslot Hin Hst _ _]. cbn in Hslot, Hin, Hst, Hf, Hnone.
  open_counted.
  - by apply map_Forall_insert_2; [|apply Hwf].
  - intros v h [E|Hv]%lookup_insert_is_Some'; [|by apply (swf_nf_final ei s Hwf v h)].
    injection E as <- <-. rewrite voter_iff by done. by rewrite (proj2 (has_false _ _) Hf).
  - intros h. destruct (decide (h = nfv_block_hash n)) as [->|Hne].
    + rewrite lookup_insert_eq, nf_voters_insert. cbn.
      rewrite (swf_nf_stake ei s Hwf). apply (add_voter_stake ei Hei); [done..|].
      rewrite elem_of_nf_voters, Hnone. by intros [].
    + rewrite lookup_insert_ne, nf_voters_insert_ne by done. apply Hwf.
Qed.

Lemma new_top h x :
  (ss_top_notar_stake s = 0 ∨ ∃ h, SlotState_notar_stake_of s h = ss_top_notar_stake s) →
  0 <= SlotState_notar_stake_of s h <= x →
  Z.max (ss_top_notar_stake s) x = 0
  ∨ ∃ h', default 0 (<[h := x]> (ss_notar_stake s) !! h') = Z.max (ss_top_notar_stake s) x.
Proof.
  intros Htop Hx. destruct (Z.le_gt_cases (ss_top_notar_stake s) x) as [Hle|Hgt].
  - right. exists h. rewrite lookup_insert_eq. cbn. lia.
  - destruct Htop as [?|[h' Hh']]; [lia|]. right. exists h'.
    destruct (decide (h' = h)) as [->|Hne]; [lia|].
    rewrite lookup_insert_ne by done. unfold SlotState_notar_stake_of in Hh'. lia.
Qed.

Lemma counted_notar_wf n stake :
  acceptable ei s (Vote_Notar n) stake → slot_wf ei (counted s (Vote_Notar n) stake).
Proof using Hei Hwf.
  intros Hacc. pose proof (accepted_guards ei s _ _ Hacc) as (Hs & Hn).
  destruct Hacc as [Hslot Hin Hst _ _]. cbn in Hslot, Hin, Hst, Hs, Hn.
  destruct (signer_votes ei s (nv_signer n) Hwf Hin) as [(_ & Hv1 & Hv2 & Hv3 & Hv4) Hex].
  assert (Hnew : ∀ h, notar_for h (store_notar n (default ValidatorVotes_default
                        (ss_votes s !! nv_signer n))) = bool_decide (nv_block_hash n = h)) by done.
  assert (Hold : ∀ h, notar_for h (default ValidatorVotes_default (ss_votes s !! nv_signer n)) = false)
    by (intros h; unfold notar_for; by rewrite Hn).
  open_counted; try unchanged.
  - apply stored_votes; [done| |].
    + split_and!; try done. by intros ? [= <-].
    + destruct Hex as (_ & ? & ?). unfold votes_exclusive. cbn. by rewrite Hs in *.
  - intros v h Hv. rewrite same_voters_stake by done. by apply (swf_nf_final ei s Hwf v h).
  - intros h. destruct (decide (h = nv_block_hash n)) as [->|Hne].
    + rewrite lookup_insert_eq. cbn [default from_option id].
      rewrite (swf_notar ei s Hwf).
      apply (new_voter_stake (notar_for (nv_block_hash n))); [done..|apply Hold|].
      rewrite Hnew. by apply bool_decide_eq_true_2.
    + rewrite lookup_insert_ne, same_voters_stake; [apply Hwf|done| |done].
      rewrite Hnew, Hold. by apply bool_decide_eq_false_2.
  - rewrite (swf_notar_or_skip ei s Hwf).
    apply (new_voter_stake (λ vv, has vv_notar vv || has vv_skip vv)); [done..| |done].
    by rewrite (proj2 (has_false _ _) Hn), (proj2 (has_false _ _) Hs).
  - intros h. pose proof (swf_top_ge ei s Hwf h). unfold SlotState_notar_stake_of in *.
    destruct (decide (h = nv_block_hash n)) as [->|Hne].
    + rewrite lookup_insert_eq. cbn. lia.
    + rewrite lookup_insert_ne by done. lia.
  - apply new_top; [apply Hwf|].
    pose proof (swf_notar ei s Hwf (nv_block_hash n)) as E. rewrite E.
    rewrite (new_voter_stake (notar_for (nv_block_hash n)) (nv_signer n) (store_notar n
      (default ValidatorVotes_default (ss_votes s !! nv_signer n)))); [|done..|apply Hold|].
    + rewrite voters_insert_new by (done || (rewrite Hnew; by apply bool_decide_eq_true_2)).
      split; [by apply voters_stake_nonneg|]. apply voters_stake_mono; [done|set_solver].
    + rewrite Hnew. by apply bool_decide_eq_true_2.
Qed.
End counted.

(** ** [add_vote] against [counted] *)

Lemma update_vv_core v f s s' : core s = core s' → core (update_vv v f s) = core (update_vv v f s').
Proof. destruct s, s'. intros [= -> -> -> -> -> -> -> -> -> -> ->]. done. Qed.

Lemma set_nf_votes_core k n s s' :
  core s = core s' →
  core (set_ss_nf_votes (<[k := n]> (ss_nf_votes s)) s)
  = core (set_ss_nf_votes (<[k := n]> (ss_nf_votes s')) s').
Proof. destruct s, s'. intros [= -> -> -> -> -> -> -> -> -> -> ->]. done. Qed.

(** The part of [count_notar_stake] that runs before certificates are built. *)
Definition notar_counted (s : SlotState) (h : BlockHash) (stake : Z) : SlotState :=
  let notar_stake := u64_add (SlotState_notar_stake_of s h) stake in
  set_ss_top_notar_stake (Z.max (ss_top_notar_stake s) notar_stake)
    (set_ss_notar_or_skip_stake (u64_add (ss_notar_or_skip_stake s) stake)
      (set_ss_notar_stake (<[h := notar_stake]> (ss_notar_stake s)) s)).

Section add_vote.
Context `{!IterOrder (list Z)} (ei : EpochInfo).

(** The certificates of [count_notar_stake], from the state after the events. *)
Definition notar_certs (s : SlotState) (h : BlockHash) (notar_stake : Z)
    (out : SlotStateOutputs) : Outcome SlotStateOutputs :=
  out ← (if EpochInfo_is_quorum ei (u64_add (SlotState_nf_stake_of s h) notar_stake)
            && negb (SlotState_is_notar_fallback s h)
         then push_nf_cert s h ei out else mret out);
  out ← (if EpochInfo_is_quorum ei notar_stake && bool_decide (cs_notar (ss_certs s) = None) then
           c ← expect (NotarCert_try_new (SlotState_collect_notar s h) (ei_validators ei));
           mret (push_cert (Cert_Notar c) out)
         else mret out);
  (if EpochInfo_is_strong_quorum ei notar_stake
      && bool_decide (cs_fast_finalize (ss_certs s) = None) then
     c ← expect (FastFinalCert_try_new (SlotState_collect_notar s h) (ei_validators ei));
     mret (push_cert (Cert_FastFinal c) out)
   else mret out).

Lemma count_notar_stake_eq s h stake out :
  ∃ s1 out1, core s1 = core (notar_counted s h stake) ∧ ss_certs s1 = ss_certs s
    ∧ out_certs out1 = out_certs out
    ∧ SlotState_count_notar_stake s h stake ei out =
      (out2 ← notar_certs s1 h (u64_add (SlotState_notar_stake_of s h) stake) out1;
       mret (s1, out2))
    ∧ (∀ e, e ∈ out_events out1 →
         e ∈ out_events out ∨ e = PoolEvent_SafeToNotar (mkBlockId (ss_slot s) h)
         ∨ e = PoolEvent_SafeToSkip (ss_slot s)).
Proof.
  unfold SlotState_count_notar_stake. cbn zeta. fold (notar_counted s h stake).
  set (s0 := notar_counted s h stake).
  destruct (if bool_decide (h ∉ ss_sent_s2n s0) then _ else _) as [s1 out1] eqn:E1.
  assert (H1 : core s1 = core s0 ∧ ss_certs s1 = ss_certs s0 ∧ out_certs out1 = out_certs out
    ∧ ∀ e, e ∈ out_events out1 → e ∈ out_events out ∨ e = PoolEvent_SafeToNotar (mkBlockId (ss_slot s) h)).
  { pose proof (check_safe_to_notar_core s0 h ei) as Hc.
    pose proof (check_safe_to_notar_certs s0 h ei) as Hc'.
    change (SlotState_check_safe_to_notar _ h ei) with (SlotState_check_safe_to_notar s0 h ei) in E1.
    destruct (SlotState_check_safe_to_notar s0 h ei) as [r s1']. cbn in Hc, Hc'.
    case_bool_decide; cbn in E1; [|injection E1 as <- <-; auto].
    injection E1 as <- <-. rewrite push_s2n_certs. split_and!; [done..|].
    assert (Hs : ss_slot s1' = ss_slot s) by (unfold core in Hc; cbn in Hc; congruence). rewrite Hs.
    intros e. destruct r; cbn; [|auto..]. rewrite elem_of_app, list_elem_of_singleton. tauto. }
  pose proof (check_safe_to_skip_core s1 ei out1) as H2.
  pose proof (check_safe_to_skip_events s1 ei out1) as H3.
  destruct (check_safe_to_skip s1 ei out1) as [s2 out2]. cbn in H2, H3.
  exists s2, out2. destruct H1 as (? & ? & ? & Hev), H2 as (? & ? & ?).
  split_and!; [congruence| |congruence| |].
  - transitivity (ss_certs s0); [congruence|done].
  - unfold notar_certs. unfold mbind, Outcome_bind. by repeat case_match; simplify_eq.
  - assert (Hs : ss_slot s1 = ss_slot s) by (unfold core in *; cbn in *; congruence).
    intros e [He| ->]%H3; [apply Hev in He; tauto|rewrite Hs; auto].
Qed.

Lemma count_skip_stake_core s stake fb out s' out' :
  SlotState_count_skip_stake s stake fb ei out = Done (s', out') →
  core s' = core (if fb then set_ss_skip_fallback_stake (u64_add (ss_skip_fallback_stake s) stake) s
                  else set_ss_skip_stake (u64_add (ss_skip_stake s) stake) s).
Proof.
  unfold SlotState_count_skip_stake. set (s0 := if fb then _ else _).
  pose proof (process_pending_core s0 ei out) as (Hc & _ & _).
  destruct (SlotState_process_pending_safe_to_notar s0 ei out) as [s1 out1]. cbn in Hc.
  intros (out2 & _ & [= H])%bind_Done. rewrite <- Hc.
  pose proof (check_safe_to_skip_core s1 ei out2) as (Hc' & _). rewrite H in Hc'. done.
Qed.

Lemma add_vote_core s vote stake out s' out' :
  SlotState_add_vote s vote stake ei out = Done (s', out') → core s' = core (counted s vote stake).
Proof.
  unfold SlotState_add_vote. intros ([s1 out1] & Hr & Hfin)%bind_Done. injection Hfin as Hfin.
  assert (Hs : core s' = core s1).
  { destruct (_ =? _).
    - pose proof (process_pending_core s1 ei out1) as (Hc & _). by rewrite Hfin in Hc.
    - by injection Hfin as <- <-. }
  rewrite Hs. clear Hs Hfin. destruct vote as [n|n|n|n|n]; cbn [Vote_signer counted] in *.
  - apply bind_Done in Hr as ([s2 out2] & Hr & [= <- <-]).
    destruct (count_notar_stake_eq s (nv_block_hash n) stake out) as (s3 & out3 & Hc & _ & _ & E & _).
    rewrite E in Hr. apply bind_Done in Hr as (out4 & _ & [= <- <-]). by apply update_vv_core.
  - apply bind_Done in Hr as ([s2 out2] & Hr & [= <- <-]).
    unfold SlotState_count_notar_fallback_stake in Hr.
    apply bind_Done in Hr as (out4 & _ & [= <- <-]). done.
  - by apply count_skip_stake_core in Hr.
  - by apply count_skip_stake_core in Hr.
  - unfold SlotState_count_finalize_stake in Hr. apply bind_Done in Hr as (out4 & _ & [= <- <-]). done.
Qed.

(** ** Reachable slot states *)

Inductive slot_step : SlotState → SlotState → Prop :=
| step_add_vote s vote stake out s' out' :
    acceptable ei s vote stake → SlotState_add_vote s vote stake ei out = Done (s', out') →
    slot_step s s'
| step_add_cert s c : slot_step s (SlotState_add_cert s c)
| step_parent_known s h : slot_step s (SlotState_notify_parent_known s h)
| step_parent_certified s h r s' :
    SlotState_notify_parent_certified s h ei = Done (r, s') → slot_step s s'.

Lemma counted_wf s vote stake :
  epoch_wf ei → slot_wf ei s → acceptable ei s vote stake → slot_wf ei (counted s vote stake).
Proof.
  intros Hei Hwf Hacc. destruct vote.
  - by apply counted_notar_wf.
  - by apply counted_notar_fallback_wf.
  - by apply counted_skip_wf.
  - by apply counted_skip_fallback_wf.
  - by apply counted_final_wf.
Qed.

Lemma slot_step_wf s s' : epoch_wf ei → slot_wf ei s → slot_step s s' → slot_wf ei s'.
Proof.
  intros Hei Hwf Hstep. destruct Hstep as [s vote stake out s' out' Hacc E|s c|s h|s h r s' E].
  - eapply slot_wf_core; [by eapply add_vote_core|by apply counted_wf].
  - eapply slot_wf_core; [apply add_cert_core|done].
  - eapply slot_wf_core; [|exact Hwf]. unfold SlotState_notify_parent_known. by case_match.
  - eapply slot_wf_core; [|exact Hwf]. unfold SlotState_notify_parent_certified in E.
    apply bind_Done in E as (_ & _ & E).
    pose proof (check_safe_to_notar_core (set_ss_parents (<[h := Certified]> (ss_parents s)) s) h ei).
    case_bool_decide; [by injection E as <- <-|].
    destruct (SlotState_check_safe_to_notar _ h ei) as [r' s1]. by injection E as <- <-.
Qed.

Lemma slot_reachable_wf s s' :
  epoch_wf ei → slot_wf ei s → rtc slot_step s s' → slot_wf ei s'.
Proof. intros Hei Hwf H. induction H; eauto using slot_step_wf. Qed.

(** C4. Stake accounting.  In every state a slot can reach by accepted votes
    (those that pass [check_slashable_offence] and [should_ignore_vote]),
    certificates and parent notifications, every running total is exactly the
    stake of the distinct validators whose votes are on record: notar stake per
    block, notar-fallback stake per block, skip, skip-fallback, finalize,
    notar-or-skip, and the top notar stake is the maximum over the blocks; and
    no validator has conflicting votes on record (notar and skip, two kinds of
    skip, final and any skip or notar-fallback). *)
Theorem slot_accounting (slot own_id : Z) (s : SlotState) :
  epoch_wf ei → rtc slot_step (SlotState_new slot own_id) s → slot_wf ei s.
Proof. intros Hei. apply slot_reachable_wf; [done|apply slot_new_wf]. Qed.
End add_vote.

(** ** The votes a certificate collects *)

Section collect.
Context {W : Type} `{CertVote W} (g : ValidatorVotes → option W).

Lemma omap_signers (l : list (Z * ValidatorVotes)) :
  NoDup l.*1 → (∀ v vv w, (v, vv) ∈ l → g vv = Some w → cvote_signer w = v) →
  NoDup (cvote_signer <$> omap g l.*2)
  ∧ ∀ v, v ∈ cvote_signer <$> omap g l.*2 ↔ ∃ vv, (v, vv) ∈ l ∧ is_Some (g vv).
Proof.
  induction l as [|[v0 vv0] l IH]; intros Hnd Hg.
  { split; [constructor|]. intros v. cbn. set_solver. }
  cbn in Hnd. apply NoDup_cons in Hnd as [Hni Hnd].
  destruct IH as [IHnd IHin]; [done|intros; eapply Hg; [by right|done]|]. cbn.
  destruct (g vv0) as [w|] eqn:E.
  - pose proof (Hg v0 vv0 w ltac:(by left) E) as Hw. cbn. rewrite Hw. split.
    + constructor; [|done]. rewrite IHin. intros (vv & Hin & _). apply Hni.
      apply list_elem_of_fmap. by exists (v0, vv).
    + intros v. rewrite elem_of_cons, IHin. setoid_rewrite elem_of_cons. split.
      * intros [->|(vv & ? & ?)]; [exists vv0; split; [by left|by rewrite E]|eauto].
      * intros (vv & [[= -> ->]|?] & ?); eauto.
  - split; [done|]. intros v. rewrite IHin. setoid_rewrite elem_of_cons. split.
    + intros (vv & ? & ?). eauto.
    + intros (vv & [[= -> ->]|?] & Hs); [by rewrite E in Hs; destruct Hs|eauto].
Qed.

Lemma collect_ok ei slot bh (m : gmap Z ValidatorVotes) :
  (∀ v vv w, m !! v = Some vv → g vv = Some w →
     cvote_signer w = v ∧ cvote_slot w = slot ∧ cvote_hash w = bh ∧ in_epoch ei v) →
  let l := sort_by_signer cvote_signer (omap g (map_to_list m).*2) in
  votes_ok slot bh (ei_validators ei) l
  ∧ ∀ v, v ∈ cvote_signer <$> l ↔ ∃ vv, m !! v = Some vv ∧ is_Some (g vv).
Proof.
  intros Hg. cbv zeta. unfold sort_by_signer.
  assert (Hp : merge_sort (signer_le cvote_signer) (omap g (map_to_list m).*2)
               ≡ₚ omap g (map_to_list m).*2) by apply merge_sort_Permutation.
  destruct (omap_signers (map_to_list m)) as [Hnd Hin].
  { apply NoDup_fst_map_to_list. }
  { intros v vv w Hv Hw. apply elem_of_map_to_list in Hv. by apply (Hg v vv w). }
  unfold votes_ok. rewrite Hp. split_and!; [|done|].
  - apply Forall_forall. intros w. rewrite list_elem_of_omap.
    intros (vv & Hvv & Hw). apply list_elem_of_fmap in Hvv as ([v vv'] & -> & Hv).
    apply elem_of_map_to_list in Hv. by destruct (Hg v vv' w Hv Hw) as (<- & ? & ? & ?).
  - intros v. rewrite Hp, Hin. by setoid_rewrite elem_of_map_to_list.
Qed.

Lemma collect_voters ei slot bh (m : gmap Z ValidatorVotes) :
  (∀ v vv w, m !! v = Some vv → g vv = Some w →
     cvote_signer w = v ∧ cvote_slot w = slot ∧ cvote_hash w = bh ∧ in_epoch ei v) →
  let l := sort_by_signer cvote_signer (omap g (map_to_list m).*2) in
  votes_ok slot bh (ei_validators ei) l
  ∧ ∀ v, v ∈ cvote_signer <$> l ↔ v ∈ voters (has g) m.
Proof.
  intros Hg. destruct (collect_ok ei slot bh m Hg) as [Hok Hin]. split; [done|].
  intros v. rewrite Hin, elem_of_voters. unfold has. by setoid_rewrite bool_decide_eq_true.
Qed.
End collect.

Lemma filter_omap {A B} (f : A → option B) (P : B → Prop) {HP : ∀ x, Decision (P x)} (l : list A) :
  filter P (omap f l) = omap (λ x, y ← f x; if decide (P y) then Some y else None) l.
Proof.
  induction l as [|x l IH]; [done|]. cbn [omap list_omap] in *.
  destruct (f x) as [y|]; cbn [mbind option_bind]; [|done].
  rewrite filter_cons, IH. by case_decide.
Qed.

Section collected.
Context (ei : EpochInfo) (s : SlotState) (Hwf : slot_wf ei s).

Lemma collect_skip_ok :
  votes_ok (ss_slot s) None (ei_validators ei) (SlotState_collect_skip s)
  ∧ ∀ v, v ∈ sv_signer <$> SlotState_collect_skip s ↔ v ∈ voters (has vv_skip) (ss_votes s).
Proof using Hwf.
  refine (collect_voters vv_skip ei (ss_slot s) None (ss_votes s) _). intros v vv w Hv Hw.
  apply (swf_votes ei s Hwf) in Hv as [(? & _ & Hs & _) _]. naive_solver.
Qed.

Lemma collect_skip_fallback_ok :
  votes_ok (ss_slot s) None (ei_validators ei) (SlotState_collect_skip_fallback s)
  ∧ ∀ v, v ∈ sfv_signer <$> SlotState_collect_skip_fallback s
         ↔ v ∈ voters (has vv_skip_fallback) (ss_votes s).
Proof using Hwf.
  refine (collect_voters vv_skip_fallback ei (ss_slot s) None (ss_votes s) _). intros v vv w Hv Hw.
  apply (swf_votes ei s Hwf) in Hv as [(? & _ & _ & Hs & _) _]. naive_solver.
Qed.

Lemma collect_final_ok :
  votes_ok (ss_slot s) None (ei_validators ei) (SlotState_collect_final s)
  ∧ ∀ v, v ∈ fv_signer <$> SlotState_collect_final s ↔ v ∈ voters (has vv_finalize) (ss_votes s).
Proof using Hwf.
  refine (collect_voters vv_finalize ei (ss_slot s) None (ss_votes s) _). intros v vv w Hv Hw.
  apply (swf_votes ei s Hwf) in Hv as [(? & _ & _ & _ & Hs) _]. naive_solver.
Qed.

Lemma collect_notar_ok h :
  votes_ok (ss_slot s) (Some h) (ei_validators ei) (SlotState_collect_notar s h)
  ∧ ∀ v, v ∈ nv_signer <$> SlotState_collect_notar s h ↔ v ∈ voters (notar_for h) (ss_votes s).
Proof using Hwf.
  unfold SlotState_collect_notar. rewrite filter_omap.
  destruct (collect_ok (λ vv, y ← vv_notar vv; if decide (nv_block_hash y = h) then Some y else None)
    ei (ss_slot s) (Some h) (ss_votes s)) as [Hok Hin].
  - intros v vv w Hv Hw. apply (swf_votes ei s Hwf) in Hv as [(? & Hn & _) _].
    destruct (vv_notar vv) as [n|]; [|done]. cbn in Hw. case_decide; [|done].
    injection Hw as <-. destruct (Hn n eq_refl). cbn. naive_solver.
  - split; [done|]. intros v. rewrite Hin, elem_of_voters. unfold notar_for.
    split; intros (vv & Hv & Hx); exists vv; (split; [done|]).
    + destruct (vv_notar vv) as [n|]; cbn in Hx; [|by destruct Hx].
      case_decide; [by apply bool_decide_eq_true|by destruct Hx].
    + destruct (vv_notar vv) as [n|]; [|done]. cbn. apply bool_decide_eq_true in Hx.
      rewrite decide_True by done. done.
Qed.
End collected.

(** ** Skip and final certificates *)

(** What another node checks before it accepts a certificate, and that the
    vote of [v] is part of it. *)
Definition cert_valid (ei : EpochInfo) (slot v : Z) (c : Cert) : Prop :=
  Cert_slot c = slot ∧ Cert_check_threshold c ei = true
  ∧ Cert_check_sig c (ei_validators ei) = Done true ∧ Cert_is_signer c v = true.

Section certs.
Context (ei : EpochInfo) (Hei : epoch_wf ei).

Lemma skip_voters_disjoint (s : SlotState) :
  slot_wf ei s → voters (has vv_skip) (ss_votes s) ## voters (has vv_skip_fallback) (ss_votes s).
Proof.
  intros Hwf v. rewrite !elem_of_voters. intros (vv & Hv & H1) (vv' & Hv' & H2).
  rewrite Hv in Hv'. injection Hv' as <-. apply (swf_votes ei s Hwf) in Hv as [_ (_ & Hx & _)].
  unfold has in *. apply bool_decide_eq_true in H1, H2. rewrite (Hx H1) in H2. by destruct H2.
Qed.

Lemma count_skip_cert (s : SlotState) (v : Z) :
  slot_wf ei s →
  v ∈ voters (has vv_skip) (ss_votes s) ∪ voters (has vv_skip_fallback) (ss_votes s) →
  EpochInfo_is_quorum ei (u64_add (ss_skip_stake s) (ss_skip_fallback_stake s)) = true →
  ∃ c, SkipCert_try_new (SlotState_collect_skip s) (SlotState_collect_skip_fallback s)
         (ei_validators ei) = Done (Ok c) ∧ cert_valid ei (ss_slot s) v (Cert_Skip c).
Proof using Hei.
  intros Hwf Hv Hq.
  destruct (collect_skip_ok ei s Hwf) as [Hok1 Hin1].
  destruct (collect_skip_fallback_ok ei s Hwf) as [Hok2 Hin2].
  pose proof (skip_voters_disjoint s Hwf) as Hd.
  assert (Hne : SlotState_collect_skip s ≠ [] ∨ SlotState_collect_skip_fallback s ≠ []).
  { apply elem_of_union in Hv as [Hv|Hv]; [left; rewrite <- Hin1 in Hv|right; rewrite <- Hin2 in Hv];
      intros E; rewrite E in Hv; by apply elem_of_nil in Hv. }
  destruct (SkipCert_try_new_ok _ _ _ _ (ewf_count ei Hei) Hne Hok1 Hok2)
    as (c & E & Hslot & Hn1 & Hn2 & Hsig).
  set (U := voters (has vv_skip) (ss_votes s) ∪ voters (has vv_skip_fallback) (ss_votes s)) in *.
  assert (HU : ∀ j, 0 <= j → Cert_is_signer (Cert_Skip c) j = bool_decide (j ∈ U)).
  { intros j Hj. rewrite Hsig, <- bool_decide_or by done. apply bool_decide_ext.
    unfold U. by rewrite elem_of_union, Hin1, Hin2. }
  exists c. split; [done|]. split_and!; [done| | |].
  - apply check_threshold_iff; [done|]. rewrite (signers_stake_voters _ ei U) by done.
    apply fraction_is_met_iff in Hq.
    rewrite (swf_skip ei s Hwf), (swf_skip_fallback ei s Hwf) in Hq.
    rewrite add_disjoint_stake in Hq by done. exact Hq.
  - cbn [Cert_check_sig]. by rewrite !verify_agg_opt_ok.
  - rewrite HU; [by apply bool_decide_eq_true_2|].
    apply elem_of_union in Hv as [Hv|Hv]; apply elem_of_voters in Hv as (vv & Hv & _);
      by apply (swf_votes ei s Hwf) in Hv as [([? _] & _) _].
Qed.

Lemma count_final_cert (s : SlotState) (v : Z) :
  slot_wf ei s → v ∈ voters (has vv_finalize) (ss_votes s) →
  EpochInfo_is_quorum ei (ss_finalize_stake s) = true →
  ∃ c, FinalCert_try_new (SlotState_collect_final s) (ei_validators ei) = Done (Ok c)
       ∧ cert_valid ei (ss_slot s) v (Cert_Final c).
Proof using Hei.
  intros Hwf Hv Hq. destruct (collect_final_ok ei s Hwf) as [Hok Hin].
  destruct (SlotState_collect_final s) as [|f fs] eqn:Ef.
  { rewrite <- Hin in Hv. by apply elem_of_nil in Hv. }
  assert (Hfs : fv_slot f = ss_slot s) by (destruct Hok as [H _]; by apply Forall_cons in H as [(? & _) _]).
  rewrite <- Hfs in Hok.
  destruct (FinalCert_try_new_ok f fs (ei_validators ei) (ewf_count ei Hei) Hok)
    as (c & E & Hslot & Hn & Hsig).
  assert (HU : ∀ j, 0 <= j → Cert_is_signer (Cert_Final c) j
                             = bool_decide (j ∈ voters (has vv_finalize) (ss_votes s))).
  { intros j Hj. cbn [Cert_is_signer]. rewrite Hsig by done. apply bool_decide_ext, Hin. }
  exists c. split; [done|]. split_and!; [cbn; congruence| | |].
  - apply check_threshold_iff; [done|]. rewrite (signers_stake_voters _ ei _ Hei HU).
    apply fraction_is_met_iff in Hq. by rewrite (swf_finalize ei s Hwf) in Hq.
  - cbn [Cert_check_sig]. apply (verify_agg_opt_ok _ (Some (fc_agg_sig c))); [done|].
    by intros ? [= <-].
  - rewrite HU; [by apply bool_decide_eq_true_2|]. apply elem_of_voters in Hv as (vv & Hv & _).
    by apply (swf_votes ei s Hwf) in Hv as [([? _] & _) _].
Qed.
End certs.

Lemma core_fields s s' :
  core s' = core s →
  ss_slot s' = ss_slot s ∧ ss_votes s' = ss_votes s ∧ ss_skip_stake s' = ss_skip_stake s
  ∧ ss_skip_fallback_stake s' = ss_skip_fallback_stake s ∧ ss_finalize_stake s' = ss_finalize_stake s.
Proof. destruct s, s'. intros [= -> -> -> -> -> -> -> -> -> -> ->]. done. Qed.

Section add_vote_certs.
Context `{!IterOrder (list Z)} (ei : EpochInfo) (Hei : epoch_wf ei).

(** The counting functions append [new] certificates, all valid; one is new
    exactly when the quorum is met and no such certificate is stored yet. *)
Lemma count_skip_spec s stake (fb : bool) out v :
  let s0 := if fb then set_ss_skip_fallback_stake (u64_add (ss_skip_fallback_stake s) stake) s
            else set_ss_skip_stake (u64_add (ss_skip_stake s) stake) s in
  slot_wf ei s0 →
  v ∈ voters (has vv_skip) (ss_votes s0) ∪ voters (has vv_skip_fallback) (ss_votes s0) →
  ∃ s' out' new, SlotState_count_skip_stake s stake fb ei out = Done (s', out')
    ∧ core s' = core s0 ∧ out_certs out' = out_certs out ++ new
    ∧ Forall (cert_valid ei (ss_slot s0) v) new
    ∧ (new ≠ [] ↔ EpochInfo_is_quorum ei (u64_add (ss_skip_stake s0) (ss_skip_fallback_stake s0))
                  = true ∧ cs_skip (ss_certs s) = None).
Proof using Hei.
  intros s0 Hwf Hv. unfold SlotState_count_skip_stake. fold s0.
  pose proof (process_pending_core s0 ei out) as (Hc & Hcerts & Ho).
  destruct (SlotState_process_pending_safe_to_notar s0 ei out) as [s1 out1]. cbn in Hc, Hcerts, Ho.
  assert (Hcs : ss_certs s1 = ss_certs s) by (rewrite Hcerts; unfold s0; by destruct fb).
  destruct (core_fields _ _ Hc) as (Hslot & Hvotes & Hsk & Hsf & _).
  apply (slot_wf_core ei _ _ Hc) in Hwf. rewrite <- Hvotes in Hv. rewrite <- Hsk, <- Hsf, <- Hslot, <- Hcs.
  destruct (EpochInfo_is_quorum ei _) eqn:Hq; cbn [andb].
  - destruct (count_skip_cert ei Hei s1 v Hwf Hv Hq) as (c & E & Hval).
    case_bool_decide as Hnone; unfold expect; rewrite ?E, ?Done_bind;
      pose proof (check_safe_to_skip_core s1 ei (if decide (cs_skip (ss_certs s1) = None)
        then push_cert (Cert_Skip c) out1 else out1)) as (Hc2 & _ & Ho2).
    + rewrite decide_True in Hc2, Ho2 by done. destruct (check_safe_to_skip s1 ei _) as [s2 out2].
      exists s2, out2, [Cert_Skip c]. split_and!; [done|cbn in *; congruence| |by apply Forall_singleton|done].
      cbn in Ho2. by rewrite Ho2, Ho.
    + rewrite decide_False in Hc2, Ho2 by done. destruct (check_safe_to_skip s1 ei _) as [s2 out2].
      exists s2, out2, []. rewrite app_nil_r. cbn in *. split_and!; [done|congruence|congruence|done|].
      naive_solver.
  - pose proof (check_safe_to_skip_core s1 ei out1) as (Hc2 & _ & Ho2). rewrite Done_bind.
    destruct (check_safe_to_skip s1 ei out1) as [s2 out2]. exists s2, out2, []. rewrite app_nil_r.
    cbn in *. split_and!; [done|congruence|congruence|done|naive_solver].
Qed.

Lemma count_finalize_spec s stake out v :
  let s0 := set_ss_finalize_stake (u64_add (ss_finalize_stake s) stake) s in
  slot_wf ei s0 → v ∈ voters (has vv_finalize) (ss_votes s0) →
  ∃ s' out' new, SlotState_count_finalize_stake s stake ei out = Done (s', out')
    ∧ core s' = core s0 ∧ out_certs out' = out_certs out ++ new
    ∧ Forall (cert_valid ei (ss_slot s0) v) new
    ∧ (new ≠ [] ↔ EpochInfo_is_quorum ei (ss_finalize_stake s0) = true
                  ∧ cs_finalize (ss_certs s) = None).
Proof using Hei.
  intros s0 Hwf Hv. unfold SlotState_count_finalize_stake. fold s0.
  change (ss_certs s0) with (ss_certs s).
  destruct (EpochInfo_is_quorum ei (ss_finalize_stake s0)) eqn:Hq; cbn [andb].
  - destruct (count_final_cert ei Hei s0 v Hwf Hv Hq) as (c & E & Hval).
    case_bool_decide as Hnone; unfold expect; rewrite ?E, ?Done_bind.
    + exists s0, (push_cert (Cert_Final c) out), [Cert_Final c].
      split_and!; try done. by apply Forall_singleton.
    + exists s0, out, []. rewrite app_nil_r. split_and!; try done. naive_solver.
  - exists s0, out, []. rewrite app_nil_r. split_and!; try done. naive_solver.
Qed.

(** The quorum that the vote may complete, in the state after it. *)
Definition completes (s s' : SlotState) (vote : Vote) : Prop :=
  match vote with
  | Vote_Final _ => EpochInfo_is_quorum ei (ss_finalize_stake s') = true
                    ∧ cs_finalize (ss_certs s) = None
  | _ => EpochInfo_is_quorum ei (u64_add (ss_skip_stake s') (ss_skip_fallback_stake s')) = true
         ∧ cs_skip (ss_certs s) = None
  end.

Definition skip_or_final (vote : Vote) : Prop :=
  match vote with
  | Vote_Skip _ | Vote_SkipFallback _ | Vote_Final _ => True
  | _ => False
  end.

Lemma own_votes_pass s1 out1 (b : bool) :
  let r := if b then SlotState_process_pending_safe_to_notar s1 ei out1 else (s1, out1) in
  core r.1 = core s1 ∧ out_certs r.2 = out_certs out1.
Proof. destruct b; [|done]. by destruct (process_pending_core s1 ei out1) as (? & _ & ?). Qed.

(** C36. Skip and final certificates are sound and timely.  Adding an accepted
    skip, skip-fallback or final vote never panics; every certificate it
    creates is for this slot, passes the stake threshold and signature checks
    other nodes apply and includes the vote; and one is created exactly when
    the votes now on record reach the quorum and none is stored yet. *)
Theorem skip_and_final_certs_valid (s : SlotState) (vote : Vote) (stake : Z)
    (out : SlotStateOutputs) :
  slot_wf ei s → acceptable ei s vote stake → skip_or_final vote →
  ∃ s' out' new, SlotState_add_vote s vote stake ei out = Done (s', out')
    ∧ out_certs out' = out_certs out ++ new
    ∧ Forall (cert_valid ei (ss_slot s) (Vote_signer vote)) new
    ∧ (new ≠ [] ↔ completes s s' vote).
Proof using Hei.
  intros Hwf Hacc Hk. pose proof (counted_wf ei s vote stake Hei Hwf Hacc) as Hwf'.
  unfold SlotState_add_vote.
  assert (Hcount : ∀ r, (∃ s1 out1 new, r = Done (s1, out1) ∧ core s1 = core (counted s vote stake)
      ∧ out_certs out1 = out_certs out ++ new
      ∧ Forall (cert_valid ei (ss_slot s) (Vote_signer vote)) new
      ∧ (new ≠ [] ↔ completes s (counted s vote stake) vote)) →
    ∃ s' out' new, (r ≫= λ r, mret (if Vote_signer vote =? ss_own_id r.1
        then SlotState_process_pending_safe_to_notar r.1 ei r.2 else r)) = Done (s', out')
      ∧ out_certs out' = out_certs out ++ new
      ∧ Forall (cert_valid ei (ss_slot s) (Vote_signer vote)) new ∧ (new ≠ [] ↔ completes s s' vote)).
  { intros r (s1 & out1 & new & -> & Hc & Ho & Hval & Hiff). rewrite Done_bind. cbn [fst snd].
    pose proof (own_votes_pass s1 out1 (Vote_signer vote =? ss_own_id s1)) as [Hc2 Ho2].
    destruct (if _ =? _ then _ else _) as [s2 out2]. cbn in Hc2, Ho2. exists s2, out2, new.
    rewrite Hc in Hc2. destruct (core_fields _ _ Hc2) as (_ & _ & E1 & E2 & E3).
    split_and!; [done|congruence|done|]. rewrite Hiff. unfold completes. by rewrite E1, E2, E3. }
  apply Hcount. clear Hcount. destruct vote as [n|n|n|n|n]; try done; cbn [Vote_signer].
  - destruct (count_skip_spec (set_ss_notar_or_skip_stake (u64_add (ss_notar_or_skip_stake s) stake)
      (update_vv (sv_signer n) (store_skip n) s)) stake false out (sv_signer n) Hwf')
      as (s1 & out1 & new & ?); [|by exists s1, out1, new].
    apply elem_of_union_l. cbn. rewrite voters_insert_new by done. set_solver.
  - destruct (count_skip_spec (update_vv (sfv_signer n) (store_skip_fallback n) s) stake true out
      (sfv_signer n) Hwf') as (s1 & out1 & new & ?); [|by exists s1, out1, new].
    apply elem_of_union_r. cbn. rewrite voters_insert_new by done. set_solver.
  - destruct (count_finalize_spec (update_vv (fv_signer n) (store_final n) s) stake out
      (fv_signer n) Hwf') as (s1 & out1 & new & ?); [|by exists s1, out1, new].
    cbn. rewrite voters_insert_new by done. set_solver.
Qed.
End add_vote_certs.

(** ** Notarization certificates *)

Section notar_certs.
Context `{!IterOrder (list Z)} (ei : EpochInfo) (Hei : epoch_wf ei).

Lemma expect_Done {A E} (m : Outcome (result A E)) a : expect m = Done a → m = Done (Ok a).
Proof. unfold expect. destruct m as [[a'|e]|]; cbn; try done. by intros [= ->]. Qed.

(** Where the certificates of [count_notar_stake] come from. *)
Definition notar_cert_source (s : SlotState) (h : BlockHash) (c : Cert) : Prop :=
  match c with
  | Cert_Notar c =>
      NotarCert_try_new (SlotState_collect_notar s h) (ei_validators ei) = Done (Ok c)
  | Cert_FastFinal c =>
      FastFinalCert_try_new (SlotState_collect_notar s h) (ei_validators ei) = Done (Ok c)
  | Cert_NotarFallback _ => True
  | _ => False
  end.

Lemma notar_certs_source s h st out out' :
  notar_certs ei s h st out = Done out' →
  ∃ new, out_certs out' = out_certs out ++ new ∧ Forall (notar_cert_source s h) new.
Proof.
  unfold notar_certs. intros (o1 & H1 & (o2 & H2 & H3)%bind_Done)%bind_Done.
  assert (E1 : ∃ n1, out_certs o1 = out_certs out ++ n1 ∧ Forall (notar_cert_source s h) n1).
  { destruct (_ && _) in H1; [|injection H1 as <-; exists []; by rewrite app_nil_r].
    apply bind_Done in H1 as (c & _ & [= <-]). exists [Cert_NotarFallback c].
    split; [done|]. by apply Forall_singleton. }
  assert (E2 : ∃ n2, out_certs o2 = out_certs o1 ++ n2 ∧ Forall (notar_cert_source s h) n2).
  { destruct (_ && _) in H2; [|injection H2 as <-; exists []; by rewrite app_nil_r].
    apply bind_Done in H2 as (c & Hc%expect_Done & [= <-]). exists [Cert_Notar c].
    split; [done|]. by apply Forall_singleton. }
  assert (E3 : ∃ n3, out_certs out' = out_certs o2 ++ n3 ∧ Forall (notar_cert_source s h) n3).
  { destruct (_ && _) in H3; [|injection H3 as <-; exists []; by rewrite app_nil_r].
    apply bind_Done in H3 as (c & Hc%expect_Done & [= <-]). exists [Cert_FastFinal c].
    split; [done|]. by apply Forall_singleton. }
  destruct E1 as (n1 & E1 & F1), E2 as (n2 & E2 & F2), E3 as (n3 & E3 & F3).
  exists (n1 ++ n2 ++ n3). rewrite E3, E2, E1, <- !app_assoc. split; [done|].
  by rewrite !Forall_app.
Qed.

(** Both kinds are signed by exactly the notar voters on record. *)
Lemma notar_cert_signers s h c :
  slot_wf ei s → notar_cert_source s h c → (∀ x, c ≠ Cert_NotarFallback x) →
  ∀ j, 0 <= j → Cert_is_signer c j = bool_decide (j ∈ voters (notar_for h) (ss_votes s)).
Proof using Hei.
  intros Hwf Hsrc Hnf j Hj. destruct (collect_notar_ok ei s Hwf h) as [Hok Hin].
  destruct (SlotState_collect_notar s h) as [|n ns] eqn:En.
  { destruct c; cbn in Hsrc; rewrite ?En in Hsrc; try done. by destruct (Hnf c). }
  assert (Hn : nv_slot n = ss_slot s ∧ nv_block_hash n = h).
  { destruct Hok as [Hall _]. apply Forall_cons in Hall as [(? & [= ?] & _) _]. done. }
  destruct Hn as [Hs Hh]. rewrite <- Hs, <- Hh in Hok.
  destruct (NotarCert_try_new_ok n ns (ei_validators ei) (ewf_count ei Hei) Hok)
    as (c' & E & _ & _ & _ & Hsig).
  assert (Hb : bool_decide (j ∈ nv_signer <$> n :: ns)
               = bool_decide (j ∈ voters (notar_for h) (ss_votes s))) by apply bool_decide_ext, Hin.
  destruct c as [c|c|c|c|c]; cbn [notar_cert_source] in Hsrc; rewrite ?En in Hsrc; try done.
  - rewrite E in Hsrc. injection Hsrc as <-. cbn. by rewrite Hsig.
  - by destruct (Hnf c).
  - unfold FastFinalCert_try_new in Hsrc. rewrite E, Done_bind in Hsrc.
    injection Hsrc as <-. cbn. by rewrite Hsig.
Qed.

(** Notarization certificates miss the vote that completes them.
    [add_vote] counts a notar vote before it stores it, and builds the
    certificate from the stored votes: every notarization or fast-final
    certificate it emits is not signed by the voter, and carries exactly the
    stake on record before the vote.  When this vote is the one that reaches
    the quorum, the certificate therefore fails [check_threshold], the check
    every receiving node applies. *)
Theorem notar_cert_misses_completing_vote (s : SlotState) (n : NotarVote) (stake : Z)
    (out out' : SlotStateOutputs) (s' : SlotState) :
  slot_wf ei s → acceptable ei s (Vote_Notar n) stake →
  SlotState_add_vote s (Vote_Notar n) stake ei out = Done (s', out') →
  ∃ new, out_certs out' = out_certs out ++ new ∧
    Forall (λ c, (∀ x, c ≠ Cert_NotarFallback x) →
                 Cert_is_signer c (nv_signer n) = false
                 ∧ cert_signers_stake c ei = SlotState_notar_stake_of s (nv_block_hash n)
                 ∧ (EpochInfo_is_quorum ei (SlotState_notar_stake_of s (nv_block_hash n)) = false →
                    Cert_check_threshold c ei = false)) new.
Proof using Hei.
  intros Hwf Hacc Hadd. pose proof (accepted_guards ei s _ _ Hacc) as [_ Hnone].
  destruct Hacc as [_ [Hpos _] _ _ _]. cbn in Hnone, Hpos.
  unfold SlotState_add_vote in Hadd. apply bind_Done in Hadd as ([s1 out1] & Hr & Hfin).
  injection Hfin as Hfin. cbn [fst snd] in Hfin.
  pose proof (own_votes_pass ei s1 out1 (nv_signer n =? ss_own_id s1)) as [_ Ho].
  rewrite Hfin in Ho. cbn in Ho. apply bind_Done in Hr as ([s2 out2] & Hr & [= <- <-]).
  set (h := nv_block_hash n) in *.
  destruct (count_notar_stake_eq ei s h stake out) as (s3 & out3 & Hc & _ & Ho3 & E & _).
  rewrite E in Hr. apply bind_Done in Hr as (out4 & Hcerts & [= <- <-]).
  apply notar_certs_source in Hcerts as (new & Hnew & Hsrc). exists new.
  split; [by rewrite Ho, Hnew, Ho3|]. eapply Forall_impl; [exact Hsrc|]. intros c Hc' Hnf.
  (* the votes on record are those before this vote *)
  assert (Hv : ss_votes s3 = ss_votes s) by (by apply core_fields in Hc as (_ & -> & _)).
  assert (Hcs : SlotState_collect_notar s3 h = SlotState_collect_notar s h)
    by (unfold SlotState_collect_notar; by rewrite Hv).
  assert (Hsrc' : notar_cert_source s h c) by (destruct c; cbn in *; by rewrite ?Hcs in Hc').
  pose proof (notar_cert_signers s h c Hwf Hsrc' Hnf) as Hsig.
  assert (Hst : cert_signers_stake c ei = SlotState_notar_stake_of s h)
    by (by rewrite (signers_stake_voters c ei _ Hei Hsig), (swf_notar ei s Hwf)).
  split_and!; [|done|].
  - rewrite Hsig by done. apply bool_decide_eq_false_2. rewrite voter_iff by done.
    unfold notar_for. by rewrite Hnone.
  - intros Hq. apply not_true_iff_false. rewrite check_threshold_iff, Hst by done.
    apply not_true_iff_false in Hq. intros Hle. apply Hq, fraction_is_met_iff.
    pose proof (voters_stake_nonneg ei (voters (notar_for h) (ss_votes s)) Hei).
    pose proof (voters_stake_le ei (voters (notar_for h) (ss_votes s)) Hei).
    unfold QUORUM_NUMER, QUORUM_DENOM. destruct c; cbn in Hle; unfold QUORUM_NUMER, STRONG_QUORUM_NUMER in Hle; lia.
Qed.

Lemma collect_nf_empty s h : nf_voters (ss_nf_votes s) h = ∅ → SlotState_collect_nf s h = [].
Proof.
  intros Hnf. unfold SlotState_collect_nf, sort_by_signer.
  destruct (filter _ _) as [|[[v h'] n] l] eqn:E; [done|]. exfalso.
  assert (Hin : (v, h', n) ∈ filter (λ kv : Z * list Z * NotarFallbackVote, kv.1.2 = h)
                               (map_to_list (ss_nf_votes s))) by (rewrite E; by left).
  apply list_elem_of_filter in Hin as [<- Hin%elem_of_map_to_list]. cbn in *.
  assert (Hv : v ∈ nf_voters (ss_nf_votes s) h') by (apply elem_of_nf_voters; by eexists).
  set_solver.
Qed.

(** The same ordering makes a lone quorum fatal: when no notar or
    notar-fallback vote for the block is on record and the first one comes from
    a validator that holds a quorum by itself (as in a single-validator
    cluster), the certificate is built from an empty list and [add_vote]
    panics. *)
Theorem lone_quorum_notar_panics (s : SlotState) (n : NotarVote) (stake : Z)
    (out : SlotStateOutputs) :
  slot_wf ei s → acceptable ei s (Vote_Notar n) stake →
  voters (notar_for (nv_block_hash n)) (ss_votes s) = ∅ →
  nf_voters (ss_nf_votes s) (nv_block_hash n) = ∅ →
  SlotState_is_notar_fallback s (nv_block_hash n) = false →
  EpochInfo_is_quorum ei stake = true →
  SlotState_add_vote s (Vote_Notar n) stake ei out = Panicked.
Proof using Hei.
  intros Hwf Hacc Hv Hnf Hcert Hq. destruct Hacc as [_ Hin Hstake _ _]. cbn in Hin, Hstake.
  unfold SlotState_add_vote. set (h := nv_block_hash n) in *.
  destruct (count_notar_stake_eq ei s h stake out) as (s3 & out3 & Hc & Hcs & _ & -> & _).
  assert (Hst : u64_add (SlotState_notar_stake_of s h) stake = stake ∧ u64_add 0 stake = stake).
  { rewrite (swf_notar ei s Hwf), Hv, voters_stake_empty.
    pose proof (add_voter_stake ei Hei ∅ (nv_signer n) stake Hin Hstake ltac:(set_solver)) as E.
    rewrite voters_stake_empty in E. split; rewrite E;
    destruct Hstake as (info & Hi & <-); destruct Hin as [Hpos _];
    pose proof (voters_stake_add ei ∅ _ info Hei Hi ltac:(set_solver)) as E';
    rewrite (Z2Nat.id _ Hpos), voters_stake_empty in E'; lia. }
  destruct Hst as [-> Hst0].
  assert (Hv3 : ss_votes s3 = ss_votes s ∧ ss_nf_votes s3 = ss_nf_votes s ∧ ss_nf_stake s3 = ss_nf_stake s).
  { destruct s3, s. by injection Hc as -> -> -> -> -> -> -> -> -> -> ->. }
  destruct Hv3 as (Hv3 & Hnf3 & Hns3).
  unfold notar_certs. unfold SlotState_nf_stake_of. rewrite Hns3.
  fold (SlotState_nf_stake_of s h). rewrite (swf_nf_stake ei s Hwf), Hnf, voters_stake_empty, Hst0, Hq.
  assert (Hcert3 : SlotState_is_notar_fallback s3 h = false)
    by (unfold SlotState_is_notar_fallback in *; by rewrite Hcs).
  rewrite Hcert3. cbn [andb negb]. unfold push_nf_cert.
  assert (En : SlotState_collect_notar s3 h = []).
  { destruct (collect_notar_ok ei s Hwf h) as [_ Hi].
    unfold SlotState_collect_notar in *. rewrite Hv3.
    destruct (sort_by_signer _ _) as [|x xs]; [done|]. exfalso.
    specialize (Hi (nv_signer x)). rewrite Hv in Hi. cbn in Hi. set_solver. }
  assert (Ef : SlotState_collect_nf s3 h = []) by (apply collect_nf_empty; by rewrite Hnf3).
  rewrite En, Ef. done.
Qed.
End notar_certs.

(** ** Witnesses

    Two validators hold 4 and 6 of a stake of 10; the second one alone is a quorum. *)
Definition duo_epoch : EpochInfo :=
  mkEpochInfo [mkValidatorInfo 0 4 [] []; mkValidatorInfo 1 6 [] []] 10.
Lemma duo_wf : epoch_wf duo_epoch.
Proof.
  split; [|repeat constructor; discriminate|reflexivity|discriminate|cbn; lia].
  intros [|[|i]] v; cbn; [intros [= <-]; reflexivity..|discriminate].
Qed.
#[local] Instance duo_order : IterOrder (list Z) := elements_order (list Z).

(** The first validator's notar vote for a block of slot 8, and the state after it. *)
Definition duo_notar (signer : Z) : NotarVote := mkNotarVote 8 [7] [] signer.
Definition duo_after : SlotState :=
  match SlotState_add_vote (SlotState_new 8 0) (Vote_Notar (duo_notar 0)) 4 duo_epoch Outputs_default with
  | Done (s, _) => s
  | Panicked => SlotState_new 8 0
  end.
Lemma duo_accept0 : acceptable duo_epoch (SlotState_new 8 0) (Vote_Notar (duo_notar 0)) 4.
Proof. split; try reflexivity; [split; cbv; congruence|]. eexists. split; reflexivity. Qed.
Lemma duo_after_run :
  ∃ out, SlotState_add_vote (SlotState_new 8 0) (Vote_Notar (duo_notar 0)) 4 duo_epoch Outputs_default
         = Done (duo_after, out).
Proof. eexists. vm_compute. reflexivity. Qed.
Lemma duo_accept1 : acceptable duo_epoch duo_after (Vote_Notar (duo_notar 1)) 6.
Proof.
  split; [vm_compute; reflexivity|split; cbv; congruence| |vm_compute; reflexivity..].
  eexists. split; reflexivity.
Qed.

Lemma slot_accounting_witness :
  slot_wf duo_epoch duo_after ∧ SlotState_notar_stake_of duo_after [7] = 4.
Proof.
  split; [|vm_compute; reflexivity].
  apply (slot_accounting duo_epoch 8 0 duo_after duo_wf).
  destruct duo_after_run as [out E]. apply rtc_once. eapply step_add_vote; [exact duo_accept0|exact E].
Defined.

Lemma skip_and_final_certs_valid_witness :
  let vote := Vote_Skip (mkSkipVote 8 [] 1) in
  ∃ s' out' new, SlotState_add_vote (SlotState_new 8 0) vote 6 duo_epoch Outputs_default = Done (s', out')
    ∧ out_certs out' = new ∧ length new = 1%nat ∧ Forall (cert_valid duo_epoch 8 1) new.
Proof.
  intros vote.
  destruct (skip_and_final_certs_valid duo_epoch duo_wf (SlotState_new 8 0) vote 6 Outputs_default)
    as (s' & out' & new & E & Hnew & Hval & _).
  - apply slot_new_wf.
  - split; try reflexivity; [split; cbv; congruence|]. eexists. split; reflexivity.
  - exact I.
  - exists s', out', new. split; [exact E|]. split; [exact Hnew|]. split; [|exact Hval].
    rewrite app_nil_l in Hnew. subst new. vm_compute in E. injection E as _ <-. reflexivity.
Defined.

Lemma notar_cert_misses_completing_vote_witness :
  ∃ s' out', SlotState_add_vote duo_after (Vote_Notar (duo_notar 1)) 6 duo_epoch Outputs_default = Done (s', out')
    ∧ ∃ c, Cert_Notar c ∈ out_certs out' ∧ Cert_check_threshold (Cert_Notar c) duo_epoch = false.
Proof.
  destruct (SlotState_add_vote duo_after (Vote_Notar (duo_notar 1)) 6 duo_epoch Outputs_default)
    as [[s' out']|] eqn:E; [|vm_compute in E; discriminate].
  exists s', out'. split; [reflexivity|].
  destruct (notar_cert_misses_completing_vote duo_epoch duo_wf duo_after (duo_notar 1) 6 Outputs_default out' s')
    as (new & Hnew & Hall).
  - destruct duo_after_run as [out E0]. eapply slot_step_wf; [exact duo_wf|apply (slot_new_wf _ 8 0)|].
    eapply step_add_vote; [exact duo_accept0|exact E0].
  - exact duo_accept1.
  - exact E.
  - rewrite Hnew, app_nil_l.
    assert (Hc : ∃ c, Cert_Notar c ∈ new).
    { rewrite app_nil_l in Hnew. subst new. vm_compute in E. injection E as _ <-.
      eexists. apply list_elem_of_further, list_elem_of_here. }
    destruct Hc as [c Hc]. exists c. split; [exact Hc|]. rewrite Forall_forall in Hall.
    apply (Hall _ Hc); [discriminate|vm_compute; reflexivity].
Defined.

Lemma lone_quorum_notar_panics_witness :
  SlotState_add_vote (SlotState_new 8 0) (Vote_Notar (duo_notar 1)) 6 duo_epoch Outputs_default = Panicked.
Proof.
  apply (lone_quorum_notar_panics duo_epoch duo_wf).
  - apply slot_new_wf.
  - split; try reflexivity; [split; cbv; congruence|]. eexists. split; reflexivity.
  - vm_compute. reflexivity.
  - vm_compute. reflexivity.
  - reflexivity.
  - vm_compute. reflexivity.
Defined.
