(* ===== verification/AlpParentReady.v ===== *)
(** * Alpenglow: the parent-ready tracker

    Model of [src/crates/karstflow-alpenglow/src/parent_ready_state.rs] and
    [parent_ready_tracker.rs].  The two forward loops of the tracker are the same
    loop over a list of parents.  They run while slots are skip-certified, so
    they are given one unit of fuel per tracked slot, plus one; running out of
    fuel is [Panicked], and the theorems show it does not happen. *)
From stdpp Require Import base tactics list numbers countable gmap relations.
From Stdlib Require Import ZArith Lia.
From S2P Require Import Prelude AlpBase.
Local Open Scope Z_scope.

(** ** One slot *)

Record ParentReadyState := mkParentReadyState {
  prs_slot : Z;
  prs_skip : bool;
  prs_notar_fallbacks : list BlockHash;
  prs_ready_ids : list BlockId;
}.

Definition ParentReadyState_new (slot : Z) : ParentReadyState := mkParentReadyState slot false [] [].
Definition ParentReadyState_genesis (slot : Z) : ParentReadyState :=
  mkParentReadyState slot false [GENESIS_BLOCK_HASH] [].

(** Each mutator returns what the method returns, and the new state. *)
Definition ParentReadyState_mark_skip (st : ParentReadyState) : bool * ParentReadyState :=
  if prs_skip st then (false, st)
  else (true, mkParentReadyState (prs_slot st) true (prs_notar_fallbacks st) (prs_ready_ids st)).
Definition ParentReadyState_is_skip_certified (st : ParentReadyState) : bool := prs_skip st.
Definition ParentReadyState_mark_notar_fallback (st : ParentReadyState) (hash : BlockHash) :
    bool * ParentReadyState :=
  if bool_decide (hash ∈ prs_notar_fallbacks st) then (false, st)
  else (true, mkParentReadyState (prs_slot st) (prs_skip st) (prs_notar_fallbacks st ++ [hash])
                (prs_ready_ids st)).
Definition ParentReadyState_add_to_ready (st : ParentReadyState) (id : BlockId) :
    Outcome ParentReadyState :=
  _ ← rust_assert (negb (bool_decide (id ∈ prs_ready_ids st)));
  mret (mkParentReadyState (prs_slot st) (prs_skip st) (prs_notar_fallbacks st)
          (prs_ready_ids st ++ [id])).

(** Byte-wise order of hashes, and [min_by_key(|b| (b.slot, b.hash))]: the first
    of the minimal elements. *)
Fixpoint bytes_ltb (a b : list Z) : bool :=
  match a, b with
  | x :: a', y :: b' => (x <? y) || ((x =? y) && bytes_ltb a' b')
  | [], _ :: _ => true
  | _, [] => false
  end.
Definition block_ltb (a b : BlockId) : bool :=
  (bi_slot a <? bi_slot b) || ((bi_slot a =? bi_slot b) && bytes_ltb (bi_hash a) (bi_hash b)).
Fixpoint min_block (best : BlockId) (l : list BlockId) : BlockId :=
  match l with
  | [] => best
  | b :: rest => min_block (if block_ltb b best then b else best) rest
  end.
Definition ParentReadyState_wait_for_parent_ready (st : ParentReadyState) : option BlockId :=
  match prs_ready_ids st with
  | [] => None
  | b :: rest => Some (min_block b rest)
  end.

(** ** The tracker *)

Record ParentReady := mkParentReady { pr_slot : Z; pr_parent : BlockId }.

Record ParentReadyTracker := mkTracker {
  prt_root : Z;
  prt_states : gmap Z ParentReadyState;
}.

Definition ParentReadyTracker_default : ParentReadyTracker :=
  mkTracker 0 {[ 0 := ParentReadyState_genesis 0 ]}.
Definition ParentReadyTracker_new_empty : ParentReadyTracker := mkTracker 0 ∅.

(** [slot_state]: the entry of a slot, created on first access.  [get] reads it,
    [touch] creates it and [put] writes it back. *)
Definition get (t : ParentReadyTracker) (slot : Z) : ParentReadyState :=
  default (ParentReadyState_new slot) (prt_states t !! slot).
Definition put (t : ParentReadyTracker) (slot : Z) (st : ParentReadyState) : ParentReadyTracker :=
  mkTracker (prt_root t) (<[slot := st]> (prt_states t)).
Definition touch (t : ParentReadyTracker) (slot : Z) : ParentReadyTracker := put t slot (get t slot).

(** [for p in parents { slot_state(s).add_to_ready(p); out.push(..) }] *)
Definition add_parents (t : ParentReadyTracker) (s : Z) (parents : list BlockId)
    (out : list ParentReady) : Outcome (ParentReadyTracker * list ParentReady) :=
  for_each (λ '(t, out) p,
    st ← ParentReadyState_add_to_ready (get t s) p;
    mret (put t s st, out ++ [mkParentReady s p])) (t, out) parents.

Fixpoint forward_loop (fuel : nat) (t : ParentReadyTracker) (s : Z) (parents : list BlockId)
    (out : list ParentReady) : Outcome (ParentReadyTracker * list ParentReady) :=
  match fuel with
  | O => Panicked
  | S fuel =>
      let t := touch t s in
      '(t, out) ← (if is_start_of_window s then add_parents t s parents out else mret (t, out));
      if negb (ParentReadyState_is_skip_certified (get t s)) then mret (t, out)
      else forward_loop fuel t (u64_add s 1) parents out
  end.

Definition loop_fuel (t : ParentReadyTracker) : nat := S (size (prt_states t)).

Definition ParentReadyTracker_mark_notar_fallback (t : ParentReadyTracker) (id : BlockId) :
    Outcome (list ParentReady * ParentReadyTracker) :=
  let slot := bi_slot id in
  if slot <? prt_root t then mret ([], t)
  else
    let '(newly, st) := ParentReadyState_mark_notar_fallback (get t slot) (bi_hash id) in
    let t := put t slot st in
    if negb newly then mret ([], t)
    else
      '(t, out) ← forward_loop (loop_fuel t) t (u64_add slot 1) [id] [];
      mret (out, t).

(** The backward loop of [mark_skipped]; a window has four slots, and the loop
    makes one more turn below it. *)
Fixpoint gather_loop (fuel : nat) (t : ParentReadyTracker) (marked_slot first root s : Z)
    (potential : list BlockId) : Outcome (ParentReadyTracker * list BlockId) :=
  match fuel with
  | O => Panicked
  | S fuel =>
      let next t potential :=
        if (s =? 0) || (s <? first) || (s <? root) then mret (t, potential)
        else gather_loop fuel t marked_slot first root (s - 1) potential in
      if (first <=? s) && (s <=? marked_slot) && (root <=? s) then
        let t := touch t s in
        let st := get t s in
        let potential := if negb (s =? marked_slot)
                         then potential ++ (mkBlockId s <$> prs_notar_fallbacks st)
                         else potential in
        if negb (ParentReadyState_is_skip_certified st) then mret (t, potential)
        else next t (potential ++ prs_ready_ids st)
      else next t potential
  end.

Definition gather_fuel : nat := 5.

Definition ParentReadyTracker_mark_skipped (t : ParentReadyTracker) (marked_slot : Z) :
    Outcome (list ParentReady * ParentReadyTracker) :=
  if marked_slot <? prt_root t then mret ([], t)
  else
    let '(newly, st) := ParentReadyState_mark_skip (get t marked_slot) in
    let t := put t marked_slot st in
    if negb newly then mret ([], t)
    else
      '(t, potential) ← gather_loop gather_fuel t marked_slot (first_slot_in_window marked_slot)
                          (prt_root t) marked_slot [];
      '(t, out) ← forward_loop (loop_fuel t) t (u64_add marked_slot 1) potential [];
      mret (out, t).

(** [consider]: keep the first parent of the highest slot. *)
Definition consider (best : option ParentReady) (v : list ParentReady) : option ParentReady :=
  foldl (λ best pr,
    match best with
    | Some b => if pr_slot b <? pr_slot pr then Some pr else best
    | None => Some pr
    end) best v.

(** [consider(self.mark(..), &mut best)] *)
Definition mark_consider {A} (mark : ParentReadyTracker → A → Outcome (list ParentReady * ParentReadyTracker))
    (r : option ParentReady * ParentReadyTracker) (a : A) : Outcome (option ParentReady * ParentReadyTracker) :=
  '(v, t) ← mark r.2 a; mret (consider r.1 v, t).

Definition ParentReadyTracker_handle_finalization (t : ParentReadyTracker)
    (finalized : option BlockId) (implicitly_finalized : list BlockId)
    (implicitly_skipped : list Z) : Outcome (option ParentReady * ParentReadyTracker) :=
  let mark_nf := mark_consider ParentReadyTracker_mark_notar_fallback in
  r ← match finalized with
      | Some f => mark_nf (None, t) f
      | None => mret (None, t)
      end;
  r ← for_each mark_nf r implicitly_finalized;
  for_each (mark_consider ParentReadyTracker_mark_skipped) r implicitly_skipped.

Definition ParentReadyTracker_parents_ready (t : ParentReadyTracker) (slot : Z) : list BlockId :=
  match prt_states t !! slot with Some st => prs_ready_ids st | None => [] end.
Definition ParentReadyTracker_wait_for_parent_ready (t : ParentReadyTracker) (slot : Z) :
    option BlockId * ParentReadyTracker :=
  (ParentReadyState_wait_for_parent_ready (get t slot), touch t slot).
Definition ParentReadyTracker_prune (t : ParentReadyTracker) (new_root : Z) : ParentReadyTracker :=
  mkTracker new_root (filter (λ kv, new_root <= kv.1) (prt_states t)).

(** ** Views of a tracker *)

Definition nf (t : ParentReadyTracker) (s : Z) : list BlockHash := prs_notar_fallbacks (get t s).
Definition skip (t : ParentReadyTracker) (s : Z) : bool := prs_skip (get t s).
Definition ready (t : ParentReadyTracker) (s : Z) : list BlockId := prs_ready_ids (get t s).

Lemma parents_ready_view t s : ParentReadyTracker_parents_ready t s = ready t s.
Proof.
  unfold ParentReadyTracker_parents_ready, ready, get. by destruct (prt_states t !! s).
Qed.

Lemma get_put_eq t s st : get (put t s st) s = st.
Proof. unfold get, put. cbn. by rewrite lookup_insert_eq. Qed.
Lemma get_put_ne t s st x : x ≠ s → get (put t s st) x = get t x.
Proof. intros Hne. unfold get, put. cbn. by rewrite lookup_insert_ne. Qed.
Lemma get_touch t s x : get (touch t s) x = get t x.
Proof.
  unfold touch. destruct (decide (x = s)) as [->|Hne]; [apply get_put_eq|by apply get_put_ne].
Qed.

Definition with_ready (st : ParentReadyState) (ids : list BlockId) : ParentReadyState :=
  mkParentReadyState (prs_slot st) (prs_skip st) (prs_notar_fallbacks st) (prs_ready_ids st ++ ids).

Lemma with_ready_nil st : with_ready st [] = st.
Proof. destruct st. unfold with_ready. cbn. by rewrite app_nil_r. Qed.

Lemma add_to_ready_ok st id :
  id ∉ prs_ready_ids st → ParentReadyState_add_to_ready st id = Done (with_ready st [id]).
Proof. intros H. unfold ParentReadyState_add_to_ready. by rewrite bool_decide_eq_false_2. Qed.

Lemma add_parents_spec t s parents out :
  NoDup parents → (∀ p, p ∈ parents → p ∉ ready t s) →
  ∃ t', add_parents t s parents out = Done (t', out ++ (mkParentReady s <$> parents))
        ∧ prt_root t' = prt_root t ∧ get t' s = with_ready (get t s) parents
        ∧ ∀ x, x ≠ s → get t' x = get t x.
Proof.
  intros Hnd. revert t out. induction Hnd as [|p parents Hp Hnd IH]; intros t out Hni.
  { exists t. cbn. by rewrite app_nil_r, with_ready_nil. }
  unfold add_parents. cbn [for_each]. rewrite add_to_ready_ok by (apply Hni; by left).
  rewrite !Done_bind.
  set (t1 := put t s _). destruct (IH t1 (out ++ [mkParentReady s p])) as (t' & E & Hr & Hs & Hx).
  { intros q Hq. unfold ready, t1. rewrite get_put_eq. cbn. rewrite not_elem_of_app.
    split; [apply Hni; by right|]. rewrite list_elem_of_singleton. by intros ->. }
  exists t'. unfold add_parents in E. rewrite E. split_and!.
  - cbn. by rewrite <- app_assoc.
  - done.
  - rewrite Hs. unfold t1. rewrite get_put_eq. unfold with_ready. cbn. by rewrite <- app_assoc.
  - intros x Hne. rewrite Hx by done. by apply get_put_ne.
Qed.

(** ** The forward loop *)

(** The skip-certified slots from [s] on, which bound the number of turns. *)
Definition skips_from (K : gset Z) (s : Z) : nat := size (filter (λ x, s <= x) K).

Lemma skips_from_step (K : gset Z) s : s ∈ K → (skips_from K (s + 1) < skips_from K s)%nat.
Proof.
  intros Hs. apply subset_size. split; [set_solver by lia|]. intros H.
  assert (Hin : s ∈ filter (λ x, s <= x) K) by (apply elem_of_filter; split; [lia|done]).
  apply H, elem_of_filter in Hin as [? _]. lia.
Qed.

(** What the loop does from [s], up to the first slot [e] that is not
    skip-certified. *)
Record forwarded (t : ParentReadyTracker) (s e : Z) (parents : list BlockId)
    (out : list ParentReady) (t' : ParentReadyTracker) (out' : list ParentReady) : Prop := {
  fw_root : prt_root t' = prt_root t;
  fw_end : s <= e <= u64_max;
  fw_stop : skip t e = false;
  fw_skip : ∀ x, s <= x < e → skip t x = true;
  fw_get : ∀ x, get t' x = if decide (s <= x <= e ∧ is_start_of_window x = true)
                           then with_ready (get t x) parents else get t x;
  fw_out : ∀ pr, pr ∈ out' ↔ pr ∈ out ∨ (s <= pr_slot pr <= e
             ∧ is_start_of_window (pr_slot pr) = true ∧ pr_parent pr ∈ parents);
}.

Lemma forward_turn t s parents out :
  NoDup parents → (∀ p, p ∈ parents → p ∉ ready t s) →
  ∃ t' out',
    (if is_start_of_window s then add_parents (touch t s) s parents out
     else mret (touch t s, out)) = Done (t', out')
    ∧ prt_root t' = prt_root t
    ∧ (∀ x, get t' x = if decide (x = s ∧ is_start_of_window x = true)
                       then with_ready (get t x) parents else get t x)
    ∧ ∀ pr, pr ∈ out' ↔ pr ∈ out ∨ (pr_slot pr = s ∧ is_start_of_window s = true
                                    ∧ pr_parent pr ∈ parents).
Proof.
  intros Hnd Hni. destruct (is_start_of_window s) eqn:Es.
  - destruct (add_parents_spec (touch t s) s parents out Hnd) as (t' & E & Hr & Hs & Hx).
    { intros p Hp. unfold ready. rewrite get_touch. by apply Hni. }
    exists t', (out ++ (mkParentReady s <$> parents)). split_and!; [done|done| |].
    + intros x. case_decide as Hd.
      * destruct Hd as [-> _]. by rewrite Hs, get_touch.
      * destruct (decide (x = s)) as [->|Hne]; [naive_solver|]. by rewrite Hx, get_touch.
    + intros [ps pp]. rewrite elem_of_app, list_elem_of_fmap. cbn. naive_solver.
  - exists (touch t s), out. split_and!; [done|done| |naive_solver].
    intros x. rewrite get_touch. case_decide as Hd; [|done]. destruct Hd as [-> ?]. congruence.
Qed.

Lemma forward_loop_spec (K : gset Z) parents fuel t s out :
  NoDup parents → (∀ x, skip t x = true ↔ x ∈ K) → (∀ x, x ∈ K → x < u64_max) →
  0 <= s <= u64_max → (skips_from K s < fuel)%nat →
  (∀ p x, p ∈ parents → s <= x → p ∉ ready t x) →
  ∃ t' out' e, forward_loop fuel t s parents out = Done (t', out')
    ∧ forwarded t s e parents out t' out'.
Proof.
  intros Hnd. revert t s out. induction fuel as [|fuel IH]; intros t s out HK Hmax Hs Hfuel Hni; [lia|].
  cbn [forward_loop].
  destruct (forward_turn t s parents out Hnd) as (t1 & out1 & E1 & Hr1 & Hg1 & Ho1).
  { intros p Hp. apply Hni; [done|lia]. }
  rewrite E1, Done_bind. unfold ParentReadyState_is_skip_certified.
  assert (Hsk : ∀ x, skip t1 x = skip t x) by (intros x; unfold skip; rewrite Hg1; by case_decide).
  fold (skip t1 s). rewrite Hsk. destruct (skip t s) eqn:Es; cbn [negb].
  2:{ exists t1, out1, s. split; [done|]. split; try done; [lia|lia| |].
      - intros x. rewrite Hg1. destruct (decide (x = s ∧ _)) as [[-> ?]|Hd].
        + by rewrite decide_True by (split; [lia|done]).
        + rewrite decide_False; [done|]. intros [? ?]. apply Hd. split; [lia|done].
      - intros pr. rewrite Ho1. split; (intros [?|(H1 & H2 & H3)]; [by left|right]).
        + split_and!; [lia|lia|congruence|done].
        + assert (pr_slot pr = s) by lia. split_and!; [done|congruence|done]. }
  assert (Hin : s ∈ K) by (by apply HK). specialize (Hmax s Hin) as Hlt.
  assert (E : u64_add s 1 = s + 1) by (apply wrap64_small; unfold is_u64; lia). rewrite E.
  destruct (IH t1 (s + 1) out1) as (t' & out' & e & E' & [Fr Fe Fst Fsk Fg Fo]).
  - intros x. by rewrite Hsk.
  - done.
  - lia.
  - pose proof (skips_from_step K s Hin). lia.
  - intros p x Hp Hx. unfold ready. rewrite Hg1. rewrite decide_False by lia. apply Hni; [done|lia].
  - exists t', out', e. split; [done|]. split.
    + congruence.
    + lia.
    + by rewrite <- Hsk.
    + intros x Hx. destruct (decide (x = s)) as [->|]; [done|]. rewrite <- Hsk. apply Fsk. lia.
    + intros x. rewrite Fg, Hg1. destruct (decide (x = s ∧ _)) as [[-> ?]|Hd].
      * rewrite decide_False by lia. by rewrite decide_True by (split; [lia|done]).
      * destruct (decide (s + 1 <= x <= e ∧ _)) as [[? ?]|Hd'].
        -- by rewrite decide_True by (split; [lia|done]).
        -- rewrite decide_False; [done|]. intros [? ?]. destruct (decide (x = s)); [by apply Hd|].
           apply Hd'. split; [lia|done].
    + intros pr. rewrite Fo, Ho1. split.
      * intros [[?|(H1 & H2 & H3)]|(H1 & H2 & H3)]; [by left|right..]; split_and!; try lia;
          try done; congruence.
      * intros [?|(H1 & H2 & H3)]; [left; by left|].
        destruct (decide (pr_slot pr = s)); [left; right; split_and!; congruence|right].
        split_and!; [lia|lia|done|done].
Qed.

(** ** The invariant: ready parents are exactly the valid ones *)

(** The parent-ready condition of slot [s] and block [b], as far as slots from
    [root] on are concerned. *)
Definition valid_parent (t : ParentReadyTracker) (s : Z) (b : BlockId) : Prop :=
  is_start_of_window s = true ∧ bi_slot b < s
  ∧ (prt_root t <= bi_slot b → bi_hash b ∈ nf t (bi_slot b))
  ∧ ∀ x, bi_slot b < x < s → prt_root t <= x → skip t x = true.

Record prt_sound (t : ParentReadyTracker) : Prop := {
  inv_sound : ∀ s b, b ∈ ready t s → valid_parent t s b;
  inv_nodup_ready : ∀ s, NoDup (ready t s);
  inv_nodup_nf : ∀ s, NoDup (nf t s);
  inv_range : ∀ s, skip t s = true → s < u64_max;
}.
Record prt_inv (t : ParentReadyTracker) : Prop := {
  inv_is_sound :> prt_sound t;
  inv_complete : ∀ s b, prt_root t <= bi_slot b → valid_parent t s b → b ∈ ready t s;
}.

Lemma default_skip x : skip ParentReadyTracker_default x = false.
Proof.
  unfold skip, get. cbn. destruct (decide (x = 0)) as [->|];
    [by rewrite lookup_singleton_eq|by rewrite lookup_singleton_ne].
Qed.
Lemma default_nf b :
  bi_hash b ∈ nf ParentReadyTracker_default (bi_slot b) ↔ b = mkBlockId 0 GENESIS_BLOCK_HASH.
Proof.
  destruct b as [s h]. unfold nf, get. cbn [bi_slot bi_hash ParentReadyTracker_default prt_states].
  destruct (decide (s = 0)) as [->|].
  - rewrite lookup_singleton_eq. cbn [default from_option id]. unfold ParentReadyState_genesis.
    cbn [prs_notar_fallbacks]. rewrite list_elem_of_singleton. split; [by intros ->|by intros [=]].
  - rewrite lookup_singleton_ne by done. cbn. rewrite elem_of_nil. split; [done|by intros [=]].
Qed.

Lemma default_inv : prt_inv ParentReadyTracker_default.
Proof.
  assert (Hg : ∀ s, get ParentReadyTracker_default s
                    = if decide (s = 0) then ParentReadyState_genesis 0 else ParentReadyState_new s).
  { intros s. unfold get. cbn. case_decide as Hd.
    - subst. by rewrite lookup_singleton_eq.
    - by rewrite lookup_singleton_ne by done. }
  assert (Hsk : ∀ s, skip ParentReadyTracker_default s = false)
    by (intros s; unfold skip; rewrite Hg; by case_decide).
  assert (Hrd : ∀ s, ready ParentReadyTracker_default s = [])
    by (intros s; unfold ready; rewrite Hg; by case_decide).
  split; [split|].
  - intros s b Hb. rewrite Hrd in Hb. by apply elem_of_nil in Hb.
  - intros s. rewrite Hrd. constructor.
  - intros s. unfold nf. rewrite Hg. case_decide; [apply NoDup_singleton|constructor].
  - intros s. by rewrite Hsk.
  - intros s b H0 (Hs & Hlt & Hnf & Hall). exfalso. specialize (Hnf H0). cbn in H0.
    unfold nf in Hnf. rewrite Hg in Hnf. case_decide as Hd; [|by apply elem_of_nil in Hnf].
    specialize (Hall 1). rewrite Hsk in Hall.
    apply is_start_of_window_iff in Hs. unfold first_slot_in_window, SLOTS_PER_WINDOW in Hs.
    assert (1 < s) by lia. cbn in Hall. enough (false = true) by done. apply Hall; lia.
Qed.

Definition same_views (t t' : ParentReadyTracker) : Prop :=
  prt_root t' = prt_root t ∧ ∀ x, get t' x = get t x.

Lemma touch_views t s : same_views t (touch t s).
Proof. split; [done|]. intros x. apply get_touch. Qed.

(** ** The backward loop *)

(** The parents the loop collects from slot [s] down. *)
Definition gathered (t : ParentReadyTracker) (m first s : Z) (b : BlockId) : Prop :=
  (first <= bi_slot b <= s ∧ prt_root t <= bi_slot b ∧ bi_slot b ≠ m
   ∧ bi_hash b ∈ nf t (bi_slot b) ∧ ∀ x, bi_slot b < x <= s → skip t x = true)
  ∨ (∃ x0, first <= x0 <= s ∧ prt_root t <= x0 ∧ (∀ x, x0 <= x <= s → skip t x = true)
           ∧ b ∈ ready t x0).

Lemma gathered_views t t' m first s b :
  same_views t t' → gathered t' m first s b ↔ gathered t m first s b.
Proof.
  intros [Hr Hg]. unfold gathered, nf, skip, ready. rewrite Hr. repeat setoid_rewrite Hg. done.
Qed.

(** One turn at a slot [s] of the window: its blocks, then, if it is
    skip-certified, its ready parents and the slots below. *)
Lemma gathered_step t m first s b :
  first <= s → prt_root t <= s →
  gathered t m first s b ↔
  (bi_slot b = s ∧ s ≠ m ∧ bi_hash b ∈ nf t s)
  ∨ (skip t s = true ∧ (b ∈ ready t s ∨ gathered t m first (s - 1) b)).
Proof.
  intros Hf Hr. unfold gathered. split.
  - intros [(H1 & H2 & H3 & H4 & H5)|(x0 & H1 & H2 & H3 & H4)].
    + destruct (decide (bi_slot b = s)) as [Es|Hne].
      * left. rewrite Es in *. done.
      * right. split; [apply H5; lia|]. right. left. split_and!; try done; try lia.
        intros x Hx. apply H5. lia.
    + right. split; [apply H3; lia|]. destruct (decide (x0 = s)) as [->|Hne]; [by left|].
      right. right. exists x0. split_and!; try done; try lia. intros x Hx. apply H3. lia.
  - intros [(H1 & H2 & H3)|(Hs & [H|[(H1 & H2 & H3 & H4 & H5)|(x0 & H1 & H2 & H3 & H4)]])].
    + left. rewrite H1. split_and!; try done; try lia.
    + right. exists s. split_and!; try done; try lia. intros x Hx. by replace x with s by lia.
    + left. split_and!; try done; try lia. intros x Hx.
      destruct (decide (x = s)) as [->|]; [done|]. apply H5. lia.
    + right. exists x0. split_and!; try done; try lia. intros x Hx.
      destruct (decide (x = s)) as [->|]; [done|]. apply H3. lia.
Qed.

Lemma gathered_none t m first s b : s < first ∨ s < prt_root t → ¬ gathered t m first s b.
Proof. intros H [(H1 & H2 & _)|(x0 & H1 & H2 & _)]; lia. Qed.

Lemma start_in_window m s :
  is_start_of_window s = true → first_slot_in_window m <= s <= m → s = first_slot_in_window m.
Proof.
  intros Hs%is_start_of_window_iff. unfold first_slot_in_window, SLOTS_PER_WINDOW in *.
  pose proof (Z.div_mod m 4). pose proof (Z.mod_pos_bound m 4). lia.
Qed.

Lemma NoDup_app_slots (s : Z) (A R Q : list BlockId) :
  NoDup A → NoDup R → NoDup Q →
  (∀ b, b ∈ A → bi_slot b = s) → (∀ b, b ∈ R → bi_slot b < s) → (∀ b, b ∈ Q → bi_slot b < s) →
  (∀ b, b ∈ R → b ∉ Q) → NoDup (A ++ R ++ Q).
Proof.
  intros HA HR HQ SA SR SQ HRQ. rewrite !NoDup_app. split_and!; try done.
  intros b Hb%SA. rewrite elem_of_app. intros [H%SR|H%SQ]; lia.
Qed.

Lemma gathered_slot t m first s b :
  prt_sound t → gathered t m first s b → bi_slot b <= s.
Proof.
  intros Hinv [(? & _)|(x0 & ? & _ & _ & Hb)]; [lia|].
  apply (inv_sound t Hinv) in Hb as (_ & ? & _). lia.
Qed.

(** The blocks of slot [s] itself that the loop collects. *)
Definition own_blocks (t : ParentReadyTracker) (m s : Z) : list BlockId :=
  if negb (s =? m) then mkBlockId s <$> nf t s else [].

Lemma elem_of_own_blocks t m s b :
  b ∈ own_blocks t m s ↔ bi_slot b = s ∧ s ≠ m ∧ bi_hash b ∈ nf t s.
Proof.
  destruct b as [bs bh]. unfold own_blocks. destruct (Z.eqb_spec s m) as [->|Hne]; cbn [negb].
  - split; [by intros ?%elem_of_nil|]. by intros (_ & ? & _).
  - rewrite list_elem_of_fmap. cbn. split.
    + intros (h & [= -> ->] & ?). done.
    + intros (-> & _ & ?). eauto.
Qed.

Lemma NoDup_own_blocks t m s : prt_sound t → NoDup (own_blocks t m s).
Proof.
  intros Hinv. unfold own_blocks. case_match; [|constructor].
  apply NoDup_fmap_2; [by intros ? ? [= ->]|apply Hinv].
Qed.

Section gather.
Context (t0 : ParentReadyTracker) (Hinv : prt_sound t0) (m : Z) (Hm : 0 <= m).
Let first := first_slot_in_window m.

Lemma gather_loop_spec fuel t s pot :
  same_views t0 t → 0 <= s <= m → first - 1 <= s → s - first + 2 <= Z.of_nat fuel →
  ∃ t' Q, gather_loop fuel t m first (prt_root t0) s pot = Done (t', pot ++ Q)
    ∧ same_views t0 t' ∧ NoDup Q ∧ ∀ b, b ∈ Q ↔ gathered t0 m first s b.
Proof using Hinv Hm.
  revert t s pot. induction fuel as [|fuel IH]; intros t s pot Hv Hs Hfirst Hfuel; [lia|].
  cbn [gather_loop]. assert (Hf0 : 0 <= first)
    by (unfold first, first_slot_in_window, SLOTS_PER_WINDOW; pose proof (Z.div_pos m 4); lia).
  destruct (decide (first <= s ∧ prt_root t0 <= s)) as [[H1 H2]|Hout].
  2:{ assert (Hc : (first <=? s) && (s <=? m) && (prt_root t0 <=? s) = false).
      { rewrite !andb_false_iff, !Z.leb_gt. lia. }
      assert (Hb : (s =? 0) || (s <? first) || (s <? prt_root t0) = true).
      { rewrite !orb_true_iff, !Z.ltb_lt, Z.eqb_eq. lia. }
      rewrite Hc, Hb. exists t, []. rewrite app_nil_r. split; [done|]. split; [done|]. split; [constructor|].
      intros b. split; [by intros ?%elem_of_nil|]. intros Hg. exfalso.
      eapply gathered_none; [|exact Hg]. lia. }
  rewrite !(proj2 (Z.leb_le _ _)) by lia. cbn [andb].
  assert (Hv1 : same_views t0 (touch t s)).
  { destruct Hv as [? Hv]. split; [done|]. intros x. by rewrite get_touch. }
  rewrite (proj2 Hv1 s). unfold ParentReadyState_is_skip_certified.
  fold (skip t0 s) (nf t0 s) (ready t0 s).
  set (A := own_blocks t0 m s).
  assert (EA : (if negb (s =? m) then pot ++ (mkBlockId s <$> nf t0 s) else pot) = pot ++ A).
  { unfold A, own_blocks. destruct (s =? m); cbn; [by rewrite app_nil_r|done]. }
  pose proof (elem_of_own_blocks t0 m s : ∀ b, b ∈ A ↔ _) as HA.
  pose proof (NoDup_own_blocks t0 m s Hinv : NoDup A) as HNA.
  rewrite EA. destruct (skip t0 s) eqn:Esk; cbn [negb].
  2:{ exists (touch t s), A. split; [done|]. split; [done|]. split; [done|]. intros b.
      rewrite HA, (gathered_step t0 m first s b H1 H2), Esk. split; [by left|].
      by intros [?|[? _]]. }
  assert (HR : ∀ b, b ∈ ready t0 s → bi_slot b < s ∧ s = first).
  { intros b Hb. apply (inv_sound t0 Hinv) in Hb as (Hst & ? & _). split; [done|].
    apply start_in_window; [done|]. fold first. lia. }
  destruct (Z.eqb_spec s 0) as [->|Hs0]; cbn [orb].
  { exists (touch t 0), (A ++ ready t0 0). rewrite app_assoc. split; [done|]. split; [done|]. split.
    - rewrite <- (app_nil_r (ready t0 0)). apply (NoDup_app_slots 0); try done; try constructor.
      + apply Hinv.
      + intros b Hb%HA. tauto.
      + intros b Hb%HR. tauto.
      + intros b Hb%elem_of_nil. done.
      + intros b _. apply not_elem_of_nil.
    - intros b. rewrite elem_of_app, HA, (gathered_step t0 m first 0 b H1 H2).
      assert (Hno : ¬ gathered t0 m first (0 - 1) b) by (apply gathered_none; lia). rewrite Esk.
      split; [intros [?|?]; [by left|right; split; [done|by left]]|].
      intros [?|[_ [?|?]]]; [by left|by right|done]. }
  rewrite (proj2 (Z.ltb_ge s first)), (proj2 (Z.ltb_ge s (prt_root t0))) by lia. cbn [orb].
  destruct (IH (touch t s) (s - 1) ((pot ++ A) ++ ready t0 s)) as (t' & Q & E & Hv' & HQ & HQin);
    [done|lia|lia|lia|].
  exists t', (A ++ ready t0 s ++ Q). rewrite E, <- !app_assoc. split; [done|]. split; [done|]. split.
  - apply (NoDup_app_slots s); try done.
    + apply Hinv.
    + intros b Hb%HA. tauto.
    + intros b Hb%HR. tauto.
    + intros b Hb%HQin. apply gathered_slot in Hb; [lia|done].
    + intros b Hb Hb'. apply HR in Hb as [_ ->]. apply HQin in Hb'.
      eapply gathered_none; [|exact Hb']. lia.
  - intros b. rewrite !elem_of_app, HA, HQin, (gathered_step t0 m first s b H1 H2), Esk.
    split; [intros [?|?]; [by left|by right]|intros [?|[_ ?]]; [by left|by right]].
Qed.
End gather.

(** ** Marking *)

Definition skip_slots (t : ParentReadyTracker) : gset Z :=
  dom (filter (λ kv, prs_skip kv.2 = true) (prt_states t)).

Lemma elem_of_skip_slots t x : skip t x = true ↔ x ∈ skip_slots t.
Proof.
  unfold skip_slots, skip, get. rewrite elem_of_dom. unfold is_Some.
  setoid_rewrite map_lookup_filter_Some. destruct (prt_states t !! x); cbn; naive_solver.
Qed.

Lemma loop_fuel_enough t s : (skips_from (skip_slots t) s < loop_fuel t)%nat.
Proof.
  unfold skips_from, loop_fuel. apply Nat.lt_succ_r.
  transitivity (size (skip_slots t)); [apply subseteq_size; set_solver|].
  rewrite <- (size_dom (D := gset Z) (prt_states t)). apply subseteq_size.
  unfold skip_slots. apply subseteq_dom, map_filter_subseteq.
Qed.

(** The loop from [s], run with the tracker's own fuel. *)
Lemma forward_loop_total t s parents :
  (∀ x, skip t x = true → x < u64_max) → 0 <= s <= u64_max → NoDup parents →
  (∀ p x, p ∈ parents → s <= x → p ∉ ready t x) →
  ∃ t' out' e, forward_loop (loop_fuel t) t s parents [] = Done (t', out')
    ∧ forwarded t s e parents [] t' out'.
Proof.
  intros Hmax Hs Hnd Hni.
  apply (forward_loop_spec (skip_slots t)); try done; [apply elem_of_skip_slots| |apply loop_fuel_enough].
  intros x Hx%elem_of_skip_slots. by apply Hmax.
Qed.

(** What an operation reports: the pairs that were not ready before. *)
Definition reports (t t' : ParentReadyTracker) (out : list ParentReady) : Prop :=
  ∀ s b, b ∈ ready t' s ↔ b ∈ ready t s ∨ mkParentReady s b ∈ out.

(** [marked t t' nfs sks out]: [t'] is [t] with the blocks [nfs] marked
    notarized-fallback and the slots [sks] marked skip-certified, as far as they are
    not below the root, and [out] reports the parents that became ready. *)
Record marked (t t' : ParentReadyTracker) (nfs : list BlockId) (sks : list Z)
    (out : list ParentReady) : Prop := {
  mk_root : prt_root t' = prt_root t;
  mk_reports : reports t t' out;
  mk_new : ∀ s b, mkParentReady s b ∈ out → b ∉ ready t s;
  mk_nf : ∀ b, prt_root t <= bi_slot b →
    bi_hash b ∈ nf t' (bi_slot b) ↔ bi_hash b ∈ nf t (bi_slot b) ∨ b ∈ nfs;
  mk_skip : ∀ x, prt_root t <= x → skip t' x = true ↔ skip t x = true ∨ x ∈ sks;
}.

Lemma forwarded_ready t s e parents t' out :
  forwarded t s e parents [] t' out →
  reports t t' out
  ∧ (∀ x b, b ∈ ready t' x ↔ b ∈ ready t x ∨ (s <= x <= e ∧ is_start_of_window x = true ∧ b ∈ parents))
  ∧ (∀ x, nf t' x = nf t x) ∧ (∀ x, skip t' x = skip t x).
Proof.
  intros [_ _ _ _ Hg Ho].
  assert (Hrd : ∀ x b, b ∈ ready t' x
    ↔ b ∈ ready t x ∨ (s <= x <= e ∧ is_start_of_window x = true ∧ b ∈ parents)).
  { intros x b. unfold ready. rewrite Hg. case_decide as Hd; cbn; [rewrite elem_of_app|]; tauto. }
  split_and!; [|done| |].
  - intros x b. rewrite Hrd, Ho. cbn. split; [intros [?|?]; [by left|by right; right]|].
    intros [?|[[]%elem_of_nil|?]]; [by left|by right].
  - intros x. unfold nf. rewrite Hg. by case_decide.
  - intros x. unfold skip. rewrite Hg. by case_decide.
Qed.

Lemma forwarded_nodup t s e parents t' out :
  forwarded t s e parents [] t' out → (∀ x, NoDup (ready t x)) → NoDup parents →
  (∀ p x, p ∈ parents → s <= x → p ∉ ready t x) → ∀ x, NoDup (ready t' x).
Proof.
  intros [_ _ _ _ Hg _] Hnd Hp Hni x. unfold ready. rewrite Hg. case_decide as Hd; [|apply Hnd].
  cbn. apply NoDup_app. split_and!; [apply Hnd| |done]. intros b Hb Hb'. by apply (Hni b x); [|lia|].
Qed.

(** Marking one slot ([t] to [t1]) and running the loop from [s0] keeps the
    invariant, if the loop is given the parents the mark makes valid. *)
Lemma forward_inv t t1 s0 e parents t' out nfs sks :
  prt_inv t → prt_root t1 = prt_root t → (∀ x, ready t1 x = ready t x) →
  (∀ b, prt_root t <= bi_slot b →
        bi_hash b ∈ nf t1 (bi_slot b) ↔ bi_hash b ∈ nf t (bi_slot b) ∨ b ∈ nfs) →
  (∀ x, NoDup (nf t1 x)) →
  (∀ x, prt_root t <= x → skip t1 x = true ↔ skip t x = true ∨ x ∈ sks) →
  (∀ x, skip t1 x = true → x < u64_max) →
  forwarded t1 s0 e parents [] t' out → NoDup parents →
  (∀ p x, p ∈ parents → s0 <= x → p ∉ ready t x) →
  (∀ p, p ∈ parents → bi_slot p < s0 ∧ (prt_root t <= bi_slot p → bi_hash p ∈ nf t1 (bi_slot p))
        ∧ ∀ x, bi_slot p < x < s0 → prt_root t <= x → skip t1 x = true) →
  (∀ s b, prt_root t <= bi_slot b → valid_parent t1 s b →
          b ∈ ready t s ∨ (b ∈ parents ∧ bi_slot b < s0 <= s)) →
  prt_inv t' ∧ marked t t' nfs sks out.
Proof.
  intros Hinv Hr1 Hrd1 Hnf1 Hnd1 Hsk1 Hmax Hf Hnd Hni Hsound Hcomp.
  destruct (forwarded_ready _ _ _ _ _ _ Hf) as (Hrep & Hrd & Hnf & Hsk).
  assert (Hr : prt_root t' = prt_root t) by (rewrite <- Hr1; apply Hf).
  assert (Hv : ∀ s b, valid_parent t' s b ↔ valid_parent t1 s b).
  { intros s b. unfold valid_parent. rewrite Hr, Hr1, Hnf. by setoid_rewrite Hsk. }
  split; [|split; [done|intros s b; by rewrite (Hrep s b), Hrd1| |intros b; rewrite Hnf; apply Hnf1
                  |intros x; rewrite Hsk; apply Hsk1]].
  2:{ intros x b [Hb|(Hx & _ & Hb)]%(fw_out _ _ _ _ _ _ _ Hf); [by apply elem_of_nil in Hb|].
      cbn in *. by apply Hni; [|lia]. }
  destruct Hinv as [Hsnd Hcompl]. split; [split|].
  - intros s b. rewrite Hrd, Hrd1, Hv. intros [Hb|(Hse & Hst & Hb)].
    + apply (inv_sound t Hsnd) in Hb as (? & ? & Hn & Hx). unfold valid_parent. rewrite Hr1.
      split_and!; try done; [by intros ?; apply Hnf1; [done|left; apply Hn]|]. intros x ? ?. apply Hsk1; [done|left; by apply Hx].
    + destruct (Hsound b Hb) as (Hlt & Hn & Hx). unfold valid_parent. rewrite Hr1.
      split_and!; [done|lia|done|]. intros x ? ?.
      destruct (Z.lt_ge_cases x s0); [apply Hx; [lia|done]|]. apply Hf. lia.
  - eapply forwarded_nodup; [exact Hf| |done|].
    + intros x. rewrite Hrd1. apply Hsnd.
    + intros p x. rewrite Hrd1. apply Hni.
  - intros x. rewrite Hnf. apply Hnd1.
  - intros s. rewrite Hsk. apply Hmax.
  - intros s b Hb Hval%Hv. rewrite Hr in Hb. rewrite Hrd, Hrd1.
    destruct (Hcomp s b Hb Hval) as [?|[Hp Hs0]]; [by left|right].
    destruct Hval as (Hst & Hlt & _ & Hx). rewrite Hr1 in Hx. split_and!; try done; [lia|].
    destruct (Z.le_gt_cases s e); [done|]. pose proof (fw_end _ _ _ _ _ _ _ Hf).
    specialize (Hx e ltac:(lia) ltac:(lia)). by rewrite (fw_stop _ _ _ _ _ _ _ Hf) in Hx.
Qed.

Lemma inv_views t t' nfs sks :
  same_views t t' → prt_inv t →
  (∀ b, b ∈ nfs → prt_root t <= bi_slot b → bi_hash b ∈ nf t (bi_slot b)) →
  (∀ x, x ∈ sks → prt_root t <= x → skip t x = true) →
  prt_inv t' ∧ marked t t' nfs sks [].
Proof.
  intros [Hr Hg] [[] ?] Hnfs Hsks. split.
  - unfold valid_parent, nf, skip, ready in *.
    split; [split|]; unfold valid_parent, nf, skip, ready; rewrite ?Hr; repeat setoid_rewrite Hg; done.
  - split; [done| |by intros s b ?%elem_of_nil| |].
    + intros s b. unfold ready. rewrite Hg, elem_of_nil. tauto.
    + intros b Hb. unfold nf. rewrite Hg. fold (nf t (bi_slot b)). specialize (Hnfs b). tauto.
    + intros x Hx. unfold skip. rewrite Hg. fold (skip t x). specialize (Hsks x). tauto.
Qed.

Lemma mark_notar_fallback_spec t id :
  prt_inv t → 0 <= bi_slot id < u64_max →
  ∃ out t', ParentReadyTracker_mark_notar_fallback t id = Done (out, t')
    ∧ prt_inv t' ∧ marked t t' [id] [] out.
Proof.
  intros Hinv Hid. unfold ParentReadyTracker_mark_notar_fallback, ParentReadyState_mark_notar_fallback.
  destruct (Z.ltb_spec (bi_slot id) (prt_root t)) as [Hlt|Hge].
  { exists [], t. split; [done|]. apply inv_views; [done..| |by intros x ?%elem_of_nil].
    intros b ->%list_elem_of_singleton. lia. }
  fold (nf t (bi_slot id)). case_bool_decide as Hin; cbn [negb].
  { exists [], (touch t (bi_slot id)). split; [done|].
    apply inv_views; [apply touch_views|done| |by intros x ?%elem_of_nil].
    by intros b ->%list_elem_of_singleton. }
  set (t1 := put t (bi_slot id) _).
  assert (Hnf1 : ∀ x, nf t1 x = if decide (x = bi_slot id) then nf t x ++ [bi_hash id] else nf t x).
  { intros x. unfold nf, t1. case_decide as Hd; [subst; by rewrite get_put_eq|by rewrite get_put_ne]. }
  assert (Hv1 : ∀ x, skip t1 x = skip t x ∧ ready t1 x = ready t x).
  { intros x. unfold skip, ready, t1. destruct (decide (x = bi_slot id)) as [->|];
      [by rewrite get_put_eq|by rewrite get_put_ne]. }
  assert (E : u64_add (bi_slot id) 1 = bi_slot id + 1) by (apply wrap64_small; unfold is_u64; lia).
  assert (Hnew : ∀ p x, p ∈ [id] → bi_slot id + 1 <= x → p ∉ ready t x).
  { intros p x ->%list_elem_of_singleton _ Hx.
    apply (inv_sound t Hinv) in Hx as (_ & _ & Hx & _). by apply Hin, Hx. }
  assert (Hmax : ∀ x, skip t1 x = true → x < u64_max) by (intros x; rewrite (proj1 (Hv1 x)); apply Hinv).
  destruct (forward_loop_total t1 (bi_slot id + 1) [id]) as (t' & out & e & El & Hf);
    [done|lia|apply NoDup_singleton|intros p x; rewrite (proj2 (Hv1 x)); apply Hnew|].
  rewrite E, El, Done_bind. exists out, t'. split; [done|].
  apply (forward_inv t t1 (bi_slot id + 1) e [id]); try done.
  - intros x. apply Hv1.
  - intros b _. rewrite Hnf1, list_elem_of_singleton.
    destruct b as [bs bh], id as [ids idh]; cbn in *. case_decide as Hd; [subst|].
    + rewrite elem_of_app, list_elem_of_singleton. naive_solver.
    + split; [by left|]. intros [?|[= ? ?]]; done.
  - intros x. rewrite Hnf1. case_decide as Hd; [|apply Hinv]. subst. apply NoDup_app.
    split_and!; [apply Hinv|by intros h Hh ->%list_elem_of_singleton|apply NoDup_singleton].
  - intros x _. rewrite (proj1 (Hv1 x)), elem_of_nil. tauto.
  - apply NoDup_singleton.
  - intros p ->%list_elem_of_singleton. split_and!; [lia| |lia].
    intros _. rewrite Hnf1, decide_True by done. set_solver.
  - intros s b Hb (Hst & Hlt & Hn & Hx). change (prt_root t1) with (prt_root t) in *.
    specialize (Hn Hb). rewrite Hnf1 in Hn. destruct (decide (b = id)) as [->|Hne]; [right; split; [by left|lia]|].
    left. apply (inv_complete t Hinv); [done|]. split_and!; [done|done| |].
    + intros _. case_decide as Hd; [|done]. apply elem_of_app in Hn as [?|Hn]; [done|].
      apply list_elem_of_singleton in Hn. destruct b, id. cbn in *. congruence.
    + intros x ? ?. rewrite <- (proj1 (Hv1 x)). by apply Hx.
Qed.

(** Marking slot [m] skip-certified makes exactly the gathered parents valid for
    the slots behind it. *)
Section mark_skipped.
Context (t t1 : ParentReadyTracker) (m : Z).
Context (Hinv : prt_inv t) (Hm : 0 <= m < u64_max) (Hroot : prt_root t <= m) (Hold : skip t m = false).
Context (Hr1 : prt_root t1 = prt_root t)
  (Hsk1 : ∀ x, skip t1 x = if decide (x = m) then true else skip t x)
  (Hv1 : ∀ x, nf t1 x = nf t x ∧ ready t1 x = ready t x).
Let first := first_slot_in_window m.

Lemma marked_sound : prt_sound t1.
Proof using Hinv Hm Hr1 Hsk1 Hv1.
  split.
  - intros s b. rewrite (proj2 (Hv1 s)). intros (? & ? & ? & Hx)%(inv_sound t Hinv).
    unfold valid_parent. rewrite Hr1. split_and!; try done; [by rewrite (proj1 (Hv1 _))|].
    intros x ? ?. rewrite Hsk1. case_decide; [done|]. by apply Hx.
  - intros s. rewrite (proj2 (Hv1 s)). apply Hinv.
  - intros s. rewrite (proj1 (Hv1 s)). apply Hinv.
  - intros s. rewrite Hsk1. case_decide as Hd; [lia|]. apply Hinv.
Qed.

Lemma gathered_sound b :
  gathered t1 m first m b →
  bi_slot b < m ∧ (prt_root t <= bi_slot b → bi_hash b ∈ nf t1 (bi_slot b))
  ∧ ∀ x, bi_slot b < x <= m → prt_root t <= x → skip t1 x = true.
Proof using Hinv Hm Hr1 Hsk1 Hv1.
  intros [(H1 & H2 & H3 & H4 & H5)|(x0 & H1 & H2 & H3 & Hb)].
  - split_and!; [lia|done|]. intros x ? _. by apply H5.
  - apply (inv_sound t1 marked_sound) in Hb as (_ & Hlt & Hn & Hx). rewrite Hr1 in *.
    split_and!; [lia|done|]. intros x ? ?.
    destruct (Z.lt_ge_cases x x0); [apply Hx; lia|apply H3; lia].
Qed.

Lemma gathered_not_ready b x : gathered t1 m first m b → m < x → b ∉ ready t x.
Proof using Hinv Hm Hr1 Hsk1 Hv1 Hroot Hold.
  intros (Hlt & _ & _)%gathered_sound Hx (_ & _ & _ & Hsk)%(inv_sound t Hinv).
  specialize (Hsk m ltac:(lia) Hroot). congruence.
Qed.

Lemma gathered_complete s b :
  prt_root t <= bi_slot b → valid_parent t1 s b →
  b ∈ ready t s ∨ (gathered t1 m first m b ∧ bi_slot b < m + 1 <= s).
Proof using Hinv Hm Hr1 Hsk1 Hv1 Hroot.
  intros Hb (Hst & Hlt & Hn & Hx). rewrite Hr1 in *. specialize (Hn Hb).
  rewrite (proj1 (Hv1 _)) in Hn.
  assert (Hskip : ∀ x, bi_slot b < x < s → x ≠ m → skip t x = true).
  { intros x ? ?. specialize (Hx x ltac:(lia) ltac:(lia)). rewrite Hsk1, decide_False in Hx; done. }
  destruct (decide (bi_slot b < m < s)) as [Hbm|Hbm].
  2:{ left. apply (inv_complete t Hinv); [done|]. split_and!; try done.
      intros x ? ?. apply Hskip; [done|]. intros ->. lia. }
  right. split; [|lia]. destruct (Z.le_gt_cases first (bi_slot b)) as [Hf|Hf].
  - left. rewrite Hr1, (proj1 (Hv1 _)). split_and!; try done; try lia. intros x ?. apply Hx; lia.
  - right. exists first. pose proof (window_bounds m) as Hw. fold first in Hw.
    rewrite Hr1, (proj2 (Hv1 _)). split_and!; [lia|lia|lia|intros x ?; apply Hx; lia|].
    apply (inv_complete t Hinv); [done|]. split_and!; [apply first_slot_is_start|done|done|].
    intros x ? ?. apply Hskip; lia.
Qed.
End mark_skipped.

Lemma mark_skipped_spec t m :
  prt_inv t → 0 <= m < u64_max →
  ∃ out t', ParentReadyTracker_mark_skipped t m = Done (out, t')
    ∧ prt_inv t' ∧ marked t t' [] [m] out.
Proof.
  intros Hinv Hm. unfold ParentReadyTracker_mark_skipped, ParentReadyState_mark_skip.
  destruct (Z.ltb_spec m (prt_root t)) as [Hlt|Hge].
  { exists [], t. split; [done|]. apply inv_views; [done..|by intros b ?%elem_of_nil|].
    intros x ->%list_elem_of_singleton. lia. }
  fold (skip t m). destruct (skip t m) eqn:Em; cbn [negb].
  { exists [], (touch t m). split; [done|].
    apply inv_views; [apply touch_views|done|by intros b ?%elem_of_nil|].
    by intros x ->%list_elem_of_singleton. }
  set (t1 := put t m _).
  assert (Hsk1 : ∀ x, skip t1 x = if decide (x = m) then true else skip t x).
  { intros x. unfold skip, t1. case_decide as Hd; [subst; by rewrite get_put_eq|by rewrite get_put_ne]. }
  assert (Hv1 : ∀ x, nf t1 x = nf t x ∧ ready t1 x = ready t x).
  { intros x. unfold nf, ready, t1. destruct (decide (x = m)) as [->|];
      [by rewrite get_put_eq|by rewrite get_put_ne]. }
  pose proof (marked_sound t t1 m Hinv Hm eq_refl Hsk1 Hv1) as Hsnd1.
  pose proof (window_bounds m) as Hw.
  destruct (gather_loop_spec t1 Hsnd1 m ltac:(lia) gather_fuel t1 m []) as (t2 & Q & Eg & [Hr2 Hg2] & HQ & HQin);
    [done|lia|lia|unfold gather_fuel; lia|].
  change (prt_root t1) with (prt_root t) in *. rewrite Eg, Done_bind, app_nil_l.
  assert (Hv2 : ∀ x, skip t2 x = skip t1 x ∧ nf t2 x = nf t x ∧ ready t2 x = ready t x).
  { intros x. destruct (Hv1 x) as [<- <-]. unfold skip, nf, ready. by rewrite Hg2. }
  assert (Hni : ∀ p x, p ∈ Q → m + 1 <= x → p ∉ ready t x).
  { intros p x Hp%HQin Hx. eapply (gathered_not_ready t t1 m); eauto. lia. }
  assert (Hmax : ∀ x, skip t2 x = true → x < u64_max)
    by (intros x; rewrite (proj1 (Hv2 x)); apply Hsnd1).
  assert (E : u64_add m 1 = m + 1) by (apply wrap64_small; unfold is_u64; lia). rewrite E.
  destruct (forward_loop_total t2 (m + 1) Q) as (t' & out & e & El & Hf);
    [done|lia|done|intros p x; rewrite (proj2 (proj2 (Hv2 x))); apply Hni|].
  rewrite El, Done_bind. exists out, t'. split; [done|].
  apply (forward_inv t t2 (m + 1) e Q); try done.
  - intros x. apply Hv2.
  - intros b _. rewrite (proj1 (proj2 (Hv2 _))), elem_of_nil. tauto.
  - intros x. rewrite (proj1 (proj2 (Hv2 x))). apply Hinv.
  - intros x Hx. rewrite (proj1 (Hv2 x)), Hsk1, list_elem_of_singleton. case_decide; tauto.
  - intros p Hp%HQin. destruct (gathered_sound t t1 m Hinv Hm eq_refl Hsk1 Hv1 p Hp) as (? & Hn & Hx).
    rewrite (proj1 (proj2 (Hv2 _))). rewrite (proj1 (Hv1 _)) in Hn. split_and!; [lia|done|].
    intros x ? ?. rewrite (proj1 (Hv2 x)). apply Hx; [lia|done].
  - intros s b Hb Hval. rewrite HQin.
    apply (gathered_complete t t1 m Hinv Hm Hge eq_refl Hsk1 Hv1); [done|].
    destruct Hval as (? & ? & Hn & Hx). rewrite Hr2 in Hn, Hx. split_and!; try done.
    + intros Hge'. by rewrite (proj1 (Hv1 _)), <- (proj1 (proj2 (Hv2 _))); apply Hn.
    + intros x ? ?. rewrite <- (proj1 (Hv2 x)). by apply Hx.
Qed.

Lemma get_prune t r x :
  get (ParentReadyTracker_prune t r) x = if decide (r <= x) then get t x else ParentReadyState_new x.
Proof.
  unfold get, ParentReadyTracker_prune. cbn. rewrite map_lookup_filter.
  destruct (prt_states t !! x); cbn; repeat case_decide; done.
Qed.
Lemma nf_prune t r x : r <= x → nf (ParentReadyTracker_prune t r) x = nf t x.
Proof. intros. unfold nf. by rewrite get_prune, decide_True. Qed.
Lemma skip_prune t r x : r <= x → skip (ParentReadyTracker_prune t r) x = skip t x.
Proof. intros. unfold skip. by rewrite get_prune, decide_True. Qed.

Lemma prune_spec t r :
  prt_inv t → prt_root t <= r →
  prt_inv (ParentReadyTracker_prune t r) ∧ prt_root (ParentReadyTracker_prune t r) = r.
Proof.
  intros Hinv Hr. split; [|done].
  pose proof (get_prune t r) as Hg.
  set (t' := ParentReadyTracker_prune t r) in *.
  assert (Hv : ∀ x, r <= x → nf t' x = nf t x ∧ skip t' x = skip t x ∧ ready t' x = ready t x).
  { intros x Hx. unfold nf, skip, ready. by rewrite Hg, decide_True. }
  split; [split|].
  - intros s b Hb. destruct (decide (r <= s)) as [Hs|Hs].
    2:{ unfold ready in Hb. rewrite Hg, decide_False in Hb by done. by apply elem_of_nil in Hb. }
    rewrite (proj2 (proj2 (Hv s Hs))) in Hb. apply (inv_sound t Hinv) in Hb as (? & ? & Hn & Hx).
    unfold valid_parent. cbn [t' ParentReadyTracker_prune prt_root]. split_and!; try done.
    + intros Hge. rewrite (proj1 (Hv _ Hge)). apply Hn. lia.
    + intros x ? Hge. rewrite (proj1 (proj2 (Hv _ Hge))). apply Hx; [done|lia].
  - intros s. unfold ready. rewrite Hg. case_decide; [apply Hinv|constructor].
  - intros s. unfold nf. rewrite Hg. case_decide; [apply Hinv|constructor].
  - intros s. unfold skip. rewrite Hg. case_decide; [apply Hinv|done].
  - intros s b Hb (Hst & Hlt & Hn & Hx). cbn [t' ParentReadyTracker_prune prt_root] in *.
    rewrite (proj2 (proj2 (Hv s ltac:(lia)))). apply (inv_complete t Hinv); [lia|].
    split_and!; try done.
    + intros _. rewrite <- (proj1 (Hv _ Hb)). by apply Hn.
    + intros x ? _. rewrite <- (proj1 (proj2 (Hv x ltac:(lia)))). apply Hx; lia.
Qed.

Lemma marked_trans t1 t2 t3 n1 n2 k1 k2 o1 o2 :
  marked t1 t2 n1 k1 o1 → marked t2 t3 n2 k2 o2 → marked t1 t3 (n1 ++ n2) (k1 ++ k2) (o1 ++ o2).
Proof.
  intros [Hr1 Ho1 Hw1 Hn1 Hk1] [Hr2 Ho2 Hw2 Hn2 Hk2]. rewrite Hr1 in *. split; [congruence| | | |].
  - intros s b. rewrite (Ho2 s b), (Ho1 s b), elem_of_app. tauto.
  - intros s b [Hb|Hb]%elem_of_app; [by apply Hw1|]. intros Hold. apply (Hw2 s b Hb), Ho1. by left.
  - intros b Hb. rewrite Hn2, Hn1, elem_of_app by done. tauto.
  - intros x Hx. rewrite Hk2, Hk1, elem_of_app by done. tauto.
Qed.

Lemma marked_refl t : marked t t [] [] [].
Proof.
  split; [done| |by intros s b ?%elem_of_nil|..].
  all: try intros s b; try intros x Hx; rewrite elem_of_nil; tauto.
Qed.

Lemma consider_app best v w : consider best (v ++ w) = consider (consider best v) w.
Proof. unfold consider. apply foldl_app. Qed.

(** The parent [consider] keeps is the one of the highest slot. *)
Lemma consider_spec v : ∀ best,
  match consider best v with
  | None => best = None ∧ v = []
  | Some p => (best = Some p ∨ p ∈ v) ∧ (∀ q, best = Some q → pr_slot q <= pr_slot p)
              ∧ ∀ q, q ∈ v → pr_slot q <= pr_slot p
  end.
Proof.
  induction v as [|pr v IH]; intros best.
  { cbn. destruct best; [|done]. split_and!; [by left|by intros q [= ->]|by intros q ?%elem_of_nil]. }
  change (pr :: v) with ([pr] ++ v). rewrite consider_app. specialize (IH (consider best [pr])).
  destruct (consider (consider best [pr]) v) as [p|]; cbn [app]; cbn in IH.
  - destruct IH as (Hp & Hb & Hv). destruct best as [b|]; [destruct (Z.ltb_spec (pr_slot b) (pr_slot pr))|].
    all: specialize (Hb _ eq_refl).
    all: split_and!; [|intros q [=]; subst; lia|intros q [->|Hq]%elem_of_cons; [lia|by apply Hv]].
    all: rewrite elem_of_cons; destruct Hp as [[= ->]|?]; auto.
  - destruct IH as [IH _]. destruct best as [b|]; [by destruct (pr_slot b <? pr_slot pr)|done].
Qed.

(** A loop that marks one block or slot after the other. *)
Section marks_loop.
Context {A : Type} (mark : ParentReadyTracker → A → Outcome (list ParentReady * ParentReadyTracker)).
Context (ok : A → Prop) (N : A → list BlockId) (K : A → list Z).
Context (Hmark : ∀ t a, prt_inv t → ok a →
  ∃ out t', mark t a = Done (out, t') ∧ prt_inv t' ∧ marked t t' (N a) (K a) out).

Lemma for_each_marks l : ∀ best t, prt_inv t → Forall ok l →
  ∃ out t',
    for_each (mark_consider mark) (best, t) l = Done (consider best out, t')
    ∧ prt_inv t' ∧ marked t t' (mjoin (N <$> l)) (mjoin (K <$> l)) out.
Proof using Hmark.
  induction l as [|a l IH]; intros best t Hinv Hok.
  { exists [], t. split_and!; [done|done|apply marked_refl]. }
  apply Forall_cons in Hok as [Ha Hl].
  destruct (Hmark t a Hinv Ha) as (o1 & t1 & E1 & Hinv1 & Hm1).
  destruct (IH (consider best o1) t1 Hinv1 Hl) as (o2 & t2 & E2 & Hinv2 & Hm2).
  exists (o1 ++ o2), t2. cbn [for_each].
  assert (E : mark_consider mark (best, t) a = Done (consider best o1, t1))
    by (unfold mark_consider; cbn [fst snd]; by rewrite E1).
  rewrite E, Done_bind, E2, consider_app.
  split_and!; [done|done|]. by eapply marked_trans.
Qed.
End marks_loop.

Lemma join_singletons {A} (l : list A) : mjoin ((λ a, [a]) <$> l) = l.
Proof. induction l; cbn; [done|]. f_equal. done. Qed.
Lemma join_nils {A B} (l : list A) : mjoin ((λ _, [] : list B) <$> l) = [].
Proof. induction l; [done|]. done. Qed.

Definition slot_ok (s : Z) : Prop := 0 <= s < u64_max.
Definition block_ok (b : BlockId) : Prop := slot_ok (bi_slot b).

Lemma handle_finalization_spec t fin imf ims :
  prt_inv t → Forall block_ok (option_list fin ++ imf) → Forall slot_ok ims →
  ∃ out t', ParentReadyTracker_handle_finalization t fin imf ims = Done (consider None out, t')
    ∧ prt_inv t' ∧ marked t t' (option_list fin ++ imf) ims out.
Proof.
  intros Hinv [Hfin Himf]%Forall_app Hims. unfold ParentReadyTracker_handle_finalization.
  set (mark_nf := mark_consider ParentReadyTracker_mark_notar_fallback).
  destruct (for_each_marks _ block_ok (λ b, [b]) (λ _, []) mark_notar_fallback_spec
              (option_list fin) None t Hinv Hfin) as (o1 & t1 & E1 & Hinv1 & Hm1).
  destruct (for_each_marks _ block_ok (λ b, [b]) (λ _, []) mark_notar_fallback_spec
              imf (consider None o1) t1 Hinv1 Himf) as (o2 & t2 & E2 & Hinv2 & Hm2).
  destruct (for_each_marks _ slot_ok (λ _, []) (λ s, [s]) mark_skipped_spec
              ims (consider (consider None o1) o2) t2 Hinv2 Hims) as (o3 & t3 & E3 & Hinv3 & Hm3).
  exists (o1 ++ o2 ++ o3), t3. rewrite !consider_app.
  assert (E : match fin with Some f => mark_nf (None, t) f | None => mret (None, t) end
              = Done (consider None o1, t1)).
  { rewrite <- E1. destruct fin as [f|]; [|done]. fold mark_nf. change (option_list (Some f)) with [f]. cbn [for_each].
    by destruct (mark_nf (None, t) f) as [[]|]. }
  rewrite E, Done_bind. unfold mark_nf. rewrite E2, Done_bind, E3.
  split_and!; [done|done|].
  pose proof (marked_trans _ _ _ _ _ _ _ _ _ Hm1 (marked_trans _ _ _ _ _ _ _ _ _ Hm2 Hm3)) as Hm.
  by rewrite !join_singletons, !join_nils, app_nil_r, !app_nil_l in Hm.
Qed.

(** ** Sequences of operations *)

Inductive prt_op :=
| OpNotarFallback (id : BlockId)
| OpSkipped (slot : Z)
| OpFinalization (finalized : option BlockId) (implicitly_finalized : list BlockId)
    (implicitly_skipped : list Z)
| OpWait (slot : Z)
| OpPrune (new_root : Z).

Definition run_op (t : ParentReadyTracker) (op : prt_op) : Outcome ParentReadyTracker :=
  match op with
  | OpNotarFallback id => snd <$> ParentReadyTracker_mark_notar_fallback t id
  | OpSkipped s => snd <$> ParentReadyTracker_mark_skipped t s
  | OpFinalization fin imf ims => snd <$> ParentReadyTracker_handle_finalization t fin imf ims
  | OpWait s => mret (snd (ParentReadyTracker_wait_for_parent_ready t s))
  | OpPrune r => mret (ParentReadyTracker_prune t r)
  end.

(** What an operation marks, and the root after it. *)
Definition op_nfs (op : prt_op) : list BlockId :=
  match op with
  | OpNotarFallback id => [id] | OpFinalization fin imf _ => option_list fin ++ imf | _ => []
  end.
Definition op_skips (op : prt_op) : list Z :=
  match op with OpSkipped s => [s] | OpFinalization _ _ ims => ims | _ => [] end.
Definition op_root (root : Z) (op : prt_op) : Z := match op with OpPrune r => r | _ => root end.

(** Slots leave room for the successor, and the root never moves back. *)
Definition op_ok (root : Z) (op : prt_op) : Prop :=
  Forall block_ok (op_nfs op) ∧ Forall slot_ok (op_skips op) ∧ root <= op_root root op.
Fixpoint ops_ok (root : Z) (ops : list prt_op) : Prop :=
  match ops with [] => True | op :: ops => op_ok root op ∧ ops_ok (op_root root op) ops end.

Lemma run_op_spec t op :
  prt_inv t → op_ok (prt_root t) op →
  ∃ t', run_op t op = Done t' ∧ prt_inv t' ∧ prt_root t' = op_root (prt_root t) op
    ∧ (∀ b, prt_root t' <= bi_slot b →
         bi_hash b ∈ nf t' (bi_slot b) ↔ bi_hash b ∈ nf t (bi_slot b) ∨ b ∈ op_nfs op)
    ∧ (∀ x, prt_root t' <= x → skip t' x = true ↔ skip t x = true ∨ x ∈ op_skips op).
Proof.
  intros Hinv (Hn & Hs & Hr).
  assert (Hmark : ∀ {A} (r : Outcome (A * ParentReadyTracker)),
    op_root (prt_root t) op = prt_root t →
    (∃ a out t', r = Done (a, t') ∧ prt_inv t' ∧ marked t t' (op_nfs op) (op_skips op) out) →
    ∃ t', snd <$> r = Done t' ∧ prt_inv t' ∧ prt_root t' = op_root (prt_root t) op
    ∧ (∀ b, prt_root t' <= bi_slot b →
         bi_hash b ∈ nf t' (bi_slot b) ↔ bi_hash b ∈ nf t (bi_slot b) ∨ b ∈ op_nfs op)
    ∧ (∀ x, prt_root t' <= x → skip t' x = true ↔ skip t x = true ∨ x ∈ op_skips op)).
  { intros A r -> (a & out & t' & -> & Hinv' & [Hr' _ _ Hnf Hsk]). exists t'. rewrite Hr'.
    split_and!; done. }
  destruct op as [id|s|fin imf ims|s|r].
  - apply Hmark; [done|]. apply Forall_inv in Hn.
    destruct (mark_notar_fallback_spec t id Hinv Hn) as (out & t' & ?). by exists out, out, t'.
  - apply Hmark; [done|]. apply Forall_inv in Hs.
    destruct (mark_skipped_spec t s Hinv Hs) as (out & t' & ?). by exists out, out, t'.
  - apply Hmark; [done|].
    destruct (handle_finalization_spec t fin imf ims Hinv Hn Hs) as (out & t' & ?).
    by exists (consider None out), out, t'.
  - apply (Hmark (option BlockId) (Done (ParentReadyTracker_wait_for_parent_ready t s)) eq_refl).
    eexists _, [], _. split; [done|].
    apply inv_views; [apply touch_views|done|by intros ? ?%elem_of_nil..].
  - destruct (prune_spec t r Hinv Hr) as [Hinv' Hroot'].
    exists (ParentReadyTracker_prune t r). split_and!; [done|done|done| |]; cbn [op_nfs op_skips].
    + intros b Hb. rewrite (nf_prune t r) by done. rewrite elem_of_nil. tauto.
    + intros x Hx. rewrite (skip_prune t r) by done. rewrite elem_of_nil. tauto.
Qed.

Lemma run_ops_spec ops : ∀ t,
  prt_inv t → ops_ok (prt_root t) ops →
  ∃ t', for_each run_op t ops = Done t' ∧ prt_inv t' ∧ prt_root t <= prt_root t'
    ∧ prt_root t' = foldl op_root (prt_root t) ops
    ∧ (∀ b, prt_root t' <= bi_slot b → bi_hash b ∈ nf t' (bi_slot b)
         ↔ bi_hash b ∈ nf t (bi_slot b) ∨ b ∈ mjoin (op_nfs <$> ops))
    ∧ (∀ x, prt_root t' <= x → skip t' x = true
         ↔ skip t x = true ∨ x ∈ mjoin (op_skips <$> ops)).
Proof.
  induction ops as [|op ops IH]; intros t Hinv Hok.
  { exists t. split_and!; try done; intros ? ?; cbn; rewrite elem_of_nil; tauto. }
  destruct Hok as [Hop Hok].
  destruct (run_op_spec t op Hinv Hop) as (t1 & E1 & Hinv1 & Hr1 & Hn1 & Hs1).
  rewrite <- Hr1 in Hok. destruct (IH t1 Hinv1 Hok) as (t2 & E2 & Hinv2 & Hle & Hr2 & Hn2 & Hs2).
  exists t2. cbn [for_each]. rewrite E1, Done_bind.
  pose proof (proj2 (proj2 Hop)). split_and!; [done|done|lia|cbn; congruence| |].
  - intros b Hb. rewrite Hn2, Hn1 by lia.
    change (mjoin _) with (op_nfs op ++ mjoin (op_nfs <$> ops)) at 2. rewrite elem_of_app. tauto.
  - intros x Hx. rewrite Hs2, Hs1 by lia.
    change (mjoin _) with (op_skips op ++ mjoin (op_skips <$> ops)) at 2. rewrite elem_of_app. tauto.
Qed.

(** ** Properties *)

(** C5. Run any sequence of tracker operations from the genesis tracker, with slots
    below [u64::MAX] and a root that never moves back.  No operation panics and every
    loop ends.  A block at or above the root is then reported as a valid parent for
    slot [s] exactly when the documented condition holds of the certificates seen:
    [s] starts a window behind the block, the block is genesis or was marked
    notarized-fallback, and every slot strictly between was marked skipped. *)
Theorem parent_ready_correct ops :
  ops_ok 0 ops →
  ∃ t, for_each run_op ParentReadyTracker_default ops = Done t
    ∧ prt_root t = foldl op_root 0 ops
    ∧ ∀ s b, prt_root t <= bi_slot b →
        b ∈ ParentReadyTracker_parents_ready t s
        ↔ is_start_of_window s = true ∧ bi_slot b < s
          ∧ (b = mkBlockId 0 GENESIS_BLOCK_HASH ∨ b ∈ mjoin (op_nfs <$> ops))
          ∧ ∀ x, bi_slot b < x < s → x ∈ mjoin (op_skips <$> ops).
Proof.
  intros Hok.
  destruct (run_ops_spec ops ParentReadyTracker_default default_inv Hok)
    as (t & E & Hinv & _ & Hr & Hn & Hs).
  exists t. split_and!; [done|done|]. intros s b Hb. rewrite parents_ready_view.
  assert (Hskip : ∀ x, prt_root t <= x → skip t x = true ↔ x ∈ mjoin (op_skips <$> ops)).
  { intros x Hx. rewrite (Hs x Hx), default_skip. intuition done. }
  trans (valid_parent t s b); [split; [apply Hinv|by apply (inv_complete t Hinv)]|].
  unfold valid_parent. rewrite (Hn b Hb), default_nf.
  assert (Hx : (∀ x, bi_slot b < x < s → prt_root t <= x → skip t x = true)
               ↔ ∀ x, bi_slot b < x < s → x ∈ mjoin (op_skips <$> ops)).
  { split; intros HH x ?; [|intros ?]; apply Hskip; try lia; apply HH; lia. }
  rewrite Hx. tauto.
Qed.

(** Handling a finalization marks the finalized and implicitly finalized blocks
    and the implicitly skipped slots, and announces one parent: nothing if no block
    became ready, otherwise a newly ready pair of the highest slot among all of them. *)
Theorem finalization_announces_highest t fin imf ims :
  prt_inv t → Forall block_ok (option_list fin ++ imf) → Forall slot_ok ims →
  ∃ best t', ParentReadyTracker_handle_finalization t fin imf ims = Done (best, t')
    ∧ prt_inv t'
    ∧ match best with
      | None => ∀ s, ready t' s ⊆ ready t s
      | Some (mkParentReady s b) =>
          b ∈ ready t' s ∧ (b ∉ ready t s) ∧ ∀ s' b', b' ∈ ready t' s' → b' ∉ ready t s' → s' <= s
      end.
Proof.
  intros Hinv Hn Hs.
  destruct (handle_finalization_spec t fin imf ims Hinv Hn Hs) as (out & t' & E & Hinv' & Hm).
  exists (consider None out), t'. split_and!; [done|done|].
  pose proof (mk_reports _ _ _ _ _ Hm) as Hrep. pose proof (consider_spec out None) as Hc.
  destruct (consider None out) as [[s b]|].
  - destruct Hc as ([?|Hin] & _ & Hmax); [done|].
    split_and!; [apply Hrep; by right|by apply (mk_new _ _ _ _ _ Hm)|].
    intros s' b' [Hb'|Hb']%Hrep Hnb; [done|]. apply (Hmax _ Hb').
  - destruct Hc as [_ ->]. intros s b [?|Hb]%Hrep; [done|]. by apply elem_of_nil in Hb.
Qed.

(** ** Witnesses *)

(** Block 1 is notarized and slots 2 and 3 are skipped, out of order: block 1 is the
    valid parent of slot 4. *)
Lemma parent_ready_correct_witness :
  ∃ t, for_each run_op ParentReadyTracker_default
         [OpSkipped 3; OpNotarFallback (mkBlockId 1 [7]); OpWait 4; OpSkipped 2] = Done t
    ∧ mkBlockId 1 [7] ∈ ParentReadyTracker_parents_ready t 4.
Proof.
  destruct (parent_ready_correct
    [OpSkipped 3; OpNotarFallback (mkBlockId 1 [7]); OpWait 4; OpSkipped 2]) as (t & E & Hr & Hp).
  - unfold op_ok, block_ok, slot_ok, u64_max. cbn. repeat constructor; cbn; lia.
  - exists t. split; [exact E|]. apply Hp; [rewrite Hr; cbn; lia|].
    split; [reflexivity|]. split; [cbn; lia|]. split; [right; apply (bool_decide_unpack _); reflexivity|].
    cbn. intros x Hx. assert (x = 2 ∨ x = 3) as [->| ->] by lia; apply (bool_decide_unpack _); reflexivity.
Defined.

Lemma finalization_announces_highest_witness :
  ∃ best t', ParentReadyTracker_handle_finalization ParentReadyTracker_default
    (Some (mkBlockId 2 [9])) [mkBlockId 1 [7]] [3] = Done (best, t')
    ∧ best = Some (mkParentReady 4 (mkBlockId 2 [9])) ∧ prt_inv t'.
Proof.
  destruct (finalization_announces_highest ParentReadyTracker_default
    (Some (mkBlockId 2 [9])) [mkBlockId 1 [7]] [3] default_inv) as (best & t' & E & Hinv & _).
  - unfold block_ok, slot_ok, u64_max. repeat constructor; cbn; lia.
  - unfold slot_ok, u64_max. repeat constructor; cbn; lia.
  - exists best, t'. split; [exact E|]. split; [|exact Hinv].
    vm_compute in E. injection E as <- _. reflexivity.
Defined.
