(* ===== verification/AlpFinality.v ===== *)
(** Alpenglow finality tracking ([finality_tracker.rs]): direct finalization of
    blocks, the implicit finalization of their ancestors and the implicit skipping
    of the slots between, and the watermark below which everything is decided.

    The [BTreeMap] of slot statuses and the [HashMap] of parent edges are finite
    maps.  A method that returns an event returns it beside the new tracker; its
    panics are [Panicked]. *)
From stdpp Require Import base gmap countable list list_numbers.
From Stdlib Require Import ZArith Lia.
From S2P Require Import Prelude AlpBase.
Open Scope Z_scope.

Inductive FinStatus :=
| Notarized | FinalPendingNotar | Finalized | ImplicitlyFinalized | ImplicitlySkipped.
#[export] Instance FinStatus_eq_dec : EqDecision FinStatus.
Proof. solve_decision. Defined.

Record FinalizationEvent := mkEvent {
  fe_finalized : option BlockId;
  fe_implicitly_finalized : list BlockId;
  fe_implicitly_skipped : list Z;
}.
Definition FinalizationEvent_default : FinalizationEvent := mkEvent None [] [].

Record FinalityTracker := mkFinality {
  ft_status : gmap Z (FinStatus * BlockHash);
  ft_parents : gmap BlockId BlockId;
  ft_highest_finalized_slot : Z;
  ft_first_unpruned_slot : Z;
}.

Definition FinalityTracker_default : FinalityTracker :=
  mkFinality {[ 0 := (Notarized, GENESIS_BLOCK_HASH) ]} ∅ 0 0.

(** [status_insert]: the previous entry, and the tracker with the new one. *)
Definition FinalityTracker_status_insert (t : FinalityTracker) (slot : Z) (st : FinStatus)
    (hash : BlockHash) : option (FinStatus * BlockHash) * FinalityTracker :=
  (ft_status t !! slot,
   mkFinality (<[slot := (st, hash)]> (ft_status t)) (ft_parents t)
     (ft_highest_finalized_slot t) (ft_first_unpruned_slot t)).

Definition push_skipped (ev : FinalizationEvent) (slot : Z) : FinalizationEvent :=
  mkEvent (fe_finalized ev) (fe_implicitly_finalized ev) (fe_implicitly_skipped ev ++ [slot]).
Definition push_finalized (ev : FinalizationEvent) (b : BlockId) : FinalizationEvent :=
  mkEvent (fe_finalized ev) (fe_implicitly_finalized ev ++ [b]) (fe_implicitly_skipped ev).

(** The loop [while slot != source_slot] over the slots between the block and its
    child; the boolean says whether the method returned from within it. *)
Fixpoint skip_between (t : FinalityTracker) (ev : FinalizationEvent) (slots : list Z) :
    Outcome (bool * FinalityTracker * FinalizationEvent) :=
  match slots with
  | [] => mret (false, t, ev)
  | slot :: rest =>
      let '(old, t) := FinalityTracker_status_insert t slot ImplicitlySkipped GENESIS_BLOCK_HASH in
      match old with
      | Some (ImplicitlySkipped, _) => mret (true, t, ev)
      | Some (Notarized, _) | None => skip_between t (push_skipped ev slot) rest
      | Some _ => Panicked
      end
  end.

(** One turn of the walk marks [cur]; [true] says that the method returned. *)
Definition finalize_ancestor (t : FinalityTracker) (ev : FinalizationEvent) (cur : BlockId) :
    Outcome (bool * FinalityTracker * FinalizationEvent) :=
  let '(old, t) := FinalityTracker_status_insert t (bi_slot cur) ImplicitlyFinalized (bi_hash cur) in
  match old with
  | Some (Finalized as st, h) | Some (ImplicitlyFinalized as st, h) =>
      _ ← rust_assert (bool_decide (h = bi_hash cur));
      mret (true, snd (FinalityTracker_status_insert t (bi_slot cur) st h), ev)
  | Some (Notarized, h) =>
      _ ← rust_assert (bool_decide (h = bi_hash cur)); mret (false, t, push_finalized ev cur)
  | Some (FinalPendingNotar, _) | None => mret (false, t, push_finalized ev cur)
  | Some (ImplicitlySkipped, _) => Panicked
  end.

(** The walk follows parent edges, one key of the parent map per turn. *)
Fixpoint implicit_loop (fuel : nat) (t : FinalityTracker) (source_slot : Z) (cur : BlockId)
    (ev : FinalizationEvent) : Outcome (FinalityTracker * FinalizationEvent) :=
  match fuel with
  | O => Panicked
  | S fuel =>
      _ ← rust_assert (bi_slot cur <? source_slot);
      if bi_slot cur <? ft_first_unpruned_slot t then mret (t, ev)
      else
        '(returned, t, ev) ← skip_between t ev (seqZ (bi_slot cur + 1) (source_slot - bi_slot cur - 1));
        if returned : bool then mret (t, ev)
        else
          '(returned, t, ev) ← finalize_ancestor t ev cur;
          if returned : bool then mret (t, ev)
          else
            match ft_parents t !! cur with
            | None => mret (t, ev)
            | Some parent => implicit_loop fuel t (bi_slot cur) parent ev
            end
  end.
Definition implicit_fuel (t : FinalityTracker) : nat := S (size (ft_parents t)).
Definition FinalityTracker_handle_implicitly_finalized (t : FinalityTracker) (source_slot : Z)
    (cur : BlockId) (ev : FinalizationEvent) : Outcome (FinalityTracker * FinalizationEvent) :=
  implicit_loop (implicit_fuel t) t source_slot cur ev.

Definition decided (s : FinStatus) : bool :=
  match s with Finalized | ImplicitlyFinalized | ImplicitlySkipped => true | _ => false end.

(** [prune]: the watermark moves over the decided slots behind it; every turn but
    the last meets another slot of the map. *)
Fixpoint prune_loop (fuel : nat) (status : gmap Z (FinStatus * BlockHash)) (first next : Z) : Z :=
  match fuel with
  | O => first
  | S fuel =>
      match status !! next with
      | Some (s, _) => if decided s then prune_loop fuel status next (u64_add next 1) else first
      | None => first
      end
  end.
Definition FinalityTracker_prune (t : FinalityTracker) : FinalityTracker :=
  let root := prune_loop (S (size (ft_status t))) (ft_status t) (ft_first_unpruned_slot t)
                (u64_add (ft_first_unpruned_slot t) 1) in
  mkFinality (filter (λ kv, root <= kv.1) (ft_status t))
    (filter (λ kv, root <= bi_slot kv.1) (ft_parents t)) (ft_highest_finalized_slot t) root.

Definition FinalityTracker_handle_finalized_block (t : FinalityTracker) (finalized : BlockId)
    (ev : FinalizationEvent) : Outcome (FinalityTracker * FinalizationEvent) :=
  let ev := mkEvent (Some finalized) (fe_implicitly_finalized ev) (fe_implicitly_skipped ev) in
  let t := mkFinality (ft_status t) (ft_parents t)
             (Z.max (ft_highest_finalized_slot t) (bi_slot finalized)) (ft_first_unpruned_slot t) in
  '(t, ev) ← match ft_parents t !! finalized with
             | Some parent =>
                 FinalityTracker_handle_implicitly_finalized t (bi_slot finalized) parent ev
             | None => mret (t, ev)
             end;
  mret (FinalityTracker_prune t, ev).

Definition FinalityTracker_add_parent (t : FinalityTracker) (block parent : BlockId) :
    Outcome (FinalizationEvent * FinalityTracker) :=
  let ev := FinalizationEvent_default in
  _ ← rust_assert (bi_slot parent <? bi_slot block);
  if bi_slot block <? ft_first_unpruned_slot t then mret (ev, t)
  else
    match ft_parents t !! block with
    | Some existing => _ ← rust_assert (bool_decide (existing = parent)); mret (ev, t)
    | None =>
        let t := mkFinality (ft_status t) (<[block := parent]> (ft_parents t))
                   (ft_highest_finalized_slot t) (ft_first_unpruned_slot t) in
        match ft_status t !! bi_slot block with
        | Some (Finalized, h) | Some (ImplicitlyFinalized, h) =>
            if bool_decide (h = bi_hash block) then
              '(t, ev) ← FinalityTracker_handle_implicitly_finalized t (bi_slot block) parent ev;
              mret (ev, FinalityTracker_prune t)
            else mret (ev, t)
        | _ => mret (ev, t)
        end
    end.

Definition FinalityTracker_mark_fast_finalized (t : FinalityTracker) (block : BlockId) :
    Outcome (FinalizationEvent * FinalityTracker) :=
  let ev := FinalizationEvent_default in
  if bi_slot block <? ft_first_unpruned_slot t then mret (ev, t)
  else
    let '(old, t) := FinalityTracker_status_insert t (bi_slot block) Finalized (bi_hash block) in
    let finish := '(t, ev) ← FinalityTracker_handle_finalized_block t block ev; mret (ev, t) in
    match old with
    | Some (Finalized, h) | Some (ImplicitlyFinalized, h) =>
        _ ← rust_assert (bool_decide (h = bi_hash block)); mret (ev, t)
    | Some (Notarized, h) => _ ← rust_assert (bool_decide (h = bi_hash block)); finish
    | Some (FinalPendingNotar, _) | None => finish
    | Some (ImplicitlySkipped, _) => Panicked
    end.

Definition FinalityTracker_mark_notarized (t : FinalityTracker) (block : BlockId) :
    Outcome (FinalizationEvent * FinalityTracker) :=
  let ev := FinalizationEvent_default in
  if bi_slot block <? ft_first_unpruned_slot t then mret (ev, t)
  else
    let '(old, t) := FinalityTracker_status_insert t (bi_slot block) Notarized (bi_hash block) in
    match old with
    | None => mret (ev, t)
    | Some (Notarized, h) | Some (Finalized, h) | Some (ImplicitlyFinalized, h) =>
        _ ← rust_assert (bool_decide (h = bi_hash block)); mret (ev, t)
    | Some (ImplicitlySkipped, _) => mret (ev, t)
    | Some (FinalPendingNotar, _) =>
        let '(_, t) := FinalityTracker_status_insert t (bi_slot block) Finalized (bi_hash block) in
        '(t, ev) ← FinalityTracker_handle_finalized_block t block ev; mret (ev, t)
    end.

Definition FinalityTracker_mark_finalized (t : FinalityTracker) (slot : Z) :
    Outcome (FinalizationEvent * FinalityTracker) :=
  let ev := FinalizationEvent_default in
  if slot <? ft_first_unpruned_slot t then mret (ev, t)
  else
    let '(old, t) := FinalityTracker_status_insert t slot FinalPendingNotar GENESIS_BLOCK_HASH in
    match old with
    | None => mret (ev, t)
    | Some (FinalPendingNotar, _) | Some (Finalized, _) | Some (ImplicitlyFinalized, _) =>
        mret (ev, t)
    | Some (Notarized, h) =>
        let '(_, t) := FinalityTracker_status_insert t slot Finalized h in
        '(t, ev) ← FinalityTracker_handle_finalized_block t (mkBlockId slot h) ev; mret (ev, t)
    | Some (ImplicitlySkipped, _) => Panicked
    end.

(** ** What an event reports *)

Definition ev_blocks (ev : FinalizationEvent) : list BlockId :=
  option_list (fe_finalized ev) ++ fe_implicitly_finalized ev.
Definition reported (ev : FinalizationEvent) (s : Z) : Prop :=
  s ∈ bi_slot <$> ev_blocks ev ∨ s ∈ fe_implicitly_skipped ev.

Lemma reported_push_skipped ev slot s : reported (push_skipped ev slot) s ↔ reported ev s ∨ s = slot.
Proof. unfold reported. cbn. rewrite elem_of_app, list_elem_of_singleton. tauto. Qed.
Lemma reported_push_finalized ev b s :
  reported (push_finalized ev b) s ↔ reported ev s ∨ s = bi_slot b.
Proof.
  unfold reported, ev_blocks. cbn. rewrite app_assoc, !fmap_app, !elem_of_app.
  cbn. rewrite list_elem_of_singleton. tauto.
Qed.

(** ** Consistent inputs

    [chain] is the chain that is finalized: the block hash of a slot, or nothing if
    the slot is skipped.  [notar] gives the block notarized in a slot and [par] the
    parent of a block.  At most one block of a slot is notarized, the blocks of the
    chain are notarized, and the chain is closed under parents. *)
Section consistent.
Context (chain : Z → option BlockHash) (notar : Z → BlockHash) (par : BlockId → BlockId).

Definition on_chain (b : BlockId) : Prop := chain (bi_slot b) = Some (bi_hash b).
Record consistent : Prop := {
  con_genesis : notar 0 = GENESIS_BLOCK_HASH;
  con_notar : ∀ s h, chain s = Some h → h = notar s;
  con_parent : ∀ b, on_chain b → bi_slot (par b) < bi_slot b →
    on_chain (par b) ∧ ∀ x, bi_slot (par b) < x < bi_slot b → chain x = None;
}.

(** What the inputs, the tracker and the events say agrees with the chain. *)
Definition status_ok (s : Z) (e : FinStatus * BlockHash) : Prop :=
  match e with
  | (Notarized, h) => h = notar s
  | (FinalPendingNotar, _) => is_Some (chain s)
  | (Finalized, h) | (ImplicitlyFinalized, h) => chain s = Some h
  | (ImplicitlySkipped, _) => chain s = None
  end.
Record ev_ok (ev : FinalizationEvent) : Prop := {
  eo_blocks : ∀ b, b ∈ ev_blocks ev → on_chain b;
  eo_skipped : ∀ s, s ∈ fe_implicitly_skipped ev → chain s = None;
}.
Record fin_inv (R : Z → Prop) (t : FinalityTracker) : Prop := {
  fi_status : ∀ s e, ft_status t !! s = Some e → status_ok s e;
  fi_edges : ∀ b p, ft_parents t !! b = Some p → p = par b ∧ 0 <= bi_slot p < bi_slot b;
  fi_cover : ∀ s st h, ft_status t !! s = Some (st, h) → decided st = true → R s;
  fi_below : ∀ s, 0 < s <= ft_first_unpruned_slot t → R s;
  fi_range : ∀ s e, ft_status t !! s = Some e → 0 <= s < u64_max;
  fi_root : 0 <= ft_first_unpruned_slot t < u64_max;
}.
Definition run_inv (R : Z → Prop) (t : FinalityTracker) (ev : FinalizationEvent) : Prop :=
  fin_inv (λ s, R s ∨ reported ev s) t ∧ ev_ok ev.

Lemma ev_ok_default : ev_ok FinalizationEvent_default.
Proof. split; [intros b|intros s]; cbn; by intros ?%elem_of_nil. Qed.

Lemma fin_inv_mono (R R' : Z → Prop) t : (∀ s, R s → R' s) → fin_inv R t → fin_inv R' t.
Proof. intros HR []. split; eauto. Qed.

(** A status that agrees with the chain may be written, if its slot is reported. *)
Lemma insert_inv R t s st h o t' :
  fin_inv R t → FinalityTracker_status_insert t s st h = (o, t') →
  status_ok s (st, h) → (decided st = true → R s) → 0 <= s < u64_max → fin_inv R t'.
Proof.
  intros [] [= <- <-] Hok HR Hs. split; cbn; try done.
  - intros x e. rewrite lookup_insert_Some. intros [[<- <-]|[_ ?]]; eauto.
  - intros x st' h'. rewrite lookup_insert_Some. intros [[<- [= <- <-]]|[_ ?]]; eauto.
  - intros x e. rewrite lookup_insert_Some. intros [[<- _]|[_ ?]]; eauto.
Qed.

(** The parts of a tracker the walk leaves alone. *)
Definition same_frame (t t' : FinalityTracker) : Prop :=
  ft_parents t' = ft_parents t ∧ ft_first_unpruned_slot t' = ft_first_unpruned_slot t
  ∧ ft_highest_finalized_slot t' = ft_highest_finalized_slot t.

Lemma skip_between_spec R slots : ∀ t ev,
  run_inv R t ev → Forall (λ s, chain s = None ∧ 0 <= s < u64_max) slots →
  ∃ r t' ev', skip_between t ev slots = Done (r, t', ev')
    ∧ run_inv R t' ev' ∧ same_frame t t' ∧ fe_finalized ev' = fe_finalized ev.
Proof.
  induction slots as [|s slots IH]; intros t ev [Hinv Hev] Hslots; cbn.
  { by exists false, t, ev. }
  apply Forall_cons in Hslots as [[Hs Hr] Hslots].
  set (t1 := mkFinality (<[s:=_]> _) _ _ _).
  assert (Hpush : run_inv R t1 (push_skipped ev s)).
  { split.
    - eapply (insert_inv _ t s ImplicitlySkipped GENESIS_BLOCK_HASH);
        [eapply fin_inv_mono, Hinv|done|done| |done]; cbn.
      + intros x. rewrite reported_push_skipped. tauto.
      + intros _. rewrite reported_push_skipped. tauto.
    - destruct Hev. split; [done|]. intros x. cbn. rewrite elem_of_app, list_elem_of_singleton.
      intros [?| ->]; eauto. }
  assert (Hgo : ∃ r t' ev', skip_between t1 (push_skipped ev s) slots = Done (r, t', ev')
    ∧ run_inv R t' ev' ∧ same_frame t t' ∧ fe_finalized ev' = fe_finalized ev)
    by exact (IH t1 (push_skipped ev s) Hpush Hslots).
  destruct (ft_status t !! s) as [[st h]|] eqn:E; [|done].
  pose proof (fi_status _ _ Hinv _ _ E) as Hst. destruct st; cbn in Hst; try done.
  - destruct Hst. congruence.
  - congruence.
  - congruence.
  - exists true, t1, ev. split_and!; try done. split; [|done].
    eapply (insert_inv _ t s ImplicitlySkipped GENESIS_BLOCK_HASH); try done.
    intros _. by apply (fi_cover _ _ Hinv _ _ _ E).
Qed.

Lemma finalize_ancestor_spec R t ev cur :
  consistent → run_inv R t ev → on_chain cur → 0 <= bi_slot cur < u64_max →
  ∃ r t' ev', finalize_ancestor t ev cur = Done (r, t', ev')
    ∧ run_inv R t' ev' ∧ same_frame t t' ∧ fe_finalized ev' = fe_finalized ev.
Proof.
  intros Hcon [Hinv Hev] Hcur Hr. unfold finalize_ancestor, FinalityTracker_status_insert.
  set (t1 := mkFinality (<[bi_slot cur:=_]> _) _ _ _).
  assert (Hpush : run_inv R t1 (push_finalized ev cur)).
  { split.
    - eapply (insert_inv _ t (bi_slot cur) ImplicitlyFinalized (bi_hash cur));
        [eapply fin_inv_mono, Hinv|done|done| |done]; cbn.
      + intros x. rewrite reported_push_finalized. tauto.
      + intros _. rewrite reported_push_finalized. tauto.
    - destruct Hev as [Hb Hs]. split; [|done]. intros x. unfold ev_blocks in *. cbn.
      rewrite app_assoc, elem_of_app, list_elem_of_singleton. intros [?| ->]; eauto. }
  assert (Hgo : ∃ r t' ev', mret (false, t1, push_finalized ev cur) = Done (r, t', ev')
    ∧ run_inv R t' ev' ∧ same_frame t t' ∧ fe_finalized ev' = fe_finalized ev)
    by by exists false, t1, (push_finalized ev cur).
  assert (Hback : ∀ st h, ft_status t !! bi_slot cur = Some (st, h) → decided st = true →
    ∃ r t' ev', mret (true, (FinalityTracker_status_insert t1 (bi_slot cur) st h).2, ev) = Done (r, t', ev')
    ∧ run_inv R t' ev' ∧ same_frame t t' ∧ fe_finalized ev' = fe_finalized ev).
  { intros st h E Hd. eexists true, _, ev. split; [done|]. split; [|done]. split; [|done].
    eapply (insert_inv _ t1 (bi_slot cur) st h); [|done|by eapply fi_status| |done].
    - eapply (insert_inv _ t (bi_slot cur) ImplicitlyFinalized); [exact Hinv|done|done| |done].
      intros _. by apply (fi_cover _ _ Hinv _ _ _ E).
    - intros _. by apply (fi_cover _ _ Hinv _ _ _ E). }
  destruct (ft_status t !! bi_slot cur) as [[st h]|] eqn:E; [|done].
  pose proof (fi_status _ _ Hinv _ _ E) as Hst. unfold on_chain in Hcur.
  destruct st; cbn in Hst; try done.
  - rewrite bool_decide_eq_true_2; [done|]. by rewrite (con_notar Hcon _ _ Hcur).
  - rewrite bool_decide_eq_true_2 by congruence. exact (Hback _ _ eq_refl eq_refl).
  - rewrite bool_decide_eq_true_2 by congruence. exact (Hback _ _ eq_refl eq_refl).
  - congruence.
Qed.

(** Following an edge leaves fewer keys of the parent map at or below the block. *)
Definition keys_upto (m : gmap BlockId BlockId) (c : Z) : gset BlockId :=
  filter (λ k, bi_slot k <= c) (dom m).
Lemma keys_upto_step m cur p :
  m !! cur = Some p → bi_slot p < bi_slot cur →
  (size (keys_upto m (bi_slot p)) < size (keys_upto m (bi_slot cur)))%nat.
Proof.
  intros Hm Hlt. apply subset_size. split.
  - intros k. unfold keys_upto. rewrite !elem_of_filter. intros [? ?]. split; [lia|done].
  - intros Hsub. assert (Hc : cur ∈ keys_upto m (bi_slot p)).
    { apply Hsub. apply elem_of_filter. split; [lia|]. by apply elem_of_dom_2 in Hm. }
    apply elem_of_filter in Hc as [? _]. lia.
Qed.

Lemma implicit_loop_spec R : consistent → ∀ fuel t source cur ev,
  run_inv R t ev → on_chain cur → 0 <= bi_slot cur < source → source <= u64_max →
  (∀ x, bi_slot cur < x < source → chain x = None) →
  (size (keys_upto (ft_parents t) (bi_slot cur)) < fuel)%nat →
  ∃ t' ev', implicit_loop fuel t source cur ev = Done (t', ev')
    ∧ run_inv R t' ev' ∧ same_frame t t' ∧ fe_finalized ev' = fe_finalized ev.
Proof.
  intros Hcon. induction fuel as [|fuel IH]; intros t source cur ev Hri Hcur Hlt Hmax Hgap Hfuel; [lia|].
  cbn [implicit_loop]. rewrite (proj2 (Z.ltb_lt (bi_slot cur) source)) by lia. cbn [rust_assert]. rewrite Done_bind.
  case_match; [by exists t, ev|].
  destruct (skip_between_spec R (seqZ (bi_slot cur + 1) (source - bi_slot cur - 1)) t ev Hri)
    as (r1 & t1 & ev1 & E1 & Hri1 & Hf1 & He1).
  { apply Forall_forall. intros x Hx%elem_of_seqZ. split; [apply Hgap; lia|lia]. }
  rewrite E1, Done_bind. destruct r1; [by exists t1, ev1|].
  destruct (finalize_ancestor_spec R t1 ev1 cur Hcon Hri1 Hcur) as (r2 & t2 & ev2 & E2 & Hri2 & Hf2 & He2);
    [lia|].
  rewrite E2, Done_bind.
  assert (Hf : same_frame t t2) by (unfold same_frame in *; intuition congruence).
  assert (He : fe_finalized ev2 = fe_finalized ev) by congruence.
  destruct r2; [by exists t2, ev2|].
  destruct (ft_parents t2 !! cur) as [p|] eqn:Ep; [|by exists t2, ev2].
  destruct (fi_edges _ _ (proj1 Hri2) _ _ Ep) as [-> Hp].
  destruct (con_parent Hcon cur Hcur) as [Hpar Hgap']; [lia|].
  pose proof (keys_upto_step _ _ _ Ep ltac:(lia)) as Hstep. rewrite (proj1 Hf) in Hstep.
  destruct (IH t2 (bi_slot cur) (par cur) ev2) as (t' & ev' & E & Hri' & Hf' & He'); try done; try lia.
  { rewrite (proj1 Hf). lia. }
  exists t', ev'. split_and!; [done|done| |congruence]. unfold same_frame in *. intuition congruence.
Qed.

Lemma handle_implicitly_spec R t source cur ev :
  consistent → run_inv R t ev → on_chain cur → 0 <= bi_slot cur < source → source <= u64_max →
  (∀ x, bi_slot cur < x < source → chain x = None) →
  ∃ t' ev', FinalityTracker_handle_implicitly_finalized t source cur ev = Done (t', ev')
    ∧ run_inv R t' ev' ∧ same_frame t t' ∧ fe_finalized ev' = fe_finalized ev.
Proof.
  intros. apply implicit_loop_spec; try done. unfold implicit_fuel.
  apply Nat.lt_succ_r. rewrite <- size_dom. apply subseteq_size.
  intros k. unfold keys_upto. by rewrite elem_of_filter; intros [].
Qed.

(** *** Pruning *)

Lemma prune_loop_spec (status : gmap Z (FinStatus * BlockHash)) :
  (∀ s e, status !! s = Some e → s < u64_max) →
  ∀ fuel first, 0 <= first < u64_max →
  (size (filter (λ k, (first < k)%Z) (dom status) : gset Z) < fuel)%nat →
  let r := prune_loop fuel status first (u64_add first 1) in
  first <= r < u64_max
  ∧ (∀ s, first < s <= r → ∃ st h, status !! s = Some (st, h) ∧ decided st = true)
  ∧ (∀ st h, status !! (r + 1) = Some (st, h) → decided st = false).
Proof.
  intros Hmax. induction fuel as [|fuel IH]; intros first Hf Hfuel; [lia|]. cbn [prune_loop].
  assert (E : u64_add first 1 = first + 1) by (apply wrap64_small; unfold is_u64; lia).
  rewrite E. destruct (status !! (first + 1)) as [[st h]|] eqn:Es; cbn zeta.
  2:{ split_and!; [lia|lia|intros s ?; lia|congruence]. }
  destruct (decided st) eqn:Ed.
  2:{ split_and!; [lia|lia|intros s ?; lia|congruence]. }
  pose proof (Hmax _ _ Es).
  destruct (IH (first + 1)) as (H1 & H2 & H3); [lia| |].
  - eapply Nat.lt_le_trans; [|apply Nat.lt_succ_r, Hfuel]. apply subset_size. split.
    + intros k. rewrite !elem_of_filter. intros [? ?]. split; [lia|done].
    + intros Hsub. assert (Hc : first + 1 ∈ (filter (λ k, (first + 1 < k)%Z) (dom status) : gset Z)).
      { apply Hsub, elem_of_filter. split; [lia|]. by apply elem_of_dom_2 in Es. }
      apply elem_of_filter in Hc as [? _]. lia.
  - split_and!; [lia|lia| |done]. intros s Hs. destruct (decide (s = first + 1)) as [->|]; [eauto|].
    apply H2. lia.
Qed.

Lemma prune_inv R t :
  fin_inv R t →
  let t' := FinalityTracker_prune t in
  fin_inv R t' ∧ ft_first_unpruned_slot t <= ft_first_unpruned_slot t'
  ∧ ft_highest_finalized_slot t' = ft_highest_finalized_slot t
  ∧ ∀ st h, ft_status t' !! (ft_first_unpruned_slot t' + 1) = Some (st, h) → decided st = false.
Proof.
  intros [Hst Hed Hcov Hbel Hrg Hrt]. cbn zeta.
  destruct (prune_loop_spec (ft_status t) ltac:(intros s e Hs; apply Hrg in Hs; lia)
    (S (size (ft_status t))) (ft_first_unpruned_slot t) Hrt) as (H1 & H2 & H3).
  { apply Nat.lt_succ_r. rewrite <- size_dom. apply subseteq_size.
    intros k. by rewrite elem_of_filter; intros []. }
  unfold FinalityTracker_prune. set (r := prune_loop _ _ _ _) in *. clearbody r.
  assert (Hl : ∀ s e, filter (λ kv : Z * (FinStatus * BlockHash), r <= kv.1) (ft_status t) !! s = Some e →
    ft_status t !! s = Some e) by (intros s e [? _]%map_lookup_filter_Some; done).
  split_and!; cbn; [split; cbn|lia|done|intros st h Hs; by apply H3 with h, Hl].
  - intros s e Hs. by apply Hst, Hl.
  - intros b p [Hp _]%map_lookup_filter_Some. by apply Hed.
  - intros s st h Hs. apply (Hcov _ _ h). by apply Hl.
  - intros s Hs. destruct (Z.le_gt_cases s (ft_first_unpruned_slot t)); [apply Hbel; lia|].
    destruct (H2 s ltac:(lia)) as (st & h & Hs' & Hd). by eapply Hcov.
  - intros s e Hs. by eapply Hrg, Hl.
  - lia.
Qed.

(** *** Operations *)

Definition raise_highest (h : Z) (ev : FinalizationEvent) : Z :=
  match fe_finalized ev with Some b => Z.max h (bi_slot b) | None => h end.

(** What a call leaves behind, started on [t] with the slots [R] reported before. *)
Record op_result (R : Z → Prop) (t : FinalityTracker) (ev : FinalizationEvent)
    (t' : FinalityTracker) : Prop := {
  or_run : run_inv R t' ev;
  or_first : ft_first_unpruned_slot t <= ft_first_unpruned_slot t';
  or_highest : ft_highest_finalized_slot t' = raise_highest (ft_highest_finalized_slot t) ev;
}.

Lemma op_result_default R t t' :
  fin_inv R t' → ft_first_unpruned_slot t' = ft_first_unpruned_slot t →
  ft_highest_finalized_slot t' = ft_highest_finalized_slot t →
  op_result R t FinalizationEvent_default t'.
Proof.
  intros Hinv Hf Hh. split; [|lia|done]. split; [|apply ev_ok_default].
  eapply fin_inv_mono; [|done]. tauto.
Qed.

Lemma handle_finalized_block_spec R t b :
  consistent → fin_inv (λ s, R s ∨ s = bi_slot b) t → on_chain b → 0 <= bi_slot b < u64_max →
  ∃ t' ev, FinalityTracker_handle_finalized_block t b FinalizationEvent_default = Done (t', ev)
    ∧ op_result R t ev t' ∧ fe_finalized ev = Some b.
Proof.
  intros Hcon Hinv Hb Hr. unfold FinalityTracker_handle_finalized_block.
  set (t1 := mkFinality _ _ _ _). set (ev1 := mkEvent _ _ _).
  assert (Hri : run_inv R t1 ev1).
  { split.
    - destruct Hinv as [? ? Hcov Hbel ? ?].
      split; try done; [intros s st h Hs Hd|intros s Hs];
        [destruct (Hcov s st h Hs Hd) as [?| ->]|destruct (Hbel s Hs) as [?| ->]]; try (by left).
      all: right; left; cbn; by left.
    - split; cbn; [by intros x ->%list_elem_of_singleton|by intros s ?%elem_of_nil]. }
  assert (Hwalk : ∃ t2 ev2,
    match ft_parents t1 !! b with
    | Some parent => FinalityTracker_handle_implicitly_finalized t1 (bi_slot b) parent ev1
    | None => mret (t1, ev1)
    end = Done (t2, ev2) ∧ run_inv R t2 ev2 ∧ same_frame t1 t2 ∧ fe_finalized ev2 = fe_finalized ev1).
  { destruct (ft_parents t1 !! b) as [p|] eqn:Ep; [|by exists t1, ev1].
    destruct (fi_edges _ _ (proj1 Hri) _ _ Ep) as [-> Hp].
    destruct (con_parent Hcon b Hb) as [? ?]; [lia|]. apply handle_implicitly_spec; try done. lia. }
  destruct Hwalk as (t2 & ev2 & -> & [Hinv2 Hev2] & (_ & Hf & Hh) & He). rewrite Done_bind.
  destruct (prune_inv _ _ Hinv2) as (Hinv3 & Hf3 & Hh3 & _).
  exists (FinalityTracker_prune t2), ev2. split_and!; [done| |done].
  split; [done|by rewrite <- Hf3, Hf|]. unfold raise_highest. rewrite Hh3, Hh, He. done.
Qed.

Inductive ft_op :=
| FtParent (block parent : BlockId)
| FtFastFinalized (block : BlockId)
| FtNotarized (block : BlockId)
| FtFinalized (slot : Z).

Definition ft_run (t : FinalityTracker) (op : ft_op) : Outcome (FinalizationEvent * FinalityTracker) :=
  match op with
  | FtParent b p => FinalityTracker_add_parent t b p
  | FtFastFinalized b => FinalityTracker_mark_fast_finalized t b
  | FtNotarized b => FinalityTracker_mark_notarized t b
  | FtFinalized s => FinalityTracker_mark_finalized t s
  end.

Definition op_slot (op : ft_op) : Z :=
  match op with FtParent b _ | FtFastFinalized b | FtNotarized b => bi_slot b | FtFinalized s => s end.
Definition op_consistent (op : ft_op) : Prop :=
  0 <= op_slot op < u64_max
  ∧ match op with
    | FtParent b p => p = par b ∧ 0 <= bi_slot p < bi_slot b
    | FtFastFinalized b => on_chain b
    | FtNotarized b => bi_hash b = notar (bi_slot b)
    | FtFinalized s => is_Some (chain s)
    end.

(** A call that stores a status and then handles the finalized block. *)
Lemma finalize_spec R t1 t b :
  consistent → fin_inv R t1 → same_frame t1 t → on_chain b → 0 <= bi_slot b < u64_max →
  ft_status t = <[bi_slot b := (Finalized, bi_hash b)]> (ft_status t1) →
  ∃ ev t', ('(t, ev) ← FinalityTracker_handle_finalized_block t b FinalizationEvent_default;
            mret (ev, t)) = Done (ev, t') ∧ op_result R t1 ev t'.
Proof.
  intros Hcon Hinv (Hf1 & Hf2 & Hf3) Hb Hr Hst.
  destruct (handle_finalized_block_spec R t b Hcon) as (t' & ev & -> & [? ? ?] & _); try done.
  - destruct (insert_inv (λ s, R s ∨ s = bi_slot b) t1 (bi_slot b) Finalized (bi_hash b) _ _
      ltac:(eapply fin_inv_mono; [|exact Hinv]; tauto) eq_refl); try done; [by right|].
    split; cbn in *; rewrite ?Hf1, ?Hf2, ?Hst; done.
  - exists ev, t'. split; [done|]. rewrite Hf2, Hf3 in *. by split.
Qed.

Section step.
Context (R : Z → Prop) (t : FinalityTracker) (Hcon : consistent) (Hinv : fin_inv R t).

Lemma add_parent_spec b p :
  op_consistent (FtParent b p) →
  ∃ ev t', FinalityTracker_add_parent t b p = Done (ev, t') ∧ op_result R t ev t'.
Proof using Hcon Hinv.
  intros (Hr & -> & Hp). unfold FinalityTracker_add_parent. cbn in Hr.
  rewrite (proj2 (Z.ltb_lt (bi_slot (par b)) (bi_slot b))) by lia. cbn [rust_assert]. rewrite Done_bind.
  assert (Hsame : ∃ ev t', mret (FinalizationEvent_default, t) = Done (ev, t') ∧ op_result R t ev t').
  { eexists _, _. split; [done|]. by apply op_result_default. }
  case_match; [done|]. destruct (ft_parents t !! b) as [p|] eqn:Ep.
  { destruct (fi_edges _ _ Hinv _ _ Ep) as [-> _]. rewrite bool_decide_eq_true_2 by done. done. }
  set (t1 := mkFinality _ _ _ _).
  assert (Hinv1 : fin_inv R t1).
  { destruct Hinv. split; try done. cbn. intros b' p'. rewrite lookup_insert_Some.
    intros [[<- <-]|[_ ?]]; [split; [done|lia]|eauto]. }
  assert (Hmark : ∃ ev t', mret (FinalizationEvent_default, t1) = Done (ev, t') ∧ op_result R t ev t').
  { eexists _, _. split; [done|]. by apply op_result_default. }
  assert (Hfin : on_chain b →
    ∃ ev t', ('(t, ev) ← FinalityTracker_handle_implicitly_finalized t1 (bi_slot b) (par b)
                FinalizationEvent_default; mret (ev, FinalityTracker_prune t)) = Done (ev, t')
      ∧ op_result R t ev t').
  { intros Hb. destruct (con_parent Hcon b Hb) as [? ?]; [lia|].
    destruct (handle_implicitly_spec R t1 (bi_slot b) (par b) FinalizationEvent_default)
      as (t2 & ev & -> & [Hinv2 Hev] & (_ & Hf & Hh) & He); try done; [|lia|].
    { split; [eapply fin_inv_mono; [|exact Hinv1]; tauto|apply ev_ok_default]. }
    destruct (prune_inv _ _ Hinv2) as (Hinv3 & Hf3 & Hh3 & _).
    eexists _, _. split; [done|]. split; [done|by rewrite <- Hf3, Hf|].
    unfold raise_highest. by rewrite Hh3, Hh, He. }
  destruct (ft_status t1 !! bi_slot b) as [[st h]|] eqn:Es; [|done].
  pose proof (fi_status _ _ Hinv1 _ _ Es) as Hst.
  destruct st; try done; case_bool_decide as Hh; try done; subst h; by apply Hfin.
Qed.

Lemma mark_fast_finalized_spec b :
  op_consistent (FtFastFinalized b) →
  ∃ ev t', FinalityTracker_mark_fast_finalized t b = Done (ev, t') ∧ op_result R t ev t'.
Proof using Hcon Hinv.
  intros [Hr Hb]. cbn in Hr. unfold FinalityTracker_mark_fast_finalized.
  case_match; [eexists _, _; split; [done|by apply op_result_default]|].
  destruct (FinalityTracker_status_insert t _ _ _) as [o t1] eqn:Ei.
  assert (Hgo : ∃ ev t', ('(t, ev) ← FinalityTracker_handle_finalized_block t1 b FinalizationEvent_default;
            mret (ev, t)) = Done (ev, t') ∧ op_result R t ev t').
  { injection Ei as <- <-. by apply finalize_spec. }
  assert (Hkeep : R (bi_slot b) → ∃ ev t', mret (FinalizationEvent_default, t1) = Done (ev, t')
                                         ∧ op_result R t ev t').
  { intros HR. eexists _, _. split; [done|]. apply op_result_default; [by eapply insert_inv|by injection Ei as <- <-..]. }
  injection Ei as <- E1. destruct (ft_status t !! bi_slot b) as [[st h]|] eqn:Es; [|done].
  pose proof (fi_status _ _ Hinv _ _ Es) as Hst. pose proof (fi_cover _ _ Hinv _ _ _ Es) as HR.
  unfold on_chain in Hb. destruct st; cbn in Hst, HR; try done.
  - rewrite bool_decide_eq_true_2; [done|]. by rewrite (con_notar Hcon _ _ Hb).
  - rewrite bool_decide_eq_true_2 by congruence. apply Hkeep. auto.
  - rewrite bool_decide_eq_true_2 by congruence. apply Hkeep. auto.
  - congruence.
Qed.

Lemma mark_notarized_spec b :
  op_consistent (FtNotarized b) →
  ∃ ev t', FinalityTracker_mark_notarized t b = Done (ev, t') ∧ op_result R t ev t'.
Proof using Hcon Hinv.
  intros [Hr Hb]. cbn in Hr. unfold FinalityTracker_mark_notarized.
  case_match; [eexists _, _; split; [done|by apply op_result_default]|].
  destruct (FinalityTracker_status_insert t _ _ _) as [o t1] eqn:Ei.
  assert (Hkeep : ∃ ev t', mret (FinalizationEvent_default, t1) = Done (ev, t') ∧ op_result R t ev t').
  { eexists _, _. split; [done|]. apply op_result_default; [by eapply insert_inv|by injection Ei as <- <-..]. }
  injection Ei as <- E1. destruct (ft_status t !! bi_slot b) as [[st h]|] eqn:Es; [|done].
  pose proof (fi_status _ _ Hinv _ _ Es) as Hst. destruct st; cbn in Hst; try done.
  - rewrite bool_decide_eq_true_2 by congruence. done.
  - destruct Hst as [h' Hh']. cbn. apply finalize_spec; try done.
    + by subst t1.
    + unfold on_chain. rewrite Hh', Hb. f_equal. by apply con_notar.
    + subst t1. cbn. by rewrite insert_insert_eq.
  - rewrite bool_decide_eq_true_2; [done|]. rewrite Hb. by apply con_notar.
  - rewrite bool_decide_eq_true_2; [done|]. rewrite Hb. by apply con_notar.
Qed.

Lemma mark_finalized_spec s :
  op_consistent (FtFinalized s) →
  ∃ ev t', FinalityTracker_mark_finalized t s = Done (ev, t') ∧ op_result R t ev t'.
Proof using Hcon Hinv.
  intros [Hr Hs]. cbn in Hr. unfold FinalityTracker_mark_finalized.
  case_match; [eexists _, _; split; [done|by apply op_result_default]|].
  destruct (FinalityTracker_status_insert t _ _ _) as [o t1] eqn:Ei.
  assert (Hkeep : ∃ ev t', mret (FinalizationEvent_default, t1) = Done (ev, t') ∧ op_result R t ev t').
  { eexists _, _. split; [done|]. apply op_result_default; [by eapply insert_inv|by injection Ei as <- <-..]. }
  injection Ei as <- E1. destruct (ft_status t !! s) as [[st h]|] eqn:Es; [|done].
  pose proof (fi_status _ _ Hinv _ _ Es) as Hst. destruct st; cbn in Hst; try done.
  - destruct Hs as [h' Hh']. subst h. cbn. apply finalize_spec; try done.
    + by subst t1.
    + unfold on_chain. cbn. rewrite Hh'. f_equal. by apply con_notar.
    + subst t1. cbn. by rewrite insert_insert_eq.
  - destruct Hs. congruence.
Qed.
End step.

Definition ft_step (r : list FinalizationEvent * FinalityTracker) (op : ft_op) :
    Outcome (list FinalizationEvent * FinalityTracker) :=
  '(ev, t) ← ft_run r.2 op; mret (r.1 ++ [ev], t).

Definition reported_by (evs : list FinalizationEvent) (s : Z) : Prop := ∃ ev, ev ∈ evs ∧ reported ev s.

Record evs_inv (r : list FinalizationEvent * FinalityTracker) : Prop := {
  ei_inv : fin_inv (reported_by r.1) r.2;
  ei_ok : Forall ev_ok r.1;
  ei_highest : ft_highest_finalized_slot r.2 = foldl raise_highest 0 r.1;
}.

Lemma ft_step_spec r op :
  consistent → evs_inv r → op_consistent op → ∃ r', ft_step r op = Done r' ∧ evs_inv r'.
Proof.
  intros Hcon [Hinv Hok Hh] Hop. destruct r as [evs t]. cbn in *.
  assert (∃ ev t', ft_run t op = Done (ev, t') ∧ op_result (reported_by evs) t ev t')
    as (ev & t' & E & [[Hinv' Hev] _ Hhi]).
  { destruct op; cbn [ft_run].
    - by apply add_parent_spec. - by apply mark_fast_finalized_spec.
    - by apply mark_notarized_spec. - by apply mark_finalized_spec. }
  exists (evs ++ [ev], t'). unfold ft_step. cbn. rewrite E. split; [done|]. split; cbn.
  - eapply fin_inv_mono; [|exact Hinv']. intros s [(ev' & Hin & Hs)|Hs].
    + exists ev'. split; [apply elem_of_app; by left|done].
    + exists ev. split; [apply elem_of_app; right; by left|done].
  - apply Forall_app. by split; [|apply Forall_singleton].
  - by rewrite foldl_app, <- Hh.
Qed.

Lemma default_evs_inv : consistent → evs_inv ([], FinalityTracker_default).
Proof.
  intros [Hg _ _]. split; [|constructor|done]. split; cbn; try done.
  - intros s e. rewrite lookup_singleton_Some. by intros [<- <-].
  - intros s st h. rewrite lookup_singleton_Some. by intros [<- [= <- <-]].
  - intros s Hs. lia.
  - intros s e. rewrite lookup_singleton_Some. by intros [<- _].
Qed.

Lemma ft_steps_spec ops : ∀ r,
  consistent → evs_inv r → Forall op_consistent ops → ∃ r', for_each ft_step r ops = Done r' ∧ evs_inv r'.
Proof.
  induction ops as [|op ops IH]; intros r Hcon Hr Hops; [by exists r|].
  apply Forall_cons in Hops as [Hop Hops].
  destruct (ft_step_spec r op Hcon Hr Hop) as (r1 & E1 & Hr1). cbn [for_each]. rewrite E1, Done_bind.
  by apply IH.
Qed.

(** ** Properties *)

(** C6. Feed the tracker any sequence of parent edges, notarizations, finalizations
    and fast finalizations that agree with one finalized chain.  No call panics, and
    the walk through the ancestors ends.  Every block the events report as finalized
    is on the chain and every slot they report as skipped is not.  No slot is lost:
    each slot up to the pruning watermark was reported, its block as finalized or the
    slot as skipped, and the highest finalized slot is the highest one reported. *)
Theorem finality_follows_chain ops :
  consistent → Forall op_consistent ops →
  ∃ evs t, for_each ft_step ([], FinalityTracker_default) ops = Done (evs, t)
    ∧ Forall ev_ok evs
    ∧ ft_highest_finalized_slot t = foldl raise_highest 0 evs
    ∧ ∀ s, 0 < s <= ft_first_unpruned_slot t →
        match chain s with
        | Some h => ∃ ev, ev ∈ evs ∧ mkBlockId s h ∈ ev_blocks ev
        | None => ∃ ev, ev ∈ evs ∧ s ∈ fe_implicitly_skipped ev
        end.
Proof.
  intros Hcon Hops.
  destruct (ft_steps_spec ops _ Hcon (default_evs_inv Hcon) Hops) as ([evs t] & E & [Hinv Hok Hh]).
  exists evs, t. split_and!; [done..|]. intros s Hs.
  destruct (fi_below _ _ Hinv s Hs) as (ev & Hin & Hrep).
  rewrite Forall_forall in Hok. destruct (Hok ev Hin) as [Hb Hsk].
  destruct Hrep as [(b & -> & Hbb)%list_elem_of_fmap|Hs'].
  - pose proof (Hb b Hbb) as Hc. rewrite Hc. exists ev. split; [done|]. by destruct b.
  - rewrite (Hsk s Hs'). by exists ev.
Qed.
End consistent.

(** ** Arbitrary inputs

    Whatever the inputs say, a call that returns keeps slots in range and the watermark
    never moves back. *)

Definition in_range (s : Z) : Prop := 0 <= s < u64_max.
Record ft_ok (t : FinalityTracker) : Prop := {
  fo_status : ∀ s e, ft_status t !! s = Some e → in_range s;
  fo_edges : ∀ b p, ft_parents t !! b = Some p → in_range (bi_slot p);
  fo_first : in_range (ft_first_unpruned_slot t);
}.
Record ev_range (ev : FinalizationEvent) : Prop := {
  er_blocks : Forall (λ b, in_range (bi_slot b)) (ev_blocks ev);
  er_skipped : Forall in_range (fe_implicitly_skipped ev);
}.

Lemma default_ft_ok : ft_ok FinalityTracker_default.
Proof.
  split; [|done|done]. intros s e Hs. cbn in Hs. apply lookup_singleton_Some in Hs as [<- _]. done.
Qed.

Lemma status_insert_ok t s st h o t' :
  ft_ok t → in_range s → FinalityTracker_status_insert t s st h = (o, t') →
  ft_ok t' ∧ ft_first_unpruned_slot t' = ft_first_unpruned_slot t.
Proof.
  intros [] Hs [= <- <-]. split; [|done]. split; cbn; try done.
  intros x e. rewrite lookup_insert_Some. intros [[<- _]|[_ ?]]; eauto.
Qed.

(** A call on [t] left [t'] and the event [ev]. *)
Definition ft_moved (t t' : FinalityTracker) (ev : FinalizationEvent) : Prop :=
  ft_ok t' ∧ ev_range ev ∧ ft_first_unpruned_slot t <= ft_first_unpruned_slot t'.

Lemma skip_between_ok slots : ∀ t ev r t' ev',
  ft_ok t → ev_range ev → Forall in_range slots → skip_between t ev slots = Done (r, t', ev') →
  ft_moved t t' ev'.
Proof.
  induction slots as [|s slots IH]; intros t ev r t' ev' Ht Hev Hs; cbn.
  { intros [= <- <- <-]. by split_and!. }
  apply Forall_cons in Hs as [Hs Hslots].
  destruct (status_insert_ok t s ImplicitlySkipped GENESIS_BLOCK_HASH _ _ Ht Hs eq_refl) as [Ht1 Hf1].
  destruct Hev as [Hb Hk].
  assert (Hev1 : ev_range (push_skipped ev s)).
  { split; [done|]. cbn. apply Forall_app. by split; [|apply Forall_singleton]. }
  destruct (ft_status t !! s) as [[[] h]|]; try done.
  - intros E. destruct (IH _ _ _ _ _ Ht1 Hev1 Hslots E) as (? & ? & Hle). split_and!; try done.
  - intros [= <- <- <-]. split_and!; try done.
  - intros E. destruct (IH _ _ _ _ _ Ht1 Hev1 Hslots E) as (? & ? & Hle). split_and!; try done.
Qed.

Lemma finalize_ancestor_ok t ev cur r t' ev' :
  ft_ok t → ev_range ev → in_range (bi_slot cur) → finalize_ancestor t ev cur = Done (r, t', ev') →
  ft_moved t t' ev'.
Proof.
  intros Ht [Hb Hk] Hs. unfold finalize_ancestor.
  destruct (FinalityTracker_status_insert t _ _ _) as [o t1] eqn:Ei.
  destruct (status_insert_ok _ _ _ _ _ _ Ht Hs Ei) as [Ht1 Hf1].
  assert (Hev1 : ev_range (push_finalized ev cur)).
  { split; [|done]. unfold ev_blocks in *. cbn. rewrite app_assoc. apply Forall_app.
    by split; [|apply Forall_singleton]. }
  assert (Hback : ∀ st h, ft_moved t (FinalityTracker_status_insert t1 (bi_slot cur) st h).2 ev).
  { intros st h. destruct (status_insert_ok t1 (bi_slot cur) st h _ _ Ht1 Hs eq_refl) as [? Hf].
    split_and!; [done|done|cbn in *; lia]. }
  destruct o as [[[] h]|]; intros E; try done; rewrite ?bind_Done in E;
    try (destruct E as (_ & _ & E)); injection E as <- <- <-; try apply Hback.
  all: split_and!; try done; lia.
Qed.

Lemma implicit_loop_ok fuel : ∀ t source cur ev t' ev',
  ft_ok t → ev_range ev → in_range (bi_slot cur) → source <= u64_max →
  implicit_loop fuel t source cur ev = Done (t', ev') → ft_moved t t' ev'.
Proof.
  induction fuel as [|fuel IH]; intros t source cur ev t' ev' Ht Hev Hc Hs; cbn [implicit_loop]; [done|].
  intros (_ & _ & E)%bind_Done. case_match; [injection E as <- <-; by split_and!|].
  apply bind_Done in E as ([[r1 t1] ev1] & E1 & E).
  assert (Hsl : Forall in_range (seqZ (bi_slot cur + 1) (source - bi_slot cur - 1))).
  { apply Forall_forall. intros x Hx%elem_of_seqZ. unfold in_range in *. lia. }
  destruct (skip_between_ok _ _ _ _ _ _ Ht Hev Hsl E1) as (Ht1 & Hev1 & Hf1).
  destruct r1; [injection E as <- <-; by split_and!|].
  apply bind_Done in E as ([[r2 t2] ev2] & E2 & E).
  destruct (finalize_ancestor_ok _ _ _ _ _ _ Ht1 Hev1 Hc E2) as (Ht2 & Hev2 & Hf2).
  assert (Hm : ft_moved t t2 ev2) by (split_and!; [done|done|lia]).
  destruct r2; [by injection E as <- <-|].
  destruct (ft_parents t2 !! cur) as [p|] eqn:Ep; [|by injection E as <- <-].
  destruct (IH t2 (bi_slot cur) p ev2 t' ev' Ht2 Hev2 (fo_edges _ Ht2 _ _ Ep) ltac:(unfold in_range in *; lia) E)
    as (? & ? & ?). split_and!; [done|done|lia].
Qed.

Lemma prune_ok t ev : ft_ok t → ev_range ev → ft_moved t (FinalityTracker_prune t) ev.
Proof.
  intros [Hst Hed Hf] Hev.
  destruct (prune_loop_spec (ft_status t) ltac:(intros s e Hs; apply Hst in Hs; unfold in_range in *; lia)
    (S (size (ft_status t))) (ft_first_unpruned_slot t) Hf) as (H1 & _ & _).
  { apply Nat.lt_succ_r. rewrite <- size_dom. apply subseteq_size.
    intros k. by rewrite elem_of_filter; intros []. }
  unfold ft_moved, FinalityTracker_prune. set (r := prune_loop _ _ _ _) in *. clearbody r.
  split_and!; [|done|cbn; lia]. split; cbn.
  - intros s e [Hs _]%map_lookup_filter_Some. by eapply Hst.
  - intros b p [Hp _]%map_lookup_filter_Some. by eapply Hed.
  - unfold in_range in *. lia.
Qed.

Lemma handle_finalized_block_ok t b t' ev :
  ft_ok t → in_range (bi_slot b) →
  FinalityTracker_handle_finalized_block t b FinalizationEvent_default = Done (t', ev) → ft_moved t t' ev.
Proof.
  intros Ht Hb. unfold FinalityTracker_handle_finalized_block.
  set (t1 := mkFinality _ _ _ _). set (ev1 := mkEvent _ _ _).
  intros ([t2 ev2] & E & [= <- <-])%bind_Done.
  assert (Ht1 : ft_ok t1) by (destruct Ht; by split).
  assert (Hev1 : ev_range ev1) by (split; [by apply Forall_singleton|constructor]).
  assert (ft_moved t1 t2 ev2) as (Ht2 & Hev2 & Hf2).
  { destruct (ft_parents t1 !! b) as [p|] eqn:Ep; [|injection E as <- <-; by split_and!].
    eapply implicit_loop_ok; [..|exact E]; try done; [by eapply fo_edges|unfold in_range in *; lia]. }
  destruct (prune_ok t2 ev2 Ht2 Hev2) as (? & ? & ?). split_and!; [done|done|]. cbn in *. lia.
Qed.

Definition op_range (op : ft_op) : Prop :=
  in_range (op_slot op) ∧ match op with FtParent _ p => 0 <= bi_slot p | _ => True end.

Lemma ev_range_default : ev_range FinalizationEvent_default.
Proof. split; constructor. Qed.
Lemma ft_moved_refl t : ft_ok t → ft_moved t t FinalizationEvent_default.
Proof. intros Ht. split_and!; [done|apply ev_range_default|lia]. Qed.

(** A status was stored, and the finalization is handled. *)
Lemma finalize_ok t t1 b ev t' :
  ft_ok t1 → ft_first_unpruned_slot t1 = ft_first_unpruned_slot t → in_range (bi_slot b) →
  ('(t, ev) ← FinalityTracker_handle_finalized_block t1 b FinalizationEvent_default; mret (ev, t))
  = Done (ev, t') → ft_moved t t' ev.
Proof.
  intros Ht1 Hf Hb ([t2 ev2] & E & [= <- <-])%bind_Done.
  destruct (handle_finalized_block_ok _ _ _ _ Ht1 Hb E) as (? & ? & ?). split_and!; [done|done|lia].
Qed.

Lemma add_parent_ok t b p ev t' :
  ft_ok t → op_range (FtParent b p) → FinalityTracker_add_parent t b p = Done (ev, t') → ft_moved t t' ev.
Proof.
  intros Ht [Hb Hp] E. unfold FinalityTracker_add_parent in E. cbn in Hb.
  apply bind_Done in E as (u & Hlt & E).
  assert (Hlt' : bi_slot p < bi_slot b).
  { revert Hlt. by destruct (Z.ltb_spec (bi_slot p) (bi_slot b)). }
  case_match; [injection E as <- <-; by apply ft_moved_refl|].
  destruct (ft_parents t !! b); [apply bind_Done in E as (_ & _ & [= <- <-]); by apply ft_moved_refl|].
  set (t1 := mkFinality _ _ _ _) in E.
  assert (Ht1 : ft_ok t1).
  { destruct Ht. split; try done. cbn. intros b' p'. rewrite lookup_insert_Some.
    intros [[_ <-]|[_ ?]]; [unfold in_range in *; lia|eauto]. }
  assert (Hm1 : ft_moved t t1 FinalizationEvent_default) by apply (ft_moved_refl t1 Ht1).
  assert (Hwalk : ('(t, ev) ← FinalityTracker_handle_implicitly_finalized t1 (bi_slot b) p
      FinalizationEvent_default; mret (ev, FinalityTracker_prune t)) = Done (ev, t') → ft_moved t t' ev).
  { intros ([t2 ev2] & E2 & [= <- <-])%bind_Done.
    destruct (implicit_loop_ok (implicit_fuel t1) t1 (bi_slot b) p FinalizationEvent_default t2 ev2)
      as (Ht2 & Hev2 & Hf2); [done|apply ev_range_default|unfold in_range in *; lia..|done|].
    destruct (prune_ok t2 ev2 Ht2 Hev2) as (? & ? & ?). split_and!; [done|done|]. cbn in *. lia. }
  destruct (ft_status t1 !! bi_slot b) as [[[] h]|]; try (by injection E as <- <-).
  all: case_bool_decide; [by apply Hwalk|by injection E as <- <-].
Qed.

Lemma ft_run_ok t op ev t' :
  ft_ok t → op_range op → ft_run t op = Done (ev, t') → ft_moved t t' ev.
Proof.
  intros Ht Hop E. destruct op as [b p|b|b|s]; cbn [ft_run] in E; [by eapply add_parent_ok|..].
  all: destruct Hop as [Hs _]; cbn [op_slot] in Hs.
  - unfold FinalityTracker_mark_fast_finalized in E.
    case_match; [injection E as <- <-; by apply ft_moved_refl|].
    destruct (FinalityTracker_status_insert t _ _ _) as [o t1] eqn:Ei.
    destruct (status_insert_ok _ _ _ _ _ _ Ht Hs Ei) as [Ht1 Hf1].
    assert (Hm : ft_moved t t1 FinalizationEvent_default) by (split_and!; [done|apply ev_range_default|lia]).
    destruct o as [[[] h]|]; try done; try (apply bind_Done in E as (_ & _ & E)).
    all: first [by injection E as <- <-|by eapply finalize_ok].
  - unfold FinalityTracker_mark_notarized in E.
    case_match; [injection E as <- <-; by apply ft_moved_refl|].
    destruct (FinalityTracker_status_insert t _ _ _) as [o t1] eqn:Ei.
    destruct (status_insert_ok _ _ _ _ _ _ Ht Hs Ei) as [Ht1 Hf1].
    assert (Hm : ft_moved t t1 FinalizationEvent_default) by (split_and!; [done|apply ev_range_default|lia]).
    destruct o as [[[] h]|]; try (apply bind_Done in E as (_ & _ & [= <- <-]); done);
      try (by injection E as <- <-).
    destruct (status_insert_ok _ _ Finalized (bi_hash b) _ _ Ht1 Hs eq_refl) as [Ht2 Hf2].
    eapply finalize_ok; [exact Ht2|congruence|exact Hs|exact E].
  - unfold FinalityTracker_mark_finalized in E.
    case_match; [injection E as <- <-; by apply ft_moved_refl|].
    destruct (FinalityTracker_status_insert t _ _ _) as [o t1] eqn:Ei.
    destruct (status_insert_ok _ _ _ _ _ _ Ht Hs Ei) as [Ht1 Hf1].
    assert (Hm : ft_moved t t1 FinalizationEvent_default) by (split_and!; [done|apply ev_range_default|lia]).
    destruct o as [[[] h]|]; try done; try (by injection E as <- <-).
    destruct (status_insert_ok _ _ Finalized h _ _ Ht1 Hs eq_refl) as [Ht2 Hf2].
    eapply (finalize_ok t _ (mkBlockId s h)); [exact Ht2|congruence|exact Hs|exact E].
Qed.

(** A late notarization undoes what was decided.  Over an implicit skip: block 5
    with parent 3 is fast-finalized, so slot 4 is implicitly skipped; when the edge from
    3 to genesis arrives, the watermark moves on, to 7 in the end.  If a notarization of
    slot 4 arrives before that edge, [mark_notarized] overwrites the implicit skip, the
    watermark stops at 3, and finalizing blocks 6 and 7 does not move it any more.  Over a
    finalization: a notarization after the fast finalization of the same block sets its
    slot back, so the slot finalization that follows reports the block a second time, and
    a later finalization across the slot reports it as skipped instead of flagging the
    safety violation that is flagged otherwise. *)
Theorem late_notarization_undoes_progress :
  let b := λ s, mkBlockId s [s] in
  let genesis := mkBlockId 0 GENESIS_BLOCK_HASH in
  let run := λ ops, r ← for_each ft_step ([], FinalityTracker_default) ops;
                    Done (ft_first_unpruned_slot r.2, omap fe_finalized r.1, r.1 ≫= fe_implicitly_skipped) in
  let later := [FtParent (b 6) (b 5); FtFastFinalized (b 6); FtParent (b 7) (b 6); FtFastFinalized (b 7)] in
  run ([FtParent (b 5) (b 3); FtFastFinalized (b 5); FtParent (b 3) genesis] ++ later)
  = Done (7, [b 5; b 6; b 7], [4; 1; 2])
  ∧ run ([FtParent (b 5) (b 3); FtFastFinalized (b 5); FtNotarized (b 4); FtParent (b 3) genesis] ++ later)
    = Done (3, [b 5; b 6; b 7], [4; 1; 2])
  ∧ run [FtFastFinalized (b 2); FtNotarized (b 2); FtFinalized 2] = Done (0, [b 2; b 2], [])
  ∧ run [FtFastFinalized (b 2); FtNotarized (b 2); FtParent (b 3) (b 1); FtFastFinalized (b 3)]
    = Done (3, [b 2; b 3], [2])
  ∧ run [FtFastFinalized (b 2); FtParent (b 3) (b 1); FtFastFinalized (b 3)] = Panicked.
Proof. split_and!; vm_compute; reflexivity. Qed.

(** ** Witnesses *)

Definition wit_chain (s : Z) : option BlockHash :=
  if s =? 0 then Some GENESIS_BLOCK_HASH else if (s =? 3) || (s =? 5) then Some [s] else None.
Definition wit_notar (s : Z) : BlockHash := if s =? 0 then GENESIS_BLOCK_HASH else [s].
Definition wit_par (b : BlockId) : BlockId :=
  if bi_slot b =? 5 then mkBlockId 3 [3]
  else if bi_slot b =? 3 then mkBlockId 0 GENESIS_BLOCK_HASH else b.

Lemma wit_consistent : consistent wit_chain wit_notar wit_par.
Proof.
  split.
  - reflexivity.
  - intros s h. unfold wit_chain, wit_notar. repeat case_match; congruence.
  - intros [s h]. unfold on_chain, wit_par. cbn [bi_slot bi_hash]. intros Hc Hlt.
    destruct (Z.eqb_spec s 5) as [->|H5]; [|destruct (Z.eqb_spec s 3) as [->|H3]; [|cbn in Hlt; lia]].
    all: cbn [bi_slot bi_hash] in *; split; [reflexivity|]; intros x Hx; unfold wit_chain.
    + assert (x = 4) as -> by lia. reflexivity.
    + assert (x = 1 ∨ x = 2) as [->| ->] by lia; reflexivity.
Qed.

Lemma finality_follows_chain_witness :
  ∃ evs t, for_each ft_step ([], FinalityTracker_default)
      [FtParent (mkBlockId 5 [5]) (mkBlockId 3 [3]); FtNotarized (mkBlockId 5 [5]); FtFinalized 5;
       FtParent (mkBlockId 3 [3]) (mkBlockId 0 GENESIS_BLOCK_HASH); FtNotarized (mkBlockId 6 [6])]
    = Done (evs, t)
    ∧ ft_first_unpruned_slot t = 5
    ∧ ∃ ev, ev ∈ evs ∧ 4 ∈ fe_implicitly_skipped ev.
Proof.
  destruct (finality_follows_chain wit_chain wit_notar wit_par
    [FtParent (mkBlockId 5 [5]) (mkBlockId 3 [3]); FtNotarized (mkBlockId 5 [5]); FtFinalized 5;
     FtParent (mkBlockId 3 [3]) (mkBlockId 0 GENESIS_BLOCK_HASH); FtNotarized (mkBlockId 6 [6])]
    wit_consistent) as (evs & t & E & _ & _ & Hrep).
  - unfold op_consistent, u64_max. repeat constructor; cbn; try lia. eexists. reflexivity.
  - exists evs, t. assert (Hf : ft_first_unpruned_slot t = 5).
    { vm_compute in E. injection E as _ <-. reflexivity. }
    split; [exact E|]. split; [exact Hf|]. apply (Hrep 4). rewrite Hf. lia.
Defined.
