(* ===== verification/AlpVotor.v ===== *)
(** * Alpenglow: the voting decisions

    Model of [src/crates/karstflow-alpenglow/src/votor.rs]: which votes a validator
    casts on pool events, blockstore events and timeouts.  Handlers take the state and
    the output buffer and return both; a failed assertion is [Panicked].  The
    [BTreeMap] of slot states is a finite map, read in slot order where the code
    iterates over it. *)
From stdpp Require Import base tactics list list_numbers numbers countable gmap sorting.
From Stdlib Require Import ZArith Lia.
From S2P Require Import Prelude AlpBase AlpVote AlpCert AlpSlotState.
Local Open Scope Z_scope.

Inductive ConsensusMessage := Message_Vote (v : Vote) | Message_Cert (c : Cert).

Inductive VotorTimeout := VotorTimeout_Timeout (slot : Z) | VotorTimeout_CrashedLeader (slot : Z).
Definition VotorTimeout_slot (t : VotorTimeout) : Z :=
  match t with VotorTimeout_Timeout s | VotorTimeout_CrashedLeader s => s end.

Inductive VotorPoolEvent :=
| PoolEv_ParentReady (slot : Z) (parent : BlockId)
| PoolEv_SafeToNotar (b : BlockId)
| PoolEv_SafeToSkip (slot : Z)
| PoolEv_CertCreated (c : Cert)
| PoolEv_Standstill (slot : Z) (bundle : list ConsensusMessage).

Inductive VotorBlockstoreEvent :=
| StoreEv_FirstShred (slot : Z)
| StoreEv_InvalidBlock (slot : Z)
| StoreEv_Block (slot : Z) (block_id parent_block_id : BlockId).

Record VotorOut := mkVotorOut { vo_msgs : list ConsensusMessage; vo_timeouts : list VotorTimeout }.
Definition VotorOut_default : VotorOut := mkVotorOut [] [].
Definition push_msg (m : ConsensusMessage) (out : VotorOut) : VotorOut :=
  mkVotorOut (vo_msgs out ++ [m]) (vo_timeouts out).
Definition push_timeout (t : VotorTimeout) (out : VotorOut) : VotorOut :=
  mkVotorOut (vo_msgs out) (vo_timeouts out ++ [t]).

Record VotorSlotState := mkVotorSlot {
  vs_voted : bool;
  vs_voted_notar : option BlockHash;
  vs_bad_window : bool;
  vs_block_notarized : option BlockHash;
  vs_parents_ready : list BlockId;
  vs_received_shred : bool;
  vs_pending_block : option (BlockId * BlockId);
  vs_retired : bool;
}.
Definition VotorSlotState_default : VotorSlotState :=
  mkVotorSlot false None false None [] false None false.

(** Field writes of the handlers. *)
Definition st_set_retired (s : VotorSlotState) : VotorSlotState :=
  mkVotorSlot (vs_voted s) (vs_voted_notar s) (vs_bad_window s) (vs_block_notarized s)
    (vs_parents_ready s) (vs_received_shred s) (vs_pending_block s) true.
Definition st_notar (h : BlockHash) (s : VotorSlotState) : VotorSlotState :=
  mkVotorSlot true (Some h) (vs_bad_window s) (vs_block_notarized s)
    (vs_parents_ready s) (vs_received_shred s) None (vs_retired s).
Definition st_skip (s : VotorSlotState) : VotorSlotState :=
  mkVotorSlot true (vs_voted_notar s) true (vs_block_notarized s)
    (vs_parents_ready s) (vs_received_shred s) (vs_pending_block s) (vs_retired s).
Definition st_bad_window (s : VotorSlotState) : VotorSlotState :=
  mkVotorSlot (vs_voted s) (vs_voted_notar s) true (vs_block_notarized s)
    (vs_parents_ready s) (vs_received_shred s) (vs_pending_block s) (vs_retired s).
Definition st_notarized (h : BlockHash) (s : VotorSlotState) : VotorSlotState :=
  mkVotorSlot (vs_voted s) (vs_voted_notar s) (vs_bad_window s) (Some h)
    (vs_parents_ready s) (vs_received_shred s) (vs_pending_block s) (vs_retired s).
Definition st_add_parent (p : BlockId) (s : VotorSlotState) : VotorSlotState :=
  mkVotorSlot (vs_voted s) (vs_voted_notar s) (vs_bad_window s) (vs_block_notarized s)
    (if bool_decide (p ∈ vs_parents_ready s) then vs_parents_ready s else vs_parents_ready s ++ [p])
    (vs_received_shred s) (vs_pending_block s) (vs_retired s).
Definition st_shred (s : VotorSlotState) : VotorSlotState :=
  mkVotorSlot (vs_voted s) (vs_voted_notar s) (vs_bad_window s) (vs_block_notarized s)
    (vs_parents_ready s) true (vs_pending_block s) (vs_retired s).
Definition st_pending (b p : BlockId) (s : VotorSlotState) : VotorSlotState :=
  mkVotorSlot (vs_voted s) (vs_voted_notar s) (vs_bad_window s) (vs_block_notarized s)
    (vs_parents_ready s) (vs_received_shred s) (Some (b, p)) (vs_retired s).

Record Votor := mkVotor {
  vt_slots : gmap Z VotorSlotState;
  vt_validator_index : Z;
  vt_voting_key : list Z;
  vt_highest_final_cert_slot : Z;
}.

(** [*self.slot_state_mut(slot)] with a write through it. *)
Definition Votor_upd (v : Votor) (slot : Z) (f : VotorSlotState → VotorSlotState) : Votor :=
  mkVotor (<[slot := f (default VotorSlotState_default (vt_slots v !! slot))]> (vt_slots v))
    (vt_validator_index v) (vt_voting_key v) (vt_highest_final_cert_slot v).

Definition Votor_is_retired (v : Votor) (slot : Z) : bool :=
  default false (vs_retired <$> vt_slots v !! slot).
Definition Votor_has_voted (v : Votor) (slot : Z) : bool :=
  default false (vs_voted <$> vt_slots v !! slot).
Definition Votor_received_shred (v : Votor) (slot : Z) : bool :=
  default false (vs_received_shred <$> vt_slots v !! slot).
Definition Votor_first_unpruned_slot (v : Votor) : Z :=
  first_slot_in_window (vt_highest_final_cert_slot v).

(** [for s in first..=last] *)
Definition slots_incl (first last : Z) : list Z := seqZ first (last - first + 1).

Definition Votor_set_timeouts (slot : Z) (out : VotorOut) : Outcome VotorOut :=
  _ ← rust_assert (is_start_of_window slot);
  let out := push_timeout (VotorTimeout_CrashedLeader slot) out in
  mret (foldl (λ out s, push_timeout (VotorTimeout_Timeout s) out) out
          (slots_incl slot (last_slot_in_window slot))).

Definition Votor_new (validator_index : Z) (voting_key : list Z) : Outcome (Votor * VotorOut) :=
  let g := mkVotorSlot true (Some GENESIS_BLOCK_HASH) false (Some GENESIS_BLOCK_HASH)
             [BlockId_genesis 0] false None true in
  let v := mkVotor {[ 0 := g ]} validator_index voting_key 0 in
  out ← Votor_set_timeouts 0 VotorOut_default;
  mret (v, out).

Definition Votor_try_final (v : Votor) (slot : Z) (hash : BlockHash) (out : VotorOut) :
    Outcome (Votor * VotorOut) :=
  _ ← rust_assert (Votor_first_unpruned_slot v <=? slot);
  let '(notarized, voted_notar, not_bad) :=
    match vt_slots v !! slot with
    | Some s => (bool_decide (vs_block_notarized s = Some hash),
                 bool_decide (vs_voted_notar s = Some hash), negb (vs_bad_window s))
    | None => (false, false, true)
    end in
  if notarized && voted_notar && not_bad then
    vote ← Vote_new_final slot (vt_voting_key v) (vt_validator_index v);
    mret (Votor_upd v slot st_set_retired, push_msg (Message_Vote vote) out)
  else mret (v, out).

(** The early returns of [try_notar]. *)
Definition try_notar_parent_ok (v : Votor) (slot : Z) (parent_block_id : BlockId) : bool :=
  if slot =? first_slot_in_window slot then
    default false ((λ s, bool_decide (parent_block_id ∈ vs_parents_ready s)) <$> vt_slots v !! slot)
  else
    (bi_slot parent_block_id =? u64_sub slot 1)
    && default false ((λ s, bool_decide (vs_voted_notar s = Some (bi_hash parent_block_id)))
                      <$> vt_slots v !! bi_slot parent_block_id).

Definition Votor_try_notar (v : Votor) (slot : Z) (block_id parent_block_id : BlockId)
    (out : VotorOut) : Outcome (bool * Votor * VotorOut) :=
  _ ← rust_assert (Votor_first_unpruned_slot v <=? slot);
  if negb (try_notar_parent_ok v slot parent_block_id) then mret (false, v, out)
  else
    vote ← Vote_new_notar slot (bi_hash block_id) (vt_voting_key v) (vt_validator_index v);
    let out := push_msg (Message_Vote vote) out in
    let v := Votor_upd v slot (st_notar (bi_hash block_id)) in
    '(v, out) ← Votor_try_final v slot (bi_hash block_id) out;
    mret (true, v, out).

Definition skip_slot (r : Votor * VotorOut) (s : Z) : Outcome (Votor * VotorOut) :=
  let '(v, out) := r in
  if Votor_has_voted v s then mret (v, out)
  else
    let v := Votor_upd v s st_skip in
    vote ← Vote_new_skip s (vt_voting_key v) (vt_validator_index v);
    mret (v, push_msg (Message_Vote vote) out).
Definition Votor_try_skip_window (v : Votor) (slot : Z) (out : VotorOut) : Outcome (Votor * VotorOut) :=
  _ ← rust_assert (Votor_first_unpruned_slot v <=? slot);
  for_each skip_slot (v, out) (slots_incl (first_slot_in_window slot) (last_slot_in_window slot)).

(** The pending blocks in slot order, as the [BTreeMap] yields them. *)
Definition entry_le (a b : Z * VotorSlotState) : Prop := a.1 <= b.1.
#[export] Instance entry_le_dec : RelDecision entry_le.
Proof. intros a b. unfold entry_le. apply _. Defined.
Definition pending_blocks (v : Votor) : list (Z * BlockId * BlockId) :=
  omap (λ '(slot, s), (λ '(b, p), (slot, b, p)) <$> vs_pending_block s)
    (merge_sort entry_le (map_to_list (vt_slots v))).
Definition pending_turn (r : Votor * VotorOut) (x : Z * BlockId * BlockId) : Outcome (Votor * VotorOut) :=
  let '(slot, block_id, parent_block_id) := x in
  '(_, v, out) ← Votor_try_notar r.1 slot block_id parent_block_id r.2;
  mret (v, out).
Definition Votor_check_pending_blocks (v : Votor) (out : VotorOut) : Outcome (Votor * VotorOut) :=
  for_each pending_turn (v, out) (pending_blocks v).

Definition Votor_prune (v : Votor) : Votor :=
  let cutoff := Votor_first_unpruned_slot v in
  mkVotor (filter (λ kv, cutoff <= kv.1) (vt_slots v)) (vt_validator_index v) (vt_voting_key v)
    (vt_highest_final_cert_slot v).

Definition Votor_handle_cert_created (v : Votor) (cert : Cert) (out : VotorOut) :
    Outcome (Votor * VotorOut) :=
  '(v, out) ←
    match cert with
    | Cert_Notar c =>
        let slot := Cert_slot cert in
        hash ← match Cert_block_hash cert with Some h => mret h | None => Panicked end;
        let v := Votor_upd v slot (st_notarized hash) in
        Votor_try_final v slot hash out
    | Cert_Final _ | Cert_FastFinal _ =>
        let slot := Cert_slot cert in
        out ← Votor_set_timeouts (first_slot_in_window slot) out;
        let v := mkVotor (vt_slots v) (vt_validator_index v) (vt_voting_key v)
                   (Z.max (vt_highest_final_cert_slot v) slot) in
        mret (Votor_prune v, out)
    | _ => mret (v, out)
    end;
  mret (v, push_msg (Message_Cert cert) out).

Definition Votor_should_ignore_pool_event (v : Votor) (event : VotorPoolEvent) : bool :=
  let first := Votor_first_unpruned_slot v in
  match event with
  | PoolEv_Standstill _ _ => false
  | PoolEv_CertCreated c => Cert_slot c <? first
  | PoolEv_ParentReady slot _ => (slot <? first) || Votor_is_retired v slot
  | PoolEv_SafeToNotar b => (bi_slot b <? first) || Votor_is_retired v (bi_slot b)
  | PoolEv_SafeToSkip slot => (slot <? first) || Votor_is_retired v slot
  end.

Definition Votor_handle_pool_event (v : Votor) (event : VotorPoolEvent) (out : VotorOut) :
    Outcome (Votor * VotorOut) :=
  if Votor_should_ignore_pool_event v event then mret (v, out)
  else
    match event with
    | PoolEv_ParentReady slot parent =>
        let v := Votor_upd v slot (st_add_parent parent) in
        '(v, out) ← Votor_check_pending_blocks v out;
        out ← Votor_set_timeouts slot out;
        mret (v, out)
    | PoolEv_SafeToNotar blk =>
        vote ← Vote_new_notar_fallback (bi_slot blk) (bi_hash blk) (vt_voting_key v)
                 (vt_validator_index v);
        '(v, out) ← Votor_try_skip_window v (bi_slot blk) (push_msg (Message_Vote vote) out);
        mret (Votor_upd v (bi_slot blk) st_bad_window, out)
    | PoolEv_SafeToSkip slot =>
        vote ← Vote_new_skip_fallback slot (vt_voting_key v) (vt_validator_index v);
        '(v, out) ← Votor_try_skip_window v slot (push_msg (Message_Vote vote) out);
        mret (Votor_upd v slot st_bad_window, out)
    | PoolEv_CertCreated cert => Votor_handle_cert_created v cert out
    | PoolEv_Standstill _ bundle => mret (v, foldl (λ out m, push_msg m out) out bundle)
    end.

Definition StoreEv_slot (e : VotorBlockstoreEvent) : Z :=
  match e with StoreEv_FirstShred s | StoreEv_InvalidBlock s | StoreEv_Block s _ _ => s end.

Definition Votor_handle_blockstore_event (v : Votor) (event : VotorBlockstoreEvent) (out : VotorOut) :
    Outcome (Votor * VotorOut) :=
  let slot := StoreEv_slot event in
  if (slot <=? vt_highest_final_cert_slot v) || Votor_is_retired v slot then mret (v, out)
  else
    match event with
    | StoreEv_FirstShred _ => mret (Votor_upd v slot st_shred, out)
    | StoreEv_InvalidBlock _ => Votor_try_skip_window v slot out
    | StoreEv_Block _ block_id parent_block_id =>
        if Votor_has_voted v slot then mret (v, out)
        else
          '(voted, v, out) ← Votor_try_notar v slot block_id parent_block_id out;
          if voted : bool then Votor_check_pending_blocks v out
          else mret (Votor_upd v slot (st_pending block_id parent_block_id), out)
    end.

Definition Votor_handle_timeout_event (v : Votor) (event : VotorTimeout) (out : VotorOut) :
    Outcome (Votor * VotorOut) :=
  let slot := VotorTimeout_slot event in
  if (slot <=? vt_highest_final_cert_slot v) || Votor_is_retired v slot then mret (v, out)
  else
    match event with
    | VotorTimeout_Timeout _ =>
        if negb (Votor_has_voted v slot) then Votor_try_skip_window v slot out else mret (v, out)
    | VotorTimeout_CrashedLeader _ =>
        if negb (Votor_received_shred v slot) && negb (Votor_has_voted v slot)
        then Votor_try_skip_window v slot out else mret (v, out)
    end.

(** ** Runs *)

Inductive votor_event :=
| EvPool (e : VotorPoolEvent) | EvStore (e : VotorBlockstoreEvent) | EvTimeout (e : VotorTimeout).

Definition votor_handle (v : Votor) (e : votor_event) : Outcome (Votor * VotorOut) :=
  match e with
  | EvPool e => Votor_handle_pool_event v e VotorOut_default
  | EvStore e => Votor_handle_blockstore_event v e VotorOut_default
  | EvTimeout e => Votor_handle_timeout_event v e VotorOut_default
  end.

(** What a vote says, without its signature and signer. *)
Inductive ballot :=
| BNotar (slot : Z) (h : BlockHash) | BNotarFallback (slot : Z) (h : BlockHash)
| BSkip (slot : Z) | BSkipFallback (slot : Z) | BFinal (slot : Z).
#[export] Instance ballot_eq_dec : EqDecision ballot.
Proof. solve_decision. Defined.

Definition ballot_of (m : ConsensusMessage) : option ballot :=
  match m with
  | Message_Vote (Vote_Notar v) => Some (BNotar (nv_slot v) (nv_block_hash v))
  | Message_Vote (Vote_NotarFallback v) => Some (BNotarFallback (nfv_slot v) (nfv_block_hash v))
  | Message_Vote (Vote_Skip v) => Some (BSkip (sv_slot v))
  | Message_Vote (Vote_SkipFallback v) => Some (BSkipFallback (sfv_slot v))
  | Message_Vote (Vote_Final v) => Some (BFinal (fv_slot v))
  | Message_Cert _ => None
  end.
Definition ballots (out : VotorOut) : list ballot := omap ballot_of (vo_msgs out).

(** The votes an event makes the validator cast: a standstill only repeats votes
    that were cast before. *)
Definition cast (e : votor_event) (out : VotorOut) : list ballot :=
  match e with EvPool (PoolEv_Standstill _ _) => [] | _ => ballots out end.

Definition votor_step (r : Votor * list ballot) (e : votor_event) : Outcome (Votor * list ballot) :=
  '(v, out) ← votor_handle r.1 e; mret (v, r.2 ++ cast e out).

(** ** When a vote may be cast *)

Definition notar_cert_seen (E : list votor_event) (s : Z) (h : BlockHash) : Prop :=
  ∃ c, EvPool (PoolEv_CertCreated (Cert_Notar c)) ∈ E ∧ nc_slot c = s ∧ nc_block_hash c = h.

(** [admissible E B x]: after the events [E] and with the votes [B] already cast, the
    validator may cast [x].  It notarizes one block per slot, a block it received, on a
    parent reported ready for the window or on the block it notarized in the slot
    before; whether it voted to skip the slot before is not asked.  It skips a slot once,
    and never after a notarization or finalization vote for it.  It
    finalizes a slot whose block it notarized and saw certified, unless it voted to
    skip it or cast a fallback vote for it; and no such vote follows. *)
Definition admissible (E : list votor_event) (B : list ballot) (x : ballot) : Prop :=
  match x with
  | BNotar s h =>
      (∀ h', BNotar s h' ∉ B)
      ∧ ∃ b p, EvStore (StoreEv_Block s b p) ∈ E ∧ bi_hash b = h
        ∧ if is_start_of_window s then EvPool (PoolEv_ParentReady s p) ∈ E
          else bi_slot p = s - 1
               ∧ ((s = 1 ∧ bi_hash p = GENESIS_BLOCK_HASH) ∨ BNotar (s - 1) (bi_hash p) ∈ B)
  | BSkip s => (BSkip s ∉ B) ∧ (∀ h, BNotar s h ∉ B) ∧ (BFinal s ∉ B)
  | BNotarFallback s _ | BSkipFallback s => BFinal s ∉ B
  | BFinal s =>
      (s = 0 ∨ ∃ h, BNotar s h ∈ B ∧ notar_cert_seen E s h)
      ∧ (BSkip s ∉ B) ∧ (BSkipFallback s ∉ B) ∧ ∀ h, BNotarFallback s h ∉ B
  end.
Definition well_cast (E : list votor_event) (B : list ballot) : Prop :=
  ∀ B1 x B2, B = B1 ++ x :: B2 → admissible E B1 x.

Lemma admissible_mono E E' B x : E ⊆ E' → admissible E B x → admissible E' B x.
Proof.
  intros HE. destruct x; cbn; try done.
  - intros (? & b & p & Hb & ? & Hp). split; [done|]. exists b, p. split_and!; [by apply HE|done|].
    destruct (is_start_of_window slot); [by apply HE|done].
  - intros (Hn & Hrest). split; [|exact Hrest].
    destruct Hn as [?|(h & ? & c & Hc & ?)]; [by left|right].
    exists h. split; [done|]. exists c. split; [by apply HE|done].
Qed.
Lemma well_cast_mono E E' B : E ⊆ E' → well_cast E B → well_cast E' B.
Proof. intros HE HB B1 x B2 ->. eapply admissible_mono, HB; done. Qed.
Lemma well_cast_snoc E B x : well_cast E B → admissible E B x → well_cast E (B ++ [x]).
Proof.
  intros HB Hx B1 y B2. induction B2 as [|z B2 _] using rev_ind.
  - by intros [-> [= ->]]%app_inj_tail.
  - rewrite app_comm_cons, app_assoc. intros [-> _]%app_inj_tail. by eapply HB.
Qed.

(** ** Views *)

Definition vs (v : Votor) (s : Z) : VotorSlotState := default VotorSlotState_default (vt_slots v !! s).
Lemma has_voted_view v s : Votor_has_voted v s = vs_voted (vs v s).
Proof. unfold Votor_has_voted, vs. by destruct (vt_slots v !! s). Qed.
Lemma is_retired_view v s : Votor_is_retired v s = vs_retired (vs v s).
Proof. unfold Votor_is_retired, vs. by destruct (vt_slots v !! s). Qed.
Lemma vs_upd v s f x : vs (Votor_upd v s f) x = if decide (x = s) then f (vs v s) else vs v x.
Proof.
  unfold vs, Votor_upd. cbn. case_decide as Hd; [subst; by rewrite lookup_insert_eq|].
  by rewrite lookup_insert_ne.
Qed.
Lemma ballots_push m out : ballots (push_msg m out) = ballots out ++ option_list (ballot_of m).
Proof. unfold ballots, push_msg. cbn. by rewrite omap_app. Qed.

(** ** The invariant

    [X] are slots whose fallback vote is cast while [bad_window] is still to be set. *)
Record vinv (X : Z → Prop) (E : list votor_event) (B : list ballot) (v : Votor) : Prop := {
  vi_keys : ∀ s, is_Some (vt_slots v !! s) → Votor_first_unpruned_slot v <= s;
  vi_high : 0 <= vt_highest_final_cert_slot v;
  vi_notar : ∀ s h, vs_voted_notar (vs v s) = Some h →
    vs_voted (vs v s) = true ∧ ((s = 0 ∧ h = GENESIS_BLOCK_HASH) ∨ BNotar s h ∈ B);
  vi_pending : ∀ s b p, vs_pending_block (vs v s) = Some (b, p) →
    0 < s <= u64_max ∧ vs_voted_notar (vs v s) = None ∧ EvStore (StoreEv_Block s b p) ∈ E;
  vi_ready : ∀ s p, p ∈ vs_parents_ready (vs v s) → s = 0 ∨ EvPool (PoolEv_ParentReady s p) ∈ E;
  vi_notarized : ∀ s h, vs_block_notarized (vs v s) = Some h → s = 0 ∨ notar_cert_seen E s h;
  vi_retired : ∀ s, vs_retired (vs v s) = true → vs_voted (vs v s) = true;
  vi_cast_notar : ∀ s h, BNotar s h ∈ B →
    s < Votor_first_unpruned_slot v ∨ vs_voted_notar (vs v s) = Some h;
  vi_cast_skip : ∀ s, BSkip s ∈ B →
    s < Votor_first_unpruned_slot v ∨ (vs_voted (vs v s) = true ∧ vs_bad_window (vs v s) = true);
  vi_cast_fallback : ∀ s, (BSkipFallback s ∈ B ∨ ∃ h, BNotarFallback s h ∈ B) →
    X s ∨ s < Votor_first_unpruned_slot v ∨ vs_bad_window (vs v s) = true;
  vi_cast_final : ∀ s, BFinal s ∈ B →
    s < Votor_first_unpruned_slot v ∨ vs_retired (vs v s) = true;
  vi_cast : well_cast E B;
}.

Abbreviation no_slot := (λ _ : Z, False).

(** What a new vote about slot [s] leaves in the state [st] of that slot. *)
Definition recorded (X : Z → Prop) (s : Z) (st : VotorSlotState) (x : ballot) : Prop :=
  match x with
  | BNotar s' h => s' = s ∧ vs_voted_notar st = Some h
  | BSkip s' => s' = s ∧ vs_voted st = true ∧ vs_bad_window st = true
  | BNotarFallback s' _ | BSkipFallback s' => X s'
  | BFinal s' => s' = s ∧ vs_retired st = true
  end.

(** [slot_grows st st']: a slot's state never forgets a vote. *)
Record slot_grows (st st' : VotorSlotState) : Prop := {
  sg_voted : vs_voted st = true → vs_voted st' = true;
  sg_notar : ∀ h, vs_voted_notar st = Some h → vs_voted_notar st' = Some h;
  sg_bad : vs_bad_window st = true → vs_bad_window st' = true;
  sg_retired : vs_retired st = true → vs_retired st' = true;
}.

(** A step that changes the state of one slot to [st'] and casts [new]. *)
Lemma vinv_step X X' E B v v' s st' new :
  vinv X E B v → (∀ x, is_Some (vt_slots v' !! x) → Votor_first_unpruned_slot v <= x) →
  vt_highest_final_cert_slot v' = vt_highest_final_cert_slot v →
  (∀ x, vs v' x = if decide (x = s) then st' else vs v x) →
  slot_grows (vs v s) st' →
  (∀ h, vs_voted_notar st' = Some h →
     vs_voted st' = true ∧ (vs_voted_notar (vs v s) = Some h ∨ BNotar s h ∈ new)) →
  (∀ b p, vs_pending_block st' = Some (b, p) →
     0 < s <= u64_max ∧ vs_voted_notar st' = None ∧ EvStore (StoreEv_Block s b p) ∈ E) →
  (∀ p, p ∈ vs_parents_ready st' → s = 0 ∨ EvPool (PoolEv_ParentReady s p) ∈ E) →
  (∀ h, vs_block_notarized st' = Some h → s = 0 ∨ notar_cert_seen E s h) →
  (vs_retired st' = true → vs_voted st' = true) →
  (∀ x, x ∈ new → recorded X' s st' x) →
  (∀ y, X y → X' y ∨ (y = s ∧ vs_bad_window st' = true)) →
  well_cast E (B ++ new) →
  vinv X' E (B ++ new) v'.
Proof.
  intros Hv Hk Hh Hvs Hg Hn Hp Hr Hc Hrt Hnew HX Hw.
  assert (Hfu : Votor_first_unpruned_slot v' = Votor_first_unpruned_slot v)
    by (unfold Votor_first_unpruned_slot; by rewrite Hh).
  split; [by rewrite Hfu|rewrite Hh; apply Hv|..|done].
  - intros x h. rewrite Hvs, elem_of_app. case_decide as Hd; [subst x|].
    + intros [Hvo [Hx|Hx]]%Hn; [|by auto]. apply (vi_notar _ _ _ _ Hv) in Hx as [_ [?|?]]; auto.
    + intros [? [?|?]]%(vi_notar _ _ _ _ Hv); auto.
  - intros x b p. rewrite Hvs. case_decide as Hd; [subst x; apply Hp|apply Hv].
  - intros x p. rewrite Hvs. case_decide as Hd; [subst x; apply Hr|apply Hv].
  - intros x h. rewrite Hvs. case_decide as Hd; [subst x; apply Hc|apply Hv].
  - intros x. rewrite Hvs. case_decide as Hd; [subst x; apply Hrt|apply Hv].
  - intros x h. rewrite Hvs, Hfu, elem_of_app. intros [Hx|[-> ?]%Hnew]; [|by rewrite decide_True; auto].
    apply (vi_cast_notar _ _ _ _ Hv) in Hx as [?|Hx]; [by left|right].
    case_decide as Hd; [subst x; by apply Hg|done].
  - intros x. rewrite Hvs, Hfu, elem_of_app. intros [Hx|[-> ?]%Hnew]; [|by rewrite decide_True; auto].
    apply (vi_cast_skip _ _ _ _ Hv) in Hx as [?|[??]]; [by left|right].
    case_decide as Hd; [subst x; split; by apply Hg|done].
  - intros x. rewrite Hvs, Hfu. intros Hx.
    assert ((BSkipFallback x ∈ B ∨ ∃ h, BNotarFallback x h ∈ B) ∨ X' x) as [Hx'|?]; [|clear Hx|by left].
    { destruct Hx as [[Hx|Hx]%elem_of_app|[h [Hx|Hx]%elem_of_app]]; eauto; right; by apply Hnew in Hx. }
    apply (vi_cast_fallback _ _ _ _ Hv) in Hx' as [[?|[-> ?]]%HX|[?|?]]; [by left| |by auto|].
    + rewrite decide_True; auto.
    + right; right. case_decide as Hd; [subst x; by apply Hg|done].
  - intros x. rewrite Hvs, Hfu, elem_of_app. intros [Hx|[-> ?]%Hnew]; [|by rewrite decide_True; auto].
    apply (vi_cast_final _ _ _ _ Hv) in Hx as [?|?]; [by left|right].
    case_decide as Hd; [subst x; by apply Hg|done].
Qed.

Lemma vinv_upd_keys X E B v s f :
  vinv X E B v → Votor_first_unpruned_slot v <= s →
  ∀ x, is_Some (vt_slots (Votor_upd v s f) !! x) → Votor_first_unpruned_slot v <= x.
Proof.
  intros Hv Hs x. unfold Votor_upd. cbn. destruct (decide (x = s)) as [->|]; [done|].
  rewrite lookup_insert_ne by done. apply Hv.
Qed.

(** Updates that only touch the bookkeeping of a slot. *)
Lemma vinv_upd X E B v s f :
  vinv X E B v → Votor_first_unpruned_slot v <= s →
  (∀ st, vs_voted (f st) = vs_voted st ∧ vs_voted_notar (f st) = vs_voted_notar st
         ∧ vs_retired (f st) = vs_retired st ∧ vs_bad_window (f st) = vs_bad_window st) →
  (∀ b p, vs_pending_block (f (vs v s)) = Some (b, p) →
     0 < s <= u64_max ∧ vs_voted_notar (vs v s) = None ∧ EvStore (StoreEv_Block s b p) ∈ E) →
  (∀ p, p ∈ vs_parents_ready (f (vs v s)) → s = 0 ∨ EvPool (PoolEv_ParentReady s p) ∈ E) →
  (∀ h, vs_block_notarized (f (vs v s)) = Some h → s = 0 ∨ notar_cert_seen E s h) →
  vinv X E B (Votor_upd v s f).
Proof.
  intros Hv Hs Hf Hp Hr Hn. destruct (Hf (vs v s)) as (F1 & F2 & F3 & F4).
  rewrite <- (app_nil_r B). eapply (vinv_step X); [done|by eapply vinv_upd_keys|done|apply vs_upd|..].
  - split; rewrite ?F1, ?F2, ?F3, ?F4; done.
  - intros h. rewrite F1, F2. intros Hh. split; [by apply (vi_notar _ _ _ _ Hv) in Hh as [? _]|by left].
  - intros b p. rewrite F2. apply Hp.
  - done.
  - done.
  - rewrite F1, F3. apply Hv.
  - by intros x ?%elem_of_nil.
  - by left.
  - rewrite app_nil_r. apply Hv.
Qed.

(** ** Casting *)

Lemma not_cast_final X E B v s :
  vinv X E B v → Votor_first_unpruned_slot v <= s → vs_retired (vs v s) = false → BFinal s ∉ B.
Proof. intros Hv Hs Hr Hin. destruct (vi_cast_final _ _ _ _ Hv s Hin); [lia|congruence]. Qed.

Lemma final_cast E B v s h :
  vinv no_slot E B v → Votor_first_unpruned_slot v <= s →
  vs_block_notarized (vs v s) = Some h → vs_voted_notar (vs v s) = Some h → vs_bad_window (vs v s) = false →
  vinv no_slot E (B ++ [BFinal s]) (Votor_upd v s st_set_retired).
Proof.
  intros Hv Hs Hn Hvn Hb. destruct (vi_notar _ _ _ _ Hv s h Hvn) as [Hvo Hc].
  eapply (vinv_step no_slot); [done|by eapply vinv_upd_keys|done|apply vs_upd|..]; cbn.
  - by split.
  - intros h' Hh'. split; [done|by left].
  - intros b p Hp. by apply Hv.
  - apply Hv.
  - apply Hv.
  - done.
  - by intros x ->%list_elem_of_singleton.
  - by left.
  - apply well_cast_snoc; [apply Hv|]. cbn. split.
    { destruct (vi_notarized _ _ _ _ Hv s h Hn) as [?|?]; [by left|].
      destruct Hc as [[? _]|?]; [by left|right; by exists h]. }
    split_and!; [intros [?|[_ ?]]%(vi_cast_skip _ _ _ _ Hv); [lia|congruence]|intros Hx|intros h' Hx].
    all: destruct (vi_cast_fallback _ _ _ _ Hv s) as [Hf|[?|?]]; [eauto|destruct Hf|lia|congruence].
Qed.

Lemma skip_cast X E B v s :
  vinv X E B v → Votor_first_unpruned_slot v <= s → vs_voted (vs v s) = false →
  vinv X E (B ++ [BSkip s]) (Votor_upd v s st_skip).
Proof.
  intros Hv Hs Hvo.
  eapply (vinv_step X); [done|by eapply vinv_upd_keys|done|apply vs_upd|..]; cbn.
  - by split.
  - intros h' Hh'. split; [done|by left].
  - intros b p Hp. by apply Hv.
  - apply Hv.
  - apply Hv.
  - done.
  - by intros x ->%list_elem_of_singleton.
  - by left.
  - apply well_cast_snoc; [apply Hv|]. cbn. split_and!.
    + intros [?|[? _]]%(vi_cast_skip _ _ _ _ Hv); [lia|congruence].
    + intros h [?|Hx]%(vi_cast_notar _ _ _ _ Hv); [lia|].
      apply (vi_notar _ _ _ _ Hv) in Hx as [? _]. congruence.
    + eapply not_cast_final; [done..|].
      destruct (vs_retired (vs v s)) eqn:Er; [|done]. apply (vi_retired _ _ _ _ Hv) in Er. congruence.
Qed.

Lemma fallback_cast E B v s x :
  vinv no_slot E B v → Votor_first_unpruned_slot v <= s → vs_retired (vs v s) = false →
  (x = BSkipFallback s ∨ ∃ h, x = BNotarFallback s h) → vinv (eq s) E (B ++ [x]) v.
Proof.
  intros Hv Hs Hr Hx.
  eapply (vinv_step no_slot _ _ _ _ _ s (vs v s)); [done|apply Hv|done|..].
  - intros y. by case_decide; subst.
  - by split.
  - intros h Hh. split; [by apply (vi_notar _ _ _ _ Hv) in Hh as [? _]|by left].
  - intros b p Hp. by apply Hv.
  - apply Hv.
  - apply Hv.
  - apply Hv.
  - intros y ->%list_elem_of_singleton. by destruct Hx as [->|[h ->]].
  - done.
  - apply well_cast_snoc; [apply Hv|]. pose proof (not_cast_final _ _ _ _ _ Hv Hs Hr).
    by destruct Hx as [->|[h ->]].
Qed.

Lemma bad_window_set E B v s :
  vinv (eq s) E B v → Votor_first_unpruned_slot v <= s → vinv no_slot E B (Votor_upd v s st_bad_window).
Proof.
  intros Hv Hs. rewrite <- (app_nil_r B).
  eapply (vinv_step (eq s)); [done|by eapply vinv_upd_keys|done|apply vs_upd|..]; cbn.
  - by split.
  - intros h Hh. split; [by apply (vi_notar _ _ _ _ Hv) in Hh as [? _]|by left].
  - intros b p Hp. by apply Hv.
  - apply Hv.
  - apply Hv.
  - apply Hv.
  - by intros x ?%elem_of_nil.
  - intros y <-. by right.
  - rewrite app_nil_r. apply Hv.
Qed.

Lemma notar_cast E B v s b p :
  vinv no_slot E B v → Votor_first_unpruned_slot v <= s → 0 < s <= u64_max →
  vs_voted_notar (vs v s) = None → EvStore (StoreEv_Block s b p) ∈ E → try_notar_parent_ok v s p = true →
  vinv no_slot E (B ++ [BNotar s (bi_hash b)]) (Votor_upd v s (st_notar (bi_hash b))).
Proof.
  intros Hv Hs H0 Hvn Hb Hp.
  eapply (vinv_step no_slot); [done|by eapply vinv_upd_keys|done|apply vs_upd|..]; cbn.
  - split; cbn; try done. by rewrite Hvn.
  - intros h [= <-]. split; [done|right; by left].
  - done.
  - apply Hv.
  - apply Hv.
  - done.
  - by intros x ->%list_elem_of_singleton.
  - by left.
  - apply well_cast_snoc; [apply Hv|]. cbn. split.
    { intros h' [?|?]%(vi_cast_notar _ _ _ _ Hv); [lia|congruence]. }
    exists b, p. split_and!; [done|done|]. unfold try_notar_parent_ok in Hp.
    pose proof (is_start_of_window_iff s) as Hst.
    destruct (Z.eqb_spec s (first_slot_in_window s)) as [Hf|Hf].
    + rewrite (proj2 Hst) by done. destruct (vt_slots v !! s) as [st|] eqn:Es; [|done].
      cbn in Hp. apply bool_decide_eq_true in Hp.
      destruct (vi_ready _ _ _ _ Hv s p) as [?|?]; [unfold vs; by rewrite Es|lia|done].
    + destruct (is_start_of_window s) eqn:Eb; [pose proof (proj1 Hst eq_refl); congruence|].
      apply andb_true_iff in Hp as [Hps Hpn]. apply Z.eqb_eq in Hps.
      assert (E1 : u64_sub s 1 = s - 1) by (apply wrap64_small; unfold is_u64; lia). rewrite E1 in Hps.
      split; [done|]. rewrite Hps in Hpn. destruct (vt_slots v !! (s - 1)) as [st|] eqn:Es; [|done].
      cbn in Hpn. apply bool_decide_eq_true in Hpn.
      destruct (vi_notar _ _ _ _ Hv (s - 1) (bi_hash p)) as [_ [[? ?]|?]]; [unfold vs; by rewrite Es|left|by right].
      split; [lia|done].
Qed.

(** ** Handlers *)

Lemma new_notar_ballot s h sk i :
  ∃ vote, Vote_new_notar s h sk i = Done vote ∧ ballot_of (Message_Vote vote) = Some (BNotar s h).
Proof. by eexists. Qed.
Lemma new_final_ballot s sk i :
  ∃ vote, Vote_new_final s sk i = Done vote ∧ ballot_of (Message_Vote vote) = Some (BFinal s).
Proof. by eexists. Qed.
Lemma new_skip_ballot s sk i :
  ∃ vote, Vote_new_skip s sk i = Done vote ∧ ballot_of (Message_Vote vote) = Some (BSkip s).
Proof. by eexists. Qed.

Lemma fu_highest v v' :
  vt_highest_final_cert_slot v' = vt_highest_final_cert_slot v →
  Votor_first_unpruned_slot v' = Votor_first_unpruned_slot v.
Proof. unfold Votor_first_unpruned_slot. by intros ->. Qed.

Lemma first_slot_mono a b : a <= b → first_slot_in_window a <= first_slot_in_window b.
Proof.
  intros Hab. unfold first_slot_in_window, SLOTS_PER_WINDOW.
  apply Z.mul_le_mono_nonneg_r; [lia|]. by apply Z.div_le_mono.
Qed.

Section handlers.
Context (E : list votor_event) (B : list ballot).

Lemma assert_unpruned v s {A} (k : () → Outcome A) :
  Votor_first_unpruned_slot v <= s → rust_assert (Votor_first_unpruned_slot v <=? s) ≫= k = k ().
Proof. intros Hs. by rewrite (proj2 (Z.leb_le _ _) Hs). Qed.

Lemma try_final_spec v s h out :
  vinv no_slot E (B ++ ballots out) v → Votor_first_unpruned_slot v <= s →
  ∃ v' out', Votor_try_final v s h out = Done (v', out')
    ∧ vinv no_slot E (B ++ ballots out') v'
    ∧ vt_highest_final_cert_slot v' = vt_highest_final_cert_slot v
    ∧ ∀ x, vs_pending_block (vs v' x) = vs_pending_block (vs v x).
Proof.
  intros Hv Hs. unfold Votor_try_final. rewrite assert_unpruned by done.
  destruct (vt_slots v !! s) as [st|] eqn:Es; [|by exists v, out].
  assert (Est : vs v s = st) by (unfold vs; by rewrite Es).
  destruct (_ && _ && _) eqn:Ec; [|by exists v, out].
  apply andb_true_iff in Ec as [[Hn%bool_decide_eq_true Hvn%bool_decide_eq_true]%andb_true_iff
                               Hb%negb_true_iff].
  destruct (new_final_ballot s (vt_voting_key v) (vt_validator_index v)) as (vote & -> & Eb).
  rewrite Done_bind. eexists _, _. split; [done|]. split_and!; [|done|].
  - rewrite ballots_push, Eb, app_assoc. apply (final_cast _ _ _ _ h); try done; by rewrite Est.
  - intros x. rewrite vs_upd. by case_decide; subst.
Qed.

Lemma try_notar_spec v s b p out :
  vinv no_slot E (B ++ ballots out) v → Votor_first_unpruned_slot v <= s → 0 < s <= u64_max →
  vs_voted_notar (vs v s) = None → EvStore (StoreEv_Block s b p) ∈ E →
  ∃ r v' out', Votor_try_notar v s b p out = Done (r, v', out')
    ∧ vinv no_slot E (B ++ ballots out') v'
    ∧ vt_highest_final_cert_slot v' = vt_highest_final_cert_slot v
    ∧ (∀ x, x ≠ s → vs_pending_block (vs v' x) = vs_pending_block (vs v x))
    ∧ (r = false → v' = v).
Proof.
  intros Hv Hs H0 Hvn Hb. unfold Votor_try_notar. rewrite assert_unpruned by done.
  destruct (try_notar_parent_ok v s p) eqn:Ep; cbn [negb]; [|by exists false, v, out].
  destruct (new_notar_ballot s (bi_hash b) (vt_voting_key v) (vt_validator_index v)) as (vote & -> & Eb).
  rewrite Done_bind. cbn zeta. set (v1 := Votor_upd v s _). set (out1 := push_msg _ out).
  destruct (try_final_spec v1 s (bi_hash b) out1) as (v' & out' & -> & Hv' & Hh & Hp); [|done|].
  { unfold out1. rewrite ballots_push, Eb, app_assoc. by eapply notar_cast. }
  rewrite Done_bind. exists true, v', out'. split_and!; try done.
  intros x Hx. rewrite Hp. unfold v1. by rewrite vs_upd, decide_False.
Qed.

Lemma skip_slots_spec X l : ∀ v out,
  vinv X E (B ++ ballots out) v → Forall (λ s, Votor_first_unpruned_slot v <= s) l →
  ∃ v' out', for_each skip_slot (v, out) l = Done (v', out')
    ∧ vinv X E (B ++ ballots out') v'
    ∧ vt_highest_final_cert_slot v' = vt_highest_final_cert_slot v.
Proof.
  induction l as [|s l IH]; intros v out Hv Hl; [by exists v, out|].
  apply Forall_cons in Hl as [Hs Hl]. cbn [for_each skip_slot]. rewrite has_voted_view.
  destruct (vs_voted (vs v s)) eqn:Evo; [rewrite Done_bind; by apply IH|].
  cbn zeta. set (v1 := Votor_upd v s st_skip).
  destruct (new_skip_ballot s (vt_voting_key v1) (vt_validator_index v1)) as (vote & -> & Eb).
  rewrite !Done_bind.
  destruct (IH v1 (push_msg (Message_Vote vote) out)) as (v' & out' & -> & Hv' & Hh); [|done|].
  - rewrite ballots_push, Eb, app_assoc. by apply skip_cast.
  - by exists v', out'.
Qed.

Lemma try_skip_window_spec X v s out :
  vinv X E (B ++ ballots out) v → Votor_first_unpruned_slot v <= s <= u64_max →
  ∃ v' out', Votor_try_skip_window v s out = Done (v', out')
    ∧ vinv X E (B ++ ballots out') v'
    ∧ vt_highest_final_cert_slot v' = vt_highest_final_cert_slot v.
Proof.
  intros Hv Hs. unfold Votor_try_skip_window. rewrite assert_unpruned by lia.
  apply skip_slots_spec; [done|]. apply Forall_forall. intros x Hx%elem_of_seqZ.
  pose proof (vi_high _ _ _ _ Hv). unfold Votor_first_unpruned_slot in *.
  assert (first_slot_in_window (vt_highest_final_cert_slot v) <= first_slot_in_window s); [|lia].
  rewrite <- (proj1 (is_start_of_window_iff _) (first_slot_is_start (vt_highest_final_cert_slot v))).
  apply first_slot_mono. lia.
Qed.

(** The pending blocks are those of the map, one per slot. *)
Lemma pending_blocks_elem v s b p :
  (s, b, p) ∈ pending_blocks v → is_Some (vt_slots v !! s) ∧ vs_pending_block (vs v s) = Some (b, p).
Proof.
  unfold pending_blocks. rewrite list_elem_of_omap. intros ([s' st] & Hin & Heq).
  rewrite merge_sort_Permutation in Hin. apply elem_of_map_to_list in Hin. cbn in Heq.
  apply fmap_Some in Heq as ([b' p'] & Hp & [= -> -> ->]). unfold vs. rewrite Hin. by split.
Qed.
Lemma pending_blocks_NoDup v : NoDup ((λ x, x.1.1) <$> pending_blocks v).
Proof.
  unfold pending_blocks.
  assert (Hnd : NoDup (fst <$> merge_sort entry_le (map_to_list (vt_slots v))))
    by (rewrite merge_sort_Permutation; apply NoDup_fst_map_to_list).
  revert Hnd. generalize (merge_sort entry_le (map_to_list (vt_slots v))). intros l.
  induction l as [|[s st] l IH]; [constructor|]. intros [Hs Hl]%NoDup_cons. cbn.
  destruct (vs_pending_block st) as [[b p]|]; cbn; [|by apply IH]. constructor; [|by apply IH].
  intros (x & -> & Hx)%list_elem_of_fmap. apply Hs, list_elem_of_fmap.
  apply list_elem_of_omap in Hx as ([s' st'] & Hin & Heq). exists (s', st'). split; [|done].
  cbn in Heq. by apply fmap_Some in Heq as ([b' p'] & _ & ->).
Qed.

Lemma pending_loop_spec l : ∀ v out,
  vinv no_slot E (B ++ ballots out) v → NoDup ((λ x : Z * BlockId * BlockId, x.1.1) <$> l) →
  (∀ s b p, (s, b, p) ∈ l → Votor_first_unpruned_slot v <= s ∧ vs_pending_block (vs v s) = Some (b, p)) →
  ∃ v' out', for_each pending_turn (v, out) l = Done (v', out')
    ∧ vinv no_slot E (B ++ ballots out') v'
    ∧ vt_highest_final_cert_slot v' = vt_highest_final_cert_slot v.
Proof.
  induction l as [|[[s b] p] l IH]; intros v out Hv Hnd Hl; [by exists v, out|].
  apply NoDup_cons in Hnd as [Hns Hnd]. destruct (Hl s b p) as [Hs Hp]; [by left|].
  destruct (vi_pending _ _ _ _ Hv s b p Hp) as (H0 & Hvn & Hb).
  destruct (try_notar_spec v s b p out Hv Hs H0 Hvn Hb) as (r & v1 & out1 & E1 & Hv1 & Hh1 & Hp1 & _).
  cbn [for_each pending_turn fst snd]. rewrite E1, !Done_bind.
  destruct (IH v1 out1 Hv1 Hnd) as (v' & out' & -> & Hv' & Hh); [|exists v', out'; split_and!; congruence].
  intros s' b' p' Hin. destruct (Hl s' b' p') as [??]; [by right|]. rewrite (fu_highest v v1) by done.
  split; [done|]. rewrite Hp1; [done|]. intros ->. apply Hns, list_elem_of_fmap. by exists (s, b', p').
Qed.

Lemma check_pending_spec v out :
  vinv no_slot E (B ++ ballots out) v →
  ∃ v' out', Votor_check_pending_blocks v out = Done (v', out')
    ∧ vinv no_slot E (B ++ ballots out') v'
    ∧ vt_highest_final_cert_slot v' = vt_highest_final_cert_slot v.
Proof.
  intros Hv. apply pending_loop_spec; [done|apply pending_blocks_NoDup|].
  intros s b p [Hk Hp]%pending_blocks_elem. split; [by apply Hv|done].
Qed.
End handlers.

Lemma vinv_mono X E E' B v : E ⊆ E' → vinv X E B v → vinv X E' B v.
Proof.
  intros HE []. split; try done.
  - intros s b p (? & ? & ?)%vi_pending0. split_and!; try done; try lia. by apply HE.
  - intros s p [?|?]%vi_ready0; [by left|right; by apply HE].
  - intros s h [?|(c & ? & ?)]%vi_notarized0; [by left|right]. exists c. split; [by apply HE|done].
  - by eapply well_cast_mono.
Qed.

Lemma set_timeouts_spec s out :
  is_start_of_window s = true →
  ∃ out', Votor_set_timeouts s out = Done out' ∧ vo_msgs out' = vo_msgs out.
Proof.
  intros Hs. unfold Votor_set_timeouts. rewrite Hs. eexists. split; [done|].
  set (out1 := push_timeout _ out). change (vo_msgs out) with (vo_msgs out1). generalize out1.
  induction (slots_incl s (last_slot_in_window s)) as [|x l IH]; intros o; [done|]. cbn. by rewrite IH.
Qed.
Lemma ballots_msgs out out' : vo_msgs out' = vo_msgs out → ballots out' = ballots out.
Proof. unfold ballots. by intros ->. Qed.

Lemma vs_prune v x :
  vs (Votor_prune v) x = if decide (Votor_first_unpruned_slot v <= x) then vs v x
                         else VotorSlotState_default.
Proof.
  unfold vs, Votor_prune. cbn. rewrite map_lookup_filter.
  destruct (vt_slots v !! x); cbn; repeat case_decide; done.
Qed.

Lemma prune_vinv E B v slot :
  vinv no_slot E B v →
  vinv no_slot E B (Votor_prune (mkVotor (vt_slots v) (vt_validator_index v) (vt_voting_key v)
                                   (Z.max (vt_highest_final_cert_slot v) slot))).
Proof.
  intros Hv. set (v1 := mkVotor _ _ _ _). set (v' := Votor_prune v1).
  assert (Hfu : Votor_first_unpruned_slot v <= Votor_first_unpruned_slot v').
  { apply first_slot_mono. cbn. lia. }
  assert (Hvs : ∀ x, vs v' x = if decide (Votor_first_unpruned_slot v' <= x) then vs v x
                               else VotorSlotState_default) by (intros x; apply (vs_prune v1)).
  destruct Hv. split.
  - intros s [st [_ Hs]%map_lookup_filter_Some]. done.
  - cbn. lia.
  - intros s h. rewrite Hvs. case_decide; [eauto|done].
  - intros s b p. rewrite Hvs. case_decide; [eauto|done].
  - intros s p. rewrite Hvs. case_decide; [eauto|by intros ?%elem_of_nil].
  - intros s h. rewrite Hvs. case_decide; [eauto|done].
  - intros s. rewrite Hvs. case_decide; [eauto|done].
  - intros s h Hs. rewrite Hvs. case_decide; [|left; lia]. apply vi_cast_notar0 in Hs as [?|?]; [lia|by right].
  - intros s Hs. rewrite Hvs. case_decide; [|left; lia]. apply vi_cast_skip0 in Hs as [?|?]; [lia|by right].
  - intros s Hs. rewrite Hvs. right. case_decide; [|left; lia].
    apply vi_cast_fallback0 in Hs as [[]|[?|?]]; [lia|by right].
  - intros s Hs. rewrite Hvs. case_decide; [|left; lia]. apply vi_cast_final0 in Hs as [?|?]; [lia|by right].
  - done.
Qed.

(** ** Steps *)

(** Slots are 64-bit, and parents are announced for window starts: the events of the
    pool are of this kind ([AlpPool]). *)
Definition event_ok (e : votor_event) : Prop :=
  match e with
  | EvPool (PoolEv_ParentReady s _) => is_start_of_window s = true
  | EvPool (PoolEv_SafeToNotar b) => is_u64 (bi_slot b)
  | EvPool (PoolEv_SafeToSkip s) => is_u64 s
  | EvPool (PoolEv_CertCreated _) | EvPool (PoolEv_Standstill _ _) => True
  | EvStore e => is_u64 (StoreEv_slot e)
  | EvTimeout e => is_u64 (VotorTimeout_slot e)
  end.

Section step.
Context (E : list votor_event) (B : list ballot) (v : Votor).
Context (Hv : vinv no_slot E (B ++ ballots VotorOut_default) v).

Definition step_ok (e : votor_event) (r : Outcome (Votor * VotorOut)) : Prop :=
  ∃ v' out, r = Done (v', out) ∧ vinv no_slot E (B ++ cast e out) v'.

Lemma step_ok_same e : (∀ out, cast e out = ballots out ∨ cast e out = []) →
  step_ok e (Done (v, VotorOut_default)).
Proof using Hv. intros Hc. exists v, VotorOut_default. split; [done|]. by destruct (Hc VotorOut_default) as [->| ->]. Qed.

Lemma fallback_step e s x vote :
  Votor_first_unpruned_slot v <= s <= u64_max → vs_retired (vs v s) = false →
  (x = BSkipFallback s ∨ ∃ h, x = BNotarFallback s h) → ballot_of (Message_Vote vote) = Some x →
  (∀ out, cast e out = ballots out) →
  step_ok e ('(v, out) ← Votor_try_skip_window v s (push_msg (Message_Vote vote) VotorOut_default);
             mret (Votor_upd v s st_bad_window, out)).
Proof using Hv.
  intros Hs Hr Hx Hb Hc.
  destruct (try_skip_window_spec E B (eq s) v s (push_msg (Message_Vote vote) VotorOut_default))
    as (v1 & out1 & -> & Hv1 & Hh); [|done|].
  { rewrite ballots_push, Hb, app_assoc. apply fallback_cast; [done|lia|done|done]. }
  rewrite Done_bind. eexists _, _. split; [done|]. rewrite Hc. apply bad_window_set; [done|].
  rewrite (fu_highest v v1) by done. lia.
Qed.

Lemma cert_step c :
  EvPool (PoolEv_CertCreated c) ∈ E → Votor_first_unpruned_slot v <= Cert_slot c →
  step_ok (EvPool (PoolEv_CertCreated c)) (Votor_handle_cert_created v c VotorOut_default).
Proof using Hv.
  intros Hin Hs. unfold Votor_handle_cert_created.
  match goal with |- step_ok _ (?m ≫= _) => assert (Hm : ∃ v' out, m = Done (v', out)
    ∧ vinv no_slot E (B ++ ballots out) v') end.
  { assert (Hfin : ∃ v' out, (out ← Votor_set_timeouts (first_slot_in_window (Cert_slot c)) VotorOut_default;
        mret (Votor_prune (mkVotor (vt_slots v) (vt_validator_index v) (vt_voting_key v)
                (Z.max (vt_highest_final_cert_slot v) (Cert_slot c))), out)) = Done (v', out)
      ∧ vinv no_slot E (B ++ ballots out) v').
    { destruct (set_timeouts_spec (first_slot_in_window (Cert_slot c)) VotorOut_default)
        as (out & -> & Hout); [apply first_slot_is_start|].
      eexists _, out. split; [done|]. rewrite (ballots_msgs _ _ Hout). by apply prune_vinv. }
    destruct c as [c|c|c|c|c]; try done; [|by eexists _, _..].
    cbn [Cert_block_hash]. rewrite Done_bind. cbn zeta.
    destruct (try_final_spec E B (Votor_upd v (Cert_slot (Cert_Notar c)) (st_notarized (nc_block_hash c)))
      (Cert_slot (Cert_Notar c)) (nc_block_hash c) VotorOut_default) as (v' & out & -> & ? & _ & _);
      [|done|by exists v', out].
    apply vinv_upd; try done; cbn.
    - intros b p Hp. by apply Hv.
    - apply Hv.
    - intros h [= <-]. right. by exists c. }
  destruct Hm as (v' & out & -> & Hv'). rewrite Done_bind. eexists _, _. split; [done|].
  cbn [cast]. by rewrite ballots_push, app_nil_r.
Qed.

Lemma pool_event_step e :
  EvPool e ∈ E → event_ok (EvPool e) →
  step_ok (EvPool e) (Votor_handle_pool_event v e VotorOut_default).
Proof using Hv.
  intros Hin Hok. unfold Votor_handle_pool_event.
  destruct (Votor_should_ignore_pool_event v e) eqn:Eig.
  { apply step_ok_same. intros out. destruct e; auto. }
  destruct e as [s p|b|s|c|s bundle]; cbn in Eig, Hok;
    rewrite ?orb_false_iff, ?is_retired_view, ?Z.ltb_ge in Eig.
  - rename Hok into Hst. destruct Eig as [Hfu _].
    destruct (check_pending_spec E B (Votor_upd v s (st_add_parent p)) VotorOut_default)
      as (v' & out & -> & Hv' & _).
    { apply vinv_upd; try done; cbn.
      - intros b' p' Hp. by apply Hv.
      - intros p'. case_bool_decide; [apply Hv|]. intros [?| ->%list_elem_of_singleton]%elem_of_app;
          [by apply Hv|by right].
      - apply Hv. }
    rewrite Done_bind. destruct (set_timeouts_spec s out Hst) as (out' & -> & Hout).
    exists v', out'. split; [done|]. cbn. by rewrite (ballots_msgs _ _ Hout).
  - eapply fallback_step; [unfold is_u64 in Hok; lia|apply Eig| |reflexivity|done]. eauto.
  - eapply fallback_step; [unfold is_u64 in Hok; lia|apply Eig| |reflexivity|done]. eauto.
  - by apply cert_step.
  - eexists _, _. split; [done|]. done.
Qed.

Lemma skip_step e s :
  Votor_first_unpruned_slot v <= s <= u64_max → (∀ out, cast e out = ballots out) →
  step_ok e (Votor_try_skip_window v s VotorOut_default).
Proof using Hv.
  intros Hs Hc. destruct (try_skip_window_spec E B no_slot v s VotorOut_default Hv Hs)
    as (v' & out & -> & Hv' & _). exists v', out. by rewrite Hc.
Qed.

Lemma store_step e :
  EvStore e ∈ E → event_ok (EvStore e) →
  step_ok (EvStore e) (Votor_handle_blockstore_event v e VotorOut_default).
Proof using Hv.
  intros Hin [Hs0 Hs1]. unfold Votor_handle_blockstore_event.
  pose proof (window_bounds (vt_highest_final_cert_slot v)) as Hw. pose proof (vi_high _ _ _ _ Hv) as Hh.
  destruct (Z.leb_spec (StoreEv_slot e) (vt_highest_final_cert_slot v)) as [Hle|Hgt]; cbn [orb].
  { apply step_ok_same. auto. }
  assert (Hfu : Votor_first_unpruned_slot v <= StoreEv_slot e)
    by (unfold Votor_first_unpruned_slot; lia).
  destruct (Votor_is_retired v (StoreEv_slot e)) eqn:Er; [apply step_ok_same; auto|].
  destruct e as [s|s|s b p]; cbn [StoreEv_slot] in *.
  - eexists _, _. split; [done|]. cbn. apply vinv_upd; try done; cbn; [intros b p Hp; by apply Hv|apply Hv..].
  - apply skip_step; [lia|done].
  - rewrite has_voted_view. destruct (vs_voted (vs v s)) eqn:Evo; [apply step_ok_same; auto|].
    assert (Hvn : vs_voted_notar (vs v s) = None).
    { destruct (vs_voted_notar (vs v s)) eqn:En; [|done]. apply (vi_notar _ _ _ _ Hv) in En as [? _]. congruence. }
    destruct (try_notar_spec E B v s b p VotorOut_default) as (r & v1 & out & -> & Hv1 & Hh1 & _ & Hr);
      try done; [lia|]. rewrite Done_bind. destruct r.
    + destruct (check_pending_spec E B v1 out Hv1) as (v' & out' & -> & Hv' & _). by exists v', out'.
    + rewrite (Hr eq_refl) in *. eexists _, out. split; [done|]. cbn [cast].
      apply vinv_upd; try done; cbn; [|apply Hv..].
      intros b' p' [= <- <-]. split_and!; [lia|lia|done|done].
Qed.

Lemma timeout_step e :
  event_ok (EvTimeout e) → step_ok (EvTimeout e) (Votor_handle_timeout_event v e VotorOut_default).
Proof using Hv.
  intros [Hs0 Hs1]. unfold Votor_handle_timeout_event.
  pose proof (window_bounds (vt_highest_final_cert_slot v)) as Hw.
  destruct (Z.leb_spec (VotorTimeout_slot e) (vt_highest_final_cert_slot v)) as [Hle|Hgt]; cbn [orb].
  { apply step_ok_same. auto. }
  assert (Hfu : Votor_first_unpruned_slot v <= VotorTimeout_slot e)
    by (unfold Votor_first_unpruned_slot; lia).
  destruct (Votor_is_retired v (VotorTimeout_slot e)); [apply step_ok_same; auto|].
  destruct e as [s|s]; cbn [VotorTimeout_slot] in *;
    (case_match; [apply skip_step; [lia|done]|apply step_ok_same; auto]).
Qed.
End step.

Lemma votor_step_spec E B v e :
  vinv no_slot E B v → event_ok e →
  ∃ v' B', votor_step (v, B) e = Done (v', B') ∧ vinv no_slot (E ++ [e]) B' v'.
Proof.
  intros Hv Hok. assert (He : e ∈ E ++ [e]) by set_solver.
  assert (Hv1 : vinv no_slot (E ++ [e]) (B ++ ballots VotorOut_default) v).
  { rewrite app_nil_r. eapply vinv_mono; [|exact Hv]. set_solver. }
  assert (step_ok (E ++ [e]) B e (votor_handle v e)) as (v' & out & Eh & Hv').
  { destruct e; [by apply pool_event_step|by apply store_step|by apply timeout_step]. }
  exists v', (B ++ cast e out). unfold votor_step. cbn [fst snd]. by rewrite Eh.
Qed.

Lemma votor_new_spec i sk :
  ∃ v out, Votor_new i sk = Done (v, out) ∧ ballots out = [] ∧ vinv no_slot [] [] v.
Proof.
  eexists _, _. split; [reflexivity|]. split; [reflexivity|].
  set (v := mkVotor _ _ _ _).
  assert (Hvs : ∀ x, vs v x = if decide (x = 0) then default VotorSlotState_default (vt_slots v !! 0)
                              else VotorSlotState_default).
  { intros x. unfold vs, v. cbn [vt_slots]. case_decide as Hd; [by subst|]. by rewrite lookup_singleton_ne. }
  split; try done.
  - intros s [st Hs]. cbn in Hs. apply lookup_singleton_Some in Hs as [<- _]. done.
  - intros s h. rewrite Hvs. case_decide; [|done]. cbn [v vt_slots]. rewrite lookup_singleton_eq.
    intros [= <-]. by split; [|left].
  - intros s b p. rewrite Hvs. case_decide; [|done]. cbn [v vt_slots]. by rewrite lookup_singleton_eq.
  - intros s p. rewrite Hvs. case_decide; [by left|by intros ?%elem_of_nil].
  - intros s h. rewrite Hvs. case_decide; [by left|done].
  - intros s. rewrite Hvs. case_decide; [|done]. cbn [v vt_slots]. by rewrite lookup_singleton_eq.
  - by intros s h ?%elem_of_nil.
  - by intros s ?%elem_of_nil.
  - by intros s [?%elem_of_nil|[h ?%elem_of_nil]].
  - by intros s ?%elem_of_nil.
  - by intros [] x B2.
Qed.

Lemma votor_run_spec es : ∀ E B v,
  vinv no_slot E B v → Forall event_ok es →
  ∃ v' B', for_each votor_step (v, B) es = Done (v', B') ∧ vinv no_slot (E ++ es) B' v'.
Proof.
  induction es as [|e es IH]; intros E B v Hv Hes.
  { exists v, B. by rewrite app_nil_r. }
  apply Forall_cons in Hes as [He Hes].
  destruct (votor_step_spec E B v e Hv He) as (v1 & B1 & E1 & Hv1). cbn [for_each].
  rewrite E1, Done_bind. destruct (IH _ _ _ Hv1 Hes) as (v' & B' & -> & Hv').
  exists v', B'. by rewrite <- app_assoc in Hv'.
Qed.

(** Votes are only added. *)
Lemma votor_run_grows es : ∀ v B v' B', for_each votor_step (v, B) es = Done (v', B') → B `prefix_of` B'.
Proof.
  induction es as [|e es IH]; intros v B v' B' Hrun; cbn [for_each] in Hrun; [by injection Hrun as _ <-|].
  apply bind_Done in Hrun as ([v1 B1] & Hstep & Hrun). apply IH in Hrun. etransitivity; [|exact Hrun].
  unfold votor_step in Hstep. apply bind_Done in Hstep as ([v2 out] & _ & [= _ <-]). by eexists.
Qed.

(** ** Properties *)

(** C2. For every sequence of pool, blockstore and timeout events with 64-bit slots in
    which parents are announced only for the first slot of a window, in any order and
    interleaving, the voting engine never panics, and every vote it casts is admissible
    when it is cast, after the events up to then and the votes before it: at most one notarization vote per slot, for a received block on a
    ready or just notarized parent; at most one skip vote per slot and none after a
    notarization or finalization vote for it; a finalization vote only for a block it
    notarized and saw certified, and never together with a skip or fallback vote for the
    slot, in either order.  A parent announced for another slot makes the engine panic, as
    [set_timeouts] asserts that it is given the start of a window; the pool announces none
    such ([AlpPool]).  A notarization vote that follows a skip vote for the slot is not
    ruled out: the engine casts one for a block it kept pending
    ([pending_block_notarized_after_skip]). *)
Theorem votor_votes_are_admissible i sk events :
  Forall event_ok events →
  ∃ v0 out0 v B, Votor_new i sk = Done (v0, out0) ∧ ballots out0 = []
    ∧ for_each votor_step (v0, []) events = Done (v, B)
    ∧ ∀ before after, events = before ++ after →
        ∃ v1 B1, for_each votor_step (v0, []) before = Done (v1, B1) ∧ B1 `prefix_of` B ∧ well_cast before B1.
Proof.
  intros Hev. destruct (votor_new_spec i sk) as (v0 & out0 & E0 & Hb & Hv0).
  destruct (votor_run_spec events [] [] v0 Hv0 Hev) as (v & B & E1 & Hv).
  exists v0, out0, v, B. split_and!; [done|done|done|]. intros before after ->. apply Forall_app in Hev as [Hbefore _].
  destruct (votor_run_spec before [] [] v0 Hv0 Hbefore) as (v1 & B1 & E2 & Hv1). exists v1, B1. split; [done|].
  rewrite for_each_app, E2, Done_bind in E1. split; [by eapply votor_run_grows|apply Hv1].
Qed.

(** The engine can vote to skip a slot and then to notarize a block in it.  A block
    whose parent is not ready yet is kept pending; the slot times out and the window is
    skipped, but the pending block stays.  When its parent becomes ready, the pending
    block is notarized although the slot was voted on.  A pool that counted the skip vote
    of this validator flags the notarization vote as slashable. *)
Theorem pending_block_notarized_after_skip :
  let b := mkBlockId 4 [44] in
  let p := mkBlockId 3 [33] in
  let events := [EvStore (StoreEv_Block 4 b p); EvTimeout (VotorTimeout_Timeout 4);
                 EvPool (PoolEv_ParentReady 4 p)] in
  (r ← Votor_new 0 [1]; r ← for_each votor_step (r.1, []) events; mret r.2)
  = Done [BSkip 4; BSkip 5; BSkip 6; BSkip 7; BNotar 4 [44]]
  ∧ (skip ← Vote_new_skip 4 [1] 0; notar ← Vote_new_notar 4 [44] [1] 0;
     ei ← EpochInfo_new [mkValidatorInfo 0 5 [] []; mkValidatorInfo 1 5 [] []];
     r ← @SlotState_add_vote (elements_order (list Z)) (SlotState_new 4 1) skip 5 ei Outputs_default;
     mret (SlotState_check_slashable_offence r.1 notar))
    = Done (Some (mkSlashable SkipAndNotarize 0 4)).
Proof. split; vm_compute; reflexivity. Qed.

(** ** Witnesses *)

(** A block of slot 1 on genesis is received, notarized, certified and finalized. *)
Lemma votor_votes_are_admissible_witness :
  ∃ v B, (∃ v0 out0, Votor_new 0 [1] = Done (v0, out0)
    ∧ for_each votor_step (v0, [])
        [EvStore (StoreEv_Block 1 (mkBlockId 1 [11]) (BlockId_genesis 0));
         EvPool (PoolEv_CertCreated (Cert_Notar (mkNotarCert 1 [11] (mkAggregateSignature [] 0 []) 4)));
         EvTimeout (VotorTimeout_Timeout 2)] = Done (v, B))
    ∧ B = [BNotar 1 [11]; BFinal 1; BSkip 2; BSkip 3].
Proof.
  destruct (votor_votes_are_admissible 0 [1]
    [EvStore (StoreEv_Block 1 (mkBlockId 1 [11]) (BlockId_genesis 0));
     EvPool (PoolEv_CertCreated (Cert_Notar (mkNotarCert 1 [11] (mkAggregateSignature [] 0 []) 4)));
     EvTimeout (VotorTimeout_Timeout 2)]) as (v0 & out0 & v & B & E0 & _ & E1 & _).
  - repeat constructor; discriminate.
  - exists v, B. split; [exists v0, out0; split; [exact E0|exact E1]|].
    vm_compute in E0. injection E0 as <- _. vm_compute in E1. injection E1 as _ <-. reflexivity.
Defined.
