(* ===== verification/AlpProgress.v ===== *)
(** * Alpenglow: progress of the voting decisions

    [AlpVotor] shows that every vote the engine of
    [src/crates/karstflow-alpenglow/src/votor.rs] casts is admissible; an engine that
    never votes has that property too.  This file shows the other half: the engine casts
    every vote it owes.  A slot whose timeout fired is voted on, the one block of a slot
    is notarized when its parent is available, and a notarized block that is the one
    certified is finalized, in whatever order the block, its parent, the certificate and everything else arrive.

    Three facts carry the proof.  [grows]: no event makes a slot forget what it holds.
    [backed]: a slot is marked as voted, bad or retired only for a vote that was cast.
    [fin_settled] and [pend_settled]: between two events no finalization vote and no
    pending block is left that could go out. *)
From stdpp Require Import base tactics list list_numbers numbers countable gmap sorting.
From Stdlib Require Import ZArith Lia.
From S2P Require Import Prelude AlpBase AlpVote AlpCert AlpSlotState AlpVotor.
Local Open Scope Z_scope.

(** ** What a slot holds only grows *)

Record slot_ext (st st' : VotorSlotState) : Prop := {
  sx_voted : vs_voted st = true → vs_voted st' = true;
  sx_notar : ∀ h, vs_voted_notar st = Some h → vs_voted_notar st' = Some h;
  sx_ready : vs_parents_ready st ⊆ vs_parents_ready st';
  sx_notarized : is_Some (vs_block_notarized st) → is_Some (vs_block_notarized st');
  sx_pending : is_Some (vs_pending_block st) → is_Some (vs_pending_block st') ∨ vs_voted st' = true;
}.
#[export] Instance slot_ext_preorder : PreOrder slot_ext.
Proof.
  split; [intros st; by split; auto|]. intros a b c [] []. split; auto; [by etrans|].
  intros [?|?]%sx_pending0; auto.
Qed.

(** Slots below the window of the highest final certificate are dropped. *)
Record grows (v v' : Votor) : Prop := {
  gr_high : vt_highest_final_cert_slot v <= vt_highest_final_cert_slot v';
  gr_slot : ∀ s, Votor_first_unpruned_slot v' <= s → slot_ext (vs v s) (vs v' s);
}.
Lemma grows_fu v v' : grows v v' → Votor_first_unpruned_slot v <= Votor_first_unpruned_slot v'.
Proof. intros []. by apply first_slot_mono. Qed.
#[export] Instance grows_preorder : PreOrder grows.
Proof.
  split; [by split|]. intros a b c [Hab Sab] Hbc. pose proof (grows_fu _ _ Hbc). destruct Hbc as [Hbc Sbc].
  split; [lia|]. intros s Hs. etrans; [apply Sab; lia|by apply Sbc].
Qed.
Lemma grows_upd v s f : slot_ext (vs v s) (f (vs v s)) → grows v (Votor_upd v s f).
Proof. intros Hf. split; [done|]. intros x _. rewrite vs_upd. by case_decide; subst. Qed.
Lemma grows_prune v slot :
  grows v (Votor_prune (mkVotor (vt_slots v) (vt_validator_index v) (vt_voting_key v)
                          (Z.max (vt_highest_final_cert_slot v) slot))).
Proof.
  split; [cbn; lia|]. intros s Hs. by rewrite vs_prune, decide_True.
Qed.

(** ** A marked slot has its vote *)

Definition decided (B : list ballot) (s : Z) : Prop := (∃ h, BNotar s h ∈ B) ∨ BSkip s ∈ B.
Definition spoiled (B : list ballot) (s : Z) : Prop :=
  BSkip s ∈ B ∨ BSkipFallback s ∈ B ∨ ∃ h, BNotarFallback s h ∈ B.

Record backed (B : list ballot) (v : Votor) : Prop := {
  bk_voted : ∀ s, vs_voted (vs v s) = true → s = 0 ∨ decided B s;
  bk_bad : ∀ s, vs_bad_window (vs v s) = true → spoiled B s;
  bk_retired : ∀ s, vs_retired (vs v s) = true →
    is_Some (vs_voted_notar (vs v s)) ∧ (s = 0 ∨ BFinal s ∈ B);
}.
Lemma decided_app B new s : decided B s → decided (B ++ new) s.
Proof. intros [[h ?]|?]; [left; exists h|right]; set_solver. Qed.
Lemma spoiled_app B new s : spoiled B s → spoiled (B ++ new) s.
Proof. intros [?|[?|[h ?]]]; [left|right; left|right; right; exists h]; set_solver. Qed.

Lemma backed_upd B new v s f (st := vs v s) :
  backed B v →
  (vs_voted (f st) = true → vs_voted st = true ∨ decided new s) →
  (vs_bad_window (f st) = true → vs_bad_window st = true ∨ spoiled (B ++ new) s) →
  (vs_retired (f st) = true → vs_retired st = true ∨ (is_Some (vs_voted_notar st) ∧ BFinal s ∈ new)) →
  (is_Some (vs_voted_notar st) → is_Some (vs_voted_notar (f st))) →
  backed (B ++ new) (Votor_upd v s f).
Proof.
  intros [] H1 H2 H3 H4. split; intros x; rewrite vs_upd; (case_decide; [subst x|]).
  - intros [[?|?]%bk_voted0|Hd]%H1; [by left|right; by apply decided_app|right].
    destruct Hd as [[h ?]|?]; [left; exists h|right]; set_solver.
  - intros [?|?]%bk_voted0; [by left|right; by apply decided_app].
  - intros [?%bk_bad0|?]%H2; [by apply spoiled_app|done].
  - intros ?%bk_bad0. by apply spoiled_app.
  - intros [[? [?|?]]%bk_retired0|[??]]%H3; (split; [by apply H4|]); [by left|right; set_solver..].
  - intros [? [?|?]]%bk_retired0; (split; [done|]); [by left|right; set_solver].
Qed.
Lemma backed_app B new v : backed B v → backed (B ++ new) v.
Proof.
  intros []. split; intros s.
  - intros [?|?]%bk_voted0; [by left|right; by apply decided_app].
  - intros ?%bk_bad0. by apply spoiled_app.
  - intros [? [?|?]]%bk_retired0; (split; [done|]); [by left|right; set_solver].
Qed.

(** ** Nothing that could go out is held back *)

(** [S] is the slot whose finalization is still to be tried. *)
Definition fin_settled (S : Z → Prop) (v : Votor) : Prop :=
  ∀ s h, ¬ S s → vs_block_notarized (vs v s) = Some h → vs_voted_notar (vs v s) = Some h →
    vs_bad_window (vs v s) = false → vs_retired (vs v s) = true.
Definition pend_settled (v : Votor) : Prop :=
  ∀ s b p, vs_pending_block (vs v s) = Some (b, p) → try_notar_parent_ok v s p = false.

Lemma fin_settled_upd (S S' : Z → Prop) v s f :
  fin_settled S v → (∀ x, S x → S' x ∨ x = s) →
  (¬ S' s → ∀ h, vs_block_notarized (f (vs v s)) = Some h → vs_voted_notar (f (vs v s)) = Some h →
    vs_bad_window (f (vs v s)) = false → vs_retired (f (vs v s)) = true) →
  fin_settled S' (Votor_upd v s f).
Proof.
  intros Hv HS Hs x h Hx. rewrite vs_upd. case_decide; [subst x; eauto|]. apply Hv. by intros [?|?]%HS.
Qed.

(** What [try_notar] and the pending blocks read. *)
Definition links (st : VotorSlotState) : option BlockHash * list BlockId * option (BlockId * BlockId) :=
  (vs_voted_notar st, vs_parents_ready st, vs_pending_block st).
Definition same_links (v v' : Votor) : Prop := ∀ s, links (vs v' s) = links (vs v s).

Lemma parent_ok_view v s p :
  try_notar_parent_ok v s p =
    if s =? first_slot_in_window s then bool_decide (p ∈ vs_parents_ready (vs v s))
    else (bi_slot p =? u64_sub s 1)
         && bool_decide (vs_voted_notar (vs v (bi_slot p)) = Some (bi_hash p)).
Proof.
  unfold try_notar_parent_ok, vs. case_match.
  - destruct (vt_slots v !! s); [done|]. cbn. symmetry. apply bool_decide_eq_false. apply not_elem_of_nil.
  - f_equal. by destruct (vt_slots v !! bi_slot p).
Qed.
Lemma same_links_parent_ok v v' s p : same_links v v' → try_notar_parent_ok v' s p = try_notar_parent_ok v s p.
Proof.
  intros Hl. rewrite !parent_ok_view. pose proof (Hl s) as H1. pose proof (Hl (bi_slot p)) as H2.
  injection H1 as _ -> _. by injection H2 as -> _ _.
Qed.
Lemma same_links_settled v v' : same_links v v' → pend_settled v → pend_settled v'.
Proof.
  intros Hl Hv s b p Hp. rewrite (same_links_parent_ok v v' s p Hl). apply (Hv s b).
  pose proof (Hl s) as Hs. injection Hs as _ _ Hs. congruence.
Qed.
Lemma same_links_upd v s f : links (f (vs v s)) = links (vs v s) → same_links v (Votor_upd v s f).
Proof. intros Hf x. rewrite vs_upd. by case_decide; subst. Qed.
#[export] Instance same_links_preorder : PreOrder same_links.
Proof. split; [done|]. intros a b c Hab Hbc s. rewrite (Hbc s). apply Hab. Qed.

(** ** The handlers *)

Section handlers.
Context (B : list ballot).

(** A state and the votes of the event so far. *)
Record fit (S : Z → Prop) (r : Votor * VotorOut) : Prop := {
  ft_backed : backed (B ++ ballots r.2) r.1;
  ft_final : fin_settled S r.1;
}.

Lemma fit_upd (S S' : Z → Prop) v s f out out' new (st := vs v s) :
  fit S (v, out) → ballots out' = ballots out ++ new → (∀ x, S x → S' x ∨ x = s) →
  (vs_voted (f st) = true → vs_voted st = true ∨ decided new s) →
  (vs_bad_window (f st) = true → vs_bad_window st = true ∨ spoiled (B ++ ballots out') s) →
  (vs_retired (f st) = true → vs_retired st = true ∨ (is_Some (vs_voted_notar st) ∧ BFinal s ∈ new)) →
  (is_Some (vs_voted_notar st) → is_Some (vs_voted_notar (f st))) →
  (¬ S' s → ∀ h, vs_block_notarized (f st) = Some h → vs_voted_notar (f st) = Some h →
    vs_bad_window (f st) = false → vs_retired (f st) = true) →
  fit S' (Votor_upd v s f, out').
Proof.
  intros [Hb Hf] Ho HS H1 H2 H3 H4 H5. cbn in Hb, Hf. split; cbn.
  - rewrite Ho, app_assoc in *. by apply backed_upd.
  - by eapply fin_settled_upd.
Qed.

Lemma try_final_progress v s h out v' out' :
  Votor_try_final v s h out = Done (v', out') → fit (eq s) (v, out) →
  (vs_voted_notar (vs v s) = Some h ∨ vs_block_notarized (vs v s) = Some h) →
  fit no_slot (v', out') ∧ grows v v' ∧ same_links v v' ∧ (∀ x, vs_voted (vs v' x) = vs_voted (vs v x)).
Proof.
  intros (_ & _ & E)%bind_Done Hf Hh. unfold vs in Hh.
  destruct (vt_slots v !! s) as [st|] eqn:Es; [|by destruct Hh]. cbn in Hh.
  assert (Est : vs v s = st) by (unfold vs; by rewrite Es).
  destruct (_ && _ && _) eqn:Ec in E.
  - apply andb_true_iff in Ec as [[_ Hvn%bool_decide_eq_true]%andb_true_iff _].
    destruct (new_final_ballot s (vt_voting_key v) (vt_validator_index v)) as (vote & Ev & Eb).
    rewrite Ev, Done_bind in E. injection E as <- <-. split_and!.
    + apply (fit_upd (eq s) _ _ _ _ out _ [BFinal s]); rewrite ?ballots_push, ?Eb, ?Est; cbn; auto.
      intros _. right. split; [by eexists|set_solver].
    + apply grows_upd; split; cbn; auto.
    + by apply same_links_upd.
    + intros x. rewrite vs_upd. by case_decide; subst.
  - injection E as <- <-. split_and!; [|done..]. destruct Hf as [Hb Hf]. split; [done|].
    intros x h' _. cbn. destruct (decide (x = s)) as [->|Hx]; [|by apply Hf].
    rewrite Est. intros E1 E2 E3. rewrite E1, E2, E3, andb_true_r in Ec.
    destruct Hh; simplify_eq; by rewrite !bool_decide_eq_true_2 in Ec by done.
Qed.

(** [try_notar] votes exactly when the parent is available. *)
Lemma try_notar_progress v s b p out r v' out' :
  Votor_try_notar v s b p out = Done (r, v', out') → fit no_slot (v, out) →
  vs_voted_notar (vs v s) = None →
  fit no_slot (v', out') ∧ grows v v' ∧ r = try_notar_parent_ok v s p
  ∧ if r then vs_voted (vs v' s) = true ∧ vs_pending_block (vs v' s) = None
              ∧ ∀ x, x ≠ s → links (vs v' x) = links (vs v x)
    else v' = v ∧ out' = out.
Proof.
  intros (_ & _ & E)%bind_Done Hf Hn. destruct (try_notar_parent_ok v s p) eqn:Ep; cbn [negb] in E;
    [|by injection E as <- <- <-].
  destruct (new_notar_ballot s (bi_hash b) (vt_voting_key v) (vt_validator_index v)) as (vote & Ev & Eb).
  rewrite Ev, Done_bind in E. cbn zeta in E. set (v1 := Votor_upd v s _) in E.
  apply bind_Done in E as ([v2 out2] & E1 & E2). injection E2 as <- <- <-.
  assert (Hs1 : vs v1 s = st_notar (bi_hash b) (vs v s)) by (unfold v1; by rewrite vs_upd, decide_True).
  assert (Hg1 : grows v v1) by (apply grows_upd; split; cbn; auto; by rewrite Hn).
  apply try_final_progress in E1 as (Hf' & Hg & Hl & Hvo); [|..].
  - split_and!; [done|by etrans|done|rewrite Hvo; by rewrite Hs1|..].
    + pose proof (Hl s) as Hls. injection Hls as _ _ ->. by rewrite Hs1.
    + intros x Hx. rewrite (Hl x). unfold v1. by rewrite vs_upd, decide_False.
  - apply (fit_upd no_slot _ _ _ _ out _ [BNotar s (bi_hash b)]);
      rewrite ?ballots_push, ?Eb; cbn; try done; auto.
    intros _. right. left. exists (bi_hash b). set_solver.
  - left. by rewrite Hs1.
Qed.

Lemma skip_slots_progress l : ∀ v out v' out',
  for_each skip_slot (v, out) l = Done (v', out') → fit no_slot (v, out) →
  fit no_slot (v', out') ∧ grows v v' ∧ same_links v v'
  ∧ ∀ x, vs_voted (vs v x) = true ∨ x ∈ l → vs_voted (vs v' x) = true.
Proof.
  induction l as [|s l IH]; intros v out v' out'; cbn [for_each].
  { intros [= <- <-] Hf. split_and!; [done..|]. by intros x [?|?%elem_of_nil]. }
  intros ([v1 out1] & E1 & E2)%bind_Done Hf.
  assert (fit no_slot (v1, out1) ∧ grows v v1 ∧ same_links v v1
    ∧ ∀ x, vs_voted (vs v x) = true ∨ x = s → vs_voted (vs v1 x) = true)
    as (Hf1 & Hg1 & Hl1 & Hv1).
  { cbn [skip_slot] in E1. rewrite has_voted_view in E1. destruct (vs_voted (vs v s)) eqn:Evo.
    { injection E1 as <- <-. split_and!; try done. by intros x [?| ->]. }
    cbn zeta in E1. set (v2 := Votor_upd v s st_skip) in E1.
    destruct (new_skip_ballot s (vt_voting_key v2) (vt_validator_index v2)) as (vote & Ev & Eb).
    rewrite Ev, Done_bind in E1. injection E1 as <- <-. split_and!.
    - apply (fit_upd no_slot _ _ _ _ out _ [BSkip s]); rewrite ?ballots_push, ?Eb; cbn; try done; auto.
      + intros _. right. right. set_solver.
      + intros _. right. left. set_solver.
    - apply grows_upd; split; cbn; auto.
    - by apply same_links_upd.
    - intros x. unfold v2. rewrite vs_upd. case_decide; [done|]. by intros [?|?]. }
  destruct (IH _ _ _ _ E2 Hf1) as (Hf' & Hg' & Hl' & Hv'). split_and!; [done|by etrans|by etrans|].
  intros x Hx. apply Hv'. destruct Hx as [?|[->|?]%elem_of_cons]; auto.
Qed.

Lemma try_skip_window_progress v s out v' out' :
  Votor_try_skip_window v s out = Done (v', out') → fit no_slot (v, out) → is_u64 s →
  fit no_slot (v', out') ∧ grows v v' ∧ same_links v v' ∧ vs_voted (vs v' s) = true.
Proof.
  intros (_ & _ & E)%bind_Done Hf Hs. apply skip_slots_progress in E as (? & ? & ? & Hvo); [|done].
  split_and!; try done. apply Hvo. right. apply elem_of_seqZ.
  rewrite last_slot_eq by done. pose proof (window_bounds s). lia.
Qed.

(** The pending blocks come in the order of their slots, and all of them come. *)
Lemma pending_blocks_complete v s b p :
  vs_pending_block (vs v s) = Some (b, p) → (s, b, p) ∈ pending_blocks v.
Proof.
  unfold vs. destruct (vt_slots v !! s) as [st|] eqn:Es; cbn; [|done]. intros Hp.
  apply list_elem_of_omap. exists (s, st). rewrite merge_sort_Permutation, elem_of_map_to_list.
  split; [done|]. cbn. by rewrite Hp.
Qed.
Lemma pending_blocks_sorted v :
  StronglySorted (λ x y : Z * BlockId * BlockId, x.1.1 <= y.1.1) (pending_blocks v).
Proof.
  unfold pending_blocks.
  assert (Hs : StronglySorted entry_le (merge_sort entry_le (map_to_list (vt_slots v)))).
  { assert (Total entry_le) by (intros [a ?] [c ?]; unfold entry_le; cbn; lia).
    assert (Transitive entry_le) by (intros [a ?] [c ?] [d ?]; unfold entry_le; cbn; lia).
    apply (StronglySorted_merge_sort entry_le). }
  revert Hs. generalize (merge_sort entry_le (map_to_list (vt_slots v))). intros l.
  induction l as [|[s st] l IH]; [constructor|]. intros [Hl Hs]%StronglySorted_inv. cbn.
  destruct (vs_pending_block st) as [[b p]|]; cbn; [|by apply IH]. constructor; [by apply IH|].
  apply Forall_forall. intros y ([s' st'] & Hin & Hy)%list_elem_of_omap.
  rewrite Forall_forall in Hs. apply Hs in Hin. cbn in Hy.
  by apply fmap_Some in Hy as ([b' p'] & _ & ->).
Qed.

(** A vote on slot [s] makes no parent available to an earlier slot. *)
Lemma parent_ok_earlier v v1 s s' p :
  (∀ x, x ≠ s → links (vs v1 x) = links (vs v x)) → 0 < s' <= u64_max → s' < s →
  try_notar_parent_ok v1 s' p = try_notar_parent_ok v s' p.
Proof.
  intros Hl H0 Hs. rewrite !parent_ok_view. assert (E1 : u64_sub s' 1 = s' - 1)
    by (apply wrap64_small; unfold is_u64; lia). rewrite E1.
  pose proof (Hl s' ltac:(lia)) as Hs'. injection Hs' as _ -> _.
  destruct (Z.eqb_spec (bi_slot p) (s' - 1)) as [Hp|]; [|done].
  pose proof (Hl (bi_slot p) ltac:(lia)) as Hp'. by injection Hp' as -> _ _.
Qed.

(** The loop over the pending blocks: a block it passed by cannot be voted on later in
    the loop, since only a vote on the slot before it makes its parent available. *)
Lemma pending_loop_progress l : ∀ v out v' out',
  for_each pending_turn (v, out) l = Done (v', out') → fit no_slot (v, out) →
  NoDup ((λ x : Z * BlockId * BlockId, x.1.1) <$> l) →
  StronglySorted (λ x y : Z * BlockId * BlockId, x.1.1 <= y.1.1) l →
  (∀ s b p, (s, b, p) ∈ l → 0 < s <= u64_max ∧ vs_pending_block (vs v s) = Some (b, p)
     ∧ vs_voted_notar (vs v s) = None) →
  (∀ s b p, vs_pending_block (vs v s) = Some (b, p) → (s, b, p) ∈ l
     ∨ (0 < s <= u64_max ∧ try_notar_parent_ok v s p = false ∧ Forall (λ x, s < x.1.1) l)) →
  fit no_slot (v', out') ∧ grows v v' ∧ pend_settled v'.
Proof.
  induction l as [|[[s b] p] l IH]; intros v out v' out'; cbn [for_each].
  { intros [= <- <-] Hf _ _ _ Hd. split_and!; [done..|]. intros s b p [?%elem_of_nil|(_ & ? & _)]%Hd; done. }
  intros ([v1 out1] & ([[r v2] out2] & E1 & E3)%bind_Done & E2)%bind_Done Hf [Hns Hnd]%NoDup_cons
    [Hsl Hss]%StronglySorted_inv Hl Hd. cbn [fst snd] in E1. injection E3 as -> ->.
  destruct (Hl s b p) as (H0 & Hp & Hn); [by left|].
  destruct (try_notar_progress _ _ _ _ _ _ _ _ E1 Hf Hn) as (Hf1 & Hg1 & Hr & Hcase).
  assert (Hlt : Forall (λ x, s < x.1.1) l).
  { rewrite Forall_forall in *. intros x Hx. pose proof (Hss x Hx) as Hle. cbn in Hle.
    assert (x.1.1 ≠ s); [|lia]. intros <-. apply Hns, list_elem_of_fmap. by exists x. }
  assert (Hne : ∀ s' b' p', (s', b', p') ∈ l → s' ≠ s).
  { intros s' b' p' Hin ->. rewrite Forall_forall in Hlt. apply Hlt in Hin. cbn in Hin. lia. }
  destruct (IH _ _ _ _ E2 Hf1 Hnd Hsl) as (? & ? & ?); [..|by split_and!; [|etrans|]].
  - intros s' b' p' Hin. destruct (Hl s' b' p') as (? & ? & ?); [by right|]. destruct r; [|by destruct Hcase as [-> _]].
    destruct Hcase as (_ & _ & Hlk). pose proof (Hlk s' (Hne _ _ _ Hin)) as Hs'. injection Hs' as -> _ ->. done.
  - intros s' b' p' Hp'. destruct r.
    + destruct Hcase as (_ & Hps & Hlk). destruct (decide (s' = s)) as [->|Hx]; [congruence|].
      rewrite (f_equal snd (Hlk s' Hx) : vs_pending_block _ = vs_pending_block _) in Hp'.
      destruct (Hd _ _ _ Hp') as [[[= -> _ _]|?]%elem_of_cons|(? & ? & [Hs' ?]%Forall_cons)]; [done|by left|right].
      cbn in Hs'. by rewrite (parent_ok_earlier v v1 s s' p').
    + destruct Hcase as [-> _].
      destruct (Hd _ _ _ Hp') as [[[= -> _ ->]|?]%elem_of_cons|(? & ? & [Hs' ?]%Forall_cons)]; auto.
Qed.

Lemma check_pending_progress v out v' out' :
  Votor_check_pending_blocks v out = Done (v', out') → fit no_slot (v, out) →
  (∀ s b p, vs_pending_block (vs v s) = Some (b, p) → 0 < s <= u64_max ∧ vs_voted_notar (vs v s) = None) →
  fit no_slot (v', out') ∧ grows v v' ∧ pend_settled v'.
Proof.
  intros E Hf Hp. apply (pending_loop_progress _ _ _ _ _ E Hf).
  - apply pending_blocks_NoDup.
  - apply pending_blocks_sorted.
  - intros s b p [_ Hb]%pending_blocks_elem. by destruct (Hp _ _ _ Hb).
  - intros s b p Hb. left. by apply pending_blocks_complete.
Qed.
End handlers.

(** ** Events *)

Definition undecided (v : Votor) (s : Z) : Prop := vt_highest_final_cert_slot v < s.

(** What is left of an event in the state, for slots above the finalized ones. *)
Definition observed (v : Votor) (e : votor_event) : Prop :=
  match e with
  | EvStore (StoreEv_Block s _ _) =>
      undecided v s → vs_voted (vs v s) = true ∨ is_Some (vs_pending_block (vs v s))
  | EvPool (PoolEv_ParentReady s p) =>
      undecided v s → p ∈ vs_parents_ready (vs v s) ∨ is_Some (vs_voted_notar (vs v s))
  | EvPool (PoolEv_CertCreated (Cert_Notar c)) =>
      undecided v (nc_slot c) → is_Some (vs_block_notarized (vs v (nc_slot c)))
  | EvTimeout (VotorTimeout_Timeout s) => undecided v s → vs_voted (vs v s) = true
  | _ => True
  end.
Lemma undecided_unpruned v s : undecided v s → Votor_first_unpruned_slot v <= s.
Proof.
  unfold undecided, Votor_first_unpruned_slot. pose proof (window_bounds (vt_highest_final_cert_slot v)). lia.
Qed.
Lemma observed_grows v v' e : grows v v' → observed v e → observed v' e.
Proof.
  intros Hg. assert (Hs : ∀ s, undecided v' s → undecided v s ∧ slot_ext (vs v s) (vs v' s)).
  { intros s Hu. split; [unfold undecided in *; pose proof (gr_high _ _ Hg); lia|].
    by apply Hg, undecided_unpruned. }
  destruct e as [[]|[]|[]]; cbn; try done.
  - intros Ho [Hu []]%Hs. destruct (Ho Hu) as [?|[h ?%sx_notar0]]; auto.
  - destruct c; try done. intros Ho [Hu []]%Hs. auto.
  - intros Ho [Hu []]%Hs. destruct (Ho Hu); [by auto|]. destruct sx_pending0; auto.
  - intros Ho [Hu []]%Hs. auto.
Qed.

Record live (E : list votor_event) (B : list ballot) (v : Votor) : Prop := {
  lv_backed : backed B v;
  lv_final : fin_settled no_slot v;
  lv_pending : pend_settled v;
  lv_seen : ∀ e, e ∈ E → observed v e;
}.

Section step.
Context (E : list votor_event) (B : list ballot) (v : Votor).
Context (Hv : vinv no_slot E B v) (Hlive : live E B v).

Definition advances (e : votor_event) (v' : Votor) (out : VotorOut) : Prop :=
  fit B no_slot (v', out) ∧ pend_settled v' ∧ grows v v' ∧ observed v' e.

Lemma fit_start : fit B no_slot (v, VotorOut_default).
Proof using Hlive. split; cbn; [rewrite app_nil_r|]; apply Hlive. Qed.
Lemma advances_same e : observed v e → advances e v VotorOut_default.
Proof using Hlive. intros He. split_and!; [apply fit_start|apply Hlive|done|done]. Qed.

Lemma fit_msgs S v1 out out' : ballots out' = ballots out → fit B S (v1, out) → fit B S (v1, out').
Proof. intros Ho []. split; cbn; [by rewrite Ho|done]. Qed.

Lemma skip_progress e s v' out :
  Votor_try_skip_window v s VotorOut_default = Done (v', out) → is_u64 s →
  (vs_voted (vs v' s) = true → observed v' e) → advances e v' out.
Proof using Hlive.
  intros Es Hs He. apply (try_skip_window_progress B) in Es as (? & ? & Hl & ?); [|apply fit_start|done].
  split_and!; auto. eapply same_links_settled; [done|apply Hlive].
Qed.

Lemma skip_slots_keep x l v1 out v' out' :
  for_each skip_slot (v1, out) l = Done (v', out') → x ∈ ballots out → x ∈ ballots out'.
Proof.
  intros El Hx. refine (for_each_ind skip_slot (λ r, x ∈ ballots r.2) l (v1, out) (v', out') _ Hx El).
  intros s [v2 out2] [v3 out3] _ Hin. cbn [skip_slot snd] in *.
  destruct (Votor_has_voted v2 s); [by intros [= _ <-]|]. cbn zeta.
  intros (vote & _ & [= _ <-])%bind_Done. rewrite ballots_push, elem_of_app. by left.
Qed.

Lemma fallback_progress e s x vote v' out :
  ('(v, out) ← Votor_try_skip_window v s (push_msg (Message_Vote vote) VotorOut_default);
   mret (Votor_upd v s st_bad_window, out)) = Done (v', out) →
  is_u64 s → ballot_of (Message_Vote vote) = Some x → spoiled [x] s → (∀ v1, observed v1 e) →
  advances e v' out.
Proof using Hlive.
  intros ([v1 out1] & Ew & [= <- <-])%bind_Done Hs Hb Hx He.
  assert (Hin : x ∈ ballots out1).
  { apply bind_Done in Ew as (_ & _ & Ew). eapply skip_slots_keep; [exact Ew|].
    rewrite ballots_push, Hb. by left. }
  apply (try_skip_window_progress B) in Ew as (Hf & Hg & Hl & ?); [|clear Hin|done].
  - split_and!; [|eapply same_links_settled; [|apply Hlive]; etrans; [done|by apply same_links_upd]
                 |etrans; [done|apply grows_upd; split; cbn; auto]|done].
    apply (fit_upd B no_slot _ _ _ _ out1 _ []); rewrite ?app_nil_r; cbn; try done; auto.
    intros _. right. assert (Hin' : x ∈ B ++ ballots out1) by (apply elem_of_app; by right).
    destruct Hx as [<-%list_elem_of_singleton|[<-%list_elem_of_singleton|[h <-%list_elem_of_singleton]]];
      [by left|by right; left|right; right; by exists h].
  - destruct fit_start as [Hbk Hfs]. split; [|done].
    cbn [fst snd] in *. rewrite ballots_push, Hb, app_assoc. by apply backed_app.
Qed.

Lemma prune_settled slot :
  let v1 := mkVotor (vt_slots v) (vt_validator_index v) (vt_voting_key v)
              (Z.max (vt_highest_final_cert_slot v) slot) in
  fit B no_slot (Votor_prune v1, VotorOut_default) ∧ pend_settled (Votor_prune v1).
Proof using Hlive.
  intros v1. destruct Hlive as [[] Hfin Hp _]. split.
  - split; cbn [fst snd]; [rewrite app_nil_r; split|]; intros s; rewrite vs_prune; case_decide; try done; eauto.
  - intros s b p. rewrite vs_prune. case_decide as Hs; [|done]. intros Hb%Hp. revert Hb.
    rewrite !parent_ok_view, !vs_prune, decide_True by done. case_match; [done|].
    case_decide; [done|]. intros _. cbn. apply andb_false_r.
Qed.

Lemma cert_progress c v' out :
  Votor_handle_cert_created v c VotorOut_default = Done (v', out) → Votor_first_unpruned_slot v <= Cert_slot c →
  advances (EvPool (PoolEv_CertCreated c)) v' out.
Proof using Hlive.
  intros ([v1 out1] & E1 & [= <- <-])%bind_Done Hs.
  assert (advances (EvPool (PoolEv_CertCreated c)) v1 out1) as (Hf & ? & ? & ?).
  2:{ split_and!; try done. eapply fit_msgs; [|exact Hf]. by rewrite ballots_push, app_nil_r. }
  assert (Hfin : (out ← Votor_set_timeouts (first_slot_in_window (Cert_slot c)) VotorOut_default;
      mret (Votor_prune (mkVotor (vt_slots v) (vt_validator_index v) (vt_voting_key v)
              (Z.max (vt_highest_final_cert_slot v) (Cert_slot c))), out)) = Done (v1, out1) →
    (∀ u, observed u (EvPool (PoolEv_CertCreated c))) → advances (EvPool (PoolEv_CertCreated c)) v1 out1).
  { intros (out & Ho & [= <- <-])%bind_Done Hob. destruct (set_timeouts_spec _ VotorOut_default
      (first_slot_is_start (Cert_slot c))) as (out' & Ho' & Hm). rewrite Ho in Ho'. injection Ho' as <-.
    destruct (prune_settled (Cert_slot c)) as [Hf Hp]. split_and!; [|done|apply grows_prune|done].
    eapply fit_msgs; [by apply ballots_msgs|done]. }
  destruct c as [c|c|c|c|c]; [|by injection E1 as <- <-; apply advances_same..|by apply Hfin|by apply Hfin].
  clear Hfin. cbn [Cert_slot Cert_block_hash] in *. rewrite Done_bind in E1. cbn zeta in E1.
  set (v2 := Votor_upd v (nc_slot c) _) in E1.
  assert (Hs2 : vs v2 (nc_slot c) = st_notarized (nc_block_hash c) (vs v (nc_slot c)))
    by (unfold v2; by rewrite vs_upd, decide_True).
  assert (Hg2 : grows v v2) by (apply grows_upd; split; cbn; auto).
  apply (try_final_progress B) in E1 as (Hf & Hg & Hl & _); [..|right; by rewrite Hs2].
  - split_and!; [done| |by etrans|].
    + eapply same_links_settled; [|apply Hlive]. etrans; [|done]. by apply same_links_upd.
    + apply (observed_grows v2); [done|]. cbn. intros _. by rewrite Hs2.
  - apply (fit_upd B no_slot _ _ _ _ VotorOut_default _ []); cbn; try done; auto. apply fit_start.
Qed.

Lemma pool_progress e v' out :
  Votor_handle_pool_event v e VotorOut_default = Done (v', out) → event_ok (EvPool e) →
  (∀ s b, e ≠ PoolEv_Standstill s b) → advances (EvPool e) v' out.
Proof using Hlive Hv.
  unfold Votor_handle_pool_event. intros Ep Hok Hns.
  destruct (Votor_should_ignore_pool_event v e) eqn:Eig.
  { injection Ep as <- <-. apply advances_same. destruct e as [s p|b|s|c|s bundle]; cbn in Eig |- *; try done.
    - intros Hu%undecided_unpruned. apply orb_true_iff in Eig as [?%Z.ltb_lt|Hr]; [lia|right].
      rewrite is_retired_view in Hr. by apply (lv_backed _ _ _ Hlive) in Hr as [? _].
    - apply Z.ltb_lt in Eig. destruct c; try done. cbn in Eig. intros Hu%undecided_unpruned. lia. }
  destruct e as [s p|b|s|c|s bundle]; cbn in Eig, Hok; [| | | |by destruct (Hns s bundle)].
  - set (v1 := Votor_upd v s _) in Ep.
    apply bind_Done in Ep as ([v2 out2] & E2 & (out3 & Ho & [= <- <-])%bind_Done).
    assert (Hg1 : grows v v1).
    { apply grows_upd. split; cbn; auto. case_bool_decide; set_solver. }
    destruct (set_timeouts_spec s out2 Hok) as (out' & Ho' & Hm). rewrite Ho in Ho'. injection Ho' as <-.
    apply (check_pending_progress B) in E2 as (Hf & Hg & Hp).
    + split_and!; [|done|by etrans|apply (observed_grows v1); [done|]].
      * eapply fit_msgs; [by apply ballots_msgs|done].
      * cbn. intros _. left. unfold v1. rewrite vs_upd, decide_True by done. cbn. case_bool_decide; set_solver.
    + apply (fit_upd B no_slot _ _ _ _ VotorOut_default _ []); cbn; try done; auto; [apply fit_start|].
      intros Hno h. by apply (lv_final _ _ _ Hlive s h Hno).
    + intros s' b' p' Hp'. enough (vs_pending_block (vs v s') = Some (b', p') ∧
        vs_voted_notar (vs v1 s') = vs_voted_notar (vs v s')) as [Hp1 ->].
      { by destruct (vi_pending _ _ _ _ Hv _ _ _ Hp1) as (? & ? & _). }
      revert Hp'. unfold v1. rewrite vs_upd. by case_decide; subst.
  - eapply fallback_progress; [exact Ep|done|reflexivity| |done]. right. right. eexists. by left.
  - eapply fallback_progress; [exact Ep|done|reflexivity| |done]. right. left. by left.
  - apply cert_progress; [done|]. by apply Z.ltb_ge.
Qed.

(** A block kept for later is one that cannot be voted on now. *)
Lemma pending_progress s b p :
  false = try_notar_parent_ok v s p →
  advances (EvStore (StoreEv_Block s b p)) (Votor_upd v s (st_pending b p)) VotorOut_default.
Proof using Hlive.
  intros Hpo. set (v1 := Votor_upd v s (st_pending b p)).
  assert (Hok : ∀ s' p', try_notar_parent_ok v1 s' p' = try_notar_parent_ok v s' p').
  { intros s' p'. rewrite !parent_ok_view. unfold v1. rewrite !vs_upd. by repeat case_decide; subst. }
  split_and!.
  - apply (fit_upd B no_slot _ _ _ _ VotorOut_default _ []); cbn; try done; auto; [apply fit_start|].
    intros Hno h. by apply (lv_final _ _ _ Hlive s h Hno).
  - intros s' b' p'. rewrite Hok. unfold v1. rewrite vs_upd. case_decide; [subst s'; cbn; congruence|].
    apply (lv_pending _ _ _ Hlive).
  - apply grows_upd; split; cbn; auto.
  - cbn. intros _. right. unfold v1. by rewrite vs_upd, decide_True.
Qed.

Lemma store_progress e v' out :
  Votor_handle_blockstore_event v e VotorOut_default = Done (v', out) → event_ok (EvStore e) →
  advances (EvStore e) v' out.
Proof using Hlive Hv.
  unfold Votor_handle_blockstore_event. intros Ep Hok. cbn in Hok.
  destruct (Z.leb_spec (StoreEv_slot e) (vt_highest_final_cert_slot v)) as [Hle|Hgt]; cbn [orb] in Ep.
  { injection Ep as <- <-. apply advances_same. destruct e; cbn in Hle |- *; try done. unfold undecided. lia. }
  destruct (Votor_is_retired v (StoreEv_slot e)) eqn:Er.
  { injection Ep as <- <-. apply advances_same. rewrite is_retired_view in Er.
    apply (vi_retired _ _ _ _ Hv) in Er. destruct e; cbn in Er |- *; auto. }
  destruct e as [s|s|s b p]; cbn [StoreEv_slot] in *.
  - injection Ep as <- <-. split_and!; [|eapply same_links_settled, Hlive; by apply same_links_upd
                                        |apply grows_upd; split; cbn; auto|done].
    apply (fit_upd B no_slot _ _ _ _ VotorOut_default _ []); cbn; try done; auto; [apply fit_start|].
    intros Hno h. by apply (lv_final _ _ _ Hlive s h Hno).
  - by apply (skip_progress _ s).
  - rewrite has_voted_view in Ep. destruct (vs_voted (vs v s)) eqn:Evo.
    { injection Ep as <- <-. apply advances_same. cbn. auto. }
    assert (Hvn : vs_voted_notar (vs v s) = None).
    { destruct (vs_voted_notar (vs v s)) eqn:En; [|done]. apply (vi_notar _ _ _ _ Hv) in En as [? _]. congruence. }
    apply bind_Done in Ep as ([[r v1] out1] & E1 & E2).
    destruct (try_notar_progress B _ _ _ _ _ _ _ _ E1 fit_start Hvn) as (Hf1 & Hg1 & Hr & Hcase).
    destruct r.
    + destruct Hcase as (Hvo & Hps & Hlk).
      apply (check_pending_progress B) in E2 as (Hf & Hg & Hp); [|done|].
      * split_and!; [done|done|by etrans|]. apply (observed_grows v1); [done|]. cbn. auto.
      * intros s' b' p' Hp'. destruct (decide (s' = s)) as [->|Hx]; [congruence|].
        pose proof (Hlk s' Hx) as Hs'. injection Hs' as -> _ Hs'. rewrite Hs' in Hp'.
        by destruct (vi_pending _ _ _ _ Hv _ _ _ Hp') as (? & ? & _).
    + destruct Hcase as [-> ->]. injection E2 as <- <-. by apply pending_progress.
Qed.

Lemma timeout_progress e v' out :
  Votor_handle_timeout_event v e VotorOut_default = Done (v', out) → event_ok (EvTimeout e) →
  advances (EvTimeout e) v' out.
Proof using Hlive Hv.
  unfold Votor_handle_timeout_event. intros Ep Hok. cbn in Hok.
  destruct (Z.leb_spec (VotorTimeout_slot e) (vt_highest_final_cert_slot v)) as [Hle|Hgt]; cbn [orb] in Ep.
  { injection Ep as <- <-. apply advances_same. destruct e; cbn in Hle |- *; try done. unfold undecided. lia. }
  destruct (Votor_is_retired v (VotorTimeout_slot e)) eqn:Er.
  { injection Ep as <- <-. apply advances_same. rewrite is_retired_view in Er.
    apply (vi_retired _ _ _ _ Hv) in Er. destruct e; cbn in Er |- *; auto. }
  rewrite has_voted_view in Ep. destruct e as [s|s]; cbn [VotorTimeout_slot] in *.
  - destruct (vs_voted (vs v s)) eqn:Evo; cbn [negb] in Ep; [|apply (skip_progress _ s); cbn; auto].
    injection Ep as <- <-. apply advances_same. cbn. auto.
  - destruct (_ && _); [by apply (skip_progress _ s)|]. injection Ep as <- <-. by apply advances_same.
Qed.

Lemma step_live e v' B' :
  votor_step (v, B) e = Done (v', B') → event_ok e → live (E ++ [e]) B' v' ∧ grows v v'.
Proof using Hlive Hv.
  intros ([v1 out] & Eh & [= <- <-])%bind_Done Hok. cbn [fst snd] in Eh.
  assert (Ha : backed (B ++ cast e out) v1 ∧ fin_settled no_slot v1 ∧ pend_settled v1 ∧ grows v v1
               ∧ observed v1 e).
  { enough (advances e v1 out ∧ cast e out = ballots out ∨ v1 = v ∧ cast e out = [] ∧ observed v e)
      as [[([] & ? & ? & ?) ->]|(-> & -> & ?)]; [done|rewrite app_nil_r; split_and!; [apply Hlive..|done|done]|].
    destruct e as [[]|e|e]; cbn [votor_handle cast] in *;
      [left; split; [by apply pool_progress|done]..| |left; split; [by apply store_progress|done]
      |left; split; [by apply timeout_progress|done]].
    right. cbn in Eh. by injection Eh as <- _. }
  destruct Ha as (? & ? & ? & Hg & ?). split; [|done]. split; [done..|].
  intros e' [He'| ->%list_elem_of_singleton]%elem_of_app; [|done].
  apply (observed_grows v); [done|]. by apply Hlive.
Qed.
End step.

Lemma run_live es : ∀ E B v,
  vinv no_slot E B v → live E B v → Forall event_ok es →
  ∃ v' B', for_each votor_step (v, B) es = Done (v', B')
    ∧ vinv no_slot (E ++ es) B' v' ∧ live (E ++ es) B' v' ∧ grows v v'.
Proof.
  induction es as [|e es IH]; intros E B v Hv Hl Hes.
  { exists v, B. rewrite app_nil_r. by split_and!. }
  apply Forall_cons in Hes as [He Hes].
  destruct (votor_step_spec E B v e Hv He) as (v1 & B1 & E1 & Hv1).
  destruct (step_live E B v Hv Hl e v1 B1 E1 He) as [Hl1 Hg1].
  cbn [for_each]. rewrite E1, Done_bind. destruct (IH _ _ _ Hv1 Hl1 Hes) as (v' & B' & -> & Hv' & Hl' & Hg').
  exists v', B'. rewrite <- app_assoc in *. split_and!; try done. by etrans.
Qed.

Lemma new_live i sk :
  ∃ v out, Votor_new i sk = Done (v, out) ∧ ballots out = [] ∧ vinv no_slot [] [] v ∧ live [] [] v
    ∧ vs_voted_notar (vs v 0) = Some GENESIS_BLOCK_HASH.
Proof.
  destruct (votor_new_spec i sk) as (v & out & Ev & Hb & Hv). exists v, out.
  split_and!; try done; injection Ev as <- _; [|done].
  set (v := mkVotor _ _ _ _).
  assert (Hvs : ∀ x, x ≠ 0 → vs v x = VotorSlotState_default).
  { intros x Hx. unfold vs, v. cbn [vt_slots]. by rewrite lookup_singleton_ne. }
  assert (Hz : vs v 0 = mkVotorSlot true (Some GENESIS_BLOCK_HASH) false (Some GENESIS_BLOCK_HASH)
    [BlockId_genesis 0] false None true) by done.
  split; [split| | |by intros e ?%elem_of_nil]; intros x; (destruct (decide (x = 0)) as [->|Hx]; [|by rewrite Hvs]);
    rewrite Hz; cbn; eauto; done.
Qed.


(** ** Votes that are owed *)

(** The leader sent one block for the slot, and validators certified one. *)
Definition only_block (E : list votor_event) (s : Z) (b p : BlockId) : Prop :=
  ∀ b' p', EvStore (StoreEv_Block s b' p') ∈ E ↔ b' = b ∧ p' = p.
Definition only_certified (E : list votor_event) (s : Z) (h : BlockHash) : Prop :=
  ∀ h', notar_cert_seen E s h' ↔ h' = h.

(** The parent of a block of slot [s] is reported ready for the window, or is the block
    the validator itself notarized in the slot before. *)
Definition parent_available (E : list votor_event) (B : list ballot) (s : Z) (p : BlockId) : Prop :=
  if is_start_of_window s then EvPool (PoolEv_ParentReady s p) ∈ E
  else bi_slot p = s - 1 ∧ ((s = 1 ∧ bi_hash p = GENESIS_BLOCK_HASH) ∨ BNotar (s - 1) (bi_hash p) ∈ B).

Lemma well_cast_elem E B x : well_cast E B → x ∈ B → ∃ B', admissible E B' x.
Proof. intros Hw (B1 & B2 & ->)%list_elem_of_split. eauto. Qed.

Section owed.
Context (E : list votor_event) (B : list ballot) (v0 v : Votor) (s : Z).
Context (Hv : vinv no_slot E B v) (Hlive : live E B v) (Hg : grows v0 v).
Context (Hgen : vs_voted_notar (vs v0 0) = Some GENESIS_BLOCK_HASH).
Context (Hs : vt_highest_final_cert_slot v < s).

Lemma timeout_owed : EvTimeout (VotorTimeout_Timeout s) ∈ E → decided B s.
Proof using Hv Hlive Hs.
  intros Ht. pose proof (lv_seen _ _ _ Hlive _ Ht Hs) as Hvo.
  destruct (bk_voted _ _ (lv_backed _ _ _ Hlive) _ Hvo) as [->|?]; [|done].
  pose proof (vi_high _ _ _ _ Hv). lia.
Qed.

Lemma available_parent_ok p :
  s <= u64_max → parent_available E B s p → vs_voted_notar (vs v s) = None → try_notar_parent_ok v s p = true.
Proof using Hv Hlive Hs Hg Hgen.
  intros Hmax Hp Hn. pose proof (vi_high _ _ _ _ Hv) as H0.
  unfold parent_available in Hp. rewrite parent_ok_view. pose proof (is_start_of_window_iff s) as Hst.
  destruct (Z.eqb_spec s (first_slot_in_window s)) as [Hf|Hf].
  - rewrite (proj2 Hst) in Hp by done. apply bool_decide_eq_true.
    destruct (lv_seen _ _ _ Hlive _ Hp Hs) as [?|[h ?]]; [done|congruence].
  - destruct (is_start_of_window s); [by destruct Hf; symmetry; apply Hst|]. destruct Hp as [Hps Hp].
    assert (E1 : u64_sub s 1 = s - 1) by (apply wrap64_small; unfold is_u64; lia).
    rewrite E1, Hps, Z.eqb_refl. cbn [andb]. apply bool_decide_eq_true.
    assert (Hfu : Votor_first_unpruned_slot v <= s - 1).
    { pose proof (first_slot_mono (vt_highest_final_cert_slot v) s ltac:(lia)).
      pose proof (window_bounds s). unfold Votor_first_unpruned_slot. lia. }
    destruct Hp as [[-> ->]|Hp].
    + by apply (sx_notar _ _ (gr_slot _ _ Hg 0 Hfu)).
    + apply (vi_cast_notar _ _ _ _ Hv) in Hp as [?|?]; [lia|done].
Qed.

Lemma notar_owed b p :
  s <= u64_max → only_block E s b p → parent_available E B s p → BNotar s (bi_hash b) ∈ B ∨ BSkip s ∈ B.
Proof using Hv Hlive Hs Hg Hgen.
  intros Hmax Hb Hp. pose proof (vi_high _ _ _ _ Hv) as H0.
  destruct (lv_seen _ _ _ Hlive _ (proj2 (Hb b p) (conj eq_refl eq_refl)) Hs) as [Hvo|[[b' p'] Hpe]].
  - destruct (bk_voted _ _ (lv_backed _ _ _ Hlive) _ Hvo) as [->|[[h Hh]|?]]; [lia|left|by right].
    destruct (well_cast_elem _ _ _ (vi_cast _ _ _ _ Hv) Hh) as (B' & _ & b' & p' & [-> ->]%Hb & <- & _). done.
  - destruct (vi_pending _ _ _ _ Hv _ _ _ Hpe) as (_ & Hn & [-> ->]%Hb).
    pose proof (lv_pending _ _ _ Hlive _ _ _ Hpe) as Hno. by rewrite (available_parent_ok p) in Hno.
Qed.

Lemma final_owed h : BNotar s h ∈ B → only_certified E s h → BFinal s ∈ B ∨ spoiled B s.
Proof using Hv Hlive Hs.
  intros Hn Hc. pose proof (undecided_unpruned v s Hs) as Hfu. pose proof (vi_high _ _ _ _ Hv) as H0.
  apply (vi_cast_notar _ _ _ _ Hv) in Hn as [?|Hn]; [lia|].
  destruct (proj2 (Hc h) eq_refl) as (c & Hin & <- & _).
  destruct (lv_seen _ _ _ Hlive _ Hin Hs) as [h' Hh'].
  pose proof (vi_notarized _ _ _ _ Hv _ _ Hh') as [?|?%Hc]; [lia|subst h'].
  destruct (vs_bad_window (vs v (nc_slot c))) eqn:Eb.
  { right. by apply (bk_bad _ _ (lv_backed _ _ _ Hlive)). }
  left. pose proof (lv_final _ _ _ Hlive _ _ (λ H, H) Hh' Hn Eb) as Hr.
  apply (bk_retired _ _ (lv_backed _ _ _ Hlive)) in Hr as [_ [?|?]]; [lia|done].
Qed.
End owed.

(** C3. The engine casts every vote it owes.  For every sequence of pool, blockstore and
    timeout events with 64-bit slots in which parents are announced only for the first slot
    of a window, it runs without panicking, and for every slot above the finalized ones:
    if the timeout of the slot fired, it voted to notarize a block of the slot or to skip
    it; if one block, and no other, arrived for the slot and its parent is available, it
    voted for that block unless it voted to skip the slot; if it voted for a block, and
    the notarization certificates seen for the slot are for that block and no other, it
    voted to finalize the slot unless it cast a skip or fallback vote for it.  None of this
    depends on the order of the events.  Of two blocks of one slot the engine keeps the
    last one while neither can be voted for, and of two certificates the last one, so
    without these conditions the votes depend on the order. *)
Theorem votor_votes_are_live i sk events :
  Forall event_ok events →
  ∃ v0 out0 v B, Votor_new i sk = Done (v0, out0)
    ∧ for_each votor_step (v0, []) events = Done (v, B)
    ∧ ∀ s, vt_highest_final_cert_slot v < s <= u64_max →
        (EvTimeout (VotorTimeout_Timeout s) ∈ events → decided B s)
        ∧ (∀ b p, only_block events s b p → parent_available events B s p →
             BNotar s (bi_hash b) ∈ B ∨ BSkip s ∈ B)
        ∧ (∀ h, BNotar s h ∈ B → only_certified events s h → BFinal s ∈ B ∨ spoiled B s).
Proof.
  intros Hev. destruct (new_live i sk) as (v0 & out0 & E0 & _ & Hv0 & Hl0 & Hgen).
  destruct (run_live events [] [] v0 Hv0 Hl0 Hev) as (v & B & E1 & Hv & Hl & Hg).
  exists v0, out0, v, B. split_and!; [done|done|]. intros s [Hs Hmax]. split_and!.
  - by eapply timeout_owed.
  - intros b p. by eapply notar_owed.
  - intros h. by eapply final_owed.
Qed.

(** ** Witness *)

(** The certificate of slot 5 arrives before its block, the block before that of slot 4,
    and both before the parent of the window is ready; the rest of the window times out. *)
Definition late_parent_events : list votor_event :=
  [EvPool (PoolEv_CertCreated (Cert_Notar (mkNotarCert 5 [55] (mkAggregateSignature [] 0 []) 4)));
   EvStore (StoreEv_Block 5 (mkBlockId 5 [55]) (mkBlockId 4 [44]));
   EvStore (StoreEv_Block 4 (mkBlockId 4 [44]) (mkBlockId 3 [33]));
   EvPool (PoolEv_ParentReady 4 (mkBlockId 3 [33]));
   EvTimeout (VotorTimeout_Timeout 6)].

Ltac by_membership :=
  unfold late_parent_events; rewrite ?elem_of_cons, ?elem_of_nil; naive_solver.

Lemma votor_votes_are_live_witness :
  ∃ v B, (∃ v0 out0, Votor_new 0 [1] = Done (v0, out0)
    ∧ for_each votor_step (v0, []) late_parent_events = Done (v, B))
    ∧ decided B 6 ∧ (BNotar 4 [44] ∈ B ∨ BSkip 4 ∈ B) ∧ (BNotar 5 [55] ∈ B ∨ BSkip 5 ∈ B)
    ∧ (BFinal 5 ∈ B ∨ spoiled B 5) ∧ B = [BNotar 4 [44]; BNotar 5 [55]; BFinal 5; BSkip 6; BSkip 7].
Proof.
  destruct (votor_votes_are_live 0 [1] late_parent_events) as (v0 & out0 & v & B & E0 & E1 & Hl).
  { repeat constructor; discriminate. }
  exists v, B. split; [exists v0, out0; split; [exact E0|exact E1]|].
  vm_compute in E0. injection E0 as <- _. vm_compute in E1. injection E1 as <- <-.
  cbn [vt_highest_final_cert_slot] in Hl. split_and!.
  - apply (Hl 6); [done|]. by_membership.
  - apply (Hl 4 ltac:(done)) with (p := mkBlockId 3 [33]) (b := mkBlockId 4 [44]).
    + intros b p. by_membership.
    + unfold parent_available. change (is_start_of_window 4) with true. cbv iota. by_membership.
  - apply (Hl 5 ltac:(done)) with (p := mkBlockId 4 [44]) (b := mkBlockId 5 [55]).
    + intros b p. by_membership.
    + unfold parent_available. change (is_start_of_window 5) with false. cbv iota.
      split; [done|]. right. by_membership.
  - apply (Hl 5 ltac:(done)) with (h := [55]); [by_membership|].
    intros h. unfold notar_cert_seen. split.
    + intros (c & Hc & _ & <-). revert Hc. by_membership.
    + intros ->. eexists. split; [by left|done].
  - reflexivity.
Defined.
