(* ===== verification/AlpPool.v ===== *)
(** * Alpenglow: the pool

    Model of [src/crates/karstflow-alpenglow/src/pool.rs], which receives votes,
    certificates and blocks, keeps the slot states and drives the finality and
    parent-ready trackers.  Its events are the ones the voting engine of [AlpVotor]
    consumes.  Hash maps are finite maps; the order in which the standstill recovery
    visits the recorded slots is the parameter [IterOrder]. *)
From stdpp Require Import base tactics list numbers countable gmap relations sorting.
From Stdlib Require Import ZArith Lia.
From S2P Require Import Prelude AlpBase AlpVote AlpCert AlpSlotState AlpParentReady AlpFinality AlpVotor.
Local Open Scope Z_scope.

Inductive AddError :=
| SlotOutOfBounds | UnknownSigner | InvalidSignature | Duplicate
| AddError_Slashable (s : Slashable) | ThresholdNotMet.

Record PoolOut := mkPoolOut { po_events : list VotorPoolEvent; po_repairs : list BlockId }.
Definition PoolOut_default : PoolOut := mkPoolOut [] [].
Definition emit (e : VotorPoolEvent) (out : PoolOut) : PoolOut :=
  mkPoolOut (po_events out ++ [e]) (po_repairs out).
Definition repair (b : BlockId) (out : PoolOut) : PoolOut :=
  mkPoolOut (po_events out) (po_repairs out ++ [b]).

Record RecoveryBundle := mkBundle { rb_slot : Z; rb_certs : list Cert; rb_votes : list Vote }.

Record Recorded := mkRecorded {
  rc_notar : option Cert;
  rc_skip : option Cert;
  rc_fast_finalize : option Cert;
  rc_finalize : option Cert;
  rc_nf : list Cert;
  rc_own : list Vote;
}.
Definition Recorded_default : Recorded := mkRecorded None None None None [] [].

Record Pool := mkPool {
  pl_epoch_info : EpochInfo;
  pl_own_id : Z;
  pl_slot_states : gmap Z SlotState;
  pl_recorded : gmap Z Recorded;
  pl_s2n_waiting : gmap BlockId BlockId;
  pl_finality : FinalityTracker;
  pl_parent_ready : ParentReadyTracker;
}.

Definition Pool_new (own_id : Z) (epoch_info : EpochInfo) : Pool :=
  mkPool epoch_info own_id ∅ ∅ ∅ FinalityTracker_default ParentReadyTracker_default.

Definition set_slot_states (m : gmap Z SlotState) (p : Pool) : Pool :=
  mkPool (pl_epoch_info p) (pl_own_id p) m (pl_recorded p) (pl_s2n_waiting p) (pl_finality p)
    (pl_parent_ready p).
Definition set_recorded (m : gmap Z Recorded) (p : Pool) : Pool :=
  mkPool (pl_epoch_info p) (pl_own_id p) (pl_slot_states p) m (pl_s2n_waiting p) (pl_finality p)
    (pl_parent_ready p).
Definition set_s2n_waiting (m : gmap BlockId BlockId) (p : Pool) : Pool :=
  mkPool (pl_epoch_info p) (pl_own_id p) (pl_slot_states p) (pl_recorded p) m (pl_finality p)
    (pl_parent_ready p).
Definition set_finality (t : FinalityTracker) (p : Pool) : Pool :=
  mkPool (pl_epoch_info p) (pl_own_id p) (pl_slot_states p) (pl_recorded p) (pl_s2n_waiting p) t
    (pl_parent_ready p).
Definition set_parent_ready (t : ParentReadyTracker) (p : Pool) : Pool :=
  mkPool (pl_epoch_info p) (pl_own_id p) (pl_slot_states p) (pl_recorded p) (pl_s2n_waiting p)
    (pl_finality p) t.

Definition Pool_finalized_slot (p : Pool) : Z := ft_highest_finalized_slot (pl_finality p).
Definition Pool_first_unpruned_slot (p : Pool) : Z := ft_first_unpruned_slot (pl_finality p).
Definition Pool_parents_ready (p : Pool) (slot : Z) : list BlockId :=
  ParentReadyTracker_parents_ready (pl_parent_ready p) slot.

(** [slot_state]: the state of a slot, created on first access, and a write to it. *)
Definition Pool_slot_state (p : Pool) (slot : Z) : SlotState :=
  default (SlotState_new slot (pl_own_id p)) (pl_slot_states p !! slot).
Definition Pool_put_slot (p : Pool) (slot : Z) (s : SlotState) : Pool :=
  set_slot_states (<[slot := s]> (pl_slot_states p)) p.

Definition Pool_send_parent_ready (out : PoolOut) (pr : option ParentReady) : PoolOut :=
  match pr with
  | Some pr => emit (PoolEv_ParentReady (pr_slot pr) (pr_parent pr)) out
  | None => out
  end.

Definition Pool_prune (p : Pool) : Pool :=
  let first_unpruned := Pool_first_unpruned_slot p in
  let p := set_slot_states (filter (λ kv, first_unpruned <= kv.1) (pl_slot_states p)) p in
  let p := set_recorded (filter (λ kv, first_unpruned <= kv.1) (pl_recorded p)) p in
  set_parent_ready (ParentReadyTracker_prune (pl_parent_ready p) first_unpruned) p.

Definition Pool_handle_finalization (p : Pool) (fe : FinalizationEvent) (out : PoolOut) :
    Outcome (Pool * PoolOut) :=
  '(pr, t) ← ParentReadyTracker_handle_finalization (pl_parent_ready p) (fe_finalized fe)
               (fe_implicitly_finalized fe) (fe_implicitly_skipped fe);
  mret (Pool_prune (set_parent_ready t p), Pool_send_parent_ready out pr).

Definition is_nf_for (h : BlockHash) (c : Cert) : bool :=
  match c with Cert_NotarFallback x => bool_decide (nfc_block_hash x = h) | _ => false end.
Definition Pool_record_cert (p : Pool) (slot : Z) (cert : Cert) : Pool :=
  let r := default Recorded_default (pl_recorded p !! slot) in
  let r := match cert with
           | Cert_Notar _ => mkRecorded (Some cert) (rc_skip r) (rc_fast_finalize r) (rc_finalize r)
                               (rc_nf r) (rc_own r)
           | Cert_Skip _ => mkRecorded (rc_notar r) (Some cert) (rc_fast_finalize r) (rc_finalize r)
                              (rc_nf r) (rc_own r)
           | Cert_FastFinal _ => mkRecorded (rc_notar r) (rc_skip r) (Some cert) (rc_finalize r)
                                   (rc_nf r) (rc_own r)
           | Cert_Final _ => mkRecorded (rc_notar r) (rc_skip r) (rc_fast_finalize r) (Some cert)
                               (rc_nf r) (rc_own r)
           | Cert_NotarFallback c =>
               mkRecorded (rc_notar r) (rc_skip r) (rc_fast_finalize r) (rc_finalize r)
                 (if negb (existsb (is_nf_for (nfc_block_hash c)) (rc_nf r))
                  then rc_nf r ++ [cert] else rc_nf r) (rc_own r)
           end in
  set_recorded (<[slot := r]> (pl_recorded p)) p.

Definition Pool_push_notify (out : PoolOut) (r : NotifyParent) : PoolOut :=
  match r with
  | NotifyParent_Event (PoolEvent_SafeToNotar b) => emit (PoolEv_SafeToNotar b) out
  | NotifyParent_Event (PoolEvent_SafeToSkip s) => emit (PoolEv_SafeToSkip s) out
  | NotifyParent_Repair b => repair b out
  | NotifyParent_None => out
  end.

(** [self.slot_state(s).notify_parent_certified(..)], its result pushed to the output. *)
Definition notify_certified (p : Pool) (child : BlockId) (out : PoolOut) : Outcome (Pool * PoolOut) :=
  '(r, s) ← SlotState_notify_parent_certified (Pool_slot_state p (bi_slot child)) (bi_hash child)
              (pl_epoch_info p);
  mret (Pool_put_slot p (bi_slot child) s, Pool_push_notify out r).

Definition emit_ready (prs : list ParentReady) (out : PoolOut) : PoolOut :=
  foldl (λ out pr, emit (PoolEv_ParentReady (pr_slot pr) (pr_parent pr)) out) out prs.

(** The notar and notar-fallback arm of [add_valid_cert]. *)
Definition add_notar_cert (p : Pool) (block_id : BlockId) (is_notar : bool) (out : PoolOut) :
    Outcome (Pool * PoolOut) :=
  '(p, out) ← (if is_notar then
                 '(fe, t) ← FinalityTracker_mark_notarized (pl_finality p) block_id;
                 Pool_handle_finalization (set_finality t p) fe out
               else mret (p, out));
  '(p, out) ← match pl_s2n_waiting p !! block_id with
              | Some child =>
                  notify_certified (set_s2n_waiting (delete block_id (pl_s2n_waiting p)) p) child out
              | None => mret (p, out)
              end;
  '(pr, t) ← ParentReadyTracker_mark_notar_fallback (pl_parent_ready p) block_id;
  mret (set_parent_ready t p, repair block_id (emit_ready pr out)).

Definition Pool_add_valid_cert (p : Pool) (cert : Cert) (out : PoolOut) : Outcome (Pool * PoolOut) :=
  let slot := Cert_slot cert in
  let p := Pool_put_slot p slot (SlotState_add_cert (Pool_slot_state p slot) cert) in
  let p := Pool_record_cert p slot cert in
  '(p, out) ←
    match cert with
    | Cert_Notar c => add_notar_cert p (mkBlockId slot (nc_block_hash c)) true out
    | Cert_NotarFallback c => add_notar_cert p (mkBlockId slot (nfc_block_hash c)) false out
    | Cert_Skip _ =>
        '(pr, t) ← ParentReadyTracker_mark_skipped (pl_parent_ready p) slot;
        mret (set_parent_ready t p, emit_ready pr out)
    | Cert_FastFinal c =>
        '(fe, t) ← FinalityTracker_mark_fast_finalized (pl_finality p) (mkBlockId slot (ffc_block_hash c));
        Pool_handle_finalization (set_finality t p) fe out
    | Cert_Final _ =>
        '(fe, t) ← FinalityTracker_mark_finalized (pl_finality p) slot;
        Pool_handle_finalization (set_finality t p) fe out
    end;
  mret (p, emit (PoolEv_CertCreated cert) out).

Definition Pool_slot_in_bounds (p : Pool) (slot : Z) : bool :=
  let far := u64_add (Pool_finalized_slot p) (2 * SLOTS_PER_EPOCH) in
  (Pool_first_unpruned_slot p <=? slot) && (slot <? far).

Definition cert_duplicate (ss : SlotState) (cert : Cert) : bool :=
  match cert with
  | Cert_Notar _ => bool_decide (is_Some (cs_notar (ss_certs ss)))
  | Cert_NotarFallback c => SlotState_is_notar_fallback ss (nfc_block_hash c)
  | Cert_Skip _ => bool_decide (is_Some (cs_skip (ss_certs ss)))
  | Cert_FastFinal _ => bool_decide (is_Some (cs_fast_finalize (ss_certs ss)))
  | Cert_Final _ => bool_decide (is_Some (cs_finalize (ss_certs ss)))
  end.

(** [add_cert] and [add_vote] return the result, the pool and the output. *)
Definition Pool_add_cert (p : Pool) (cert : Cert) (out : PoolOut) :
    Outcome (result () AddError * Pool * PoolOut) :=
  let slot := Cert_slot cert in
  if negb (Pool_slot_in_bounds p slot) then mret (Err SlotOutOfBounds, p, out)
  else if negb (Cert_check_threshold cert (pl_epoch_info p)) then mret (Err ThresholdNotMet, p, out)
  else
    sig_ok ← Cert_check_sig cert (ei_validators (pl_epoch_info p));
    if negb sig_ok then mret (Err InvalidSignature, p, out)
    else
      let ss := Pool_slot_state p slot in
      let p := Pool_put_slot p slot ss in
      if cert_duplicate ss cert then mret (Err Duplicate, p, out)
      else
        '(p, out) ← Pool_add_valid_cert p cert out;
        mret (Ok (), p, out).

Definition emit_slot_event (out : PoolOut) (ev : PoolEvent) : PoolOut :=
  match ev with
  | PoolEvent_SafeToNotar b => emit (PoolEv_SafeToNotar b) out
  | PoolEvent_SafeToSkip s => emit (PoolEv_SafeToSkip s) out
  end.

Section pool.
Context `{!IterOrder (list Z)}.

Definition Pool_add_vote (p : Pool) (vote : Vote) (out : PoolOut) :
    Outcome (result () AddError * Pool * PoolOut) :=
  let slot := Vote_slot vote in
  if negb (Pool_slot_in_bounds p slot) then mret (Err SlotOutOfBounds, p, out)
  else
    let signer := Vote_signer vote in
    if EpochInfo_validator_cnt (pl_epoch_info p) <=? signer then mret (Err UnknownSigner, p, out)
    else
      v ← EpochInfo_validator (pl_epoch_info p) signer;
      sig_ok ← Vote_check_sig vote (vi_voting_pubkey v);
      if negb sig_ok then mret (Err InvalidSignature, p, out)
      else
        let ss := Pool_slot_state p slot in
        let p := Pool_put_slot p slot ss in
        match SlotState_check_slashable_offence ss vote with
        | Some off => mret (Err (AddError_Slashable off), p, out)
        | None =>
            if SlotState_should_ignore_vote ss vote then mret (Err Duplicate, p, out)
            else
              '(ss, so) ← SlotState_add_vote ss vote (vi_stake v) (pl_epoch_info p) Outputs_default;
              let p := Pool_put_slot p slot ss in
              let p := if signer =? pl_own_id p then
                         let r := default Recorded_default (pl_recorded p !! slot) in
                         set_recorded (<[slot := mkRecorded (rc_notar r) (rc_skip r)
                                          (rc_fast_finalize r) (rc_finalize r) (rc_nf r)
                                          (rc_own r ++ [vote])]> (pl_recorded p)) p
                       else p in
              let out := foldl emit_slot_event out (out_events so) in
              let out := mkPoolOut (po_events out) (po_repairs out ++ out_repairs so) in
              '(p, out) ← for_each (λ '(p, out) cert, Pool_add_valid_cert p cert out) (p, out)
                            (out_certs so);
              mret (Ok (), p, out)
        end.
End pool.

Definition Pool_add_block (p : Pool) (block_id parent_id : BlockId) (out : PoolOut) :
    Outcome (Pool * PoolOut) :=
  _ ← rust_assert (bi_slot parent_id <? bi_slot block_id);
  '(fe, t) ← FinalityTracker_add_parent (pl_finality p) block_id parent_id;
  '(p, out) ← Pool_handle_finalization (set_finality t p) fe out;
  let p := Pool_put_slot p (bi_slot block_id)
             (SlotState_notify_parent_known (Pool_slot_state p (bi_slot block_id)) (bi_hash block_id)) in
  let parent_is_nf :=
    default false ((λ ps, SlotState_is_notar_fallback ps (bi_hash parent_id))
                   <$> pl_slot_states p !! bi_slot parent_id) in
  if parent_is_nf then notify_certified p block_id out
  else mret (set_s2n_waiting (<[parent_id := block_id]> (pl_s2n_waiting p)) p, out).

Definition recorded_certs (r : Recorded) : list Cert :=
  option_list (rc_finalize r) ++ option_list (rc_fast_finalize r) ++ option_list (rc_notar r)
  ++ rc_nf r ++ option_list (rc_skip r).

Definition Pool_recover_from_standstill `{!IterOrder Z} (p : Pool) (out : PoolOut) :
    Outcome (RecoveryBundle * PoolOut) :=
  let slot := Pool_finalized_slot p in
  let final_certs :=
    match pl_recorded p !! slot with
    | Some r =>
        match rc_fast_finalize r, rc_finalize r, rc_notar r with
        | Some c, _, _ => [c]
        | None, Some f, Some n => [f; n]
        | _, _, _ => []
        end
    | None => []
    end in
  _ ← rust_assert (negb (bool_decide (length final_certs = 0%nat)));
  let later := omap (λ s, if s <=? slot then None else pl_recorded p !! s)
                 (iter_order (dom (pl_recorded p) : gset Z)) in
  mret (mkBundle (u64_add slot 1) (final_certs ++ (later ≫= recorded_certs)) (later ≫= rc_own),
        emit (PoolEv_Standstill (u64_add slot 1) []) out).

(** ** What a slot reports is about that slot *)

Definition event_slot (e : PoolEvent) : Z :=
  match e with PoolEvent_SafeToNotar b => bi_slot b | PoolEvent_SafeToSkip s => s end.
Record about (slot : Z) (out : SlotStateOutputs) : Prop := {
  ab_certs : Forall (λ c, Cert_slot c = slot) (out_certs out);
  ab_events : Forall (λ e, event_slot e = slot) (out_events out);
}.

Lemma about_push_cert slot c out : about slot out → Cert_slot c = slot → about slot (push_cert c out).
Proof. intros [] ?. split; cbn; [|done]. apply Forall_app. by split; [|apply Forall_singleton]. Qed.
Lemma about_push_event slot e out : about slot out → event_slot e = slot → about slot (push_event e out).
Proof. intros [] ?. split; cbn; [done|]. apply Forall_app. by split; [|apply Forall_singleton]. Qed.
Lemma about_push_s2n r slot h out : about slot out → about slot (push_s2n r slot h out).
Proof. intros Ho. destruct r; cbn; [by apply about_push_event| |done]. by destruct Ho. Qed.
Lemma about_check_safe_to_skip s ei out :
  about (ss_slot s) out → about (ss_slot s) (check_safe_to_skip s ei out).2.
Proof. intros Ho. unfold check_safe_to_skip. case_match; [by apply about_push_event|done]. Qed.

Lemma core_slot s s' : core s' = core s → ss_slot s' = ss_slot s.
Proof. intros H. by apply core_fields in H as [? _]. Qed.

Lemma about_process_pending `{!IterOrder (list Z)} s ei out :
  about (ss_slot s) out → about (ss_slot s) (SlotState_process_pending_safe_to_notar s ei out).2.
Proof.
  unfold SlotState_process_pending_safe_to_notar. cbn zeta.
  generalize (filter (λ h, h ∉ ss_sent_s2n s) (iter_order (ss_pending_s2n s))). intros l. revert s out.
  induction l as [|h l IH]; intros s out Ho; [done|]. cbn [foldl]. case_bool_decide; [by apply IH|].
  pose proof (core_slot _ _ (check_safe_to_notar_core s h ei)) as Hs.
  destruct (SlotState_check_safe_to_notar s h ei) as [r s1]. cbn in Hs. rewrite <- Hs in Ho |- *.
  apply IH. by apply about_push_s2n.
Qed.

(** The votes on record are for this slot. *)
Definition votes_slot (s : SlotState) : Prop :=
  (∀ v vv, ss_votes s !! v = Some vv →
     (∀ n, vv_notar vv = Some n → nv_slot n = ss_slot s)
     ∧ (∀ n, vv_skip vv = Some n → sv_slot n = ss_slot s)
     ∧ (∀ n, vv_skip_fallback vv = Some n → sfv_slot n = ss_slot s)
     ∧ (∀ n, vv_finalize vv = Some n → fv_slot n = ss_slot s))
  ∧ (∀ k n, ss_nf_votes s !! k = Some n → nfv_slot n = ss_slot s).

Lemma votes_slot_fields s s' :
  ss_slot s' = ss_slot s → ss_votes s' = ss_votes s → ss_nf_votes s' = ss_nf_votes s →
  votes_slot s → votes_slot s'.
Proof. unfold votes_slot. by intros -> -> ->. Qed.

Lemma slot_wf_votes_slot ei s : slot_wf ei s → votes_slot s.
Proof.
  intros [Hv Hn _ _ _ _ _ _ _ _ _]. split.
  - intros v vv Hvv. apply Hv in Hvv as [(_ & H1 & H2 & H3 & H4) _].
    split_and!; intros n Hx; [by apply H1|by apply H2|by apply H3|by apply H4].
  - intros k n Hk. by apply Hn in Hk as (_ & _ & _ & ?).
Qed.

Lemma stored_vote {A} (f : ValidatorVotes → option A) (m : gmap Z ValidatorVotes) x :
  x ∈ omap f (map_to_list m).*2 → ∃ v vv, m !! v = Some vv ∧ f vv = Some x.
Proof.
  rewrite list_elem_of_omap. intros (vv & ([v vv'] & -> & Hin)%list_elem_of_fmap & Hf).
  exists v, vv'. split; [by apply elem_of_map_to_list|done].
Qed.

Section collected_slots.
Context (s : SlotState) (Hs : votes_slot s).

Lemma collect_notar_slots h n : n ∈ SlotState_collect_notar s h → nv_slot n = ss_slot s.
Proof using Hs.
  unfold SlotState_collect_notar, sort_by_signer. rewrite merge_sort_Permutation, list_elem_of_filter.
  intros [_ (v & vv & Hv & Hf)%stored_vote]. apply (proj1 Hs) in Hv as (H1 & _). by apply H1.
Qed.
Lemma collect_skip_slots n : n ∈ SlotState_collect_skip s → sv_slot n = ss_slot s.
Proof using Hs.
  unfold SlotState_collect_skip, sort_by_signer. rewrite merge_sort_Permutation.
  intros (v & vv & Hv & Hf)%stored_vote. apply (proj1 Hs) in Hv as (_ & H1 & _). by apply H1.
Qed.
Lemma collect_skip_fallback_slots n : n ∈ SlotState_collect_skip_fallback s → sfv_slot n = ss_slot s.
Proof using Hs.
  unfold SlotState_collect_skip_fallback, sort_by_signer. rewrite merge_sort_Permutation.
  intros (v & vv & Hv & Hf)%stored_vote. apply (proj1 Hs) in Hv as (_ & _ & H1 & _). by apply H1.
Qed.
Lemma collect_final_slots n : n ∈ SlotState_collect_final s → fv_slot n = ss_slot s.
Proof using Hs.
  unfold SlotState_collect_final, sort_by_signer. rewrite merge_sort_Permutation.
  intros (v & vv & Hv & Hf)%stored_vote. apply (proj1 Hs) in Hv as (_ & _ & _ & H1). by apply H1.
Qed.
Lemma collect_nf_slots h n : n ∈ SlotState_collect_nf s h → nfv_slot n = ss_slot s.
Proof using Hs.
  unfold SlotState_collect_nf, sort_by_signer. rewrite merge_sort_Permutation.
  intros ([k n'] & -> & [_ Hin]%list_elem_of_filter)%list_elem_of_fmap.
  apply (proj2 Hs k). by apply elem_of_map_to_list.
Qed.

(** A certificate carries the slot of one of its votes. *)
Lemma notar_cert_slot h vs c :
  NotarCert_try_new (SlotState_collect_notar s h) vs = Done (Ok c) → nc_slot c = ss_slot s.
Proof using Hs.
  unfold NotarCert_try_new. destruct (SlotState_collect_notar s h) as [|v l] eqn:E; [done|].
  intros ([st|e] & _ & Hc)%bind_Done; [|done]. apply bind_Done in Hc as (agg & _ & [= <-]). cbn.
  apply (collect_notar_slots h). rewrite E. by left.
Qed.
Lemma fast_final_cert_slot h vs c :
  FastFinalCert_try_new (SlotState_collect_notar s h) vs = Done (Ok c) → ffc_slot c = ss_slot s.
Proof using Hs.
  unfold FastFinalCert_try_new. intros ([n|e] & Hn & Hc)%bind_Done; [|done]. injection Hc as <-.
  by eapply notar_cert_slot.
Qed.
Lemma final_cert_slot vs c :
  FinalCert_try_new (SlotState_collect_final s) vs = Done (Ok c) → fc_slot c = ss_slot s.
Proof using Hs.
  unfold FinalCert_try_new. destruct (SlotState_collect_final s) as [|v l] eqn:E; [done|].
  intros ([st|e] & _ & Hc)%bind_Done; [|done]. apply bind_Done in Hc as (agg & _ & [= <-]). cbn.
  apply collect_final_slots. rewrite E. by left.
Qed.
Lemma nf_cert_slot h vs c :
  NotarFallbackCert_try_new (SlotState_collect_notar s h) (SlotState_collect_nf s h) vs = Done (Ok c) →
  nfc_slot c = ss_slot s.
Proof using Hs.
  unfold NotarFallbackCert_try_new. case_match eqn:Em; [|done]. destruct p as [slot bh].
  assert (slot = ss_slot s) as ->.
  { destruct (SlotState_collect_notar s h) as [|v l] eqn:E1;
      [destruct (SlotState_collect_nf s h) as [|v l] eqn:E2; [done|]|]; injection Em as <- <-;
      [apply (collect_nf_slots h); rewrite E2; by left|apply (collect_notar_slots h); rewrite E1; by left]. }
  intros ([st|e] & _ & Hc)%bind_Done; [|done]. apply bind_Done in Hc as ([st'|e] & _ & Hc); [|done].
  apply bind_Done in Hc as (? & _ & Hc). by apply bind_Done in Hc as (? & _ & [= <-]).
Qed.
Lemma skip_cert_slot vs c :
  SkipCert_try_new (SlotState_collect_skip s) (SlotState_collect_skip_fallback s) vs = Done (Ok c) →
  sc_slot c = ss_slot s.
Proof using Hs.
  unfold SkipCert_try_new. case_match eqn:Em; [|done].
  assert (z = ss_slot s) as ->.
  { destruct (SlotState_collect_skip s) as [|v l] eqn:E1;
      [destruct (SlotState_collect_skip_fallback s) as [|v l] eqn:E2; [done|]|]; injection Em as <-;
      [apply collect_skip_fallback_slots; rewrite E2; by left|apply collect_skip_slots; rewrite E1; by left]. }
  intros ([st|e] & _ & Hc)%bind_Done; [|done]. apply bind_Done in Hc as ([st'|e] & _ & Hc); [|done].
  apply bind_Done in Hc as (? & _ & Hc). by apply bind_Done in Hc as (? & _ & [= <-]).
Qed.
End collected_slots.

(** [if cond then push the certificate]. *)
Lemma about_cond_cert {A} slot (b : bool) (m : Outcome (result A CertError)) (mk : A → Cert) out out' :
  about slot out → (∀ c, m = Done (Ok c) → Cert_slot (mk c) = slot) →
  (if b then c ← expect m; mret (push_cert (mk c) out) else mret out) = Done out' → about slot out'.
Proof.
  intros Ho Hm. destruct b; [|by intros [= <-]]. intros (c & Hc%expect_Done & [= <-])%bind_Done.
  apply about_push_cert; [done|by apply Hm].
Qed.

Section add_vote_about.
Context `{!IterOrder (list Z)} (ei : EpochInfo).

Lemma about_push_nf_cert s h (b : bool) out out' :
  votes_slot s → about (ss_slot s) out →
  (if b then push_nf_cert s h ei out else mret out) = Done out' → about (ss_slot s) out'.
Proof.
  intros Hs Ho. apply (about_cond_cert (ss_slot s) b (NotarFallbackCert_try_new
    (SlotState_collect_notar s h) (SlotState_collect_nf s h) (ei_validators ei))); [done|].
  intros c. apply (nf_cert_slot s Hs h).
Qed.

Lemma about_count_notar s h stake out s' out' :
  votes_slot s → about (ss_slot s) out →
  SlotState_count_notar_stake s h stake ei out = Done (s', out') → about (ss_slot s) out'.
Proof.
  intros Hs Ho E.
  destruct (count_notar_stake_eq ei s h stake out) as (s3 & out3 & Hc & _ & Hoc & E3 & Hev).
  rewrite E3 in E. apply bind_Done in E as (out4 & Hcerts & [= <- <-]).
  pose proof (core_fields _ _ Hc) as (Hslot & Hvotes & _).
  assert (Hnf : ss_nf_votes s3 = ss_nf_votes s) by (unfold core in Hc; cbn in Hc; congruence).
  assert (Hs3 : votes_slot s3) by (by apply (votes_slot_fields s)).
  assert (Ho3 : about (ss_slot s3) out3).
  { rewrite Hslot. destruct Ho as [Hcs He]. split; [by rewrite Hoc|]. rewrite Forall_forall in He |- *.
    intros e [?|[-> | ->]]%Hev; [by apply He|done|done]. }
  unfold notar_certs in Hcerts. apply bind_Done in Hcerts as (o1 & H1 & Hcerts).
  apply bind_Done in Hcerts as (o2 & H2 & H3). change (ss_slot s) with (ss_slot (notar_counted s h stake)).
  rewrite <- Hslot. apply (about_push_nf_cert _ _ _ _ _ Hs3 Ho3) in H1.
  apply (about_cond_cert _ _ _ Cert_Notar _ _ H1 (notar_cert_slot s3 Hs3 h _)) in H2.
  by apply (about_cond_cert _ _ _ Cert_FastFinal _ _ H2 (fast_final_cert_slot s3 Hs3 h _)) in H3.
Qed.

Lemma about_count_nf s h stake out s' out' :
  votes_slot s → about (ss_slot s) out →
  SlotState_count_notar_fallback_stake s h stake ei out = Done (s', out') → about (ss_slot s) out'.
Proof.
  intros Hs Ho. unfold SlotState_count_notar_fallback_stake. cbn zeta. set (s1 := set_ss_nf_stake _ s).
  intros (o1 & H1 & [= <- <-])%bind_Done. by apply (about_push_nf_cert s1) in H1.
Qed.

Lemma about_count_skip s stake fb out s' out' :
  votes_slot s → about (ss_slot s) out →
  SlotState_count_skip_stake s stake fb ei out = Done (s', out') → about (ss_slot s) out'.
Proof.
  intros Hs Ho. unfold SlotState_count_skip_stake. set (s0 := if fb then _ else _).
  assert (Hs0 : ss_slot s0 = ss_slot s ∧ votes_slot s0) by (unfold s0; by destruct fb).
  destruct Hs0 as [E0 Hs0]. clearbody s0. rewrite <- E0 in Ho |- *.
  pose proof (process_pending_core s0 ei out) as (Hc & _). pose proof (about_process_pending s0 ei out Ho) as Ho1.
  destruct (SlotState_process_pending_safe_to_notar s0 ei out) as [s1 out1]. cbn in Hc, Ho1.
  pose proof (core_fields _ _ Hc) as (Hslot & Hvotes & _).
  assert (Hs1 : votes_slot s1).
  { apply (votes_slot_fields s0); [done|done| |done]. unfold core in Hc. cbn in Hc. congruence. }
  rewrite <- Hslot in Ho1 |- *. intros (o2 & H2 & E)%bind_Done. injection E as E.
  apply (about_cond_cert _ _ _ Cert_Skip _ _ Ho1 (skip_cert_slot s1 Hs1 _)) in H2.
  pose proof (about_check_safe_to_skip s1 ei o2 H2) as H3. by rewrite E in H3.
Qed.

Lemma about_count_finalize s stake out s' out' :
  votes_slot s → about (ss_slot s) out →
  SlotState_count_finalize_stake s stake ei out = Done (s', out') → about (ss_slot s) out'.
Proof.
  intros Hs Ho. unfold SlotState_count_finalize_stake. cbn zeta. set (s1 := set_ss_finalize_stake _ s).
  intros (o1 & H1 & [= <- <-])%bind_Done.
  by apply (about_cond_cert _ _ _ Cert_Final _ _ Ho (final_cert_slot s1 Hs _)) in H1.
Qed.

Lemma update_vv_slot s v f :
  votes_slot s →
  (∀ vv, (∀ n, vv_notar (f vv) = Some n → vv_notar vv = Some n ∨ nv_slot n = ss_slot s)
    ∧ (∀ n, vv_skip (f vv) = Some n → vv_skip vv = Some n ∨ sv_slot n = ss_slot s)
    ∧ (∀ n, vv_skip_fallback (f vv) = Some n → vv_skip_fallback vv = Some n ∨ sfv_slot n = ss_slot s)
    ∧ (∀ n, vv_finalize (f vv) = Some n → vv_finalize vv = Some n ∨ fv_slot n = ss_slot s)) →
  votes_slot (update_vv v f s).
Proof.
  intros [Hv Hn] Hf. split; [|done]. intros w vv. cbn. rewrite lookup_insert_Some.
  intros [[<- <-]|[_ Hw]]; [|by eapply Hv].
  set (vv0 := default ValidatorVotes_default (ss_votes s !! v)).
  assert (H0 : (∀ n, vv_notar vv0 = Some n → nv_slot n = ss_slot s)
     ∧ (∀ n, vv_skip vv0 = Some n → sv_slot n = ss_slot s)
     ∧ (∀ n, vv_skip_fallback vv0 = Some n → sfv_slot n = ss_slot s)
     ∧ (∀ n, vv_finalize vv0 = Some n → fv_slot n = ss_slot s)).
  { unfold vv0. destruct (ss_votes s !! v) eqn:E; [by eapply Hv|]. cbn. split_and!; done. }
  destruct H0 as (A1 & A2 & A3 & A4), (Hf vv0) as (B1 & B2 & B3 & B4).
  split_and!; intros n Hx; [destruct (B1 n Hx)|destruct (B2 n Hx)|destruct (B3 n Hx)|destruct (B4 n Hx)]; auto.
Qed.

(** Everything [add_vote] reports is about the slot. *)
Lemma add_vote_about s vote stake s' out' :
  votes_slot s → Vote_slot vote = ss_slot s →
  SlotState_add_vote s vote stake ei Outputs_default = Done (s', out') → about (ss_slot s) out'.
Proof.
  intros Hs Hv Hadd. pose proof (core_slot _ _ (add_vote_core ei s vote stake _ _ _ Hadd)) as Hs'.
  assert (Hc : ss_slot (counted s vote stake) = ss_slot s) by (by destruct vote). rewrite Hc in Hs'.
  unfold SlotState_add_vote in Hadd. apply bind_Done in Hadd as ([s1 out1] & E & Hfin).
  injection Hfin as Hfin. cbn [fst snd] in Hfin.
  assert (H0 : about (ss_slot s) Outputs_default) by (split; constructor).
  assert (H1 : about (ss_slot s) out1).
  { destruct vote as [n|n|n|n|n]; cbn in Hv.
    - apply bind_Done in E as ([s2 out2] & E & [= <- <-]). by eapply about_count_notar.
    - apply bind_Done in E as ([s2 out2] & E & [= <- <-]). by eapply about_count_nf.
    - eapply about_count_skip in E; [exact E| |exact H0].
      apply (update_vv_slot s (sv_signer n)); [done|]. intros vv; cbn. naive_solver.
    - eapply about_count_skip in E; [exact E| |exact H0].
      apply update_vv_slot; [done|]. intros vv; cbn. naive_solver.
    - eapply about_count_finalize in E; [exact E| |exact H0].
      apply update_vv_slot; [done|]. intros vv; cbn. naive_solver. }
  destruct (_ =? _); [|by injection Hfin as <- <-].
  pose proof (process_pending_core s1 ei out1) as (Hcore%core_slot & _). rewrite Hfin in Hcore. cbn in Hcore.
  rewrite <- Hs', Hcore in H1 |- *.
  pose proof (about_process_pending s1 ei out1 H1) as H2. by rewrite Hfin in H2.
Qed.
End add_vote_about.

(** ** The invariant of the pool *)

Section pool_invariant.
Context `{!IterOrder (list Z)} (ei : EpochInfo) (own : Z).

(** A slot state that is reached from the initial one of its slot. *)
Definition slot_good (s : Z) (st : SlotState) : Prop :=
  ss_slot st = s ∧ rtc (slot_step ei) (SlotState_new s own) st.

Record pool_inv (p : Pool) : Prop := {
  pi_epoch : pl_epoch_info p = ei;
  pi_own : pl_own_id p = own;
  pi_fin : ft_ok (pl_finality p);
  pi_prt : prt_inv (pl_parent_ready p);
  pi_root : prt_root (pl_parent_ready p) = Pool_first_unpruned_slot p;
  pi_slots : ∀ s st, pl_slot_states p !! s = Some st → in_range s ∧ slot_good s st;
  pi_waiting : ∀ b c, pl_s2n_waiting p !! b = Some c → in_range (bi_slot c);
}.
Definition out_ok (out : PoolOut) : Prop := Forall (λ e, event_ok (EvPool e)) (po_events out).
Definition pool_good (p : Pool) (out : PoolOut) : Prop := pool_inv p ∧ out_ok out.

Lemma emit_ok e out : out_ok out → event_ok (EvPool e) → out_ok (emit e out).
Proof. intros Ho He. apply Forall_app. by split; [|apply Forall_singleton]. Qed.
Lemma in_range_u64 s : in_range s → is_u64 s.
Proof. unfold in_range, is_u64. lia. Qed.

Lemma put_slot_inv p s st : pool_inv p → in_range s → slot_good s st → pool_inv (Pool_put_slot p s st).
Proof.
  intros [] Hs Hst. split; try done. cbn. intros x st'. rewrite lookup_insert_Some.
  intros [[<- <-]|[_ ?]]; eauto.
Qed.
Lemma slot_state_good p s : pool_inv p → slot_good s (Pool_slot_state p s).
Proof.
  intros Hp. unfold Pool_slot_state. destruct (pl_slot_states p !! s) as [st|] eqn:E; cbn.
  - by apply (pi_slots p Hp) in E as [_ ?].
  - rewrite (pi_own p Hp). by split; [|apply rtc_refl].
Qed.
Lemma slot_good_step s st st' : slot_good s st → slot_step ei st st' → ss_slot st' = ss_slot st → slot_good s st'.
Proof. intros [Hs Hr] Hst Heq. split; [congruence|]. by eapply rtc_r. Qed.

Lemma set_recorded_inv p m : pool_inv p → pool_inv (set_recorded m p).
Proof. by intros []. Qed.
Lemma record_cert_inv p s c : pool_inv p → pool_inv (Pool_record_cert p s c).
Proof. by intros []. Qed.

Lemma add_cert_good p s c : pool_inv p → slot_good s (SlotState_add_cert (Pool_slot_state p s) c).
Proof.
  intros Hp. eapply slot_good_step; [by apply slot_state_good|apply step_add_cert|].
  apply core_slot, add_cert_core.
Qed.

(** *** Parents that became ready *)

Lemma ready_event_ok t s b : prt_inv t → b ∈ ready t s → event_ok (EvPool (PoolEv_ParentReady s b)).
Proof. intros Ht (Hst & _)%(inv_sound t Ht). done. Qed.

Lemma emit_ready_ok t t' nfs sks prs out :
  prt_inv t' → marked t t' nfs sks prs → out_ok out → out_ok (emit_ready prs out).
Proof.
  intros Ht Hm. pose proof (mk_reports _ _ _ _ _ Hm) as Hrep.
  assert (Hall : Forall (λ pr, event_ok (EvPool (PoolEv_ParentReady (pr_slot pr) (pr_parent pr)))) prs).
  { apply Forall_forall. intros [s b] Hin. eapply (ready_event_ok t'); [done|]. apply Hrep. by right. }
  clear Hrep Hm. revert out. induction Hall as [|pr prs Hpr _ IH]; intros out Ho; [done|].
  apply IH. by apply emit_ok.
Qed.

Lemma set_parent_ready_inv p t :
  pool_inv p → prt_inv t → prt_root t = prt_root (pl_parent_ready p) → pool_inv (set_parent_ready t p).
Proof. intros [] Ht Hr. split; try done. cbn. rewrite Hr. done. Qed.

Lemma mark_notar_good p b :
  pool_inv p → in_range (bi_slot b) →
  ∃ prs t, ParentReadyTracker_mark_notar_fallback (pl_parent_ready p) b = Done (prs, t)
    ∧ ∀ out, out_ok out → pool_good (set_parent_ready t p) (emit_ready prs out).
Proof.
  intros Hp Hb. destruct (mark_notar_fallback_spec _ b (pi_prt p Hp) Hb) as (prs & t & E & Ht & Hm).
  exists prs, t. split; [done|]. intros out Ho. split; [|by eapply emit_ready_ok].
  apply set_parent_ready_inv; [done..|apply Hm].
Qed.
Lemma mark_skipped_good p s :
  pool_inv p → in_range s →
  ∃ prs t, ParentReadyTracker_mark_skipped (pl_parent_ready p) s = Done (prs, t)
    ∧ ∀ out, out_ok out → pool_good (set_parent_ready t p) (emit_ready prs out).
Proof.
  intros Hp Hs. destruct (mark_skipped_spec _ s (pi_prt p Hp) Hs) as (prs & t & E & Ht & Hm).
  exists prs, t. split; [done|]. intros out Ho. split; [|by eapply emit_ready_ok].
  apply set_parent_ready_inv; [done..|apply Hm].
Qed.

(** *** Finalization *)

Lemma handle_finalization_good p t fe out :
  pool_inv p → out_ok out → ft_moved (pl_finality p) t fe →
  ∃ p' out', Pool_handle_finalization (set_finality t p) fe out = Done (p', out') ∧ pool_good p' out'.
Proof.
  intros Hp Ho (Ht & [Heb Hes] & Hle). unfold Pool_handle_finalization.
  destruct (handle_finalization_spec (pl_parent_ready p) (fe_finalized fe) (fe_implicitly_finalized fe)
    (fe_implicitly_skipped fe) (pi_prt p Hp) Heb Hes) as (prs & t1 & E & Ht1 & Hm).
  cbn [set_finality pl_parent_ready]. rewrite E, Done_bind. eexists _, _. split; [done|].
  destruct (prune_spec t1 (ft_first_unpruned_slot t) Ht1) as [Hpr Hroot].
  { rewrite (mk_root _ _ _ _ _ Hm), (pi_root p Hp). done. }
  split.
  - destruct Hp. split; try done. cbn. intros s st [Hs _]%map_lookup_filter_Some. eauto.
  - pose proof (consider_spec prs None) as Hc. destruct (consider None prs) as [[s b]|]; cbn; [|done].
    destruct Hc as ([?|Hin] & _); [done|]. apply emit_ok; [done|]. eapply (ready_event_ok t1); [done|].
    apply (mk_reports _ _ _ _ _ Hm). by right.
Qed.

Lemma notify_parent_slot s h r s' :
  SlotState_notify_parent_certified s h ei = Done (r, s') →
  ss_slot s' = ss_slot s ∧ ∀ e, r = NotifyParent_Event e → event_slot e = ss_slot s.
Proof.
  unfold SlotState_notify_parent_certified. intros (_ & _ & E)%bind_Done.
  set (s1 := set_ss_parents _ s) in E. case_bool_decide; [by injection E as <- <-|].
  pose proof (core_slot _ _ (check_safe_to_notar_core s1 h ei)) as Hs.
  destruct (SlotState_check_safe_to_notar s1 h ei) as [[] s2]; injection E as <- <-; cbn in Hs;
    (split; [done|]); [|done|done]. by intros e [= <-].
Qed.

Lemma notify_certified_good p c out p' out' :
  pool_inv p → out_ok out → in_range (bi_slot c) → notify_certified p c out = Done (p', out') →
  pool_good p' out'.
Proof.
  intros Hp Ho Hc. unfold notify_certified. intros ([r st] & E & [= <- <-])%bind_Done.
  pose proof (slot_state_good p (bi_slot c) Hp) as Hg. rewrite (pi_epoch p Hp) in E.
  destruct (notify_parent_slot _ _ _ _ E) as [Hst Hr]. split.
  - apply put_slot_inv; [done..|]. eapply slot_good_step; [done|by eapply step_parent_certified|done].
  - destruct r as [|e|b]; cbn; [done| |done]. specialize (Hr e eq_refl).
    rewrite (proj1 Hg) in Hr. apply in_range_u64 in Hc.
    destruct e as [b|s]; cbn in Hr; apply emit_ok; try done; cbn; by rewrite Hr.
Qed.

Lemma add_notar_cert_good p b (is_notar : bool) out p' out' :
  pool_inv p → out_ok out → in_range (bi_slot b) →
  add_notar_cert p b is_notar out = Done (p', out') → pool_good p' out'.
Proof.
  intros Hp Ho Hb. unfold add_notar_cert. intros ([p1 out1] & E1 & E)%bind_Done.
  assert (pool_good p1 out1) as [Hp1 Ho1].
  { destruct is_notar; [|by injection E1 as <- <-]. apply bind_Done in E1 as ([fe t] & Ef & E1).
    apply (ft_run_ok _ (FtNotarized b)) in Ef; [|apply Hp|done].
    destruct (handle_finalization_good p t fe out Hp Ho Ef) as (p2 & out2 & E2 & Hg).
    rewrite E2 in E1. by injection E1 as <- <-. }
  clear E1. apply bind_Done in E as ([p2 out2] & E2 & E).
  assert (pool_good p2 out2) as [Hp2 Ho2].
  { destruct (pl_s2n_waiting p1 !! b) as [c|] eqn:Ew; [|by injection E2 as <- <-].
    eapply notify_certified_good; [|exact Ho1|by eapply (pi_waiting p1 Hp1)|exact E2].
    destruct Hp1. split; try done. cbn. intros b' c' [_ ?]%lookup_delete_Some. eauto. }
  destruct (mark_notar_good p2 b Hp2 Hb) as (prs & t & E3 & Hg). rewrite E3 in E.
  injection E as <- <-. destruct (Hg out2 Ho2) as [? ?]. by split.
Qed.

Lemma finality_good p op out t fe p' out' :
  pool_inv p → out_ok out → op_range op → ft_run (pl_finality p) op = Done (fe, t) →
  Pool_handle_finalization (set_finality t p) fe out = Done (p', out') → pool_good p' out'.
Proof.
  intros Hp Ho Hop Ef E. apply ft_run_ok in Ef; [|apply Hp|done].
  destruct (handle_finalization_good p t fe out Hp Ho Ef) as (p2 & out2 & E2 & Hg).
  rewrite E2 in E. by injection E as <- <-.
Qed.

Lemma add_valid_cert_good p c out p' out' :
  pool_inv p → out_ok out → in_range (Cert_slot c) →
  Pool_add_valid_cert p c out = Done (p', out') → pool_good p' out'.
Proof.
  intros Hp Ho Hc. unfold Pool_add_valid_cert. cbn zeta.
  set (p1 := Pool_record_cert _ _ _).
  assert (Hp1 : pool_inv p1).
  { apply record_cert_inv, put_slot_inv; [done..|]. by apply add_cert_good. }
  intros ([p2 out2] & E & [= <- <-])%bind_Done.
  assert (pool_good p2 out2) as [Hp2 Ho2]; [|split; [done|by apply emit_ok]].
  destruct c as [c|c|c|c|c].
  - by eapply add_notar_cert_good in E.
  - by eapply add_notar_cert_good in E.
  - destruct (mark_skipped_good p1 (Cert_slot (Cert_Skip c)) Hp1 Hc) as (prs & t & E1 & Hg).
    rewrite E1 in E. injection E as <- <-. by apply Hg.
  - apply bind_Done in E as ([fe t] & Ef & E).
    by eapply (finality_good p1 (FtFastFinalized (mkBlockId (Cert_slot (Cert_FastFinal c)) (ffc_block_hash c)))).
  - apply bind_Done in E as ([fe t] & Ef & E).
    by eapply (finality_good p1 (FtFinalized (Cert_slot (Cert_Final c)))).
Qed.

Lemma add_valid_certs_good certs : ∀ p out p' out',
  pool_inv p → out_ok out → Forall (λ c, in_range (Cert_slot c)) certs →
  for_each (λ '(p, out) cert, Pool_add_valid_cert p cert out) (p, out) certs = Done (p', out') →
  pool_good p' out'.
Proof.
  induction certs as [|c certs IH]; intros p out p' out' Hp Ho Hc; cbn [for_each].
  { by intros [= <- <-]. }
  apply Forall_cons in Hc as [Hc Hcs]. intros ([p1 out1] & E1 & E)%bind_Done.
  destruct (add_valid_cert_good p c out p1 out1 Hp Ho Hc E1) as [? ?]. by eapply IH.
Qed.

(** *** Calls *)

Lemma in_bounds_range p s : pool_inv p → Pool_slot_in_bounds p s = true → in_range s.
Proof.
  intros Hp. unfold Pool_slot_in_bounds, u64_add. rewrite andb_true_iff, Z.leb_le, Z.ltb_lt.
  pose proof (fo_first _ (pi_fin p Hp)) as [H0 _]. fold (Pool_first_unpruned_slot p) in H0.
  pose proof (Z.mod_pos_bound (Pool_finalized_slot p + 2 * SLOTS_PER_EPOCH) (2 ^ 64)) as H1.
  unfold in_range, u64_max, wrap64. lia.
Qed.

Lemma add_cert_call_good p c out r p' out' :
  pool_inv p → out_ok out → Pool_add_cert p c out = Done (r, p', out') → pool_good p' out'.
Proof.
  intros Hp Ho. unfold Pool_add_cert. destruct (Pool_slot_in_bounds p (Cert_slot c)) eqn:Eb; cbn [negb].
  2:{ by intros [= <- <- <-]. }
  pose proof (in_bounds_range p _ Hp Eb) as Hs.
  destruct (Cert_check_threshold c _); cbn [negb]; [|by intros [= <- <- <-]].
  intros ([] & _ & E)%bind_Done; cbn [negb] in E; [|by injection E as <- <- <-].
  assert (Hp1 : pool_inv (Pool_put_slot p (Cert_slot c) (Pool_slot_state p (Cert_slot c)))).
  { apply put_slot_inv; [done..|]. by apply slot_state_good. }
  case_match; [by injection E as <- <- <-|]. apply bind_Done in E as ([p1 out1] & E & [= <- <- <-]).
  by eapply add_valid_cert_good in E.
Qed.

Lemma slot_events_ok s evs : ∀ out,
  in_range s → out_ok out → Forall (λ e, event_slot e = s) evs → out_ok (foldl emit_slot_event out evs).
Proof.
  intros out Hs%in_range_u64 Ho Hev. revert out Ho.
  induction Hev as [|e evs He _ IH]; intros out Ho; [done|]. cbn. apply IH.
  destruct e as [b|x]; cbn in He |- *; (apply emit_ok; [done|]); cbn; by rewrite He.
Qed.

Lemma add_vote_call_good p vote out r p' out' :
  epoch_wf ei → pool_inv p → out_ok out → 0 <= Vote_signer vote →
  Pool_add_vote p vote out = Done (r, p', out') → pool_good p' out'.
Proof.
  intros Hei Hp Ho Hsg. unfold Pool_add_vote. cbn zeta.
  destruct (Pool_slot_in_bounds p (Vote_slot vote)) eqn:Eb; cbn [negb]; [|by intros [= <- <- <-]].
  pose proof (in_bounds_range p _ Hp Eb) as Hs. rewrite (pi_epoch p Hp).
  destruct (Z.leb_spec (EpochInfo_validator_cnt ei) (Vote_signer vote)); [by intros [= <- <- <-]|].
  intros (v & Ev & E)%bind_Done. apply bind_Done in E as ([] & _ & E); cbn [negb] in E;
    [|by injection E as <- <- <-].
  pose proof (slot_state_good p (Vote_slot vote) Hp) as Hg.
  set (ss := Pool_slot_state p (Vote_slot vote)) in *.
  assert (Hp1 : pool_inv (Pool_put_slot p (Vote_slot vote) ss)) by by apply put_slot_inv.
  destruct (SlotState_check_slashable_offence ss vote) eqn:Esl; [by injection E as <- <- <-|].
  destruct (SlotState_should_ignore_vote ss vote) eqn:Eig; [by injection E as <- <- <-|].
  assert (Hacc : acceptable ei ss vote (vi_stake v)).
  { split; [by rewrite (proj1 Hg)|by split| |done|done]. exists v. split; [|done].
    unfold EpochInfo_validator in Ev. case_match; [by injection Ev as <-|done]. }
  apply bind_Done in E as ([ss' so] & Ea & E). rewrite (pi_epoch _ Hp1) in Ea.
  pose proof (slot_reachable_wf ei _ ss Hei (slot_new_wf ei _ _) (proj2 Hg)) as Hwf.
  pose proof (add_vote_about ei ss vote _ _ _ (slot_wf_votes_slot ei ss Hwf) (acc_slot _ _ _ _ Hacc) Ea)
    as [Hc He]. rewrite (proj1 Hg) in Hc, He.
  apply bind_Done in E as ([p2 out2] & E & [= <- <- <-]).
  eapply add_valid_certs_good in E; [exact E|..].
  - assert (Hp3 : pool_inv (Pool_put_slot (Pool_put_slot p (Vote_slot vote) ss) (Vote_slot vote) ss')).
    { apply put_slot_inv; [done..|]. eapply slot_good_step; [done|by eapply step_add_vote|].
      rewrite (core_slot _ _ (add_vote_core ei _ _ _ _ _ _ Ea)). by destruct vote. }
    case_match; [by apply set_recorded_inv|done].
  - by eapply slot_events_ok.
  - eapply Forall_impl; [exact Hc|]. by intros c ->.
Qed.

Lemma add_block_call_good p b parent out p' out' :
  pool_inv p → out_ok out → in_range (bi_slot b) → 0 <= bi_slot parent →
  Pool_add_block p b parent out = Done (p', out') → pool_good p' out'.
Proof.
  intros Hp Ho Hb Hpar. unfold Pool_add_block. intros (_ & _ & E)%bind_Done.
  apply bind_Done in E as ([fe t] & Ef & E). apply bind_Done in E as ([p1 out1] & E1 & E).
  destruct (finality_good p (FtParent b parent) out t fe p1 out1 Hp Ho (conj Hb Hpar) Ef E1) as [Hp1 Ho1].
  set (p2 := Pool_put_slot p1 _ _) in E.
  assert (Hp2 : pool_inv p2).
  { apply put_slot_inv; [done..|]. eapply slot_good_step; [by apply slot_state_good|apply step_parent_known|].
    unfold SlotState_notify_parent_known. by destruct (ss_parents _ !! _). }
  case_match; [by eapply notify_certified_good|]. injection E as <- <-. split; [|done].
  destruct Hp2. split; try done. cbn. intros b' c'. rewrite lookup_insert_Some. intros [[_ <-]|[_ ?]]; eauto.
Qed.

Lemma pool_new_inv : pool_inv (Pool_new own ei).
Proof. split; try done; [apply default_ft_ok|apply default_inv]. Qed.
End pool_invariant.

(** ** Runs *)

Inductive pool_op :=
| PoolVote (vote : Vote) | PoolCert (cert : Cert) | PoolBlock (block parent : BlockId) | PoolStandstill.

Definition pool_call `{!IterOrder (list Z)} `{!IterOrder Z} (p : Pool) (op : pool_op) :
    Outcome (Pool * PoolOut) :=
  match op with
  | PoolVote v => '(_, p, out) ← Pool_add_vote p v PoolOut_default; mret (p, out)
  | PoolCert c => '(_, p, out) ← Pool_add_cert p c PoolOut_default; mret (p, out)
  | PoolBlock b parent => Pool_add_block p b parent PoolOut_default
  | PoolStandstill => '(_, out) ← Pool_recover_from_standstill p PoolOut_default; mret (p, out)
  end.
Definition pool_step `{!IterOrder (list Z)} `{!IterOrder Z} (r : Pool * list VotorPoolEvent) (op : pool_op) :
    Outcome (Pool * list VotorPoolEvent) :=
  '(p, out) ← pool_call r.1 op; mret (p, r.2 ++ po_events out).

(** Signers and slots are unsigned; a block's slot has a successor. *)
Definition pool_op_ok (op : pool_op) : Prop :=
  match op with
  | PoolVote v => 0 <= Vote_signer v
  | PoolBlock b parent => in_range (bi_slot b) ∧ 0 <= bi_slot parent
  | PoolCert _ | PoolStandstill => True
  end.

Section runs.
Context `{!IterOrder (list Z)} `{!IterOrder Z} (ei : EpochInfo) (own : Z) (Hei : epoch_wf ei).

Lemma pool_call_good p op p' out :
  pool_inv ei own p → pool_op_ok op → pool_call p op = Done (p', out) → pool_good ei own p' out.
Proof using Hei.
  intros Hp Hop. assert (Ho : out_ok PoolOut_default) by constructor.
  destruct op as [v|c|b parent|]; cbn [pool_call].
  - intros ([[r p1] out1] & E & [= <- <-])%bind_Done. by eapply add_vote_call_good in E.
  - intros ([[r p1] out1] & E & [= <- <-])%bind_Done. by eapply add_cert_call_good in E.
  - destruct Hop. by apply add_block_call_good.
  - intros ([r out1] & E & [= <- <-])%bind_Done. split; [done|]. unfold Pool_recover_from_standstill in E.
    apply bind_Done in E as (_ & _ & [= _ <-]). by apply emit_ok.
Qed.

Lemma pool_run_good ops : ∀ p evs p' evs',
  pool_inv ei own p → Forall (λ e, event_ok (EvPool e)) evs → Forall pool_op_ok ops →
  for_each pool_step (p, evs) ops = Done (p', evs') →
  pool_inv ei own p' ∧ Forall (λ e, event_ok (EvPool e)) evs'.
Proof using Hei.
  induction ops as [|op ops IH]; intros p evs p' evs' Hp Hevs Hops; cbn [for_each].
  { by intros [= <- <-]. }
  apply Forall_cons in Hops as [Hop Hops]. intros ([p1 evs1] & E1 & E)%bind_Done.
  apply bind_Done in E1 as ([p2 out] & E1 & [= <- <-]).
  destruct (pool_call_good p op p2 out Hp Hop E1) as [Hp2 Ho].
  eapply IH; [exact Hp2| |done|exact E]. cbn. by apply Forall_app.
Qed.

(** C1. The pool drives the voting engine safely.  After any run of votes,
    certificates, blocks and standstills on a fresh pool that returns, every slot
    state satisfies the stake accounting invariant, every parent the pool reports as
    ready is valid for a window start, and the events it emitted can be delivered to
    the voting engine in any order, any number of times and interleaved with any
    blockstore events and timeouts: the engine does not panic and casts only
    admissible votes. *)
Theorem pool_events_drive_votor ops p evs sk :
  Forall pool_op_ok ops → for_each pool_step (Pool_new own ei, []) ops = Done (p, evs) →
  (∀ s st, pl_slot_states p !! s = Some st → slot_wf ei st)
  ∧ (∀ s b, b ∈ Pool_parents_ready p s → valid_parent (pl_parent_ready p) s b)
  ∧ ∀ events,
      Forall (λ e, match e with EvPool e => e ∈ evs | _ => event_ok e end) events →
      ∃ v0 out0 v B, Votor_new own sk = Done (v0, out0)
        ∧ for_each votor_step (v0, []) events = Done (v, B) ∧ well_cast events B.
Proof using Hei.
  intros Hops E. destruct (pool_run_good ops (Pool_new own ei) [] p evs) as [Hp Hevs]; try done.
  { apply pool_new_inv. }
  split_and!.
  - intros s st Hs. apply (pi_slots _ _ p Hp) in Hs as [_ [_ Hr]].
    eapply slot_reachable_wf; [done|apply slot_new_wf|exact Hr].
  - intros s b. unfold Pool_parents_ready. rewrite parents_ready_view. apply (pi_prt _ _ p Hp).
  - intros events Hev. destruct (votor_new_spec own sk) as (v0 & out0 & E0 & _ & Hv0).
    destruct (votor_run_spec events [] [] v0 Hv0) as (v & B & E1 & Hv); [|exists v0, out0, v, B; split_and!; [done|done|apply Hv]].
    eapply Forall_impl; [exact Hev|]. intros [e|e|e]; [|done|done]. intros Hin.
    rewrite Forall_forall in Hevs. by apply Hevs.
Qed.
End runs.

(** *** Rejected inputs *)

(** The pool is the same, up to slot states that were created empty. *)
Definition same_pool (p p' : Pool) : Prop :=
  (∀ s, Pool_slot_state p' s = Pool_slot_state p s)
  ∧ pl_epoch_info p' = pl_epoch_info p ∧ pl_own_id p' = pl_own_id p ∧ pl_recorded p' = pl_recorded p
  ∧ pl_s2n_waiting p' = pl_s2n_waiting p ∧ pl_finality p' = pl_finality p
  ∧ pl_parent_ready p' = pl_parent_ready p.

Lemma same_pool_put p s : same_pool p (Pool_put_slot p s (Pool_slot_state p s)).
Proof.
  split_and!; try done. intros x. unfold Pool_slot_state at 1. cbn.
  destruct (decide (x = s)) as [->|]; [by rewrite lookup_insert_eq|by rewrite lookup_insert_ne].
Qed.

(** C38. A rejected vote or certificate leaves no trace.  Whatever the reason for the
    rejection (out of bounds, unknown signer, bad signature, duplicate, slashable,
    threshold not met), nothing is emitted, no stake is counted, and no tracker,
    record or slot state changes. *)
Theorem rejection_is_pure `{!IterOrder (list Z)} p vote cert out e p' out' :
  Pool_add_vote p vote out = Done (Err e, p', out') ∨ Pool_add_cert p cert out = Done (Err e, p', out') →
  same_pool p p' ∧ out' = out.
Proof.
  intros [E|E].
  - unfold Pool_add_vote in E. cbn zeta in E.
    case_match; [by injection E as _ <- <-|]. case_match; [by injection E as _ <- <-|].
    apply bind_Done in E as (v & _ & E). apply bind_Done in E as (ok & _ & E).
    case_match; [by injection E as _ <- <-|].
    destruct (SlotState_check_slashable_offence _ _); [injection E as _ <- <-; split; [apply same_pool_put|done]|].
    destruct (SlotState_should_ignore_vote _ _); [injection E as _ <- <-; split; [apply same_pool_put|done]|].
    apply bind_Done in E as ([ss so] & _ & E). by apply bind_Done in E as ([p1 o1] & _ & E).
  - unfold Pool_add_cert in E. case_match; [by injection E as _ <- <-|].
    case_match; [by injection E as _ <- <-|]. apply bind_Done in E as (ok & _ & E).
    case_match; [by injection E as _ <- <-|]. cbn zeta in E.
    destruct (cert_duplicate _ _); [injection E as _ <- <-; split; [apply same_pool_put|done]|].
    by apply bind_Done in E as ([p1 o1] & _ & E).
Qed.

(** *** Witnesses and a crash *)

(** One validator with all the stake; its votes alone make certificates. *)
Definition solo_validators : list ValidatorInfo := [mkValidatorInfo 0 10 [] []].
Definition solo_epoch : EpochInfo := mkEpochInfo solo_validators 10.
Definition solo_notar (b : BlockId) : Outcome Cert :=
  v ← NotarVote_new (bi_slot b) (bi_hash b) [1] 0;
  c ← expect (NotarCert_try_new [v] solo_validators); mret (Cert_Notar c).
Definition solo_fast_final (b : BlockId) : Outcome Cert :=
  v ← NotarVote_new (bi_slot b) (bi_hash b) [1] 0;
  c ← expect (FastFinalCert_try_new [v] solo_validators); mret (Cert_FastFinal c).
Definition solo_final (slot : Z) : Outcome Cert :=
  v ← FinalVote_new slot [1] 0; c ← expect (FinalCert_try_new [v] solo_validators); mret (Cert_Final c).
#[local] Instance hash_order : IterOrder (list Z) := elements_order (list Z).
#[local] Instance slot_order : IterOrder Z := elements_order Z.

(** Valid certificates in an unlucky order crash the pool.  Block 4 and the orphan
    block 3 both have parent 2.  Block 4 is fast-finalized, which finalizes block 2
    implicitly and skips slot 3; the slot finalization of block 2 sets its status back
    to pending; then the block 2 itself arrives, and last its notarization, which prunes
    every slot below 4.  The pool still has block 3 waiting for the certificate of its
    parent, creates an empty slot state for it and fails the assertion that its parent
    is known.  All the calls before the last one succeed. *)
Theorem valid_certs_crash_pool :
  let b2 := mkBlockId 2 [2] in
  let b3 := mkBlockId 3 [3] in
  let b4 := mkBlockId 4 [4] in
  let before := λ ff4 fin2, [PoolBlock b4 b2; PoolBlock b3 b2; PoolCert ff4; PoolCert fin2;
                             PoolBlock b2 (BlockId_genesis 0)] in
  (ff4 ← solo_fast_final b4; fin2 ← solo_final 2;
   r ← for_each pool_step (Pool_new 0 solo_epoch, []) (before ff4 fin2);
   mret (Pool_finalized_slot r.1, Pool_first_unpruned_slot r.1)) = Done (4, 0)
  ∧ (n2 ← solo_notar b2;
     mret (Cert_check_threshold n2 solo_epoch, Cert_check_sig n2 solo_validators)) = Done (true, Done true)
  ∧ (ff4 ← solo_fast_final b4; fin2 ← solo_final 2; n2 ← solo_notar b2;
     r ← for_each pool_step (Pool_new 0 solo_epoch, []) (before ff4 fin2 ++ [PoolCert n2]);
     mret ()) = Panicked.
Proof. split_and!; vm_compute; reflexivity. Qed.

Lemma solo_wf : epoch_wf solo_epoch.
Proof.
  split; [|repeat constructor; discriminate|reflexivity|discriminate|cbn; lia].
  intros [|i] v; cbn; [by intros [= <-]|]. done.
Qed.

(** A notarization certificate for block 3 makes it ready for slot 4. *)
Definition solo_ops : list pool_op :=
  match solo_notar (mkBlockId 3 [3]) with Done c => [PoolCert c] | Panicked => [] end.
Lemma solo_ops_run :
  match for_each pool_step (Pool_new 0 solo_epoch, []) solo_ops with
  | Done (p, PoolEv_ParentReady s b :: _) =>
      bool_decide (s = 4 ∧ b = mkBlockId 3 [3] ∧ b ∈ Pool_parents_ready p 4)
  | _ => false
  end = true.
Proof. vm_compute. reflexivity. Qed.

Lemma pool_events_drive_votor_witness :
  ∃ p evs, for_each pool_step (Pool_new 0 solo_epoch, []) solo_ops = Done (p, evs)
    ∧ PoolEv_ParentReady 4 (mkBlockId 3 [3]) ∈ evs
    ∧ valid_parent (pl_parent_ready p) 4 (mkBlockId 3 [3])
    ∧ ∃ v0 out0 v B, Votor_new 0 [1] = Done (v0, out0)
        ∧ for_each votor_step (v0, [])
            [EvStore (StoreEv_Block 4 (mkBlockId 4 [4]) (mkBlockId 3 [3]));
             EvPool (PoolEv_ParentReady 4 (mkBlockId 3 [3]))] = Done (v, B).
Proof.
  pose proof solo_ops_run as Hrun.
  destruct (for_each pool_step (Pool_new 0 solo_epoch, []) solo_ops) as [[p evs]|] eqn:E; [|discriminate].
  assert (PoolEv_ParentReady 4 (mkBlockId 3 [3]) ∈ evs ∧ mkBlockId 3 [3] ∈ Pool_parents_ready p 4) as [Hin Hr].
  { destruct evs as [|[s b| | | |] evs]; try discriminate Hrun.
    apply bool_decide_eq_true in Hrun as (-> & -> & Hr). split; [apply list_elem_of_here|exact Hr]. }
  destruct (pool_events_drive_votor solo_epoch 0 solo_wf solo_ops p evs [1]) as (_ & Hval & Hev).
  - unfold solo_ops. destruct (solo_notar (mkBlockId 3 [3])) as [c|]; repeat constructor.
  - exact E.
  - exists p, evs. split; [reflexivity|]. split; [exact Hin|]. split; [apply Hval, Hr|].
    destruct (Hev [EvStore (StoreEv_Block 4 (mkBlockId 4 [4]) (mkBlockId 3 [3]));
                   EvPool (PoolEv_ParentReady 4 (mkBlockId 3 [3]))]) as (v0 & out0 & v & B & E0 & E1 & _).
    + repeat constructor; [discriminate|discriminate|exact Hin].
    + exists v0, out0, v, B. split; [exact E0|exact E1].
Defined.

(** A vote for a slot more than two epochs ahead is rejected. *)
Lemma rejection_is_pure_witness :
  ∃ vote p' out', Pool_add_vote (Pool_new 0 solo_epoch) vote PoolOut_default
    = Done (Err SlotOutOfBounds, p', out')
    ∧ same_pool (Pool_new 0 solo_epoch) p' ∧ out' = PoolOut_default.
Proof.
  set (vote := Vote_Skip (mkSkipVote 36000 [] 0)).
  destruct (Pool_add_vote (Pool_new 0 solo_epoch) vote PoolOut_default) as [[[[u|e] p'] out']|] eqn:E;
    [vm_compute in E; discriminate| |vm_compute in E; discriminate].
  exists vote, p', out'. assert (He : e = SlotOutOfBounds) by (vm_compute in E; injection E as <- _ _; reflexivity).
  subst e. split; [exact E|].
  exact (rejection_is_pure (Pool_new 0 solo_epoch) vote (Cert_Final (mkFinalCert 0 (mkAggregateSignature [] 0 []) 0))
           PoolOut_default SlotOutOfBounds p' out' (or_introl E)).
Defined.
