(* ===== verification/BankForks.v ===== *)
(** * The tree of banks

    [karstflow-consensus/src/bank_forks.rs]: the banks a validator keeps, the root, the
    index from a slot to its children, and the slots marked dead with their eviction
    queue.  A bank is seen through the fields this component reads: its slot, its
    parent slot, its status, and the identity of the shared allocation ([Arc]) that
    holds it.  Who else holds a bank is the argument [held] of [try_prune_dead].

    Walks along parents and children that need not end carry fuel and return [None]
    when it runs out; a walk that visits more banks than there are goes round in a
    circle, so [None] stands for a loop that does not end. *)
From stdpp Require Import base tactics list gmap sets.
From Stdlib Require Import ZArith Lia.
From S2P Require Import Prelude.
Local Open Scope Z_scope.

Inductive BankStatus := Processing | Frozen | Rooted.

#[export] Instance BankStatus_eq_dec : EqDecision BankStatus.
Proof. solve_decision. Defined.

Record Bank := mkBank {
  bank_id : Z;
  bank_slot : Z;
  bank_parent_slot : option Z;
  bank_status : BankStatus;
}.

Record EvictionReport := mkEvictionReport {
  er_dead_slots : list Z;
  er_pruned_slots : list Z;
}.

Inductive BankForksError :=
| SlotBelowRoot (slot root_slot : Z)
| SlotAlreadyExists (slot : Z)
| ParentNotFound (slot parent_slot : Z)
| ParentIsDead (slot parent_slot : Z)
| RootNotAdvancing (current_root new_root : Z)
| RootBankNotFound (slot : Z)
| BankNotRooted (slot : Z)
| BankNotFound (slot : Z)
| SnapshotBankNotRooted.

(** Calls into a bank that this component makes, with the identity of the bank. *)
Inductive BankEffect :=
| cost_tracker_mark_dead (id : Z)
| transaction_cache_purge_before_slot (id slot : Z).

Record BankForks := mkBankForks {
  bf_banks : gmap Z Bank;
  bf_root_slot : Z;
  bf_working_bank : Bank;
  bf_dead_slots : gset Z;
  bf_dead_queue : list Z;
  bf_child_index : gmap Z (list Z);
  bf_effects : list BankEffect;
}.

Notation MAX_RECENT_BLOCKHASHES := (300)%Z (only parsing).

Definition BankForks_new (root_bank : Bank) : BankForks :=
  {| bf_banks := {[bank_slot root_bank := root_bank]};
     bf_root_slot := bank_slot root_bank;
     bf_working_bank := root_bank;
     bf_dead_slots := ∅;
     bf_dead_queue := [];
     bf_child_index := ∅;
     bf_effects := [] |}.

Definition BankForks_new_from_snapshot (snapshot_bank : Bank) : result BankForks BankForksError :=
  if bool_decide (bank_status snapshot_bank ≠ Rooted) then Err SnapshotBankNotRooted
  else Ok (BankForks_new snapshot_bank).

Definition BankForks_get (bf : BankForks) (slot : Z) : option Bank := bf_banks bf !! slot.

(** [child_index.get(&slot)] as a list: a missing entry is read as no children. *)
Definition BankForks_children (bf : BankForks) (slot : Z) : list Z :=
  default [] (bf_child_index bf !! slot).

Definition BankForks_insert (bf : BankForks) (bank : Bank) : result () BankForksError * BankForks :=
  let slot := bank_slot bank in
  if slot <=? bf_root_slot bf then (Err (SlotBelowRoot slot (bf_root_slot bf)), bf)
  else if bool_decide (is_Some (bf_banks bf !! slot)) then (Err (SlotAlreadyExists slot), bf)
  else
    let store := λ index, (Ok (), {| bf_banks := <[slot := bank]> (bf_banks bf);
                                     bf_root_slot := bf_root_slot bf;
                                     bf_working_bank := bf_working_bank bf;
                                     bf_dead_slots := bf_dead_slots bf;
                                     bf_dead_queue := bf_dead_queue bf;
                                     bf_child_index := index;
                                     bf_effects := bf_effects bf |}) in
    match bank_parent_slot bank with
    | Some parent_slot =>
        if bool_decide (bf_banks bf !! parent_slot = None) then (Err (ParentNotFound slot parent_slot), bf)
        else if bool_decide (parent_slot ∈ bf_dead_slots bf) then (Err (ParentIsDead slot parent_slot), bf)
        else store (<[parent_slot := BankForks_children bf parent_slot ++ [slot]]> (bf_child_index bf))
    | None => store (bf_child_index bf)
    end.

(** Keep in the index only the children that satisfy [P], and only the slots that
    still have children. *)
Definition retain_children (P : Z → Prop) `{∀ s, Decision (P s)} (index : gmap Z (list Z)) : gmap Z (list Z) :=
  filter (λ kv, kv.2 ≠ []) (filter P <$> index).

(** Remove banks and their own index entries. *)
Definition remove_all {A} (m : gmap Z A) (slots : list Z) : gmap Z A :=
  foldl (λ m s, delete s m) m slots.

Section forks.
Context `{!IterOrder Z}.

Definition BankForks_set_root (bf : BankForks) (new_root_slot : Z)
    : result EvictionReport BankForksError * BankForks :=
  if new_root_slot <=? bf_root_slot bf
  then (Err (RootNotAdvancing (bf_root_slot bf) new_root_slot), bf)
  else
    match bf_banks bf !! new_root_slot with
    | None => (Err (RootBankNotFound new_root_slot), bf)
    | Some new_root_bank =>
        if bool_decide (bank_status new_root_bank ≠ Rooted)
        then (Err (BankNotRooted new_root_slot), bf)
        else
          let slots_before := iter_order (dom (bf_banks bf)) in
          let pruned := filter (λ s, s < new_root_slot) slots_before in
          let dead := filter (λ s, ¬ s < new_root_slot ∧ s ∈ bf_dead_slots bf) slots_before in
          let banks := remove_all (bf_banks bf) (pruned ++ dead) in
          let index := remove_all (bf_child_index bf) (pruned ++ dead) in
          (Ok (mkEvictionReport dead pruned),
           {| bf_banks := banks;
              bf_root_slot := new_root_slot;
              bf_working_bank := bf_working_bank bf;
              bf_dead_slots := filter (λ s, is_Some (banks !! s)) (bf_dead_slots bf);
              bf_dead_queue := filter (λ s, is_Some (banks !! s)) (bf_dead_queue bf);
              bf_child_index := retain_children (λ s, is_Some (banks !! s)) index;
              bf_effects := bf_effects bf ++
                [transaction_cache_purge_before_slot (bank_id new_root_bank)
                   (u64_saturating_sub new_root_slot MAX_RECENT_BLOCKHASHES)] |})
    end.

Definition BankForks_set_working_bank (bf : BankForks) (slot : Z) : result () BankForksError * BankForks :=
  match bf_banks bf !! slot with
  | None => (Err (BankNotFound slot), bf)
  | Some bank => (Ok (), {| bf_banks := bf_banks bf;
                            bf_root_slot := bf_root_slot bf;
                            bf_working_bank := bank;
                            bf_dead_slots := bf_dead_slots bf;
                            bf_dead_queue := bf_dead_queue bf;
                            bf_child_index := bf_child_index bf;
                            bf_effects := bf_effects bf |})
  end.

(** The breadth-first loop of [mark_dead] and [mark_dead_and_evict]: the slots newly
    marked dead, in the order they are found. *)
Fixpoint mark_dead_loop (fuel : nat) (index : gmap Z (list Z))
    (queue : list Z) (dead : gset Z) (newly : list Z) : option (gset Z * list Z) :=
  match queue with
  | [] => Some (dead, newly)
  | current :: queue =>
      match fuel with
      | O => None
      | S fuel =>
          let newly := if decide (current ∈ dead) then newly else newly ++ [current] in
          let dead := {[current]} ∪ dead in
          let children := default [] (index !! current) in
          mark_dead_loop fuel index (queue ++ filter (λ c, c ∉ dead) children) dead newly
      end
  end.

(** Each pass pops a slot that was queued by its parent, or the first one. *)
Definition bfs_fuel (index : gmap Z (list Z)) : nat :=
  S (map_fold (λ _ children n, length children + n)%nat O index).

Definition BankForks_mark (bf : BankForks) (slot : Z) : option (list Z * BankForks) :=
  '(dead, newly) ← mark_dead_loop (bfs_fuel (bf_child_index bf)) (bf_child_index bf) [slot]
                     (bf_dead_slots bf) [];
  Some (newly, {| bf_banks := bf_banks bf;
                  bf_root_slot := bf_root_slot bf;
                  bf_working_bank := bf_working_bank bf;
                  bf_dead_slots := dead;
                  bf_dead_queue := bf_dead_queue bf ++ newly;
                  bf_child_index := bf_child_index bf;
                  bf_effects := bf_effects bf ++
                    ((λ b, cost_tracker_mark_dead (bank_id b)) <$> omap (λ s, bf_banks bf !! s) newly) |}).

Definition BankForks_mark_dead (bf : BankForks) (slot : Z) : option (nat * BankForks) :=
  if bool_decide (bf_banks bf !! slot = None) then Some (O, bf)
  else '(newly, bf) ← BankForks_mark bf slot; Some (length newly, bf).

Definition BankForks_prune_dead (bf : BankForks) : nat * BankForks :=
  let removed := filter (λ s, s ∈ bf_dead_slots bf) (iter_order (dom (bf_banks bf))) in
  let banks := remove_all (bf_banks bf) removed in
  let index := remove_all (bf_child_index bf) removed in
  ((size (bf_banks bf) - size banks)%nat,
   {| bf_banks := banks;
      bf_root_slot := bf_root_slot bf;
      bf_working_bank := bf_working_bank bf;
      bf_dead_slots := filter (λ s, is_Some (banks !! s)) (bf_dead_slots bf);
      bf_dead_queue := filter (λ s, is_Some (banks !! s)) (bf_dead_queue bf);
      bf_child_index := retain_children (λ s, s ∉ bf_dead_slots bf) index;
      bf_effects := bf_effects bf |}).

(** [Arc::strong_count(bank) > 1]: the map holds one reference; the working bank may be
    the same allocation, and [held] tells whether anyone outside holds one. *)
Definition BankForks_referenced (bf : BankForks) (held : Z → bool) (bank : Bank) : bool :=
  held (bank_id bank) || (bank_id (bf_working_bank bf) =? bank_id bank).

(** Evict the bank at the front of the dead queue. *)
Definition BankForks_evict (bf : BankForks) (slot : Z) (queue : list Z) (parent_slot : option Z) : BankForks :=
  let index := match parent_slot with
               | Some ps =>
                   match bf_child_index bf !! ps with
                   | Some children =>
                       let children := filter (λ s, s ≠ slot) children in
                       if bool_decide (children = []) then delete ps (bf_child_index bf)
                       else <[ps := children]> (bf_child_index bf)
                   | None => bf_child_index bf
                   end
               | None => bf_child_index bf
               end in
  {| bf_banks := delete slot (bf_banks bf);
     bf_root_slot := bf_root_slot bf;
     bf_working_bank := bf_working_bank bf;
     bf_dead_slots := bf_dead_slots bf ∖ {[slot]};
     bf_dead_queue := queue;
     bf_child_index := delete slot index;
     bf_effects := bf_effects bf |}.

(** Drop the front of the dead queue, whose bank is already gone. *)
Definition BankForks_pop_dead (bf : BankForks) (slot : Z) (queue : list Z) : BankForks :=
  {| bf_banks := bf_banks bf;
     bf_root_slot := bf_root_slot bf;
     bf_working_bank := bf_working_bank bf;
     bf_dead_slots := bf_dead_slots bf ∖ {[slot]};
     bf_dead_queue := queue;
     bf_child_index := bf_child_index bf;
     bf_effects := bf_effects bf |}.

(** [try_prune_dead]; every pass shortens the queue, so the recursion is on it. *)
Fixpoint try_prune_loop (held : Z → bool) (queue : list Z) (pruned : nat) (bf : BankForks) : nat * BankForks :=
  match queue with
  | [] => (pruned, bf)
  | slot :: queue =>
      match bf_banks bf !! slot with
      | None => try_prune_loop held queue pruned (BankForks_pop_dead bf slot queue)
      | Some bank =>
          if BankForks_referenced bf held bank then (pruned, bf)
          else try_prune_loop held queue (S pruned) (BankForks_evict bf slot queue (bank_parent_slot bank))
      end
  end.

Definition BankForks_try_prune_dead (held : Z → bool) (bf : BankForks) : nat * BankForks :=
  try_prune_loop held (bf_dead_queue bf) O bf.

Definition BankForks_mark_dead_and_evict (held : Z → bool) (bf : BankForks) (slot : Z)
    : option (EvictionReport * BankForks) :=
  if bool_decide (bf_banks bf !! slot = None) then Some (mkEvictionReport [] [], bf)
  else '(newly, bf) ← BankForks_mark bf slot;
       Some (mkEvictionReport newly [], (BankForks_try_prune_dead held bf).2).

Definition BankForks_is_dead (bf : BankForks) (slot : Z) : bool := bool_decide (slot ∈ bf_dead_slots bf).

(** [collect_ancestors] *)
Fixpoint collect_ancestors (fuel : nat) (banks : gmap Z Bank) (slot : Z) : option (list Z) :=
  match banks !! slot with
  | Some bank =>
      match bank_parent_slot bank with
      | Some parent_slot =>
          match fuel with
          | O => None
          | S fuel => rest ← collect_ancestors fuel banks parent_slot; Some (parent_slot :: rest)
          end
      | None => Some []
      end
  | None => Some []
  end.

Definition BankForks_prune_non_rooted (bf : BankForks) (keep_above_slot : Z) : option BankForks :=
  ancestors ← collect_ancestors (size (bf_banks bf)) (bf_banks bf) (bank_slot (bf_working_bank bf));
  let to_remove :=
    filter (λ slot, slot ≠ bf_root_slot bf ∧ slot <= keep_above_slot
                    ∧ bank_status <$> bf_banks bf !! slot ≠ Some Rooted
                    ∧ slot ∉ ancestors) (iter_order (dom (bf_banks bf))) in
  let banks := remove_all (bf_banks bf) to_remove in
  let index := remove_all (bf_child_index bf) to_remove in
  Some {| bf_banks := banks;
          bf_root_slot := bf_root_slot bf;
          bf_working_bank := bf_working_bank bf;
          bf_dead_slots := bf_dead_slots bf;
          bf_dead_queue := bf_dead_queue bf;
          bf_child_index := retain_children (λ s, is_Some (banks !! s)) index;
          bf_effects := bf_effects bf |}.

(** The loop of [descendants]. *)
Fixpoint descendants_loop (fuel : nat) (index : gmap Z (list Z)) (queue result : list Z) : option (list Z) :=
  match queue with
  | [] => Some result
  | current :: queue =>
      match fuel with
      | O => None
      | S fuel => descendants_loop fuel index (queue ++ default [] (index !! current)) (result ++ [current])
      end
  end.

Definition BankForks_descendants (bf : BankForks) (slot : Z) : option (list Z) :=
  descendants_loop (bfs_fuel (bf_child_index bf)) (bf_child_index bf) (BankForks_children bf slot) [].

(** The loop of [is_ancestor]. *)
Fixpoint is_ancestor_loop (fuel : nat) (banks : gmap Z Bank) (ancestor_slot current_slot : Z) : option bool :=
  if current_slot <=? ancestor_slot then Some false
  else
    match banks !! current_slot with
    | Some bank =>
        match bank_parent_slot bank with
        | Some parent_slot =>
            if parent_slot =? ancestor_slot then Some true
            else match fuel with
                 | O => None
                 | S fuel => is_ancestor_loop fuel banks ancestor_slot parent_slot
                 end
        | None => Some false
        end
    | None => Some false
    end.

Definition BankForks_is_ancestor (bf : BankForks) (ancestor_slot slot : Z) : option bool :=
  if slot <=? ancestor_slot then Some false
  else is_ancestor_loop (size (bf_banks bf)) (bf_banks bf) ancestor_slot slot.

(** ** The invariant *)

(** [p] is the parent slot of the bank at [c]. *)
Definition child_of (banks : gmap Z Bank) (c p : Z) : Prop :=
  ∃ b, banks !! c = Some b ∧ bank_parent_slot b = Some p.

(** The index lists only children, once, and every live child whose parent is there;
    the dead slots are banks, and closed under children; a live bank whose parent is
    gone hangs below the root; the eviction queue lists dead slots, once. *)
Record bf_wf (bf : BankForks) : Prop := {
  wf_index : ∀ p c, c ∈ BankForks_children bf p → child_of (bf_banks bf) c p;
  wf_index_nodup : ∀ p, NoDup (BankForks_children bf p);
  wf_complete : ∀ c p, child_of (bf_banks bf) c p → c ∉ bf_dead_slots bf →
    is_Some (bf_banks bf !! p) → c ∈ BankForks_children bf p;
  wf_closed : ∀ c p, child_of (bf_banks bf) c p → p ∈ bf_dead_slots bf → c ∈ bf_dead_slots bf;
  wf_dead : ∀ c, c ∈ bf_dead_slots bf → is_Some (bf_banks bf !! c);
  wf_orphan : ∀ c p, child_of (bf_banks bf) c p → c ∉ bf_dead_slots bf →
    bf_banks bf !! p = None → p < bf_root_slot bf;
  wf_queue : ∀ c, c ∈ bf_dead_queue bf → c ∈ bf_dead_slots bf;
  wf_queue_nodup : NoDup (bf_dead_queue bf);
}.

Lemma lookup_remove_all {A} (m : gmap Z A) l s :
  remove_all m l !! s = if decide (s ∈ l) then None else m !! s.
Proof.
  unfold remove_all. revert m. induction l as [|x l IH]; intros m; cbn; [done|].
  rewrite IH. destruct (decide (s = x)) as [->|Hne].
  - rewrite lookup_delete_eq. repeat case_decide; set_solver.
  - rewrite lookup_delete_ne by done. repeat case_decide; set_solver.
Qed.

Lemma children_retain (P : Z → Prop) `{∀ s, Decision (P s)} index p :
  default [] (retain_children P index !! p) = filter P (default [] (index !! p)).
Proof.
  unfold retain_children. rewrite map_lookup_filter, lookup_fmap.
  destruct (index !! p) as [l|]; cbn; [|done].
  destruct (decide (filter P l = [])) as [E|E].
  - rewrite option_guard_False by (cbn; tauto). by rewrite E.
  - by rewrite option_guard_True.
Qed.

Lemma child_of_remove banks l c p :
  child_of (remove_all banks l) c p ↔ (c ∉ l) ∧ child_of banks c p.
Proof. unfold child_of. setoid_rewrite lookup_remove_all. case_decide; naive_solver. Qed.

Lemma bf_new_wf root_bank :
  (∀ p, bank_parent_slot root_bank = Some p → p < bank_slot root_bank) → bf_wf (BankForks_new root_bank).
Proof.
  intros Hp. split; cbn; try set_solver.
  - intros p. constructor.
  - intros c p (b & [<- <-]%lookup_singleton_Some & Hb) _ [b' [? _]%lookup_singleton_Some].
    specialize (Hp p Hb). lia.
  - intros c p (b & [<- <-]%lookup_singleton_Some & Hb) _ _. by apply Hp.
  - constructor.
Qed.

Lemma child_of_insert banks s b c p :
  banks !! s = None →
  child_of (<[s := b]> banks) c p ↔ c = s ∧ bank_parent_slot b = Some p ∨ child_of banks c p.
Proof.
  unfold child_of. intros Hs. split.
  - intros (b' & Hb & Hp). destruct (decide (c = s)) as [->|Hne].
    + rewrite lookup_insert_eq in Hb. naive_solver.
    + rewrite lookup_insert_ne in Hb by done. eauto.
  - intros [[-> Hp]|(b' & Hb & Hp)].
    + exists b. by rewrite lookup_insert_eq.
    + exists b'. rewrite lookup_insert_ne by congruence. done.
Qed.

(** Storing a new bank above the root under a live parent, with the child added to the
    index entry of its parent. *)
Lemma store_wf bf bank index :
  bf_wf bf → bf_banks bf !! bank_slot bank = None → bf_root_slot bf < bank_slot bank →
  (∀ p, bank_parent_slot bank = Some p → is_Some (bf_banks bf !! p) ∧ p ∉ bf_dead_slots bf) →
  (∀ p, default [] (index !! p) = BankForks_children bf p ++
          (if decide (bank_parent_slot bank = Some p) then [bank_slot bank] else [])) →
  bf_wf (mkBankForks (<[bank_slot bank := bank]> (bf_banks bf)) (bf_root_slot bf) (bf_working_bank bf)
           (bf_dead_slots bf) (bf_dead_queue bf) index (bf_effects bf)).
Proof.
  intros [Hi Hnd Hc Hcl Hd Ho Hq Hqn] Hnew Hroot Hpar Hidx.
  assert (Hfresh : ∀ p, bank_slot bank ∉ BankForks_children bf p).
  { intros p (b & Hb & _)%Hi. congruence. }
  split; unfold BankForks_children; cbn.
  - intros p c. rewrite Hidx, child_of_insert, elem_of_app by done.
    intros [?|Hin]; [by eauto|]. case_decide; set_solver.
  - intros p. rewrite Hidx. apply NoDup_app. split_and!; [done| |].
    + intros x Hx. case_decide; set_solver.
    + case_decide; [apply NoDup_singleton|constructor].
  - intros c p. rewrite Hidx, elem_of_app, child_of_insert by done.
    intros [[-> ->]|Hch] Hlive Hp; [right; by rewrite decide_True; [left|]|left].
    apply Hc; [done..|]. destruct (decide (p = bank_slot bank)) as [->|?].
    + destruct (bf_banks bf !! bank_slot bank) eqn:E; [done|].
      pose proof (Ho c _ Hch Hlive E). lia.
    + by rewrite lookup_insert_ne in Hp.
  - intros c p. rewrite child_of_insert by done. intros [[-> Hp]|Hch]; [|by eauto].
    intros ?. by destruct (Hpar _ Hp).
  - intros c Hin. destruct (decide (c = bank_slot bank)) as [->|?].
    + by rewrite lookup_insert_eq.
    + rewrite lookup_insert_ne by done. eauto.
  - intros c p. rewrite child_of_insert by done. intros Hch Hlive [Hp ?]%lookup_insert_None.
    destruct Hch as [[-> Hpp]|Hch]; [|by eauto]. destruct (Hpar _ Hpp) as [[? ?] _]. congruence.
  - done.
  - done.
Qed.

Lemma insert_wf bf bank : bf_wf bf → bf_wf (BankForks_insert bf bank).2.
Proof.
  intros Hwf. unfold BankForks_insert.
  destruct (Z.leb_spec (bank_slot bank) (bf_root_slot bf)); [done|].
  case_bool_decide as Hnew; [done|]. apply eq_None_not_Some in Hnew.
  destruct (bank_parent_slot bank) as [p|] eqn:Hp.
  - case_bool_decide as Hpn; [done|]. case_bool_decide as Hpd; [done|]. cbn.
    apply not_eq_None_Some in Hpn. apply store_wf; [done..| |].
    + rewrite Hp. by intros ? [= <-].
    + intros q. rewrite Hp. case_decide as E.
      * injection E as ->. by rewrite lookup_insert_eq.
      * rewrite lookup_insert_ne, app_nil_r by congruence. done.
  - cbn. apply store_wf; [done..|by rewrite Hp|].
    intros q. rewrite Hp. by rewrite decide_False, app_nil_r.
Qed.

(** Evicting banks that are dead or below the new root. *)
Lemma evict_wf bf l root dead queue index effects :
  bf_wf bf → bf_root_slot bf <= root →
  (∀ s, s ∈ l → is_Some (bf_banks bf !! s) ∧ (s < root ∨ s ∈ bf_dead_slots bf)) →
  (∀ s, s ∈ dead ↔ s ∈ bf_dead_slots bf ∧ (s ∉ l)) →
  (∀ s, s ∈ queue → s ∈ bf_dead_queue bf ∧ (s ∉ l)) → NoDup queue →
  (∀ p, default [] (index !! p) =
          if decide (p ∈ l) then [] else filter (λ c, c ∉ l) (BankForks_children bf p)) →
  bf_wf (mkBankForks (remove_all (bf_banks bf) l) root (bf_working_bank bf) dead queue index effects).
Proof.
  intros [Hi Hnd Hc Hcl Hd Ho Hq Hqn] Hroot Hl Hdead Hqueue Hqnd Hidx.
  split; unfold BankForks_children; cbn.
  - intros p c. rewrite Hidx, child_of_remove. case_decide; [set_solver|].
    rewrite list_elem_of_filter. naive_solver.
  - intros p. rewrite Hidx. case_decide; [constructor|]. by apply NoDup_filter.
  - intros c p. rewrite child_of_remove, Hidx, lookup_remove_all, Hdead. intros [Hcl' Hch] Hlive Hp.
    case_decide; [by destruct Hp|]. rewrite list_elem_of_filter. split; [done|]. apply Hc; tauto.
  - intros c p. rewrite child_of_remove, !Hdead. naive_solver.
  - intros c [Hin Hnl]%Hdead. rewrite lookup_remove_all, decide_False by done. by apply Hd.
  - intros c p. rewrite child_of_remove, Hdead, lookup_remove_all. intros [Hcl' Hch] Hlive Hp.
    case_decide as Hpl.
    + destruct (Hl p Hpl) as [_ [?|?]]; [done|]. exfalso. naive_solver.
    + pose proof (Ho c p Hch). enough (p < bf_root_slot bf) by lia. tauto.
  - intros c [? ?]%Hqueue. rewrite Hdead. auto.
  - done.
Qed.

Lemma children_removed (P : Z → Prop) `{∀ s, Decision (P s)} bf l p :
  (∀ c, c ∈ BankForks_children bf p → P c ↔ c ∉ l) →
  default [] (retain_children P (remove_all (bf_child_index bf) l) !! p)
  = if decide (p ∈ l) then [] else filter (λ c, c ∉ l) (BankForks_children bf p).
Proof.
  intros HP. rewrite children_retain, lookup_remove_all. case_decide; [done|].
  by apply list_filter_ext_in.
Qed.

Lemma set_root_wf bf new_root : bf_wf bf → bf_wf (BankForks_set_root bf new_root).2.
Proof.
  intros Hwf. unfold BankForks_set_root.
  destruct (Z.leb_spec new_root (bf_root_slot bf)); [done|].
  destruct (bf_banks bf !! new_root) as [rb|]; [|done]. case_bool_decide; [done|]. cbn -[remove_all].
  set (l := _ ++ _).
  assert (Hl : ∀ s, s ∈ l ↔ is_Some (bf_banks bf !! s) ∧ (s < new_root ∨ s ∈ bf_dead_slots bf)).
  { intros s. unfold l. rewrite elem_of_app, !list_elem_of_filter, elem_of_iter_order, elem_of_dom.
    destruct (decide (s < new_root)); tauto. }
  assert (Hb : ∀ s, is_Some (remove_all (bf_banks bf) l !! s) ↔ is_Some (bf_banks bf !! s) ∧ (s ∉ l)).
  { intros s. rewrite lookup_remove_all. case_decide; [|tauto]. split; [by intros []|tauto]. }
  apply evict_wf; [done|lia|by intros; apply Hl| | |by apply NoDup_filter, wf_queue_nodup|].
  - intros s. rewrite elem_of_filter, Hb. pose proof (wf_dead bf Hwf s). tauto.
  - intros s. rewrite list_elem_of_filter, Hb. tauto.
  - intros p. apply children_removed. intros c (b & Hc & _)%(wf_index bf Hwf). rewrite Hb, Hc. naive_solver.
Qed.

Lemma prune_dead_wf bf : bf_wf bf → bf_wf (BankForks_prune_dead bf).2.
Proof.
  intros Hwf. unfold BankForks_prune_dead. cbn -[remove_all]. set (l := filter _ _).
  assert (Hl : ∀ s, s ∈ l ↔ s ∈ bf_dead_slots bf).
  { intros s. unfold l. rewrite list_elem_of_filter, elem_of_iter_order, elem_of_dom.
    pose proof (wf_dead bf Hwf s). tauto. }
  assert (Hb : ∀ s, is_Some (remove_all (bf_banks bf) l !! s) ↔ is_Some (bf_banks bf !! s) ∧ (s ∉ l)).
  { intros s. rewrite lookup_remove_all. case_decide; [|tauto]. split; [by intros []|tauto]. }
  apply evict_wf; [done|lia| | | |by apply NoDup_filter, wf_queue_nodup|].
  - intros s Hs%Hl. split; [by apply wf_dead|by right].
  - intros s. rewrite elem_of_filter, Hb. pose proof (wf_dead bf Hwf s). tauto.
  - intros s. rewrite list_elem_of_filter, Hb. tauto.
  - intros p. apply children_removed. intros c _. by rewrite Hl.
Qed.

Lemma evict_front_wf bf slot queue bank :
  bf_wf bf → bf_dead_queue bf = slot :: queue → bf_banks bf !! slot = Some bank →
  bf_wf (BankForks_evict bf slot queue (bank_parent_slot bank)).
Proof.
  intros Hwf Hqueue Hbank. pose proof (wf_queue_nodup bf Hwf) as Hnd. rewrite Hqueue in Hnd.
  apply NoDup_cons in Hnd as [Hnin Hnd].
  assert (Hdead : slot ∈ bf_dead_slots bf) by (apply wf_queue; [done|]; rewrite Hqueue; left).
  apply (evict_wf bf [slot]); [done|lia|set_solver|set_solver| |done|].
  { intros s Hs. rewrite Hqueue. set_solver. }
  assert (Hne : ∀ q, bank_parent_slot bank ≠ Some q →
                  BankForks_children bf q = filter (λ c, c ∉ [slot]) (BankForks_children bf q)).
  { intros q Hq. symmetry. apply list_filter_all, Forall_forall. intros c Hc ->%list_elem_of_singleton.
    apply (wf_index bf Hwf) in Hc as (b & Hb & ?). congruence. }
  intros q. destruct (decide (q = slot)) as [->|Hqs].
  { rewrite lookup_delete_eq. by rewrite decide_True by set_solver. }
  rewrite lookup_delete_ne, decide_False by set_solver.
  destruct (bank_parent_slot bank) as [ps|] eqn:Hps; [|by apply Hne].
  destruct (decide (q = ps)) as [->|Hqp].
  - unfold BankForks_children. destruct (bf_child_index bf !! ps) as [l|] eqn:El; [|by rewrite El].
    assert (filter (λ s, s ≠ slot) l = filter (λ c, c ∉ [slot]) l) as ->.
    { apply list_filter_iff. set_solver. }
    cbn. case_bool_decide as E; [by rewrite lookup_delete_eq, E|by rewrite lookup_insert_eq].
  - etrans; [|apply Hne; congruence]. unfold BankForks_children.
    destruct (bf_child_index bf !! ps) as [l|]; [|done].
    case_bool_decide; [rewrite lookup_delete_ne|rewrite lookup_insert_ne]; done.
Qed.

Lemma try_prune_wf held bf : bf_wf bf → bf_wf (BankForks_try_prune_dead held bf).2.
Proof.
  unfold BankForks_try_prune_dead. generalize O as n.
  remember (bf_dead_queue bf) as queue eqn:Hq. symmetry in Hq.
  revert bf Hq. induction queue as [|slot queue IH]; intros bf Hq n Hwf; cbn; [done|].
  destruct (bf_banks bf !! slot) as [bank|] eqn:Hb.
  - destruct (BankForks_referenced bf held bank); [done|].
    apply IH; [done|]. by apply evict_front_wf.
  - exfalso. destruct (wf_dead bf Hwf slot); [|congruence]. apply wf_queue; [done|]. rewrite Hq. left.
Qed.

(** ** Marking a subtree dead *)

Section marking.
Context (index : gmap Z (list Z)).

Definition indexed (p c : Z) : Prop := c ∈ default [] (index !! p).

(** The children that slots outside [dead] have in the index. *)
Definition pending (dead : gset Z) : nat :=
  map_fold (λ _ children n, length children + n)%nat O (filter (λ kv, kv.1 ∉ dead) index).

Lemma pending_step dead current :
  current ∉ dead →
  pending dead = (length (default [] (index !! current)) + pending ({[current]} ∪ dead))%nat.
Proof.
  intros Hcur. unfold pending.
  assert (filter (λ kv, kv.1 ∉ {[current]} ∪ dead) index
          = delete current (filter (λ kv, kv.1 ∉ dead) index)) as ->.
  { apply map_eq. intros j. rewrite map_lookup_filter. destruct (decide (j = current)) as [->|Hj].
    - rewrite lookup_delete_eq. destruct (index !! current); cbn; [|done].
      by rewrite option_guard_False by set_solver.
    - rewrite lookup_delete_ne, map_lookup_filter by done. destruct (index !! j); cbn; [|done].
      repeat case_guard; set_solver. }
  assert (Hl : filter (λ kv, kv.1 ∉ dead) index !! current = index !! current).
  { rewrite map_lookup_filter. destruct (index !! current); cbn; [|done]. by rewrite option_guard_True. }
  destruct (index !! current) as [children|] eqn:E; cbn.
  - rewrite (map_fold_delete_L _ _ current children); [done|lia|done].
  - by rewrite delete_id.
Qed.

Lemma pending_all : bfs_fuel index = S (pending ∅).
Proof. unfold bfs_fuel, pending. do 2 f_equal. symmetry. apply map_filter_id. set_solver. Qed.

Lemma pending_mono dead : (pending dead <= pending ∅)%nat.
Proof.
  induction dead as [|x dead Hx IH] using set_ind_L; [done|].
  rewrite (pending_step dead x) in IH by done. lia.
Qed.

Context (Hone : ∀ p q c, indexed p c → indexed q c → p = q).
Context (Hnodup : ∀ p, NoDup (default [] (index !! p))).

(** What a run of the loop from [queue] adds to the dead slots. *)
Definition marks (queue : list Z) (dead dead' : gset Z) (l : list Z) : Prop :=
  NoDup l ∧ (∀ x, x ∈ dead' ↔ x ∈ dead ∨ x ∈ l) ∧ (∀ x, x ∈ l → x ∉ dead)
  ∧ (∀ x, x ∈ queue → x ∈ dead') ∧ (∀ x c, x ∈ l → indexed x c → c ∈ dead')
  ∧ (∀ x, x ∈ l → ∃ q, q ∈ queue ∧ rtc indexed q x).

Lemma mark_dead_loop_spec fuel queue dead newly :
  NoDup queue → (∀ x, x ∈ queue → (x ∉ dead) ∧ ∃ p, p ∈ dead ∧ indexed p x) →
  (length queue + pending dead <= fuel)%nat →
  ∃ dead' l, mark_dead_loop fuel index queue dead newly = Some (dead', newly ++ l)
             ∧ marks queue dead dead' l.
Proof.
  revert queue dead newly. induction fuel as [|fuel IH]; intros [|cur queue] dead newly Hnd Hq Hf;
    cbn [mark_dead_loop]; try (cbn in Hf; lia);
    try (exists dead, []; rewrite app_nil_r; split; [done|]; unfold marks; set_solver by constructor).
  apply NoDup_cons in Hnd as [Hcq Hnd]. destruct (Hq cur ltac:(left)) as [Hcur _].
  rewrite decide_False by done. set (dead1 := {[cur]} ∪ dead).
  set (fresh := filter (λ c, c ∉ dead1) (default [] (index !! cur))).
  assert (Hfresh : ∀ x, x ∈ fresh ↔ (x ∉ dead1) ∧ indexed cur x) by (intros x; unfold fresh; by rewrite list_elem_of_filter).
  destruct (IH (queue ++ fresh) dead1 (newly ++ [cur])) as (dead' & l & -> & Hl1 & Hl2 & Hl3 & Hl4 & Hl5 & Hl6).
  - apply NoDup_app. split_and!; [done| |by apply NoDup_filter].
    intros x Hx [Hx1 Hx2]%Hfresh. destruct (Hq x ltac:(by right)) as [_ (p & Hp & Hpx)].
    by rewrite (Hone _ _ _ Hpx Hx2) in Hp.
  - intros x [Hx|[Hx1 Hx2]%Hfresh]%elem_of_app; [|split; [done|exists cur; set_solver]].
    destruct (Hq x ltac:(by right)) as [? (p & ? & ?)]. split; [set_solver|exists p; set_solver].
  - assert (length fresh <= length (default [] (index !! cur)))%nat by apply length_filter.
    rewrite length_app. pose proof (pending_step dead cur Hcur) as Hp. fold dead1 in Hp. cbn in Hf. lia.
  - exists dead', (cur :: l). split; [by rewrite <- app_assoc|]. split_and!.
    + constructor; [|done]. intros Hin%Hl3. set_solver.
    + intros x. rewrite Hl2, elem_of_cons. set_solver.
    + set_solver.
    + intros x [->|Hx]%elem_of_cons; [set_solver|]. apply Hl4. set_solver.
    + intros x c [->|Hx]%elem_of_cons Hc; [|by eauto].
      destruct (decide (c ∈ dead1)); [set_solver|]. apply Hl4, elem_of_app. right. by apply Hfresh.
    + intros x [->|Hx]%elem_of_cons; [exists cur; split; [left|done]|].
      destruct (Hl6 x Hx) as (q & [Hq'|[_ Hcq']%Hfresh]%elem_of_app & Hr).
      * exists q. split; [by right|done].
      * exists cur. split; [left|by eapply rtc_l].
Qed.

(** The whole loop, from one slot whose children are dead if it is. *)
Lemma mark_dead_spec slot dead :
  (slot ∈ dead → ∀ c, indexed slot c → c ∈ dead) →
  ∃ dead' l, mark_dead_loop (bfs_fuel index) index [slot] dead [] = Some (dead', l)
             ∧ marks [slot] dead dead' l.
Proof.
  intros Hcl. rewrite pending_all. cbn [mark_dead_loop app].
  set (dead1 := {[slot]} ∪ dead). set (fresh := filter (λ c, c ∉ dead1) (default [] (index !! slot))).
  assert (Hfresh : ∀ x, x ∈ fresh ↔ (x ∉ dead1) ∧ indexed slot x)
    by (intros x; unfold fresh; by rewrite list_elem_of_filter).
  destruct (decide (slot ∈ dead)) as [Hin|Hout].
  - assert (fresh = []) as ->.
    { apply elem_of_nil_inv. intros x [? ?%(Hcl Hin)]%Hfresh. set_solver. }
    exists dead1, []. split; [by destruct (pending ∅)|]. unfold marks. split_and!; [constructor|set_solver..].
  - destruct (mark_dead_loop_spec (pending ∅) fresh dead1 [slot])
      as (dead' & l & -> & Hl1 & Hl2 & Hl3 & Hl4 & Hl5 & Hl6).
    + by apply NoDup_filter.
    + intros x [? ?]%Hfresh. split; [done|]. exists slot. set_solver.
    + assert (length fresh <= length (default [] (index !! slot)))%nat by apply length_filter.
      pose proof (pending_step dead slot Hout) as Hp. fold dead1 in Hp. pose proof (pending_mono dead). lia.
    + exists dead', (slot :: l). split; [done|]. split_and!.
      * constructor; [|done]. intros ?%Hl3. set_solver.
      * intros x. rewrite Hl2, elem_of_cons. set_solver.
      * set_solver.
      * set_solver.
      * intros x c [->|Hx]%elem_of_cons Hc; [|by eauto].
        destruct (decide (c ∈ dead1)); [set_solver|]. apply Hl4. by apply Hfresh.
      * intros x [->|Hx]%elem_of_cons; [exists slot; split; [left|done]|].
        destruct (Hl6 x Hx) as (q & [_ Hq]%Hfresh & Hr). exists slot. split; [left|by eapply rtc_l].
Qed.

End marking.

(** [c] is [p] or descends from it. *)
Definition descends (bf : BankForks) : Z → Z → Prop := rtc (child_of (bf_banks bf)).

(** What marking [slot] dead does. *)
Definition marked (bf : BankForks) (slot : Z) (newly : list Z) (bf' : BankForks) : Prop :=
  bf_wf bf' ∧ bf_banks bf' = bf_banks bf ∧ bf_root_slot bf' = bf_root_slot bf
  ∧ bf_dead_queue bf' = bf_dead_queue bf ++ newly ∧ NoDup newly
  ∧ ∀ c, (c ∈ bf_dead_slots bf' ↔ c ∈ bf_dead_slots bf ∨ descends bf c slot)
         ∧ (c ∈ newly ↔ c ∈ bf_dead_slots bf' ∧ c ∉ bf_dead_slots bf).

Lemma mark_spec bf slot :
  bf_wf bf → is_Some (bf_banks bf !! slot) → ∃ newly bf', BankForks_mark bf slot = Some (newly, bf') ∧ marked bf slot newly bf'.
Proof.
  intros Hwf Hslot. pose proof Hwf as [Hi Hnd Hc Hcl Hd Ho Hq Hqn]. unfold BankForks_mark.
  destruct (mark_dead_spec (bf_child_index bf)) with (slot := slot) (dead := bf_dead_slots bf)
    as (dead' & l & -> & Hl1 & Hl2 & Hl3 & Hl4 & Hl5 & Hl6).
  { intros p q c (b & Hb & Hp)%Hi (b' & Hb' & Hp')%Hi. congruence. }
  { apply Hnd. }
  { intros Hin c Hch%Hi. by eapply Hcl. }
  assert (Hreach : ∀ x, x ∈ l → descends bf x slot).
  { intros x (q & ->%list_elem_of_singleton & Hr)%Hl6. clear -Hr Hi.
    induction Hr as [|p c x Hpc _ IH]; [done|]. eapply rtc_r; [exact IH|by apply Hi]. }
  assert (Hbank : ∀ x, x ∈ dead' → is_Some (bf_banks bf !! x)).
  { intros x [Hx|Hx]%Hl2; [by apply Hd|]. apply Hreach in Hx. inversion Hx as [|? ? ? (b & ? & ?)]; naive_solver. }
  assert (Hclosed : ∀ c p, child_of (bf_banks bf) c p → p ∈ dead' → c ∈ dead').
  { intros c p Hch Hp. apply Hl2. destruct (decide (c ∈ bf_dead_slots bf)) as [|Hlive]; [by left|].
    rewrite <- Hl2. pose proof (Hbank _ Hp). apply Hl2 in Hp as [Hp|Hp]; [exfalso; eauto|].
    eapply Hl5; [done|]. by apply Hc. }
  assert (Hdesc : ∀ c, descends bf c slot → c ∈ dead').
  { intros c Hr. assert (slot ∈ dead') as Hs by (apply Hl4; left). clear -Hr Hs Hclosed.
    induction Hr; eauto. }
  exists l. eexists. split; [done|]. split; [|cbn; split_and!; try done].
  - split; cbn; try done.
    + intros c p Hch Hlive. apply Hc; [done|]. intros ?. apply Hlive, Hl2. by left.
    + intros c p Hch Hlive. apply (Ho c); [done|]. intros ?. apply Hlive, Hl2. by left.
    + intros c [?|?]%elem_of_app; apply Hl2; auto.
    + apply NoDup_app. split_and!; [done| |done]. intros x ?%Hq ?%Hl3. done.
  - intros c. split; [|naive_solver]. split; [intros [?|?]%Hl2; auto|]. intros [?|?]; [apply Hl2; auto|auto].
Qed.

Lemma is_ancestor_total bf a s :
  (∀ c p, child_of (bf_banks bf) c p → p < c) → is_Some (BankForks_is_ancestor bf a s).
Proof.
  intros Hlt. unfold BankForks_is_ancestor. case_match; [done|].
  pose proof (below_le_size (bf_banks bf) s) as Hf. revert Hf. generalize (size (bf_banks bf)) as fuel.
  intros fuel. revert s H. induction fuel as [|fuel IH]; intros s Has Hf; cbn [is_ancestor_loop]; rewrite Has;
    (destruct (bf_banks bf !! s) as [b|] eqn:Hb; [|done]);
    (destruct (bank_parent_slot b) as [p|] eqn:Hp; [|done]); (case_match; [done|]);
    pose proof (Hlt s p ltac:(by exists b)) as Hps;
    pose proof (below_step (bf_banks bf) s p ltac:(done) Hps) as Hbs; [lia|].
  destruct (p <=? a) eqn:Hpa; [destruct fuel; cbn; by rewrite Hpa|]. apply IH; [done|lia].
Qed.

(** ** Runs *)

Inductive bf_op :=
| BfInsert (bank : Bank)
| BfSetRoot (slot : Z)
| BfSetWorkingBank (slot : Z)
| BfMarkDead (slot : Z)
| BfMarkDeadAndEvict (held : Z → bool) (slot : Z)
| BfPruneDead
| BfTryPruneDead (held : Z → bool).

Definition bf_step (bf : BankForks) (op : bf_op) : option BankForks :=
  match op with
  | BfInsert bank => Some (BankForks_insert bf bank).2
  | BfSetRoot slot => Some (BankForks_set_root bf slot).2
  | BfSetWorkingBank slot => Some (BankForks_set_working_bank bf slot).2
  | BfMarkDead slot => snd <$> BankForks_mark_dead bf slot
  | BfMarkDeadAndEvict held slot => snd <$> BankForks_mark_dead_and_evict held bf slot
  | BfPruneDead => Some (BankForks_prune_dead bf).2
  | BfTryPruneDead held => Some (BankForks_try_prune_dead held bf).2
  end.

Fixpoint bf_run (bf : BankForks) (ops : list bf_op) : option BankForks :=
  match ops with
  | [] => Some bf
  | op :: ops => bf ← bf_step bf op; bf_run bf ops
  end.

Lemma bf_step_wf bf op : bf_wf bf → ∃ bf', bf_step bf op = Some bf' ∧ bf_wf bf'.
Proof.
  intros Hwf. destruct op as [bank|slot|slot|slot|held slot| |held]; cbn.
  - eexists. split; [done|by apply insert_wf].
  - eexists. split; [done|by apply set_root_wf].
  - eexists. split; [done|]. unfold BankForks_set_working_bank.
    destruct (bf_banks bf !! slot); [|done]. by destruct Hwf.
  - unfold BankForks_mark_dead. case_bool_decide as Hs; [by eexists|]. apply not_eq_None_Some in Hs.
    destruct (mark_spec bf slot Hwf Hs) as (? & bf' & -> & ? & _). by exists bf'.
  - unfold BankForks_mark_dead_and_evict. case_bool_decide as Hs; [by eexists|]. apply not_eq_None_Some in Hs.
    destruct (mark_spec bf slot Hwf Hs) as (? & bf' & -> & ? & _). eexists. split; [done|]. by apply try_prune_wf.
  - eexists. split; [done|by apply prune_dead_wf].
  - eexists. split; [done|by apply try_prune_wf].
Qed.

Lemma bf_run_wf bf ops : bf_wf bf → ∃ bf', bf_run bf ops = Some bf' ∧ bf_wf bf'.
Proof.
  revert bf. induction ops as [|op ops IH]; intros bf Hwf; cbn; [by eexists|].
  destruct (bf_step_wf bf op Hwf) as (bf1 & -> & Hwf1). by apply IH.
Qed.

(** Dead subtrees stay dead.  After any sequence of insertions, root advances,
    markings and evictions the calls have returned and no live bank descends from a
    dead one.  Marking a bank then returns, leaves the banks alone, and makes dead
    exactly the bank and the banks that descend from it, counting each of those that
    were live once. *)
Theorem dead_subtrees root_bank ops :
  (∀ p, bank_parent_slot root_bank = Some p → p < bank_slot root_bank) →
  ∃ bf, bf_run (BankForks_new root_bank) ops = Some bf
    ∧ (∀ c p, descends bf c p → BankForks_is_dead bf p = true → BankForks_is_dead bf c = true)
    ∧ ∀ slot, is_Some (BankForks_get bf slot) →
        ∃ n bf', BankForks_mark_dead bf slot = Some (n, bf')
          ∧ bf_banks bf' = bf_banks bf
          ∧ size (bf_dead_slots bf') = (size (bf_dead_slots bf) + n)%nat
          ∧ ∀ c, BankForks_is_dead bf' c = true
                 ↔ BankForks_is_dead bf c = true ∨ descends bf c slot.
Proof.
  intros Hroot. destruct (bf_run_wf _ ops (bf_new_wf _ Hroot)) as (bf & -> & Hwf).
  exists bf. split_and!; [done| |].
  - unfold BankForks_is_dead. setoid_rewrite bool_decide_eq_true. intros c p Hd Hp.
    induction Hd as [|c q p Hcq _ IH]; [done|]. by eapply wf_closed; [..|apply IH].
  - intros slot Hs. destruct (mark_spec bf slot Hwf Hs) as (newly & bf' & Hm & Hwf' & Hb & _ & _ & Hn & Hd).
    exists (length newly), bf'. unfold BankForks_mark_dead, BankForks_is_dead.
    rewrite bool_decide_false by (by apply not_eq_None_Some). rewrite Hm. split_and!; [done..| |].
    + rewrite <- (size_list_to_set (C := gset Z) newly) by done. rewrite <- size_union by set_solver.
      f_equal. apply set_eq. intros c. rewrite elem_of_union, elem_of_list_to_set.
      destruct (Hd c) as [H1 ->]. destruct (decide (c ∈ bf_dead_slots bf)); tauto.
    + intros c. rewrite !bool_decide_eq_true. apply Hd.
Qed.

End forks.

(** A fork at genesis: 0 - 1 - 2 and 0 - 3. *)
Definition genesis_bank : Bank := mkBank 0 0 None Rooted.
Definition fork_ops : list bf_op :=
  [BfInsert (mkBank 1 1 (Some 0) Frozen); BfInsert (mkBank 2 2 (Some 1) Frozen);
   BfInsert (mkBank 3 3 (Some 0) Frozen)].

Lemma dead_subtrees_witness :
  ∃ bf n bf', @bf_run (elements_order Z) (BankForks_new genesis_bank) fork_ops = Some bf
    ∧ BankForks_mark_dead bf 1 = Some (n, bf') ∧ BankForks_is_dead bf' 2 = true
    ∧ BankForks_is_dead bf' 3 = false.
Proof.
  destruct (@dead_subtrees (elements_order Z) genesis_bank fork_ops) as (bf & Hrun & _ & Hm).
  { intros p Hp. discriminate Hp. }
  vm_compute in Hrun. injection Hrun as <-.
  destruct (Hm 1) as (n & bf' & Hmark & _ & _ & Hdead); [by eexists|].
  vm_compute in Hmark. injection Hmark as <- <-.
  do 3 eexists. split_and!; [reflexivity..| |reflexivity].
  apply Hdead. right. eapply rtc_l; [|reflexivity].
  exists (mkBank 2 2 (Some 1) Frozen). by split.
Defined.
