(* ===== verification/ForkChoice.v ===== *)
(** * Fork choice

    [karstflow-consensus/src/fork_choice.rs]: the tree of forks with the stake that
    votes for each subtree, the latest vote of every validator, and the choice of the
    heaviest fork, alone ([compute_best_fork], [select_heaviest_fork]) and under the
    lockouts of the tower ([select_fork]).

    Walks along parents or children need not end on a tree with a cycle: they carry
    fuel and return [None] when it runs out.  The fuel is the number of forks, so a walk
    that exhausts it visits a fork twice and does not end.  The order in which a
    [HashMap] is visited is the parameter [IterOrder]. *)
From stdpp Require Import base tactics list gmap sets sorting.
From Stdlib Require Import ZArith Lia.
From S2P Require Import Prelude Tower BankForks.
Local Open Scope Z_scope.

Record ForkInfo := mkForkInfo {
  fi_slot : Z;
  fi_parent : option Z;
  fi_stake_weight : Z;
  fi_confirmed : bool;
  fi_optimistically_confirmed : bool;
  fi_eqvoc : bool;
  fi_duplicate_confirmed : bool;
  fi_valid : bool;
}.

Definition ForkInfo_new (slot : Z) (parent : option Z) : ForkInfo :=
  {| fi_slot := slot;
     fi_parent := parent;
     fi_stake_weight := 0;
     fi_confirmed := false;
     fi_optimistically_confirmed := false;
     fi_eqvoc := false;
     fi_duplicate_confirmed := false;
     fi_valid := true |}.

Record ForkChoice := mkForkChoice {
  fc_forks : gmap Z ForkInfo;
  fc_total_stake : Z;
  fc_best_slot : option Z;
  fc_validator_latest_votes : gmap (list Z) (Z * Z);
}.

Definition ForkChoice_new (total_stake : Z) : ForkChoice :=
  {| fc_forks := ∅;
     fc_total_stake := total_stake;
     fc_best_slot := None;
     fc_validator_latest_votes := ∅ |}.

(** Assignments to one field. *)
Definition with_weight (f : ForkInfo) (w : Z) : ForkInfo :=
  mkForkInfo (fi_slot f) (fi_parent f) w (fi_confirmed f) (fi_optimistically_confirmed f)
    (fi_eqvoc f) (fi_duplicate_confirmed f) (fi_valid f).

Definition with_forks (fc : ForkChoice) (forks : gmap Z ForkInfo) : ForkChoice :=
  mkForkChoice forks (fc_total_stake fc) (fc_best_slot fc) (fc_validator_latest_votes fc).

Definition with_best (fc : ForkChoice) (best : option Z) : ForkChoice :=
  mkForkChoice (fc_forks fc) (fc_total_stake fc) best (fc_validator_latest_votes fc).

Definition with_votes (fc : ForkChoice) (votes : gmap (list Z) (Z * Z)) : ForkChoice :=
  mkForkChoice (fc_forks fc) (fc_total_stake fc) (fc_best_slot fc) votes.

(** [forks.get(&slot).map(|f| f.stake_weight).unwrap_or(0)] *)
Definition weight_of (fc : ForkChoice) (slot : Z) : Z :=
  match fc_forks fc !! slot with Some f => fi_stake_weight f | None => 0 end.

(** [forks.get(&slot).and_then(|f| f.parent)] *)
Definition parent_of (fc : ForkChoice) (slot : Z) : option Z :=
  match fc_forks fc !! slot with Some f => fi_parent f | None => None end.

(** [fork.stake_weight as f64 / self.total_stake as f64] *)
Definition stake_ratio (fc : ForkChoice) (f : ForkInfo) : f64 :=
  f64_div (f64_of_u64 (fi_stake_weight f)) (f64_of_u64 (fc_total_stake fc)).

Definition ForkChoice_add_fork (fc : ForkChoice) (slot : Z) (parent : option Z) : ForkChoice :=
  with_forks fc (<[slot := ForkInfo_new slot parent]> (fc_forks fc)).

(** The loop of [check_optimistic_confirmation]; it returns once the depth is
    [VOTE_THRESHOLD_DEPTH], so the recursion is on what is left of the depth. *)
Fixpoint optimistic_loop (rest : nat) (fc : ForkChoice) (current : option Z) : bool :=
  match current with
  | Some slot =>
      match fc_forks fc !! slot with
      | Some fork =>
          if f64_lt (stake_ratio fc fork) VOTE_THRESHOLD_SIZE then false
          else match rest with
               | O | S O => true
               | S rest => optimistic_loop rest fc (fi_parent fork)
               end
      | None => false
      end
  | None => false
  end.

Definition ForkChoice_check_optimistic_confirmation (fc : ForkChoice) (slot : Z) : bool :=
  optimistic_loop VOTE_THRESHOLD_DEPTH fc (Some slot).

Definition ForkChoice_update_confirmation (fc : ForkChoice) (slot : Z) : ForkChoice :=
  let is_optimistic := ForkChoice_check_optimistic_confirmation fc slot in
  match fc_forks fc !! slot with
  | Some f =>
      with_forks fc (<[slot :=
        mkForkInfo (fi_slot f) (fi_parent f) (fi_stake_weight f)
          (if f64_ge (stake_ratio fc f) VOTE_THRESHOLD_SIZE then true else fi_confirmed f)
          (if is_optimistic then true else fi_optimistically_confirmed f)
          (fi_eqvoc f) (fi_duplicate_confirmed f) (fi_valid f)]> (fc_forks fc))
  | None => fc
  end.

Definition ForkChoice_add_stake (fc : ForkChoice) (slot stake : Z) : ForkChoice :=
  match fc_forks fc !! slot with
  | Some f =>
      ForkChoice_update_confirmation
        (with_forks fc (<[slot := with_weight f (u64_saturating_add (fi_stake_weight f) stake)]> (fc_forks fc)))
        slot
  | None => fc
  end.

(** The loop of [is_descendant]. *)
Fixpoint is_descendant_loop (fuel : nat) (fc : ForkChoice) (current : option Z) (ancestor : Z) : option bool :=
  match current with
  | None => Some false
  | Some s =>
      if s =? ancestor then Some true
      else match fuel with
           | O => None
           | S fuel => is_descendant_loop fuel fc (parent_of fc s) ancestor
           end
  end.

Definition ForkChoice_is_descendant (fc : ForkChoice) (slot ancestor : Z) : option bool :=
  if slot =? ancestor then Some true
  else is_descendant_loop (S (size (fc_forks fc))) fc (Some slot) ancestor.

(** [add_stake_to_ancestry] and [subtract_stake_from_ancestry] differ in the update of
    the weight, [g]. *)
Fixpoint ancestry_loop (fuel : nat) (g : Z → Z) (forks : gmap Z ForkInfo) (current : option Z)
    : option (gmap Z ForkInfo) :=
  match current with
  | None => Some forks
  | Some s =>
      match forks !! s with
      | Some f =>
          match fuel with
          | O => None
          | S fuel => ancestry_loop fuel g (<[s := with_weight f (g (fi_stake_weight f))]> forks) (fi_parent f)
          end
      | None => Some forks
      end
  end.

Definition ForkChoice_add_stake_to_ancestry (fc : ForkChoice) (slot stake : Z) : option ForkChoice :=
  with_forks fc <$> ancestry_loop (size (fc_forks fc)) (λ w, u64_saturating_add w stake) (fc_forks fc) (Some slot).

Definition ForkChoice_subtract_stake_from_ancestry (fc : ForkChoice) (slot stake : Z) : option ForkChoice :=
  with_forks fc <$> ancestry_loop (size (fc_forks fc)) (λ w, u64_saturating_sub w stake) (fc_forks fc) (Some slot).

(** The end of [record_validator_vote]: add the new vote. *)
Definition add_vote (fc : ForkChoice) (validator : list Z) (slot stake : Z) : option ForkChoice :=
  fc ← ForkChoice_add_stake_to_ancestry fc slot stake;
  Some (ForkChoice_update_confirmation
          (with_votes fc (<[validator := (slot, stake)]> (fc_validator_latest_votes fc))) slot).

Definition ForkChoice_record_validator_vote (fc : ForkChoice) (validator : list Z) (slot stake : Z)
    : option ForkChoice :=
  match fc_validator_latest_votes fc !! validator with
  | Some (old_slot, old_stake) =>
      if old_slot =? slot then
        if negb (old_stake =? stake) then
          fc ← ForkChoice_subtract_stake_from_ancestry fc old_slot old_stake;
        add_vote fc validator slot stake
        else Some fc
      else
        fc ← ForkChoice_subtract_stake_from_ancestry fc old_slot old_stake;
        add_vote fc validator slot stake
  | None => add_vote fc validator slot stake
  end.

Definition ForkChoice_mark_equivocating (fc : ForkChoice) (slot : Z) : ForkChoice :=
  match fc_forks fc !! slot with
  | Some f =>
      with_forks fc (<[slot :=
        mkForkInfo (fi_slot f) (fi_parent f) (fi_stake_weight f) (fi_confirmed f)
          (fi_optimistically_confirmed f) true (fi_duplicate_confirmed f)
          (if negb (fi_duplicate_confirmed f) then false else fi_valid f)]> (fc_forks fc))
  | None => fc
  end.

Definition ForkChoice_mark_duplicate_confirmed (fc : ForkChoice) (slot : Z) : ForkChoice :=
  match fc_forks fc !! slot with
  | Some f =>
      with_forks fc (<[slot :=
        mkForkInfo (fi_slot f) (fi_parent f) (fi_stake_weight f) (fi_confirmed f)
          (fi_optimistically_confirmed f) (fi_eqvoc f) true true]> (fc_forks fc))
  | None => fc
  end.

Definition ForkChoice_can_switch_fork (fc : ForkChoice) (current candidate : Z) : bool :=
  let current_weight := weight_of fc current in
  let candidate_weight := weight_of fc candidate in
  if current_weight =? 0 then true
  else f64_ge (f64_div (f64_of_u64 candidate_weight) (f64_of_u64 current_weight))
              (f64_add (f64_of_u64 1) SWITCH_FORK_THRESHOLD).

Definition ForkChoice_set_root (fc : ForkChoice) (new_root : Z) : ForkChoice :=
  with_forks fc (filter (λ kv, new_root <= kv.1) (fc_forks fc)).

(** [Iterator::max_by]: the last of the greatest elements. *)
Definition max_by (cmp : Z → Z → comparison) (l : list Z) : option Z :=
  match l with
  | [] => None
  | x :: l => Some (foldl (λ x y, match cmp x y with Gt => x | _ => y end) x l)
  end.

(** [Iterator::max_by_key]: the last element of greatest key. *)
Definition max_by_key (key : Z → Z) (l : list Z) : option Z :=
  max_by (λ a b, key a ?= key b) l.

(** The comparison of [compute_best_fork]: by weight, then the lower slot is greater. *)
Definition ghost_cmp (fc : ForkChoice) (a b : Z) : comparison :=
  match weight_of fc a ?= weight_of fc b with
  | Eq => b ?= a
  | c => c
  end.

(** The loop of [select_heaviest_fork] over the children after the first. *)
Definition heaviest_child (fc : ForkChoice) (first : Z) (rest : list Z) : Z :=
  (foldl (λ '(best_child, best_weight) child,
            let weight := weight_of fc child in
            if (best_weight <? weight) || ((weight =? best_weight) && (child <? best_child))
            then (child, weight) else (best_child, best_weight))
         (first, weight_of fc first) rest).1.

Section choice.
Context `{!IterOrder Z}.

(** [forks.iter()] *)
Definition fork_slots (fc : ForkChoice) : list Z := iter_order (dom (fc_forks fc)).

(** [forks.iter().filter(|(_, fork)| fork.parent == Some(current))], as slots. *)
Definition children_of (fc : ForkChoice) (current : Z) : list Z :=
  filter (λ s, parent_of fc s = Some current) (fork_slots fc).

Definition is_valid (fc : ForkChoice) (slot : Z) : Prop := fi_valid <$> fc_forks fc !! slot = Some true.

#[global] Instance is_valid_dec fc slot : Decision (is_valid fc slot).
Proof. unfold is_valid. apply _. Defined.

Definition valid_children_of (fc : ForkChoice) (current : Z) : list Z :=
  filter (λ s, parent_of fc s = Some current ∧ is_valid fc s) (fork_slots fc).

Fixpoint best_fork_loop (fuel : nat) (fc : ForkChoice) (current : Z) : option Z :=
  match max_by (ghost_cmp fc) (valid_children_of fc current) with
  | None => Some current
  | Some best_child =>
      match fuel with
      | O => None
      | S fuel => best_fork_loop fuel fc best_child
      end
  end.

Definition ForkChoice_compute_best_fork (fc : ForkChoice) (root : Z) : option (Z * ForkChoice) :=
  best ← best_fork_loop (size (fc_forks fc)) fc root;
  Some (best, with_best fc (Some best)).

Fixpoint heaviest_fork_loop (fuel : nat) (fc : ForkChoice) (current : Z) : option Z :=
  match valid_children_of fc current with
  | [] => Some current
  | first :: rest =>
      match fuel with
      | O => None
      | S fuel => heaviest_fork_loop fuel fc (heaviest_child fc first rest)
      end
  end.

(** [None] inside: the root is not a known fork. *)
Definition ForkChoice_select_heaviest_fork (fc : ForkChoice) (root : Z) : option (option Z * ForkChoice) :=
  if bool_decide (fc_forks fc !! root = None) then Some (None, fc)
  else best ← heaviest_fork_loop (size (fc_forks fc)) fc root;
       Some (Some best, with_best fc (Some best)).

(** The loop of [get_heaviest_fork] over the forks. *)
Fixpoint heaviest_loop (fc : ForkChoice) (from_slot : Z) (slots : list Z) (best : Z * Z) : option (Z * Z) :=
  match slots with
  | [] => Some best
  | slot :: slots =>
      if slot <=? from_slot then heaviest_loop fc from_slot slots best
      else
        d ← ForkChoice_is_descendant fc slot from_slot;
        heaviest_loop fc from_slot slots
          (if d && (best.2 <? weight_of fc slot) then (slot, weight_of fc slot) else best)
  end.

Definition ForkChoice_get_heaviest_fork (fc : ForkChoice) (from_slot : Z) : option (option Z) :=
  match fc_forks fc !! from_slot with
  | None => Some None
  | Some f => best ← heaviest_loop fc from_slot (fork_slots fc) (from_slot, fi_stake_weight f); Some (Some best.1)
  end.

Definition ForkChoice_update_total_stake (fc : ForkChoice) (new_total_stake : Z) : ForkChoice :=
  let fc := mkForkChoice (fc_forks fc) new_total_stake (fc_best_slot fc) (fc_validator_latest_votes fc) in
  foldl ForkChoice_update_confirmation fc (fork_slots fc).

Definition ForkChoice_is_same_fork (bank_forks : BankForks) (slot_a slot_b : Z) : option bool :=
  if slot_a =? slot_b then Some true
  else a ← BankForks_is_ancestor bank_forks slot_a slot_b;
       if a : bool then Some true else BankForks_is_ancestor bank_forks slot_b slot_a.

(** The loop of [Tower::is_locked_out] with a test that may not end. *)
Fixpoint locked_out_loop (votes : list TowerVote) (slot : Z) (is_same_fork : Z → Z → option bool) : option bool :=
  match votes with
  | [] => Some false
  | vote :: votes =>
      if TowerVote_is_locked_out_at vote slot then
        same ← is_same_fork (tv_slot vote) slot;
        if negb same then Some true else locked_out_loop votes slot is_same_fork
      else locked_out_loop votes slot is_same_fork
  end.

Definition ForkChoice_is_locked_out_by_tower (slot : Z) (tower : Tower) (bank_forks : BankForks) : option bool :=
  if (match tower_root tower with Some root => slot <=? root | None => false end) then Some true
  else locked_out_loop (tower_votes tower) slot (ForkChoice_is_same_fork bank_forks).

(** The children that are valid and not locked out. *)
Fixpoint votable (fc : ForkChoice) (tower : Tower) (bank_forks : BankForks) (children : list Z) : option (list Z) :=
  match children with
  | [] => Some []
  | slot :: children =>
      locked ← (if decide (is_valid fc slot) then ForkChoice_is_locked_out_by_tower slot tower bank_forks
                else Some true);
      rest ← votable fc tower bank_forks children;
      Some (if locked : bool then rest else slot :: rest)
  end.

Fixpoint select_fork_loop (fuel : nat) (fc : ForkChoice) (bank_forks : BankForks) (tower : Tower) (current : Z)
    : option (option Z) :=
  match children_of fc current with
  | [] =>
      if default 0 (tower_root tower) <? current then
        locked ← ForkChoice_is_locked_out_by_tower current tower bank_forks;
        Some (if locked : bool then None else Some current)
      else Some None
  | children =>
      valid_children ← votable fc tower bank_forks children;
      match max_by_key (weight_of fc) valid_children with
      | None => Some None
      | Some best_child =>
          match fuel with
          | O => None
          | S fuel => select_fork_loop fuel fc bank_forks tower best_child
          end
      end
  end.

Definition ForkChoice_select_fork (fc : ForkChoice) (bank_forks : BankForks) (tower : Tower) : option (option Z) :=
  let root := default (bf_root_slot bank_forks) (tower_root tower) in
  if bool_decide (fc_forks fc !! root = None) then Some None
  else select_fork_loop (size (fc_forks fc)) fc bank_forks tower root.

Definition ForkChoice_should_switch_fork (fc : ForkChoice) (current_slot candidate_slot : Z)
    (bank_forks : BankForks) : option bool :=
  if current_slot =? candidate_slot then Some false
  else
    back ← BankForks_is_ancestor bank_forks candidate_slot current_slot;
    if back : bool then Some false
    else Some (ForkChoice_can_switch_fork fc current_slot candidate_slot).

(** The loop of [update_root]: the highest fork above the root that can be finalized. *)
Definition finalization_candidate (fc : ForkChoice) (current_root : Z) : option Z :=
  foldl (λ candidate slot,
           if slot <=? current_root then candidate
           else match fc_forks fc !! slot with
                | Some fork =>
                    if f64_lt (stake_ratio fc fork) VOTE_THRESHOLD_SIZE then candidate
                    else if negb (fi_optimistically_confirmed fork) then candidate
                    else Some (match candidate with Some c => Z.max c slot | None => slot end)
                | None => candidate
                end) None (fork_slots fc).

Definition ForkChoice_update_root (fc : ForkChoice) (bank_forks : BankForks) : option Z * ForkChoice * BankForks :=
  match finalization_candidate fc (bf_root_slot bank_forks) with
  | Some new_root =>
      match BankForks_set_root bank_forks new_root with
      | (Ok _, bank_forks') => (Some new_root, ForkChoice_set_root fc new_root, bank_forks')
      | (Err _, bank_forks') => (None, fc, bank_forks')
      end
  | None => (None, fc, bank_forks)
  end.

Definition ForkChoice_get_fork_tips (fc : ForkChoice) : list Z :=
  filter (λ slot, children_of fc slot = []) (fork_slots fc).

(** The loop of [get_fork_path], newest slot first. *)
Fixpoint fork_path_loop (fuel : nat) (fc : ForkChoice) (current : Z) : option (list Z) :=
  match parent_of fc current with
  | Some parent =>
      match fuel with
      | O => None
      | S fuel => rest ← fork_path_loop fuel fc parent; Some (parent :: rest)
      end
  | None => Some []
  end.

Definition ForkChoice_get_fork_path (fc : ForkChoice) (slot : Z) : option (list Z) :=
  path ← fork_path_loop (size (fc_forks fc)) fc slot; Some (reverse (slot :: path)).

(** [subtree_weight], with [fuel] levels of recursion; [sum] wraps around. *)
Fixpoint subtree_weight (fuel : nat) (fc : ForkChoice) (slot : Z) : option Z :=
  match fuel with
  | O => None
  | S fuel =>
      weights ← mapM (subtree_weight fuel fc) (children_of fc slot);
      Some (u64_saturating_add (weight_of fc slot) (foldl u64_add 0 weights))
  end.

Definition ForkChoice_subtree_weight (fc : ForkChoice) (slot : Z) : option Z :=
  subtree_weight (S (size (fc_forks fc))) fc slot.

Definition ForkChoice_compute_supermajority_root (fc : ForkChoice) (current_root : option Z) : option Z :=
  if fc_total_stake fc =? 0 then current_root
  else
    foldl (λ candidate slot,
             if (match current_root with Some root => slot <=? root | None => false end) then candidate
             else match fc_forks fc !! slot with
                  | Some fork =>
                      if f64_ge (stake_ratio fc fork) SUPERMAJORITY_THRESHOLD
                      then Some (match candidate with Some c => Z.max c slot | None => slot end)
                      else candidate
                  | None => candidate
                  end) current_root (fork_slots fc).

(** The filter of [prune_non_descendants]. *)
Fixpoint slots_to_keep (fc : ForkChoice) (new_root : Z) (slots : list Z) : option (list Z) :=
  match slots with
  | [] => Some []
  | slot :: slots =>
      keep ← (if slot =? new_root then Some true else ForkChoice_is_descendant fc slot new_root);
      rest ← slots_to_keep fc new_root slots;
      Some (if keep : bool then slot :: rest else rest)
  end.

Definition ForkChoice_prune_non_descendants (fc : ForkChoice) (new_root : Z) : option ForkChoice :=
  keep ← slots_to_keep fc new_root (fork_slots fc);
  let forks := filter (λ kv, kv.1 ∈ keep) (fc_forks fc) in
  Some (mkForkChoice forks (fc_total_stake fc) (fc_best_slot fc)
          (filter (λ kv, is_Some (forks !! kv.2.1)) (fc_validator_latest_votes fc))).

Fixpoint invalid_ancestor_loop (fuel : nat) (fc : ForkChoice) (current : option Z) : option (option Z) :=
  match current with
  | None => Some None
  | Some s =>
      match fc_forks fc !! s with
      | Some fork =>
          if negb (fi_valid fork) then Some (Some s)
          else match fuel with
               | O => None
               | S fuel => invalid_ancestor_loop fuel fc (fi_parent fork)
               end
      | None => Some None
      end
  end.

Definition ForkChoice_invalid_ancestor (fc : ForkChoice) (slot : Z) : option (option Z) :=
  invalid_ancestor_loop (size (fc_forks fc)) fc (parent_of fc slot).

Fixpoint deepest_loop (fuel : nat) (fc : ForkChoice) (queue : list Z) (last : Z) : option Z :=
  match queue with
  | [] => Some last
  | current :: queue =>
      match fuel with
      | O => None
      | S fuel => deepest_loop fuel fc (queue ++ children_of fc current) current
      end
  end.

Definition ForkChoice_deepest_fork (fc : ForkChoice) (root : Z) : option (option Z) :=
  if bool_decide (fc_forks fc !! root = None) then Some None
  else last ← deepest_loop (S (size (fc_forks fc))) fc [root] root; Some (Some last).

Record ForkChoiceStats := mkForkChoiceStats {
  st_total_forks : nat;
  st_confirmed_forks : nat;
  st_optimistically_confirmed_forks : nat;
  st_fork_tips_count : nat;
  st_total_stake : Z;
  st_max_fork_stake : Z;
  st_best_slot : option Z;
}.

Definition ForkChoice_stats (fc : ForkChoice) : ForkChoiceStats :=
  let count (p : ForkInfo → bool) := size (filter (λ kv, p kv.2 = true) (fc_forks fc)) in
  {| st_total_forks := size (fc_forks fc);
     st_confirmed_forks := count fi_confirmed;
     st_optimistically_confirmed_forks := count fi_optimistically_confirmed;
     st_fork_tips_count := length (ForkChoice_get_fork_tips fc);
     st_total_stake := fc_total_stake fc;
     st_max_fork_stake := foldl Z.max 0 (weight_of fc <$> fork_slots fc);
     st_best_slot := fc_best_slot fc |}.

(** ** The tree *)

(** Parents are below their children, and are forks or below [floor]. *)
Definition fc_tree (floor : Z) (fc : ForkChoice) : Prop :=
  ∀ s f, fc_forks fc !! s = Some f →
    floor <= s ∧ ∀ p, fi_parent f = Some p → p < s ∧ (is_Some (fc_forks fc !! p) ∨ p < floor).

(** [x] is [s] or descends from it. *)
Definition fork_descends (fc : ForkChoice) : Z → Z → Prop := rtc (λ c p, parent_of fc c = Some p).

Lemma fc_tree_parent floor fc s p :
  fc_tree floor fc → parent_of fc s = Some p →
  p < s ∧ floor <= s ∧ is_Some (fc_forks fc !! s) ∧ (is_Some (fc_forks fc !! p) ∨ p < floor).
Proof.
  unfold parent_of. intros Ht Hp. destruct (fc_forks fc !! s) as [f|] eqn:Hf; [|done].
  destruct (Ht s f Hf) as [? H]. naive_solver.
Qed.

Lemma fork_descends_inv fc s a :
  fork_descends fc s a ↔ s = a ∨ ∃ p, parent_of fc s = Some p ∧ fork_descends fc p a.
Proof.
  split.
  - intros [->|(p & ? & ?)]%rtc_inv; [by left|]. right. by exists p.
  - intros [->|(p & ? & ?)]; [done|]. by eapply rtc_l.
Qed.

Lemma is_descendant_loop_spec floor fc fuel s a :
  fc_tree floor fc → (below (fc_forks fc) s <= fuel)%nat →
  ∃ b, is_descendant_loop (S fuel) fc (Some s) a = Some b ∧ (b = true ↔ fork_descends fc s a).
Proof.
  intros Ht. revert s. induction fuel as [|fuel IH]; intros s Hf; cbn [is_descendant_loop];
    pose proof (fork_descends_inv fc s a) as Hinv;
    (destruct (Z.eqb_spec s a) as [->|Hne]; [by exists true|]);
    (destruct (parent_of fc s) as [p|] eqn:Hp; [|exists false; by naive_solver]);
    destruct (fc_tree_parent floor fc s p Ht Hp) as (Hlt & _ & Hs & _);
    pose proof (below_step (fc_forks fc) s p Hs Hlt); [lia|].
  destruct (IH p ltac:(lia)) as (b & Hb & Hd). exists b. split; [exact Hb|]. naive_solver.
Qed.

Lemma is_descendant_spec floor fc s a :
  fc_tree floor fc →
  ∃ b, ForkChoice_is_descendant fc s a = Some b ∧ (b = true ↔ fork_descends fc s a).
Proof.
  intros Ht. unfold ForkChoice_is_descendant. destruct (Z.eqb_spec s a) as [->|]; [by exists true|].
  eapply is_descendant_loop_spec; [done|]. apply below_le_size.
Qed.

Lemma is_descendant_true floor fc s a :
  fc_tree floor fc → ForkChoice_is_descendant fc s a = Some true ↔ fork_descends fc s a.
Proof. intros Ht. destruct (is_descendant_spec floor fc s a Ht) as (b & -> & <-). naive_solver. Qed.

Lemma fork_descends_le floor fc s a : fc_tree floor fc → fork_descends fc s a → a <= s.
Proof.
  intros Ht. induction 1 as [|s p a Hp _ IH]; [done|].
  destruct (fc_tree_parent floor fc s p Ht Hp). lia.
Qed.

(** The parents, and with them the shape of the tree, are the same. *)
Definition same_parents (fc fc' : ForkChoice) : Prop :=
  ∀ s, fi_parent <$> fc_forks fc !! s = fi_parent <$> fc_forks fc' !! s.

Lemma same_parents_of fc fc' s : same_parents fc fc' → parent_of fc s = parent_of fc' s.
Proof.
  intros H. specialize (H s). unfold parent_of.
  destruct (fc_forks fc !! s), (fc_forks fc' !! s); naive_solver.
Qed.

Lemma same_parents_known fc fc' s :
  same_parents fc fc' → is_Some (fc_forks fc !! s) ↔ is_Some (fc_forks fc' !! s).
Proof. intros H. by rewrite <- !(fmap_is_Some fi_parent), H. Qed.

Lemma same_parents_tree floor fc fc' : same_parents fc fc' → fc_tree floor fc → fc_tree floor fc'.
Proof.
  intros H Ht s f' Hf'. pose proof (H s) as Hs. rewrite Hf' in Hs. cbn in Hs.
  destruct (fc_forks fc !! s) as [f|] eqn:Hf; [|done]. injection Hs as Hs.
  destruct (Ht s f Hf) as [? Hp]. split; [done|]. intros p. rewrite <- Hs. intros ?%Hp.
  by rewrite <- (same_parents_known fc fc').
Qed.

Lemma same_parents_descends fc fc' s a :
  same_parents fc fc' → fork_descends fc s a → fork_descends fc' s a.
Proof.
  intros H. induction 1 as [|c p a Hp _ IH]; [done|]. eapply rtc_l; [|exact IH].
  by rewrite <- (same_parents_of fc fc').
Qed.

Lemma same_parents_descends_iff fc fc' s a :
  same_parents fc fc' → fork_descends fc s a ↔ fork_descends fc' s a.
Proof. intros H. split; apply same_parents_descends; [done|]. intros x. symmetry. apply H. Qed.

(** ** Votes *)

(** The stake of a set of votes. *)
Definition total_of (votes : gmap (list Z) (Z * Z)) : Z := map_fold (λ _ v a, v.2 + a) 0 votes.

(** The votes for a slot or one of its descendants. *)
Definition votes_for (fc : ForkChoice) (votes : gmap (list Z) (Z * Z)) (s : Z) : gmap (list Z) (Z * Z) :=
  filter (λ kv, ForkChoice_is_descendant fc kv.2.1 s = Some true) votes.

Lemma total_of_insert votes k v : votes !! k = None → total_of (<[k := v]> votes) = v.2 + total_of votes.
Proof. intros. unfold total_of. rewrite map_fold_insert_L; [done|intros; lia|done]. Qed.

Lemma total_of_delete votes k v : votes !! k = Some v → total_of votes = v.2 + total_of (delete k votes).
Proof.
  intros Hk. rewrite <- (insert_delete_id votes k v Hk) at 1. apply total_of_insert, lookup_delete_eq.
Qed.

Lemma total_of_nonneg votes : map_Forall (λ _ v, 0 <= v.2) votes → 0 <= total_of votes.
Proof.
  induction votes as [|k v votes Hk IH] using map_ind; intros H; [done|].
  apply map_Forall_insert in H as [? ?]; [|done]. rewrite total_of_insert by done. specialize (IH H0). lia.
Qed.

Lemma total_of_filter (P : list Z * (Z * Z) → Prop) `{∀ x, Decision (P x)} votes :
  map_Forall (λ _ v, 0 <= v.2) votes → total_of (filter P votes) <= total_of votes.
Proof.
  induction votes as [|k v votes Hk IH] using map_ind; intros Hall; [done|].
  apply map_Forall_insert in Hall as [Hv Hall]; [|done]. specialize (IH Hall).
  rewrite map_filter_insert, (total_of_insert votes) by done. case_decide.
  - rewrite total_of_insert; [lia|]. apply map_lookup_filter_None. by left.
  - rewrite delete_id by done. lia.
Qed.

(** Stake that [add_stake] gave to the forks: all of it, and that of one fork. *)
Definition direct_total (direct : list (Z * Z)) : Z := foldr (λ x n, x.2 + n) 0 direct.
Definition direct_to (direct : list (Z * Z)) (s : Z) : Z := direct_total (filter (λ x, x.1 = s) direct).

Lemma direct_to_cons x direct s : direct_to (x :: direct) s = (if decide (x.1 = s) then x.2 else 0) + direct_to direct s.
Proof. unfold direct_to. rewrite filter_cons. by case_decide. Qed.

Lemma direct_bounds direct s : Forall (λ x, 0 <= x.2) direct → 0 <= direct_to direct s <= direct_total direct.
Proof.
  induction 1 as [|x direct Hx _ IH]; [done|]. rewrite direct_to_cons. unfold direct_total in *. cbn. case_decide; lia.
Qed.

(** What is left when a fork is added anew. *)
Definition direct_forget (s : Z) (direct : list (Z * Z)) : list (Z * Z) := filter (λ x, x.1 ≠ s) direct.
Lemma direct_to_forget direct s x : direct_to (direct_forget s direct) x = if decide (x = s) then 0 else direct_to direct x.
Proof.
  induction direct as [|y direct IH]; [by case_decide|]. rewrite (direct_to_cons y direct).
  unfold direct_forget. rewrite filter_cons. fold (direct_forget s direct).
  destruct (decide (y.1 ≠ s)); rewrite ?direct_to_cons, IH; repeat case_decide; naive_solver lia.
Qed.
Lemma direct_total_forget direct s : Forall (λ x, 0 <= x.2) direct →
  Forall (λ x, 0 <= x.2) (direct_forget s direct) ∧ direct_total (direct_forget s direct) <= direct_total direct.
Proof.
  unfold direct_forget, direct_total.
  induction 1 as [|x direct Hx _ [IH1 IH2]]; [done|]. rewrite filter_cons. case_decide; cbn; split; try lia; try done. by constructor.
Qed.

(** The weights of the forks are what the votes give them, and what was added directly. *)
Definition weights_are (direct : list (Z * Z)) (fc : ForkChoice) (votes : gmap (list Z) (Z * Z)) : Prop :=
  ∀ s f, fc_forks fc !! s = Some f → fi_stake_weight f = total_of (votes_for fc votes s) + direct_to direct s.

Lemma votes_for_ext floor fc fc' votes s :
  fc_tree floor fc → same_parents fc fc' → votes_for fc' votes s = votes_for fc votes s.
Proof.
  intros Ht H. apply map_filter_ext. intros k v _.
  rewrite (is_descendant_true floor fc), (is_descendant_true floor fc'); [|by eapply same_parents_tree|done].
  symmetry. by apply same_parents_descends_iff.
Qed.

Lemma votes_for_insert fc votes k x st s :
  votes !! k = None →
  total_of (votes_for fc (<[k := (x, st)]> votes) s)
  = (if decide (ForkChoice_is_descendant fc x s = Some true) then st else 0) + total_of (votes_for fc votes s).
Proof.
  intros Hk. unfold votes_for. rewrite map_filter_insert. cbn. case_decide.
  - rewrite total_of_insert; [done|]. apply map_lookup_filter_None. by left.
  - rewrite delete_id by done. lia.
Qed.

Lemma parent_with_weight fc forks x f w :
  same_parents fc (with_forks fc forks) → forks !! x = Some f →
  same_parents fc (with_forks fc (<[x := with_weight f w]> forks)).
Proof.
  intros H Hx s. rewrite (H s). cbn. destruct (decide (s = x)) as [->|].
  - by rewrite lookup_insert_eq, Hx.
  - by rewrite lookup_insert_ne.
Qed.

(** Walking up from [x] updates the weight of exactly the forks that [x] descends from. *)
Lemma ancestry_loop_spec floor fc g fuel forks x :
  fc_tree floor fc → same_parents fc (with_forks fc forks) →
  (below (fc_forks fc) x <= fuel)%nat →
  ∃ forks', ancestry_loop fuel g forks (Some x) = Some forks'
    ∧ same_parents fc (with_forks fc forks')
    ∧ ∀ s, (fork_descends fc x s →
              forks' !! s = (λ f, with_weight f (g (fi_stake_weight f))) <$> forks !! s)
           ∧ (¬ fork_descends fc x s → forks' !! s = forks !! s).
Proof.
  intros Ht. revert forks x. induction fuel as [|fuel IH]; intros forks x Hsame Hf;
    cbn [ancestry_loop]; pose proof (same_parents_of _ _ x Hsame) as Hpx; unfold parent_of at 2 in Hpx;
    cbn in Hpx; (destruct (forks !! x) as [f|] eqn:Hx;
      [|exists forks; split_and!; [done..|]; intros s; split; [|done];
        intros [->|(p & Hp & _)]%fork_descends_inv; [by rewrite Hx|congruence]]).
  { destruct (below_step (fc_forks fc) x (x - 1)); [|lia..].
    rewrite (same_parents_known _ _ x Hsame). cbn. by rewrite Hx. }
  pose proof (parent_with_weight fc forks x f (g (fi_stake_weight f)) Hsame Hx) as Hsame1.
  destruct (fi_parent f) as [p|].
  - destruct (fc_tree_parent floor fc x p Ht Hpx) as (Hlt & _ & Hk & _).
    pose proof (below_step (fc_forks fc) x p Hk Hlt).
    destruct (IH _ p Hsame1) as (forks' & Hl & Hs' & Hd); [lia|].
    exists forks'. split_and!; [done..|]. intros s. rewrite fork_descends_inv.
    destruct (Hd s) as [Hd1 Hd2]. destruct (decide (s = x)) as [->|Hne].
    + rewrite Hd2, lookup_insert_eq, Hx by (intros ?%(fork_descends_le floor); [lia|done]).
      split; [done|]. intros Hn. contradict Hn. by left.
    + rewrite lookup_insert_ne in Hd1, Hd2 by done. naive_solver.
  - exists (<[x := with_weight f (g (fi_stake_weight f))]> forks). split_and!; [by destruct fuel|done|].
    intros s. rewrite fork_descends_inv. destruct (decide (s = x)) as [->|Hne].
    + rewrite lookup_insert_eq, Hx. split; [done|]. intros Hn. contradict Hn. by left.
    + rewrite lookup_insert_ne by done. split; [intros [|(? & ? & ?)]; congruence|done].
Qed.

Lemma ancestry_spec floor fc g x :
  fc_tree floor fc →
  ∃ fc', with_forks fc <$> ancestry_loop (size (fc_forks fc)) g (fc_forks fc) (Some x) = Some fc'
    ∧ same_parents fc fc' ∧ fc_validator_latest_votes fc' = fc_validator_latest_votes fc
    ∧ ∀ s f', fc_forks fc' !! s = Some f' → ∃ f, fc_forks fc !! s = Some f
        ∧ fi_stake_weight f' = if decide (ForkChoice_is_descendant fc x s = Some true)
                               then g (fi_stake_weight f) else fi_stake_weight f.
Proof.
  intros Ht. destruct (ancestry_loop_spec floor fc g (size (fc_forks fc)) (fc_forks fc) x)
    as (forks' & -> & Hs & Hd); [done|done|apply below_le_size|].
  exists (with_forks fc forks'). split_and!; [done..|]. intros s f' Hf'. cbn in Hf'.
  destruct (Hd s) as [Hd1 Hd2]. case_decide as E; rewrite (is_descendant_true floor) in E by done.
  - rewrite Hd1 in Hf' by done. apply fmap_Some in Hf' as (f & ? & ->). by exists f.
  - rewrite Hd2 in Hf' by done. by exists f'.
Qed.

Lemma add_stake_spec floor direct fc k x st votes :
  fc_tree floor fc → weights_are direct fc votes → Forall (λ x, 0 <= x.2) direct → votes !! k = None →
  map_Forall (λ _ v, 0 <= v.2) votes → 0 <= st → total_of votes + direct_total direct + st <= u64_max →
  ∃ fc', ForkChoice_add_stake_to_ancestry fc x st = Some fc'
    ∧ same_parents fc fc' ∧ fc_validator_latest_votes fc' = fc_validator_latest_votes fc
    ∧ weights_are direct fc' (<[k := (x, st)]> votes).
Proof.
  intros Ht Hw Hdir Hk Hnn Hst Hmax. unfold ForkChoice_add_stake_to_ancestry.
  destruct (ancestry_spec floor fc (λ w, u64_saturating_add w st) x Ht) as (fc' & -> & Hs & Hv & Hd).
  exists fc'. split_and!; [done..|]. intros s f' Hf'. destruct (Hd s f' Hf') as (f & Hf & ->).
  rewrite (votes_for_ext floor fc fc'), votes_for_insert, (Hw s f) by done.
  pose proof (total_of_filter (λ kv, ForkChoice_is_descendant fc kv.2.1 s = Some true) votes Hnn).
  pose proof (direct_bounds direct s Hdir). unfold u64_saturating_add. case_decide; [|lia]. rewrite Z.min_l; [lia|]. unfold votes_for. lia.
Qed.

Lemma subtract_stake_spec floor direct fc k x st votes :
  fc_tree floor fc → weights_are direct fc votes → Forall (λ x, 0 <= x.2) direct → votes !! k = Some (x, st) →
  map_Forall (λ _ v, 0 <= v.2) votes →
  ∃ fc', ForkChoice_subtract_stake_from_ancestry fc x st = Some fc'
    ∧ same_parents fc fc' ∧ fc_validator_latest_votes fc' = fc_validator_latest_votes fc
    ∧ weights_are direct fc' (delete k votes).
Proof.
  intros Ht Hw Hdir Hk Hnn. unfold ForkChoice_subtract_stake_from_ancestry.
  destruct (ancestry_spec floor fc (λ w, u64_saturating_sub w st) x Ht) as (fc' & -> & Hs & Hv & Hd).
  exists fc'. split_and!; [done..|]. intros s f' Hf'. destruct (Hd s f' Hf') as (f & Hf & ->).
  rewrite (votes_for_ext floor fc fc'), (Hw s f) by done.
  pose proof (votes_for_insert fc (delete k votes) k x st s (lookup_delete_eq _ _)) as Hi.
  rewrite insert_delete_id in Hi by done. rewrite Hi.
  assert (0 <= total_of (votes_for fc (delete k votes) s)).
  { apply total_of_nonneg. intros j v [[_ Hj]%lookup_delete_Some _]%map_lookup_filter_Some. by apply (Hnn j). }
  pose proof (direct_bounds direct s Hdir). unfold u64_saturating_sub. case_decide; lia.
Qed.

(** ** The invariant *)

Record fc_ok (floor : Z) (direct : list (Z * Z)) (fc : ForkChoice) : Prop := {
  ok_tree : fc_tree floor fc;
  ok_votes : map_Forall (λ _ v, (is_Some (fc_forks fc !! v.1) ∨ v.1 < floor) ∧ 0 <= v.2)
               (fc_validator_latest_votes fc);
  ok_direct : Forall (λ x, 0 <= x.2) direct;
  ok_total : total_of (fc_validator_latest_votes fc) + direct_total direct <= u64_max;
  ok_weights : weights_are direct fc (fc_validator_latest_votes fc);
}.

Lemma ok_stakes floor direct fc : fc_ok floor direct fc → map_Forall (λ _ v, 0 <= v.2) (fc_validator_latest_votes fc).
Proof. intros Hok. eapply map_Forall_impl; [apply (ok_votes floor direct fc Hok)|]. naive_solver. Qed.

(** The operations that leave parents, weights and votes alone. *)
Definition same_forks (fc fc' : ForkChoice) : Prop :=
  ∀ s, (λ f, (fi_parent f, fi_stake_weight f)) <$> fc_forks fc !! s
       = (λ f, (fi_parent f, fi_stake_weight f)) <$> fc_forks fc' !! s.

Definition same_weights (fc fc' : ForkChoice) : Prop :=
  fc_validator_latest_votes fc' = fc_validator_latest_votes fc ∧ same_forks fc fc'.

Lemma same_forks_parents fc fc' : same_forks fc fc' → same_parents fc fc'.
Proof.
  intros H s. specialize (H s). destruct (fc_forks fc !! s), (fc_forks fc' !! s); cbn in *; congruence.
Qed.

Lemma weights_same floor direct fc fc' votes :
  fc_tree floor fc → same_forks fc fc' → weights_are direct fc votes → weights_are direct fc' votes.
Proof.
  intros Ht Hs Hw s f' Hf'. rewrite (votes_for_ext floor fc) by (done || by apply same_forks_parents).
  specialize (Hs s). rewrite Hf' in Hs. cbn in Hs.
  destruct (fc_forks fc !! s) as [f|] eqn:Hf; [|done]. cbn in Hs. injection Hs as _ <-. by apply Hw.
Qed.

Lemma same_weights_ok floor direct fc fc' : same_weights fc fc' → fc_ok floor direct fc → fc_ok floor direct fc'.
Proof.
  intros [Hvotes Hs] [Ht Hv Hd Hm Hw]. pose proof (same_forks_parents _ _ Hs) as Hp. split.
  - by eapply same_parents_tree.
  - rewrite Hvotes. eapply map_Forall_impl; [exact Hv|]. cbn. intros k v.
    by rewrite (same_parents_known fc fc').
  - done.
  - by rewrite Hvotes.
  - rewrite Hvotes. by eapply weights_same.
Qed.

(** Rewriting one fork with its parent and weight kept. *)
Lemma same_weights_insert fc s f f' :
  fc_forks fc !! s = Some f → fi_parent f' = fi_parent f → fi_stake_weight f' = fi_stake_weight f →
  same_weights fc (with_forks fc (<[s := f']> (fc_forks fc))).
Proof.
  intros Hf Hp Hw. split; [done|]. intros x. cbn. destruct (decide (x = s)) as [->|].
  - by rewrite lookup_insert_eq, Hf; cbn; rewrite Hp, Hw.
  - by rewrite lookup_insert_ne.
Qed.

Lemma same_weights_refl fc : same_weights fc fc.
Proof. done. Qed.

Lemma update_confirmation_same fc s : same_weights fc (ForkChoice_update_confirmation fc s).
Proof.
  unfold ForkChoice_update_confirmation. destruct (fc_forks fc !! s) eqn:E; [|done].
  by eapply same_weights_insert.
Qed.

Lemma mark_equivocating_same fc s : same_weights fc (ForkChoice_mark_equivocating fc s).
Proof.
  unfold ForkChoice_mark_equivocating. destruct (fc_forks fc !! s) eqn:E; [|done].
  by eapply same_weights_insert.
Qed.

Lemma mark_duplicate_confirmed_same fc s : same_weights fc (ForkChoice_mark_duplicate_confirmed fc s).
Proof.
  unfold ForkChoice_mark_duplicate_confirmed. destruct (fc_forks fc !! s) eqn:E; [|done].
  by eapply same_weights_insert.
Qed.

Lemma same_weights_trans fc1 fc2 fc3 : same_weights fc1 fc2 → same_weights fc2 fc3 → same_weights fc1 fc3.
Proof. intros [H1 H1'] [H2 H2']. split; [congruence|]. intros s. by rewrite H1'. Qed.

Lemma update_total_stake_same fc t : same_weights fc (ForkChoice_update_total_stake fc t).
Proof.
  unfold ForkChoice_update_total_stake. set (fc1 := mkForkChoice _ _ _ _).
  assert (Hs : same_weights fc fc1) by done. revert Hs. generalize (fork_slots fc1) as slots.
  intros slots. generalize fc1. clear fc1. induction slots as [|s slots IH]; intros fc1 Hs; cbn; [done|].
  apply IH. eapply same_weights_trans; [exact Hs|apply update_confirmation_same].
Qed.

Lemma add_vote_ok floor direct fc k x st :
  let votes := fc_validator_latest_votes fc in
  fc_tree floor fc →
  map_Forall (λ _ v, (is_Some (fc_forks fc !! v.1) ∨ v.1 < floor) ∧ 0 <= v.2) votes →
  weights_are direct fc (delete k votes) → Forall (λ x, 0 <= x.2) direct → is_Some (fc_forks fc !! x) → 0 <= st →
  total_of (delete k votes) + direct_total direct + st <= u64_max →
  ∃ fc', add_vote fc k x st = Some fc' ∧ fc_ok floor direct fc'
    ∧ fc_validator_latest_votes fc' = <[k := (x, st)]> votes.
Proof.
  intros votes Ht Hv Hw Hdir Hx Hst Hmax. unfold add_vote.
  destruct (add_stake_spec floor direct fc k x st (delete k votes)) as (fc1 & -> & Hs & Hv1 & Hw1);
    [done|done|done|apply lookup_delete_eq| |done|done|].
  { apply map_Forall_delete. eapply map_Forall_impl; [exact Hv|]. naive_solver. }
  rewrite insert_delete_eq in Hw1. fold votes in Hv1. set (fc2 := with_votes fc1 (<[k := (x, st)]> (fc_validator_latest_votes fc1))).
  eexists. split; [done|]. pose proof (update_confirmation_same fc2 x) as Hsame. split.
  - apply (same_weights_ok floor direct fc2); [done|]. unfold fc2. rewrite Hv1. split; cbn.
    + by apply (same_parents_tree floor fc).
    + apply map_Forall_insert_2; [split; [left; by rewrite <- (same_parents_known fc fc1)|done]|].
      eapply map_Forall_impl; [exact Hv|]. cbn. intros j v. by rewrite (same_parents_known fc fc1).
    + done.
    + rewrite <- insert_delete_eq, total_of_insert by apply lookup_delete_eq. cbn. lia.
    + apply (weights_same floor direct fc1); [by apply (same_parents_tree floor fc)|done|done].
  - etrans; [apply (proj1 Hsame)|]. cbn. by rewrite Hv1.
Qed.

Lemma record_vote_ok floor direct fc k x st :
  let votes := fc_validator_latest_votes fc in
  fc_ok floor direct fc → is_Some (fc_forks fc !! x) → 0 <= st →
  total_of (delete k votes) + direct_total direct + st <= u64_max →
  ∃ fc', ForkChoice_record_validator_vote fc k x st = Some fc' ∧ fc_ok floor direct fc'
    ∧ fc_validator_latest_votes fc' = <[k := (x, st)]> votes.
Proof.
  intros votes Hok Hx Hst Hmax. pose proof Hok as [Ht Hv Hdir Hm Hw].
  unfold ForkChoice_record_validator_vote. fold votes in Hv, Hm, Hw |- *.
  destruct (votes !! k) as [[old_slot old_stake]|] eqn:Hk.
  - assert (Hadd : ∃ fc', (fc ← ForkChoice_subtract_stake_from_ancestry fc old_slot old_stake; add_vote fc k x st)
                          = Some fc' ∧ fc_ok floor direct fc' ∧ fc_validator_latest_votes fc' = <[k := (x, st)]> votes).
    { destruct (subtract_stake_spec floor direct fc k old_slot old_stake votes) as (fc1 & -> & Hs & Hv1 & Hw1);
        [done..|by eapply ok_stakes|].
      destruct (add_vote_ok floor direct fc1 k x st) as (fc' & ? & ? & Hv'); rewrite ?Hv1; fold votes; try done.
      - by eapply same_parents_tree.
      - eapply map_Forall_impl; [exact Hv|]. cbn. intros j v. by rewrite (same_parents_known fc fc1).
      - by rewrite <- (same_parents_known fc fc1).
      - exists fc'. rewrite Hv', Hv1. done. }
    destruct (Z.eqb_spec old_slot x) as [->|]; [|done]. destruct (Z.eqb_spec old_stake st) as [->|]; [|done].
    cbn. exists fc. split_and!; [done..|]. fold votes. by rewrite insert_id.
  - apply add_vote_ok; fold votes; try done. by rewrite delete_id.
Qed.

(** A new fork changes the ancestry of no fork known before, or below [floor]. *)
Lemma add_fork_descends floor fc s parent x y :
  fc_tree floor fc → floor <= s → fc_forks fc !! s = None →
  is_Some (fc_forks fc !! x) ∨ x < floor →
  fork_descends (ForkChoice_add_fork fc s parent) x y ↔ fork_descends fc x y ∧ y ≠ s.
Proof.
  intros Ht Hfl Hnew. set (fc' := ForkChoice_add_fork fc s parent).
  assert (Hpo : ∀ x, x ≠ s → parent_of fc' x = parent_of fc x).
  { intros z Hz. unfold parent_of. cbn. by rewrite lookup_insert_ne. }
  assert (Hne : ∀ z, is_Some (fc_forks fc !! z) ∨ z < floor → z ≠ s).
  { intros z Hz ->. destruct Hz as [[? ?]|?]; [congruence|lia]. }
  intros Hk. split.
  - intros Hr. revert Hk. induction Hr as [x|x p y Hp _ IH]; intros Hk; [split; [done|by apply Hne]|].
    rewrite Hpo in Hp by by apply Hne. destruct (fc_tree_parent floor fc x p Ht Hp) as (_ & _ & _ & Hkp).
    destruct (IH Hkp). split; [by eapply rtc_l|done].
  - intros [Hr Hy]. revert Hk Hy. induction Hr as [x|x p y Hp _ IH]; intros Hk Hy; [done|].
    destruct (fc_tree_parent floor fc x p Ht Hp) as (_ & _ & _ & Hkp).
    eapply rtc_l; [rewrite Hpo; [done|by apply Hne]|by apply IH].
Qed.

Lemma add_fork_tree floor fc s parent :
  fc_tree floor fc → floor <= s →
  (∀ p, parent = Some p → p < s ∧ (is_Some (fc_forks fc !! p) ∨ p < floor)) →
  fc_tree floor (ForkChoice_add_fork fc s parent).
Proof.
  intros Ht Hfl Hpar.
  assert (Hknown : ∀ x, is_Some (fc_forks fc !! x) → is_Some (<[s := ForkInfo_new s parent]> (fc_forks fc) !! x)).
  { intros x Hx. apply lookup_insert_is_Some'. by right. }
  intros x f. cbn. intros [[<- <-]|[Hne Hf]]%lookup_insert_Some; cbn.
  - split; [done|]. intros p Hp. destruct (Hpar p Hp) as [? [?|?]]; eauto.
  - destruct (Ht x f Hf) as [? Hp]. split; [done|]. intros p ?%Hp. naive_solver.
Qed.

Lemma add_fork_ok floor direct fc s parent :
  fc_ok floor direct fc → floor <= s → fc_forks fc !! s = None →
  (∀ p, parent = Some p → p < s ∧ (is_Some (fc_forks fc !! p) ∨ p < floor)) →
  fc_ok floor (direct_forget s direct) (ForkChoice_add_fork fc s parent).
Proof.
  intros [Ht Hv Hdir Hm Hw] Hfl Hnew Hpar. pose proof (add_fork_tree floor fc s parent Ht Hfl Hpar) as Ht'.
  set (fc' := ForkChoice_add_fork fc s parent) in *.
  assert (Hvf : ∀ y, votes_for fc' (fc_validator_latest_votes fc) y
                 = if decide (y = s) then ∅ else votes_for fc (fc_validator_latest_votes fc) y).
  { intros y. case_decide as Hy.
    - apply map_empty. intros k. apply map_lookup_filter_None. right. intros v Hkv.
      rewrite (is_descendant_true floor) by done. cbn.
      unfold fc'. rewrite (add_fork_descends floor); [tauto|done..|apply (Hv k v Hkv)].
    - apply map_filter_ext. intros k v Hkv. rewrite !(is_descendant_true floor) by done. cbn.
      unfold fc'. rewrite (add_fork_descends floor); [tauto|done..|apply (Hv k v Hkv)]. }
  destruct (direct_total_forget direct s Hdir) as [Hdir' Hle]. split; [done| |done|cbn; lia|].
  - eapply map_Forall_impl; [exact Hv|]. intros k v [[?|?] ?]; split; auto.
    left. cbn. apply lookup_insert_is_Some'. by right.
  - intros x f Hf. rewrite Hvf, direct_to_forget. cbn in Hf. apply lookup_insert_Some in Hf as [[<- <-]|[Hne Hf]].
    + by rewrite !decide_True.
    + rewrite !decide_False by done. by apply Hw.
Qed.

(** Stake added to one fork only. *)
Lemma add_stake_ok floor direct fc s f st :
  fc_ok floor direct fc → fc_forks fc !! s = Some f → 0 <= st →
  total_of (fc_validator_latest_votes fc) + direct_total direct + st <= u64_max →
  fc_ok floor ((s, st) :: direct) (ForkChoice_add_stake fc s st).
Proof.
  intros Hok Hf Hst Hmax. pose proof Hok as [Ht Hv Hdir Hm Hw]. unfold ForkChoice_add_stake. rewrite Hf.
  eapply same_weights_ok; [apply update_confirmation_same|].
  pose proof (parent_with_weight fc (fc_forks fc) s f (u64_saturating_add (fi_stake_weight f) st) (λ _, eq_refl) Hf) as Hp.
  set (fc1 := with_forks fc _) in *. split; cbn.
  - by eapply same_parents_tree.
  - eapply map_Forall_impl; [exact Hv|]. cbn. intros k v. by rewrite (same_parents_known fc fc1).
  - by constructor.
  - unfold direct_total in *. cbn. lia.
  - intros x g Hg. rewrite (votes_for_ext floor fc fc1), direct_to_cons by done. cbn in Hg |- *.
    apply lookup_insert_Some in Hg as [[<- <-]|[Hne Hg]].
    + rewrite decide_True by done. cbn. rewrite (Hw s f Hf). pose proof (direct_bounds direct s Hdir).
      pose proof (total_of_filter (λ kv, ForkChoice_is_descendant fc kv.2.1 s = Some true) _ (ok_stakes _ _ _ Hok)).
      unfold u64_saturating_add. rewrite Z.min_l; [lia|]. unfold votes_for. lia.
    + rewrite decide_False by done. by apply Hw.
Qed.

(** Keeping the forks in [P], a set closed under descendants, and the votes for the
    slots in [Q], which has the forks that are kept. *)
Section retain.
Context (floor floor' : Z) (direct : list (Z * Z)) (fc : ForkChoice) (P Q : Z → Prop).
Context `{!∀ s, Decision (P s), !∀ s, Decision (Q s)}.

Definition retained : ForkChoice :=
  mkForkChoice (filter (λ kv, P kv.1) (fc_forks fc)) (fc_total_stake fc) (fc_best_slot fc)
    (filter (λ kv, Q kv.2.1) (fc_validator_latest_votes fc)).

Context (Hok : fc_ok floor direct fc) (Hfl : floor <= floor').
Context (Hdown : ∀ s p, parent_of fc s = Some p → P p → P s).
Context (Hup : ∀ s p, P s → parent_of fc s = Some p → is_Some (fc_forks fc !! p) → P p ∨ p < floor').
Context (Habove : ∀ s, is_Some (fc_forks fc !! s) → P s → floor' <= s).
Context (HQ : ∀ s, is_Some (fc_forks fc !! s) → (P s → Q s) ∧ (Q s → P s ∨ s < floor')).

Lemma retained_lookup s f : fc_forks retained !! s = Some f ↔ fc_forks fc !! s = Some f ∧ P s.
Proof using. cbn. by rewrite map_lookup_filter_Some. Qed.

Lemma retained_parent s : parent_of retained s = if decide (P s) then parent_of fc s else None.
Proof using.
  unfold parent_of. cbn. rewrite map_lookup_filter.
  destruct (fc_forks fc !! s) as [f|]; cbn; [|by case_decide].
  case_decide; [by rewrite option_guard_True|by rewrite option_guard_False].
Qed.

Lemma retained_descends x s : P s → fork_descends fc x s ↔ P x ∧ fork_descends retained x s.
Proof using Hdown.
  intros Hs. split.
  - intros Hr. revert Hs. induction Hr as [|x p s Hp _ IH]; intros Hs; [done|].
    destruct (IH Hs) as [HPp Hr']. assert (P x) by eauto. split; [done|].
    eapply rtc_l; [|done]. by rewrite retained_parent, decide_True.
  - intros [_ Hr]. clear Hs. induction Hr as [|x p s Hp _ IH]; [done|]. eapply rtc_l; [|done].
    rewrite retained_parent in Hp. by case_decide.
Qed.

Lemma retained_tree : fc_tree floor' retained.
Proof using All.
  intros s f [Hf HP]%retained_lookup. destruct (ok_tree _ _ _ Hok s f Hf) as [_ Hp].
  split; [by apply Habove|].
  intros p Hfp. destruct (Hp p Hfp) as [? [Hk|?]]; (split; [done|]); [|right; lia].
  destruct (Hup s p) as [HPp|?]; [done|by unfold parent_of; rewrite Hf|done| |by right].
  left. destruct Hk as [fp Hk]. exists fp. by apply retained_lookup.
Qed.

Lemma retained_ok : fc_ok floor' direct retained.
Proof using All.
  pose proof retained_tree as Ht'. pose proof Hok as [Ht Hv Hdir Hm Hw]. split; [done| |done| |].
  - intros k v [HV HQv]%map_lookup_filter_Some. cbn in HQv.
    destruct (Hv k v HV) as [[[f Hf]|?] ?]; (split; [|done]); [|right; lia].
    destruct (HQ v.1) as [_ HP]; [by exists f|]. destruct (HP HQv) as [HP'|?]; [left|by right].
    exists f. by apply retained_lookup.
  - cbn. etrans; [apply Z.add_le_mono_r, total_of_filter|exact Hm]. by eapply ok_stakes.
  - intros s f [Hf HP]%retained_lookup. rewrite (Hw s f Hf). do 2 f_equal.
    unfold votes_for. cbn. rewrite map_filter_filter. apply map_filter_ext. intros k v Hkv. cbn.
    rewrite (is_descendant_true floor), (is_descendant_true floor'), retained_descends by done.
    assert (Hx : fork_descends retained v.1 s → P v.1 ∧ is_Some (fc_forks fc !! v.1)).
    { intros [->|(p & Hp & _)]%fork_descends_inv; [by rewrite Hf|].
      rewrite retained_parent in Hp. case_decide; [|done].
      by destruct (fc_tree_parent floor fc _ _ Ht Hp) as (_ & _ & Hk & _). }
    specialize (HQ v.1). tauto.
Qed.
End retain.

Lemma set_root_ok floor direct fc r : fc_ok floor direct fc → fc_ok (Z.max floor r) direct (ForkChoice_set_root fc r).
Proof.
  intros Hok. pose proof (ok_tree _ _ _ Hok) as Ht.
  assert (ForkChoice_set_root fc r = retained fc (λ s, r <= s) (λ _, True)) as ->.
  { unfold ForkChoice_set_root, with_forks, retained. f_equal. symmetry. by apply map_filter_id. }
  apply (retained_ok floor); [done|lia| | | |].
  - intros s p Hp ?. destruct (fc_tree_parent floor fc s p Ht Hp). lia.
  - lia.
  - intros s [f Hf] ?. destruct (Ht s f Hf). lia.
  - intros s _. split; [done|]. lia.
Qed.

Lemma slots_to_keep_spec floor fc r slots :
  fc_tree floor fc →
  ∃ keep, slots_to_keep fc r slots = Some keep ∧ ∀ s, s ∈ keep ↔ s ∈ slots ∧ fork_descends fc s r.
Proof.
  intros Ht. induction slots as [|x slots (keep & Hk & IH)]; cbn; [exists []; set_solver|].
  assert (∃ b, (if x =? r then Some true else ForkChoice_is_descendant fc x r) = Some b
               ∧ (b = true ↔ fork_descends fc x r)) as (b & -> & Hb).
  { destruct (Z.eqb_spec x r) as [->|]; [by exists true|]. by eapply is_descendant_spec. }
  cbn. rewrite Hk. cbn. destruct b.
  - exists (x :: keep). split; [done|]. intros s. rewrite !elem_of_cons, IH. naive_solver.
  - exists keep. split; [done|]. intros s. rewrite elem_of_cons, IH.
    split; [tauto|]. intros [[->|?] Hd]; [|done]. by apply Hb in Hd.
Qed.

Lemma prune_forks_ok floor direct fc r :
  fc_ok floor direct fc →
  ∃ fc', ForkChoice_prune_non_descendants fc r = Some fc' ∧ fc_ok (Z.max floor r) direct fc'.
Proof.
  intros Hok. pose proof (ok_tree _ _ _ Hok) as Ht. unfold ForkChoice_prune_non_descendants.
  destruct (slots_to_keep_spec floor fc r (fork_slots fc) Ht) as (keep & -> & Hkeep). cbn.
  eexists. split; [done|].
  assert (Hin : ∀ s, s ∈ keep ↔ is_Some (fc_forks fc !! s) ∧ fork_descends fc s r).
  { intros s. unfold fork_slots in Hkeep. by rewrite Hkeep, elem_of_iter_order, elem_of_dom. }
  refine (retained_ok floor _ direct fc (λ s, s ∈ keep) (λ s, is_Some (_ !! s)) Hok _ _ _ _ _);
    [lia| | | |].
  - intros s p Hp [_ Hd]%Hin. apply Hin.
    destruct (fc_tree_parent floor fc s p Ht Hp) as (_ & _ & Hs & _). split; [done|by eapply rtc_l].
  - intros s p [_ Hd]%Hin Hp Hk. destruct (fc_tree_parent floor fc s p Ht Hp) as (? & _ & _ & _).
    apply fork_descends_inv in Hd as [->|(q & Hq & Hd)]; [right; lia|left]. apply Hin. split; [done|congruence].
  - intros s [f Hf] [_ Hd]%Hin. apply (fork_descends_le floor) in Hd; [|done]. destruct (Ht s f Hf). lia.
  - intros s [f Hf]. split.
    + intros Hs. exists f. by apply map_lookup_filter_Some.
    + intros [f' [_ ?]%map_lookup_filter_Some]. by left.
Qed.

(** ** The heaviest fork *)

Definition valid_child (fc : ForkChoice) (c s : Z) : Prop := parent_of fc s = Some c ∧ is_valid fc s.

(** [b] is at least as good a choice as [a]: heavier, or as heavy with a lower slot. *)
Definition ghost_le (fc : ForkChoice) (a b : Z) : Prop :=
  weight_of fc a < weight_of fc b ∨ weight_of fc a = weight_of fc b ∧ b <= a.

(** The greedy walk: from a fork to the best of its valid children, down to a fork that
    has none. *)
Inductive ghost (fc : ForkChoice) : Z → Z → Prop :=
| ghost_leaf c : (∀ s, ¬ valid_child fc c s) → ghost fc c c
| ghost_step c b leaf :
    valid_child fc c b → (∀ s, valid_child fc c s → ghost_le fc s b) → ghost fc b leaf → ghost fc c leaf.

#[global] Instance ghost_le_refl fc : Reflexive (ghost_le fc).
Proof. intros x. right. lia. Qed.

#[global] Instance ghost_le_trans fc : Transitive (ghost_le fc).
Proof. unfold ghost_le. intros x y z. lia. Qed.

Lemma ghost_le_antisymm fc a b : ghost_le fc a b → ghost_le fc b a → a = b.
Proof. unfold ghost_le. lia. Qed.

Lemma elem_of_valid_children fc c s : s ∈ valid_children_of fc c ↔ valid_child fc c s.
Proof.
  unfold valid_children_of, valid_child, fork_slots. rewrite list_elem_of_filter, elem_of_iter_order, elem_of_dom.
  split; [tauto|]. intros [Hp Hv]. split; [done|]. unfold parent_of in Hp. by destruct (fc_forks fc !! s).
Qed.

Lemma max_by_ghost fc l b :
  max_by (ghost_cmp fc) l = Some b → b ∈ l ∧ ∀ s, s ∈ l → ghost_le fc s b.
Proof.
  destruct l as [|x l]; [done|]. cbn. intros [= <-]. apply foldl_best; [apply _..|].
  intros y z. unfold ghost_cmp, ghost_le. destruct (Z.compare_spec (weight_of fc y) (weight_of fc z));
    [destruct (Z.compare_spec z y)|..]; split_and!; auto; lia.
Qed.

Lemma heaviest_child_best fc x l :
  heaviest_child fc x l ∈ x :: l ∧ ∀ s, s ∈ x :: l → ghost_le fc s (heaviest_child fc x l).
Proof.
  set (pick := λ a c, if (weight_of fc a <? weight_of fc c)
                         || ((weight_of fc c =? weight_of fc a) && (c <? a)) then c else a).
  assert (heaviest_child fc x l = foldl pick x l) as ->.
  { unfold heaviest_child. transitivity (foldl pick x l, weight_of fc (foldl pick x l)).1; [|done]. f_equal.
    revert x. induction l as [|c l IH]; intros x; cbn; [done|]. rewrite <- IH. f_equal.
    unfold pick. by destruct (_ || _). }
  apply foldl_best; [apply _..|]. intros a c. unfold pick, ghost_le.
  destruct (Z.ltb_spec (weight_of fc a) (weight_of fc c)), (Z.eqb_spec (weight_of fc c) (weight_of fc a)),
    (Z.ltb_spec c a); cbn; split_and!; auto; lia.
Qed.

Lemma ghost_unique fc c l1 l2 : ghost fc c l1 → ghost fc c l2 → l1 = l2.
Proof.
  intros H1. revert l2. induction H1 as [c Hn|c b l Hb Hbest _ IH]; inversion 1 as [? Hn'|? b' ? Hb' Hbest' Hg];
    subst; try naive_solver.
  assert (b' = b) as -> by (apply (ghost_le_antisymm fc); auto). auto.
Qed.

Lemma valid_child_above floor fc c s :
  fc_tree floor fc → valid_child fc c s → (above (fc_forks fc) s < above (fc_forks fc) c)%nat.
Proof.
  intros Ht [Hp _]. destruct (fc_tree_parent floor fc s c Ht Hp) as (? & _ & ? & _). by apply above_step.
Qed.

Lemma best_fork_loop_spec floor fc fuel c :
  fc_tree floor fc → (above (fc_forks fc) c <= fuel)%nat →
  ∃ leaf, best_fork_loop fuel fc c = Some leaf ∧ ghost fc c leaf.
Proof.
  intros Ht. revert c. induction fuel as [|fuel IH]; intros c Hf; cbn [best_fork_loop];
    (destruct (max_by (ghost_cmp fc) (valid_children_of fc c)) as [b|] eqn:Hm;
     [apply max_by_ghost in Hm as [Hb%elem_of_valid_children Hbest];
      pose proof (valid_child_above floor fc c b Ht Hb)
     |exists c; split; [done|]; apply ghost_leaf; intros s; rewrite <- elem_of_valid_children;
      destruct (valid_children_of fc c); [by intros ?%elem_of_nil|done]]); [lia|].
  destruct (IH b ltac:(lia)) as (leaf & ? & Hg). exists leaf. split; [done|].
  apply (ghost_step fc c b); [done| |done]. intros s ?%elem_of_valid_children. by apply Hbest.
Qed.

Lemma heaviest_fork_loop_spec floor fc fuel c :
  fc_tree floor fc → (above (fc_forks fc) c <= fuel)%nat →
  ∃ leaf, heaviest_fork_loop fuel fc c = Some leaf ∧ ghost fc c leaf.
Proof.
  intros Ht. revert c. induction fuel as [|fuel IH]; intros c Hf; cbn [heaviest_fork_loop];
    (destruct (valid_children_of fc c) as [|x l] eqn:Hl;
     [exists c; split; [done|]; apply ghost_leaf; intros s; rewrite <- elem_of_valid_children, Hl;
      by intros ?%elem_of_nil
     |destruct (heaviest_child_best fc x l) as [Hb Hbest]; rewrite <- Hl in Hb, Hbest;
      apply elem_of_valid_children in Hb; pose proof (valid_child_above floor fc c _ Ht Hb)]); [lia|].
  destruct (IH (heaviest_child fc x l) ltac:(lia)) as (leaf & ? & Hg). exists leaf. split; [done|].
  eapply ghost_step; [done| |done]. intros s ?%elem_of_valid_children. by apply Hbest.
Qed.

(** ** Runs *)

Inductive fc_op :=
| FcAddFork (slot : Z) (parent : option Z)
| FcVote (validator : list Z) (slot stake : Z)
| FcAddStake (slot stake : Z)
| FcTotalStake (total_stake : Z)
| FcEquivocating (slot : Z)
| FcDuplicateConfirmed (slot : Z)
| FcComputeBestFork (root : Z)
| FcSelectHeaviestFork (root : Z)
| FcSetRoot (root : Z)
| FcPruneNonDescendants (root : Z).

Definition fc_step (fc : ForkChoice) (op : fc_op) : option ForkChoice :=
  match op with
  | FcAddFork slot parent => Some (ForkChoice_add_fork fc slot parent)
  | FcVote validator slot stake => ForkChoice_record_validator_vote fc validator slot stake
  | FcAddStake slot stake => Some (ForkChoice_add_stake fc slot stake)
  | FcTotalStake total_stake => Some (ForkChoice_update_total_stake fc total_stake)
  | FcEquivocating slot => Some (ForkChoice_mark_equivocating fc slot)
  | FcDuplicateConfirmed slot => Some (ForkChoice_mark_duplicate_confirmed fc slot)
  | FcComputeBestFork root => snd <$> ForkChoice_compute_best_fork fc root
  | FcSelectHeaviestFork root => snd <$> ForkChoice_select_heaviest_fork fc root
  | FcSetRoot root => Some (ForkChoice_set_root fc root)
  | FcPruneNonDescendants root => ForkChoice_prune_non_descendants fc root
  end.

(** The highest root so far: forks are added above it. *)
Definition op_floor (floor : Z) (op : fc_op) : Z :=
  match op with
  | FcSetRoot root | FcPruneNonDescendants root => Z.max floor root
  | _ => floor
  end.

(** The stake that [add_stake] has given to the forks of the tree. *)
Definition op_direct (direct : list (Z * Z)) (fc : ForkChoice) (op : fc_op) : list (Z * Z) :=
  match op with
  | FcAddStake slot stake => if bool_decide (is_Some (fc_forks fc !! slot)) then (slot, stake) :: direct else direct
  | FcAddFork slot _ => direct_forget slot direct
  | _ => direct
  end.

(** A fork is added once, not below the root, under a parent that is known or below the
    root; votes are for known forks, and all stake together is a [u64]. *)
Definition op_allowed (floor : Z) (direct : list (Z * Z)) (fc : ForkChoice) (op : fc_op) : Prop :=
  match op with
  | FcAddFork slot parent =>
      floor <= slot ∧ fc_forks fc !! slot = None
      ∧ ∀ p, parent = Some p → p < slot ∧ (is_Some (fc_forks fc !! p) ∨ p < floor)
  | FcVote validator slot stake =>
      is_Some (fc_forks fc !! slot) ∧ 0 <= stake
      ∧ total_of (delete validator (fc_validator_latest_votes fc)) + direct_total direct + stake <= u64_max
  | FcAddStake _ stake =>
      0 <= stake ∧ total_of (fc_validator_latest_votes fc) + direct_total direct + stake <= u64_max
  | _ => True
  end.

(** The runs of the fork choice, with the highest root and the stake added directly. *)
Inductive fc_run : Z → list (Z * Z) → ForkChoice → Prop :=
| fc_run_new total_stake : fc_run 0 [] (ForkChoice_new total_stake)
| fc_run_step floor direct fc op fc' :
    fc_run floor direct fc → op_allowed floor direct fc op → fc_step fc op = Some fc' →
    fc_run (op_floor floor op) (op_direct direct fc op) fc'.
Definition fc_reachable (floor : Z) (fc : ForkChoice) : Prop := ∃ direct, fc_run floor direct fc.

Lemma fc_new_ok total_stake : fc_ok 0 [] (ForkChoice_new total_stake).
Proof.
  split; cbn.
  - intros s f. cbn. by rewrite lookup_empty.
  - apply map_Forall_empty.
  - done.
  - done.
  - intros s f. cbn. by rewrite lookup_empty.
Qed.

Lemma fc_step_ok floor direct fc op :
  fc_ok floor direct fc → op_allowed floor direct fc op →
  ∃ fc', fc_step fc op = Some fc' ∧ fc_ok (op_floor floor op) (op_direct direct fc op) fc'.
Proof.
  intros Hok Hop. pose proof (ok_tree _ _ _ Hok) as Ht.
  destruct op as [slot parent|validator slot stake|slot stake|total|slot|slot|root|root|root|root]; cbn in *.
  - eexists. split; [done|]. apply add_fork_ok; tauto.
  - destruct (record_vote_ok floor direct fc validator slot stake) as (fc' & ? & ? & _); [tauto..|]. by exists fc'.
  - eexists. split; [done|]. destruct (fc_forks fc !! slot) as [f|] eqn:Hf.
    + rewrite bool_decide_true by (by eexists). apply (add_stake_ok _ _ _ _ f); tauto.
    + rewrite bool_decide_false by (by intros []). unfold ForkChoice_add_stake. by rewrite Hf.
  - eexists. split; [done|]. eapply same_weights_ok; [apply update_total_stake_same|done].
  - eexists. split; [done|]. eapply same_weights_ok; [apply mark_equivocating_same|done].
  - eexists. split; [done|]. eapply same_weights_ok; [apply mark_duplicate_confirmed_same|done].
  - unfold ForkChoice_compute_best_fork.
    destruct (best_fork_loop_spec floor fc (size (fc_forks fc)) root) as (leaf & -> & _); [done|apply above_le_size|].
    eexists. split; [done|]. by apply (same_weights_ok floor direct fc).
  - unfold ForkChoice_select_heaviest_fork. case_bool_decide; [by eexists|].
    destruct (heaviest_fork_loop_spec floor fc (size (fc_forks fc)) root) as (leaf & -> & _); [done|apply above_le_size|].
    eexists. split; [done|]. by apply (same_weights_ok floor direct fc).
  - eexists. split; [done|]. by apply set_root_ok.
  - by apply prune_forks_ok.
Qed.

Lemma fc_run_ok floor direct fc : fc_run floor direct fc → fc_ok floor direct fc.
Proof.
  induction 1 as [total|floor direct fc op fc' _ IH Hop Hstep]; [apply fc_new_ok|].
  destruct (fc_step_ok floor direct fc op IH Hop) as (fc1 & Hs & ?). congruence.
Qed.
Lemma fc_reachable_tree floor fc : fc_reachable floor fc → fc_tree floor fc.
Proof. intros (direct & Hok%fc_run_ok). by eapply ok_tree. Qed.

(** C13. The incremental stake weights are the latest-message weights.  In every state that
    the operations of the fork choice reach, [add_stake] included, while forks are added once
    and under a parent that is known or below the root, votes name known forks and all stake
    together is a [u64]: every such operation returns, the descendant test is exact, and the
    weight of a fork is the stake of the validators whose latest vote is for the fork or a
    descendant of it, each counted once, and the stake that [add_stake] gave to this very
    fork, which neither its ancestors nor later votes take note of. *)
Theorem weights_are_latest_votes floor direct fc :
  fc_run floor direct fc →
  (∀ op, op_allowed floor direct fc op → is_Some (fc_step fc op))
  ∧ (∀ x s, ∃ b, ForkChoice_is_descendant fc x s = Some b ∧ (b = true ↔ fork_descends fc x s))
  ∧ (∀ s f, fc_forks fc !! s = Some f →
       fi_stake_weight f = total_of (votes_for fc (fc_validator_latest_votes fc) s) + direct_to direct s)
  ∧ ∀ validator slot stake fc', fc_step fc (FcVote validator slot stake) = Some fc' →
      op_allowed floor direct fc (FcVote validator slot stake) →
      fc_validator_latest_votes fc' = <[validator := (slot, stake)]> (fc_validator_latest_votes fc).
Proof.
  intros Hok%fc_run_ok. split_and!.
  - intros op Hop. destruct (fc_step_ok floor direct fc op Hok Hop) as (fc' & -> & _). done.
  - intros x s. apply (is_descendant_spec floor). by eapply ok_tree.
  - apply Hok.
  - cbn. intros validator slot stake fc' Hv (? & ? & ?).
    destruct (record_vote_ok floor direct fc validator slot stake) as (fc1 & Hv' & _ & ?); [done..|]. congruence.
Qed.

(** C34. Both searches for the best fork are the greedy heaviest-subtree walk.  From a
    known root they return, whatever the order in which the forks are visited, and give
    the same fork: the end of the walk from the root that goes to the heaviest valid
    child, the lowest slot among equals, until a fork has no valid child.  No other fork
    is the end of such a walk. *)
Theorem best_fork_is_ghost floor fc root :
  fc_reachable floor fc → is_Some (fc_forks fc !! root) →
  ∃ leaf, ForkChoice_compute_best_fork fc root = Some (leaf, with_best fc (Some leaf))
    ∧ ForkChoice_select_heaviest_fork fc root = Some (Some leaf, with_best fc (Some leaf))
    ∧ ∀ x, ghost fc root x ↔ x = leaf.
Proof.
  intros Ht%fc_reachable_tree Hr. unfold ForkChoice_compute_best_fork, ForkChoice_select_heaviest_fork.
  rewrite bool_decide_false by (by apply not_eq_None_Some).
  destruct (best_fork_loop_spec floor fc (size (fc_forks fc)) root) as (leaf & -> & Hg); [done|apply above_le_size|].
  destruct (heaviest_fork_loop_spec floor fc (size (fc_forks fc)) root) as (leaf' & -> & Hg');
    [done|apply above_le_size|].
  rewrite (ghost_unique fc root leaf' leaf Hg' Hg). exists leaf. split_and!; [done..|].
  intros x. split; [|by intros ->]. intros Hx. by apply (ghost_unique fc root).
Qed.

(** ** Under the lockouts of the tower *)

(** The ancestry test on the banks as a total function; it ends when parents are below
    their children. *)
Definition same_fork (bank_forks : BankForks) (a b : Z) : bool :=
  default false (ForkChoice_is_same_fork bank_forks a b).

Lemma is_same_fork_total bank_forks a b :
  (∀ c p, child_of (bf_banks bank_forks) c p → p < c) →
  ForkChoice_is_same_fork bank_forks a b = Some (same_fork bank_forks a b).
Proof.
  intros Hlt. unfold same_fork, ForkChoice_is_same_fork. destruct (a =? b); [done|].
  destruct (is_ancestor_total bank_forks a b Hlt) as [[] ->]; [done|]. cbn.
  by destruct (is_ancestor_total bank_forks b a Hlt) as [? ->].
Qed.

Lemma locked_out_total slot tower bank_forks :
  (∀ c p, child_of (bf_banks bank_forks) c p → p < c) →
  ForkChoice_is_locked_out_by_tower slot tower bank_forks
  = Some (Tower_is_locked_out tower slot (same_fork bank_forks)).
Proof.
  intros Hlt. unfold ForkChoice_is_locked_out_by_tower, Tower_is_locked_out.
  destruct (match tower_root tower with Some _ => _ | None => _ end); [done|].
  induction (tower_votes tower) as [|v votes IH]; cbn; [done|].
  destruct (TowerVote_is_locked_out_at v slot); cbn; [|done].
  rewrite is_same_fork_total by done. cbn. by destruct (same_fork bank_forks (tv_slot v) slot).
Qed.

Section select.
Context (floor : Z) (fc : ForkChoice) (bank_forks : BankForks) (tower : Tower).
Context (Ht : fc_tree floor fc) (Hlt : ∀ c p, child_of (bf_banks bank_forks) c p → p < c).

(** A fork that [select_fork] may step to. *)
Definition eligible (s : Z) : Prop :=
  is_valid fc s ∧ Tower_is_locked_out tower s (same_fork bank_forks) = false.

Lemma votable_spec children :
  ∃ l, votable fc tower bank_forks children = Some l ∧ ∀ s, s ∈ l ↔ s ∈ children ∧ eligible s.
Proof using Ht Hlt.
  induction children as [|x children (l & Hl & IH)]; cbn; [exists []; set_solver|].
  rewrite locked_out_total, Hl by done. unfold eligible in *. case_decide as Hv; cbn.
  - destruct (Tower_is_locked_out tower x _) eqn:Hx; eexists; (split; [done|]); intros s;
      rewrite !elem_of_cons, ?IH; (split; [|by intros [[->|?] [? ?]]; [congruence || tauto|tauto]]); [tauto|].
    intros [->|?]; tauto.
  - exists l. split; [done|]. intros s. rewrite elem_of_cons, IH.
    split; [tauto|]. intros [[->|?] ?]; tauto.
Qed.

Lemma elem_of_children c s : s ∈ children_of fc c ↔ parent_of fc s = Some c.
Proof using.
  unfold children_of, fork_slots. rewrite list_elem_of_filter, elem_of_iter_order, elem_of_dom.
  unfold parent_of. destruct (fc_forks fc !! s); naive_solver.
Qed.

Lemma max_by_key_elem key l b : max_by_key key l = Some b → b ∈ l ∧ ∀ s, s ∈ l → key s <= key b.
Proof using.
  destruct l as [|x l]; [done|]. cbn. intros [= <-].
  apply (foldl_best (λ a b, key a <= key b)); [intros ?; lia|intros ???; lia|].
  intros y z. destruct (Z.compare_spec (key y) (key z)); split_and!; auto; lia.
Qed.

(** A walk from a fork to the heaviest eligible child, down to a fork without children. *)
Inductive selects : Z → Z → Prop :=
| selects_leaf c : (∀ s, parent_of fc s ≠ Some c) → selects c c
| selects_step c b leaf :
    parent_of fc b = Some c → eligible b →
    (∀ s, parent_of fc s = Some c → eligible s → weight_of fc s <= weight_of fc b) →
    selects b leaf → selects c leaf.

Lemma select_fork_loop_spec fuel c :
  (above (fc_forks fc) c <= fuel)%nat →
  ∃ r, select_fork_loop fuel fc bank_forks tower c = Some r
    ∧ ∀ s, r = Some s → selects c s ∧ default 0 (tower_root tower) < s
                        ∧ Tower_is_locked_out tower s (same_fork bank_forks) = false.
Proof using Ht Hlt.
  revert c. induction fuel as [|fuel IH]; intros c Hf; cbn [select_fork_loop];
    destruct (children_of fc c) as [|x l] eqn:Hc.
  1,3: assert (Hleaf : selects c c) by
         (apply selects_leaf; intros s; rewrite <- elem_of_children, Hc; by intros ?%elem_of_nil);
       destruct (Z.ltb_spec (default 0 (tower_root tower)) c); [|by exists None];
       rewrite locked_out_total by done; cbn; eexists; (split; [done|]);
       intros s; destruct (Tower_is_locked_out tower c _) eqn:E; [done|]; by intros [= <-].
  all: destruct (votable_spec (x :: l)) as (vs & -> & Hvs); cbn;
    (destruct (max_by_key (weight_of fc) vs) as [b|] eqn:Hm; [|by exists None]);
    apply max_by_key_elem in Hm as [[Hb He]%Hvs Hmax]; rewrite <- Hc in Hb; apply elem_of_children in Hb;
    destruct (fc_tree_parent floor fc b c Ht Hb) as (Hcb & _ & Hk & _);
    pose proof (above_step (fc_forks fc) c b Hk Hcb).
  { lia. }
  destruct (IH b ltac:(lia)) as (r & ? & Hr). exists r. split; [done|].
  intros s Hs. destruct (Hr s Hs) as [Hsel ?]. split; [|done].
  apply (selects_step c b); [done..| |done]. intros y Hy Hey. apply Hmax, Hvs. rewrite <- Hc.
  split; [by apply elem_of_children|done].
Qed.
End select.

(** C14. Fork selection respects the lockouts of the tower.  In every state the operations
    of C13 reach, and when parents are below their children in the bank forks as well,
    [select_fork] returns.  A slot it selects is the end of a walk from the root to the
    heaviest child that is valid and not locked out at every step, has no children, is above
    the tower's root, and is on the fork of every vote still locked out at it, so that
    [record_vote] returns [Ok].  That [Ok] does not say that the vote was recorded: a
    selected slot above the last vote becomes the last vote of the tower, one at or below
    the last vote leaves the tower as it was. *)
Theorem selected_fork_respects_lockouts floor fc bank_forks tower :
  let root := default (bf_root_slot bank_forks) (tower_root tower) in
  fc_reachable floor fc → (∀ c p, child_of (bf_banks bank_forks) c p → p < c) →
  ∃ r, ForkChoice_select_fork fc bank_forks tower = Some r
    ∧ ∀ s, r = Some s →
        selects fc bank_forks tower root s
        ∧ (∀ r, tower_root tower = Some r → r < s)
        ∧ (∀ v, v ∈ tower_votes tower → s < TowerVote_expiration_slot v → same_fork bank_forks (tv_slot v) s = true)
        ∧ let '(outcome, tower') := Tower_record_vote tower s (same_fork bank_forks) in
          if bool_decide (below_last tower s)
          then (∃ new_root, outcome = Ok new_root) ∧ Tower_last_vote_slot tower' = Some s
          else outcome = Ok None ∧ tower' = tower.
Proof.
  intros root Ht%fc_reachable_tree Hlt. unfold ForkChoice_select_fork. fold root.
  case_bool_decide; [by exists None|].
  destruct (select_fork_loop_spec floor fc bank_forks tower Ht Hlt (size (fc_forks fc)) root)
    as (r & -> & Hr); [apply above_le_size|].
  exists r. split; [done|]. intros s Hs. destruct (Hr s Hs) as (? & _ & Hl). split; [done|].
  destruct (proj1 (is_locked_out_false _ _ _) Hl). split_and!; [done..|].
  unfold Tower_record_vote. rewrite Hl. case_bool_decide as Hb.
  - rewrite (push_vote_fresh _ _ Hb). split; [by eexists|]. unfold Tower_last_vote_slot. cbn. by rewrite last_snoc.
  - by rewrite (push_vote_stale _ _ Hb).
Qed.

End choice.

(** ** Witnesses

    Two forks on slot 0: validator 1 votes for slot 1 and then, with validator 2, for
    slot 2; slot 1 is given a stake of 5 directly. *)
Definition two_forks : ForkChoice :=
  mkForkChoice
    (list_to_map [(0, mkForkInfo 0 None 30 true false false false true);
                  (1, mkForkInfo 1 (Some 0) 5 false false false false true);
                  (2, mkForkInfo 2 (Some 0) 30 true false false false true)])
    40 None (list_to_map [([1], (2, 10)); ([2], (2, 20))]).

(** One step of a run on concrete data. *)
Ltac fc_go op H :=
  eapply (fc_run_step _ _ _ op) in H;
  [|unfold op_allowed; split_and?;
    first [done | by eexists | by vm_compute | by intros ? [=] | by intros ? [= <-]; split; [|left; eexists]]
   |vm_compute; reflexivity].

Lemma two_forks_run : @fc_run (elements_order Z) 0 [(1, 5)] two_forks.
Proof.
  pose proof (fc_run_new (IterOrder0 := elements_order Z) 100) as H.
  fc_go (FcAddFork 0 None) H. fc_go (FcAddFork 1 (Some 0)) H. fc_go (FcAddFork 2 (Some 0)) H.
  fc_go (FcVote [1] 1 10) H. fc_go (FcAddStake 1 5) H. fc_go (FcVote [2] 2 20) H. fc_go (FcTotalStake 40) H.
  fc_go (FcVote [1] 2 10) H. exact H.
Qed.
Lemma two_forks_reachable : @fc_reachable (elements_order Z) 0 two_forks.
Proof. eexists. exact two_forks_run. Qed.

Lemma weights_are_latest_votes_witness :
  @fc_run (elements_order Z) 0 [(1, 5)] two_forks
  ∧ total_of (votes_for two_forks (fc_validator_latest_votes two_forks) 2) + direct_to [(1, 5)] 2 = 30
  ∧ total_of (votes_for two_forks (fc_validator_latest_votes two_forks) 1) + direct_to [(1, 5)] 1 = 5.
Proof.
  split; [exact two_forks_run|].
  destruct (@weights_are_latest_votes (elements_order Z) 0 [(1, 5)] two_forks two_forks_run) as (_ & _ & Hw & _). split.
  - symmetry. apply (Hw 2 (mkForkInfo 2 (Some 0) 30 true false false false true)). reflexivity.
  - symmetry. apply (Hw 1 (mkForkInfo 1 (Some 0) 5 false false false false true)). reflexivity.
Defined.

Lemma best_fork_is_ghost_witness :
  ∃ leaf, @ForkChoice_compute_best_fork (elements_order Z) two_forks 0 = Some (leaf, with_best two_forks (Some leaf))
    ∧ leaf = 2.
Proof.
  destruct (@best_fork_is_ghost (elements_order Z) 0 two_forks 0 two_forks_reachable) as (leaf & Hbest & _ & _).
  { by eexists. }
  exists leaf. split; [exact Hbest|]. vm_compute in Hbest. by injection Hbest.
Defined.

Lemma selected_fork_respects_lockouts_witness :
  @ForkChoice_select_fork (elements_order Z) two_forks (BankForks_new genesis_bank) Tower_new = Some (Some 2)
  ∧ Tower_last_vote_slot (Tower_record_vote Tower_new 2 (same_fork (BankForks_new genesis_bank))).2 = Some 2.
Proof.
  destruct (@selected_fork_respects_lockouts (elements_order Z) 0 two_forks (BankForks_new genesis_bank) Tower_new
              two_forks_reachable) as (r & Hsel & Hr).
  { intros c p (b & Hb & Hp). cbn in Hb. apply lookup_singleton_Some in Hb as [_ <-]. discriminate Hp. }
  vm_compute in Hsel. injection Hsel as <-. split; [reflexivity|].
  destruct (Hr 2 eq_refl) as (_ & _ & _ & Hrec). vm_compute in Hrec. apply Hrec.
Defined.

(** The slot voted last is selected again as long as nothing is built on it, and the vote
    for it is accepted and dropped. *)
Lemma last_vote_selected_again :
  let tower := (Tower_push_vote Tower_new 2).2 in
  let banks := BankForks_new genesis_bank in
  @ForkChoice_select_fork (elements_order Z) two_forks banks tower = Some (Some 2)
  ∧ Tower_record_vote tower 2 (same_fork banks) = (Ok None, tower).
Proof. split; vm_compute; reflexivity. Qed.

(** Stake added directly stays with that very slot: 25 added to fork 1, which had 5, and
    then to its child 3 leaves the root at the 30 of the votes, fork 1 without the stake of
    its child, and the first 25 in place after the second. *)
Lemma own_stake_not_propagated :
  let run := foldl (λ fc op, fc ← fc; @fc_step (elements_order Z) fc op) (Some two_forks) in
  (fc ← run [FcAddFork 3 (Some 1); FcAddStake 1 25; FcAddStake 3 25]; Some (weight_of fc 0, weight_of fc 1, weight_of fc 3))
  = Some (30, 30, 25).
Proof. vm_compute; reflexivity. Qed.

(** A vote for a fork that is not known yet is recorded, but its stake goes nowhere.
    When the fork is added and the validator moves its vote, the stake is subtracted from
    the fork all the same, here from the stake of another validator: the fork that
    validator 2 still votes for with stake 20 is left with weight 10, as far as validator
    1 voted for it before it was known. *)
Lemma early_vote_takes_stake :
  let run := foldl (λ fc op, fc ← fc; @fc_step (elements_order Z) fc op) (Some (ForkChoice_new 100)) in
  let after ops := fc ← run ops; Some (weight_of fc 1, total_of (votes_for fc (fc_validator_latest_votes fc) 1)) in
  after [FcAddFork 0 None; FcAddFork 2 (Some 0); FcAddFork 1 (Some 0);
         FcVote [1] 1 10; FcVote [2] 1 20; FcVote [1] 2 10] = Some (20, 20)
  ∧ after [FcAddFork 0 None; FcAddFork 2 (Some 0); FcVote [1] 1 10; FcAddFork 1 (Some 0);
           FcVote [2] 1 20; FcVote [1] 2 10] = Some (10, 20).
Proof. split; vm_compute; reflexivity. Qed.
