(* ===== verification/SbpfInsn.v ===== *)
(** * sBPF instructions

    [karstflow-sbpf/src/instruction.rs]: the layout of an instruction word, the opcodes
    with their byte values and the lookup table that decodes them, the classification of
    opcodes, and the decoding of a byte stream.  Instruction fields are kept at their
    width: [offset] is an [i16] and [immediate] an [i32]. *)
From stdpp Require Import base tactics list.
From Stdlib Require Import ZArith Lia.
From S2P Require Import Prelude.
Local Open Scope Z_scope.

(** [as i16], [as i32] and [as i64] of an unsigned value of that width. *)
Definition as_i16 (z : Z) : Z := if z <? 2 ^ 15 then z else z - 2 ^ 16.
Definition as_i32 (z : Z) : Z := if z <? 2 ^ 31 then z else z - 2 ^ 32.
Definition as_i64 (z : Z) : Z := if z <? 2 ^ 63 then z else z - 2 ^ 64.

Record Instruction := mkInstruction {
  opcode : Z;
  dst : Z;
  src : Z;
  offset : Z;
  immediate : Z;
}.

Definition Instruction_decode (raw : Z) : Instruction :=
  {| opcode := Z.land raw 0xFF;
     dst := Z.land (Z.shiftr raw 8) 0x0F;
     src := Z.land (Z.shiftr raw 12) 0x0F;
     offset := as_i16 (Z.land (Z.shiftr raw 16) 0xFFFF);
     immediate := as_i32 (Z.land (Z.shiftr raw 32) 0xFFFFFFFF) |}.

Definition Instruction_encode (i : Instruction) : Z :=
  Z.lor (Z.lor (Z.lor (Z.lor (opcode i)
    (Z.shiftl (Z.land (dst i) 0x0F) 8))
    (Z.shiftl (Z.land (src i) 0x0F) 12))
    (Z.shiftl (offset i mod 2 ^ 16) 16))
    (Z.shiftl (wrap32 (immediate i)) 32).

Inductive Opcode :=
| Lddw | Add64Imm | Sub64Imm | Mul64Imm | Div64Imm | Or64Imm | And64Imm | Lsh64Imm | Rsh64Imm
| Neg64 | Mod64Imm | Xor64Imm | Mov64Imm | Arsh64Imm | Add64Reg | Sub64Reg | Mul64Reg | Div64Reg
| Or64Reg | And64Reg | Lsh64Reg | Rsh64Reg | Mod64Reg | Xor64Reg | Mov64Reg | Arsh64Reg | Add32Imm
| Sub32Imm | Mul32Imm | Div32Imm | Or32Imm | And32Imm | Lsh32Imm | Rsh32Imm | Neg32 | Mod32Imm
| Xor32Imm | Mov32Imm | Arsh32Imm | Add32Reg | Sub32Reg | Mul32Reg | Div32Reg | Or32Reg | And32Reg
| Lsh32Reg | Rsh32Reg | Mod32Reg | Xor32Reg | Mov32Reg | Arsh32Reg | Le | Be | LdxByte | LdxHalf
| LdxWord | LdxDword | StByte | StHalf | StWord | StDword | StxByte | StxHalf | StxWord | StxDword
| Ja | JeqImm | JeqReg | JgtImm | JgtReg | JgeImm | JgeReg | JsetImm | JsetReg | JneImm | JneReg
| JsgtImm | JsgtReg | JsgeImm | JsgeReg | JltImm | JltReg | JleImm | JleReg | JsltImm | JsltReg
| JsleImm | JsleReg | Jeq32Imm | Jeq32Reg | Jgt32Imm | Jgt32Reg | Jge32Imm | Jge32Reg | Jset32Imm
| Jset32Reg | Jne32Imm | Jne32Reg | Jsgt32Imm | Jsgt32Reg | Jsge32Imm | Jsge32Reg | Jlt32Imm
| Jlt32Reg | Jle32Imm | Jle32Reg | Jslt32Imm | Jslt32Reg | Jsle32Imm | Jsle32Reg | Call | Syscall
| Exit.

(** [*self as u8]: the discriminants of the enumeration. *)
Definition Opcode_as_u8 (op : Opcode) : Z :=
  match op with
  | Lddw => 0x18 | Add64Imm => 0x07 | Sub64Imm => 0x17 | Mul64Imm => 0x27 | Div64Imm => 0x37
  | Or64Imm => 0x47 | And64Imm => 0x57 | Lsh64Imm => 0x67 | Rsh64Imm => 0x77 | Neg64 => 0x87
  | Mod64Imm => 0x97 | Xor64Imm => 0xA7 | Mov64Imm => 0xB7 | Arsh64Imm => 0xC7 | Add64Reg => 0x0F
  | Sub64Reg => 0x1F | Mul64Reg => 0x2F | Div64Reg => 0x3F | Or64Reg => 0x4F | And64Reg => 0x5F
  | Lsh64Reg => 0x6F | Rsh64Reg => 0x7F | Mod64Reg => 0x9F | Xor64Reg => 0xAF | Mov64Reg => 0xBF
  | Arsh64Reg => 0xCF | Add32Imm => 0x04 | Sub32Imm => 0x14 | Mul32Imm => 0x24 | Div32Imm => 0x34
  | Or32Imm => 0x44 | And32Imm => 0x54 | Lsh32Imm => 0x64 | Rsh32Imm => 0x74 | Neg32 => 0x84
  | Mod32Imm => 0x94 | Xor32Imm => 0xA4 | Mov32Imm => 0xB4 | Arsh32Imm => 0xC4 | Add32Reg => 0x0C
  | Sub32Reg => 0x1C | Mul32Reg => 0x2C | Div32Reg => 0x3C | Or32Reg => 0x4C | And32Reg => 0x5C
  | Lsh32Reg => 0x6C | Rsh32Reg => 0x7C | Mod32Reg => 0x9C | Xor32Reg => 0xAC | Mov32Reg => 0xBC
  | Arsh32Reg => 0xCC | Le => 0xD4 | Be => 0xDC | LdxByte => 0x71 | LdxHalf => 0x69
  | LdxWord => 0x61 | LdxDword => 0x79 | StByte => 0x72 | StHalf => 0x6A | StWord => 0x62
  | StDword => 0x7A | StxByte => 0x73 | StxHalf => 0x6B | StxWord => 0x63 | StxDword => 0x7B
  | Ja => 0x05 | JeqImm => 0x15 | JeqReg => 0x1D | JgtImm => 0x25 | JgtReg => 0x2D | JgeImm => 0x35
  | JgeReg => 0x3D | JsetImm => 0x45 | JsetReg => 0x4D | JneImm => 0x55 | JneReg => 0x5D
  | JsgtImm => 0x65 | JsgtReg => 0x6D | JsgeImm => 0x75 | JsgeReg => 0x7D | JltImm => 0xA5
  | JltReg => 0xAD | JleImm => 0xB5 | JleReg => 0xBD | JsltImm => 0xC5 | JsltReg => 0xCD
  | JsleImm => 0xD5 | JsleReg => 0xDD | Jeq32Imm => 0x16 | Jeq32Reg => 0x1E | Jgt32Imm => 0x26
  | Jgt32Reg => 0x2E | Jge32Imm => 0x36 | Jge32Reg => 0x3E | Jset32Imm => 0x46 | Jset32Reg => 0x4E
  | Jne32Imm => 0x56 | Jne32Reg => 0x5E | Jsgt32Imm => 0x66 | Jsgt32Reg => 0x6E | Jsge32Imm => 0x76
  | Jsge32Reg => 0x7E | Jlt32Imm => 0xA6 | Jlt32Reg => 0xAE | Jle32Imm => 0xB6 | Jle32Reg => 0xBE
  | Jslt32Imm => 0xC6 | Jslt32Reg => 0xCE | Jsle32Imm => 0xD6 | Jsle32Reg => 0xDE | Call => 0x85
  | Syscall => 0x8D | Exit => 0x95
  end.

(** The assignments that fill the lookup table, in order. *)
Definition OPCODE_TABLE : list (Z * Opcode) :=
  [(0x18, Lddw); (0x07, Add64Imm); (0x17, Sub64Imm); (0x27, Mul64Imm); (0x37, Div64Imm);
   (0x47, Or64Imm); (0x57, And64Imm); (0x67, Lsh64Imm); (0x77, Rsh64Imm); (0x87, Neg64);
   (0x97, Mod64Imm); (0xA7, Xor64Imm); (0xB7, Mov64Imm); (0xC7, Arsh64Imm); (0x0F, Add64Reg);
   (0x1F, Sub64Reg); (0x2F, Mul64Reg); (0x3F, Div64Reg); (0x4F, Or64Reg); (0x5F, And64Reg);
   (0x6F, Lsh64Reg); (0x7F, Rsh64Reg); (0x9F, Mod64Reg); (0xAF, Xor64Reg); (0xBF, Mov64Reg);
   (0xCF, Arsh64Reg); (0x04, Add32Imm); (0x14, Sub32Imm); (0x24, Mul32Imm); (0x34, Div32Imm);
   (0x44, Or32Imm); (0x54, And32Imm); (0x64, Lsh32Imm); (0x74, Rsh32Imm); (0x84, Neg32);
   (0x94, Mod32Imm); (0xA4, Xor32Imm); (0xB4, Mov32Imm); (0xC4, Arsh32Imm); (0x0C, Add32Reg);
   (0x1C, Sub32Reg); (0x2C, Mul32Reg); (0x3C, Div32Reg); (0x4C, Or32Reg); (0x5C, And32Reg);
   (0x6C, Lsh32Reg); (0x7C, Rsh32Reg); (0x9C, Mod32Reg); (0xAC, Xor32Reg); (0xBC, Mov32Reg);
   (0xCC, Arsh32Reg); (0xD4, Le); (0xDC, Be); (0x71, LdxByte); (0x69, LdxHalf); (0x61, LdxWord);
   (0x79, LdxDword); (0x72, StByte); (0x6A, StHalf); (0x62, StWord); (0x7A, StDword);
   (0x73, StxByte); (0x6B, StxHalf); (0x63, StxWord); (0x7B, StxDword); (0x05, Ja); (0x15, JeqImm);
   (0x1D, JeqReg); (0x25, JgtImm); (0x2D, JgtReg); (0x35, JgeImm); (0x3D, JgeReg); (0x45, JsetImm);
   (0x4D, JsetReg); (0x55, JneImm); (0x5D, JneReg); (0x65, JsgtImm); (0x6D, JsgtReg);
   (0x75, JsgeImm); (0x7D, JsgeReg); (0xA5, JltImm); (0xAD, JltReg); (0xB5, JleImm);
   (0xBD, JleReg); (0xC5, JsltImm); (0xCD, JsltReg); (0xD5, JsleImm); (0xDD, JsleReg);
   (0x16, Jeq32Imm); (0x1E, Jeq32Reg); (0x26, Jgt32Imm); (0x2E, Jgt32Reg); (0x36, Jge32Imm);
   (0x3E, Jge32Reg); (0x46, Jset32Imm); (0x4E, Jset32Reg); (0x56, Jne32Imm); (0x5E, Jne32Reg);
   (0x66, Jsgt32Imm); (0x6E, Jsgt32Reg); (0x76, Jsge32Imm); (0x7E, Jsge32Reg); (0xA6, Jlt32Imm);
   (0xAE, Jlt32Reg); (0xB6, Jle32Imm); (0xBE, Jle32Reg); (0xC6, Jslt32Imm); (0xCE, Jslt32Reg);
   (0xD6, Jsle32Imm); (0xDE, Jsle32Reg); (0x85, Call); (0x8D, Syscall); (0x95, Exit)].

Definition Opcode_from_raw (raw : Z) : option Opcode :=
  snd <$> find (λ e, e.1 =? raw) OPCODE_TABLE.

(** The table is the inverse of the discriminants. *)
Lemma from_raw_as_u8 op : Opcode_from_raw (Opcode_as_u8 op) = Some op.
Proof. by destruct op. Qed.

Lemma as_u8_from_raw raw op : Opcode_from_raw raw = Some op → Opcode_as_u8 op = raw.
Proof.
  unfold Opcode_from_raw. destruct (find _ OPCODE_TABLE) as [[v o]|] eqn:Hf; [|done].
  intros [= <-]. apply find_some in Hf as [Hin Hv%Z.eqb_eq]. cbn in Hv. subst v.
  assert (Hall : Forall (λ e, Opcode_as_u8 e.2 = e.1) OPCODE_TABLE) by (repeat constructor).
  rewrite Forall_forall in Hall. apply (Hall (raw, o)). by apply list_elem_of_In.
Qed.

#[export] Instance Opcode_as_u8_inj : Inj (=) (=) Opcode_as_u8.
Proof.
  intros x y H. pose proof (from_raw_as_u8 x) as Hx. rewrite H, from_raw_as_u8 in Hx. by injection Hx.
Qed.

#[export] Instance Opcode_eq_dec : EqDecision Opcode.
Proof.
  refine (λ x y, cast_if (decide (Opcode_as_u8 x = Opcode_as_u8 y)));
    [by apply (inj Opcode_as_u8)|congruence].
Defined.

Notation OPCODE_CLASS_MASK := (0x07)%Z (only parsing).
Notation CLASS_ALU32_IMM := (0x04)%Z (only parsing).
Notation CLASS_ALU32_REG := (0x0C)%Z (only parsing).
Notation CLASS_ALU64_IMM := (0x07)%Z (only parsing).
Notation CLASS_ALU64_REG := (0x0F)%Z (only parsing).
Notation CLASS_JMP := (0x05)%Z (only parsing).
Notation CLASS_JMP32 := (0x06)%Z (only parsing).
Notation CLASS_LDX := (0x01)%Z (only parsing).
Notation CLASS_ST := (0x02)%Z (only parsing).
Notation CLASS_STX := (0x03)%Z (only parsing).
Definition INSTRUCTION_SIZE : nat := 8.

Definition raw_is_alu (raw : Z) : bool :=
  (Z.land raw 0x07 =? CLASS_ALU32_IMM) || (Z.land raw 0x07 =? CLASS_ALU64_IMM)
  || (Z.land raw 0x0F =? CLASS_ALU32_REG) || (Z.land raw 0x0F =? CLASS_ALU64_REG).

Definition raw_is_jump (raw : Z) : bool :=
  let class := Z.land raw OPCODE_CLASS_MASK in (class =? CLASS_JMP) || (class =? CLASS_JMP32).

Definition raw_is_memory (raw : Z) : bool :=
  let class := Z.land raw OPCODE_CLASS_MASK in
  (class =? CLASS_LDX) || (class =? CLASS_ST) || (class =? CLASS_STX).

Definition Instruction_is_lddw (i : Instruction) : bool := opcode i =? Opcode_as_u8 Lddw.
Definition Instruction_is_alu (i : Instruction) : bool := raw_is_alu (opcode i).
Definition Instruction_is_jump (i : Instruction) : bool := raw_is_jump (opcode i).
Definition Instruction_is_memory (i : Instruction) : bool := raw_is_memory (opcode i).
Definition Opcode_is_alu (op : Opcode) : bool := raw_is_alu (Opcode_as_u8 op).
Definition Opcode_is_jump (op : Opcode) : bool := raw_is_jump (Opcode_as_u8 op).
Definition Opcode_is_memory (op : Opcode) : bool := raw_is_memory (Opcode_as_u8 op).
Definition Opcode_is_lddw (op : Opcode) : bool := bool_decide (op = Lddw).
Definition Opcode_is_immediate_source (op : Opcode) : bool :=
  (Z.land (Opcode_as_u8 op) 0x08 =? 0) && Opcode_is_alu op.

Inductive InstructionError :=
| UnalignedInput (size : nat)
| TruncatedLddw (pc : nat).

(** [u64::from_le_bytes(bytes[8 * i..8 * i + 8])] *)
Definition word_at (bytes : list Z) (i : nat) : Z :=
  from_le_bytes (take 8 (drop (i * INSTRUCTION_SIZE) bytes)).

(** The loop of [decode_instructions], from slot [i]; [fuel] counts the slots left. *)
Fixpoint decode_loop (fuel : nat) (bytes : list Z) (slot_count i : nat) (acc : list Instruction)
    : result (list Instruction) InstructionError :=
  match fuel with
  | O => Ok acc
  | S fuel =>
      if (slot_count <=? i)%nat then Ok acc
      else
        let insn := Instruction_decode (word_at bytes i) in
        if Instruction_is_lddw insn then
          if (slot_count <=? i + 1)%nat then Err (TruncatedLddw i)
          else decode_loop fuel bytes slot_count (i + 2)
                 (acc ++ [insn; Instruction_decode (word_at bytes (i + 1))])
        else decode_loop fuel bytes slot_count (i + 1) (acc ++ [insn])
  end.

Definition decode_instructions (bytes : list Z) : result (list Instruction) InstructionError :=
  if negb (length bytes mod INSTRUCTION_SIZE =? 0)%nat then Err (UnalignedInput (length bytes))
  else
    let slot_count := (length bytes / INSTRUCTION_SIZE)%nat in
    decode_loop slot_count bytes slot_count 0 [].

(** ** Encoding and decoding *)

(** The values each field can hold. *)
Record instruction_typed (i : Instruction) : Prop := {
  typed_opcode : 0 <= opcode i < 256;
  typed_dst : 0 <= dst i < 16;
  typed_src : 0 <= src i < 16;
  typed_offset : - 2 ^ 15 <= offset i < 2 ^ 15;
  typed_immediate : - 2 ^ 31 <= immediate i < 2 ^ 31;
}.

Lemma decode_fields raw :
  Instruction_decode raw =
  mkInstruction (raw mod 2 ^ 8) ((raw / 2 ^ 8) mod 2 ^ 4) ((raw / 2 ^ 12) mod 2 ^ 4)
    (as_i16 ((raw / 2 ^ 16) mod 2 ^ 16)) (as_i32 ((raw / 2 ^ 32) mod 2 ^ 32)).
Proof.
  unfold Instruction_decode. rewrite !Z.shiftr_div_pow2 by lia.
  by rewrite <- !(Z.land_ones _ 8), <- !(Z.land_ones _ 4), <- !(Z.land_ones _ 16), <- !(Z.land_ones _ 32) by lia.
Qed.

Lemma encode_fields i :
  instruction_typed i →
  Instruction_encode i =
  opcode i + dst i * 2 ^ 8 + src i * 2 ^ 12 + (offset i mod 2 ^ 16) * 2 ^ 16 + wrap32 (immediate i) * 2 ^ 32.
Proof.
  intros [Ho Hd Hs _ _]. unfold Instruction_encode.
  change 0x0F with (Z.ones 4). rewrite !Z.land_ones, !Z.mod_small by lia.
  pose proof (Z.mod_pos_bound (offset i) (2 ^ 16) ltac:(lia)).
  rewrite (lor_shiftl _ _ 8), (lor_shiftl _ _ 12), (lor_shiftl _ _ 16), (lor_shiftl _ _ 32) by lia. done.
Qed.

Lemma decode_typed raw : instruction_typed (Instruction_decode raw).
Proof.
  rewrite decode_fields. unfold as_i16, as_i32.
  pose proof (Z.mod_pos_bound raw (2 ^ 8) ltac:(lia)).
  pose proof (Z.mod_pos_bound (raw / 2 ^ 8) (2 ^ 4) ltac:(lia)).
  pose proof (Z.mod_pos_bound (raw / 2 ^ 12) (2 ^ 4) ltac:(lia)).
  pose proof (Z.mod_pos_bound (raw / 2 ^ 16) (2 ^ 16) ltac:(lia)).
  pose proof (Z.mod_pos_bound (raw / 2 ^ 32) (2 ^ 32) ltac:(lia)).
  split; cbn [opcode dst src offset immediate]; repeat case_match; b2p; lia.
Qed.

Lemma decode_encode i : instruction_typed i → Instruction_decode (Instruction_encode i) = i.
Proof.
  intros Ht. rewrite decode_fields, encode_fields by done. destruct Ht as [Ho Hd Hs Hf Hi].
  destruct i as [o d s f m]. cbn [opcode dst src offset immediate] in *. unfold wrap32, as_i16, as_i32.
  f_equal; repeat case_match; b2p; Z.to_euclidean_division_equations; lia.
Qed.

Lemma encode_decode raw : is_u64 raw → Instruction_encode (Instruction_decode raw) = raw.
Proof.
  intros [? ?]. rewrite encode_fields by apply decode_typed. rewrite decode_fields.
  cbn [opcode dst src offset immediate]. unfold wrap32, as_i16, as_i32, u64_max in *.
  repeat case_match; b2p; Z.to_euclidean_division_equations; lia.
Qed.

(** ** Byte streams *)

(** Every LDDW is followed by its second slot. *)
Fixpoint lddw_paired (insns : list Instruction) : bool :=
  match insns with
  | [] => true
  | i :: rest =>
      if Instruction_is_lddw i then match rest with [] => false | _ :: rest => lddw_paired rest end
      else lddw_paired rest
  end.

Definition encode_program (insns : list Instruction) : list Z :=
  insns ≫= λ i, to_le_bytes 8 (Instruction_encode i).

(** The words of a byte string, decoded. *)
Definition slots (bytes : list Z) (n : nat) : list Instruction :=
  (λ i, Instruction_decode (word_at bytes i)) <$> seq 0 n.

Lemma slots_drop bytes n i :
  (i < n)%nat → drop i (slots bytes n) = Instruction_decode (word_at bytes i) :: drop (S i) (slots bytes n).
Proof.
  intros Hi. apply drop_S. unfold slots. rewrite list_lookup_fmap.
  rewrite lookup_seq_lt by done. done.
Qed.

Lemma slots_done bytes n i : (n <= i)%nat → drop i (slots bytes n) = [].
Proof. intros Hi. apply drop_ge. unfold slots. by rewrite length_fmap, length_seq. Qed.

Lemma decode_loop_spec bytes n fuel i acc :
  (n <= i + fuel)%nat →
  if lddw_paired (drop i (slots bytes n))
  then decode_loop fuel bytes n i acc = Ok (acc ++ drop i (slots bytes n))
  else ∃ pc, decode_loop fuel bytes n i acc = Err (TruncatedLddw pc).
Proof.
  revert i acc. induction fuel as [|fuel IH]; intros i acc Hf; cbn [decode_loop].
  { rewrite slots_done by lia. cbn. by rewrite app_nil_r. }
  destruct (Nat.leb_spec n i) as [Hi|Hi]; [rewrite slots_done by lia; cbn; by rewrite app_nil_r|].
  rewrite slots_drop by done. cbn [lddw_paired]. set (insn := Instruction_decode _).
  destruct (Instruction_is_lddw insn).
  - destruct (Nat.leb_spec n (i + 1)) as [Hi1|Hi1]; [rewrite slots_done by lia; by eexists|].
    rewrite slots_drop by lia.
    specialize (IH (i + 2)%nat (acc ++ [insn; Instruction_decode (word_at bytes (i + 1))]) ltac:(lia)).
    replace (S i) with (i + 1)%nat by lia. replace (S (i + 1)) with (i + 2)%nat by lia.
    rewrite <- app_assoc in IH. exact IH.
  - specialize (IH (i + 1)%nat (acc ++ [insn]) ltac:(lia)).
    replace (S i) with (i + 1)%nat by lia. rewrite <- app_assoc in IH. exact IH.
Qed.

Lemma decode_instructions_spec bytes n :
  length bytes = (n * 8)%nat →
  if lddw_paired (slots bytes n) then decode_instructions bytes = Ok (slots bytes n)
  else ∃ pc, decode_instructions bytes = Err (TruncatedLddw pc).
Proof.
  intros Hlen. unfold decode_instructions, INSTRUCTION_SIZE. rewrite Hlen, Nat.Div0.mod_mul, Nat.div_mul by lia.
  cbn [negb Nat.eqb]. apply (decode_loop_spec bytes n n 0 []). lia.
Qed.

Lemma slots_encode_program insns :
  Forall instruction_typed insns → slots (encode_program insns) (length insns) = insns.
Proof.
  induction 1 as [|i insns Hi _ IH]; [done|]. unfold slots in *. cbn [length seq fmap list_fmap]. f_equal.
  - unfold word_at, encode_program. cbn [mbind list_bind Nat.mul]. rewrite drop_0, take_app_length' by done.
    rewrite from_le_bytes_u64; [by apply decode_encode|]. rewrite encode_fields by done.
    destruct Hi. unfold is_u64, u64_max, wrap32. Z.to_euclidean_division_equations. lia.
  - rewrite <- fmap_S_seq, <- list_fmap_compose. rewrite <- IH at 2. apply list_fmap_ext. intros k x Hx.
    done.
Qed.

Lemma length_encode_program insns : length (encode_program insns) = (length insns * 8)%nat.
Proof.
  induction insns as [|i insns IH]; [done|]. cbn [length]. change (encode_program (i :: insns))
    with (to_le_bytes 8 (Instruction_encode i) ++ encode_program insns). rewrite length_app, IH. done.
Qed.

Lemma encode_slots bytes n :
  length bytes = (n * 8)%nat → Forall is_byte bytes → encode_program (slots bytes n) = bytes.
Proof.
  revert bytes. induction n as [|n IH]; intros bytes Hlen Hb; [by destruct bytes|].
  rewrite <- (take_drop 8 bytes) at 2. rewrite <- (IH (drop 8 bytes)); [|rewrite length_drop; lia|by apply Forall_drop].
  unfold slots, encode_program. cbn [seq fmap list_fmap mbind list_bind]. f_equal.
  - rewrite encode_decode.
    + unfold word_at. cbn [Nat.mul]. rewrite drop_0.
      assert (length (take 8 bytes) = 8%nat) as Hl by (rewrite length_take; lia). rewrite <- Hl at 1.
      apply to_from_le_bytes. by apply Forall_take.
    + unfold word_at. cbn [Nat.mul]. rewrite drop_0. apply from_le_bytes_is_u64; [rewrite length_take; lia|].
      by apply Forall_take.
  - f_equal. rewrite <- fmap_S_seq, <- list_fmap_compose. apply list_fmap_ext. intros k x Hx. cbn.
    f_equal. unfold word_at, INSTRUCTION_SIZE. by rewrite drop_drop.
Qed.

(** Program text and bytes determine each other.  Decoding the encoding of any
    instructions returns them, unless an LDDW at the end lacks its second slot, which is
    refused; and a byte string that decodes is the encoding of the instructions it
    decodes to, all of them in range.  An instruction byte decodes to an opcode exactly
    when it is the value of that opcode. *)
Theorem program_roundtrip insns bytes :
  Forall instruction_typed insns → Forall is_byte bytes →
  (if lddw_paired insns then decode_instructions (encode_program insns) = Ok insns
   else ∃ pc, decode_instructions (encode_program insns) = Err (TruncatedLddw pc))
  ∧ (∀ js, decode_instructions bytes = Ok js → Forall instruction_typed js ∧ encode_program js = bytes)
  ∧ ∀ raw op, Opcode_from_raw raw = Some op ↔ raw = Opcode_as_u8 op.
Proof.
  intros His Hb. split_and!.
  - pose proof (decode_instructions_spec (encode_program insns) (length insns) (length_encode_program insns)) as H.
    by rewrite slots_encode_program in H.
  - intros js Hjs. assert (Hn : length bytes = (length bytes / 8 * 8)%nat).
    { unfold decode_instructions, INSTRUCTION_SIZE in Hjs.
      destruct (Nat.eqb_spec (length bytes mod 8) 0) as [E|]; [|discriminate Hjs].
      pose proof (Nat.div_mod_eq (length bytes) 8). lia. }
    pose proof (decode_instructions_spec bytes _ Hn) as H. destruct (lddw_paired _).
    + assert (js = slots bytes (length bytes / 8)) as -> by congruence.
      split; [|by apply encode_slots]. apply Forall_fmap, Forall_forall. intros. apply decode_typed.
    + destruct H as [? ?]. congruence.
  - intros raw op. split; [intros <-%as_u8_from_raw; done|intros ->; apply from_raw_as_u8].
Qed.

Lemma program_roundtrip_witness :
  decode_instructions (encode_program [mkInstruction 0x18 1 0 0 (-1); mkInstruction 0 0 0 0 5; mkInstruction 0x95 0 0 0 0])
  = Ok [mkInstruction 0x18 1 0 0 (-1); mkInstruction 0 0 0 0 5; mkInstruction 0x95 0 0 0 0].
Proof.
  apply (program_roundtrip [mkInstruction 0x18 1 0 0 (-1); mkInstruction 0 0 0 0 5; mkInstruction 0x95 0 0 0 0] []);
    [|constructor].
  repeat constructor; cbn; lia.
Defined.
