(* ===== verification/SbpfMemory.v ===== *)
(** * Memory of the sBPF virtual machine

    [karstflow-sbpf/src/memory.rs]: four regions behind one virtual address space, typed
    loads and stores with bounds and permission checks, and the stack frames.  A region
    is its bytes; [usize] arithmetic wraps around, and taking a slice out of range panics
    ([Outcome]). *)
From stdpp Require Import base tactics list.
From Stdlib Require Import ZArith Lia.
From S2P Require Import Prelude.
Local Open Scope Z_scope.

Notation REGION_PROGRAM_BASE := (0x100000000)%Z (only parsing).
Definition REGION_STACK_BASE : Z := 0x200000000.
Definition REGION_HEAP_BASE : Z := 0x300000000.
Definition REGION_INPUT_BASE : Z := 0x400000000.
Definition REGION_INDEX_MASK : Z := 0xF00000000.
Definition REGION_OFFSET_MASK : Z := 0x0FFFFFFFF.
Notation STACK_FRAME_SIZE := (4096)%Z (only parsing).

Inductive MemoryError :=
| UnmappedAddress (addr : Z)
| OutOfBounds (addr size region_len : Z)
| ReadOnlyRegion (addr : Z)
| UnalignedAccess (addr alignment : Z)
| StackOverflow
| StackUnderflow.

Record MemoryRegion := mkMemoryRegion {
  mr_base : Z;
  mr_data : list Z;
  mr_writable : bool;
}.

Definition mr_len (r : MemoryRegion) : Z := Z.of_nat (length (mr_data r)).

Inductive RegionId := RegionProgram | RegionStack | RegionHeap | RegionInput.

#[export] Instance RegionId_eq_dec : EqDecision RegionId.
Proof. solve_decision. Defined.

Definition RegionId_from_addr (addr : Z) : option RegionId :=
  let index := Z.land addr REGION_INDEX_MASK in
  if index =? REGION_PROGRAM_BASE then Some RegionProgram
  else if index =? REGION_STACK_BASE then Some RegionStack
  else if index =? REGION_HEAP_BASE then Some RegionHeap
  else if index =? REGION_INPUT_BASE then Some RegionInput
  else None.

Record MemoryMap := mkMemoryMap {
  mm_program : MemoryRegion;
  mm_stack : MemoryRegion;
  mm_heap : MemoryRegion;
  mm_input : MemoryRegion;
  mm_frame_index : Z;
  mm_dynamic_frames : bool;
}.

Definition MemoryMap_new (program_data : list Z) (stack_size heap_size : nat) (input_data : list Z) : MemoryMap :=
  {| mm_program := mkMemoryRegion REGION_PROGRAM_BASE program_data false;
     mm_stack := mkMemoryRegion REGION_STACK_BASE (replicate stack_size 0) true;
     mm_heap := mkMemoryRegion REGION_HEAP_BASE (replicate heap_size 0) true;
     mm_input := mkMemoryRegion REGION_INPUT_BASE input_data true;
     mm_frame_index := 0;
     mm_dynamic_frames := false |}.

Definition with_frame_index (m : MemoryMap) (i : Z) : MemoryMap :=
  mkMemoryMap (mm_program m) (mm_stack m) (mm_heap m) (mm_input m) i (mm_dynamic_frames m).

Definition MemoryMap_set_dynamic_frames (m : MemoryMap) (dynamic : bool) : MemoryMap :=
  mkMemoryMap (mm_program m) (mm_stack m) (mm_heap m) (mm_input m) (mm_frame_index m) dynamic.

Definition MemoryMap_frame_pointer (m : MemoryMap) : Z :=
  if mm_dynamic_frames m
  then wrap64 (REGION_STACK_BASE + mr_len (mm_stack m) - mm_frame_index m * STACK_FRAME_SIZE)
  else wrap64 (REGION_STACK_BASE + (mm_frame_index m + 1) * STACK_FRAME_SIZE).

Definition MemoryMap_max_frames (m : MemoryMap) : Z := mr_len (mm_stack m) / STACK_FRAME_SIZE.

Definition MemoryMap_push_frame (m : MemoryMap) : result Z MemoryError * MemoryMap :=
  if MemoryMap_max_frames m <=? mm_frame_index m + 1 then (Err StackOverflow, m)
  else let m := with_frame_index m (mm_frame_index m + 1) in (Ok (MemoryMap_frame_pointer m), m).

Definition MemoryMap_pop_frame (m : MemoryMap) : result Z MemoryError * MemoryMap :=
  if mm_frame_index m <? 1 then (Err StackUnderflow, m)
  else let m := with_frame_index m (mm_frame_index m - 1) in (Ok (MemoryMap_frame_pointer m), m).

(** The region of an identifier, and replacing its bytes. *)
Definition region (m : MemoryMap) (id : RegionId) : MemoryRegion :=
  match id with
  | RegionProgram => mm_program m
  | RegionStack => mm_stack m
  | RegionHeap => mm_heap m
  | RegionInput => mm_input m
  end.

Definition with_data (m : MemoryMap) (id : RegionId) (data : list Z) : MemoryMap :=
  let set r := mkMemoryRegion (mr_base r) data (mr_writable r) in
  match id with
  | RegionProgram => mkMemoryMap (set (mm_program m)) (mm_stack m) (mm_heap m) (mm_input m) (mm_frame_index m) (mm_dynamic_frames m)
  | RegionStack => mkMemoryMap (mm_program m) (set (mm_stack m)) (mm_heap m) (mm_input m) (mm_frame_index m) (mm_dynamic_frames m)
  | RegionHeap => mkMemoryMap (mm_program m) (mm_stack m) (set (mm_heap m)) (mm_input m) (mm_frame_index m) (mm_dynamic_frames m)
  | RegionInput => mkMemoryMap (mm_program m) (mm_stack m) (mm_heap m) (set (mm_input m)) (mm_frame_index m) (mm_dynamic_frames m)
  end.

Definition addr_offset (addr : Z) : Z := Z.land addr REGION_OFFSET_MASK.

Definition MemoryMap_region_for_addr (addr : Z) : result RegionId MemoryError :=
  match RegionId_from_addr addr with
  | Some id => Ok id
  | None => Err (UnmappedAddress addr)
  end.

Definition MemoryMap_resolve_read (m : MemoryMap) (addr size : Z) : result (RegionId * Z) MemoryError :=
  match MemoryMap_region_for_addr addr with
  | Err e => Err e
  | Ok id =>
      let off := addr_offset addr in
      if mr_len (region m id) <? u64_add off size
      then Err (OutOfBounds addr size (mr_len (region m id)))
      else Ok (id, off)
  end.

Definition MemoryMap_resolve_write (m : MemoryMap) (addr size : Z) : result (RegionId * Z) MemoryError :=
  match RegionId_from_addr addr with
  | None => Err (UnmappedAddress addr)
  | Some id =>
      let off := addr_offset addr in
      if negb (mr_writable (region m id)) then Err (ReadOnlyRegion addr)
      else if mr_len (region m id) <? u64_add off size
      then Err (OutOfBounds addr size (mr_len (region m id)))
      else Ok (id, off)
  end.

(** [data[off..off + size]] *)
Definition slice (data : list Z) (off size : Z) : Outcome (list Z) :=
  let e := u64_add off size in
  if (e <? off) || (Z.of_nat (length data) <? e) then Panicked
  else Done (take (Z.to_nat size) (drop (Z.to_nat off) data)).

(** [data[off..off + bytes.len()].copy_from_slice(bytes)] *)
Definition splice (data : list Z) (off : Z) (bytes : list Z) : Outcome (list Z) :=
  _ ← slice data off (Z.of_nat (length bytes));
  Done (take (Z.to_nat off) data ++ bytes ++ drop (Z.to_nat off + length bytes) data).

(** [read_slice] *)
Definition MemoryMap_read_slice (m : MemoryMap) (addr len : Z) : Outcome (result (list Z) MemoryError) :=
  match MemoryMap_resolve_read m addr len with
  | Err e => Done (Err e)
  | Ok (id, off) => bytes ← slice (mr_data (region m id)) off len; Done (Ok bytes)
  end.

Definition MemoryMap_write_slice (m : MemoryMap) (addr : Z) (data : list Z)
    : Outcome (result () MemoryError * MemoryMap) :=
  match MemoryMap_resolve_write m addr (Z.of_nat (length data)) with
  | Err e => Done (Err e, m)
  | Ok (id, off) => data ← splice (mr_data (region m id)) off data; Done (Ok (), with_data m id data)
  end.

(** [load8], [load16], [load32] and [load64] are the load of 1, 2, 4 and 8 bytes. *)
Definition MemoryMap_load (n : nat) (m : MemoryMap) (addr : Z) : Outcome (result Z MemoryError) :=
  r ← MemoryMap_read_slice m addr (Z.of_nat n);
  Done (match r with Ok bytes => Ok (from_le_bytes bytes) | Err e => Err e end).

(** [store8] to [store64]: the low [n] bytes of the value, [value as u16] and the like. *)
Definition MemoryMap_store (n : nat) (m : MemoryMap) (addr value : Z) : Outcome (result () MemoryError * MemoryMap) :=
  MemoryMap_write_slice m addr (to_le_bytes n value).

Definition MemoryMap_translate_slice (m : MemoryMap) (addr len : Z) : Outcome (result (list Z) MemoryError) :=
  if len =? 0 then Done (Ok []) else MemoryMap_read_slice m addr len.

(** [translate_slice_mut]: where the writable slice is. *)
Definition MemoryMap_translate_slice_mut (m : MemoryMap) (addr len : Z)
    : Outcome (result (option (RegionId * Z)) MemoryError) :=
  if len =? 0 then Done (Ok None)
  else match MemoryMap_resolve_write m addr len with
       | Err e => Done (Err e)
       | Ok (id, off) => _ ← slice (mr_data (region m id)) off len; Done (Ok (Some (id, off)))
       end.

(** [translate_type] for a type of [size] bytes and alignment [align]: its bytes. *)
Definition MemoryMap_translate_type (m : MemoryMap) (size align addr : Z) : Outcome (result (list Z) MemoryError) :=
  if (1 <? align) && negb (addr_offset addr mod align =? 0) then Done (Err (UnalignedAccess addr align))
  else MemoryMap_read_slice m addr size.

Definition MemoryMap_translate_type_mut (m : MemoryMap) (size align addr : Z)
    : Outcome (result (option (RegionId * Z)) MemoryError) :=
  if (1 <? align) && negb (addr_offset addr mod align =? 0) then Done (Err (UnalignedAccess addr align))
  else match MemoryMap_resolve_write m addr size with
       | Err e => Done (Err e)
       | Ok (id, off) => _ ← slice (mr_data (region m id)) off size; Done (Ok (Some (id, off)))
       end.

Definition MemoryMap_input_data (m : MemoryMap) : list Z := mr_data (mm_input m).

(** ** Accesses *)

Lemma addr_offset_bound addr : 0 <= addr_offset addr < 2 ^ 32.
Proof.
  unfold addr_offset, REGION_OFFSET_MASK. change 0x0FFFFFFFF with (Z.ones 32).
  rewrite Z.land_ones by lia. apply Z.mod_pos_bound. lia.
Qed.

(** Sizes that do not make [offset + size] wrap around. *)
Lemma offset_add addr size : 0 <= size < 2 ^ 63 → u64_add (addr_offset addr) size = addr_offset addr + size.
Proof.
  intros ?. pose proof (addr_offset_bound addr). apply wrap64_small. unfold is_u64, u64_max. lia.
Qed.

Lemma slice_in_range data addr size :
  0 <= size < 2 ^ 63 → addr_offset addr + size <= Z.of_nat (length data) →
  slice data (addr_offset addr) size
  = Done (take (Z.to_nat size) (drop (Z.to_nat (addr_offset addr)) data)).
Proof.
  intros Hs Hl. unfold slice. rewrite offset_add by done.
  rewrite (proj2 (Z.ltb_ge (addr_offset addr + size) (addr_offset addr))) by lia.
  by rewrite (proj2 (Z.ltb_ge (Z.of_nat (length data)) (addr_offset addr + size))) by lia.
Qed.

(** [size] bytes at [addr] lie inside the region [id]. *)
Definition accessible (m : MemoryMap) (addr size : Z) (id : RegionId) : Prop :=
  RegionId_from_addr addr = Some id ∧ addr_offset addr + size <= mr_len (region m id).

Lemma read_slice_spec m addr size :
  0 <= size < 2 ^ 63 →
  MemoryMap_read_slice m addr size =
  Done (match RegionId_from_addr addr with
        | None => Err (UnmappedAddress addr)
        | Some id =>
            if addr_offset addr + size <=? mr_len (region m id)
            then Ok (take (Z.to_nat size) (drop (Z.to_nat (addr_offset addr)) (mr_data (region m id))))
            else Err (OutOfBounds addr size (mr_len (region m id)))
        end).
Proof.
  intros Hs. unfold MemoryMap_read_slice, MemoryMap_resolve_read, MemoryMap_region_for_addr.
  destruct (RegionId_from_addr addr) as [id|] eqn:Hid; [|done]. rewrite offset_add by done.
  destruct (Z.ltb_spec (mr_len (region m id)) (addr_offset addr + size)) as [Hlt|Hge].
  - by rewrite (proj2 (Z.leb_gt (addr_offset addr + size) (mr_len (region m id)))) by lia.
  - rewrite slice_in_range by done.
    by rewrite (proj2 (Z.leb_le (addr_offset addr + size) (mr_len (region m id)))) by lia.
Qed.

Lemma write_slice_spec m addr bytes :
  Z.of_nat (length bytes) < 2 ^ 63 →
  MemoryMap_write_slice m addr bytes =
  Done (match RegionId_from_addr addr with
        | None => (Err (UnmappedAddress addr), m)
        | Some id =>
            if mr_writable (region m id) then
              if addr_offset addr + Z.of_nat (length bytes) <=? mr_len (region m id)
              then let off := Z.to_nat (addr_offset addr) in
                   let data := mr_data (region m id) in
                   (Ok (), with_data m id (take off data ++ bytes ++ drop (off + length bytes) data))
              else (Err (OutOfBounds addr (Z.of_nat (length bytes)) (mr_len (region m id))), m)
            else (Err (ReadOnlyRegion addr), m)
        end).
Proof.
  intros Hs. unfold MemoryMap_write_slice, MemoryMap_resolve_write.
  destruct (RegionId_from_addr addr) as [id|] eqn:Hid; [|done].
  destruct (mr_writable (region m id)); [|done]. cbn [negb]. rewrite offset_add by lia.
  destruct (Z.ltb_spec (mr_len (region m id)) (addr_offset addr + Z.of_nat (length bytes))) as [Hlt|Hge].
  - by rewrite (proj2 (Z.leb_gt (addr_offset addr + Z.of_nat (length bytes)) (mr_len (region m id)))) by lia.
  - unfold splice. rewrite slice_in_range by (done || lia).
    by rewrite (proj2 (Z.leb_le (addr_offset addr + Z.of_nat (length bytes)) (mr_len (region m id)))) by lia.
Qed.

Lemma region_with_data m id data id' :
  mr_data (region (with_data m id data) id') = if decide (id' = id) then data else mr_data (region m id').
Proof. by destruct id, id'. Qed.

Lemma region_with_data_writable m id data id' :
  mr_writable (region (with_data m id data) id') = mr_writable (region m id').
Proof. by destruct id, id'. Qed.

Lemma region_with_data_other m id data id' : id' ≠ id → region (with_data m id data) id' = region m id'.
Proof. by destruct id, id'. Qed.

Lemma splice_lookup (data bytes : list Z) off i :
  (off + length bytes <= length data)%nat → (i < off ∨ off + length bytes <= i)%nat →
  (take off data ++ bytes ++ drop (off + length bytes) data) !! i = data !! i.
Proof.
  intros Hl [Hi|Hi].
  - rewrite lookup_app_l by (rewrite length_take; lia). by apply lookup_take_lt.
  - rewrite lookup_app_r by (rewrite length_take; lia).
    rewrite lookup_app_r by (rewrite length_take; lia). rewrite lookup_drop, length_take. f_equal. lia.
Qed.

Lemma length_splice (data bytes : list Z) off :
  (off + length bytes <= length data)%nat →
  length (take off data ++ bytes ++ drop (off + length bytes) data) = length data.
Proof. intros. rewrite !length_app, length_take, length_drop. lia. Qed.

(** [n] bytes at [addr] and [k] bytes at [addr'] do not overlap. *)
Definition disjoint_access (addr n addr' k : Z) : Prop :=
  RegionId_from_addr addr ≠ RegionId_from_addr addr'
  ∨ addr_offset addr + n <= addr_offset addr' ∨ addr_offset addr' + k <= addr_offset addr.

Lemma read_after_write m m' addr bytes addr' k :
  Z.of_nat (length bytes) < 2 ^ 63 → 0 <= k < 2 ^ 63 →
  MemoryMap_write_slice m addr bytes = Done (Ok (), m') →
  (disjoint_access addr (Z.of_nat (length bytes)) addr' k →
     MemoryMap_read_slice m' addr' k = MemoryMap_read_slice m addr' k)
  ∧ MemoryMap_read_slice m' addr (Z.of_nat (length bytes)) = Done (Ok bytes).
Proof.
  intros Hb Hk Hw. rewrite write_slice_spec in Hw by done.
  destruct (RegionId_from_addr addr) as [id|] eqn:Hid; [|done].
  destruct (mr_writable (region m id)); [|done]. 
  destruct (Z.leb_spec (addr_offset addr + Z.of_nat (length bytes)) (mr_len (region m id))) as [Hlen|]; [|done].
  injection Hw as <-. unfold mr_len in Hlen. pose proof (addr_offset_bound addr).
  rewrite !read_slice_spec, Hid by lia. unfold mr_len. split.
  - unfold disjoint_access. rewrite Hid. intros Hdis. destruct (RegionId_from_addr addr') as [id'|]; [|done].
    destruct (decide (id' = id)) as [->|Hne]; [|by rewrite !region_with_data_other].
    rewrite region_with_data, decide_True by done. rewrite length_splice by lia.
    case_match; [|done]. b2p. do 2 f_equal. pose proof (addr_offset_bound addr').
    apply list_eq. intros i. destruct (decide (i < Z.to_nat k)%nat) as [Hi|Hi];
      [|by rewrite !lookup_take_ge by lia].
    rewrite !lookup_take_lt, !lookup_drop by done. apply splice_lookup; [lia|].
    destruct Hdis as [?|[?|?]]; [done|lia..].
  - rewrite region_with_data, decide_True by done. rewrite length_splice by lia.
    rewrite (proj2 (Z.leb_le _ _)) by done. do 2 f_equal.
    rewrite drop_app_length', take_app_length' by (rewrite ?length_take; lia). done.
Qed.

(** What no store changes: the layout of the regions, their permissions, the read-only
    bytes and the stack frames. *)
Record same_layout (m m' : MemoryMap) : Prop := {
  same_length : ∀ id, length (mr_data (region m' id)) = length (mr_data (region m id));
  same_writable : ∀ id, mr_writable (region m' id) = mr_writable (region m id);
  same_read_only : ∀ id, mr_writable (region m id) = false → region m' id = region m id;
  same_frame_index : mm_frame_index m' = mm_frame_index m;
  same_dynamic : mm_dynamic_frames m' = mm_dynamic_frames m;
}.

#[export] Instance same_layout_refl : Reflexive same_layout.
Proof. by split. Qed.

#[export] Instance same_layout_trans : Transitive same_layout.
Proof.
  intros m1 m2 m3 [L W R F D] [L' W' R' F' D']. split.
  - intros id. by rewrite L'.
  - intros id. by rewrite W'.
  - intros id Hid. rewrite R'; [by apply R|by rewrite W].
  - congruence.
  - congruence.
Qed.

Lemma write_slice_layout m addr bytes r m' :
  Z.of_nat (length bytes) < 2 ^ 64 →
  MemoryMap_write_slice m addr bytes = Done (r, m') → same_layout m m' ∧ (r ≠ Ok () → m' = m).
Proof.
  intros Hb. unfold MemoryMap_write_slice, MemoryMap_resolve_write.
  destruct (RegionId_from_addr addr) as [id|]; [|by intros [= <- <-]].
  destruct (mr_writable (region m id)) eqn:Hw; cbn [negb]; [|by intros [= <- <-]].
  destruct (mr_len (region m id) <? _) eqn:Hlt; [by intros [= <- <-]|].
  intros (data & Hs & [= <- <-])%bind_Done. split; [|done].
  unfold splice in Hs. apply bind_Done in Hs as (x & Hx & [= <-]). unfold slice in Hx.
  destruct (_ || _) eqn:Hr; [done|]. b2p. pose proof (addr_offset_bound addr).
  assert (Hlen : (Z.to_nat (addr_offset addr) + length bytes <= length (mr_data (region m id)))%nat).
  { unfold u64_add, wrap64 in *. Z.to_euclidean_division_equations. lia. }
  split; [| | |by destruct id|by destruct id].
  - intros id'. rewrite region_with_data. case_decide as E; [subst; by apply length_splice|done].
  - intros id'. apply region_with_data_writable.
  - intros id' Hro. apply region_with_data_other. intros ->. congruence.
Qed.

(** C28. Memory accesses are checked and exact.  A load or store of up to eight bytes
    never panics.  It succeeds exactly when the bytes lie inside the region of the
    address, and for a store the region is writable; a store that fails changes nothing.
    A store that succeeds is read back, truncated to its width, changes no byte outside
    the range it writes, and leaves the size and permissions of every region and all
    read-only data as they were. *)
Theorem memory_access_exact m addr n v :
  (n <= 8)%nat →
  (∃ r, MemoryMap_load n m addr = Done r ∧
        ((∃ x, r = Ok x) ↔ ∃ id, accessible m addr (Z.of_nat n) id))
  ∧ ∃ r m', MemoryMap_store n m addr v = Done (r, m')
    ∧ (r = Ok () ↔ ∃ id, accessible m addr (Z.of_nat n) id ∧ mr_writable (region m id) = true)
    ∧ (r ≠ Ok () → m' = m)
    ∧ (r = Ok () → MemoryMap_load n m' addr = Done (Ok (v mod 256 ^ Z.of_nat n)))
    ∧ (r = Ok () → ∀ k addr', (k <= 8)%nat → disjoint_access addr (Z.of_nat n) addr' (Z.of_nat k) →
         MemoryMap_load k m' addr' = MemoryMap_load k m addr')
    ∧ same_layout m m'.
Proof.
  intros Hn. split.
  - unfold MemoryMap_load, accessible. rewrite read_slice_spec by lia.
    eexists. split; [done|]. destruct (RegionId_from_addr addr) as [id|]; [|naive_solver].
    destruct (Z.leb_spec (addr_offset addr + Z.of_nat n) (mr_len (region m id))).
    + split; [intros _; exists id; by split|intros _; by eexists].
    + split; [intros [x Hx]; discriminate Hx|]. intros (id' & [= <-] & Hle). lia.
  - assert (Hl : length (to_le_bytes n v) = n) by apply length_to_le_bytes.
    destruct (MemoryMap_store n m addr v) as [[r m']|] eqn:Hst.
    2: { unfold MemoryMap_store in Hst. rewrite write_slice_spec in Hst by lia. discriminate Hst. }
    unfold MemoryMap_store in Hst. destruct (write_slice_layout m addr (to_le_bytes n v) r m') as [Hlay Hsame]; [lia|done|].
    exists r, m'. split_and!; [done| |done| | |done].
    + rewrite write_slice_spec, Hl in Hst by lia. unfold accessible.
      destruct (RegionId_from_addr addr) as [id|];
        [|injection Hst as <- <-; split; [by intros Hx|by intros (? & [? _] & _)]].
      destruct (mr_writable (region m id)) eqn:Hw;
        [|injection Hst as <- <-; split; [by intros Hx|intros (? & [[= <-] _] & ?); congruence]].
      destruct (Z.leb_spec (addr_offset addr + Z.of_nat n) (mr_len (region m id))); injection Hst as <- <-.
      * split; [|done]. intros _. by exists id.
      * split; [intros Hx; discriminate Hx|]. intros (id' & [[= <-] Hle] & _). lia.
    + intros ->. apply read_after_write with (addr' := addr) (k := 0) in Hst as [_ Hrd]; [|lia..].
      rewrite Hl in Hrd. unfold MemoryMap_load. rewrite Hrd. cbn. by rewrite from_to_le_bytes_mod.
    + intros -> k addr' Hk Hdis. unfold MemoryMap_load.
      apply read_after_write with (addr' := addr') (k := Z.of_nat k) in Hst as [Hrd _]; [|lia..].
      rewrite Hl in Hrd. by rewrite Hrd.
Qed.

Definition small_memory : MemoryMap := MemoryMap_new [1; 2; 3; 4] (Z.to_nat 8192) 16 [5; 6; 7; 8].

Lemma memory_access_exact_witness :
  ∃ m', MemoryMap_store 2 small_memory (REGION_INPUT_BASE + 1) 0x12345 = Done (Ok (), m')
    ∧ MemoryMap_load 2 m' (REGION_INPUT_BASE + 1) = Done (Ok 0x2345).
Proof.
  destruct (memory_access_exact small_memory (REGION_INPUT_BASE + 1) 2 0x12345)
    as (_ & r & m' & Hst & Hok & _ & Hld & _); [lia|].
  assert (r = Ok ()) as ->.
  { apply Hok. exists RegionInput. split; [split|]; [reflexivity|vm_compute; discriminate|reflexivity]. }
  exists m'. split; [exact Hst|]. exact (Hld eq_refl).
Defined.

(** Only bits 32 to 35 of an address select the region: addresses that differ above
    them are the same address. *)
Lemma high_address_bits_ignored m addr size k :
  MemoryMap_resolve_read m (addr + k * 2 ^ 36) size = MemoryMap_resolve_read m addr size
  ∨ ∃ e e', MemoryMap_resolve_read m (addr + k * 2 ^ 36) size = Err e
            ∧ MemoryMap_resolve_read m addr size = Err e'.
Proof.
  assert (Hland : ∀ mask, 0 <= mask < 2 ^ 36 → Z.land (addr + k * 2 ^ 36) mask = Z.land addr mask).
  { intros mask Hm. assert (mask = Z.land (Z.ones 36) mask) as ->.
    { rewrite Z.land_comm, Z.land_ones, Z.mod_small by lia. done. }
    rewrite !Z.land_assoc, !Z.land_ones, Z.mod_add by lia. done. }
  assert (Hid : RegionId_from_addr (addr + k * 2 ^ 36) = RegionId_from_addr addr).
  { unfold RegionId_from_addr. rewrite Hland; [done|unfold REGION_INDEX_MASK; lia]. }
  assert (Hoff : addr_offset (addr + k * 2 ^ 36) = addr_offset addr).
  { apply Hland. unfold REGION_OFFSET_MASK. lia. }
  unfold MemoryMap_resolve_read, MemoryMap_region_for_addr. rewrite Hid, Hoff.
  destruct (RegionId_from_addr addr) as [id|]; [|right; by do 2 eexists].
  destruct (mr_len (region m id) <? _); [right; by do 2 eexists|by left].
Qed.
