(* ===== verification/SbpfVm.v ===== *)
(** * The sBPF interpreter

    [karstflow-sbpf/src/interpreter.rs], the fetch-decode-execute loop, and the version
    flags and loaded program of [elf_loader.rs].  Registers, the program counter and the
    compute meter are [u64] values; Rust's wrapping and truncating operations are written
    out.  [step] is one pass of the loop; [run] repeats it with fuel, [None] when the
    fuel runs out.  Reading a register that does not exist panics, as indexing the
    register array does.

    Syscalls go through a trait in the source; here they are the class
    [SyscallDispatch], with the promises the interpreter relies on in [SyscallLaws].  The
    text of an error is kept as the data it is formatted from.  The sysvar snapshot is an
    opaque value with its set of active features. *)
From stdpp Require Import base tactics list gmap.
From Stdlib Require Import ZArith Lia.
From S2P Require Import Prelude SbpfInsn SbpfMemory.
Local Open Scope Z_scope.

Definition REGISTER_COUNT : nat := 11.
Definition REG_CALLEE_SAVED_START : nat := 6.
Notation CALLEE_SAVED_COUNT := (4)%nat (only parsing).
Notation MAX_CALL_DEPTH := (64)%nat (only parsing).
Definition CU_PER_INSTRUCTION : Z := 1.
Definition MAX_INSTRUCTIONS : Z := 10000000.

Inductive SbpfVersion := V0 | V1 | V2 | V3.

Definition SbpfVersion_from_flags (flags : Z) : SbpfVersion :=
  if flags =? 3 then V3 else if flags =? 2 then V2 else if flags =? 1 then V1 else V0.

Definition SbpfVersion_version_number (v : SbpfVersion) : Z :=
  match v with V0 => 0 | V1 => 1 | V2 => 2 | V3 => 3 end.

Definition SbpfVersion_lddw_disabled (v : SbpfVersion) : bool :=
  match v with V2 | V3 => true | _ => false end.

Definition SbpfVersion_le_disabled (v : SbpfVersion) : bool :=
  match v with V2 | V3 => true | _ => false end.

Definition SbpfVersion_neg_disabled (v : SbpfVersion) : bool :=
  match v with V2 | V3 => true | _ => false end.

Definition SbpfVersion_callx_uses_src_register (v : SbpfVersion) : bool :=
  match v with V2 | V3 => true | _ => false end.

Record LoadedProgram := mkLoadedProgram {
  lp_instructions : list Instruction;
  lp_rodata : list Z;
  lp_entry_point : Z;
  lp_call_targets : gmap Z Z;
  lp_sbpf_version : SbpfVersion;
  lp_text_bytes : list Z;
  lp_text_file_offset : Z;
}.

Inductive VmError :=
| ComputeBudgetExceeded
| AccessViolation (addr size pc : Z)
| DivisionByZero (pc : Z)
| CallDepthExceeded (pc : Z)
| InvalidInstruction (pc opcode : Z)
| PcOutOfBounds (pc len : Z)
| UnknownSyscall (id : Z)
| SyscallError (message : list Z)
| SyscallErrorAtCall (pc target_id : Z) (e : VmError)
| SyscallErrorCallx (pc callx_reg reg_val : Z)
| InstructionLimitExceeded
| VmMemoryError (e : MemoryError)
| VmStackUnderflow.

Record CallFrame := mkCallFrame {
  cf_return_pc : Z;
  cf_saved_registers : list Z;
  cf_frame_pointer : Z;
}.

Record VmResult := mkVmResult {
  vr_return_value : Z;
  vr_compute_units_consumed : Z;
  vr_logs : list (list Z);
  vr_return_data : option (list Z);
  vr_input_region : list Z;
}.

Section vm.
Context {SysvarSnapshot : Type} (active_features : SysvarSnapshot → gset (list Z)).
Context (SYSCALL_PARAMETER_ADDRESS_RESTRICTIONS : list Z).

(** The call stack has its newest frame first. *)
Record VmState := mkVmState {
  vm_registers : list Z;
  vm_pc : Z;
  vm_memory : MemoryMap;
  vm_call_stack : list CallFrame;
  vm_compute_meter : Z;
  vm_instruction_count : Z;
  vm_logs : list (list Z);
  vm_log_bytes_written : Z;
  vm_log_truncated : bool;
  vm_return_data : option (list Z);
  vm_heap_position : Z;
  vm_sysvar_snapshot : SysvarSnapshot;
  vm_cpi_depth : Z;
  vm_sbpf_version : SbpfVersion;
  vm_program_id : list Z;
  vm_syscall_parameter_address_restrictions : bool;
}.

(** The fields the interpreter itself assigns. *)
Definition vm_set (vm : VmState) (registers : list Z) (pc : Z) (memory : MemoryMap)
    (call_stack : list CallFrame) (compute_meter instruction_count : Z) : VmState :=
  mkVmState registers pc memory call_stack compute_meter instruction_count
    (vm_logs vm) (vm_log_bytes_written vm) (vm_log_truncated vm) (vm_return_data vm)
    (vm_heap_position vm) (vm_sysvar_snapshot vm) (vm_cpi_depth vm) (vm_sbpf_version vm)
    (vm_program_id vm) (vm_syscall_parameter_address_restrictions vm).

Definition set_register (vm : VmState) (r : Z) (v : Z) : VmState :=
  vm_set vm (<[Z.to_nat r := v]> (vm_registers vm)) (vm_pc vm) (vm_memory vm) (vm_call_stack vm)
    (vm_compute_meter vm) (vm_instruction_count vm).

Definition set_pc (vm : VmState) (pc : Z) : VmState :=
  vm_set vm (vm_registers vm) pc (vm_memory vm) (vm_call_stack vm) (vm_compute_meter vm)
    (vm_instruction_count vm).

Definition set_memory (vm : VmState) (memory : MemoryMap) : VmState :=
  vm_set vm (vm_registers vm) (vm_pc vm) memory (vm_call_stack vm) (vm_compute_meter vm)
    (vm_instruction_count vm).

Definition count_instruction (vm : VmState) : VmState :=
  vm_set vm (vm_registers vm) (vm_pc vm) (vm_memory vm) (vm_call_stack vm) (vm_compute_meter vm)
    (vm_instruction_count vm + 1).

(** The trait [SyscallDispatch]. *)
Class SyscallDispatch := {
  dispatch : Z → VmState → result () VmError * VmState;
  has_handler : Z → bool;
}.

(** [NoSyscalls] *)
Definition NoSyscalls : SyscallDispatch :=
  {| dispatch id vm := (Err (UnknownSyscall id), vm);
     has_handler _ := false |}.

Definition checkpoint_cu (vm : VmState) (segment_cu : Z) : result (VmState * Z) VmError :=
  if vm_compute_meter vm <? segment_cu then Err ComputeBudgetExceeded
  else if MAX_INSTRUCTIONS <? vm_instruction_count vm then Err InstructionLimitExceeded
  else Ok (vm_set vm (vm_registers vm) (vm_pc vm) (vm_memory vm) (vm_call_stack vm)
             (vm_compute_meter vm - segment_cu) (vm_instruction_count vm), 0).

Definition jump_target (pc off : Z) : Z := wrap64 (pc + 1 + off).

(** ** Arithmetic *)

(** [swap_bytes] of an [8 * n]-bit value. *)
Definition swap_bytes (n : nat) (z : Z) : Z := from_le_bytes (reverse (to_le_bytes n z)).

Inductive AluResult :=
| NotAlu
| DivideByZero
| AluValue (v : Z).

Definition div_by (a b : Z) : AluResult := if b =? 0 then DivideByZero else AluValue (a / b).
Definition mod_by (a b : Z) : AluResult := if b =? 0 then DivideByZero else AluValue (a mod b).

(** The value an arithmetic instruction assigns to its destination; [d] and [s] are the
    registers, [imm] the immediate. *)
Definition alu64 (op : Opcode) (imm d s : Z) : AluResult :=
  match op with
  | Add64Imm => AluValue (wrap64 (d + wrap64 imm))
  | Sub64Imm => AluValue (wrap64 (d - wrap64 imm))
  | Mul64Imm => AluValue (wrap64 (d * wrap64 imm))
  | Div64Imm => if imm =? 0 then DivideByZero else AluValue (d / wrap64 imm)
  | Or64Imm => AluValue (Z.lor d (wrap64 imm))
  | And64Imm => AluValue (Z.land d (wrap64 imm))
  | Lsh64Imm => AluValue (wrap64 (Z.shiftl d (wrap32 imm mod 64)))
  | Rsh64Imm => AluValue (Z.shiftr d (wrap32 imm mod 64))
  | Neg64 => AluValue (wrap64 (- as_i64 d))
  | Mod64Imm => if imm =? 0 then DivideByZero else AluValue (d mod wrap64 imm)
  | Xor64Imm => AluValue (Z.lxor d (wrap64 imm))
  | Mov64Imm => AluValue (wrap64 imm)
  | Arsh64Imm => AluValue (wrap64 (Z.shiftr (as_i64 d) (wrap32 imm mod 64)))
  | Add64Reg => AluValue (wrap64 (d + s))
  | Sub64Reg => AluValue (wrap64 (d - s))
  | Mul64Reg => AluValue (wrap64 (d * s))
  | Div64Reg => div_by d s
  | Or64Reg => AluValue (Z.lor d s)
  | And64Reg => AluValue (Z.land d s)
  | Lsh64Reg => AluValue (wrap64 (Z.shiftl d (Z.land s 0x3F mod 64)))
  | Rsh64Reg => AluValue (Z.shiftr d (Z.land s 0x3F mod 64))
  | Mod64Reg => mod_by d s
  | Xor64Reg => AluValue (Z.lxor d s)
  | Mov64Reg => AluValue s
  | Arsh64Reg => AluValue (wrap64 (Z.shiftr (as_i64 d) (Z.land s 0x3F mod 64)))
  | _ => NotAlu
  end.

Definition alu32 (op : Opcode) (imm d s : Z) : AluResult :=
  let d32 := wrap32 d in
  let s32 := wrap32 s in
  match op with
  | Add32Imm => AluValue (wrap32 (d32 + wrap32 imm))
  | Sub32Imm => AluValue (wrap32 (d32 - wrap32 imm))
  | Mul32Imm => AluValue (wrap32 (d32 * wrap32 imm))
  | Div32Imm => if imm =? 0 then DivideByZero else AluValue (d32 / wrap32 imm)
  | Or32Imm => AluValue (Z.lor d32 (wrap32 imm))
  | And32Imm => AluValue (Z.land d32 (wrap32 imm))
  | Lsh32Imm => AluValue (wrap32 (Z.shiftl d32 (wrap32 imm mod 32)))
  | Rsh32Imm => AluValue (Z.shiftr d32 (wrap32 imm mod 32))
  | Neg32 => AluValue (wrap32 (- as_i32 d32))
  | Mod32Imm => if imm =? 0 then DivideByZero else AluValue (d32 mod wrap32 imm)
  | Xor32Imm => AluValue (Z.lxor d32 (wrap32 imm))
  | Mov32Imm => AluValue (wrap32 imm)
  | Arsh32Imm => AluValue (wrap32 (Z.shiftr (as_i32 d32) (wrap32 imm mod 32)))
  | Add32Reg => AluValue (wrap32 (d32 + s32))
  | Sub32Reg => AluValue (wrap32 (d32 - s32))
  | Mul32Reg => AluValue (wrap32 (d32 * s32))
  | Div32Reg => div_by d32 s32
  | Or32Reg => AluValue (Z.lor d32 s32)
  | And32Reg => AluValue (Z.land d32 s32)
  | Lsh32Reg => AluValue (wrap32 (Z.shiftl d32 (Z.land s 0x1F mod 32)))
  | Rsh32Reg => AluValue (Z.shiftr d32 (Z.land s 0x1F mod 32))
  | Mod32Reg => mod_by d32 s32
  | Xor32Reg => AluValue (Z.lxor d32 s32)
  | Mov32Reg => AluValue s32
  | Arsh32Reg => AluValue (wrap32 (Z.shiftr (as_i32 d32) (Z.land s 0x1F mod 32)))
  | _ => NotAlu
  end.

Definition byte_order (op : Opcode) (imm d : Z) : AluResult :=
  match op with
  | Le => AluValue (if imm =? 16 then Z.land d 0xFFFF
                    else if imm =? 32 then Z.land d 0xFFFFFFFF
                    else d)
  | Be => AluValue (if imm =? 16 then swap_bytes 2 (d mod 2 ^ 16)
                    else if imm =? 32 then swap_bytes 4 (wrap32 d)
                    else if imm =? 64 then swap_bytes 8 d
                    else d)
  | _ => NotAlu
  end.

Definition alu (op : Opcode) (imm d s : Z) : AluResult :=
  match alu64 op imm d s with
  | NotAlu =>
      match alu32 op imm d s with
      | NotAlu => byte_order op imm d
      | r => r
      end
  | r => r
  end.

(** The instructions a version turns off at run time. *)
Definition disabled (op : Opcode) (v : SbpfVersion) : bool :=
  match op with
  | Neg64 | Neg32 => SbpfVersion_neg_disabled v
  | Le => SbpfVersion_le_disabled v
  | Lddw => SbpfVersion_lddw_disabled v
  | _ => false
  end.

(** ** Branches and memory *)

(** Whether a branch is taken; [None] for the other instructions. *)
Definition branch64 (op : Opcode) (imm d s : Z) : option bool :=
  match op with
  | Ja => Some true
  | JeqImm => Some (d =? wrap64 imm)
  | JeqReg => Some (d =? s)
  | JgtImm => Some (wrap64 imm <? d)
  | JgtReg => Some (s <? d)
  | JgeImm => Some (wrap64 imm <=? d)
  | JgeReg => Some (s <=? d)
  | JsetImm => Some (negb (Z.land d (wrap64 imm) =? 0))
  | JsetReg => Some (negb (Z.land d s =? 0))
  | JneImm => Some (negb (d =? wrap64 imm))
  | JneReg => Some (negb (d =? s))
  | JsgtImm => Some (imm <? as_i64 d)
  | JsgtReg => Some (as_i64 s <? as_i64 d)
  | JsgeImm => Some (imm <=? as_i64 d)
  | JsgeReg => Some (as_i64 s <=? as_i64 d)
  | JltImm => Some (d <? wrap64 imm)
  | JltReg => Some (d <? s)
  | JleImm => Some (d <=? wrap64 imm)
  | JleReg => Some (d <=? s)
  | JsltImm => Some (as_i64 d <? imm)
  | JsltReg => Some (as_i64 d <? as_i64 s)
  | JsleImm => Some (as_i64 d <=? imm)
  | JsleReg => Some (as_i64 d <=? as_i64 s)
  | _ => None
  end.

Definition branch32 (op : Opcode) (imm d s : Z) : option bool :=
  let d32 := wrap32 d in
  let s32 := wrap32 s in
  match op with
  | Jeq32Imm => Some (d32 =? wrap32 imm)
  | Jeq32Reg => Some (d32 =? s32)
  | Jgt32Imm => Some (wrap32 imm <? d32)
  | Jgt32Reg => Some (s32 <? d32)
  | Jge32Imm => Some (wrap32 imm <=? d32)
  | Jge32Reg => Some (s32 <=? d32)
  | Jset32Imm => Some (negb (Z.land d32 (wrap32 imm) =? 0))
  | Jset32Reg => Some (negb (Z.land d32 s32 =? 0))
  | Jne32Imm => Some (negb (d32 =? wrap32 imm))
  | Jne32Reg => Some (negb (d32 =? s32))
  | Jsgt32Imm => Some (imm <? as_i32 d32)
  | Jsgt32Reg => Some (as_i32 s32 <? as_i32 d32)
  | Jsge32Imm => Some (imm <=? as_i32 d32)
  | Jsge32Reg => Some (as_i32 s32 <=? as_i32 d32)
  | Jlt32Imm => Some (d32 <? wrap32 imm)
  | Jlt32Reg => Some (d32 <? s32)
  | Jle32Imm => Some (d32 <=? wrap32 imm)
  | Jle32Reg => Some (d32 <=? s32)
  | Jslt32Imm => Some (as_i32 d32 <? imm)
  | Jslt32Reg => Some (as_i32 d32 <? as_i32 s32)
  | Jsle32Imm => Some (as_i32 d32 <=? imm)
  | Jsle32Reg => Some (as_i32 d32 <=? as_i32 s32)
  | _ => None
  end.

Definition branch (op : Opcode) (imm d s : Z) : option bool :=
  match branch64 op imm d s with
  | Some b => Some b
  | None => branch32 op imm d s
  end.

(** The width of a load. *)
Definition load_width (op : Opcode) : option nat :=
  match op with
  | LdxByte => Some 1%nat
  | LdxHalf => Some 2%nat
  | LdxWord => Some 4%nat
  | LdxDword => Some 8%nat
  | _ => None
  end.

(** The width of a store and the value it stores. *)
Definition store_value (op : Opcode) (imm s : Z) : option (nat * Z) :=
  match op with
  | StByte => Some (1%nat, wrap64 imm)
  | StHalf => Some (2%nat, wrap64 imm)
  | StWord => Some (4%nat, wrap64 imm)
  | StDword => Some (8%nat, wrap64 imm)
  | StxByte => Some (1%nat, s)
  | StxHalf => Some (2%nat, s)
  | StxWord => Some (4%nat, s)
  | StxDword => Some (8%nat, s)
  | _ => None
  end.

(** ** One pass of the loop *)

Inductive Next :=
| Continue (vm : VmState) (segment_cu : Z)
| Return (r : result VmResult VmError).

Context {Hdispatch : SyscallDispatch}.
Context (program : LoadedProgram) (compute_budget : Z).

(** Deduct the segment and go to [pc]. *)
Definition take_branch (vm : VmState) (segment_cu pc : Z) : Next :=
  match checkpoint_cu vm segment_cu with
  | Err e => Return (Err e)
  | Ok (vm, segment_cu) => Continue (set_pc vm pc) segment_cu
  end.

(** The end of the loop body: [vm.pc += 1]. *)
Definition advance (vm : VmState) (segment_cu : Z) : Next := Continue (set_pc vm (vm_pc vm + 1)) segment_cu.

(** Push a frame and continue at [target_pc]. *)
Definition enter_function (vm : VmState) (segment_cu target_pc : Z) : Next :=
  let frame := mkCallFrame (vm_pc vm + 1)
                 (take CALLEE_SAVED_COUNT (drop REG_CALLEE_SAVED_START (vm_registers vm)))
                 (default 0 (vm_registers vm !! 10%nat)) in
  if (MAX_CALL_DEPTH <=? length (vm_call_stack vm))%nat then Return (Err (CallDepthExceeded (vm_pc vm)))
  else
    match MemoryMap_push_frame (vm_memory vm) with
    | (Err _, _) => Return (Err (CallDepthExceeded (vm_pc vm)))
    | (Ok _, memory) =>
        let registers := if mm_dynamic_frames memory then vm_registers vm
                         else <[10%nat := MemoryMap_frame_pointer memory]> (vm_registers vm) in
        Continue (vm_set vm registers target_pc memory (frame :: vm_call_stack vm)
                    (vm_compute_meter vm) (vm_instruction_count vm)) segment_cu
    end.

(** [(-imm) as usize] *)
Definition neg_as_usize (imm : Z) : Z := wrap64 (as_i32 (wrap32 (- imm))).

Definition relative_target (pc imm : Z) : Z :=
  if 0 <=? imm then wrap64 (wrap64 (pc + imm) + 1) else wrap64 (wrap64 (pc - neg_as_usize imm) + 1).

Definition program_len : Z := Z.of_nat (length (lp_instructions program)).

Definition resolve_call (pc imm : Z) : option Z :=
  match lp_call_targets program !! wrap32 imm with
  | Some tpc => Some tpc
  | None =>
      let rel_target := relative_target pc imm in
      if rel_target <? program_len then Some rel_target else None
  end.

Definition exec_call (vm : VmState) (segment_cu imm : Z) : Next :=
  match checkpoint_cu vm segment_cu with
  | Err e => Return (Err e)
  | Ok (vm, segment_cu) =>
      let target_id := wrap32 imm in
      match resolve_call (vm_pc vm) imm with
      | Some target_pc => enter_function vm segment_cu target_pc
      | None =>
          match dispatch target_id vm with
          | (Ok _, vm) => advance vm segment_cu
          | (Err (UnknownSyscall id), _) => Return (Err (UnknownSyscall id))
          | (Err e, vm) => Return (Err (SyscallErrorAtCall (vm_pc vm) target_id e))
          end
      end
  end.

(** The target of CALLX: an address inside the text section, as an instruction index. *)
Definition callx_target (reg_val : Z) : option Z :=
  let off := Z.land reg_val REGION_OFFSET_MASK in
  if lp_text_file_offset program <=? off then
    let text_relative := off - lp_text_file_offset program in
    if (text_relative mod Z.of_nat INSTRUCTION_SIZE =? 0)
       && (text_relative / Z.of_nat INSTRUCTION_SIZE <? program_len)
    then Some (text_relative / Z.of_nat INSTRUCTION_SIZE) else None
  else None.

Definition exec_syscall (vm : VmState) (segment_cu imm : Z) : Outcome Next :=
  match checkpoint_cu vm segment_cu with
  | Err e => Done (Return (Err e))
  | Ok (vm, segment_cu) =>
      let call id := match dispatch id vm with
                     | (Ok _, vm) => advance vm segment_cu
                     | (Err e, _) => Return (Err e)
                     end in
      match lp_sbpf_version program with
      | V2 | V3 => Done (call (wrap32 imm))
      | _ =>
          let callx_reg := Z.land (wrap64 imm) 0xF in
          match vm_registers vm !! Z.to_nat callx_reg with
          | None => Panicked
          | Some reg_val =>
              match callx_target reg_val with
              | Some target_pc => Done (enter_function vm segment_cu target_pc)
              | None =>
                  let target_id := wrap32 reg_val in
                  if has_handler target_id then Done (call target_id)
                  else Done (Return (Err (SyscallErrorCallx (vm_pc vm) callx_reg reg_val)))
              end
          end
      end
  end.

Definition exec_exit (vm : VmState) (segment_cu : Z) : Next :=
  match checkpoint_cu vm segment_cu with
  | Err e => Return (Err e)
  | Ok (vm, segment_cu) =>
      match vm_call_stack vm with
      | [] => Return (Ok (mkVmResult (default 0 (vm_registers vm !! 0%nat))
                            (wrap64 (compute_budget - vm_compute_meter vm)) (vm_logs vm)
                            (vm_return_data vm) (MemoryMap_input_data (vm_memory vm))))
      | frame :: call_stack =>
          let registers := take REG_CALLEE_SAVED_START (vm_registers vm) ++ cf_saved_registers frame
                           ++ [cf_frame_pointer frame] in
          match MemoryMap_pop_frame (vm_memory vm) with
          | (Err _, _) => Return (Err VmStackUnderflow)
          | (Ok _, memory) =>
              Continue (vm_set vm registers (cf_return_pc frame) memory call_stack
                          (vm_compute_meter vm) (vm_instruction_count vm)) segment_cu
          end
      end
  end.

Definition exec_lddw (vm : VmState) (segment_cu : Z) (insn : Instruction) : Next :=
  match lp_instructions program !! Z.to_nat (vm_pc vm + 1) with
  | None => Return (Err (InvalidInstruction (vm_pc vm) (opcode insn)))
  | Some next =>
      let value := Z.lor (wrap32 (immediate insn)) (Z.shiftl (wrap32 (immediate next)) 32) in
      Continue (set_pc (count_instruction (set_register vm (dst insn) value)) (vm_pc vm + 2))
        (segment_cu + CU_PER_INSTRUCTION)
  end.

(** The match on the opcode; [d] and [s] are the registers fetched before it. *)
Definition exec (vm : VmState) (segment_cu : Z) (insn : Instruction) (op : Opcode) (d s : Z) : Outcome Next :=
  let imm := immediate insn in
  let off := offset insn in
  let pc := vm_pc vm in
  if disabled op (lp_sbpf_version program) then Done (Return (Err (InvalidInstruction pc (opcode insn))))
  else
    match alu op imm d s with
    | AluValue v => Done (advance (set_register vm (dst insn) v) segment_cu)
    | DivideByZero => Done (Return (Err (DivisionByZero pc)))
    | NotAlu =>
        match branch op imm d s with
        | Some true => Done (take_branch vm segment_cu (jump_target pc off))
        | Some false => Done (advance vm segment_cu)
        | None =>
            match load_width op with
            | Some n =>
                let addr := wrap64 (s + wrap64 off) in
                r ← MemoryMap_load n (vm_memory vm) addr;
                Done (match r with
                      | Ok v => advance (set_register vm (dst insn) v) segment_cu
                      | Err _ => Return (Err (AccessViolation addr (Z.of_nat n) pc))
                      end)
            | None =>
                match store_value op imm s with
                | Some (n, v) =>
                    let addr := wrap64 (d + wrap64 off) in
                    r ← MemoryMap_store n (vm_memory vm) addr v;
                    Done (match r with
                          | (Ok _, memory) => advance (set_memory vm memory) segment_cu
                          | (Err _, _) => Return (Err (AccessViolation addr (Z.of_nat n) pc))
                          end)
                | None =>
                    match op with
                    | Lddw => Done (exec_lddw vm segment_cu insn)
                    | Call => Done (exec_call vm segment_cu imm)
                    | Syscall => exec_syscall vm segment_cu imm
                    | _ => Done (exec_exit vm segment_cu)
                    end
                end
            end
        end
    end.

(** [registers[r]] *)
Definition register (vm : VmState) (r : Z) : Outcome Z :=
  match vm_registers vm !! Z.to_nat r with Some v => Done v | None => Panicked end.

Definition step (vm : VmState) (segment_cu : Z) : Outcome Next :=
  if program_len <=? vm_pc vm then Done (Return (Err (PcOutOfBounds (vm_pc vm) program_len)))
  else
    let segment_cu := segment_cu + CU_PER_INSTRUCTION in
    let vm := count_instruction vm in
    match lp_instructions program !! Z.to_nat (vm_pc vm) with
    | None => Panicked
    | Some insn =>
        d ← register vm (dst insn);
        s ← register vm (src insn);
        match Opcode_from_raw (opcode insn) with
        | None => Done (Return (Err (InvalidInstruction (vm_pc vm) (opcode insn))))
        | Some op => exec vm segment_cu insn op d s
        end
    end.

Fixpoint run (fuel : nat) (vm : VmState) (segment_cu : Z) : option (Outcome (result VmResult VmError)) :=
  match fuel with
  | O => None
  | S fuel =>
      match step vm segment_cu with
      | Panicked => Some Panicked
      | Done (Return r) => Some (Done r)
      | Done (Continue vm segment_cu) => run fuel vm segment_cu
      end
  end.

Definition initial_state (memory : MemoryMap) (sysvar_snapshot : SysvarSnapshot) (program_id : list Z) : VmState :=
  {| vm_registers := <[1%nat := REGION_INPUT_BASE]> (<[10%nat := MemoryMap_frame_pointer memory]>
                       (replicate REGISTER_COUNT 0));
     vm_pc := lp_entry_point program;
     vm_memory := memory;
     vm_call_stack := [];
     vm_compute_meter := compute_budget;
     vm_instruction_count := 0;
     vm_logs := [];
     vm_log_bytes_written := 0;
     vm_log_truncated := false;
     vm_return_data := None;
     vm_heap_position := REGION_HEAP_BASE;
     vm_sysvar_snapshot := sysvar_snapshot;
     vm_cpi_depth := 0;
     vm_sbpf_version := lp_sbpf_version program;
     vm_program_id := program_id;
     vm_syscall_parameter_address_restrictions :=
       bool_decide (SYSCALL_PARAMETER_ADDRESS_RESTRICTIONS ∈ active_features sysvar_snapshot) |}.

Definition execute (fuel : nat) (memory : MemoryMap) (sysvar_snapshot : SysvarSnapshot) (program_id : list Z)
    : option (Outcome (result VmResult VmError)) :=
  match lp_instructions program with
  | [] => Some (Done (Err (PcOutOfBounds 0 0)))
  | _ => run fuel (initial_state memory sysvar_snapshot program_id) 0
  end.

(** ** Well-formed states *)

Definition frame_ok (f : CallFrame) : Prop :=
  length (cf_saved_registers f) = CALLEE_SAVED_COUNT ∧ Forall (fits 64) (cf_saved_registers f)
  ∧ fits 64 (cf_frame_pointer f) ∧ 0 <= cf_return_pc f.

Definition memory_ok (m : MemoryMap) : Prop := ∀ id, Forall is_byte (mr_data (region m id)).

Record vm_ok (vm : VmState) : Prop := {
  ok_count : length (vm_registers vm) = REGISTER_COUNT;
  ok_registers : Forall (fits 64) (vm_registers vm);
  ok_frames : Forall frame_ok (vm_call_stack vm);
  ok_depth : mm_frame_index (vm_memory vm) = Z.of_nat (length (vm_call_stack vm));
  ok_memory : memory_ok (vm_memory vm);
  ok_pc : 0 <= vm_pc vm;
  ok_meter : 0 <= vm_compute_meter vm <= compute_budget;
}.

(** What the trait promises: a syscall works on registers and memory, may deduct compute
    units, and leaves the control state alone. *)
Class SyscallLaws : Prop := {
  dispatch_ok id vm r vm' : vm_ok vm → dispatch id vm = (r, vm') →
    vm_ok vm' ∧ vm_pc vm' = vm_pc vm ∧ vm_call_stack vm' = vm_call_stack vm
    ∧ vm_compute_meter vm' <= vm_compute_meter vm ∧ r ≠ Err VmStackUnderflow;
}.

(** The register fields of an instruction name registers that exist. *)
Definition registers_exist (v : SbpfVersion) (i : Instruction) : Prop :=
  instruction_typed i ∧ dst i <= 10 ∧ src i <= 10
  ∧ (opcode i = Opcode_as_u8 Syscall → SbpfVersion_callx_uses_src_register v = false →
     Z.land (wrap64 (immediate i)) 0xF <= 10).

Definition program_ok : Prop :=
  Forall (registers_exist (lp_sbpf_version program)) (lp_instructions program)
  ∧ map_Forall (λ _ pc, 0 <= pc) (lp_call_targets program)
  ∧ 0 <= lp_entry_point program.

(** Bounds the passes that are left: each branch uses up at least one compute unit, and
    between branches the program counter grows. *)
Definition potential (vm : VmState) : Z :=
  vm_compute_meter vm * (program_len + 1) + Z.max 0 (program_len - vm_pc vm).

Definition result_ok (r : result VmResult VmError) : Prop :=
  match r with
  | Ok res => fits 64 (vr_return_value res) ∧ 0 <= vr_compute_units_consumed res <= compute_budget
  | Err e => e ≠ VmStackUnderflow
  end.

Definition next_ok (bound : Z) (n : Next) : Prop :=
  match n with
  | Continue vm segment_cu => vm_ok vm ∧ 0 <= segment_cu ∧ potential vm < bound
  | Return r => result_ok r
  end.

Lemma wrap64_fits z : fits 64 (wrap64 z).
Proof. by apply wrap_fits. Qed.

Lemma wrap32_fits z : fits 32 (wrap32 z).
Proof. by apply wrap_fits. Qed.

Lemma swap_bytes_fits n z : fits (8 * Z.of_nat n) (swap_bytes n z).
Proof.
  unfold swap_bytes, fits.
  pose proof (from_le_bytes_bound (reverse (to_le_bytes n z))) as Hb.
  rewrite length_reverse, length_to_le_bytes in Hb. rewrite Z.pow_mul_r by lia.
  apply Hb, Forall_reverse, to_le_bytes_byte.
Qed.

(** Arithmetic keeps values at their width. *)
Lemma alu64_fits op imm d s v :
  fits 64 d → fits 64 s → - 2 ^ 31 <= imm < 2 ^ 31 → alu64 op imm d s = AluValue v → fits 64 v.
Proof.
  intros Hd Hs Hi. pose proof (wrap64_fits imm) as Hw.
  assert (Hsh : ∀ z k, 0 < k → 0 <= z mod k) by (intros; apply Z.mod_pos_bound; lia).
  destruct op; cbn [alu64]; unfold div_by, mod_by; try discriminate;
    try (intros [= <-]; first
      [ apply wrap64_fits | done | by apply lor_fits | by apply lxor_fits | (apply land_fits; [done..|apply Hw])
      | (apply land_fits; [done..|apply Hs]) | (apply shiftr_fits; [by apply Hsh|done]) ]);
    (case_match; [discriminate|]); b2p; intros [= <-]; (apply div_fits || apply mod_fits); try done;
    unfold fits, wrap64 in *; Z.to_euclidean_division_equations; lia.
Qed.

Lemma alu32_fits op imm d s v :
  - 2 ^ 31 <= imm < 2 ^ 31 → alu32 op imm d s = AluValue v → fits 32 v.
Proof.
  intros Hi. pose proof (wrap32_fits imm) as Hw. pose proof (wrap32_fits d) as Hd. pose proof (wrap32_fits s) as Hs.
  assert (Hsh : ∀ z k, 0 < k → 0 <= z mod k) by (intros; apply Z.mod_pos_bound; lia).
  destruct op; cbn [alu32]; unfold div_by, mod_by; try discriminate;
    try (intros [= <-]; first
      [ apply wrap32_fits | done | by apply lor_fits | by apply lxor_fits | (apply land_fits; [done..|apply Hw])
      | (apply land_fits; [done..|apply Hs]) | (apply shiftr_fits; [by apply Hsh|done]) ]);
    (case_match; [discriminate|]); b2p; intros [= <-]; (apply div_fits || apply mod_fits); try done;
    unfold fits, wrap32 in *; Z.to_euclidean_division_equations; lia.
Qed.

Lemma byte_order_fits op imm d v : fits 64 d → byte_order op imm d = AluValue v → fits 64 v.
Proof.
  intros Hd. destruct op; cbn [byte_order]; try discriminate; intros [= <-]; repeat case_match;
    try done; try (apply land_fits; [lia|done|lia]).
  - apply (fits_mono 16); [lia|apply (swap_bytes_fits 2)].
  - apply (fits_mono 32); [lia|apply (swap_bytes_fits 4)].
  - apply (swap_bytes_fits 8).
Qed.

Lemma alu_fits op imm d s v :
  fits 64 d → fits 64 s → - 2 ^ 31 <= imm < 2 ^ 31 → alu op imm d s = AluValue v → fits 64 v.
Proof.
  intros Hd Hs Hi. unfold alu. destruct (alu64 op imm d s) eqn:H64; [|done|].
  - destruct (alu32 op imm d s) eqn:H32; [by apply byte_order_fits|done|].
    intros [= <-]. apply (fits_mono 32); [lia|by eapply alu32_fits].
  - intros [= <-]. by apply (alu64_fits op imm d s).
Qed.

(** ** Every pass keeps the state well-formed and uses up potential *)

Context (Hbudget : is_u64 compute_budget) (Hprogram : program_ok).
Context {Hlaws : SyscallLaws}.

Lemma program_len_nonneg : 0 <= program_len.
Proof using. unfold program_len. lia. Qed.

Lemma vm_set_ok vm registers pc memory :
  vm_ok vm → length registers = REGISTER_COUNT → Forall (fits 64) registers → 0 <= pc →
  memory_ok memory → mm_frame_index memory = mm_frame_index (vm_memory vm) →
  ∀ count, vm_ok (vm_set vm registers pc memory (vm_call_stack vm) (vm_compute_meter vm) count).
Proof using. intros [Hc Hr Hf Hd Hm Hp Hmt] ????? count. split; cbn; try done. by rewrite <- Hd. Qed.

Lemma set_pc_ok vm pc : vm_ok vm → 0 <= pc → vm_ok (set_pc vm pc).
Proof using. intros Hok ?. by apply vm_set_ok; try apply Hok. Qed.

Lemma set_register_ok vm r v : vm_ok vm → fits 64 v → vm_ok (set_register vm r v).
Proof using.
  intros Hok Hv. apply vm_set_ok; try done; try apply Hok.
  - rewrite length_insert. apply Hok.
  - apply Forall_insert; [apply Hok|done].
Qed.

Lemma count_instruction_ok vm : vm_ok vm → vm_ok (count_instruction vm).
Proof using. intros Hok. apply vm_set_ok; try done; apply Hok. Qed.

Lemma memory_store_ok n m addr v r m' :
  (n <= 8)%nat → MemoryMap_store n m addr v = Done (r, m') → memory_ok m →
  memory_ok m' ∧ mm_frame_index m' = mm_frame_index m.
Proof using.
  intros Hn Hst Hm. unfold MemoryMap_store in Hst.
  pose proof (length_to_le_bytes n v) as Hl. split.
  - rewrite write_slice_spec in Hst by lia. destruct (RegionId_from_addr addr) as [id|]; [|by injection Hst as <- <-].
    destruct (mr_writable (region m id)); [|by injection Hst as <- <-].
    destruct (_ <=? _); injection Hst as <- <-; [|done]. intros id'. rewrite region_with_data.
    case_decide; [subst|apply Hm]. apply Forall_app; split; [apply Forall_take, Hm|].
    apply Forall_app; split; [apply to_le_bytes_byte|apply Forall_drop, Hm].
  - destruct (write_slice_layout m addr (to_le_bytes n v) r m') as [[] _]; [lia|done..].
Qed.

Lemma memory_load_fits n m addr v :
  (n <= 8)%nat → memory_ok m → MemoryMap_load n m addr = Done (Ok v) → fits 64 v.
Proof using.
  intros Hn Hm. unfold MemoryMap_load. rewrite read_slice_spec by lia. cbn.
  destruct (RegionId_from_addr addr) as [id|]; [|done]. destruct (_ <=? _); [|done]. intros [= <-].
  rewrite Nat2Z.id. pose proof (from_le_bytes_bound (take n (drop (Z.to_nat (addr_offset addr)) (mr_data (region m id))))) as Hb.
  destruct Hb as [? Hb]; [apply Forall_take, Forall_drop, Hm|]. split; [done|]. eapply Z.lt_le_trans; [exact Hb|].
  change (2 ^ 64) with (256 ^ 8). apply Z.pow_le_mono_r; [lia|]. rewrite length_take. lia.
Qed.

Lemma memory_ok_frame m i : memory_ok m → memory_ok (with_frame_index m i).
Proof using. intros Hm id. specialize (Hm id). by destruct id. Qed.

Lemma advance_ok vm segment_cu :
  vm_ok vm → 0 <= segment_cu → vm_pc vm < program_len → next_ok (potential vm) (advance vm segment_cu).
Proof using.
  intros Hok Hs Hpc. split; [|split; [done|]].
  - apply set_pc_ok; [done|]. pose proof (ok_pc vm Hok). lia.
  - unfold potential. cbn. lia.
Qed.

(** States below [bound] wherever the program counter goes. *)
Definition low (bound : Z) (vm : VmState) : Prop :=
  vm_compute_meter vm * (program_len + 1) + program_len < bound.

Lemma low_potential bound vm vm' :
  low bound vm → vm_ok vm' → vm_compute_meter vm' <= vm_compute_meter vm → potential vm' < bound.
Proof using.
  unfold low, potential. intros Hlow Hok Hm. pose proof (ok_pc vm' Hok). pose proof program_len_nonneg. nia.
Qed.

Lemma checkpoint_ok vm segment_cu :
  vm_ok vm → 1 <= segment_cu →
  match checkpoint_cu vm segment_cu with
  | Err e => e ≠ VmStackUnderflow
  | Ok (vm', segment_cu') => segment_cu' = 0 ∧ vm_ok vm' ∧ low (potential vm) vm' ∧ vm_pc vm' = vm_pc vm
  end.
Proof using.
  intros Hok Hs. unfold checkpoint_cu. destruct (Z.ltb_spec (vm_compute_meter vm) segment_cu); [done|].
  destruct (MAX_INSTRUCTIONS <? _); [done|]. pose proof (ok_meter vm Hok). split_and!; [done| | |done].
  - destruct Hok. split; cbn; try done. lia.
  - unfold low, potential. cbn. pose proof program_len_nonneg. nia.
Qed.

Lemma take_branch_ok vm segment_cu pc :
  vm_ok vm → 1 <= segment_cu → 0 <= pc → next_ok (potential vm) (take_branch vm segment_cu pc).
Proof using.
  intros Hok Hs Hpc. unfold take_branch. pose proof (checkpoint_ok vm segment_cu Hok Hs) as Hc.
  destruct (checkpoint_cu vm segment_cu) as [[vm' s']|e]; [|done]. destruct Hc as (-> & Hok' & Hlow & _).
  assert (vm_ok (set_pc vm' pc)) by by apply set_pc_ok. split; [done|split; [done|]].
  by apply (low_potential _ vm').
Qed.

Lemma enter_function_ok bound vm target_pc :
  vm_ok vm → low bound vm → 0 <= target_pc → next_ok bound (enter_function vm 0 target_pc).
Proof using.
  intros Hok Hlow Ht. unfold enter_function. destruct (_ <=? _)%nat; [done|].
  unfold MemoryMap_push_frame. destruct (_ <=? _); [done|]. cbn [fst snd mm_dynamic_frames with_frame_index].
  set (registers := if mm_dynamic_frames _ then _ else _).
  assert (Hr : length registers = REGISTER_COUNT ∧ Forall (fits 64) registers).
  { unfold registers. destruct (mm_dynamic_frames _); [by split; apply Hok|]. rewrite length_insert.
    split; [apply Hok|]. apply Forall_insert; [apply Hok|].
    unfold MemoryMap_frame_pointer. case_match; apply wrap64_fits. }
  assert (Hnew : vm_ok (vm_set vm registers target_pc
      (with_frame_index (vm_memory vm) (mm_frame_index (vm_memory vm) + 1))
      (mkCallFrame (vm_pc vm + 1) (take CALLEE_SAVED_COUNT (drop REG_CALLEE_SAVED_START (vm_registers vm)))
         (default 0 (vm_registers vm !! 10%nat)) :: vm_call_stack vm)
      (vm_compute_meter vm) (vm_instruction_count vm))).
  { pose proof Hok as [Hc Hrg Hf Hd Hm Hp Hmt].
    split; [apply Hr|apply Hr| | |by apply memory_ok_frame|exact Ht|exact Hmt].
    - constructor; [|done]. split_and!; cbn [cf_saved_registers cf_frame_pointer cf_return_pc].
      + rewrite length_take, length_drop, Hc. done.
      + by apply Forall_take, Forall_drop.
      + destruct (vm_registers vm !! 10%nat) eqn:E; [by apply (Forall_lookup_1 _ _ _ _ Hrg E)|]. cbn. unfold fits. lia.
      + lia.
    - cbn [vm_memory vm_set mm_frame_index with_frame_index vm_call_stack length]. rewrite Hd. lia. }
  split; [exact Hnew|split; [done|]]. by apply (low_potential _ vm).
Qed.

(** A syscall after a checkpoint, and the return to the instruction behind it. *)
Lemma syscall_ok bound vm r vm' id :
  vm_ok vm → low bound vm → dispatch id vm = (r, vm') →
  next_ok bound (advance vm' 0) ∧ r ≠ Err VmStackUnderflow.
Proof using Hlaws.
  intros Hok Hlow Hd. destruct (dispatch_ok id vm r vm' Hok Hd) as (Hok' & Hpc & _ & Hm & Hr).
  split; [|done]. assert (vm_ok (set_pc vm' (vm_pc vm' + 1))).
  { apply set_pc_ok; [done|]. pose proof (ok_pc vm' Hok'). lia. }
  split; [done|split; [done|]]. by apply (low_potential _ vm).
Qed.

Lemma resolve_call_nonneg pc imm target : resolve_call pc imm = Some target → 0 <= target.
Proof using Hprogram.
  unfold resolve_call. destruct (lp_call_targets program !! wrap32 imm) as [t|] eqn:Ht.
  - intros [= <-]. destruct Hprogram as (_ & Hc & _). by apply (Hc _ _ Ht).
  - case_match; [|done]. intros [= <-]. unfold relative_target. case_match; apply wrap64_fits.
Qed.

Lemma exec_call_ok vm segment_cu imm :
  vm_ok vm → 1 <= segment_cu → next_ok (potential vm) (exec_call vm segment_cu imm).
Proof using Hprogram Hlaws.
  intros Hok Hs. unfold exec_call. pose proof (checkpoint_ok vm segment_cu Hok Hs) as Hc.
  destruct (checkpoint_cu vm segment_cu) as [[vm' s']|e]; [|done]. destruct Hc as (-> & Hok' & Hlow & _).
  destruct (resolve_call (vm_pc vm') imm) as [target|] eqn:Ht.
  - apply enter_function_ok; [done..|by eapply resolve_call_nonneg].
  - destruct (dispatch (wrap32 imm) vm') as [r vm1] eqn:Hd.
    destruct (syscall_ok _ _ _ _ _ Hok' Hlow Hd) as [Hn Hr]. destruct r as [|e]; [done|]. by destruct e.
Qed.

Lemma callx_target_nonneg reg_val target : callx_target reg_val = Some target → 0 <= target.
Proof using.
  unfold callx_target. destruct (Z.leb_spec (lp_text_file_offset program) (Z.land reg_val REGION_OFFSET_MASK)); [|done].
  case_match; [|done]. intros [= <-]. apply Z.div_pos; [lia|]. done.
Qed.

Lemma exec_syscall_ok vm segment_cu imm :
  vm_ok vm → 1 <= segment_cu →
  (SbpfVersion_callx_uses_src_register (lp_sbpf_version program) = false → Z.land (wrap64 imm) 0xF <= 10) →
  ∃ n, exec_syscall vm segment_cu imm = Done n ∧ next_ok (potential vm) n.
Proof using Hlaws.
  intros Hok Hs Hreg. unfold exec_syscall. pose proof (checkpoint_ok vm segment_cu Hok Hs) as Hc.
  destruct (checkpoint_cu vm segment_cu) as [[vm' s']|e]; [|by eexists]. destruct Hc as (-> & Hok' & Hlow & _).
  assert (Hcall : ∀ id, next_ok (potential vm) (match dispatch id vm' with
                                                | (Ok _, vm) => advance vm 0
                                                | (Err e, _) => Return (Err e)
                                                end)).
  { intros id. destruct (dispatch id vm') as [r vm1] eqn:Hd.
    destruct (syscall_ok _ _ _ _ _ Hok' Hlow Hd) as [Hn Hr]. destruct r; [done|]. cbn. congruence. }
  assert (Hland : 0 <= Z.land (wrap64 imm) 0xF) by (apply Z.land_nonneg; left; apply wrap64_fits).
  assert (Hx : SbpfVersion_callx_uses_src_register (lp_sbpf_version program) = false →
               is_Some (vm_registers vm' !! Z.to_nat (Z.land (wrap64 imm) 0xF))).
  { intros Hv%Hreg. apply lookup_lt_is_Some. rewrite (ok_count vm' Hok'). unfold REGISTER_COUNT. lia. }
  destruct (lp_sbpf_version program); try (eexists; split; [done|apply Hcall]);
    destruct Hx as [v ->]; try done;
    (destruct (callx_target v) as [target|] eqn:Ht;
      [eexists; split; [done|]; apply enter_function_ok; [done..|by eapply callx_target_nonneg]|]);
    (destruct (has_handler (wrap32 v)); eexists; (split; [done|]); [apply Hcall|done]).
Qed.

Lemma exec_exit_ok vm segment_cu :
  vm_ok vm → 1 <= segment_cu → next_ok (potential vm) (exec_exit vm segment_cu).
Proof using Hbudget.
  intros Hok Hs. unfold exec_exit. pose proof (checkpoint_ok vm segment_cu Hok Hs) as Hc.
  destruct (checkpoint_cu vm segment_cu) as [[vm' s']|e]; [|done]. destruct Hc as (-> & Hok' & Hlow & _).
  pose proof Hok' as [Hc Hr Hf Hd Hm Hp Hmt].
  destruct (vm_call_stack vm') as [|frame stack] eqn:Hst.
  - split; cbn.
    + destruct (vm_registers vm' !! 0%nat) eqn:E; [by apply (Forall_lookup_1 _ _ _ _ Hr E)|]. cbn. unfold fits. lia.
    + unfold is_u64, u64_max in Hbudget. rewrite wrap64_small; unfold is_u64, u64_max; lia.
  - apply Forall_cons in Hf as [(Hsl & Hsf & Hfp & Hrp) Hf]. unfold MemoryMap_pop_frame.
    cbn [length] in Hd. destruct (Z.ltb_spec (mm_frame_index (vm_memory vm')) 1); [lia|]. cbn [fst].
    set (vm1 := vm_set _ _ _ _ _ _ _). assert (Hok1 : vm_ok vm1).
    { split; unfold vm1; cbn [vm_registers vm_set vm_call_stack vm_memory vm_pc vm_compute_meter].
      - rewrite !length_app, length_take, Hc, Hsl. done.
      - apply Forall_app; split; [by apply Forall_take|]. apply Forall_app; split; [done|by constructor].
      - done.
      - cbn [mm_frame_index with_frame_index]. lia.
      - by apply memory_ok_frame.
      - done.
      - done. }
    split; [done|split; [done|]]. by apply (low_potential _ vm').
Qed.

Lemma exec_lddw_ok vm segment_cu insn :
  vm_ok vm → 1 <= segment_cu → vm_pc vm < program_len → next_ok (potential vm) (exec_lddw vm segment_cu insn).
Proof using.
  intros Hok Hs Hpc. unfold exec_lddw. destruct (lp_instructions program !! _); [|done].
  assert (Hv : fits 64 (Z.lor (wrap32 (immediate insn)) (Z.shiftl (wrap32 (immediate i)) 32))).
  { apply lor_fits; [done|by apply (fits_mono 32), wrap32_fits|]. pose proof (wrap32_fits (immediate i)).
    unfold fits in *. rewrite Z.shiftl_mul_pow2 by lia. lia. }
  split; [|split; [unfold CU_PER_INSTRUCTION; lia|]].
  - apply set_pc_ok; [by apply count_instruction_ok, set_register_ok|]. pose proof (ok_pc vm Hok). lia.
  - unfold potential. cbn. lia.
Qed.

Lemma load_width_le op n : load_width op = Some n → (n <= 8)%nat.
Proof using. destruct op; intros [= <-]; lia. Qed.

Lemma store_width_le op imm s n v : store_value op imm s = Some (n, v) → (n <= 8)%nat.
Proof using. destruct op; intros [= <- _]; lia. Qed.

(** The opcodes that no earlier case takes. *)
Lemma control_opcode op imm d s :
  alu op imm d s = NotAlu → branch op imm d s = None → load_width op = None → store_value op imm s = None →
  op = Lddw ∨ op = Call ∨ op = Syscall ∨ op = Exit.
Proof using. unfold alu, branch. destruct op; cbn; auto; unfold div_by, mod_by; repeat case_match; discriminate. Qed.

Lemma exec_ok vm segment_cu insn op d s :
  vm_ok vm → 1 <= segment_cu → vm_pc vm < program_len → fits 64 d → fits 64 s →
  registers_exist (lp_sbpf_version program) insn → Opcode_from_raw (opcode insn) = Some op →
  ∃ n, exec vm segment_cu insn op d s = Done n ∧ next_ok (potential vm) n.
Proof using Hbudget Hprogram Hlaws.
  intros Hok Hs Hpc Hd Hsr (Hty & _ & _ & Hx) Hop. apply as_u8_from_raw in Hop. unfold exec.
  destruct (disabled op _); [by eexists|].
  destruct (alu op (immediate insn) d s) as [| |v] eqn:Ha; [|by eexists|].
  2: { eexists. split; [done|]. apply (advance_ok (set_register vm (dst insn) v)); [|lia|done].
       apply set_register_ok; [done|]. eapply alu_fits; [exact Hd|exact Hsr|apply Hty|exact Ha]. }
  destruct (branch op (immediate insn) d s) as [[]|] eqn:Hb.
  { eexists. split; [done|]. apply take_branch_ok; [done..|]. apply wrap64_fits. }
  { eexists. split; [done|]. apply advance_ok; [done|lia|done]. }
  destruct (load_width op) as [n|] eqn:Hl.
  { pose proof (load_width_le _ _ Hl). set (addr := wrap64 _).
    destruct (MemoryMap_load n (vm_memory vm) addr) as [r|] eqn:Hld.
    - eexists. split; [done|]. destruct r as [v|e]; [|done].
      apply (advance_ok (set_register vm (dst insn) v)); [|lia|done]. apply set_register_ok; [done|].
      by apply (memory_load_fits n (vm_memory vm) addr); [|apply Hok|].
    - unfold MemoryMap_load in Hld. rewrite read_slice_spec in Hld by lia. discriminate Hld. }
  destruct (store_value op (immediate insn) s) as [[n v]|] eqn:Hst.
  { pose proof (store_width_le _ _ _ _ _ Hst). set (addr := wrap64 _).
    destruct (MemoryMap_store n (vm_memory vm) addr v) as [[r m']|] eqn:Hw.
    - eexists. split; [done|]. destruct r; [|done].
      destruct (memory_store_ok n (vm_memory vm) addr v (Ok a) m') as [Hm' Hi]; [done..|apply Hok|].
      apply (advance_ok (set_memory vm m')); [|lia|done].
      apply vm_set_ok; try done; apply Hok.
    - pose proof (length_to_le_bytes n v). unfold MemoryMap_store in Hw.
      rewrite write_slice_spec in Hw by lia. discriminate Hw. }
  destruct (control_opcode op _ _ _ Ha Hb Hl Hst) as [->|[->|[->| ->]]].
  - eexists. split; [done|]. by apply exec_lddw_ok.
  - eexists. split; [done|]. by apply exec_call_ok.
  - apply exec_syscall_ok; [done..|]. by apply Hx.
  - eexists. split; [done|]. by apply exec_exit_ok.
Qed.

Lemma step_ok vm segment_cu :
  vm_ok vm → 0 <= segment_cu → ∃ n, step vm segment_cu = Done n ∧ next_ok (potential vm) n.
Proof using Hbudget Hprogram Hlaws.
  intros Hok Hs. unfold step. destruct (Z.leb_spec program_len (vm_pc vm)) as [|Hpc]; [by eexists|].
  pose proof (ok_pc vm Hok). pose proof (count_instruction_ok vm Hok) as Hok'.
  change (potential vm) with (potential (count_instruction vm)).
  destruct (lp_instructions program !! Z.to_nat (vm_pc (count_instruction vm))) as [insn|] eqn:Hi.
  2: { apply lookup_ge_None in Hi. unfold program_len in Hpc. cbn in Hi. lia. }
  destruct Hprogram as [Hall _]. pose proof (Forall_lookup_1 _ _ _ _ Hall Hi) as Hre.
  pose proof Hre as (Hty & Hd10 & Hs10 & _). pose proof (typed_dst _ Hty). pose proof (typed_src _ Hty).
  assert (Hreg : ∀ r, 0 <= r <= 10 → ∃ v, register (count_instruction vm) r = Done v ∧ fits 64 v).
  { intros r Hr. unfold register. destruct (vm_registers (count_instruction vm) !! Z.to_nat r) as [v|] eqn:Hv.
    - exists v. split; [done|]. apply (Forall_lookup_1 _ _ _ _ (ok_registers _ Hok') Hv).
    - apply lookup_ge_None in Hv. rewrite (ok_count _ Hok') in Hv. unfold REGISTER_COUNT in Hv. lia. }
  destruct (Hreg (dst insn)) as (d & -> & Hd); [lia|]. destruct (Hreg (src insn)) as (s & -> & Hsf); [lia|]. cbn [mbind Outcome_bind].
  destruct (Opcode_from_raw (opcode insn)) as [op|] eqn:Hop; [|by eexists].
  apply exec_ok; try done. unfold CU_PER_INSTRUCTION. lia.
Qed.

Lemma run_ok fuel vm segment_cu :
  vm_ok vm → 0 <= segment_cu → potential vm < Z.of_nat fuel →
  ∃ r, run fuel vm segment_cu = Some (Done r) ∧ result_ok r.
Proof using Hbudget Hprogram Hlaws.
  revert vm segment_cu. induction fuel as [|fuel IH]; intros vm segment_cu Hok Hs Hf.
  { unfold potential in Hf. pose proof (ok_meter vm Hok). pose proof program_len_nonneg. nia. }
  cbn [run]. destruct (step_ok vm segment_cu Hok Hs) as (n & -> & Hn).
  destruct n as [vm' s'|r]; [|by eexists]. destruct Hn as (Hok' & Hs' & Hp). apply IH; [done..|lia].
Qed.

Lemma initial_state_ok memory sysvars program_id :
  memory_ok memory → mm_frame_index memory = 0 → vm_ok (initial_state memory sysvars program_id).
Proof using Hbudget Hprogram.
  intros Hm Hi. destruct Hprogram as (_ & _ & Hentry). unfold is_u64 in Hbudget.
  split; cbn [vm_registers vm_call_stack vm_memory vm_pc vm_compute_meter initial_state]; try done; try lia.
  assert (fits 64 (MemoryMap_frame_pointer memory)).
  { unfold MemoryMap_frame_pointer. case_match; apply wrap64_fits. }
  apply Forall_insert; [|unfold fits, REGION_INPUT_BASE; lia].
  apply Forall_insert; [|done]. apply Forall_replicate. unfold fits. lia.
Qed.

End vm.

(** [execute] with enough fuel. *)
Lemma execute_returns {SysvarSnapshot} active_features restrictions
    `{Hdispatch : @SyscallDispatch SysvarSnapshot} program compute_budget memory sysvars program_id fuel :
  is_u64 compute_budget → program_ok program → @SyscallLaws SysvarSnapshot Hdispatch compute_budget →
  memory_ok memory → mm_frame_index memory = 0 →
  (compute_budget + 1) * (program_len program + 1) <= Z.of_nat fuel →
  ∃ r, execute active_features restrictions program compute_budget fuel memory sysvars program_id
       = Some (Done r) ∧ result_ok compute_budget r.
Proof.
  intros Hbudget Hprogram Hlaws Hm Hi Hf. unfold execute.
  destruct (lp_instructions program) as [|i l] eqn:Hl; [by eexists|].
  apply run_ok; try done; [by apply initial_state_ok|].
  pose proof (program_len_nonneg program). destruct Hbudget. destruct Hprogram as (_ & _ & Hentry).
  unfold potential. cbn [vm_compute_meter initial_state vm_pc]. nia.
Qed.

(** C15. Execution ends and is contained.  Take any program whose register fields name
    registers that exist, with any memory, compute budget and syscalls that keep the
    promises of the trait.  The interpreter returns within (budget + 1) * (length + 1)
    passes of its loop.  It does not panic, the return stack does not underflow, the
    returned value is a 64-bit value, and the compute units consumed are within the
    budget. *)
Theorem execution_terminates {SysvarSnapshot} active_features restrictions
    `{Hdispatch : @SyscallDispatch SysvarSnapshot} program compute_budget memory sysvars program_id fuel :
  is_u64 compute_budget → program_ok program → @SyscallLaws SysvarSnapshot Hdispatch compute_budget →
  memory_ok memory → mm_frame_index memory = 0 →
  (compute_budget + 1) * (program_len program + 1) <= Z.of_nat fuel →
  ∃ r, execute active_features restrictions program compute_budget fuel memory sysvars program_id
       = Some (Done r) ∧ result_ok compute_budget r.
Proof. apply execute_returns. Qed.

Lemma no_syscalls_laws {SysvarSnapshot} compute_budget :
  @SyscallLaws SysvarSnapshot (NoSyscalls (SysvarSnapshot := SysvarSnapshot)) compute_budget.
Proof. split. intros id vm r vm' Hok [= <- <-]. split_and!; done. Qed.

(** A loop that counts down from 5. *)
Definition countdown : LoadedProgram :=
  mkLoadedProgram [mkInstruction 0xB7 1 0 0 5; mkInstruction 0x17 1 0 0 1; mkInstruction 0x55 1 0 (-2) 0;
                   mkInstruction 0x95 0 0 0 0] [] 0 ∅ V0 [] 0.

Lemma fresh_memory_ok : memory_ok (MemoryMap_new [] (Z.to_nat 8192) 16 []).
Proof.
  intros id. apply Forall_forall. intros x Hx. assert (x = 0) as ->; [|by vm_compute].
  destruct id; cbn [region MemoryMap_new mr_data mm_program mm_stack mm_heap mm_input] in Hx;
    [by apply elem_of_nil in Hx|by apply elem_of_replicate_inv in Hx..|by apply elem_of_nil in Hx].
Qed.

Lemma execution_terminates_witness :
  ∃ r, @execute () (λ _, ∅) [] (NoSyscalls (SysvarSnapshot := ())) countdown 100 505
         (MemoryMap_new [] (Z.to_nat 8192) 16 []) () [] = Some (Done (Ok r))
       ∧ vr_compute_units_consumed r = 12.
Proof.
  destruct (@execution_terminates () (λ _, ∅) [] (NoSyscalls (SysvarSnapshot := ())) countdown 100
              (MemoryMap_new [] (Z.to_nat 8192) 16 []) () [] 505) as (r & Hr & _).
  - split; vm_compute; discriminate.
  - split_and!; [|apply map_Forall_empty|vm_compute; discriminate].
    repeat constructor; cbn; try lia; discriminate.
  - apply no_syscalls_laws.
  - apply fresh_memory_ok.
  - reflexivity.
  - vm_compute. discriminate.
  - vm_compute in Hr. injection Hr as <-. eexists. split; [vm_compute; reflexivity|reflexivity].
Defined.
