(* ===== verification/SbpfValidate.v ===== *)
(** * Static validation of sBPF programs

    [karstflow-sbpf/src/validation.rs]: the checks a program passes before it is deployed
    and executed.  The list of errors is kept in the order the code pushes them.  What the
    interpreter needs of a program ([program_ok]) is more than what validation checks: the
    theorems show what has to be added, and programs in the gap. *)
From stdpp Require Import base tactics list gmap.
From Stdlib Require Import ZArith Lia.
From S2P Require Import Prelude SbpfInsn SbpfMemory SbpfVm.
Local Open Scope Z_scope.

Notation MAX_DST_REGISTER := (9)%Z (only parsing).
Notation MAX_SRC_REGISTER := (10)%Z (only parsing).
Definition MAX_PROGRAM_INSTRUCTIONS : Z := 1000000.

Inductive RegisterField := FieldCallxTarget | FieldDestination | FieldSource.

Inductive ValidationError :=
| InvalidOpcode (pc opcode : Z)
| InvalidRegister (pc register : Z) (field : RegisterField)
| JumpOutOfBounds (pc target : Z)
| UnpairedLddw (pc : Z)
| InvalidCallTarget (pc target : Z)
| MissingExitInstruction
| ImmediateDivisionByZero (pc : Z)
| ProgramTooLarge (count max : Z).

Definition is_opcode_disabled_for_version (op : Opcode) (version : SbpfVersion) : bool :=
  match op with
  | Lddw => SbpfVersion_lddw_disabled version
  | Le => SbpfVersion_le_disabled version
  | Neg64 | Neg32 => SbpfVersion_neg_disabled version
  | _ => false
  end.

(** The errors [validate_registers] pushes. *)
Definition validate_registers (insn : Instruction) (op : Opcode) (version : SbpfVersion) (pc : Z)
    : list ValidationError :=
  if bool_decide (op = Syscall) && negb (SbpfVersion_callx_uses_src_register version) then
    let selector := wrap32 (immediate insn) in
    if MAX_DST_REGISTER <? selector then [InvalidRegister pc (Z.min selector u8_max) FieldCallxTarget] else []
  else if bool_decide (op = Ja) || bool_decide (op = Call) || bool_decide (op = Exit) then []
  else
    (if Opcode_is_alu op && (MAX_DST_REGISTER <? dst insn) then [InvalidRegister pc (dst insn) FieldDestination] else [])
    ++ (if negb (Opcode_is_immediate_source op) && (MAX_SRC_REGISTER <? src insn)
        then [InvalidRegister pc (src insn) FieldSource] else []).

Definition validate_division (insn : Instruction) (op : Opcode) (pc : Z) : list ValidationError :=
  let is_div_mod_imm := match op with Div32Imm | Div64Imm | Mod32Imm | Mod64Imm => true | _ => false end in
  if is_div_mod_imm && (immediate insn =? 0) then [ImmediateDivisionByZero pc] else [].

Section validate.
Context (program : LoadedProgram) (registered_syscalls : gset Z).

Definition validate_jump (insn : Instruction) (op : Opcode) (pc : Z) : list ValidationError :=
  if Opcode_is_jump op && negb (bool_decide (op = Call)) && negb (bool_decide (op = Syscall))
     && negb (bool_decide (op = Exit)) then
    let target := pc + 1 + offset insn in
    if (target <? 0) || (program_len program <=? target) then [JumpOutOfBounds pc target] else []
  else [].

Definition validate_call (insn : Instruction) (op : Opcode) (pc : Z) : list ValidationError :=
  if bool_decide (op = Call) then
    let target_id := wrap32 (immediate insn) in
    let is_syscall := bool_decide (target_id ∈ registered_syscalls) in
    let is_relocated := bool_decide (is_Some (lp_call_targets program !! target_id)) in
    let is_relative := relative_target pc (immediate insn) <? program_len program in
    if negb is_syscall && negb is_relocated && negb is_relative then [InvalidCallTarget pc target_id] else []
  else [].

(** Whether the slot before [i] is an LDDW. *)
Definition after_lddw (i : nat) : bool :=
  match i with
  | O => false
  | S j => match lp_instructions program !! j with Some prev => Instruction_is_lddw prev | None => false end
  end.

(** One pass of the loop at slot [i]: the errors it pushes and the slots it moves on. *)
Definition validate_slot (i : nat) (insn : Instruction) : list ValidationError * nat :=
  let pc := Z.of_nat i in
  let filler := after_lddw i && (opcode insn =? 0) in
  match Opcode_from_raw (opcode insn) with
  | None => if filler then ([], 1%nat) else ([InvalidOpcode pc (opcode insn)], 1%nat)
  | Some op =>
      if filler then ([], 1%nat)
      else if is_opcode_disabled_for_version op (lp_sbpf_version program)
      then ([InvalidOpcode pc (opcode insn)], 1%nat)
      else if Opcode_is_lddw op then
        if program_len program <=? pc + 1 then ([UnpairedLddw pc], 1%nat) else ([], 2%nat)
      else
        (validate_registers insn op (lp_sbpf_version program) pc ++ validate_jump insn op pc
         ++ validate_division insn op pc ++ validate_call insn op pc, 1%nat)
  end.

Fixpoint validate_loop (fuel i : nat) (errors : list ValidationError) : list ValidationError :=
  match fuel with
  | O => errors
  | S fuel =>
      match lp_instructions program !! i with
      | None => errors
      | Some insn => let '(new, n) := validate_slot i insn in validate_loop fuel (i + n) (errors ++ new)
      end
  end.

(** [rposition(|insn| insn.opcode != 0)] on the reversed list: the opcode found, or that
    of the first instruction. *)
Definition last_real_opcode : Z :=
  match find (λ insn, negb (opcode insn =? 0)) (reverse (lp_instructions program)) with
  | Some insn => opcode insn
  | None => match lp_instructions program with insn :: _ => opcode insn | [] => 0 end
  end.

Definition validate : result () (list ValidationError) :=
  let errors := if MAX_PROGRAM_INSTRUCTIONS <? program_len program
                then [ProgramTooLarge (program_len program) MAX_PROGRAM_INSTRUCTIONS] else [] in
  match lp_instructions program with
  | [] => Err (errors ++ [MissingExitInstruction])
  | insns =>
      let errors := validate_loop (length insns) 0 errors in
      let errors := if negb (last_real_opcode =? Opcode_as_u8 Exit) then errors ++ [MissingExitInstruction] else errors in
      if bool_decide (length errors = O) then Ok () else Err errors
  end.
End validate.

(** ** What validation gives the interpreter *)

Section soundness.
Context (program : LoadedProgram) (registered_syscalls : gset Z).

Lemma validate_loop_errors fuel i errors :
  validate_loop program registered_syscalls fuel i errors = [] → errors = [].
Proof.
  revert i errors. induction fuel as [|fuel IH]; intros i errors; cbn; [done|].
  destruct (lp_instructions program !! i) as [x|]; [|done].
  destruct (validate_slot _ _ _ _) as [new n]. intros H%IH. by apply app_eq_nil in H as [-> _].
Qed.

Lemma validate_slot_moves i x new n :
  lp_instructions program !! i = Some x → validate_slot program registered_syscalls i x = (new, n) →
  n = 1%nat ∨ n = 2%nat ∧ after_lddw program (S i) = true.
Proof.
  intros Hi. unfold validate_slot. destruct (Opcode_from_raw (opcode x)) as [op|] eqn:Hop.
  2: { destruct (_ && _); intros [= _ <-]; by left. }
  destruct (_ && _); [intros [= _ <-]; by left|].
  destruct (is_opcode_disabled_for_version _ _); [intros [= _ <-]; by left|].
  destruct (Opcode_is_lddw op) eqn:Hl; [|intros [= _ <-]; by left].
  destruct (_ <=? _); intros [= _ <-]; [by left|right]. split; [done|].
  cbn. rewrite Hi. unfold Instruction_is_lddw. apply as_u8_from_raw in Hop as <-.
  unfold Opcode_is_lddw in Hl. by destruct op.
Qed.

(** Every slot is visited without an error, or is the second slot of an LDDW. *)
Lemma validate_loop_visits fuel i errors j x :
  validate_loop program registered_syscalls fuel i errors = [] → (i <= j < i + fuel)%nat →
  lp_instructions program !! j = Some x →
  (validate_slot program registered_syscalls j x).1 = [] ∨ after_lddw program j = true.
Proof.
  revert i errors. induction fuel as [|fuel IH]; intros i errors; cbn; [lia|].
  intros Hrun Hij Hj. destruct (lp_instructions program !! i) as [y|] eqn:Hi.
  2: { apply lookup_ge_None in Hi. apply lookup_lt_Some in Hj. lia. }
  destruct (validate_slot program registered_syscalls i y) as [new n] eqn:Hslot.
  destruct (decide (j = i)) as [->|Hne].
  - left. apply validate_loop_errors, app_eq_nil in Hrun as [_ ->]. by simplify_eq; rewrite Hslot.
  - destruct (validate_slot_moves i y new n Hi Hslot) as [->|[-> Hl]].
    + apply (IH _ _ Hrun); [lia|done].
    + destruct (decide (j = S i)) as [->|]; [by right|]. apply (IH _ _ Hrun); [lia|done].
Qed.

Lemma validate_ok :
  validate program registered_syscalls = Ok () →
  program_len program <= MAX_PROGRAM_INSTRUCTIONS
  ∧ ∀ j x, lp_instructions program !! j = Some x →
      (validate_slot program registered_syscalls j x).1 = [] ∨ after_lddw program j = true.
Proof.
  unfold validate. destruct (Z.ltb_spec MAX_PROGRAM_INSTRUCTIONS (program_len program)) as [Hlen|Hlen].
  - destruct (lp_instructions program); [done|]. intros H. exfalso.
    case_bool_decide as Hb; [|done]. apply nil_length_inv in Hb.
    assert (Hloop : validate_loop program registered_syscalls (length (i :: l)) 0
      [ProgramTooLarge (program_len program) MAX_PROGRAM_INSTRUCTIONS] = []).
    { destruct (negb _); [by apply app_eq_nil in Hb as [? _]|done]. }
    by apply validate_loop_errors in Hloop.
  - destruct (lp_instructions program) as [|x0 l] eqn:Hl; [done|]. intros H. split; [done|].
    case_bool_decide as Hb; [|done]. apply nil_length_inv in Hb. intros j x Hj.
    apply (validate_loop_visits (length (x0 :: l)) 0 [] j x); [|apply lookup_lt_Some in Hj; lia|by rewrite Hl].
    destruct (negb _); [by apply app_eq_nil in Hb as [? _]|done].
Qed.

(** A CALLX in a visited slot names a register that exists. *)
Lemma visited_callx j x :
  instruction_typed x → (validate_slot program registered_syscalls j x).1 = [] →
  opcode x = Opcode_as_u8 Syscall → SbpfVersion_callx_uses_src_register (lp_sbpf_version program) = false →
  Z.land (wrap64 (immediate x)) 0xF <= 10.
Proof.
  intros Ht Hslot Hop Hv. unfold validate_slot in Hslot. rewrite Hop, from_raw_as_u8, andb_false_r in Hslot.
  cbn [is_opcode_disabled_for_version Opcode_is_lddw fst] in Hslot.
  apply app_eq_nil in Hslot as [Hreg _]. unfold validate_registers in Hreg.
  rewrite bool_decide_eq_true_2, Hv in Hreg by done. cbn [andb negb] in Hreg.
  destruct (Z.ltb_spec MAX_DST_REGISTER (wrap32 (immediate x))) as [|Hle]; [done|].
  pose proof (typed_immediate x Ht) as Himm. unfold wrap32 in Hle.
  assert (0 <= immediate x <= 9) as Hsmall.
  { destruct (Z.leb_spec 0 (immediate x)); [rewrite Z.mod_small in Hle; lia|].
    rewrite <- (Z.mod_add _ 1), Z.mod_small in Hle; lia. }
  unfold wrap64. rewrite Z.mod_small by lia. change 0xF with (Z.ones 4).
  rewrite Z.land_ones, Z.mod_small; lia.
Qed.

(** The register fields name registers, and second slots of an LDDW are fillers: what
    the interpreter relies on and validation does not look at. *)
Record unchecked_fields : Prop := {
  uf_typed : Forall instruction_typed (lp_instructions program);
  uf_registers : Forall (λ x, dst x <= 10 ∧ src x <= 10) (lp_instructions program);
  uf_fillers : ∀ j x, after_lddw program j = true → lp_instructions program !! j = Some x → opcode x = 0;
  uf_targets : map_Forall (λ _ pc, 0 <= pc) (lp_call_targets program);
  uf_entry : 0 <= lp_entry_point program;
}.

Lemma validated_program_ok :
  unchecked_fields → validate program registered_syscalls = Ok () → program_ok program.
Proof.
  intros [Ht Hr Hf Hc He] Hv. apply validate_ok in Hv as [_ Hslots]. split_and!; [|done..].
  apply Forall_lookup. intros j x Hj. pose proof (Forall_lookup_1 _ _ _ _ Ht Hj) as Hx.
  destruct (Forall_lookup_1 _ _ _ _ Hr Hj). split_and!; [done..|]. intros Hop Hsrc.
  destruct (Hslots j x Hj) as [Hs|Hl]; [by eapply visited_callx|].
  by rewrite (Hf j x Hl Hj) in Hop.
Qed.
End soundness.

(** ** Validated programs *)

(** A program of the given version with nothing but instructions. *)
Definition bare_program (version : SbpfVersion) (insns : list Instruction) : LoadedProgram :=
  mkLoadedProgram insns [] 0 ∅ version [] 0.

Definition insn (op : Opcode) (d s off imm : Z) : Instruction := mkInstruction (Opcode_as_u8 op) d s off imm.

(** Run with the given budget, no syscalls and no features. *)
Definition run_bare (program : LoadedProgram) (budget : Z) : option (Outcome (result VmResult VmError)) :=
  @execute () (λ _, ∅) [] (NoSyscalls (SysvarSnapshot := ())) program budget 100 (MemoryMap_new [] (Z.to_nat 8192) 16 [])
    () [].

(** C31. Validation and the interpreter fit together.  A program that passes validation,
    whose register fields name registers and whose LDDW second slots are fillers, is run
    to its end: with any memory, budget and lawful syscalls the interpreter returns within
    (budget + 1) * 1000001 passes, the bound being that of the program size validation
    allows; it does not panic and stays within the budget. *)
Theorem validated_programs_run {SysvarSnapshot} active_features restrictions
    `{Hdispatch : @SyscallDispatch SysvarSnapshot} program registered_syscalls compute_budget memory sysvars
    program_id fuel :
  validate program registered_syscalls = Ok () → unchecked_fields program →
  is_u64 compute_budget → @SyscallLaws SysvarSnapshot Hdispatch compute_budget →
  memory_ok memory → mm_frame_index memory = 0 →
  (compute_budget + 1) * (MAX_PROGRAM_INSTRUCTIONS + 1) <= Z.of_nat fuel →
  ∃ r, execute active_features restrictions program compute_budget fuel memory sysvars program_id
       = Some (Done r) ∧ result_ok compute_budget r.
Proof.
  intros Hv Hu Hb Hlaws Hm Hi Hf. pose proof (validated_program_ok _ _ Hu Hv) as Hp.
  apply validate_ok in Hv as [Hlen _]. pose proof (program_len_nonneg program). destruct Hb as [Hb0 Hb1].
  apply execute_returns; try done. nia.
Qed.

Lemma validated_programs_run_witness :
  ∃ r, @execute () (λ _, ∅) [] (NoSyscalls (SysvarSnapshot := ())) countdown 100 (Z.to_nat 101000101)
         (MemoryMap_new [] (Z.to_nat 8192) 16 []) () [] = Some (Done r) ∧ result_ok 100 r.
Proof.
  apply (@validated_programs_run () (λ _, ∅) [] (NoSyscalls (SysvarSnapshot := ())) countdown ∅ 100
           (MemoryMap_new [] (Z.to_nat 8192) 16 []) () [] (Z.to_nat 101000101)).
  - vm_compute. reflexivity.
  - split; [repeat constructor; cbn; lia|repeat constructor; cbn; lia| |apply map_Forall_empty|vm_compute; discriminate].
    intros j x. destruct j as [|[|[|[|j]]]]; discriminate.
  - split; vm_compute; discriminate.
  - apply no_syscalls_laws.
  - apply fresh_memory_ok.
  - reflexivity.
  - rewrite Z2Nat.id by lia. vm_compute. discriminate.
Defined.

(** Validation lets programs through that crash the validator.  Each of these
    programs passes [validate] with no syscalls registered, and each makes the interpreter
    index its register array out of range, which panics: a branch on register 12, whose
    destination field is only checked for arithmetic; an addition of an immediate with
    source field 15, which is fetched although it is not used; and a jump into the second
    slot of an LDDW, which is not checked and holds a CALLX of register 15. *)
Theorem validated_programs_panic :
  Forall (λ p, validate p ∅ = Ok () ∧ run_bare p 100 = Some Panicked)
    [bare_program V0 [insn JeqImm 12 0 0 0; insn Exit 0 0 0 0];
     bare_program V2 [insn Add64Imm 0 15 0 1; insn Exit 0 0 0 0];
     bare_program V0 [insn Ja 0 0 1 0; insn Lddw 1 0 0 0; insn Syscall 0 0 0 15; insn Exit 0 0 0 0]].
Proof. repeat constructor. Qed.
