(* ===== verification/TxProcessor.v ===== *)
(** * Accounts and the transaction processor

    Accounts are those of [karstflow-types/src/account.rs], the execution context and the
    outcome of an instruction those of [karstflow-sbpf/src/lib.rs], and the loop over the
    instructions of a transaction that of [karstflow-sbpf/src/transaction_processor.rs].
    A [Pubkey] is its 32 bytes.  The programs the processor routes to are the interface
    [Programs].  The sysvar snapshot of a context, which [process_transaction] leaves
    empty, keeps the fields that the programs modelled here read; a log line keeps the
    program and the index it is printed with. *)
From stdpp Require Import base tactics list gmap sets strings.
From Stdlib Require Import ZArith Lia.
From S2P Require Import Prelude.
Local Open Scope Z_scope.

Notation Pubkey := (list Z) (only parsing).

Record AccountMeta := mkAccountMeta {
  am_lamports : Z;
  am_owner : Pubkey;
  am_executable : bool;
  am_rent_epoch : Z;
}.

Record Account := mkAccount {
  acc_meta : AccountMeta;
  acc_data : list Z;
}.

Definition Pubkey_zeroed : Pubkey := replicate 32 0.

Definition Account_default : Account := mkAccount (mkAccountMeta 0 Pubkey_zeroed false 0) [].

(** The fields of [SysvarSnapshot] that the system program reads. *)
Record SysvarSnapshot := mkSysvarSnapshot {
  ss_lamports_per_byte_year : Z;
  ss_exemption_threshold : f64;
  ss_recent_blockhash : list Z;
  ss_lamports_per_signature : Z;
  ss_active_features : gset Pubkey;
}.

Record ExecutionContext := mkExecutionContext {
  ec_program_id : Pubkey;
  ec_accounts : list (Pubkey * Account * bool);
  ec_instruction_data : list Z;
  ec_compute_budget : Z;
  ec_heap_size : Z;
  ec_sysvar_snapshot : option SysvarSnapshot;
  ec_signers : gset Pubkey;
}.

Record ExecutionOutcome := mkExecutionOutcome {
  eo_success : bool;
  eo_compute_units_consumed : Z;
  eo_modified_accounts : gmap Pubkey Account;
  eo_logs : list string;
  eo_return_data : option (list Z);
}.

Definition ExecutionOutcome_success (compute_units : Z) : ExecutionOutcome :=
  mkExecutionOutcome true compute_units ∅ [] None.

Definition ExecutionOutcome_failure (compute_units : Z) (error_message : string) : ExecutionOutcome :=
  mkExecutionOutcome false compute_units ∅ [String.append "Program failed: " error_message] None.

Definition ExecutionOutcome_with_modified_account (o : ExecutionOutcome) (pubkey : Pubkey)
  (account : Account) : ExecutionOutcome :=
  mkExecutionOutcome (eo_success o) (eo_compute_units_consumed o)
    (<[pubkey := account]> (eo_modified_accounts o)) (eo_logs o) (eo_return_data o).

(** The programs: [execute_instruction], and the heap size that the compute budget
    instructions of a transaction ask for. *)
Class Programs := {
  execute_instruction : ExecutionContext → Outcome ExecutionOutcome;
  requested_heap_size : list (Pubkey * list Z) → option Z;
}.

Record MessageHeader := mkMessageHeader {
  num_required_signatures : Z;
  num_readonly_signed : Z;
  num_readonly_unsigned : Z;
}.

Record CompiledInstruction := mkCompiledInstruction {
  ci_program_id_index : Z;
  ci_accounts : list Z;
  ci_data : list Z;
}.

Record TransactionMessage := mkTransactionMessage {
  tm_header : MessageHeader;
  tm_account_keys : list Pubkey;
  tm_recent_blockhash : list Z;
  tm_instructions : list CompiledInstruction;
}.

Inductive TransactionError :=
| InvalidProgramIdIndex (index : Z)
| InvalidAccountIndex (index : Z)
| InstructionFailed (idx : nat)
| ComputeBudgetExceeded.

Record TransactionResult := mkTransactionResult {
  tr_success : bool;
  tr_compute_units_consumed : Z;
  tr_modified_accounts : gmap Pubkey Account;
  tr_logs : list (Pubkey * nat * string);
  tr_error : option TransactionError;
}.

Definition MAX_COMPUTE_UNIT_LIMIT : Z := 1400000.
Definition DEFAULT_HEAP_SIZE : Z := 32768.

Definition TransactionMessage_is_writable (m : TransactionMessage) (index : Z) : bool :=
  let num_signed := num_required_signatures (tm_header m) in
  let num_ro_signed := num_readonly_signed (tm_header m) in
  let num_ro_unsigned := num_readonly_unsigned (tm_header m) in
  if index <? num_signed then index <? u64_saturating_sub num_signed num_ro_signed
  else index <? u64_saturating_sub (Z.of_nat (length (tm_account_keys m))) num_ro_unsigned.

Definition account_key (m : TransactionMessage) (index : Z) : option Pubkey :=
  tm_account_keys m !! Z.to_nat index.

Section processor.
Context `{Programs}.
Context (max_compute_units : Z) (message : TransactionMessage) (account_state : gmap Pubkey Account).

(** The variables of the loop. *)
Record TxState := mkTxState {
  ts_total_compute_units : Z;
  ts_modified_accounts : gmap Pubkey Account;
  ts_all_logs : list (Pubkey * nat * string);
}.

Definition finish (success : bool) (s : TxState) (error : option TransactionError) : TransactionResult :=
  mkTransactionResult success (ts_total_compute_units s) (ts_modified_accounts s) (ts_all_logs s) error.

Definition heap_size : Z :=
  default DEFAULT_HEAP_SIZE (requested_heap_size (omap (λ ci,
    pid ← account_key message (ci_program_id_index ci); Some (pid, ci_data ci)) (tm_instructions message))).

(** The account as earlier instructions left it, else as the ledger has it. *)
Definition current_account (s : TxState) (pubkey : Pubkey) : Account :=
  default Account_default
    (match ts_modified_accounts s !! pubkey with
     | Some a => Some a
     | None => account_state !! pubkey
     end).

(** The loop that resolves account references. *)
Fixpoint resolve_accounts (s : TxState) (indices : list Z)
  : result (list (Pubkey * Account * bool)) TransactionError :=
  match indices with
  | [] => Ok []
  | account_index :: rest =>
      match account_key message account_index with
      | None => Err (InvalidAccountIndex account_index)
      | Some pubkey =>
          match resolve_accounts s rest with
          | Ok l => Ok ((pubkey, current_account s pubkey,
                         TransactionMessage_is_writable message account_index) :: l)
          | Err e => Err e
          end
      end
  end.

Definition tx_signers : gset Pubkey :=
  list_to_set (omap (λ i, tm_account_keys message !! i)
    (seq 0 (Z.to_nat (num_required_signatures (tm_header message))))).

(** [ExecutionContext::new] with the budget, the heap size and the signers. *)
Definition instruction_context (s : TxState) (program_id : Pubkey)
  (accounts : list (Pubkey * Account * bool)) (data : list Z) : ExecutionContext :=
  mkExecutionContext program_id accounts data
    (Z.min (u64_saturating_sub max_compute_units (ts_total_compute_units s)) MAX_COMPUTE_UNIT_LIMIT)
    heap_size None tx_signers.

(** What follows [execute_instruction]: charge, log, and merge the accounts. *)
Definition absorb (s : TxState) (idx : nat) (program_id : Pubkey) (outcome : ExecutionOutcome)
  : TxState + TransactionResult :=
  let total := u64_saturating_add (ts_total_compute_units s) (eo_compute_units_consumed outcome) in
  let logs := ts_all_logs s ++ ((λ log, (program_id, idx, log)) <$> eo_logs outcome) in
  if eo_success outcome then
    let s' := mkTxState total (eo_modified_accounts outcome ∪ ts_modified_accounts s) logs in
    if max_compute_units <? total then inr (finish false s' (Some ComputeBudgetExceeded)) else inl s'
  else inr (finish false (mkTxState total (ts_modified_accounts s) logs) (Some (InstructionFailed idx))).

(** One turn of the loop: the next state, or the result of an early return. *)
Definition process_one (s : TxState) (idx : nat) (ci : CompiledInstruction)
  : Outcome (TxState + TransactionResult) :=
  match account_key message (ci_program_id_index ci) with
  | None => Done (inr (finish false s (Some (InvalidProgramIdIndex (ci_program_id_index ci)))))
  | Some program_id =>
      match resolve_accounts s (ci_accounts ci) with
      | Err e => Done (inr (finish false s (Some e)))
      | Ok accounts =>
          outcome ← execute_instruction (instruction_context s program_id accounts (ci_data ci));
          Done (absorb s idx program_id outcome)
      end
  end.

Fixpoint process_loop (s : TxState) (idx : nat) (instructions : list CompiledInstruction)
  : Outcome TransactionResult :=
  match instructions with
  | [] => Done (finish true s None)
  | ci :: rest =>
      r ← process_one s idx ci;
      match r with
      | inl s' => process_loop s' (S idx) rest
      | inr result => Done result
      end
  end.

Definition process_transaction : Outcome TransactionResult :=
  process_loop (mkTxState 0 ∅ []) 0 (tm_instructions message).

(** The loop gets to instruction [idx] in state [s]. *)
Inductive arrives : TxState → nat → Prop :=
| arrives_start : arrives (mkTxState 0 ∅ []) 0
| arrives_step s idx ci s' :
    arrives s idx → tm_instructions message !! idx = Some ci →
    process_one s idx ci = Done (inl s') → arrives s' (S idx).

(** The ledger with what the transaction has changed so far. *)
Definition overlay (modified : gmap Pubkey Account) : gmap Pubkey Account := modified ∪ account_state.
End processor.

(** ** What holds for every program *)

Section rules.
Context `{Hprograms : Programs}.
Context (max_compute_units : Z) (message : TransactionMessage) (account_state : gmap Pubkey Account).

Lemma current_account_overlay s k :
  current_account account_state s k = default Account_default (overlay account_state (ts_modified_accounts s) !! k).
Proof.
  unfold current_account, overlay. rewrite lookup_union.
  destruct (ts_modified_accounts s !! k), (account_state !! k); done.
Qed.

Lemma resolve_accounts_current s indices accounts :
  resolve_accounts message account_state s indices = Ok accounts →
  Forall (λ x, x.1.2 = current_account account_state s x.1.1) accounts.
Proof.
  revert accounts. induction indices as [|i rest IH]; simpl; intros accounts; [by intros [= <-]|].
  destruct (account_key message i) as [key|]; [|done].
  destruct (resolve_accounts _ _ _ _) as [l|]; [|done]. intros [= <-]. constructor; [done|]. by apply IH.
Qed.

(** An invariant of the ledger that every instruction preserves holds of the result,
    whether the transaction succeeds or not. *)
Lemma process_transaction_invariant (I : gmap Pubkey Account → Prop) :
  I account_state →
  (∀ s idx ci program_id accounts,
     arrives max_compute_units message account_state s idx →
     tm_instructions message !! idx = Some ci →
     account_key message (ci_program_id_index ci) = Some program_id →
     resolve_accounts message account_state s (ci_accounts ci) = Ok accounts →
     I (overlay account_state (ts_modified_accounts s)) →
     ∃ o, execute_instruction (instruction_context max_compute_units message s program_id accounts (ci_data ci)) = Done o
          ∧ I (overlay account_state (eo_modified_accounts o ∪ ts_modified_accounts s))) →
  ∃ r, process_transaction max_compute_units message account_state = Done r
       ∧ I (overlay account_state (tr_modified_accounts r)).
Proof.
  intros H0 Hstep. unfold process_transaction.
  assert (Hloop : ∀ rest s idx, drop idx (tm_instructions message) = rest →
    arrives max_compute_units message account_state s idx →
    I (overlay account_state (ts_modified_accounts s)) →
    ∃ r, process_loop max_compute_units message account_state s idx rest = Done r
         ∧ I (overlay account_state (tr_modified_accounts r))).
  { induction rest as [|ci rest IH]; intros s idx Hrest Harr HI; [by eexists|].
    assert (Hci : tm_instructions message !! idx = Some ci).
    { rewrite <- (Nat.add_0_r idx), <- lookup_drop, Hrest. done. }
    assert (Hnext : ∀ s', process_one max_compute_units message account_state s idx ci = Done (inl s') →
              I (overlay account_state (ts_modified_accounts s')) →
              ∃ r, process_loop max_compute_units message account_state s' (S idx) rest = Done r
                   ∧ I (overlay account_state (tr_modified_accounts r))).
    { intros s' Hs' HI'. apply IH; [|by eapply arrives_step|done].
      rewrite <- Nat.add_1_r, <- drop_drop, Hrest. done. }
    simpl. destruct (account_key message (ci_program_id_index ci)) as [pid|] eqn:Hpid;
      unfold process_one in Hnext |- *; rewrite Hpid in Hnext |- *; [|by eexists].
    destruct (resolve_accounts message account_state s (ci_accounts ci)) as [accounts|] eqn:Hres; [|by eexists].
    destruct (Hstep s idx ci pid accounts Harr Hci Hpid Hres HI) as (o & Ho & HIo).
    rewrite Ho in Hnext |- *. rewrite Done_bind in Hnext |- *. rewrite Done_bind.
    destruct (absorb max_compute_units s idx pid o) as [s'|r] eqn:Habs;
      unfold absorb in Habs; destruct (eo_success o) eqn:?; simplify_eq; try (by eexists);
      destruct (max_compute_units <? _); simplify_eq; [|by eexists].
    by apply Hnext. }
  apply (Hloop _ _ 0%nat); [done|constructor|]. unfold overlay. cbn. by rewrite map_empty_union.
Qed.
End rules.
