(* ===== verification/TokenProgram.v ===== *)
(** * The token program

    [karstflow-sbpf/src/token_program.rs]: mints, token accounts and multisigs with their
    byte layout, and the 23 instructions.  An instruction reads the accounts of its
    context and returns the accounts it modified, or an error string; each account is
    cloned out of the context, so an account that is passed twice is read twice and
    written twice.  The indices the code takes without a check that they are in range are
    those of [transfer_checked] and [approve_checked]; all others come after a guard on
    the length, and a byte read here outside its buffer is 0. *)
From stdpp Require Import base tactics list gmap sets strings pretty.
From Stdlib Require Import ZArith Lia.
From S2P Require Import Prelude TxProcessor.
Local Open Scope Z_scope.

Inductive TokenProgramError :=
| InsufficientFunds | InvalidMint | MintMismatch | OwnerMismatch | FixedSupply | AlreadyInUse
| InvalidNumberOfProvidedSigners | InvalidNumberOfRequiredSigners | UninitializedState
| NativeNotSupported | NonNativeHasBalance | InvalidInstruction | InvalidState | Overflow
| AuthorityTypeNotSupported | MintCannotFreeze | AccountFrozen | MintDecimalsMismatch
| NonNativeNotSupported.

Definition TokenProgramError_to_string (e : TokenProgramError) : string :=
  match e with
  | InsufficientFunds => "Insufficient funds"
  | InvalidMint => "Invalid mint"
  | MintMismatch => "Mint mismatch"
  | OwnerMismatch => "Owner mismatch"
  | FixedSupply => "Fixed supply"
  | AlreadyInUse => "Already in use"
  | InvalidNumberOfProvidedSigners => "Invalid number of provided signers"
  | InvalidNumberOfRequiredSigners => "Invalid number of required signers"
  | UninitializedState => "Uninitialized state"
  | NativeNotSupported => "Native not supported"
  | NonNativeHasBalance => "Non-native has balance"
  | InvalidInstruction => "Invalid instruction"
  | InvalidState => "Invalid state"
  | Overflow => "Overflow"
  | AuthorityTypeNotSupported => "Authority type not supported"
  | MintCannotFreeze => "Mint cannot freeze"
  | AccountFrozen => "Account frozen"
  | MintDecimalsMismatch => "Mint decimals mismatch"
  | NonNativeNotSupported => "Non-native not supported"
  end.

(** [data[a..b]], [data[i]] and [data[off..off + bytes.len()].copy_from_slice(bytes)]. *)
Definition bytes_at (data : list Z) (a b : nat) : list Z := take (b - a) (drop a data).
Definition byte_at (data : list Z) (i : nat) : Z := default 0 (data !! i).
Definition write_at (off : nat) (bytes data : list Z) : list Z :=
  take off data ++ bytes ++ drop (off + length bytes) data.

(** An optional field: a byte that is 1, then the field. *)
Definition write_option (off : nat) (field : option (list Z)) (data : list Z) : list Z :=
  match field with
  | Some bytes => write_at (off + 1) bytes (write_at off [1] data)
  | None => data
  end.
Definition read_option (data : list Z) (off n : nat) : option (list Z) :=
  if byte_at data off =? 1 then Some (bytes_at data (off + 1) (off + 1 + n)) else None.

Record Mint := mkMint {
  mint_authority : option Pubkey;
  mint_supply : Z;
  mint_decimals : Z;
  mint_is_initialized : bool;
  mint_freeze_authority : option Pubkey;
}.

Notation Mint_LEN := (82)%nat (only parsing).

Definition Mint_pack (m : Mint) : list Z :=
  let data := replicate Mint_LEN 0 in
  let data := write_option 0 (mint_authority m) data in
  let data := write_at 33 (to_le_bytes 8 (mint_supply m)) data in
  let data := write_at 41 [mint_decimals m] data in
  let data := write_at 42 [if mint_is_initialized m then 1 else 0] data in
  write_option 43 (mint_freeze_authority m) data.

Definition Mint_unpack (data : list Z) : result Mint TokenProgramError :=
  if (length data <? Mint_LEN)%nat then Err InvalidState
  else Ok (mkMint (read_option data 0 32)
             (from_le_bytes (bytes_at data 33 41))
             (byte_at data 41)
             (byte_at data 42 =? 1)
             (read_option data 43 32)).

Record Multisig := mkMultisig {
  ms_m : Z;
  ms_n : Z;
  ms_is_initialized : bool;
  ms_signers : list Pubkey;
}.

Notation Multisig_MAX_SIGNERS := (11)%nat (only parsing).
Notation Multisig_LEN := (355)%nat (only parsing).

Definition Multisig_pack (ms : Multisig) : list Z :=
  let data := replicate Multisig_LEN 0 in
  let data := write_at 0 [ms_m ms] data in
  let data := write_at 1 [ms_n ms] data in
  let data := write_at 2 [if ms_is_initialized ms then 1 else 0] data in
  (foldl (λ '(i, data) signer,
     (S i, if (Multisig_MAX_SIGNERS <=? i)%nat then data else write_at (3 + i * 32) signer data))
    (0%nat, data) (ms_signers ms)).2.

Definition Multisig_unpack (data : list Z) : result Multisig TokenProgramError :=
  if (length data <? Multisig_LEN)%nat then Err InvalidState
  else
    let n := byte_at data 1 in
    Ok (mkMultisig (byte_at data 0) n (byte_at data 2 =? 1)
          ((λ i, bytes_at data (3 + i * 32) (3 + i * 32 + 32))
             <$> seq 0 (Z.to_nat n `min` Multisig_MAX_SIGNERS))).

Inductive AccountState := Uninitialized | Initialized | Frozen.

#[export] Instance AccountState_eq_dec : EqDecision AccountState.
Proof. solve_decision. Defined.

Record TokenAccount := mkTokenAccount {
  ta_mint : Pubkey;
  ta_owner : Pubkey;
  ta_amount : Z;
  ta_delegate : option Pubkey;
  ta_state : AccountState;
  ta_is_native : option Z;
  ta_delegated_amount : Z;
  ta_close_authority : option Pubkey;
}.

Notation TokenAccount_LEN := (165)%nat (only parsing).

Definition TokenAccount_pack (t : TokenAccount) : list Z :=
  let data := replicate TokenAccount_LEN 0 in
  let data := write_at 0 (ta_mint t) data in
  let data := write_at 32 (ta_owner t) data in
  let data := write_at 64 (to_le_bytes 8 (ta_amount t)) data in
  let data := write_option 72 (ta_delegate t) data in
  let data := write_at 105 [match ta_state t with Uninitialized => 0 | Initialized => 1 | Frozen => 2 end] data in
  let data := write_option 106 (to_le_bytes 8 <$> ta_is_native t) data in
  let data := write_at 115 (to_le_bytes 8 (ta_delegated_amount t)) data in
  write_option 123 (ta_close_authority t) data.

Definition TokenAccount_unpack (data : list Z) : result TokenAccount TokenProgramError :=
  if (length data <? TokenAccount_LEN)%nat then Err InvalidState
  else
    let state := byte_at data 105 in
    match (if state =? 0 then Some Uninitialized
           else if state =? 1 then Some Initialized
           else if state =? 2 then Some Frozen else None) with
    | None => Err InvalidState
    | Some state =>
        Ok (mkTokenAccount (bytes_at data 0 32) (bytes_at data 32 64)
              (from_le_bytes (bytes_at data 64 72))
              (read_option data 72 32) state
              (from_le_bytes <$> read_option data 106 8)
              (from_le_bytes (bytes_at data 115 123))
              (read_option data 123 32))
    end.

(** ** Instructions

    [let?] is the operator [?]; [ensure] is an early return of an error. *)
Declare Scope rust_scope.
Delimit Scope rust_scope with rust.
Local Open Scope rust_scope.
Notation "'let?' x := m 'in' k" := (match m with Ok x => k | Err e => Err e end)
  (at level 10, x name, m at level 200, k at level 200) : rust_scope.
Notation "'ensure' b 'else' e 'in' k" := (if b then k else Err e)
  (at level 10, b at level 200, e at level 200, k at level 200) : rust_scope.

Definition map_err {A E F} (f : E → F) (r : result A E) : result A F :=
  match r with Ok a => Ok a | Err e => Err (f e) end.
Definition ok_or {A} (o : option A) (e : TokenProgramError) : result A string :=
  match o with Some a => Ok a | None => Err (TokenProgramError_to_string e) end.
Definition unpack_mint (a : Account) : result Mint string :=
  map_err TokenProgramError_to_string (Mint_unpack (acc_data a)).
Definition unpack_token (a : Account) : result TokenAccount string :=
  map_err TokenProgramError_to_string (TokenAccount_unpack (acc_data a)).

Definition with_bytes (a : Account) (data : list Z) : Account := mkAccount (acc_meta a) data.
Definition with_lamports (a : Account) (lamports : Z) : Account :=
  mkAccount (mkAccountMeta lamports (am_owner (acc_meta a)) (am_executable (acc_meta a))
               (am_rent_epoch (acc_meta a))) (acc_data a).
Definition with_supply (m : Mint) (supply : Z) : Mint :=
  mkMint (mint_authority m) supply (mint_decimals m) (mint_is_initialized m) (mint_freeze_authority m).
Definition with_amount (t : TokenAccount) (amount : Z) : TokenAccount :=
  mkTokenAccount (ta_mint t) (ta_owner t) amount (ta_delegate t) (ta_state t) (ta_is_native t)
    (ta_delegated_amount t) (ta_close_authority t).
Definition with_delegate (t : TokenAccount) (delegate : option Pubkey) (amount : Z) : TokenAccount :=
  mkTokenAccount (ta_mint t) (ta_owner t) (ta_amount t) delegate (ta_state t) (ta_is_native t)
    amount (ta_close_authority t).
Definition with_state (t : TokenAccount) (state : AccountState) : TokenAccount :=
  mkTokenAccount (ta_mint t) (ta_owner t) (ta_amount t) (ta_delegate t) state (ta_is_native t)
    (ta_delegated_amount t) (ta_close_authority t).

(** [if !data.is_empty() { if let Ok(existing) = unpack(data) { .. } }] *)
Definition mint_in_use (a : Account) : bool :=
  negb (bool_decide (acc_data a = []))
  && match Mint_unpack (acc_data a) with Ok m => mint_is_initialized m | Err _ => false end.
Definition token_in_use (a : Account) : bool :=
  negb (bool_decide (acc_data a = []))
  && match TokenAccount_unpack (acc_data a) with
     | Ok t => negb (bool_decide (ta_state t = Uninitialized)) | Err _ => false end.
Definition multisig_in_use (a : Account) : bool :=
  negb (bool_decide (acc_data a = []))
  && match Multisig_unpack (acc_data a) with Ok ms => ms_is_initialized ms | Err _ => false end.

Definition new_token_account (mint owner : Pubkey) : TokenAccount :=
  mkTokenAccount mint owner 0 None Initialized None 0 None.

(** The owner or the delegate. *)
Definition may_spend (t : TokenAccount) (authority : Pubkey) : bool :=
  bool_decide (ta_owner t = authority) || bool_decide (ta_delegate t = Some authority).

(** "If using delegate, reduce delegated amount" *)
Definition use_delegate (t : TokenAccount) (authority : Pubkey) (amount : Z) : TokenAccount :=
  if bool_decide (ta_delegate t = Some authority) then
    let delegated := u64_saturating_sub (ta_delegated_amount t) amount in
    with_delegate t (if delegated =? 0 then None else ta_delegate t) delegated
  else t.

Definition instruction_amount (data : list Z) : Z := from_le_bytes (bytes_at data 1 9).

Section instructions.
Variable base_cost : Z.

(** Instruction 0: InitializeMint *)
Definition initialize_mint (context : ExecutionContext) : result ExecutionOutcome string :=
  let data := ec_instruction_data context in
  match ec_accounts context with
  | (mint_pubkey, mint_account, mint_writable) :: _ :: _ =>
      ensure (3 <=? length data)%nat else "InitializeMint requires decimals and mint_authority" in
      ensure mint_writable else "Mint account must be writable" in
      ensure negb (mint_in_use mint_account) else TokenProgramError_to_string AlreadyInUse in
      ensure (34 <=? length data)%nat else "Missing mint_authority in instruction data" in
      let freeze_authority :=
        if (67 <=? length data)%nat && (byte_at data 34 =? 1) then Some (bytes_at data 35 67) else None in
      let mint := mkMint (Some (bytes_at data 2 34)) 0 (byte_at data 1) true freeze_authority in
      Ok (ExecutionOutcome_with_modified_account (ExecutionOutcome_success (u64_add base_cost 50))
            mint_pubkey (with_bytes mint_account (Mint_pack mint)))
  | _ => Err "InitializeMint requires at least 2 accounts"
  end.

(** Instruction 1: InitializeAccount *)
Definition initialize_account (context : ExecutionContext) : result ExecutionOutcome string :=
  match ec_accounts context with
  | (account_pubkey, token_account, account_writable) :: (mint_pubkey, mint_account, _)
      :: (owner_pubkey, _, _) :: _ :: _ =>
      ensure account_writable else "Token account must be writable" in
      ensure negb (bool_decide (acc_data mint_account = [])) else TokenProgramError_to_string InvalidMint in
      let? _mint := unpack_mint mint_account in
      ensure negb (token_in_use token_account) else TokenProgramError_to_string AlreadyInUse in
      Ok (ExecutionOutcome_with_modified_account (ExecutionOutcome_success (u64_add base_cost 50))
            account_pubkey
            (with_bytes token_account (TokenAccount_pack (new_token_account mint_pubkey owner_pubkey))))
  | _ => Err "InitializeAccount requires at least 4 accounts"
  end.

(** Instruction 3: Transfer *)
Definition transfer (context : ExecutionContext) : result ExecutionOutcome string :=
  let data := ec_instruction_data context in
  match ec_accounts context with
  | (source_pubkey, source_account, source_writable) :: (dest_pubkey, dest_account, dest_writable)
      :: (authority_pubkey, _, _) :: _ =>
      ensure (9 <=? length data)%nat else "Transfer requires amount" in
      ensure source_writable && dest_writable else "Source and destination must be writable" in
      let amount := instruction_amount data in
      let? source_token := unpack_token source_account in
      let? dest_token := unpack_token dest_account in
      ensure bool_decide (ta_mint source_token = ta_mint dest_token)
        else TokenProgramError_to_string MintMismatch in
      ensure may_spend source_token authority_pubkey else TokenProgramError_to_string OwnerMismatch in
      ensure negb (bool_decide (ta_state source_token = Frozen) || bool_decide (ta_state dest_token = Frozen))
        else TokenProgramError_to_string AccountFrozen in
      ensure amount <=? ta_amount source_token else TokenProgramError_to_string InsufficientFunds in
      let? source_amount := ok_or (u64_checked_sub (ta_amount source_token) amount) Overflow in
      let? dest_amount := ok_or (u64_checked_add (ta_amount dest_token) amount) Overflow in
      let source_token := use_delegate (with_amount source_token source_amount) authority_pubkey amount in
      let dest_token := with_amount dest_token dest_amount in
      Ok (ExecutionOutcome_with_modified_account
            (ExecutionOutcome_with_modified_account (ExecutionOutcome_success (u64_add base_cost 100))
               source_pubkey (with_bytes source_account (TokenAccount_pack source_token)))
            dest_pubkey (with_bytes dest_account (TokenAccount_pack dest_token)))
  | _ => Err "Transfer requires at least 3 accounts"
  end.

(** Instruction 4: Approve *)
Definition approve (context : ExecutionContext) : result ExecutionOutcome string :=
  let data := ec_instruction_data context in
  match ec_accounts context with
  | (source_pubkey, source_account, source_writable) :: (delegate_pubkey, _, _)
      :: (owner_pubkey, _, _) :: _ =>
      ensure (9 <=? length data)%nat else "Approve requires amount" in
      ensure source_writable else "Source account must be writable" in
      let? source_token := unpack_token source_account in
      ensure bool_decide (ta_owner source_token = owner_pubkey) else TokenProgramError_to_string OwnerMismatch in
      ensure negb (bool_decide (ta_state source_token = Frozen)) else TokenProgramError_to_string AccountFrozen in
      Ok (ExecutionOutcome_with_modified_account (ExecutionOutcome_success (u64_add base_cost 50))
            source_pubkey
            (with_bytes source_account
               (TokenAccount_pack (with_delegate source_token (Some delegate_pubkey) (instruction_amount data)))))
  | _ => Err "Approve requires at least 3 accounts"
  end.

(** Instruction 5: Revoke *)
Definition revoke (context : ExecutionContext) : result ExecutionOutcome string :=
  match ec_accounts context with
  | (source_pubkey, source_account, source_writable) :: (owner_pubkey, _, _) :: _ =>
      ensure source_writable else "Source account must be writable" in
      let? source_token := unpack_token source_account in
      ensure bool_decide (ta_owner source_token = owner_pubkey) else TokenProgramError_to_string OwnerMismatch in
      Ok (ExecutionOutcome_with_modified_account (ExecutionOutcome_success (u64_add base_cost 30))
            source_pubkey
            (with_bytes source_account (TokenAccount_pack (with_delegate source_token None 0))))
  | _ => Err "Revoke requires at least 2 accounts"
  end.

(** Instruction 7: MintTo *)
Definition mint_to (context : ExecutionContext) : result ExecutionOutcome string :=
  let data := ec_instruction_data context in
  match ec_accounts context with
  | (mint_pubkey, mint_account, mint_writable) :: (dest_pubkey, dest_account, dest_writable)
      :: (authority_pubkey, _, _) :: _ =>
      ensure (9 <=? length data)%nat else "MintTo requires amount" in
      ensure mint_writable && dest_writable else "Mint and destination must be writable" in
      let amount := instruction_amount data in
      let? mint := unpack_mint mint_account in
      let? dest_token := unpack_token dest_account in
      ensure bool_decide (mint_authority mint = Some authority_pubkey)
        else TokenProgramError_to_string OwnerMismatch in
      ensure bool_decide (ta_mint dest_token = mint_pubkey) else TokenProgramError_to_string MintMismatch in
      ensure negb (bool_decide (ta_state dest_token = Frozen)) else TokenProgramError_to_string AccountFrozen in
      let? supply := ok_or (u64_checked_add (mint_supply mint) amount) Overflow in
      let? dest_amount := ok_or (u64_checked_add (ta_amount dest_token) amount) Overflow in
      Ok (ExecutionOutcome_with_modified_account
            (ExecutionOutcome_with_modified_account (ExecutionOutcome_success (u64_add base_cost 100))
               mint_pubkey (with_bytes mint_account (Mint_pack (with_supply mint supply))))
            dest_pubkey (with_bytes dest_account (TokenAccount_pack (with_amount dest_token dest_amount))))
  | _ => Err "MintTo requires at least 3 accounts"
  end.

(** Instruction 8: Burn *)
Definition burn (context : ExecutionContext) : result ExecutionOutcome string :=
  let data := ec_instruction_data context in
  match ec_accounts context with
  | (account_pubkey, token_account, account_writable) :: (mint_pubkey, mint_account, mint_writable)
      :: (authority_pubkey, _, _) :: _ =>
      ensure (9 <=? length data)%nat else "Burn requires amount" in
      ensure account_writable && mint_writable else "Account and mint must be writable" in
      let amount := instruction_amount data in
      let? token := unpack_token token_account in
      let? mint := unpack_mint mint_account in
      ensure may_spend token authority_pubkey else TokenProgramError_to_string OwnerMismatch in
      ensure bool_decide (ta_mint token = mint_pubkey) else TokenProgramError_to_string MintMismatch in
      ensure amount <=? ta_amount token else TokenProgramError_to_string InsufficientFunds in
      let? token_amount := ok_or (u64_checked_sub (ta_amount token) amount) Overflow in
      let? supply := ok_or (u64_checked_sub (mint_supply mint) amount) Overflow in
      let token := use_delegate (with_amount token token_amount) authority_pubkey amount in
      Ok (ExecutionOutcome_with_modified_account
            (ExecutionOutcome_with_modified_account (ExecutionOutcome_success (u64_add base_cost 100))
               account_pubkey (with_bytes token_account (TokenAccount_pack token)))
            mint_pubkey (with_bytes mint_account (Mint_pack (with_supply mint supply))))
  | _ => Err "Burn requires at least 3 accounts"
  end.

(** Instruction 9: CloseAccount *)
Definition close_account (context : ExecutionContext) : result ExecutionOutcome string :=
  match ec_accounts context with
  | (account_pubkey, token_account, account_writable) :: (dest_pubkey, dest_account, dest_writable)
      :: (authority_pubkey, _, _) :: _ =>
      ensure account_writable && dest_writable else "Account and destination must be writable" in
      let? token := unpack_token token_account in
      ensure bool_decide (default (ta_owner token) (ta_close_authority token) = authority_pubkey)
        else TokenProgramError_to_string OwnerMismatch in
      ensure ta_amount token =? 0 else TokenProgramError_to_string NonNativeHasBalance in
      let? dest_lamports :=
        ok_or (u64_checked_add (am_lamports (acc_meta dest_account)) (am_lamports (acc_meta token_account)))
          Overflow in
      Ok (ExecutionOutcome_with_modified_account
            (ExecutionOutcome_with_modified_account (ExecutionOutcome_success (u64_add base_cost 50))
               account_pubkey (with_bytes (with_lamports token_account 0) []))
            dest_pubkey (with_lamports dest_account dest_lamports))
  | _ => Err "CloseAccount requires at least 3 accounts"
  end.

(** What FreezeAccount and ThawAccount share: only the state they set differs. *)
Definition set_account_state (state : AccountState) (too_few : string) (context : ExecutionContext)
  : result ExecutionOutcome string :=
  match ec_accounts context with
  | (account_pubkey, token_account, account_writable) :: (mint_pubkey, mint_account, _)
      :: (authority_pubkey, _, _) :: _ =>
      ensure account_writable else "Token account must be writable" in
      let? token := unpack_token token_account in
      let? mint := unpack_mint mint_account in
      ensure bool_decide (mint_freeze_authority mint = Some authority_pubkey)
        else TokenProgramError_to_string MintCannotFreeze in
      ensure bool_decide (ta_mint token = mint_pubkey) else TokenProgramError_to_string MintMismatch in
      Ok (ExecutionOutcome_with_modified_account (ExecutionOutcome_success (u64_add base_cost 50))
            account_pubkey (with_bytes token_account (TokenAccount_pack (with_state token state))))
  | _ => Err too_few
  end.

(** Instruction 10: FreezeAccount *)
Definition freeze_account : ExecutionContext → result ExecutionOutcome string :=
  set_account_state Frozen "FreezeAccount requires at least 3 accounts".

(** Instruction 11: ThawAccount *)
Definition thaw_account : ExecutionContext → result ExecutionOutcome string :=
  set_account_state Initialized "ThawAccount requires at least 3 accounts".

(** "Verify decimals match mint": against the account at [position], if there are [least]
    accounts. *)
Definition check_decimals (least position : nat) (context : ExecutionContext)
  : Outcome (result () string) :=
  if (length (ec_accounts context) <? least)%nat then Done (Ok ())
  else
    match ec_accounts context !! position with
    | None => Panicked
    | Some (_, mint_account, _) =>
        Done (if bool_decide (acc_data mint_account = []) then Ok ()
              else let? mint := unpack_mint mint_account in
                   ensure mint_decimals mint =? byte_at (ec_instruction_data context) 9
                     else TokenProgramError_to_string MintDecimalsMismatch in
                   Ok ())
    end.

(** Instructions 12 to 15: the decimals, then the instruction without the check. *)
Definition checked (too_short : string) (least position : nat)
  (instruction : ExecutionContext → result ExecutionOutcome string) (context : ExecutionContext)
  : Outcome (result ExecutionOutcome string) :=
  if (length (ec_instruction_data context) <? 10)%nat then Done (Err too_short)
  else
    r ← check_decimals least position context;
    Done (let? _unit := r in instruction context).

Definition transfer_checked : ExecutionContext → Outcome (result ExecutionOutcome string) :=
  checked "TransferChecked requires amount and decimals" 2 2 transfer.
Definition approve_checked : ExecutionContext → Outcome (result ExecutionOutcome string) :=
  checked "ApproveChecked requires amount and decimals" 2 2 approve.
Definition mint_to_checked : ExecutionContext → Outcome (result ExecutionOutcome string) :=
  checked "MintToChecked requires amount and decimals" 1 0 mint_to.
Definition burn_checked : ExecutionContext → Outcome (result ExecutionOutcome string) :=
  checked "BurnChecked requires amount and decimals" 2 1 burn.

(** Instruction 16: InitializeAccount2 *)
Definition initialize_account2 (context : ExecutionContext) : result ExecutionOutcome string :=
  let data := ec_instruction_data context in
  ensure (33 <=? length data)%nat else "InitializeAccount2 requires owner pubkey" in
  let owner_pubkey := bytes_at data 1 33 in
  match ec_accounts context with
  | (account_pubkey, token_account, account_writable) :: (mint_pubkey, mint_account, _) :: _ =>
      ensure account_writable else "Token account must be writable" in
      ensure negb (bool_decide (acc_data mint_account = [])) else TokenProgramError_to_string InvalidMint in
      let? _mint := unpack_mint mint_account in
      Ok (ExecutionOutcome_with_modified_account (ExecutionOutcome_success (u64_add base_cost 50))
            account_pubkey
            (with_bytes token_account (TokenAccount_pack (new_token_account mint_pubkey owner_pubkey))))
  | _ => Err "InitializeAccount2 requires at least 2 accounts"
  end.

(** Instruction 17: SyncNative *)
Definition sync_native (context : ExecutionContext) : result ExecutionOutcome string :=
  Ok (ExecutionOutcome_success (u64_add base_cost 10)).

(** Instruction 18: InitializeAccount3 *)
Definition initialize_account3 (context : ExecutionContext) : result ExecutionOutcome string :=
  initialize_account2 context.

(** Instruction 2: InitializeMultisig *)
Definition initialize_multisig (context : ExecutionContext) : result ExecutionOutcome string :=
  let data := ec_instruction_data context in
  match ec_accounts context with
  | (multisig_pubkey, multisig_account, multisig_writable) :: signers =>
      ensure (2 <=? length data)%nat else "InitializeMultisig requires m parameter" in
      ensure multisig_writable else "Multisig account must be writable" in
      ensure negb (multisig_in_use multisig_account) else TokenProgramError_to_string AlreadyInUse in
      let m := byte_at data 1 in
      let n := length signers in
      ensure (n <=? Multisig_MAX_SIGNERS)%nat
        else TokenProgramError_to_string InvalidNumberOfProvidedSigners in
      ensure negb (m =? 0) && (m <=? Z.of_nat n)
        else TokenProgramError_to_string InvalidNumberOfRequiredSigners in
      let multisig := mkMultisig m (Z.of_nat n) true (signers.*1.*1) in
      Ok (ExecutionOutcome_with_modified_account (ExecutionOutcome_success (u64_add base_cost 50))
            multisig_pubkey (with_bytes multisig_account (Multisig_pack multisig)))
  | [] => Err "InitializeMultisig requires at least 1 account"
  end.

(** Instruction 20: InitializeMint2 *)
Definition initialize_mint2 (context : ExecutionContext) : result ExecutionOutcome string :=
  let data := ec_instruction_data context in
  match ec_accounts context with
  | (mint_pubkey, mint_account, mint_writable) :: _ =>
      ensure (35 <=? length data)%nat
        else "InitializeMint2 requires decimals, mint_authority, and freeze_authority option" in
      ensure mint_writable else "Mint account must be writable" in
      ensure negb (mint_in_use mint_account) else TokenProgramError_to_string AlreadyInUse in
      let? freeze_authority :=
        if byte_at data 34 =? 1 then
          ensure (67 <=? length data)%nat else "Missing freeze_authority pubkey" in
          Ok (Some (bytes_at data 35 67))
        else Ok None in
      let mint := mkMint (Some (bytes_at data 2 34)) 0 (byte_at data 1) true freeze_authority in
      Ok (ExecutionOutcome_with_modified_account (ExecutionOutcome_success (u64_add base_cost 50))
            mint_pubkey (with_bytes mint_account (Mint_pack mint)))
  | [] => Err "InitializeMint2 requires at least 1 account"
  end.

(** Instruction 21: GetAccountDataSize *)
Definition get_account_data_size (context : ExecutionContext) : result ExecutionOutcome string :=
  Ok (ExecutionOutcome_success (u64_add base_cost 10)).

(** Instruction 22: InitializeImmutableOwner *)
Definition initialize_immutable_owner (context : ExecutionContext) : result ExecutionOutcome string :=
  match ec_accounts context with
  | (account_pubkey, token_account, account_writable) :: _ =>
      ensure account_writable else "Token account must be writable" in
      ensure negb (token_in_use token_account) else TokenProgramError_to_string AlreadyInUse in
      Ok (ExecutionOutcome_with_modified_account (ExecutionOutcome_success (u64_add base_cost 30))
            account_pubkey token_account)
  | [] => Err "InitializeImmutableOwner requires at least 1 account"
  end.

(** Instruction 23: AmountToUiAmount *)
Definition amount_to_ui_amount (context : ExecutionContext) : result ExecutionOutcome string :=
  match ec_accounts context with
  | (_, mint_account, _) :: _ =>
      ensure (9 <=? length (ec_instruction_data context))%nat else "AmountToUiAmount requires amount" in
      ensure negb (bool_decide (acc_data mint_account = [])) else TokenProgramError_to_string InvalidMint in
      let? mint := unpack_mint mint_account in
      let? _divisor := ok_or (u64_checked_pow 10 (mint_decimals mint)) Overflow in
      Ok (ExecutionOutcome_success (u64_add base_cost 20))
  | [] => Err "AmountToUiAmount requires at least 1 account"
  end.

(** Instruction 24: UiAmountToAmount *)
Definition ui_amount_to_amount (context : ExecutionContext) : result ExecutionOutcome string :=
  match ec_accounts context with
  | (_, mint_account, _) :: _ =>
      ensure (9 <=? length (ec_instruction_data context))%nat else "UiAmountToAmount requires UI amount" in
      ensure negb (bool_decide (acc_data mint_account = [])) else TokenProgramError_to_string InvalidMint in
      let? mint := unpack_mint mint_account in
      let? multiplier := ok_or (u64_checked_pow 10 (mint_decimals mint)) Overflow in
      let? _amount := ok_or (u64_checked_mul (instruction_amount (ec_instruction_data context)) multiplier)
                        Overflow in
      Ok (ExecutionOutcome_success (u64_add base_cost 20))
  | [] => Err "UiAmountToAmount requires at least 1 account"
  end.

(** [execute]: dispatch on the first byte. *)
Definition TokenProgram_execute (context : ExecutionContext) : Outcome (result ExecutionOutcome string) :=
  match ec_instruction_data context with
  | [] => Done (Ok (ExecutionOutcome_success base_cost))
  | instruction_type :: _ =>
      let op n := instruction_type =? n in
      if op 0 then Done (initialize_mint context)
      else if op 1 then Done (initialize_account context)
      else if op 2 then Done (initialize_multisig context)
      else if op 3 then Done (transfer context)
      else if op 4 then Done (approve context)
      else if op 5 then Done (revoke context)
      else if op 7 then Done (mint_to context)
      else if op 8 then Done (burn context)
      else if op 9 then Done (close_account context)
      else if op 10 then Done (freeze_account context)
      else if op 11 then Done (thaw_account context)
      else if op 12 then transfer_checked context
      else if op 13 then approve_checked context
      else if op 14 then mint_to_checked context
      else if op 15 then burn_checked context
      else if op 16 then Done (initialize_account2 context)
      else if op 17 then Done (sync_native context)
      else if op 18 then Done (initialize_account3 context)
      else if op 20 then Done (initialize_mint2 context)
      else if op 21 then Done (get_account_data_size context)
      else if op 22 then Done (initialize_immutable_owner context)
      else if op 23 then Done (amount_to_ui_amount context)
      else if op 24 then Done (ui_amount_to_amount context)
      else Done (Err (String.append "Unknown token instruction: " (pretty instruction_type)))
  end.
End instructions.

Definition TOKEN_PROGRAM_ID : Pubkey :=
  [0x06; 0xdd; 0xf6; 0xe1; 0xd7; 0x65; 0xa1; 0x93; 0xd9; 0xcb; 0xe1; 0x46; 0xce; 0xeb; 0x79; 0xac;
   0x1c; 0xb4; 0x85; 0xed; 0x5f; 0x5b; 0x37; 0x91; 0x3a; 0x8c; 0xf5; 0x85; 0x7e; 0xff; 0x00; 0xa9].

(** The token program's branch of [execute_instruction]; the other programs are [others]. *)
Definition route_token (others : ExecutionContext → Outcome ExecutionOutcome)
  (context : ExecutionContext) : Outcome ExecutionOutcome :=
  if bool_decide (ec_program_id context = TOKEN_PROGRAM_ID) then
    r ← TokenProgram_execute 300 context;
    Done (match r with Ok o => o | Err err => ExecutionOutcome_failure 300 err end)
  else others context.
