(* ===== verification/TokenLayout.v ===== *)
(** * The byte layout of mints and token accounts

    Reads and writes of fixed-size buffers as [pack] and [unpack] of
    [karstflow-sbpf/src/token_program.rs] do them: what was packed unpacks to the same
    record, and records unpacked from bytes are in the ranges of their types. *)
From stdpp Require Import base tactics list gmap sets strings.
From Stdlib Require Import ZArith Lia.
From S2P Require Import Prelude TxProcessor TokenProgram.
Local Open Scope Z_scope.

(** ** Buffers *)

Lemma length_write_at off bytes data :
  (off + length bytes <= length data)%nat → length (write_at off bytes data) = length data.
Proof. intros. unfold write_at. rewrite !length_app, length_take, length_drop. lia. Qed.

Lemma bytes_at_write off bytes data b :
  (off + length bytes <= length data)%nat → b = (off + length bytes)%nat →
  bytes_at (write_at off bytes data) off b = bytes.
Proof.
  intros Hl ->. unfold bytes_at, write_at. rewrite drop_app_length' by (rewrite length_take; lia).
  apply take_app_length'. lia.
Qed.

Lemma bytes_at_write_before off bytes data a b :
  (b <= off)%nat → (off <= length data)%nat →
  bytes_at (write_at off bytes data) a b = bytes_at data a b.
Proof.
  intros Hb Hl. unfold bytes_at, write_at. destruct (decide (a <= b)%nat) as [Hab|Hab].
  2: { replace (b - a)%nat with 0%nat by lia. done. }
  rewrite drop_app_le by (rewrite length_take; lia). rewrite take_app_le by (rewrite length_drop, length_take; lia).
  rewrite <- (take_drop off data) at 2. rewrite drop_app_le by (rewrite length_take; lia).
  by rewrite take_app_le by (rewrite length_drop, length_take; lia).
Qed.

Lemma bytes_at_write_after off bytes data a b :
  (off + length bytes <= a)%nat → (off + length bytes <= length data)%nat →
  bytes_at (write_at off bytes data) a b = bytes_at data a b.
Proof.
  intros Ha Hl. unfold bytes_at, write_at. f_equal.
  rewrite drop_app_ge, length_take_le by (rewrite ?length_take; lia).
  rewrite drop_app_ge, drop_drop by lia. f_equal. lia.
Qed.

Lemma byte_bytes_at data i : byte_at data i = default 0 (bytes_at data i (S i) !! 0%nat).
Proof.
  unfold byte_at, bytes_at. replace (S i - i)%nat with 1%nat by lia.
  rewrite lookup_take_lt by lia. rewrite lookup_drop. do 2 f_equal. lia.
Qed.

Lemma length_write_option off field data n :
  (∀ bytes, field = Some bytes → length bytes = n) → (off + 1 + n <= length data)%nat →
  length (write_option off field data) = length data.
Proof.
  intros Hf Hl. destruct field as [bytes|]; [|done]. specialize (Hf _ eq_refl). simpl.
  rewrite !length_write_at; rewrite ?length_write_at; simpl; lia.
Qed.

(** The option of a buffer in which its first byte was 0. *)
Lemma read_write_option off field data n :
  (∀ bytes, field = Some bytes → length bytes = n) → (off + 1 + n <= length data)%nat →
  byte_at data off = 0 → read_option (write_option off field data) off n = field.
Proof.
  intros Hf Hl H0. unfold read_option. destruct field as [bytes|]; simpl; [|by rewrite H0].
  specialize (Hf _ eq_refl).
  assert (Hl1 : length (write_at off [1] data) = length data) by (apply length_write_at; simpl; lia).
  rewrite byte_bytes_at, bytes_at_write_before by lia.
  rewrite (bytes_at_write off [1]) by (simpl; lia). simpl.
  by rewrite bytes_at_write by lia.
Qed.

Lemma bytes_at_write_option off field data n a b :
  (∀ bytes, field = Some bytes → length bytes = n) → (off + 1 + n <= length data)%nat →
  (b <= off ∨ off + 1 + n <= a)%nat →
  bytes_at (write_option off field data) a b = bytes_at data a b.
Proof.
  intros Hf Hl Hab. destruct field as [bytes|]; simpl; [|done]. specialize (Hf _ eq_refl).
  assert (Hl1 : length (write_at off [1] data) = length data) by (apply length_write_at; simpl; lia).
  destruct Hab.
  - rewrite bytes_at_write_before by lia. apply bytes_at_write_before; lia.
  - rewrite bytes_at_write_after by lia. apply bytes_at_write_after; simpl; lia.
Qed.

(** A field read from a buffer does not see the writes elsewhere. *)
Lemma read_option_ext data data' off n :
  bytes_at data off (S off) = bytes_at data' off (S off) →
  bytes_at data (off + 1) (off + 1 + n) = bytes_at data' (off + 1) (off + 1 + n) →
  read_option data off n = read_option data' off n.
Proof. intros H1 H2. unfold read_option. by rewrite !byte_bytes_at, H1, H2. Qed.

Create HintDb bytes.
Create HintDb typed.

Lemma read_option_write o bytes data off n :
  (off + 1 + n <= o ∨ o + length bytes <= off)%nat → (o + length bytes <= length data)%nat →
  read_option (write_at o bytes data) off n = read_option data off n.
Proof.
  intros [H|H] Hl; apply read_option_ext.
  1,2: apply bytes_at_write_before; lia.
  all: apply bytes_at_write_after; lia.
Qed.

Lemma read_option_write_option o field data m off n :
  (∀ bytes, field = Some bytes → length bytes = m) → (o + 1 + m <= length data)%nat →
  (off + 1 + n <= o ∨ o + 1 + m <= off)%nat →
  read_option (write_option o field data) off n = read_option data off n.
Proof. intros Hf Hl H. apply read_option_ext; eapply bytes_at_write_option; [done..|lia|done|done|lia]. Qed.

Definition opt_length (o : option Pubkey) : Prop := ∀ k, o = Some k → length k = 32%nat.

(** Lengths and reads of a buffer built by writes. *)
Ltac buf_len :=
  lazymatch goal with
  | |- context [length (write_at ?o ?b ?d)] => rewrite (length_write_at o b d) by buf_len; buf_len
  | |- context [length (write_option ?o (to_le_bytes ?n <$> ?f) ?d)] =>
      rewrite (length_write_option o (to_le_bytes n <$> f) d n) by buf_len; buf_len
  | |- context [length (write_option ?o ?f ?d)] =>
      rewrite (length_write_option o f d 32) by buf_len; buf_len
  | |- ∀ b, _ <$> ?o = Some b → _ =>
      let H := fresh in
      intros ? H; apply fmap_Some in H as (? & _ & ->); apply length_to_le_bytes
  | |- ∀ b, ?o = Some b → _ => change (opt_length o); eassumption
  | |- _ => rewrite ?length_replicate, ?length_to_le_bytes; cbn [length]; lia
  end.

Ltac buf_read :=
  repeat lazymatch goal with
  | |- context [bytes_at (write_at ?o ?b ?d) ?x ?y] =>
      first [ rewrite (bytes_at_write o b d y) by buf_len
            | rewrite (bytes_at_write_before o b d x y) by buf_len
            | rewrite (bytes_at_write_after o b d x y) by buf_len ]
  | |- context [bytes_at (write_option ?o (to_le_bytes ?n <$> ?f) ?d) ?x ?y] =>
      rewrite (bytes_at_write_option o (to_le_bytes n <$> f) d n x y) by buf_len
  | |- context [bytes_at (write_option ?o ?f ?d) ?x ?y] =>
      rewrite (bytes_at_write_option o f d 32 x y) by buf_len
  | |- context [read_option (write_at ?o ?b ?d) ?x ?y] => rewrite (read_option_write o b d x y) by buf_len
  | |- context [read_option (write_option ?o (to_le_bytes ?n <$> ?f) ?d) ?x ?y] =>
      first [ rewrite (read_option_write_option o (to_le_bytes n <$> f) d n x y) by buf_len
            | rewrite (read_write_option o (to_le_bytes n <$> f) d n);
                [|buf_len|buf_len|rewrite byte_bytes_at] ]
  | |- context [read_option (write_option ?o ?f ?d) ?x ?y] =>
      first [ rewrite (read_option_write_option o f d 32 x y) by buf_len
            | rewrite (read_write_option o f d 32); [|buf_len|buf_len|rewrite byte_bytes_at] ]
  end.

(** ** Types *)

Definition key_typed (k : Pubkey) : Prop := length k = 32%nat ∧ Forall is_byte k.
Definition opt_typed (o : option Pubkey) : Prop := ∀ k, o = Some k → key_typed k.

Record mint_typed (m : Mint) : Prop := {
  mt_authority : opt_typed (mint_authority m);
  mt_supply : is_u64 (mint_supply m);
  mt_decimals : is_byte (mint_decimals m);
  mt_freeze : opt_typed (mint_freeze_authority m);
}.

Record token_typed (t : TokenAccount) : Prop := {
  tt_mint : key_typed (ta_mint t);
  tt_owner : key_typed (ta_owner t);
  tt_amount : is_u64 (ta_amount t);
  tt_delegate : opt_typed (ta_delegate t);
  tt_native : ∀ n, ta_is_native t = Some n → is_u64 n;
  tt_delegated : is_u64 (ta_delegated_amount t);
  tt_close : opt_typed (ta_close_authority t);
}.

Lemma opt_typed_length o : opt_typed o → opt_length o.
Proof. intros H k Hk. by destruct (H k Hk). Qed.

Lemma from_to_le_bytes_u64 z : is_u64 z → from_le_bytes (to_le_bytes 8 z) = z.
Proof. intros [? ?]. apply from_to_le_bytes. unfold u64_max in *. lia. Qed.

Lemma Mint_unpack_pack m : mint_typed m → Mint_unpack (Mint_pack m) = Ok m.
Proof.
  intros [Ha%opt_typed_length Hs Hd Hf%opt_typed_length].
  unfold Mint_unpack, Mint_pack.
  assert (Hlen : ∀ d : list Z, length d = 82%nat → (length d <? 82)%nat = false) by (intros d ->; done).
  rewrite Hlen by buf_len. destruct m as [auth supply decimals init freeze];
    cbn [mint_authority mint_supply mint_decimals mint_is_initialized mint_freeze_authority] in *. f_equal. f_equal.
  - buf_read; done.
  - buf_read. by apply from_to_le_bytes_u64.
  - rewrite byte_bytes_at. buf_read. done.
  - rewrite byte_bytes_at. buf_read. by destruct init.
  - buf_read; done.
Qed.

Lemma TokenAccount_unpack_pack t : token_typed t → TokenAccount_unpack (TokenAccount_pack t) = Ok t.
Proof.
  intros [[Hm _] [Ho _] Hamt Hd%opt_typed_length Hn Hda Hc%opt_typed_length].
  unfold TokenAccount_unpack, TokenAccount_pack.
  destruct t as [mint owner amount delegate state native delegated close];
    cbn [ta_mint ta_owner ta_amount ta_delegate ta_state ta_is_native ta_delegated_amount ta_close_authority] in *.
  assert (Hlen : ∀ d : list Z, length d = 165%nat → (length d <? 165)%nat = false) by (intros d ->; done).
  rewrite Hlen by buf_len.
  assert (Hstate : ∀ d : list Z, bytes_at d 105 106 = [match state with Uninitialized => 0 | Initialized => 1 | Frozen => 2 end] →
    (if byte_at d 105 =? 0 then Some Uninitialized
     else if byte_at d 105 =? 1 then Some Initialized
     else if byte_at d 105 =? 2 then Some Frozen else None) = Some state).
  { intros d Hb. rewrite byte_bytes_at, Hb. by destruct state. }
  rewrite Hstate by (buf_read; done). f_equal.
  f_equal.
  - buf_read. done.
  - buf_read. done.
  - buf_read. by apply from_to_le_bytes_u64.
  - buf_read; done.
  - buf_read; [|done]. destruct native as [n|]; [|done]. cbn [fmap option_fmap option_map]. f_equal.
    apply from_to_le_bytes_u64, Hn, eq_refl.
  - buf_read. by apply from_to_le_bytes_u64.
  - buf_read; done.
Qed.

(** ** Bytes *)

Lemma Forall_write_at off bytes data :
  Forall is_byte bytes → Forall is_byte data → Forall is_byte (write_at off bytes data).
Proof.
  intros. unfold write_at. rewrite !Forall_app. split_and!; [by apply Forall_take|done|by apply Forall_drop].
Qed.

Lemma Forall_bytes_at data a b : Forall is_byte data → Forall is_byte (bytes_at data a b).
Proof. intros. by apply Forall_take, Forall_drop. Qed.

Lemma byte_at_typed data i : Forall is_byte data → is_byte (byte_at data i).
Proof.
  intros H. unfold byte_at. destruct (data !! i) eqn:Hi; simpl; [by eapply Forall_lookup_1|done].
Qed.

Lemma length_bytes_at data a b : (b <= length data)%nat → length (bytes_at data a b) = (b - a)%nat.
Proof. intros. unfold bytes_at. rewrite length_take, length_drop. lia. Qed.

Lemma bytes_at_key data a b :
  Forall is_byte data → (b <= length data)%nat → b = (a + 32)%nat → key_typed (bytes_at data a b).
Proof. intros ?? ->. split; [rewrite length_bytes_at; lia|by apply Forall_bytes_at]. Qed.

Lemma bytes_at_u64 data a b :
  Forall is_byte data → (b <= length data)%nat → b = (a + 8)%nat → is_u64 (from_le_bytes (bytes_at data a b)).
Proof.
  intros ?? ->. apply from_le_bytes_is_u64; [rewrite length_bytes_at; lia|by apply Forall_bytes_at].
Qed.

Lemma read_option_typed data off :
  Forall is_byte data → (off + 33 <= length data)%nat → opt_typed (read_option data off 32).
Proof.
  intros ?? k. unfold read_option. case_match; [|done]. intros [= <-]. apply bytes_at_key; [done|lia..].
Qed.

Lemma write_option_bytes off field data :
  (∀ b, field = Some b → Forall is_byte b) → Forall is_byte data → Forall is_byte (write_option off field data).
Proof.
  intros Hf Hd. destruct field as [b|]; [|done]. specialize (Hf _ eq_refl). simpl.
  apply Forall_write_at; [done|]. apply Forall_write_at; [by apply Forall_singleton|done].
Qed.

Lemma opt_typed_bytes o : opt_typed o → ∀ b, o = Some b → Forall is_byte b.
Proof. intros H b Hb. by destruct (H b Hb). Qed.

#[export] Hint Resolve Forall_write_at write_option_bytes opt_typed_bytes to_le_bytes_byte : bytes.

Lemma Mint_pack_bytes m : mint_typed m → Forall is_byte (Mint_pack m).
Proof.
  intros [Ha Hs Hd Hf]. unfold Mint_pack.
  assert (H0 : Forall is_byte (replicate Mint_LEN 0)) by by apply Forall_replicate.
  assert (Forall is_byte [mint_decimals m]) by by apply Forall_singleton.
  assert (Forall is_byte [if mint_is_initialized m then 1 else 0]) by (apply Forall_singleton; by destruct (mint_is_initialized m)).
  cbn zeta. eauto 12 with bytes.
Qed.

Lemma TokenAccount_pack_bytes t : token_typed t → Forall is_byte (TokenAccount_pack t).
Proof.
  intros [[_ Hm] [_ Ho] Ha Hd Hn Hda Hc]. unfold TokenAccount_pack.
  assert (H0 : Forall is_byte (replicate TokenAccount_LEN 0)) by by apply Forall_replicate.
  assert (Hs : Forall is_byte [match ta_state t with Uninitialized => 0 | Initialized => 1 | Frozen => 2 end])
    by (apply Forall_singleton; by destruct (ta_state t)).
  assert (Hnat : ∀ b, to_le_bytes 8 <$> ta_is_native t = Some b → Forall is_byte b).
  { intros b (n & _ & ->)%fmap_Some. apply to_le_bytes_byte. }
  cbn zeta. eauto 16 with bytes.
Qed.

Lemma Mint_unpack_typed data m : Forall is_byte data → Mint_unpack data = Ok m → mint_typed m.
Proof.
  intros Hb. unfold Mint_unpack. destruct (Nat.ltb_spec (length data) Mint_LEN) as [|Hl]; [done|].
  intros [= <-]. split; cbn [mint_authority mint_supply mint_decimals mint_freeze_authority].
  - apply read_option_typed; [done|lia].
  - apply bytes_at_u64; [done|lia..].
  - by apply byte_at_typed.
  - apply read_option_typed; [done|lia].
Qed.

Lemma TokenAccount_unpack_typed data t : Forall is_byte data → TokenAccount_unpack data = Ok t → token_typed t.
Proof.
  intros Hb. unfold TokenAccount_unpack. destruct (Nat.ltb_spec (length data) TokenAccount_LEN) as [|Hl]; [done|].
  cbn zeta. match goal with |- (match ?x with _ => _ end) = _ → _ => destruct x as [state|] end; [|done].
  intros [= <-].
  split; cbn [ta_mint ta_owner ta_amount ta_delegate ta_is_native ta_delegated_amount ta_close_authority].
  - apply bytes_at_key; [done|lia..].
  - apply bytes_at_key; [done|lia..].
  - apply bytes_at_u64; [done|lia..].
  - apply read_option_typed; [done|lia].
  - intros n (b & Hr & ->)%fmap_Some. unfold read_option in Hr. case_match; [|done]. injection Hr as <-.
    apply bytes_at_u64; [done|lia..].
  - apply bytes_at_u64; [done|lia..].
  - apply read_option_typed; [done|lia].
Qed.

(** ** Updates stay in range *)

Lemma with_amount_typed t amount : token_typed t → is_u64 amount → token_typed (with_amount t amount).
Proof. intros [] ?. by split. Qed.

Lemma with_state_typed t state : token_typed t → token_typed (with_state t state).
Proof. intros []. by split. Qed.

Lemma with_delegate_typed t delegate amount :
  token_typed t → opt_typed delegate → is_u64 amount → token_typed (with_delegate t delegate amount).
Proof. intros [] ? ?. by split. Qed.

Lemma with_supply_typed m supply : mint_typed m → is_u64 supply → mint_typed (with_supply m supply).
Proof. intros [] ?. by split. Qed.

Lemma use_delegate_typed t x amount : token_typed t → 0 <= amount → token_typed (use_delegate t x amount).
Proof.
  intros Ht Ha. unfold use_delegate. case_bool_decide; [|done]. pose proof (tt_delegated t Ht).
  apply with_delegate_typed; [done| |unfold u64_saturating_sub, is_u64 in *; lia].
  case_match; [done|by apply tt_delegate].
Qed.

Lemma use_delegate_fields t x amount :
  let t' := use_delegate t x amount in
  ta_mint t' = ta_mint t ∧ ta_owner t' = ta_owner t ∧ ta_amount t' = ta_amount t ∧ ta_state t' = ta_state t
  ∧ ta_is_native t' = ta_is_native t ∧ ta_close_authority t' = ta_close_authority t.
Proof. cbn. unfold use_delegate. by case_bool_decide. Qed.

Lemma new_token_account_typed mint owner :
  key_typed mint → key_typed owner → token_typed (new_token_account mint owner).
Proof. intros. by split. Qed.

#[export] Hint Resolve with_amount_typed with_state_typed with_delegate_typed with_supply_typed
  use_delegate_typed new_token_account_typed : typed.
