(* ===== verification/TokenLedger.v ===== *)
(** * What the token program does to the ledger

    Each accepted instruction of [karstflow-sbpf/src/token_program.rs] is one operation of
    the abstract ledger [token_op].  From it: the supply of a mint is the sum of the
    balances held in it, through every transaction whose instructions pass distinct
    accounts of the right kind; and an account changes only by an instruction that names
    an authority its owner or its mint gave.  Where the code leaves out a check, an example shows what follows. *)
From stdpp Require Import base tactics list gmap sets strings.
From Stdlib Require Import ZArith Lia.
From S2P Require Import Prelude TxProcessor TokenProgram TokenLayout.
Local Open Scope Z_scope.

#[local] Opaque Mint_pack TokenAccount_pack Multisig_pack.

(** ** The operations *)

Section operations.
Context (tag : Z) (data : list Z) (accounts : list (Pubkey * Account * bool)).

(** The accounts an accepted instruction has modified. *)
Inductive token_op : gmap Pubkey Account → Prop :=
| op_none : token_op ∅
| op_touch k a rest :
    accounts = (k, a, true) :: rest → token_op {[k := a]}
| op_init_mint k a rest freeze :
    tag ∈ [0; 20] → accounts = (k, a, true) :: rest → mint_in_use a = false →
    (34 <= length data)%nat →
    (freeze = None ∨ (67 <= length data)%nat ∧ freeze = Some (bytes_at data 35 67)) →
    token_op {[k := with_bytes a (Mint_pack (mkMint (Some (bytes_at data 2 34)) 0 (byte_at data 1) true freeze))]}
| op_init_token k a mint ma mw rest owner :
    tag ∈ [1; 16; 18] → accounts = (k, a, true) :: (mint, ma, mw) :: rest →
    (tag = 1 → token_in_use a = false) →
    (owner ∈ rest.*1.*1 ∨ (33 <= length data)%nat ∧ owner = bytes_at data 1 33) →
    token_op {[k := with_bytes a (TokenAccount_pack (new_token_account mint owner))]}
| op_init_multisig k a rest ms :
    tag = 2 → accounts = (k, a, true) :: rest → token_op {[k := with_bytes a (Multisig_pack ms)]}
| op_transfer ks sa kd da x xa xw rest s d amount :
    tag ∈ [3; 12] → accounts = (ks, sa, true) :: (kd, da, true) :: (x, xa, xw) :: rest →
    (9 <= length data)%nat → amount = instruction_amount data →
    TokenAccount_unpack (acc_data sa) = Ok s → TokenAccount_unpack (acc_data da) = Ok d →
    ta_mint s = ta_mint d → may_spend s x = true → ta_state s ≠ Frozen → ta_state d ≠ Frozen →
    amount <= ta_amount s → ta_amount d + amount <= u64_max →
    token_op (<[kd := with_bytes da (TokenAccount_pack (with_amount d (ta_amount d + amount)))]>
               {[ks := with_bytes sa (TokenAccount_pack
                          (use_delegate (with_amount s (ta_amount s - amount)) x amount))]})
| op_delegate k a rest t x delegate amount :
    tag ∈ [4; 5; 13] → accounts = (k, a, true) :: rest →
    accounts.*1.*1 !! (if tag =? 5 then 1%nat else 2%nat) = Some x →
    TokenAccount_unpack (acc_data a) = Ok t → ta_owner t = x →
    (∀ d, delegate = Some d → d ∈ rest.*1.*1) →
    (amount = 0 ∨ (9 <= length data)%nat ∧ amount = instruction_amount data) →
    token_op {[k := with_bytes a (TokenAccount_pack (with_delegate t delegate amount))]}
| op_mint km ma kd da x xa xw rest m d amount :
    tag ∈ [7; 14] → accounts = (km, ma, true) :: (kd, da, true) :: (x, xa, xw) :: rest →
    (9 <= length data)%nat → amount = instruction_amount data →
    Mint_unpack (acc_data ma) = Ok m → TokenAccount_unpack (acc_data da) = Ok d →
    mint_authority m = Some x → ta_mint d = km → ta_state d ≠ Frozen →
    mint_supply m + amount <= u64_max → ta_amount d + amount <= u64_max →
    token_op (<[kd := with_bytes da (TokenAccount_pack (with_amount d (ta_amount d + amount)))]>
               {[km := with_bytes ma (Mint_pack (with_supply m (mint_supply m + amount)))]})
| op_burn k a km ma x xa xw rest t m amount :
    tag ∈ [8; 15] → accounts = (k, a, true) :: (km, ma, true) :: (x, xa, xw) :: rest →
    (9 <= length data)%nat → amount = instruction_amount data →
    TokenAccount_unpack (acc_data a) = Ok t → Mint_unpack (acc_data ma) = Ok m →
    may_spend t x = true → ta_mint t = km → amount <= ta_amount t → amount <= mint_supply m →
    token_op (<[km := with_bytes ma (Mint_pack (with_supply m (mint_supply m - amount)))]>
               {[k := with_bytes a (TokenAccount_pack
                         (use_delegate (with_amount t (ta_amount t - amount)) x amount))]})
| op_close k a kd da x xa xw rest t lamports :
    tag = 9 → accounts = (k, a, true) :: (kd, da, true) :: (x, xa, xw) :: rest →
    TokenAccount_unpack (acc_data a) = Ok t → default (ta_owner t) (ta_close_authority t) = x →
    ta_amount t = 0 →
    lamports = am_lamports (acc_meta da) + am_lamports (acc_meta a) → lamports <= u64_max →
    token_op (<[kd := with_lamports da lamports]> {[k := with_bytes (with_lamports a 0) []]})
| op_state k a km ma mw x xa xw rest t m state :
    tag = 10 ∧ state = Frozen ∨ tag = 11 ∧ state = Initialized →
    accounts = (k, a, true) :: (km, ma, mw) :: (x, xa, xw) :: rest →
    TokenAccount_unpack (acc_data a) = Ok t → Mint_unpack (acc_data ma) = Ok m →
    mint_freeze_authority m = Some x → ta_mint t = km →
    token_op {[k := with_bytes a (TokenAccount_pack (with_state t state))]}.
End operations.

(** Facts about the tag of an instruction. *)
Ltac tags := rewrite ?elem_of_cons, ?elem_of_nil in *; lia.

(** Splits the run of an instruction into its guards. *)
Ltac run_guards H :=
  repeat (cbn beta iota zeta in H; simplify_eq; lazymatch type of H with
    | (match ?x with _ => _ end) = Ok _ => destruct x eqn:?; try discriminate H
    end).

Ltac guard_facts :=
  repeat match goal with
  | H : (_ && _) = true |- _ => apply andb_true_iff in H as [? ?]
  | H : negb _ = true |- _ => apply negb_true_iff in H
  | H : (_ || _) = false |- _ => apply orb_false_iff in H as [? ?]
  | H : bool_decide _ = true |- _ => apply bool_decide_eq_true_1 in H
  | H : bool_decide _ = false |- _ => apply bool_decide_eq_false_1 in H
  | H : (_ <=? _)%nat = true |- _ => apply Nat.leb_le in H
  | H : (_ <=? _) = true |- _ => apply Z.leb_le in H
  | H : (_ =? _) = true |- _ => apply Z.eqb_eq in H
  | H : map_err _ ?r = Ok _ |- _ => destruct r eqn:?; cbn [map_err] in H; simplify_eq
  | H : ok_or (u64_checked_add _ _) _ = Ok _ |- _ =>
      unfold u64_checked_add in H; destruct (_ <=? _) eqn:?; cbn [ok_or] in H; simplify_eq
  | H : ok_or (u64_checked_sub _ _) _ = Ok _ |- _ =>
      unfold u64_checked_sub in H; destruct (_ <=? _) eqn:?; cbn [ok_or] in H; simplify_eq
  end; simplify_eq.

(** ** Each instruction is an operation *)

Section refinement.
Context (base_cost : Z) (tag : Z) (context : ExecutionContext) (o : ExecutionOutcome).
Notation op := (token_op tag (ec_instruction_data context) (ec_accounts context) (eo_modified_accounts o)).

Lemma transfer_refines : tag ∈ [3; 12] → transfer base_cost context = Ok o → op.
Proof using.
  intros Htag H. unfold transfer, unpack_token in H. run_guards H. guard_facts.
  eapply op_transfer; eauto.
Qed.

Lemma approve_refines : tag ∈ [4; 13] → approve base_cost context = Ok o → op.
Proof using.
  intros Htag H. unfold approve, unpack_token in H. run_guards H. guard_facts.
  eapply op_delegate; eauto; [set_solver| |set_solver].
  assert (tag = 4 ∨ tag = 13) as [-> | ->] by set_solver; done.
Qed.

Lemma revoke_refines : tag = 5 → revoke base_cost context = Ok o → op.
Proof using.
  intros Htag H. unfold revoke, unpack_token in H. run_guards H. guard_facts.
  eapply op_delegate; eauto; [set_solver|done..].
Qed.

Lemma mint_to_refines : tag ∈ [7; 14] → mint_to base_cost context = Ok o → op.
Proof using.
  intros Htag H. unfold mint_to, unpack_mint, unpack_token in H. run_guards H. guard_facts.
  eapply op_mint; eauto.
Qed.

Lemma burn_refines : tag ∈ [8; 15] → burn base_cost context = Ok o → op.
Proof using.
  intros Htag H. unfold burn, unpack_mint, unpack_token in H. run_guards H. guard_facts.
  eapply op_burn; eauto.
Qed.

Lemma close_refines : tag = 9 → close_account base_cost context = Ok o → op.
Proof using.
  intros Htag H. unfold close_account, unpack_token in H. run_guards H. guard_facts.
  eapply op_close; eauto.
Qed.

Lemma state_refines state too_few :
  tag = 10 ∧ state = Frozen ∨ tag = 11 ∧ state = Initialized →
  set_account_state base_cost state too_few context = Ok o → op.
Proof using.
  intros Htag H. unfold set_account_state, unpack_mint, unpack_token in H. run_guards H. guard_facts.
  eapply op_state; eauto.
Qed.

Lemma init_mint_refines : tag = 0 → initialize_mint base_cost context = Ok o → op.
Proof using.
  intros Htag H. unfold initialize_mint in H. cbn zeta in H.
  set (freeze := if (67 <=? _)%nat && _ then _ else _) in H.
  assert (Hf : freeze = None ∨ (67 <= length (ec_instruction_data context))%nat
                               ∧ freeze = Some (bytes_at (ec_instruction_data context) 35 67)).
  { subst freeze. destruct (_ && _) eqn:Hg; [right|by left]. apply andb_true_iff in Hg as [Hg%Nat.leb_le _]. done. }
  clearbody freeze. run_guards H. guard_facts. eapply op_init_mint; eauto; set_solver.
Qed.

Lemma init_mint2_refines : tag = 20 → initialize_mint2 base_cost context = Ok o → op.
Proof using.
  intros Htag H. unfold initialize_mint2 in H. run_guards H. guard_facts.
  eapply op_init_mint; eauto; [set_solver|lia|].
  destruct (byte_at _ 34 =? 1); [|simplify_eq; by left].
  destruct (67 <=? _)%nat eqn:Hf; simplify_eq. guard_facts. by right.
Qed.

Lemma init_account_refines : tag = 1 → initialize_account base_cost context = Ok o → op.
Proof using.
  intros Htag H. unfold initialize_account, unpack_mint in H. run_guards H. guard_facts.
  eapply op_init_token; eauto; set_solver.
Qed.

Lemma init_account2_refines : tag ∈ [16; 18] → initialize_account2 base_cost context = Ok o → op.
Proof using.
  intros Htag H. unfold initialize_account2, unpack_mint in H. run_guards H. guard_facts.
  eapply op_init_token; eauto; [set_solver|]. intros ->. set_solver.
Qed.

Lemma init_multisig_refines : tag = 2 → initialize_multisig base_cost context = Ok o → op.
Proof using.
  intros Htag H. unfold initialize_multisig in H. run_guards H. guard_facts.
  eapply op_init_multisig; eauto.
Qed.

Lemma immutable_owner_refines : initialize_immutable_owner base_cost context = Ok o → op.
Proof using.
  intros H. unfold initialize_immutable_owner in H. run_guards H. guard_facts. eapply op_touch; eauto.
Qed.

Lemma ui_amounts_refine :
  amount_to_ui_amount base_cost context = Ok o ∨ ui_amount_to_amount base_cost context = Ok o → op.
Proof using.
  intros [H|H]; unfold amount_to_ui_amount, ui_amount_to_amount in H; run_guards H; simplify_eq; apply op_none.
Qed.

Lemma checked_refines too_short least position instruction :
  checked too_short least position instruction context = Done (Ok o) → instruction context = Ok o.
Proof using.
  unfold checked. case_match; [done|]. destruct (check_decimals _ _ _) as [[?|?]|]; simpl; congruence.
Qed.
End refinement.

(** The first byte of the instruction data. *)
Definition instruction_tag (data : list Z) : Z := default (-1) (head data).

Ltac dispatch H :=
  match type of H with
  | (if ?tag =? ?n then _ else _) = _ =>
      destruct (Z.eqb_spec tag n) as [->|_];
      [ first [ injection H as H | apply checked_refines in H ] | dispatch H ]
  | _ => idtac
  end.

Lemma execute_refines base_cost context o :
  TokenProgram_execute base_cost context = Done (Ok o) →
  token_op (instruction_tag (ec_instruction_data context)) (ec_instruction_data context)
    (ec_accounts context) (eo_modified_accounts o).
Proof.
  unfold TokenProgram_execute. destruct (ec_instruction_data context) as [|tag rest] eqn:Hdata.
  { intros [= <-]. apply op_none. }
  rewrite <- Hdata. assert (Htag : instruction_tag (ec_instruction_data context) = tag) by by rewrite Hdata.
  rewrite Htag. clear Hdata Htag. intros H. cbn zeta in H. dispatch H.
  - by eapply init_mint_refines.
  - by eapply init_account_refines.
  - by eapply init_multisig_refines.
  - eapply transfer_refines; [tags|done].
  - eapply approve_refines; [tags|done].
  - by eapply revoke_refines.
  - eapply mint_to_refines; [tags|done].
  - eapply burn_refines; [tags|done].
  - by eapply close_refines.
  - eapply state_refines; [by left|done].
  - eapply state_refines; [by right|done].
  - eapply transfer_refines; [tags|done].
  - eapply approve_refines; [tags|done].
  - eapply mint_to_refines; [tags|done].
  - eapply burn_refines; [tags|done].
  - eapply init_account2_refines; [tags|done].
  - subst o. apply op_none.
  - eapply init_account2_refines; [tags|done].
  - by eapply init_mint2_refines.
  - subst o. apply op_none.
  - by eapply immutable_owner_refines.
  - apply (ui_amounts_refine base_cost). by left.
  - apply (ui_amounts_refine base_cost). by right.
  - done.
Qed.

(** ** Balances and supply

    [role] says which keys of the ledger are mints and which are token accounts. *)
Inductive Role := MintRole | TokenRole | OtherRole.

#[export] Instance Role_eq_dec : EqDecision Role.
Proof. solve_decision. Defined.

Definition account_at (s : gmap Pubkey Account) (k : Pubkey) : Account := default Account_default (s !! k).

Section ledger.
Context (role : Pubkey → Role).

Definition held_in (mint k : Pubkey) (a : Account) : Z :=
  if decide (role k = TokenRole) then
    match TokenAccount_unpack (acc_data a) with
    | Ok t => if decide (ta_mint t = mint) then ta_amount t else 0
    | Err _ => 0
    end
  else 0.

Definition supply_in (a : Account) : Z :=
  match Mint_unpack (acc_data a) with Ok m => mint_supply m | Err _ => 0 end.

(** The sum of the balances in a mint, and its supply. *)
Definition held (mint : Pubkey) (s : gmap Pubkey Account) : Z :=
  map_fold (λ k a z, held_in mint k a + z) 0 s.
Definition supply (mint : Pubkey) (s : gmap Pubkey Account) : Z := supply_in (account_at s mint).

(** Token accounts in use belong to a mint; a token account or a mint that is not in use
    holds nothing. *)
Definition account_ok (k : Pubkey) (a : Account) : Prop :=
  match role k with
  | TokenRole =>
      Forall is_byte (acc_data a) ∧
      ∀ t, TokenAccount_unpack (acc_data a) = Ok t →
           if decide (ta_state t = Uninitialized) then ta_amount t = 0 ∧ role (ta_mint t) ≠ MintRole
           else role (ta_mint t) = MintRole
  | MintRole =>
      Forall is_byte (acc_data a) ∧
      ∀ m, Mint_unpack (acc_data a) = Ok m → mint_is_initialized m = false →
           mint_supply m = 0 ∧ mint_authority m = None
  | OtherRole => True
  end.

Record ledger_sound (s : gmap Pubkey Account) : Prop := {
  ls_accounts : ∀ k a, s !! k = Some a → account_ok k a;
  ls_supply : ∀ mint, role mint = MintRole → held mint s = supply mint s;
}.

(** What an account adds to the difference of the two. *)
Definition share (mint k : Pubkey) (a : Account) : Z :=
  held_in mint k a - (if decide (k = mint) then supply_in a else 0).

Lemma held_insert mint k a s :
  held mint (<[k := a]> s) = held mint s - held_in mint k (account_at s k) + held_in mint k a.
Proof using.
  assert (Hfresh : ∀ s a, s !! k = None → held mint (<[k := a]> s) = held_in mint k a + held mint s).
  { intros s' a' Hs. unfold held. rewrite map_fold_insert_L; [done|intros; lia|done]. }
  unfold account_at. destruct (s !! k) as [a0|] eqn:Hk; simpl.
  - rewrite <- (insert_delete_id s k a0 Hk) at 2. rewrite <- (insert_delete_eq s k a).
    rewrite !Hfresh by apply lookup_delete_eq. lia.
  - rewrite Hfresh by done. assert (held_in mint k Account_default = 0) as ->; [|lia].
    unfold held_in. cbn. by case_decide.
Qed.

Lemma gap_insert mint k a s :
  held mint (<[k := a]> s) - supply mint (<[k := a]> s)
  = held mint s - supply mint s - share mint k (account_at s k) + share mint k a.
Proof using.
  rewrite held_insert. unfold share, supply. unfold account_at at 2.
  destruct (decide (k = mint)) as [->|Hk]; [rewrite lookup_insert_eq|rewrite lookup_insert_ne by done];
    simpl; unfold account_at; lia.
Qed.

Lemma account_at_ok s k : ledger_sound s → account_ok k (account_at s k).
Proof using.
  intros Hs. unfold account_at. destruct (s !! k) eqn:Hk; [by apply (ls_accounts s Hs)|].
  unfold account_ok. case_match; [split; [constructor|done]..|done].
Qed.

Lemma insert_one s k a :
  ledger_sound s → account_ok k a →
  (∀ mint, role mint = MintRole → share mint k a = share mint k (account_at s k)) →
  ledger_sound ({[k := a]} ∪ s).
Proof using.
  intros Hs Ha Hshare. rewrite <- insert_union_singleton_l. split.
  - intros j b [[<- <-]|[_ Hj]]%lookup_insert_Some; [done|by apply (ls_accounts s Hs)].
  - intros mint Hm. pose proof (gap_insert mint k a s). rewrite Hshare in * by done.
    pose proof (ls_supply s Hs mint Hm). lia.
Qed.

Lemma insert_two s k1 a1 k2 a2 :
  ledger_sound s → k1 ≠ k2 → account_ok k1 a1 → account_ok k2 a2 →
  (∀ mint, role mint = MintRole →
     share mint k1 a1 + share mint k2 a2 = share mint k1 (account_at s k1) + share mint k2 (account_at s k2)) →
  ledger_sound (<[k2 := a2]> {[k1 := a1]} ∪ s).
Proof using.
  intros Hs Hne Ha1 Ha2 Hshare. rewrite <- insert_union_l, <- insert_union_singleton_l. split.
  - intros j b [[<- <-]|[_ [[<- <-]|[_ Hj]]%lookup_insert_Some]]%lookup_insert_Some; [done..|].
    by apply (ls_accounts s Hs).
  - intros mint Hm. pose proof (gap_insert mint k2 a2 (<[k1 := a1]> s)) as H2.
    unfold account_at at 1 in H2. rewrite lookup_insert_ne in H2 by done. fold (account_at s k2) in H2.
    pose proof (gap_insert mint k1 a1 s). specialize (Hshare mint Hm).
    pose proof (ls_supply s Hs mint Hm). lia.
Qed.

(** ** Shares of the accounts of each kind *)

Lemma share_token mint k a t :
  role mint = MintRole → role k = TokenRole → TokenAccount_unpack (acc_data a) = Ok t →
  share mint k a = if decide (ta_mint t = mint) then ta_amount t else 0.
Proof using.
  intros Hm Hk Ht. unfold share, held_in. rewrite decide_True, Ht, (decide_False (P := k = mint)) by congruence.
  lia.
Qed.

Lemma share_not_token mint k a :
  role mint = MintRole → role k = TokenRole → (∀ t, TokenAccount_unpack (acc_data a) ≠ Ok t) →
  share mint k a = 0.
Proof using.
  intros Hm Hk Ht. unfold share, held_in. rewrite (decide_False (P := k = mint)) by congruence.
  destruct (TokenAccount_unpack _); [by destruct (Ht a0)|]. by case_decide.
Qed.

Lemma share_mint mint k a :
  role k = MintRole → share mint k a = if decide (k = mint) then - supply_in a else 0.
Proof using. intros Hk. unfold share, held_in. rewrite decide_False by congruence. case_decide; lia. Qed.

Lemma share_other mint k a : role mint = MintRole → role k = OtherRole → share mint k a = 0.
Proof using. intros Hm Hk. unfold share, held_in. rewrite !decide_False by congruence. lia. Qed.

(** A change of the lamports alone. *)
Lemma with_lamports_share mint k a lamports : share mint k (with_lamports a lamports) = share mint k a.
Proof using. done. Qed.

Lemma account_ok_token k a t :
  role k = TokenRole → token_typed t →
  (if decide (ta_state t = Uninitialized) then ta_amount t = 0 ∧ role (ta_mint t) ≠ MintRole
   else role (ta_mint t) = MintRole) →
  account_ok k (with_bytes a (TokenAccount_pack t)).
Proof using.
  intros Hk Ht Hs. unfold account_ok. rewrite Hk. cbn [with_bytes acc_data].
  split; [by apply TokenAccount_pack_bytes|]. rewrite TokenAccount_unpack_pack by done. by intros ? [= <-].
Qed.

Lemma account_ok_mint k a m :
  role k = MintRole → mint_typed m →
  (mint_is_initialized m = false → mint_supply m = 0 ∧ mint_authority m = None) →
  account_ok k (with_bytes a (Mint_pack m)).
Proof using.
  intros Hk Hm Hs. unfold account_ok. rewrite Hk. cbn [with_bytes acc_data].
  split; [by apply Mint_pack_bytes|]. rewrite Mint_unpack_pack by done. by intros ? [= <-].
Qed.

Lemma packed_token a t : token_typed t → TokenAccount_unpack (acc_data (with_bytes a (TokenAccount_pack t))) = Ok t.
Proof using. apply TokenAccount_unpack_pack. Qed.

Lemma packed_supply a m : mint_typed m → supply_in (with_bytes a (Mint_pack m)) = mint_supply m.
Proof using. intros Hm. unfold supply_in. cbn [with_bytes acc_data]. by rewrite Mint_unpack_pack. Qed.

Lemma unpacked_supply a m : Mint_unpack (acc_data a) = Ok m → supply_in a = mint_supply m.
Proof using. unfold supply_in. by intros ->. Qed.

Lemma unused_mint k a : role k = MintRole → account_ok k a → mint_in_use a = false → supply_in a = 0.
Proof using.
  unfold account_ok, mint_in_use, supply_in. intros ->. intros [_ H] Hu.
  destruct (Mint_unpack (acc_data a)) as [m|] eqn:Hm; [|done].
  destruct (acc_data a) eqn:Hd; [done|]. apply andb_false_iff in Hu as [?|Hu]; [done|].
  by destruct (H m eq_refl Hu).
Qed.

Lemma unused_token mint k a :
  role mint = MintRole → role k = TokenRole → account_ok k a → token_in_use a = false → share mint k a = 0.
Proof using.
  intros Hm Hk Ha Hu. unfold account_ok in Ha. rewrite Hk in Ha. destruct Ha as [_ Ha].
  unfold token_in_use in Hu. destruct (TokenAccount_unpack (acc_data a)) as [t|] eqn:Ht.
  - rewrite (share_token mint k a t) by done. specialize (Ha t eq_refl).
    destruct (acc_data a) eqn:Hd; [done|]. apply andb_false_iff in Hu as [?|Hu]; [done|].
    apply negb_false_iff, bool_decide_eq_true_1 in Hu. rewrite decide_True in Ha by done.
    destruct Ha as [-> _]. by case_decide.
  - apply share_not_token; [done..|]. congruence.
Qed.

(** ** Orderly instructions

    The accounts are distinct and of the kind the instruction is meant for, and the
    initialisations that do not look whether their account is in use get one that is not. *)
Definition has_role (accounts : list (Pubkey * Account * bool)) (i : nat) (r : Role) : Prop :=
  ∀ x, accounts !! i = Some x → role x.1.1 = r.

Record orderly (tag : Z) (accounts : list (Pubkey * Account * bool)) : Prop := {
  or_distinct : NoDup accounts.*1.*1;
  or_token : tag ∈ [1; 3; 4; 5; 8; 9; 10; 11; 12; 13; 15; 16; 18] → has_role accounts 0 TokenRole;
  or_mint : tag ∈ [0; 7; 14; 20] → has_role accounts 0 MintRole;
  or_multisig : tag = 2 → has_role accounts 0 OtherRole;
  or_dest : tag ∈ [3; 7; 12; 14] → has_role accounts 1 TokenRole;
  or_second_mint : tag ∈ [1; 8; 10; 11; 15; 16; 18] → has_role accounts 1 MintRole;
  or_fresh : tag ∈ [16; 18] → ∀ x, accounts !! 0%nat = Some x → token_in_use x.1.2 = false;
  or_decimals : tag ∈ [12; 13] → length accounts ≠ 2%nat;
}.

(** The accounts of an instruction are those of the ledger. *)
Definition accounts_current (s : gmap Pubkey Account) (accounts : list (Pubkey * Account * bool)) : Prop :=
  Forall (λ x, key_typed x.1.1 ∧ x.1.2 = account_at s x.1.1) accounts.

Section op_sound.
Context (s : gmap Pubkey Account) (Hs : ledger_sound s).

(** What the ledger says of the account of a token holder and of a mint. *)
Lemma token_at k t :
  role k = TokenRole → TokenAccount_unpack (acc_data (account_at s k)) = Ok t →
  token_typed t
  ∧ (if decide (ta_state t = Uninitialized) then ta_amount t = 0 ∧ role (ta_mint t) ≠ MintRole
     else role (ta_mint t) = MintRole).
Proof using Hs.
  intros Hk Ht. pose proof (account_at_ok s k Hs) as H. unfold account_ok in H. rewrite Hk in H.
  destruct H as [Hb H]. split; [by eapply TokenAccount_unpack_typed|by apply H].
Qed.

Lemma mint_at k m :
  role k = MintRole → Mint_unpack (acc_data (account_at s k)) = Ok m →
  mint_typed m ∧ (mint_is_initialized m = false → mint_supply m = 0 ∧ mint_authority m = None).
Proof using Hs.
  intros Hk Hm. pose proof (account_at_ok s k Hs) as H. unfold account_ok in H. rewrite Hk in H.
  destruct H as [Hb H]. split; [by eapply Mint_unpack_typed|by apply H].
Qed.

(** A token account whose mint, amount and use stay is replaced. *)
Lemma replace_token k t t' :
  role k = TokenRole → TokenAccount_unpack (acc_data (account_at s k)) = Ok t → token_typed t' →
  ta_mint t' = ta_mint t → ta_amount t' = ta_amount t →
  (ta_state t' = Uninitialized ↔ ta_state t = Uninitialized) →
  ledger_sound ({[k := with_bytes (account_at s k) (TokenAccount_pack t')]} ∪ s).
Proof using Hs.
  intros Hk Ht Ht' Hm Ha Hst. destruct (token_at k t Hk Ht) as [_ Hok]. apply insert_one; [done| |].
  - apply account_ok_token; [done..|]. rewrite Ha, Hm.
    destruct (decide (ta_state t = Uninitialized)); [rewrite decide_True by tauto|rewrite decide_False by tauto]; done.
  - intros mint Hmint. rewrite (share_token mint k (account_at s k) t) by done.
    rewrite (share_token mint k _ t'); [by rewrite Hm, Ha|done|done|by apply packed_token].
Qed.

Context (tag : Z) (data : list Z) (accounts : list (Pubkey * Account * bool)).
Context (Hdata : Forall is_byte data) (Hcur : accounts_current s accounts) (Hord : orderly tag accounts).

Lemma amount_typed : (9 <= length data)%nat → is_u64 (instruction_amount data).
Proof using Hdata. intros. apply bytes_at_u64; [done|lia..]. Qed.

Lemma current_at i k a w : accounts !! i = Some (k, a, w) → a = account_at s k ∧ key_typed k.
Proof using Hcur. intros Hi. destruct (Forall_lookup_1 _ _ _ _ Hcur Hi) as [? ?]. by split. Qed.

Lemma key_at k : k ∈ accounts.*1.*1 → key_typed k.
Proof using Hcur.
  intros (p & -> & ([[k' a] w] & -> & Hx)%list_elem_of_fmap)%list_elem_of_fmap.
  apply list_elem_of_lookup in Hx as [i Hi]. by destruct (current_at i k' a w Hi) as [_ ?].
Qed.

Lemma role_at i k a w r : has_role accounts i r → accounts !! i = Some (k, a, w) → role k = r.
Proof using. intros H Hi. by apply (H _ Hi). Qed.

Lemma distinct_01 k a w k' a' w' rest : accounts = (k, a, w) :: (k', a', w') :: rest → k ≠ k'.
Proof using Hord.
  intros Heq. pose proof (or_distinct _ _ Hord) as H. rewrite Heq in H. cbn in H.
  apply NoDup_cons in H as [H _]. clear - H. set_solver.
Qed.

Lemma op_transfer_sound ks sa kd da x xa xw rest t d amount :
  tag ∈ [3; 12] → accounts = (ks, sa, true) :: (kd, da, true) :: (x, xa, xw) :: rest →
  is_u64 amount →
  TokenAccount_unpack (acc_data sa) = Ok t → TokenAccount_unpack (acc_data da) = Ok d →
  ta_mint t = ta_mint d → amount <= ta_amount t → ta_amount d + amount <= u64_max →
  ledger_sound (<[kd := with_bytes da (TokenAccount_pack (with_amount d (ta_amount d + amount)))]>
                  {[ks := with_bytes sa (TokenAccount_pack
                             (use_delegate (with_amount t (ta_amount t - amount)) x amount))]} ∪ s).
Proof using All.
  intros Htag Hacc Hamt Ht Hd Hm Hle Hmax. pose proof (distinct_01 _ _ _ _ _ _ _ Hacc) as Hne.
  assert (Hks : role ks = TokenRole) by (eapply (role_at 0); [apply (or_token _ _ Hord); tags|by rewrite Hacc]).
  assert (Hkd : role kd = TokenRole) by (eapply (role_at 1); [apply (or_dest _ _ Hord); tags|by rewrite Hacc]).
  destruct (current_at 0 ks sa true) as [-> _]; [by rewrite Hacc|].
  destruct (current_at 1 kd da true) as [-> _]; [by rewrite Hacc|].
  destruct (token_at _ _ Hks Ht) as [Htt Hts]. destruct (token_at _ _ Hkd Hd) as [Htd Hds].
  set (t' := use_delegate _ x amount). set (d' := with_amount d _).
  pose proof (use_delegate_fields (with_amount t (ta_amount t - amount)) x amount) as (Fm & _ & Fa & Fs & _).
  fold t' in Fm, Fa, Fs. cbn in Fm, Fa, Fs. pose proof (tt_amount t Htt). pose proof (tt_amount d Htd).
  unfold is_u64 in *.
  assert (token_typed t') by (apply use_delegate_typed; [apply with_amount_typed; [done|unfold is_u64; lia]|lia]).
  assert (token_typed d') by (apply with_amount_typed; [done|unfold is_u64; lia]).
  apply insert_two; [done|done| | |].
  - apply account_ok_token; [done..|]. rewrite Fs, Fm, Fa.
    destruct (decide (ta_state t = Uninitialized)); [destruct Hts; split; [lia|done]|done].
  - apply account_ok_token; [done..|]. cbn.
    destruct (decide (ta_state d = Uninitialized)); [|done]. destruct Hds as [? Hr]. split; [|done].
    rewrite <- Hm in Hr. destruct (decide (ta_state t = Uninitialized)); [lia|done].
  - intros mint Hmint. rewrite (share_token mint ks _ t'), (share_token mint kd _ d'),
      (share_token mint ks (account_at s ks) t), (share_token mint kd (account_at s kd) d) by
      (done || by apply packed_token).
    rewrite Fm, Fa. subst d'. cbn [with_amount ta_mint ta_amount]. rewrite <- Hm.
    destruct (decide (ta_mint t = mint)); lia.
Qed.

(** A token account and its mint change by the same amount. *)
Lemma change_supply_sound k km (t t' : TokenAccount) (m m' : Mint) (delta : Z) :
  role k = TokenRole → role km = MintRole →
  TokenAccount_unpack (acc_data (account_at s k)) = Ok t → Mint_unpack (acc_data (account_at s km)) = Ok m →
  token_typed t' → mint_typed m' →
  ta_mint t = km → ta_mint t' = km → ta_state t' = ta_state t → ta_amount t' = ta_amount t + delta →
  mint_supply m' = mint_supply m + delta → mint_is_initialized m' = mint_is_initialized m →
  mint_authority m' = mint_authority m → (mint_authority m = None → delta <= 0) →
  account_ok k (with_bytes (account_at s k) (TokenAccount_pack t'))
  ∧ account_ok km (with_bytes (account_at s km) (Mint_pack m'))
  ∧ ∀ mint, role mint = MintRole →
      share mint k (with_bytes (account_at s k) (TokenAccount_pack t'))
      + share mint km (with_bytes (account_at s km) (Mint_pack m'))
      = share mint k (account_at s k) + share mint km (account_at s km).
Proof using All.
  intros Hk Hkm Ht Hm Htt' Hmt' Htm Htm' Hst Ha Hsup Hinit Hauth Hneg.
  destruct (token_at _ _ Hk Ht) as [Htt Hts]. destruct (mint_at _ _ Hkm Hm) as [Hmt Hms].
  pose proof (mt_supply _ Hmt'). pose proof (mt_supply _ Hmt). unfold is_u64 in *. split_and!.
  - apply account_ok_token; [done..|]. rewrite Hst, Htm'. rewrite Htm in Hts.
    destruct (decide (ta_state t = Uninitialized)); [by destruct Hts|done].
  - apply account_ok_mint; [done..|]. rewrite Hinit, Hauth, Hsup. intros Hi.
    destruct (Hms Hi) as [Hz Hn]. split; [|done]. specialize (Hneg Hn). lia.
  - intros mint Hmint. rewrite !(share_mint mint km) by done.
    rewrite (share_token mint k _ t'), (share_token mint k (account_at s k) t) by (done || by apply packed_token).
    rewrite packed_supply, (unpacked_supply (account_at s km) m), Ha, Hsup, Htm, Htm' by done.
    destruct (decide (km = mint)); lia.
Qed.

Lemma op_mint_sound km ma kd da x xa xw rest m d amount :
  tag ∈ [7; 14] → accounts = (km, ma, true) :: (kd, da, true) :: (x, xa, xw) :: rest → is_u64 amount →
  Mint_unpack (acc_data ma) = Ok m → TokenAccount_unpack (acc_data da) = Ok d →
  mint_authority m = Some x → ta_mint d = km →
  mint_supply m + amount <= u64_max → ta_amount d + amount <= u64_max →
  ledger_sound (<[kd := with_bytes da (TokenAccount_pack (with_amount d (ta_amount d + amount)))]>
                  {[km := with_bytes ma (Mint_pack (with_supply m (mint_supply m + amount)))]} ∪ s).
Proof using All.
  intros Htag Hacc Hamt Hm Hd Hauth Htm Hs1 Hs2. pose proof (distinct_01 _ _ _ _ _ _ _ Hacc) as Hne.
  assert (Hkm : role km = MintRole) by (eapply (role_at 0); [apply (or_mint _ _ Hord); tags|by rewrite Hacc]).
  assert (Hkd : role kd = TokenRole) by (eapply (role_at 1); [apply (or_dest _ _ Hord); tags|by rewrite Hacc]).
  destruct (current_at 0 km ma true) as [-> _]; [by rewrite Hacc|].
  destruct (current_at 1 kd da true) as [-> _]; [by rewrite Hacc|].
  destruct (token_at _ _ Hkd Hd) as [Htd _]. destruct (mint_at _ _ Hkm Hm) as [Hmt _].
  pose proof (tt_amount d Htd). pose proof (mt_supply m Hmt). unfold is_u64 in *.
  destruct (change_supply_sound kd km d (with_amount d (ta_amount d + amount)) m
              (with_supply m (mint_supply m + amount)) amount) as (H1 & H2 & H3); try done.
  - apply with_amount_typed; [done|unfold is_u64; lia].
  - apply with_supply_typed; [done|unfold is_u64; lia].
  - congruence.
  - apply insert_two; [done..|]. intros mint Hmint. specialize (H3 mint Hmint). lia.
Qed.

Lemma op_burn_sound k a km ma x xa xw rest t m amount :
  tag ∈ [8; 15] → accounts = (k, a, true) :: (km, ma, true) :: (x, xa, xw) :: rest → is_u64 amount →
  TokenAccount_unpack (acc_data a) = Ok t → Mint_unpack (acc_data ma) = Ok m →
  ta_mint t = km → amount <= ta_amount t → amount <= mint_supply m →
  ledger_sound (<[km := with_bytes ma (Mint_pack (with_supply m (mint_supply m - amount)))]>
                  {[k := with_bytes a (TokenAccount_pack
                            (use_delegate (with_amount t (ta_amount t - amount)) x amount))]} ∪ s).
Proof using All.
  intros Htag Hacc Hamt Ht Hm Htm Hs1 Hs2. pose proof (distinct_01 _ _ _ _ _ _ _ Hacc) as Hne.
  assert (Hk : role k = TokenRole) by (eapply (role_at 0); [apply (or_token _ _ Hord); tags|by rewrite Hacc]).
  assert (Hkm : role km = MintRole) by (eapply (role_at 1); [apply (or_second_mint _ _ Hord); tags|by rewrite Hacc]).
  destruct (current_at 0 k a true) as [-> _]; [by rewrite Hacc|].
  destruct (current_at 1 km ma true) as [-> _]; [by rewrite Hacc|].
  destruct (token_at _ _ Hk Ht) as [Htt _]. destruct (mint_at _ _ Hkm Hm) as [Hmt _].
  pose proof (tt_amount t Htt). pose proof (mt_supply m Hmt). unfold is_u64 in *.
  set (t' := use_delegate _ x amount).
  pose proof (use_delegate_fields (with_amount t (ta_amount t - amount)) x amount) as (Fm & _ & Fa & Fs & _).
  fold t' in Fm, Fa, Fs. cbn in Fm, Fa, Fs.
  destruct (change_supply_sound k km t t' m (with_supply m (mint_supply m - amount)) (- amount))
    as (H1 & H2 & H3); try done; try congruence.
  - apply use_delegate_typed; [apply with_amount_typed; [done|unfold is_u64; lia]|lia].
  - apply with_supply_typed; [done|unfold is_u64; lia].
  - lia.
  - by apply insert_two.
Qed.

Lemma op_close_sound k a kd da rest t lamports :
  tag = 9 → accounts = (k, a, true) :: (kd, da, true) :: rest →
  TokenAccount_unpack (acc_data a) = Ok t → ta_amount t = 0 →
  ledger_sound (<[kd := with_lamports da lamports]> {[k := with_bytes (with_lamports a 0) []]} ∪ s).
Proof using All.
  intros Htag Hacc Ht Hz. pose proof (distinct_01 _ _ _ _ _ _ _ Hacc) as Hne.
  assert (Hk : role k = TokenRole) by (eapply (role_at 0); [apply (or_token _ _ Hord); tags|by rewrite Hacc]).
  destruct (current_at 0 k a true) as [-> _]; [by rewrite Hacc|].
  destruct (current_at 1 kd da true) as [-> _]; [by rewrite Hacc|].
  apply insert_two; [done|done| | |].
  - unfold account_ok. rewrite Hk. cbn. split; [constructor|done].
  - apply (account_at_ok s kd Hs).
  - intros mint Hmint. rewrite with_lamports_share, (share_not_token mint k (with_bytes _ _)) by done.
    rewrite (share_token mint k (account_at s k) t), Hz by done. case_decide; lia.
Qed.

Lemma op_init_mint_sound k a rest freeze :
  tag ∈ [0; 20] → accounts = (k, a, true) :: rest → mint_in_use a = false →
  (34 <= length data)%nat →
  (freeze = None ∨ (67 <= length data)%nat ∧ freeze = Some (bytes_at data 35 67)) →
  ledger_sound ({[k := with_bytes a (Mint_pack (mkMint (Some (bytes_at data 2 34)) 0 (byte_at data 1) true freeze))]} ∪ s).
Proof using All.
  intros Htag Hacc Hu Hl Hf.
  assert (Hk : role k = MintRole) by (eapply (role_at 0); [apply (or_mint _ _ Hord); tags|by rewrite Hacc]).
  destruct (current_at 0 k a true) as [-> _]; [by rewrite Hacc|].
  assert (Hmt : mint_typed (mkMint (Some (bytes_at data 2 34)) 0 (byte_at data 1) true freeze)).
  { split; cbn [mint_authority mint_supply mint_decimals mint_freeze_authority]; [|done|by apply byte_at_typed|].
    - intros ? [= <-]. apply bytes_at_key; [done|lia..].
    - destruct Hf as [->|[? ->]]; [done|]. intros ? [= <-]. apply bytes_at_key; [done|lia..]. }
  apply insert_one; [done|by apply account_ok_mint|]. intros mint Hmint.
  rewrite !share_mint, packed_supply by done.
  rewrite (unused_mint k (account_at s k)) by (done || by apply account_at_ok). done.
Qed.

Lemma op_init_token_sound k a mint ma mw rest owner :
  tag ∈ [1; 16; 18] → accounts = (k, a, true) :: (mint, ma, mw) :: rest →
  (tag = 1 → token_in_use a = false) →
  (owner ∈ rest.*1.*1 ∨ (33 <= length data)%nat ∧ owner = bytes_at data 1 33) →
  ledger_sound ({[k := with_bytes a (TokenAccount_pack (new_token_account mint owner))]} ∪ s).
Proof using All.
  intros Htag Hacc Hu Ho.
  assert (Hfresh : token_in_use a = false).
  { destruct (decide (tag = 1)); [by apply Hu|].
    apply (or_fresh _ _ Hord) with (x := (k, a, true)); [tags|by rewrite Hacc]. }
  assert (Hk : role k = TokenRole) by (eapply (role_at 0); [apply (or_token _ _ Hord); tags|by rewrite Hacc]).
  assert (Hm : role mint = MintRole) by (eapply (role_at 1); [apply (or_second_mint _ _ Hord); tags|by rewrite Hacc]).
  destruct (current_at 0 k a true) as [-> _]; [by rewrite Hacc|].
  destruct (current_at 1 mint ma mw) as [_ Hkm]; [by rewrite Hacc|].
  assert (key_typed owner).
  { destruct Ho as [Ho|[? ->]]; [apply key_at; rewrite Hacc; cbn; by do 2 right|apply bytes_at_key; [done|lia..]]. }
  assert (token_typed (new_token_account mint owner)) by by apply new_token_account_typed.
  apply insert_one; [done|by apply account_ok_token|]. intros mint' Hmint.
  rewrite (unused_token mint' k (account_at s k)) by (done || by apply account_at_ok).
  rewrite (share_token mint' k _ (new_token_account mint owner)) by (done || by apply packed_token).
  by case_decide.
Qed.

Lemma op_delegate_sound k a rest t delegate amount :
  tag ∈ [4; 5; 13] → accounts = (k, a, true) :: rest → TokenAccount_unpack (acc_data a) = Ok t →
  (∀ d, delegate = Some d → d ∈ rest.*1.*1) →
  (amount = 0 ∨ (9 <= length data)%nat ∧ amount = instruction_amount data) →
  ledger_sound ({[k := with_bytes a (TokenAccount_pack (with_delegate t delegate amount))]} ∪ s).
Proof using All.
  intros Htag Hacc Ht Hd Ha.
  assert (Hk : role k = TokenRole) by (eapply (role_at 0); [apply (or_token _ _ Hord); tags|by rewrite Hacc]).
  destruct (current_at 0 k a true) as [-> _]; [by rewrite Hacc|].
  destruct (token_at _ _ Hk Ht) as [Htt _]. apply (replace_token k t); try done.
  apply with_delegate_typed; [done| |].
  - intros d Hd'. apply key_at. rewrite Hacc. cbn. right. by apply Hd.
  - destruct Ha as [->|[? ->]]; [done|by apply amount_typed].
Qed.

Lemma op_state_sound k a km ma mw rest t m state :
  tag = 10 ∧ state = Frozen ∨ tag = 11 ∧ state = Initialized →
  accounts = (k, a, true) :: (km, ma, mw) :: rest →
  TokenAccount_unpack (acc_data a) = Ok t → Mint_unpack (acc_data ma) = Ok m → ta_mint t = km →
  ledger_sound ({[k := with_bytes a (TokenAccount_pack (with_state t state))]} ∪ s).
Proof using All.
  intros Htag Hacc Ht Hm Htm.
  assert (Hk : role k = TokenRole) by (eapply (role_at 0); [apply (or_token _ _ Hord); tags|by rewrite Hacc]).
  assert (Hkm : role km = MintRole) by (eapply (role_at 1); [apply (or_second_mint _ _ Hord); tags|by rewrite Hacc]).
  destruct (current_at 0 k a true) as [-> _]; [by rewrite Hacc|].
  destruct (token_at _ _ Hk Ht) as [Htt Hts]. apply (replace_token k t); try done.
  - by apply with_state_typed.
  - rewrite Htm in Hts. cbn. destruct (decide (ta_state t = Uninitialized)); [by destruct Hts|].
    split; [intros ->; by destruct Htag as [[_ ?]|[_ ?]]|done].
Qed.

Lemma token_op_sound modified : token_op tag data accounts modified → ledger_sound (modified ∪ s).
Proof using All.
  intros Hop. destruct Hop.
  - by rewrite map_empty_union.
  - destruct (current_at 0 k a true) as [-> _]; [by subst|].
    apply insert_one; [done|by apply account_at_ok|done].
  - by eapply op_init_mint_sound.
  - by eapply op_init_token_sound.
  - assert (Hk : role k = OtherRole) by (eapply (role_at 0); [by apply (or_multisig _ _ Hord)|by subst]).
    apply insert_one; [done|unfold account_ok; by rewrite Hk|]. intros mint Hmint. by rewrite !share_other.
  - eapply op_transfer_sound; try done. subst amount. by apply amount_typed.
  - by eapply op_delegate_sound.
  - eapply op_mint_sound; try done. subst amount. by apply amount_typed.
  - eapply op_burn_sound; try done. subst amount. by apply amount_typed.
  - by eapply op_close_sound.
  - by eapply op_state_sound.
Qed.
End op_sound.
End ledger.

(** ** Transactions *)

(** The processor with the token program, and other programs of any behaviour. *)
Definition token_programs (others : ExecutionContext → Outcome ExecutionOutcome)
  (heap : list (Pubkey * list Z) → option Z) : Programs :=
  {| execute_instruction := route_token others; requested_heap_size := heap |}.

Record message_typed (m : TransactionMessage) : Prop := {
  tmt_keys : Forall key_typed (tm_account_keys m);
  tmt_data : Forall (λ ci, Forall is_byte (ci_data ci)) (tm_instructions m);
}.

Definition only_token_instructions (m : TransactionMessage) : Prop :=
  Forall (λ ci, account_key m (ci_program_id_index ci) = Some TOKEN_PROGRAM_ID) (tm_instructions m).

Lemma checked_total too_short least position instruction context :
  (position < least ∨ length (ec_accounts context) ≠ least ∧ position = least)%nat →
  ∃ r, checked too_short least position instruction context = Done r.
Proof.
  intros Hpos. unfold checked, check_decimals. destruct (_ <? 10)%nat; [by eexists|].
  destruct (Nat.ltb_spec (length (ec_accounts context)) least); [by eexists|].
  destruct (lookup_lt_is_Some_2 (ec_accounts context) position) as [[[k a] w] ->]; [lia|by eexists].
Qed.

Lemma execute_total base_cost context :
  (instruction_tag (ec_instruction_data context) ∈ [12; 13] → length (ec_accounts context) ≠ 2%nat) →
  ∃ r, TokenProgram_execute base_cost context = Done r.
Proof.
  intros Hlen. unfold TokenProgram_execute. destruct (ec_instruction_data context) as [|tag rest]; [by eexists|].
  cbn zeta. cbn in Hlen.
  repeat match goal with
  | |- ∃ r, (if ?b then ?e else _) = Done r => destruct b eqn:?; [try by eexists|]
  end; try by eexists.
  all: guard_facts.
  - apply checked_total. right. split; [apply Hlen; tags|done].
  - apply checked_total. right. split; [apply Hlen; tags|done].
  - apply checked_total. by left; lia.
  - apply checked_total. by left; lia.
Qed.

Lemma resolved_current message state s indices accounts :
  Forall key_typed (tm_account_keys message) →
  resolve_accounts message state s indices = Ok accounts →
  accounts_current (overlay state (ts_modified_accounts s)) accounts.
Proof.
  intros Hk. revert accounts. induction indices as [|i rest IH]; simpl; intros accounts; [intros [= <-]; constructor|].
  destruct (account_key message i) as [key|] eqn:Hi; [|done].
  destruct (resolve_accounts _ _ _ _) as [l|]; [|done]. intros [= <-]. constructor; [|by apply IH]. cbn. split.
  - by apply (Forall_lookup_1 _ _ _ _ Hk Hi).
  - apply current_account_overlay.
Qed.

Section transactions.
Context (others : ExecutionContext → Outcome ExecutionOutcome) (heap : list (Pubkey * list Z) → option Z).
Local Instance transactions_programs : Programs := token_programs others heap.

(** C23. In a ledger where every mint's supply is the sum of the balances held in it, a
    transaction of token instructions returns, and leaves a ledger of which the same is
    true, whether it succeeds or stops at an error; provided each instruction that the
    loop gets to is orderly: distinct accounts of the kind the instruction is for. *)
Theorem token_supply_is_conserved (role : Pubkey → Role) (max_compute_units : Z)
  (message : TransactionMessage) (state : gmap Pubkey Account) :
  ledger_sound role state → message_typed message → only_token_instructions message →
  (∀ s idx ci accounts,
     arrives max_compute_units message state s idx → tm_instructions message !! idx = Some ci →
     resolve_accounts message state s (ci_accounts ci) = Ok accounts →
     orderly role (instruction_tag (ci_data ci)) accounts) →
  ∃ r, process_transaction max_compute_units message state = Done r
       ∧ ledger_sound role (overlay state (tr_modified_accounts r)).
Proof using.
  intros Hsound [Hkeys Hdata] Hpid Hord. apply process_transaction_invariant; [done|].
  intros s idx ci pid accounts Harr Hci Hp Hres HI.
  rewrite (Forall_lookup_1 _ _ _ _ Hpid Hci) in Hp. injection Hp as <-.
  specialize (Hord s idx ci accounts Harr Hci Hres). pose proof (Forall_lookup_1 _ _ _ _ Hdata Hci) as Hd.
  cbn [execute_instruction transactions_programs token_programs]. unfold route_token.
  rewrite bool_decide_eq_true_2 by done.
  set (context := instruction_context _ _ _ _ _ _).
  destruct (execute_total 300 context) as [[o|err] Hr]; [by apply (or_decimals _ _ _ Hord)| |];
    rewrite Hr, Done_bind; eexists; (split; [done|]).
  - apply execute_refines in Hr. unfold overlay. rewrite <- (assoc_L (∪)).
    eapply (token_op_sound role _ HI); [exact Hd|by eapply resolved_current|exact Hord|exact Hr].
  - cbn. by rewrite map_empty_union.
Qed.
End transactions.

(** ** Authority *)

Section authority.
Context (role : Pubkey → Role) (tag : Z) (accounts : list (Pubkey * Account * bool)).

(** The key in the position of the authority. *)
Definition authority : option Pubkey := accounts.*1.*1 !! (if tag =? 5 then 1%nat else 2%nat).

(** A token account may change from [t] to [t']. *)
Record token_authorized (t t' : TokenAccount) : Prop := {
  au_fixed : ta_mint t' = ta_mint t ∧ ta_owner t' = ta_owner t ∧ ta_is_native t' = ta_is_native t
             ∧ ta_close_authority t' = ta_close_authority t;
  au_spend : ta_amount t' < ta_amount t →
    authority = Some (ta_owner t) ∨ (∃ x, authority = Some x ∧ ta_delegate t = Some x);
  au_receive : ta_amount t < ta_amount t' → ta_state t ≠ Frozen;
  au_delegate : ∀ d, ta_delegate t' = Some d → ta_delegate t ≠ Some d → authority = Some (ta_owner t);
  au_delegated : ta_delegated_amount t < ta_delegated_amount t' → authority = Some (ta_owner t);
  au_delegation : (ta_delegate t', ta_delegated_amount t') ≠ (ta_delegate t, ta_delegated_amount t) →
    authority = Some (ta_owner t)
    ∨ ∃ x, authority = Some x ∧ ta_delegate t = Some x ∧ ta_amount t' <= ta_amount t
      ∧ ta_delegated_amount t' = u64_saturating_sub (ta_delegated_amount t) (ta_amount t - ta_amount t')
      ∧ ta_delegate t' = if ta_delegated_amount t' =? 0 then None else Some x;
  au_state : ta_state t' ≠ ta_state t →
    ∃ x ma mw m, authority = Some x ∧ (ta_mint t, ma, mw) ∈ accounts
                 ∧ Mint_unpack (acc_data ma) = Ok m ∧ mint_freeze_authority m = Some x;
}.

(** A mint may change from [m] to [m']. *)
Record mint_authorized (k : Pubkey) (m m' : Mint) : Prop := {
  mu_fixed : m' = with_supply m (mint_supply m');
  mu_mint : mint_supply m < mint_supply m' → authority = mint_authority m;
  mu_burn : mint_supply m' < mint_supply m →
    ∃ x j a w t, authority = Some x ∧ (j, a, w) ∈ accounts ∧ TokenAccount_unpack (acc_data a) = Ok t
                 ∧ ta_mint t = k ∧ (ta_owner t = x ∨ ta_delegate t = Some x);
}.

Lemma token_unchanged t : token_authorized t t.
Proof using. split; try done; try lia. Qed.

Lemma mint_unchanged k m : mint_authorized k m m.
Proof using. destruct m. split; try done; cbn; lia. Qed.

Lemma may_spend_true t x : may_spend t x = true → ta_owner t = x ∨ ta_delegate t = Some x.
Proof using.
  unfold may_spend. rewrite orb_true_iff. intros [H|H]; [left|right]; by apply bool_decide_eq_true_1 in H.
Qed.

Lemma use_delegate_authorized t x amount :
  0 <= amount → token_typed t → authority = Some x → may_spend t x = true →
  token_authorized t (use_delegate (with_amount t (ta_amount t - amount)) x amount).
Proof using.
  intros Ha Ht Hx Hmay.
  pose proof (use_delegate_fields (with_amount t (ta_amount t - amount)) x amount) as (Fm & Fo & Fa & Fs & Fn & Fc). cbn in *.
  pose proof (tt_delegated t Ht) as [? ?].
  apply may_spend_true in Hmay.
  split; rewrite ?Fa, ?Fs; [done| |lia| | | |done].
  - intros _. destruct Hmay as [->|]; [by left|right; by eauto].
  - intros d Hd Hne. unfold use_delegate in Hd. cbn in Hd. case_bool_decide; [|done]. cbn in Hd.
    by case_match.
  - unfold use_delegate. case_bool_decide; cbn; unfold u64_saturating_sub; lia.
  - unfold use_delegate. cbn [ta_delegate with_amount]. case_bool_decide as Hd; cbn; [|done]. intros _. right. exists x.
    replace (ta_amount t - (ta_amount t - amount)) with amount by lia. rewrite Hd. split_and!; (done || lia).
Qed.

(** A key is passed once. *)
Lemma account_unique k a w a' w' :
  NoDup accounts.*1.*1 → (k, a, w) ∈ accounts → (k, a', w') ∈ accounts → a = a' ∧ w = w'.
Proof using.
  intros Hnd [i Hi]%list_elem_of_lookup [j Hj]%list_elem_of_lookup.
  assert (i = j) as ->; [|by simplify_eq].
  apply (NoDup_lookup _ _ _ k Hnd); rewrite !list_lookup_fmap; [by rewrite Hi|by rewrite Hj].
Qed.

Lemma in_use a t :
  TokenAccount_unpack (acc_data a) = Ok t → ta_state t ≠ Uninitialized → token_in_use a = true.
Proof using.
  intros Ht Hs. unfold token_in_use. rewrite Ht, (bool_decide_eq_false_2 (ta_state t = _)) by done.
  rewrite bool_decide_eq_false_2; [done|]. intros Hd. by rewrite Hd in Ht.
Qed.

Context (data : list Z).
Context (Hdata : Forall is_byte data) (Hord : orderly role tag accounts).
Context (Htyped : Forall (λ x, key_typed x.1.1 ∧ Forall is_byte (acc_data x.1.2)) accounts).

Lemma token_in_typed k a w t :
  (k, a, w) ∈ accounts → TokenAccount_unpack (acc_data a) = Ok t → token_typed t.
Proof using Htyped.
  intros Hin. eapply TokenAccount_unpack_typed. by destruct (proj1 (Forall_forall _ _) Htyped _ Hin).
Qed.

Lemma mint_in_typed k a w m :
  (k, a, w) ∈ accounts → Mint_unpack (acc_data a) = Ok m → mint_typed m.
Proof using Htyped.
  intros Hin. eapply Mint_unpack_typed. by destruct (proj1 (Forall_forall _ _) Htyped _ Hin).
Qed.

Lemma key_in_typed k : k ∈ accounts.*1.*1 → key_typed k.
Proof using Htyped.
  intros (p & -> & (x & -> & Hx)%list_elem_of_fmap)%list_elem_of_fmap.
  by destruct (proj1 (Forall_forall _ _) Htyped _ Hx).
Qed.

Lemma role_of i k a w r : has_role role accounts i r → accounts !! i = Some (k, a, w) → role k = r.
Proof using. intros H Hi. by apply (H _ Hi). Qed.

Lemma op_writable modified k a' :
  token_op tag data accounts modified → modified !! k = Some a' → ∃ a, (k, a, true) ∈ accounts.
Proof using.
  intros Hop Hk.
  destruct Hop; try done;
    repeat match goal with
    | H : <[_ := _]> _ !! _ = Some _ |- _ => apply lookup_insert_Some in H as [[<- _]|[_ H]]
    | H : {[_ := _]} !! _ = Some _ |- _ => apply lookup_singleton_Some in H as [<- _]
    end;
    match goal with H : accounts = _ |- _ => rewrite H end; eexists;
    first [ by apply (list_elem_of_lookup_2 _ 0) | by apply (list_elem_of_lookup_2 _ 1) ].
Qed.

(** [k] is the key of the account at position [i]. *)
Lemma same_account i k a w a0 w0 :
  accounts !! i = Some (k, a0, w0) → (k, a, w) ∈ accounts → a = a0.
Proof using Hord.
  intros Hi Hin. apply list_elem_of_lookup_2 in Hi.
  by apply (account_unique k a w a0 w0 (or_distinct _ _ _ Hord)).
Qed.

Lemma amount_nonneg : (9 <= length data)%nat → 0 <= instruction_amount data.
Proof using Hdata. intros Hl. by destruct (amount_typed data Hdata Hl). Qed.

Lemma authority_third y1 y2 x xa xw rest :
  tag ≠ 5 → accounts = y1 :: y2 :: (x, xa, xw) :: rest → authority = Some x.
Proof using. intros Htag Hacc. unfold authority. by rewrite (proj2 (Z.eqb_neq _ _) Htag), Hacc. Qed.

(** The account was packed again from an authorised record. *)
Definition repacked (t : TokenAccount) (a' : Account) : Prop :=
  ∃ t', TokenAccount_unpack (acc_data a') = Ok t' ∧ token_authorized t t'.

Lemma repack t a t' : token_typed t' → token_authorized t t' → repacked t (with_bytes a (TokenAccount_pack t')).
Proof using. intros Ht' Hau. exists t'. split; [by apply packed_token|done]. Qed.

Lemma received_authorized t amount :
  0 <= amount → token_typed t → ta_state t ≠ Frozen → ta_amount t + amount <= u64_max →
  token_typed (with_amount t (ta_amount t + amount)) ∧ token_authorized t (with_amount t (ta_amount t + amount)).
Proof using.
  intros Ha Ht Hf Hmax. pose proof (tt_amount t Ht) as [? ?]. split.
  - apply with_amount_typed; [done|unfold is_u64; lia].
  - split; cbn; try done; lia.
Qed.

Lemma spent_authorized t x amount :
  0 <= amount → token_typed t → authority = Some x → may_spend t x = true → amount <= ta_amount t →
  token_typed (use_delegate (with_amount t (ta_amount t - amount)) x amount)
  ∧ token_authorized t (use_delegate (with_amount t (ta_amount t - amount)) x amount).
Proof using.
  intros Ha Ht Hx Hmay Hle. pose proof (tt_amount t Ht) as [? ?]. split.
  - apply use_delegate_typed; [apply with_amount_typed; [done|unfold is_u64; lia]|done].
  - by apply use_delegate_authorized.
Qed.

Lemma delegated_authorized t delegate amount :
  token_typed t → authority = Some (ta_owner t) → (∀ d, delegate = Some d → d ∈ accounts.*1.*1) →
  is_u64 amount →
  token_typed (with_delegate t delegate amount) ∧ token_authorized t (with_delegate t delegate amount).
Proof using Htyped.
  intros Ht Hx Hd Ha. split.
  - apply with_delegate_typed; [done| |done]. intros d Hd'. apply key_in_typed. by apply Hd.
  - split; cbn; try done; try lia. by left.
Qed.

Lemma op_token_authorized modified k a w t a' :
  token_op tag data accounts modified → (k, a, w) ∈ accounts → role k = TokenRole →
  TokenAccount_unpack (acc_data a) = Ok t → ta_state t ≠ Uninitialized → modified !! k = Some a' →
  acc_data a' = [] ∧ ta_amount t = 0 ∧ authority = Some (default (ta_owner t) (ta_close_authority t))
  ∨ repacked t a'.
Proof using All.
  intros Hop Hin Hk Ht Hst Hmod. pose proof (token_in_typed k a w t Hin Ht) as Htt.
  pose proof (in_use a t Ht Hst) as Huse.
  assert (Hsame : ∀ i a0 w0, accounts !! i = Some (k, a0, w0) → a0 = a).
  { intros i a0 w0 Hi. symmetry. by eapply same_account. }
  destruct Hop as [ | k0 a0 rest Hacc | k0 a0 rest freeze Htag Hacc Hu Hl Hf
    | k0 a0 mint ma mw rest owner Htag Hacc Hu Ho | k0 a0 rest ms Htag Hacc
    | ks sa kd da x xa xw rest s d amount Htag Hacc H9 Hamt Hs Hd Hm Hmay Hfs Hfd Hle Hmax
    | k0 a0 rest t0 x delegate amount Htag Hacc Hx Ht0 Hown Hdel Ham
    | km ma kd da x xa xw rest m d amount Htag Hacc H9 Hamt Hm Hd Hau Hdm Hfr Hs1 Hs2
    | k0 a0 km ma x xa xw rest t0 m amount Htag Hacc H9 Hamt Ht0 Hm Hmay Hkm Hle1 Hle2
    | k0 a0 kd da x xa xw rest t0 lam Htag Hacc Ht0 Hcl Hz Hlam Hmax
    | k0 a0 km ma mw x xa xw rest t0 m st Htag Hacc Ht0 Hm Hfr Hkm ]; [done|..];
    repeat match goal with
    | H : <[_ := _]> _ !! _ = Some _ |- _ => apply lookup_insert_Some in H as [[-> <-]|[_ H]]
    | H : {[_ := _]} !! _ = Some _ |- _ => apply lookup_singleton_Some in H as [-> <-]
    end.
  - right. exists t. rewrite (Hsame 0%nat a0 true) by by rewrite Hacc. split; [done|apply token_unchanged].
  - assert (role k = MintRole); [|congruence].
    eapply (role_of 0); [apply (or_mint _ _ _ Hord); tags|by rewrite Hacc].
  - assert (token_in_use a0 = false) as Hfree.
    { destruct (decide (tag = 1)); [by apply Hu|].
      apply (or_fresh _ _ _ Hord) with (x := (k, a0, true)); [tags|by rewrite Hacc]. }
    rewrite (Hsame 0%nat a0 true) in Hfree by by rewrite Hacc. congruence.
  - assert (role k = OtherRole); [|congruence].
    eapply (role_of 0); [by apply (or_multisig _ _ _ Hord)|by rewrite Hacc].
  - right. rewrite (Hsame 1%nat da true) in Hd by by rewrite Hacc. assert (d = t) as -> by congruence. subst amount.
    destruct (received_authorized t (instruction_amount data)); [by apply amount_nonneg|done..|by apply repack].
  - right. rewrite (Hsame 0%nat sa true) in Hs by by rewrite Hacc. assert (s = t) as -> by congruence. subst amount.
    destruct (spent_authorized t x (instruction_amount data)); [by apply amount_nonneg|done| |done|done|by apply repack].
    eapply authority_third; [tags|done].
  - right. rewrite (Hsame 0%nat a0 true) in Ht0 by by rewrite Hacc. assert (t0 = t) as -> by congruence.
    destruct (delegated_authorized t delegate amount); [done|by rewrite Hown| | |by apply repack].
    + intros d Hd. rewrite Hacc. right. by apply Hdel.
    + destruct Ham as [->|[? ->]]; [done|by apply amount_typed].
  - right. rewrite (Hsame 1%nat da true) in Hd by by rewrite Hacc. assert (d = t) as -> by congruence. subst amount.
    destruct (received_authorized t (instruction_amount data)); [by apply amount_nonneg|done..|by apply repack].
  - assert (role k = MintRole); [|congruence].
    eapply (role_of 0); [apply (or_mint _ _ _ Hord); tags|by rewrite Hacc].
  - assert (role k = MintRole); [|congruence].
    eapply (role_of 1); [apply (or_second_mint _ _ _ Hord); tags|by rewrite Hacc].
  - right. rewrite (Hsame 0%nat a0 true) in Ht0 by by rewrite Hacc. assert (t0 = t) as -> by congruence. subst amount.
    destruct (spent_authorized t x (instruction_amount data)); [by apply amount_nonneg|done| |done|done|by apply repack].
    eapply authority_third; [tags|done].
  - right. exists t. cbn. rewrite (Hsame 1%nat da true) by by rewrite Hacc. split; [done|apply token_unchanged].
  - left. rewrite (Hsame 0%nat a0 true) in Ht0 by by rewrite Hacc. assert (t0 = t) as -> by congruence.
    split_and!; [done|done|]. rewrite Hcl. eapply authority_third; [lia|done].
  - right. rewrite (Hsame 0%nat a0 true) in Ht0 by by rewrite Hacc. assert (t0 = t) as -> by congruence.
    apply repack; [by apply with_state_typed|]. split; cbn; try done; try lia. intros _.
    exists x, ma, mw, m. split_and!; [|rewrite Hacc; set_solver|done|done].
    eapply authority_third; [lia|done].
Qed.

Lemma repacked_mint k m a supply :
  mint_typed m → is_u64 supply → mint_authorized k m (with_supply m supply) →
  ∃ m', Mint_unpack (acc_data (with_bytes a (Mint_pack (with_supply m supply)))) = Ok m' ∧ mint_authorized k m m'.
Proof using.
  intros Hm Hs Hau. eexists. split; [|done]. apply Mint_unpack_pack. by apply with_supply_typed.
Qed.

Lemma op_mint_authorized modified k a w m a' :
  token_op tag data accounts modified → (k, a, w) ∈ accounts → role k = MintRole →
  Mint_unpack (acc_data a) = Ok m → mint_is_initialized m = true → modified !! k = Some a' →
  ∃ m', Mint_unpack (acc_data a') = Ok m' ∧ mint_authorized k m m'.
Proof using All.
  intros Hop Hin Hk Hm Hi Hmod. pose proof (mint_in_typed k a w m Hin Hm) as Hmt.
  pose proof (mt_supply m Hmt) as [? ?].
  assert (Hsame : ∀ i a0 w0, accounts !! i = Some (k, a0, w0) → a0 = a).
  { intros i a0 w0 Hi'. symmetry. by eapply same_account. }
  assert (Hnot0 : ∀ a0 w0 rest, tag ∈ [1; 3; 4; 5; 8; 9; 10; 11; 12; 13; 15; 16; 18] → accounts ≠ (k, a0, w0) :: rest).
  { intros a0 w0 rest Htag Hacc. assert (role k = TokenRole); [|congruence].
    eapply (role_of 0); [by apply (or_token _ _ _ Hord)|by rewrite Hacc]. }
  assert (Hnot1 : ∀ y a0 w0 rest, tag ∈ [3; 7; 12; 14] → accounts ≠ y :: (k, a0, w0) :: rest).
  { intros y a0 w0 rest Htag Hacc. assert (role k = TokenRole); [|congruence].
    eapply (role_of 1); [by apply (or_dest _ _ _ Hord)|by rewrite Hacc]. }
  destruct Hop as [ | k0 a0 rest Hacc | k0 a0 rest freeze Htag Hacc Hu Hl Hf
    | | k0 a0 rest ms Htag Hacc | | 
    | km ma kd da x xa xw rest m0 d amount Htag Hacc H9 Hamt Hm0 Hd Hau Hdm Hfr Hs1 Hs2
    | k0 a0 km ma x xa xw rest t0 m0 amount Htag Hacc H9 Hamt Ht0 Hm0 Hmay Hkm Hle1 Hle2
    | k0 a0 kd da x xa xw rest t0 lam Htag Hacc Ht0 Hcl Hz Hlam Hmax | ]; [done|..];
    repeat match goal with
    | H : <[_ := _]> _ !! _ = Some _ |- _ => apply lookup_insert_Some in H as [[-> <-]|[_ H]]
    | H : {[_ := _]} !! _ = Some _ |- _ => apply lookup_singleton_Some in H as [-> <-]
    end; 
    try (match goal with
         | H : accounts = (k, ?a0, ?w0) :: ?rest |- _ => destruct (Hnot0 a0 w0 rest); [tags|exact H]
         | H : accounts = ?y :: (k, ?a0, ?w0) :: ?rest |- _ => destruct (Hnot1 y a0 w0 rest); [tags|exact H]
         end).
  - exists m. rewrite (Hsame 0%nat a0 true) by by rewrite Hacc. split; [done|apply mint_unchanged].
  - rewrite (Hsame 0%nat a0 true) in Hu by by rewrite Hacc. unfold mint_in_use in Hu. rewrite Hm, Hi in Hu.
    rewrite bool_decide_eq_false_2 in Hu; [done|]. intros Hd. by rewrite Hd in Hm.
  - assert (role k = OtherRole); [|congruence].
    eapply (role_of 0); [by apply (or_multisig _ _ _ Hord)|by rewrite Hacc].
  - rewrite (Hsame 0%nat ma true) in Hm0 by by rewrite Hacc. assert (m0 = m) as -> by congruence. subst amount.
    pose proof (amount_nonneg H9). apply repacked_mint; [done|unfold is_u64; lia|].
    split; cbn [with_supply mint_supply]; [done| |lia]. intros _. rewrite Hau. eapply authority_third; [tags|done].
  - rewrite (Hsame 1%nat ma true) in Hm0 by by rewrite Hacc. assert (m0 = m) as -> by congruence. subst amount.
    pose proof (amount_nonneg H9). apply repacked_mint; [done|unfold is_u64; lia|].
    split; cbn [with_supply mint_supply]; [done|lia|]. intros _. exists x, k0, a0, true, t0.
    split_and!; [eapply authority_third; [tags|done]|rewrite Hacc; set_solver|done|done|by apply may_spend_true].
  - exists m. cbn. rewrite (Hsame 1%nat da true) by by rewrite Hacc. split; [done|apply mint_unchanged].
Qed.
End authority.

(** The context is in the ranges of its types. *)
Record context_typed (context : ExecutionContext) : Prop := {
  ctx_data : Forall is_byte (ec_instruction_data context);
  ctx_accounts : Forall (λ x, key_typed x.1.1 ∧ Forall is_byte (acc_data x.1.2)) (ec_accounts context);
}.

(** C30. What an accepted orderly instruction can do.  Authority is by name: "names" says that
    a key is listed in the position of the authority; the program never looks at the
    signers of the context, so a key may be named without its signature.  An instruction is orderly when its accounts are distinct and
    of the kind it is meant for.  It modifies only writable accounts it was given.  A token
    account in use keeps its mint, its owner and its close authority; its balance falls only
    if the instruction names its owner or its delegate, and rises only if it is not frozen.
    Its delegation changes in any way, up, down or removed, only if the instruction names its
    owner, or names its delegate and lowers the delegated amount by what it takes from the
    balance, down to none and to no delegate.  Only an instruction that names the freeze
    authority of its mint changes its state, and it is closed only when empty and when its
    close authority, or its owner if there is none, is named.  A mint in use keeps all but its
    supply, which rises only if its mint authority is named and falls only if the owner or
    the delegate of an account of the mint is. *)
Theorem token_changes_name_authority (role : Pubkey → Role) (base_cost : Z) (context : ExecutionContext)
  (o : ExecutionOutcome) :
  let tag := instruction_tag (ec_instruction_data context) in
  let accounts := ec_accounts context in
  context_typed context → orderly role tag accounts →
  TokenProgram_execute base_cost context = Done (Ok o) →
  (∀ k a', eo_modified_accounts o !! k = Some a' → ∃ a, (k, a, true) ∈ accounts)
  ∧ (∀ k a w t a', (k, a, w) ∈ accounts → role k = TokenRole → TokenAccount_unpack (acc_data a) = Ok t →
       ta_state t ≠ Uninitialized → eo_modified_accounts o !! k = Some a' →
       acc_data a' = [] ∧ ta_amount t = 0
         ∧ authority tag accounts = Some (default (ta_owner t) (ta_close_authority t))
       ∨ ∃ t', TokenAccount_unpack (acc_data a') = Ok t' ∧ token_authorized tag accounts t t')
  ∧ (∀ k a w m a', (k, a, w) ∈ accounts → role k = MintRole → Mint_unpack (acc_data a) = Ok m →
       mint_is_initialized m = true → eo_modified_accounts o !! k = Some a' →
       ∃ m', Mint_unpack (acc_data a') = Ok m' ∧ mint_authorized tag accounts k m m').
Proof.
  intros tag accounts [Hdata Hacc] Hord Hrun. apply execute_refines in Hrun. split_and!.
  - intros k a'. exact (op_writable tag accounts _ _ k a' Hrun).
  - intros k a w t a'. exact (op_token_authorized role tag accounts _ Hdata Hord Hacc _ k a w t a' Hrun).
  - intros k a w m a'. exact (op_mint_authorized role tag accounts _ Hdata Hord Hacc _ k a w m a' Hrun).
Qed.

(** ** Examples *)

(** Keys of one repeated byte, and accounts around a record. *)
Definition demo_key (b : Z) : Pubkey := replicate 32 b.
Definition mint_key := demo_key 1.
Definition alice_key := demo_key 2.
Definition bob_key := demo_key 3.
Definition owner_key := demo_key 4.
Definition other_key := demo_key 5.

Definition blank : Account := mkAccount (mkAccountMeta 1 TOKEN_PROGRAM_ID false 0) [].
Definition demo_mint (supply : Z) : Account :=
  with_bytes blank (Mint_pack (mkMint (Some owner_key) supply 6 true (Some owner_key))).
Definition demo_token (owner : Pubkey) (amount : Z) (state : AccountState) : TokenAccount :=
  mkTokenAccount mint_key owner amount None state None 0 None.
Definition demo_account (t : TokenAccount) : Account := with_bytes blank (TokenAccount_pack t).

Definition demo_role (k : Pubkey) : Role :=
  if decide (k = mint_key) then MintRole
  else if decide (k = alice_key ∨ k = bob_key) then TokenRole else OtherRole.

(** A mint of 100, all held by Alice. *)
Definition demo_ledger : gmap Pubkey Account :=
  <[mint_key := demo_mint 100]> (<[alice_key := demo_account (demo_token owner_key 100 Initialized)]>
    {[bob_key := demo_account (demo_token other_key 0 Initialized)]}).

(** Mints 5 to Alice, then sends 30 from Alice to Bob. *)
Definition demo_message : TransactionMessage :=
  mkTransactionMessage (mkMessageHeader 1 0 1)
    [owner_key; mint_key; alice_key; bob_key; TOKEN_PROGRAM_ID] (demo_key 0)
    [mkCompiledInstruction 4 [1; 2; 0] (7 :: to_le_bytes 8 5);
     mkCompiledInstruction 4 [2; 3; 0] (3 :: to_le_bytes 8 30)].

Definition no_others (context : ExecutionContext) : Outcome ExecutionOutcome := Panicked.
Definition no_heap_request (l : list (Pubkey * list Z)) : option Z := None.

Lemma demo_key_typed b : is_byte b → key_typed (demo_key b).
Proof. intros. split; [apply length_replicate|by apply Forall_replicate]. Qed.

Lemma demo_token_typed b amount state :
  is_byte b → is_u64 amount → token_typed (demo_token (demo_key b) amount state).
Proof. intros. split; try done; by apply demo_key_typed. Qed.

Lemma demo_ledger_sound : ledger_sound demo_role demo_ledger.
Proof.
  split.
  - intros k a Hk. unfold demo_ledger in Hk.
    apply lookup_insert_Some in Hk as [[<- <-]|[_ [[<- <-]|[_ [<- <-]%lookup_singleton_Some]]%lookup_insert_Some]].
    + apply account_ok_mint; [by vm_compute| |by intros]. split; [|done|done|]; intros ? [= <-]; by apply demo_key_typed.
    + apply account_ok_token; [by vm_compute|by apply demo_token_typed|by vm_compute].
    + apply account_ok_token; [by vm_compute|by apply demo_token_typed|by vm_compute].
  - intros mint Hm. unfold demo_role in Hm. case_decide; [|by case_decide]. subst. by vm_compute.
Qed.

Lemma resolved_keys message state s indices accounts :
  resolve_accounts message state s indices = Ok accounts →
  accounts.*1.*1 = omap (account_key message) indices.
Proof.
  revert accounts. induction indices as [|i rest IH]; cbn; intros accounts; [by intros [= <-]|].
  destruct (account_key message i) as [key|]; [|done].
  destruct (resolve_accounts _ _ _ _) as [l|]; [|done]. intros [= <-]. cbn. f_equal. by apply IH.
Qed.

Lemma has_role_keys role accounts i r :
  (∀ k, accounts.*1.*1 !! i = Some k → role k = r) → has_role role accounts i r.
Proof. intros H [[k a] w] Hx. apply H. by rewrite !list_lookup_fmap, Hx. Qed.

(** The instructions of [demo_message] and of the examples below are orderly. *)
Lemma demo_orderly tag accounts keys :
  accounts.*1.*1 = keys →
  (tag, keys) ∈ [(7, [mint_key; alice_key; owner_key]); (3, [alice_key; bob_key; owner_key])] →
  orderly demo_role tag accounts.
Proof.
  intros Hkeys Hin. apply elem_of_cons in Hin as [[= -> ->]|[[= -> ->]|[]%elem_of_nil]%elem_of_cons];
    (split; [rewrite Hkeys; by apply (bool_decide_unpack _); vm_compute|..]; intros Htag; try tags;
     apply has_role_keys; rewrite Hkeys; intros k [= <-]; by vm_compute).
Qed.

Lemma token_supply_is_conserved_witness :
  ∃ r, @process_transaction (token_programs no_others no_heap_request) 1400000 demo_message demo_ledger = Done r
       ∧ ledger_sound demo_role (overlay demo_ledger (tr_modified_accounts r)).
Proof.
  apply (token_supply_is_conserved no_others no_heap_request demo_role 1400000 demo_message demo_ledger).
  - exact demo_ledger_sound.
  - split; apply (bool_decide_unpack _); vm_compute; exact I.
  - repeat constructor.
  - intros s idx ci accounts _ Hci Hres%resolved_keys.
    destruct idx as [|[|idx]]; cbn in Hci; [injection Hci as <-|injection Hci as <-|done];
      (eapply demo_orderly; [exact Hres|]); [left|right; left].
Defined.

(** An instruction that nobody has signed. *)
Definition unsigned_context (data : list Z) (accounts : list (Pubkey * Account * bool)) : ExecutionContext :=
  mkExecutionContext TOKEN_PROGRAM_ID accounts data 1400000 DEFAULT_HEAP_SIZE None ∅.

Definition alice_account : Pubkey * Account * bool :=
  (alice_key, demo_account (demo_token owner_key 100 Initialized), true).
Definition bob_account : Pubkey * Account * bool :=
  (bob_key, demo_account (demo_token other_key 0 Initialized), true).
Definition wallet (k : Pubkey) : Pubkey * Account * bool := (k, Account_default, false).

Definition transfer_context : ExecutionContext :=
  unsigned_context (3 :: to_le_bytes 8 30) [alice_account; bob_account; wallet owner_key].

Definition transfer_outcome : ExecutionOutcome :=
  match TokenProgram_execute 300 transfer_context with
  | Done (Ok o) => o
  | _ => ExecutionOutcome_success 0
  end.

Lemma token_changes_name_authority_witness :
  TokenProgram_execute 300 transfer_context = Done (Ok transfer_outcome)
  ∧ ∀ k a', eo_modified_accounts transfer_outcome !! k = Some a' →
            ∃ a, (k, a, true) ∈ ec_accounts transfer_context.
Proof.
  split; [vm_compute; reflexivity|].
  apply (token_changes_name_authority demo_role 300 transfer_context transfer_outcome).
  - split; apply (bool_decide_unpack _); vm_compute; exact I.
  - eapply demo_orderly; [reflexivity|]. right; left.
  - vm_compute. reflexivity.
Defined.

(** The token account that an instruction leaves at a key. *)
Definition left_at (k : Pubkey) (context : ExecutionContext) : Outcome (option TokenAccount) :=
  r ← TokenProgram_execute 300 context;
  Done (match r with
        | Ok o => match eo_modified_accounts o !! k with
                  | Some a => match TokenAccount_unpack (acc_data a) with Ok t => Some t | Err _ => None end
                  | None => None
                  end
        | Err _ => None
        end).

(** What the missing checks allow, in instructions that nobody has signed.  A
    transfer of 100 from Alice to Alice leaves 200.  A delegate approved for 1 spends 100.
    A frozen account is burned from.  InitializeAccount2 gives an account in use to
    another owner and drops its balance.  TransferChecked with two accounts panics. *)
Theorem token_program_defects :
  left_at alice_key (unsigned_context (3 :: to_le_bytes 8 100)
    [alice_account; alice_account; wallet owner_key])
  = Done (Some (demo_token owner_key 200 Initialized))
  ∧ left_at bob_key (unsigned_context (3 :: to_le_bytes 8 100)
      [(alice_key, demo_account (with_delegate (demo_token owner_key 100 Initialized) (Some other_key) 1), true);
       bob_account; wallet other_key])
    = Done (Some (demo_token other_key 100 Initialized))
  ∧ left_at alice_key (unsigned_context (8 :: to_le_bytes 8 100)
      [(alice_key, demo_account (demo_token owner_key 100 Frozen), true);
       (mint_key, demo_mint 100, true); wallet owner_key])
    = Done (Some (demo_token owner_key 0 Frozen))
  ∧ left_at alice_key (unsigned_context (16 :: other_key) [alice_account; (mint_key, demo_mint 100, false)])
    = Done (Some (demo_token other_key 0 Initialized))
  ∧ left_at alice_key (unsigned_context (12 :: to_le_bytes 8 1 ++ [6]) [alice_account; bob_account]) = Panicked.
Proof. split_and!; vm_compute; reflexivity. Qed.
