(* ===== verification/SystemProgram.v ===== *)
(** * The system program

    [karstflow-sbpf/src/system_program.rs]: account creation, transfers, allocation, the
    variants with a seed, and durable nonce accounts.  An instruction returns the accounts
    it modified and its log lines, or an error string; as in [TokenProgram] each account is
    cloned out of the context, and the accounts are written in the order of the code, so
    that of two writes to one key the later one stands.

    SHA-256 and the base 58 display of a key are library code: they are the fields of the
    class [SystemEnv].  [std::str::from_utf8] is [utf8_valid].  In the release profile a
    plain [+=] or [-=] on a [u64] wraps. *)
From stdpp Require Import base tactics list gmap sets strings pretty.
From Stdlib Require Import ZArith Lia Ascii.
From S2P Require Import Prelude TxProcessor TokenProgram.
Local Open Scope Z_scope.
Local Open Scope rust_scope.

Class SystemEnv := {
  sha256 : list Z → list Z;
  pubkey_display : Pubkey → string;
}.

Inductive SystemProgramError :=
| AccountAlreadyInUse | ResultWithNegativeLamports | InvalidProgramId | InvalidAccountDataLength
| MaxSeedLengthExceeded | AddressWithSeedMismatch | NonceNoRecentBlockhashes
| NonceBlockhashNotExpired | NonceUnexpectedBlockhashValue.

Definition SystemProgramError_to_string (e : SystemProgramError) : string :=
  match e with
  | AccountAlreadyInUse => "Account already in use"
  | ResultWithNegativeLamports => "Result with negative lamports"
  | InvalidProgramId => "Invalid program ID"
  | InvalidAccountDataLength => "Invalid account data length"
  | MaxSeedLengthExceeded => "Max seed length exceeded"
  | AddressWithSeedMismatch => "Address with seed mismatch"
  | NonceNoRecentBlockhashes => "Nonce: no recent blockhashes"
  | NonceBlockhashNotExpired => "Nonce: blockhash not expired"
  | NonceUnexpectedBlockhashValue => "Nonce: unexpected blockhash value"
  end.

(** ** Strings *)

Definition string_of_bytes (l : list Z) : string :=
  String.concat "" ((λ b, String.String (ascii_of_N (Z.to_N b)) String.EmptyString) <$> l).

Definition continuation (b : Z) : bool := (0x80 <=? b) && (b <=? 0xBF).

(** The second byte that may follow the first byte of a sequence of three or four. *)
Definition second_byte (b0 b1 : Z) : bool :=
  (if b0 =? 0xE0 then 0xA0 <=? b1 else if b0 =? 0xF0 then 0x90 <=? b1 else 0x80 <=? b1)
  && (if b0 =? 0xED then b1 <=? 0x9F else if b0 =? 0xF4 then b1 <=? 0x8F else b1 <=? 0xBF).

(** [std::str::from_utf8(l).is_ok()] *)
Fixpoint utf8_valid (l : list Z) : bool :=
  match l with
  | [] => true
  | b0 :: l0 =>
      if b0 <? 0x80 then utf8_valid l0
      else
        match l0 with
        | [] => false
        | b1 :: l1 =>
            if (0xC2 <=? b0) && (b0 <=? 0xDF) then continuation b1 && utf8_valid l1
            else
              match l1 with
              | [] => false
              | b2 :: l2 =>
                  if (0xE0 <=? b0) && (b0 <=? 0xEF) then
                    second_byte b0 b1 && continuation b2 && utf8_valid l2
                  else
                    match l2 with
                    | [] => false
                    | b3 :: l3 =>
                        (0xF0 <=? b0) && (b0 <=? 0xF4) && second_byte b0 b1
                        && continuation b2 && continuation b3 && utf8_valid l3
                    end
              end
        end
  end.

(** ** Constants *)

Definition SYSTEM_PROGRAM_ID : Pubkey := replicate 32 0.
Definition SYSTEM_COMPUTE_COST_BASE : Z := 150.
Definition MAX_ACCOUNT_DATA_SIZE : Z := 10 * 1024 * 1024.
Definition MAX_SEED_LEN : Z := 32.
Notation NONCE_ACCOUNT_SIZE := (80)%nat (only parsing).
Definition NONCE_VERSION_LEGACY : Z := 0.
Definition NONCE_VERSION_CURRENT : Z := 1.
Definition NONCE_STATE_UNINITIALIZED : Z := 0.
Definition NONCE_STATE_INITIALIZED : Z := 1.
(** [b"DURABLE_NONCE"] *)
Definition DURABLE_NONCE_PREFIX : list Z := [68; 85; 82; 65; 66; 76; 69; 95; 78; 79; 78; 67; 69].
(** [b"ProgramDerivedAddress"] *)
Definition PDA_MARKER : list Z :=
  [80; 114; 111; 103; 114; 97; 109; 68; 101; 114; 105; 118; 101; 100; 65; 100; 100; 114; 101; 115; 115].
Definition CREATE_ACCOUNT_ALLOW_PREFUND : Pubkey :=
  [0x57; 0x32; 0x9a; 0x9e; 0x7c; 0x9b; 0x2b; 0x63; 0xa6; 0xee; 0x98; 0xb8; 0x4a; 0x21; 0x4e; 0xb2;
   0x16; 0xce; 0x9d; 0x43; 0x32; 0xb5; 0x8c; 0x1c; 0x9c; 0xa4; 0x56; 0x8b; 0xde; 0x3b; 0xa9; 0x14].

(** ** Nonce accounts *)

Inductive NonceVersionedState :=
| NonceUninitialized (version : Z)
| NonceInitialized (version : Z) (authority : Pubkey) (durable_nonce : list Z) (lamports_per_signature : Z).

Definition Nonce_deserialize (data : list Z) : result NonceVersionedState string :=
  ensure (8 <=? length data)%nat else "Nonce account data too short" in
  let version := from_le_bytes (bytes_at data 0 4) in
  ensure (version =? NONCE_VERSION_LEGACY) || (version =? NONCE_VERSION_CURRENT)
    else (String.append "Unknown nonce version: " (pretty version)) in
  let state_disc := from_le_bytes (bytes_at data 4 8) in
  if state_disc =? NONCE_STATE_UNINITIALIZED then Ok (NonceUninitialized version)
  else if state_disc =? NONCE_STATE_INITIALIZED then
    ensure (NONCE_ACCOUNT_SIZE <=? length data)%nat
      else "Nonce account data too short for initialized state" in
    Ok (NonceInitialized version (bytes_at data 8 40) (bytes_at data 40 72)
          (from_le_bytes (bytes_at data 72 80)))
  else Err (String.append "Unknown nonce state discriminant: " (pretty state_disc)).

Definition Nonce_serialize (s : NonceVersionedState) : list Z :=
  let buf := replicate NONCE_ACCOUNT_SIZE 0 in
  match s with
  | NonceUninitialized version =>
      write_at 4 (to_le_bytes 4 NONCE_STATE_UNINITIALIZED) (write_at 0 (to_le_bytes 4 version) buf)
  | NonceInitialized version authority durable_nonce lamports_per_signature =>
      let buf := write_at 0 (to_le_bytes 4 version) buf in
      let buf := write_at 4 (to_le_bytes 4 NONCE_STATE_INITIALIZED) buf in
      let buf := write_at 8 authority buf in
      let buf := write_at 40 durable_nonce buf in
      write_at 72 (to_le_bytes 8 lamports_per_signature) buf
  end.

Definition rent_exempt_minimum (lamports_per_byte_year : Z) (exemption_threshold : f64) (data_len : Z) : Z :=
  let account_storage := u64_saturating_add 128 data_len in
  let annual_cost := u64_saturating_mul lamports_per_byte_year account_storage in
  f64_to_u64 (f64_mul (f64_of_u64 annual_cost) exemption_threshold).

(** ** Reading instruction data

    The cursor is the data and an offset. *)

Definition cursor_take (data : list Z) (offset : Z) (len : Z) (field : string) : result (list Z * Z) string :=
  ensure offset + len <=? u64_max
    else (String.append "Instruction data offset overflow reading " field) in
  ensure offset + len <=? Z.of_nat (length data)
    else (String.append "Instruction data too short for " field) in
  Ok (bytes_at data (Z.to_nat offset) (Z.to_nat (offset + len)), offset + len).

Definition cursor_u64 (data : list Z) (offset : Z) (field : string) : result (Z * Z) string :=
  let? r := cursor_take data offset 8 field in Ok (from_le_bytes r.1, r.2).

Definition cursor_pubkey (data : list Z) (offset : Z) (field : string) : result (Pubkey * Z) string :=
  cursor_take data offset 32 field.

Definition cursor_seed (data : list Z) (offset : Z) (len : Z) : result (list Z * Z) string :=
  let? r := cursor_take data offset len "seed" in
  ensure utf8_valid r.1 else "Invalid UTF-8 in seed" in Ok r.

Definition with_owner (a : Account) (owner : Pubkey) : Account :=
  mkAccount (mkAccountMeta (am_lamports (acc_meta a)) owner (am_executable (acc_meta a))
               (am_rent_epoch (acc_meta a))) (acc_data a).

(** [data.resize(space, 0)] *)
Definition resize (space : nat) (data : list Z) : list Z :=
  take space data ++ replicate (space - length data) 0.

Definition lamports_of (a : Account) : Z := am_lamports (acc_meta a).
Definition owner_of (a : Account) : Pubkey := am_owner (acc_meta a).

(** [!account.data.is_empty() || account.meta.lamports > 0] *)
Definition account_in_use (a : Account) : bool :=
  negb (bool_decide (acc_data a = [])) || (0 <? lamports_of a).

Definition is_signer (context : ExecutionContext) (k : Pubkey) : bool := bool_decide (k ∈ ec_signers context).
Definition signers_known (context : ExecutionContext) : bool := negb (bool_decide (ec_signers context = ∅)).

(** [context.accounts.iter().any(|(pk, _, _)| pk == k)] *)
Definition in_accounts (context : ExecutionContext) (k : Pubkey) : bool :=
  existsb (λ x, bool_decide (x.1.1 = k)) (ec_accounts context).

(** What an instruction has written and logged. *)
Notation Effects := (gmap Pubkey Account * list string)%type (only parsing).

Section instructions.
Context `{SystemEnv}.

(** [PubkeyError] is printed with [{:?}]. *)
Definition create_with_seed (base : Pubkey) (seed : list Z) (owner : Pubkey) : result Pubkey string :=
  ensure Z.of_nat (length seed) <=? MAX_SEED_LEN else "MaxSeedLengthExceeded" in
  ensure negb (((11 + length PDA_MARKER <=? length owner)%nat)
               && bool_decide (bytes_at owner 11 (11 + length PDA_MARKER) = PDA_MARKER))
    else "IllegalOwner" in
  Ok (sha256 (base ++ seed ++ owner)).

Definition derive_address (base : Pubkey) (seed : list Z) (owner : Pubkey) : result Pubkey string :=
  map_err (String.append "Failed to derive address: ") (create_with_seed base seed owner).

Definition derive_durable_nonce (blockhash : list Z) : list Z := sha256 (DURABLE_NONCE_PREFIX ++ blockhash).

Definition execute_create_account (context : ExecutionContext) : result Effects string :=
  let data := ec_instruction_data context in
  match ec_accounts context with
  | (from_pubkey, from_account, from_writable) :: (to_pubkey, to_account, to_writable) :: _ =>
      ensure (52 <=? length data)%nat else "CreateAccount instruction data too short" in
      let lamports := from_le_bytes (bytes_at data 4 12) in
      let space := from_le_bytes (bytes_at data 12 20) in
      let owner := bytes_at data 20 52 in
      ensure space <=? MAX_ACCOUNT_DATA_SIZE else SystemProgramError_to_string InvalidAccountDataLength in
      ensure from_writable && to_writable else "CreateAccount requires writable accounts" in
      ensure negb (signers_known context) || is_signer context from_pubkey
        else "CreateAccount: from account must be a signer" in
      ensure negb (signers_known context) || is_signer context to_pubkey
        else "CreateAccount: to account must be a signer" in
      ensure negb (account_in_use to_account) else SystemProgramError_to_string AccountAlreadyInUse in
      ensure lamports <=? lamports_of from_account
        else SystemProgramError_to_string ResultWithNegativeLamports in
      let from_account := with_lamports from_account (u64_saturating_sub (lamports_of from_account) lamports) in
      let to_account := with_bytes (with_owner (with_lamports to_account lamports) owner)
                          (replicate (Z.to_nat space) 0) in
      Ok (<[to_pubkey := to_account]> {[from_pubkey := from_account]}, ["System: CreateAccount"])
  | _ => Err "CreateAccount requires at least 2 accounts"
  end.

Definition prefund_active (context : ExecutionContext) : bool :=
  match ec_sysvar_snapshot context with
  | Some s => bool_decide (CREATE_ACCOUNT_ALLOW_PREFUND ∈ ss_active_features s)
  | None => false
  end.

Definition execute_create_account_allow_prefund (context : ExecutionContext) : result Effects string :=
  let data := ec_instruction_data context in
  ensure prefund_active context
    else "CreateAccountAllowPrefund instruction not available: feature gate not active" in
  ensure (52 <=? length data)%nat else "CreateAccountAllowPrefund instruction data too short" in
  let lamports := from_le_bytes (bytes_at data 4 12) in
  let space := from_le_bytes (bytes_at data 12 20) in
  let owner := bytes_at data 20 52 in
  ensure space <=? MAX_ACCOUNT_DATA_SIZE else SystemProgramError_to_string InvalidAccountDataLength in
  let log := ["System: CreateAccountAllowPrefund"] in
  match ec_accounts context with
  | (to_pubkey, to_account, to_writable) :: rest =>
      ensure to_writable else "CreateAccountAllowPrefund requires writable new account" in
      ensure negb (signers_known context) || is_signer context to_pubkey
        else "CreateAccountAllowPrefund: new account must be a signer" in
      ensure bool_decide (acc_data to_account = []) && bool_decide (owner_of to_account = SYSTEM_PROGRAM_ID)
        else SystemProgramError_to_string AccountAlreadyInUse in
      let to_account := with_bytes (with_owner to_account owner) (replicate (Z.to_nat space) 0) in
      if 0 <? lamports then
        match rest with
        | (from_pubkey, from_account, from_writable) :: _ =>
            ensure from_writable else "CreateAccountAllowPrefund requires writable funding account" in
            ensure lamports <=? lamports_of from_account
              else SystemProgramError_to_string ResultWithNegativeLamports in
            let from_account := with_lamports from_account (u64_saturating_sub (lamports_of from_account) lamports) in
            let to_account := with_lamports to_account (u64_saturating_add (lamports_of to_account) lamports) in
            Ok (<[to_pubkey := to_account]> {[from_pubkey := from_account]}, log)
        | [] => Err "CreateAccountAllowPrefund requires a funding account"
        end
      else Ok ({[to_pubkey := to_account]}, log)
  | [] => Err "CreateAccountAllowPrefund requires at least 1 account"
  end.

Definition execute_assign (context : ExecutionContext) : result Effects string :=
  let data := ec_instruction_data context in
  match ec_accounts context with
  | (account_pubkey, account, writable) :: _ =>
      ensure (36 <=? length data)%nat else "Assign instruction data too short" in
      let owner := bytes_at data 4 36 in
      ensure writable else "Assign requires writable account" in
      ensure bool_decide (owner_of account = SYSTEM_PROGRAM_ID)
        else "Assign can only change owner of system-owned accounts" in
      if bool_decide (owner_of account = owner) then Ok (∅, ["System: Assign"])
      else Ok ({[account_pubkey := with_owner account owner]}, ["System: Assign"])
  | [] => Err "Assign requires at least 1 account"
  end.

Definition execute_transfer (context : ExecutionContext) : result Effects string :=
  let data := ec_instruction_data context in
  match ec_accounts context with
  | (from_pubkey, from_account, from_writable) :: (to_pubkey, to_account, to_writable) :: _ =>
      ensure (12 <=? length data)%nat else "Transfer instruction data too short" in
      let lamports := from_le_bytes (bytes_at data 4 12) in
      ensure from_writable else "Transfer requires writable source account" in
      ensure to_writable else "Transfer requires writable destination account" in
      ensure lamports <=? lamports_of from_account
        else SystemProgramError_to_string ResultWithNegativeLamports in
      if bool_decide (from_pubkey = to_pubkey) then Ok ({[from_pubkey := from_account]}, ["System: Transfer"])
      else
        let from_account := with_lamports from_account (u64_saturating_sub (lamports_of from_account) lamports) in
        let to_account := with_lamports to_account (u64_saturating_add (lamports_of to_account) lamports) in
        Ok (<[to_pubkey := to_account]> {[from_pubkey := from_account]}, ["System: Transfer"])
  | _ => Err "Transfer requires at least 2 accounts"
  end.

Definition execute_allocate (context : ExecutionContext) : result Effects string :=
  let data := ec_instruction_data context in
  match ec_accounts context with
  | (account_pubkey, account, writable) :: _ =>
      ensure (12 <=? length data)%nat else "Allocate instruction data too short" in
      let space := from_le_bytes (bytes_at data 4 12) in
      ensure space <=? MAX_ACCOUNT_DATA_SIZE else SystemProgramError_to_string InvalidAccountDataLength in
      ensure writable else "Allocate requires writable account" in
      ensure bool_decide (owner_of account = SYSTEM_PROGRAM_ID)
        else "Allocate can only allocate system-owned accounts" in
      ensure bool_decide (acc_data account = []) else SystemProgramError_to_string AccountAlreadyInUse in
      Ok ({[account_pubkey := with_bytes account (replicate (Z.to_nat space) 0)]}, ["System: Allocate"])
  | [] => Err "Allocate requires at least 1 account"
  end.

Definition execute_initialize_nonce_account (context : ExecutionContext) : result Effects string :=
  let data := ec_instruction_data context in
  match ec_accounts context with
  | (account_pubkey, account, writable) :: _ =>
      ensure (36 <=? length data)%nat else "InitializeNonceAccount instruction data too short" in
      let authority := bytes_at data 4 36 in
      ensure writable else "Initialize nonce account: account must be writable" in
      ensure bool_decide (owner_of account = SYSTEM_PROGRAM_ID)
        else "Nonce account must be owned by system program" in
      let account :=
        if (length (acc_data account) =? NONCE_ACCOUNT_SIZE)%nat then account
        else with_bytes account (replicate NONCE_ACCOUNT_SIZE 0) in
      let? current_state := Nonce_deserialize (acc_data account) in
      match current_state with
      | NonceInitialized _ _ _ _ => Err "Initialize nonce account: account state is invalid"
      | NonceUninitialized _ =>
          match ec_sysvar_snapshot context with
          | None => Err "Initialize nonce account: sysvar snapshot required"
          | Some snapshot =>
              ensure negb (bool_decide (ss_recent_blockhash snapshot = replicate 32 0))
                else SystemProgramError_to_string NonceNoRecentBlockhashes in
              let min_balance := rent_exempt_minimum (ss_lamports_per_byte_year snapshot)
                                   (ss_exemption_threshold snapshot) 80 in
              ensure min_balance <=? lamports_of account
                else (String.append "Initialize nonce account: insufficient lamports "
                        (String.append (pretty (lamports_of account))
                           (String.append ", need " (pretty min_balance)))) in
              let new_state := NonceInitialized NONCE_VERSION_CURRENT authority
                                 (derive_durable_nonce (ss_recent_blockhash snapshot))
                                 (ss_lamports_per_signature snapshot) in
              Ok ({[account_pubkey := with_bytes account (Nonce_serialize new_state)]},
                  ["System: InitializeNonceAccount";
                   String.append "Initialized nonce account with authority " (pubkey_display authority)])
          end
      end
  | [] => Err "InitializeNonceAccount requires at least 1 account"
  end.

Definition execute_advance_nonce_account (context : ExecutionContext) : result Effects string :=
  match ec_accounts context with
  | (account_pubkey, account, writable) :: _ =>
      ensure writable else "Advance nonce account: account must be writable" in
      let? current_state := Nonce_deserialize (acc_data account) in
      match current_state with
      | NonceUninitialized _ => Err "Advance nonce account: account state is invalid"
      | NonceInitialized _ authority durable_nonce _ =>
          ensure in_accounts context authority else "Advance nonce account: authority must be a signer" in
          match ec_sysvar_snapshot context with
          | None => Err "Advance nonce account: sysvar snapshot required"
          | Some snapshot =>
              ensure negb (bool_decide (ss_recent_blockhash snapshot = replicate 32 0))
                else SystemProgramError_to_string NonceNoRecentBlockhashes in
              let next_durable_nonce := derive_durable_nonce (ss_recent_blockhash snapshot) in
              ensure negb (bool_decide (durable_nonce = next_durable_nonce))
                else SystemProgramError_to_string NonceBlockhashNotExpired in
              let new_state := NonceInitialized NONCE_VERSION_CURRENT authority next_durable_nonce
                                 (ss_lamports_per_signature snapshot) in
              Ok ({[account_pubkey := with_bytes account (Nonce_serialize new_state)]},
                  ["System: AdvanceNonceAccount"; "Advanced nonce account"])
          end
      end
  | [] => Err "AdvanceNonceAccount requires at least 1 account"
  end.

Definition insufficient_withdrawal (has needs : Z) : string :=
  String.append "Withdraw nonce account: insufficient lamports "
    (String.append (pretty has) (String.append ", need " (pretty needs))).

(** The [match] on the state of the nonce account: the account, reset when it is closed, and
    the key that has to sign. *)
Definition withdraw_check (context : ExecutionContext) (from_pubkey : Pubkey) (from_account : Account)
  (requested_lamports : Z) (current_state : NonceVersionedState) : result (Account * Pubkey) string :=
  match current_state with
  | NonceUninitialized _ =>
      ensure requested_lamports <=? lamports_of from_account
        else insufficient_withdrawal (lamports_of from_account) requested_lamports in
      Ok (from_account, from_pubkey)
  | NonceInitialized _ authority durable_nonce _ =>
      match ec_sysvar_snapshot context with
      | None => Err "Withdraw nonce account: sysvar snapshot required"
      | Some snapshot =>
          if requested_lamports =? lamports_of from_account then
            ensure negb (bool_decide (durable_nonce = derive_durable_nonce (ss_recent_blockhash snapshot)))
              else SystemProgramError_to_string NonceBlockhashNotExpired in
            Ok (with_bytes from_account (Nonce_serialize (NonceUninitialized NONCE_VERSION_CURRENT)), authority)
          else
            let min_balance := rent_exempt_minimum (ss_lamports_per_byte_year snapshot)
                                 (ss_exemption_threshold snapshot) (Z.of_nat (length (acc_data from_account))) in
            match u64_checked_add requested_lamports min_balance with
            | None => Err "Withdraw nonce account: overflow computing required balance"
            | Some required =>
                ensure required <=? lamports_of from_account
                  else insufficient_withdrawal (lamports_of from_account) required in
                Ok (from_account, authority)
            end
      end
  end.

Definition execute_withdraw_nonce_account (context : ExecutionContext) : result Effects string :=
  let data := ec_instruction_data context in
  match ec_accounts context with
  | (from_pubkey, from_account, from_writable) :: (to_pubkey, to_account, _) :: _ =>
      ensure (12 <=? length data)%nat else "WithdrawNonceAccount instruction data too short" in
      let requested_lamports := from_le_bytes (bytes_at data 4 12) in
      ensure from_writable else "Withdraw nonce account: account must be writable" in
      let? current_state := Nonce_deserialize (acc_data from_account) in
      let? checked := withdraw_check context from_pubkey from_account requested_lamports current_state in
      let from_account := checked.1 in
      let signer := checked.2 in
      ensure in_accounts context signer else "Withdraw nonce account: required signer missing" in
      let from_account := with_lamports from_account
                            (u64_saturating_sub (lamports_of from_account) requested_lamports) in
      let to_account := with_lamports to_account
                          (u64_saturating_add (lamports_of to_account) requested_lamports) in
      Ok (<[to_pubkey := to_account]> {[from_pubkey := from_account]},
          ["System: WithdrawNonceAccount";
           String.append "Withdrew " (String.append (pretty requested_lamports) " lamports from nonce account")])
  | _ => Err "WithdrawNonceAccount requires at least 2 accounts"
  end.

Definition execute_authorize_nonce_account (context : ExecutionContext) : result Effects string :=
  let data := ec_instruction_data context in
  match ec_accounts context with
  | (account_pubkey, account, writable) :: _ =>
      ensure (36 <=? length data)%nat else "AuthorizeNonceAccount instruction data too short" in
      let new_authority := bytes_at data 4 36 in
      ensure writable else "Authorize nonce account: account must be writable" in
      let? current_state := Nonce_deserialize (acc_data account) in
      match current_state with
      | NonceUninitialized _ => Err "Authorize nonce account: account state is invalid"
      | NonceInitialized version authority durable_nonce lamports_per_signature =>
          ensure in_accounts context authority else "Authorize nonce account: authority must sign" in
          let new_state := NonceInitialized version new_authority durable_nonce lamports_per_signature in
          Ok ({[account_pubkey := with_bytes account (Nonce_serialize new_state)]},
              ["System: AuthorizeNonceAccount";
               String.append "Changed nonce account authority to " (pubkey_display new_authority)])
      end
  | [] => Err "AuthorizeNonceAccount requires at least 1 account"
  end.

Definition execute_upgrade_nonce_account (context : ExecutionContext) : result Effects string :=
  match ec_accounts context with
  | (account_pubkey, account, writable) :: _ =>
      ensure bool_decide (owner_of account = SYSTEM_PROGRAM_ID)
        else "Upgrade nonce account: invalid account owner" in
      ensure writable else "Upgrade nonce account: account must be writable" in
      let? current_state := Nonce_deserialize (acc_data account) in
      match current_state with
      | NonceInitialized version authority durable_nonce lamports_per_signature =>
          ensure version =? NONCE_VERSION_LEGACY else "Upgrade nonce account: not a legacy account" in
          let new_state := NonceInitialized NONCE_VERSION_CURRENT authority
                             (derive_durable_nonce durable_nonce) lamports_per_signature in
          Ok ({[account_pubkey := with_bytes account (Nonce_serialize new_state)]},
              ["System: UpgradeNonceAccount";
               String.append "Upgraded nonce account " (pubkey_display account_pubkey)])
      | NonceUninitialized _ => Err "Upgrade nonce account: account state is invalid"
      end
  | [] => Err "UpgradeNonceAccount requires at least 1 account"
  end.

Definition execute_create_account_with_seed (context : ExecutionContext) : result Effects string :=
  let data := ec_instruction_data context in
  match ec_accounts context with
  | (from_pubkey, from_account, _) :: (to_pubkey, to_account, _) :: _ =>
      ensure (44 <=? length data)%nat else "CreateAccountWithSeed instruction data too short" in
      let base := bytes_at data 4 36 in
      let seed_len := from_le_bytes (bytes_at data 36 44) in
      ensure seed_len <=? MAX_SEED_LEN else SystemProgramError_to_string MaxSeedLengthExceeded in
      let n := Z.to_nat seed_len in
      ensure (44 + n + 32 + 8 + 8 <=? length data)%nat
        else "CreateAccountWithSeed instruction data too short for seed" in
      let seed := bytes_at data 44 (44 + n) in
      ensure utf8_valid seed else "Invalid UTF-8 in seed" in
      let owner := bytes_at data (44 + n) (76 + n) in
      let lamports := from_le_bytes (bytes_at data (76 + n) (84 + n)) in
      let space := from_le_bytes (bytes_at data (84 + n) (92 + n)) in
      let? derived_address := derive_address base seed owner in
      ensure bool_decide (to_pubkey = derived_address)
        else SystemProgramError_to_string AddressWithSeedMismatch in
      ensure negb (account_in_use to_account) else SystemProgramError_to_string AccountAlreadyInUse in
      ensure space <=? MAX_ACCOUNT_DATA_SIZE else SystemProgramError_to_string InvalidAccountDataLength in
      ensure lamports <=? lamports_of from_account
        else SystemProgramError_to_string ResultWithNegativeLamports in
      let new_from := with_lamports from_account (u64_sub (lamports_of from_account) lamports) in
      let new_to := with_bytes (with_owner (with_lamports to_account lamports) owner)
                      (resize (Z.to_nat space) (acc_data to_account)) in
      Ok (<[to_pubkey := new_to]> {[from_pubkey := new_from]},
          ["System: CreateAccountWithSeed";
           String.concat "" ["Created account "; pubkey_display to_pubkey; " with seed '"; string_of_bytes seed;
                             "' (owner: "; pubkey_display owner; ", lamports: "; pretty lamports;
                             ", space: "; pretty space; ")"]])
  | _ => Err "CreateAccountWithSeed requires at least 2 accounts"
  end.

Definition execute_allocate_with_seed (context : ExecutionContext) : result Effects string :=
  let data := ec_instruction_data context in
  match ec_accounts context with
  | (account_pubkey, account, _) :: _ =>
      ensure (44 <=? length data)%nat else "AllocateWithSeed instruction data too short" in
      let? base := cursor_pubkey data 4 "base pubkey" in
      let? seed_len := cursor_u64 data base.2 "seed length" in
      ensure seed_len.1 <=? MAX_SEED_LEN else SystemProgramError_to_string MaxSeedLengthExceeded in
      let? seed := cursor_seed data seed_len.2 seed_len.1 in
      let? space := cursor_u64 data seed.2 "space" in
      let? owner := cursor_pubkey data space.2 "owner" in
      let? derived := derive_address base.1 seed.1 owner.1 in
      ensure bool_decide (account_pubkey = derived) else SystemProgramError_to_string AddressWithSeedMismatch in
      ensure negb (account_in_use account) else SystemProgramError_to_string AccountAlreadyInUse in
      ensure space.1 <=? MAX_ACCOUNT_DATA_SIZE else SystemProgramError_to_string InvalidAccountDataLength in
      Ok ({[account_pubkey := with_bytes account (resize (Z.to_nat space.1) (acc_data account))]},
          ["System: AllocateWithSeed";
           String.concat "" ["Allocated "; pretty space.1; " bytes for account "; pubkey_display account_pubkey]])
  | [] => Err "AllocateWithSeed requires at least 1 account"
  end.

Definition execute_assign_with_seed (context : ExecutionContext) : result Effects string :=
  let data := ec_instruction_data context in
  match ec_accounts context with
  | (account_pubkey, account, _) :: _ =>
      let? base := cursor_pubkey data 4 "base pubkey" in
      let? seed_len := cursor_u64 data base.2 "seed length" in
      ensure seed_len.1 <=? MAX_SEED_LEN else SystemProgramError_to_string MaxSeedLengthExceeded in
      let? seed := cursor_seed data seed_len.2 seed_len.1 in
      let? owner_to_assign := cursor_pubkey data seed.2 "owner to assign" in
      let? derived := derive_address base.1 seed.1 owner_to_assign.1 in
      ensure bool_decide (account_pubkey = derived) else SystemProgramError_to_string AddressWithSeedMismatch in
      Ok ({[account_pubkey := with_owner account owner_to_assign.1]},
          ["System: AssignWithSeed";
           String.concat "" ["Assigned account "; pubkey_display account_pubkey; " to owner ";
                             pubkey_display owner_to_assign.1]])
  | [] => Err "AssignWithSeed requires at least 1 account"
  end.

Definition execute_transfer_with_seed (context : ExecutionContext) : result Effects string :=
  let data := ec_instruction_data context in
  match ec_accounts context with
  | (from_pubkey, from_account, _) :: (to_pubkey, to_account, _) :: _ =>
      let? lamports := cursor_u64 data 4 "lamports" in
      let? seed_len := cursor_u64 data lamports.2 "seed length" in
      ensure seed_len.1 <=? MAX_SEED_LEN else SystemProgramError_to_string MaxSeedLengthExceeded in
      let? seed := cursor_seed data seed_len.2 seed_len.1 in
      let? from_owner := cursor_pubkey data seed.2 "from owner" in
      ensure bool_decide (owner_of from_account = from_owner.1) else "From account owner mismatch" in
      ensure lamports.1 <=? lamports_of from_account
        else SystemProgramError_to_string ResultWithNegativeLamports in
      let logs := ["System: TransferWithSeed";
                   String.concat "" ["Transferred "; pretty lamports.1; " lamports from ";
                                     pubkey_display from_pubkey; " to "; pubkey_display to_pubkey]] in
      if bool_decide (from_pubkey = to_pubkey) then Ok ({[from_pubkey := from_account]}, logs)
      else
        let new_from := with_lamports from_account (u64_sub (lamports_of from_account) lamports.1) in
        let new_to := with_lamports to_account (u64_add (lamports_of to_account) lamports.1) in
        Ok (<[to_pubkey := new_to]> {[from_pubkey := new_from]}, logs)
  | _ => Err "TransferWithSeed requires at least 2 accounts"
  end.

(** [execute]: dispatch on the first four bytes. *)
Definition SystemProgram_execute (context : ExecutionContext) : result ExecutionOutcome string :=
  let data := ec_instruction_data context in
  if (length data =? 0)%nat then Ok (ExecutionOutcome_success SYSTEM_COMPUTE_COST_BASE)
  else
    ensure (4 <=? length data)%nat else "Instruction data too short" in
    let instruction_type := from_le_bytes (bytes_at data 0 4) in
    let op n := instruction_type =? n in
    let? r :=
      if op 0 then execute_create_account context
      else if op 1 then execute_assign context
      else if op 2 then execute_transfer context
      else if op 8 then execute_allocate context
      else if op 6 then execute_initialize_nonce_account context
      else if op 4 then execute_advance_nonce_account context
      else if op 5 then execute_withdraw_nonce_account context
      else if op 7 then execute_authorize_nonce_account context
      else if op 3 then execute_create_account_with_seed context
      else if op 9 then execute_allocate_with_seed context
      else if op 10 then execute_assign_with_seed context
      else if op 11 then execute_transfer_with_seed context
      else if op 12 then execute_upgrade_nonce_account context
      else if op 13 then execute_create_account_allow_prefund context
      else Err "Unknown instruction type" in
    Ok (mkExecutionOutcome true SYSTEM_COMPUTE_COST_BASE r.1 r.2 None).

(** The system program's branch of [execute_instruction]; the other programs are [others]. *)
Definition route_system (others : ExecutionContext → Outcome ExecutionOutcome)
  (context : ExecutionContext) : Outcome ExecutionOutcome :=
  if bool_decide (ec_program_id context = SYSTEM_PROGRAM_ID) then
    Done (match SystemProgram_execute context with
          | Ok o => o
          | Err err => ExecutionOutcome_failure SYSTEM_COMPUTE_COST_BASE err
          end)
  else others context.
End instructions.
