(* ===== verification/Lamports.v ===== *)
(** * Lamports across programs

    What the instructions of [karstflow-sbpf/src/system_program.rs] and
    [token_program.rs] do to the lamports of the ledger.  [settles] is the contract of a
    program: an accepted instruction writes at most two of its accounts, and either moves
    an amount from one to the other or leaves both as rich as they were.  [Settling] is
    the class of the programs that keep it; the system program and the token program are
    instances, and any processor built from such programs conserves the lamports of the
    ledger ([lamports_are_conserved]).  The accounts that an instruction debits and
    credits have to be distinct: where the code does not see to it itself, the examples of
    [lamports_out_of_nothing] show what happens otherwise. *)
From stdpp Require Import base tactics list gmap sets strings.
From Stdlib Require Import ZArith Lia.
From S2P Require Import Prelude TxProcessor TokenProgram TokenLayout TokenLedger SystemProgram.
Local Open Scope Z_scope.

#[local] Opaque Mint_pack TokenAccount_pack Multisig_pack Nonce_serialize.

(** ** The lamports of a ledger *)

Definition lamports_total (s : gmap Pubkey Account) : Z := map_fold (λ _ a z, lamports_of a + z) 0 s.

(** Balances are [u64], and so is their sum. *)
Record funded (s : gmap Pubkey Account) : Prop := {
  funded_nonneg : ∀ k a, s !! k = Some a → 0 <= lamports_of a;
  funded_total : lamports_total s <= u64_max;
}.

Lemma total_fresh s k a : s !! k = None → lamports_total (<[k := a]> s) = lamports_of a + lamports_total s.
Proof. intros Hs. unfold lamports_total. rewrite map_fold_insert_L; [done|intros; lia|done]. Qed.

Lemma total_insert s k a :
  lamports_total (<[k := a]> s) = lamports_total s - lamports_of (account_at s k) + lamports_of a.
Proof.
  unfold account_at. destruct (s !! k) as [a0|] eqn:Hk; simpl.
  - rewrite <- (insert_delete_id s k a0 Hk) at 2. rewrite <- (insert_delete_eq s k a).
    rewrite !total_fresh by apply lookup_delete_eq. lia.
  - rewrite total_fresh by done. change (lamports_of Account_default) with 0. lia.
Qed.

Lemma account_at_insert_eq s k a : account_at (<[k := a]> s) k = a.
Proof. unfold account_at. by rewrite lookup_insert_eq. Qed.

Lemma account_at_insert_ne s k k' a : k ≠ k' → account_at (<[k := a]> s) k' = account_at s k'.
Proof. intros. unfold account_at. by rewrite lookup_insert_ne. Qed.

Lemma account_at_nonneg s k : funded s → 0 <= lamports_of (account_at s k).
Proof.
  intros [Hn _]. unfold account_at. destruct (s !! k) as [a|] eqn:Hk; simpl; [by eapply Hn|]. done.
Qed.

Lemma total_nonneg s : (∀ k a, s !! k = Some a → 0 <= lamports_of a) → 0 <= lamports_total s.
Proof.
  induction s as [|k a s Hk IH] using map_ind; intros Hn; [done|].
  rewrite total_fresh by done. specialize (Hn k a) as Ha. rewrite lookup_insert_eq in Ha.
  specialize (Ha eq_refl). enough (0 <= lamports_total s) by lia. apply IH. intros k' a' Hk'.
  apply (Hn k'). rewrite lookup_insert_ne; [done|congruence].
Qed.

(** Two accounts hold no more than the ledger. *)
Lemma pair_fits s k k' :
  funded s → k ≠ k' → lamports_of (account_at s k) + lamports_of (account_at s k') <= u64_max.
Proof.
  intros Hf Hne. etrans; [|apply (funded_total _ Hf)].
  set (s' := <[k' := Account_default]> (<[k := Account_default]> s)).
  assert (Hs' : lamports_total s' = lamports_total s - lamports_of (account_at s k) - lamports_of (account_at s k')).
  { subst s'. rewrite !total_insert, account_at_insert_ne by done.
    change (lamports_of Account_default) with 0. lia. }
  assert (0 <= lamports_total s'); [|lia]. apply total_nonneg. intros k0 a0.
  intros [[<- <-]|[_ [[<- <-]|[_ H]]%lookup_insert_Some]]%lookup_insert_Some; [done..|].
  by apply (funded_nonneg _ Hf k0).
Qed.

(** ** The contract of an instruction *)

Section contract.
Context (accounts : list (Pubkey * Account * bool)).

Inductive settles : gmap Pubkey Account → Prop :=
| settle_none : settles ∅
| settle_one k a w a' :
    (k, a, w) ∈ accounts → lamports_of a' = lamports_of a → settles {[k := a']}
| settle_two kf af wf kt at_ wt amount af' at' :
    (kf, af, wf) ∈ accounts → (kt, at_, wt) ∈ accounts →
    kf ≠ kt ∨ amount = 0 → 0 <= amount <= lamports_of af →
    lamports_of af' = lamports_of af - amount → lamports_of at' = lamports_of at_ + amount →
    settles (<[kt := at']> {[kf := af']}).

(** The accounts of an instruction are those of the ledger. *)
Definition agrees (s : gmap Pubkey Account) : Prop := Forall (λ x, account_at s x.1.1 = x.1.2) accounts.

Lemma agrees_at s k a w : agrees s → (k, a, w) ∈ accounts → account_at s k = a.
Proof using. intros H Hin. unfold agrees in H. rewrite Forall_forall in H. by apply (H (k, a, w)). Qed.

Lemma funded_insert s k a : funded s → 0 <= lamports_of a → lamports_total (<[k := a]> s) <= u64_max →
  funded (<[k := a]> s).
Proof using.
  intros [Hn _] Ha Ht. split; [|done]. intros k' a' [[<- <-]|[_ H]]%lookup_insert_Some; [done|by eapply Hn].
Qed.

(** An instruction that keeps the contract conserves the lamports. *)
Lemma settles_conserves s m :
  funded s → agrees s → settles m → funded (m ∪ s) ∧ lamports_total (m ∪ s) = lamports_total s.
Proof using.
  intros Hf Ha Hm. pose proof (funded_total _ Hf) as Hmax. destruct Hm as [|k a w a' Hin E|kf af wf kt at_ wt amount af' at' Hinf Hint Hor Hamt Ef' Et'].
  - by rewrite map_empty_union.
  - rewrite <- insert_empty, <- insert_union_l, map_empty_union.
    pose proof (account_at_nonneg s k Hf). rewrite (agrees_at _ _ _ _ Ha Hin) in *.
    assert (Ht : lamports_total (<[k := a']> s) = lamports_total s).
    { rewrite total_insert, (agrees_at _ _ _ _ Ha Hin). lia. }
    split; [|done]. apply funded_insert; [done|lia|lia].
  - rewrite <- insert_empty, <- !insert_union_l, map_empty_union.
    pose proof (account_at_nonneg s kf Hf). pose proof (account_at_nonneg s kt Hf).
    pose proof (agrees_at _ _ _ _ Ha Hinf) as Ef. pose proof (agrees_at _ _ _ _ Ha Hint) as Et.
    rewrite Ef, Et in *.
    assert (Ht : lamports_total (<[kt := at']> (<[kf := af']> s)) = lamports_total s).
    { rewrite !total_insert, Ef. destruct (decide (kf = kt)) as [<-|Hne].
      - rewrite Ef in Et. subst at_. rewrite account_at_insert_eq. destruct Hor as [?| ->]; [done|lia].
      - rewrite account_at_insert_ne, Et by done. lia. }
    split; [|done]. apply funded_insert; [|lia|lia].
    split; [|].
    + intros k' a' [[<- <-]|[_ Hk]]%lookup_insert_Some; [lia|by eapply funded_nonneg].
    + rewrite total_insert, Ef. lia.
Qed.
End contract.

(** The two parties of an instruction that relies on their being distinct: withdrawing from a
    nonce account, funding a new account, closing a token account. *)
Definition separate (context : ExecutionContext) : Prop :=
  let data := ec_instruction_data context in
  (ec_program_id context = SYSTEM_PROGRAM_ID ∧ from_le_bytes (bytes_at data 0 4) ∈ [5; 13]) ∨
  (ec_program_id context = TOKEN_PROGRAM_ID ∧ instruction_tag data = 9) →
  ∀ x y rest, ec_accounts context = x :: y :: rest → x.1.1 ≠ y.1.1.

(** What one program promises to the processor. *)
Class Settling (program : ExecutionContext → Outcome ExecutionOutcome) : Prop :=
  settling context o s :
    funded s → agrees (ec_accounts context) s → Forall is_byte (ec_instruction_data context) →
    separate context → program context = Done o →
    settles (ec_accounts context) (eo_modified_accounts o).

(** ** The system program *)

(** Splits an instruction into its guards. *)
Ltac open_instruction H :=
  repeat (cbn beta iota zeta in H; simplify_eq; lazymatch type of H with
    | (match ?x with _ => _ end) = Ok _ => destruct x eqn:? in H; try discriminate H
    end); guard_facts; cbn [fst].

Ltac in_list := match goal with E : ec_accounts _ = _ |- _ ∈ _ =>
  rewrite E; first [apply list_elem_of_here | apply list_elem_of_further, list_elem_of_here] end.

Section system.
Context `{SystemEnv}.
Context (context : ExecutionContext) (s : gmap Pubkey Account).
Context (Hfunded : funded s) (Hagrees : agrees (ec_accounts context) s).
Context (Hdata : Forall is_byte (ec_instruction_data context)).

Lemma rent_nonneg l t n : 0 <= rent_exempt_minimum l t n.
Proof using.
  unfold rent_exempt_minimum. generalize (f64_mul (f64_of_u64 (u64_saturating_mul l (u64_saturating_add 128 n))) t).
  intros [| [] | |[] m e]; cbn -[u64_max Z.pow]; try done. destruct (Z.leb_spec 0 e).
  - pose proof (Z.pow_nonneg 2 e). unfold u64_max. nia.
  - pose proof (Z.div_pos (Z.pos m) (2 ^ (- e))). pose proof (Z.pow_pos_nonneg 2 (- e)). unfold u64_max. lia.
Qed.

Lemma lamports_nonneg a b : 0 <= from_le_bytes (bytes_at (ec_instruction_data context) a b).
Proof using Hdata. apply from_le_bytes_bound. by apply Forall_take, Forall_drop. Qed.

Lemma party_nonneg k a w : (k, a, w) ∈ ec_accounts context → 0 <= lamports_of a.
Proof using Hfunded Hagrees.
  intros Hin. rewrite <- (agrees_at _ _ _ _ _ Hagrees Hin). by apply account_at_nonneg.
Qed.

Lemma parties_fit k a w k' a' w' :
  (k, a, w) ∈ ec_accounts context → (k', a', w') ∈ ec_accounts context → k ≠ k' →
  lamports_of a + lamports_of a' <= u64_max.
Proof using Hfunded Hagrees.
  intros Hin Hin' Hne. rewrite <- (agrees_at _ _ _ _ _ Hagrees Hin), <- (agrees_at _ _ _ _ _ Hagrees Hin').
  by apply pair_fits.
Qed.

Lemma same_party k a w a' w' :
  (k, a, w) ∈ ec_accounts context → (k, a', w') ∈ ec_accounts context → a = a'.
Proof using Hagrees.
  intros Hin Hin'. by rewrite <- (agrees_at _ _ _ _ _ Hagrees Hin), <- (agrees_at _ _ _ _ _ Hagrees Hin').
Qed.

(** A payment between two accounts of the instruction that are distinct. *)
Lemma settle_payment kf af wf kt at_ wt amount af' at' :
  (kf, af, wf) ∈ ec_accounts context → (kt, at_, wt) ∈ ec_accounts context → kf ≠ kt →
  0 <= amount <= lamports_of af →
  lamports_of af' = u64_saturating_sub (lamports_of af) amount ∨ lamports_of af' = u64_sub (lamports_of af) amount →
  lamports_of at' = u64_saturating_add (lamports_of at_) amount ∨ lamports_of at' = u64_add (lamports_of at_) amount →
  settles (ec_accounts context) (<[kt := at']> {[kf := af']}).
Proof using Hfunded Hagrees.
  intros Hinf Hint Hne Hamt Hf Ht. pose proof (parties_fit _ _ _ _ _ _ Hinf Hint Hne).
  pose proof (party_nonneg _ _ _ Hint). unfold u64_saturating_sub, u64_saturating_add, u64_sub, u64_add in *.
  rewrite wrap64_small in Hf by (unfold is_u64; lia). rewrite wrap64_small in Ht by (unfold is_u64; lia).
  eapply (settle_two _ kf af wf kt at_ wt amount); [done..|by left|done|lia|lia].
Qed.

(** Creating an account that is not in use, with the lamports of another. *)
Lemma settle_creation kf af wf kt at_ wt amount af' at' :
  (kf, af, wf) ∈ ec_accounts context → (kt, at_, wt) ∈ ec_accounts context →
  account_in_use at_ = false → 0 <= amount <= lamports_of af →
  lamports_of af' = u64_saturating_sub (lamports_of af) amount ∨ lamports_of af' = u64_sub (lamports_of af) amount →
  lamports_of at' = amount →
  settles (ec_accounts context) (<[kt := at']> {[kf := af']}).
Proof using Hfunded Hagrees.
  intros Hinf Hint Huse Hamt Hf Ht. pose proof (party_nonneg _ _ _ Hint) as Hn.
  unfold account_in_use in Huse. apply orb_false_iff in Huse as [_ Huse]. apply Z.ltb_ge in Huse.
  assert (Hmax : lamports_of af <= u64_max).
  { destruct (decide (kf = kt)) as [<-|Hne]; [rewrite (same_party _ _ _ _ _ Hinf Hint); unfold u64_max; lia|].
    pose proof (parties_fit _ _ _ _ _ _ Hinf Hint Hne). lia. }
  unfold u64_saturating_sub, u64_sub in Hf. rewrite wrap64_small in Hf by (unfold is_u64; lia).
  eapply (settle_two _ kf af wf kt at_ wt amount); [done..| |done|lia|lia].
  destruct (decide (kf = kt)) as [<-|Hne]; [right|by left]. rewrite (same_party _ _ _ _ _ Hinf Hint) in Hamt. lia.
Qed.

Lemma create_account_settles r :
  execute_create_account context = Ok r → settles (ec_accounts context) r.1.
Proof using Hfunded Hagrees Hdata.
  intros Hr. unfold execute_create_account in Hr. open_instruction Hr.
  pose proof (lamports_nonneg 4 12).
  eapply settle_creation; [in_list|in_list|done|split; [|done]; done|by left|done].
Qed.

Lemma transfer_settles r : execute_transfer context = Ok r → settles (ec_accounts context) r.1.
Proof using Hfunded Hagrees Hdata.
  intros Hr. unfold execute_transfer in Hr. open_instruction Hr.
  - eapply settle_one; [in_list|done].
  - pose proof (lamports_nonneg 4 12).
    eapply settle_payment; [in_list|in_list|done|split; [|done]; done|by left|by left].
Qed.

Lemma assign_settles r : execute_assign context = Ok r → settles (ec_accounts context) r.1.
Proof using.
  intros Hr. unfold execute_assign in Hr. open_instruction Hr; [apply settle_none|].
  eapply settle_one; [in_list|done].
Qed.

Lemma allocate_settles r : execute_allocate context = Ok r → settles (ec_accounts context) r.1.
Proof using.
  intros Hr. unfold execute_allocate in Hr. open_instruction Hr. eapply settle_one; [in_list|done].
Qed.
Lemma initialize_nonce_settles r :
  execute_initialize_nonce_account context = Ok r → settles (ec_accounts context) r.1.
Proof using.
  intros Hr. unfold execute_initialize_nonce_account in Hr. open_instruction Hr.
  eapply settle_one; [in_list|]. by destruct (_ =? 80)%nat.
Qed.

Lemma advance_nonce_settles r :
  execute_advance_nonce_account context = Ok r → settles (ec_accounts context) r.1.
Proof using.
  intros Hr. unfold execute_advance_nonce_account in Hr. open_instruction Hr. eapply settle_one; [in_list|done].
Qed.

Lemma authorize_nonce_settles r :
  execute_authorize_nonce_account context = Ok r → settles (ec_accounts context) r.1.
Proof using.
  intros Hr. unfold execute_authorize_nonce_account in Hr. open_instruction Hr. eapply settle_one; [in_list|done].
Qed.

Lemma upgrade_nonce_settles r :
  execute_upgrade_nonce_account context = Ok r → settles (ec_accounts context) r.1.
Proof using.
  intros Hr. unfold execute_upgrade_nonce_account in Hr. open_instruction Hr. eapply settle_one; [in_list|done].
Qed.

Lemma allocate_with_seed_settles r :
  execute_allocate_with_seed context = Ok r → settles (ec_accounts context) r.1.
Proof using.
  intros Hr. unfold execute_allocate_with_seed in Hr. open_instruction Hr. eapply settle_one; [in_list|done].
Qed.

Lemma assign_with_seed_settles r :
  execute_assign_with_seed context = Ok r → settles (ec_accounts context) r.1.
Proof using.
  intros Hr. unfold execute_assign_with_seed in Hr. open_instruction Hr. eapply settle_one; [in_list|done].
Qed.

Lemma create_with_seed_settles r :
  execute_create_account_with_seed context = Ok r → settles (ec_accounts context) r.1.
Proof using Hfunded Hagrees Hdata.
  intros Hr. unfold execute_create_account_with_seed in Hr. open_instruction Hr.
  eapply settle_creation; [in_list|in_list|done|split; [apply lamports_nonneg|done]|by right|done].
Qed.

Lemma cursor_u64_nonneg offset field x : cursor_u64 (ec_instruction_data context) offset field = Ok x → 0 <= x.1.
Proof using Hdata.
  unfold cursor_u64. intros Hx. open_instruction Hx. rename Heqr into Hx.
  unfold cursor_take in Hx. open_instruction Hx. apply lamports_nonneg.
Qed.

Lemma transfer_with_seed_settles r :
  execute_transfer_with_seed context = Ok r → settles (ec_accounts context) r.1.
Proof using Hfunded Hagrees Hdata.
  intros Hr. unfold execute_transfer_with_seed in Hr. open_instruction Hr.
  - eapply settle_one; [in_list|done].
  - eapply settle_payment; [in_list|in_list|done| |by right|by right].
    split; [by eapply cursor_u64_nonneg|done].
Qed.

(** The account to withdraw from is as rich as it was, and rich enough. *)
Lemma withdraw_check_lamports k a n st r :
  withdraw_check context k a n st = Ok r → lamports_of r.1 = lamports_of a ∧ n <= lamports_of a.
Proof using.
  intros Hr. unfold withdraw_check in Hr. open_instruction Hr; try (split; [done|lia]).
  split; [done|]. rename Heqo0 into Hadd. unfold u64_checked_add in Hadd.
  destruct (_ <=? u64_max) in Hadd; [|done]. injection Hadd as <-.
  match goal with Hle : _ + ?m <= _ |- _ => assert (0 <= m) by apply rent_nonneg; lia end.
Qed.

Lemma withdraw_nonce_settles r :
  execute_withdraw_nonce_account context = Ok r →
  (∀ x y rest, ec_accounts context = x :: y :: rest → x.1.1 ≠ y.1.1) →
  settles (ec_accounts context) r.1.
Proof using Hfunded Hagrees Hdata.
  intros Hr Hsep. unfold execute_withdraw_nonce_account in Hr. open_instruction Hr.
  match goal with E : withdraw_check _ _ _ _ _ = Ok _ |- _ => apply withdraw_check_lamports in E as [Elam Hle] end.
  eapply settle_payment; [in_list|in_list|by eapply (Hsep (_, _, _) (_, _, _))| | |by left].
  - split; [apply lamports_nonneg|exact Hle].
  - left. cbn. by rewrite <- Elam.
Qed.

Lemma prefund_settles r :
  execute_create_account_allow_prefund context = Ok r →
  (∀ x y rest, ec_accounts context = x :: y :: rest → x.1.1 ≠ y.1.1) →
  settles (ec_accounts context) r.1.
Proof using Hfunded Hagrees Hdata.
  intros Hr Hsep. unfold execute_create_account_allow_prefund in Hr. open_instruction Hr.
  - eapply settle_payment; [in_list|in_list| |split; [apply lamports_nonneg|done]|by left|by left].
    intros E. by eapply (Hsep (_, _, _) (_, _, _)).
  - eapply settle_one; [in_list|done].
Qed.

Lemma SystemProgram_settles o :
  SystemProgram_execute context = Ok o →
  (from_le_bytes (bytes_at (ec_instruction_data context) 0 4) ∈ [5; 13] →
   ∀ x y rest, ec_accounts context = x :: y :: rest → x.1.1 ≠ y.1.1) →
  settles (ec_accounts context) (eo_modified_accounts o).
Proof using Hfunded Hagrees Hdata.
  intros Ho Hsep. unfold SystemProgram_execute in Ho.
  destruct (_ =? 0)%nat in Ho; [injection Ho as <-; apply settle_none|].
  destruct (4 <=? _)%nat in Ho; [|done]. cbn zeta in Ho.
  set (tag := from_le_bytes _) in *.
  repeat match type of Ho with
  | context [if tag =? ?n then _ else _] => destruct (Z.eqb_spec tag n)
  end.
  all: repeat match type of Ho with
  | (match ?x with _ => _ end) = Ok _ => destruct x eqn:Hr in Ho; [injection Ho as <-|discriminate Ho]
  end; cbn [eo_modified_accounts].
  - by apply create_account_settles.
  - by apply assign_settles.
  - by apply transfer_settles.
  - by apply allocate_settles.
  - by apply initialize_nonce_settles.
  - by apply advance_nonce_settles.
  - apply withdraw_nonce_settles; [done|]. apply Hsep. tags.
  - by apply authorize_nonce_settles.
  - by apply create_with_seed_settles.
  - by apply allocate_with_seed_settles.
  - by apply assign_with_seed_settles.
  - by apply transfer_with_seed_settles.
  - by apply upgrade_nonce_settles.
  - apply prefund_settles; [done|]. apply Hsep. tags.
  - discriminate Ho.
Qed.
End system.

#[export] Instance route_system_settling `{SystemEnv} others : Settling others → Settling (route_system others).
Proof.
  intros Hothers context o s Hf Ha Hd Hsep. unfold route_system.
  destruct (decide (ec_program_id context = SYSTEM_PROGRAM_ID)) as [Hid|Hid].
  - rewrite bool_decide_eq_true_2 by done.
    destruct (SystemProgram_execute context) as [o'|err] eqn:E; intros [= <-]; [|apply settle_none].
    eapply SystemProgram_settles; [done..|]. intros Htag. apply Hsep. by left.
  - rewrite bool_decide_eq_false_2 by done. by eapply Hothers.
Qed.

(** ** The token program *)

Lemma settle_same accounts kf af wf kt at_ wt af' at' :
  (kf, af, wf) ∈ accounts → (kt, at_, wt) ∈ accounts → 0 <= lamports_of af →
  lamports_of af' = lamports_of af → lamports_of at' = lamports_of at_ →
  settles accounts (<[kt := at']> {[kf := af']}).
Proof.
  intros Hf Ht Hn Ef Et. eapply (settle_two _ kf af wf kt at_ wt 0); [done..|by right|lia|lia|lia].
Qed.

Lemma token_op_settles tag data accounts m :
  token_op tag data accounts m →
  (∀ k a w, (k, a, w) ∈ accounts → 0 <= lamports_of a) →
  (tag = 9 → ∀ x y rest, accounts = x :: y :: rest → x.1.1 ≠ y.1.1) →
  settles accounts m.
Proof.
  intros Hop Hn Hsep. destruct Hop; try subst accounts; try apply settle_none;
    try (eapply settle_one; [left|done]);
    try (eapply settle_same; [left|right; left|eapply Hn; left|done|done]).
  apply (settle_two _ k a true kd da true (lamports_of a)); [left|right; left| | | |].
  - left. by eapply (Hsep ltac:(done) (_, _, _) (_, _, _)).
  - split; [eapply Hn; left|done].
  - cbn. lia.
  - by subst.
Qed.

#[export] Instance route_token_settling others : Settling others → Settling (route_token others).
Proof.
  intros Hothers context o s Hf Ha Hd Hsep. unfold route_token.
  destruct (decide (ec_program_id context = TOKEN_PROGRAM_ID)) as [Hid|Hid].
  - rewrite bool_decide_eq_true_2 by done. intros ([o'|err] & E & [= <-])%bind_Done; [|apply settle_none].
    apply execute_refines in E. eapply token_op_settles; [exact E| |].
    + intros k a w Hin. rewrite <- (agrees_at _ _ _ _ _ Ha Hin). by apply account_at_nonneg.
    + intros Htag. apply Hsep. by right.
  - rewrite bool_decide_eq_false_2 by done. by eapply Hothers.
Qed.

(** ** Transactions *)

(** The processor with the system program, the token program and others. *)
Definition ledger_programs `{SystemEnv} (others : ExecutionContext → Outcome ExecutionOutcome)
  (heap : list (Pubkey * list Z) → option Z) : Programs :=
  {| execute_instruction := route_system (route_token others); requested_heap_size := heap |}.

(** The parties of the instructions of a message are distinct where it matters. *)
Definition separate_message (m : TransactionMessage) : Prop :=
  ∀ ci, ci ∈ tm_instructions m →
  (account_key m (ci_program_id_index ci) = Some SYSTEM_PROGRAM_ID
   ∧ from_le_bytes (bytes_at (ci_data ci) 0 4) ∈ [5; 13]) ∨
  (account_key m (ci_program_id_index ci) = Some TOKEN_PROGRAM_ID ∧ instruction_tag (ci_data ci) = 9) →
  ∀ i j rest, ci_accounts ci = i :: j :: rest → account_key m i ≠ account_key m j.

Lemma resolved_agree message state s indices accounts :
  resolve_accounts message state s indices = Ok accounts →
  agrees accounts (overlay state (ts_modified_accounts s)).
Proof.
  intros Hres%resolve_accounts_current. unfold agrees. eapply Forall_impl; [exact Hres|].
  intros x ->. symmetry. apply current_account_overlay.
Qed.

Lemma resolved_pair message state s indices x y rest :
  resolve_accounts message state s indices = Ok (x :: y :: rest) →
  ∃ i j rest', indices = i :: j :: rest' ∧ account_key message i = Some x.1.1 ∧ account_key message j = Some y.1.1.
Proof.
  destruct indices as [|i [|j rest']]; cbn; [done| |]; destruct (account_key message i) as [ki|] eqn:Hi; try done.
  destruct (account_key message j) as [kj|] eqn:Hj; [|done]. destruct (resolve_accounts _ _ _ _); [|done].
  intros [= <- <- <-]. by exists i, j, rest'.
Qed.

(** TransferChecked and ApproveChecked panic on exactly two accounts. *)
Definition no_short_checked (m : TransactionMessage) : Prop :=
  ∀ ci, ci ∈ tm_instructions m → account_key m (ci_program_id_index ci) = Some TOKEN_PROGRAM_ID →
  instruction_tag (ci_data ci) ∈ [12; 13] → length (ci_accounts ci) ≠ 2%nat.

Definition returns (program : ExecutionContext → Outcome ExecutionOutcome) : Prop :=
  ∀ context, ∃ o, program context = Done o.

Lemma route_total `{SystemEnv} others context :
  returns others →
  (ec_program_id context = TOKEN_PROGRAM_ID → instruction_tag (ec_instruction_data context) ∈ [12; 13] →
   length (ec_accounts context) ≠ 2%nat) →
  ∃ o, route_system (route_token others) context = Done o.
Proof.
  intros Ho Hlen. unfold route_system, route_token. case_bool_decide; [by eexists|].
  case_bool_decide; [|apply Ho]. destruct (execute_total 300 context) as [r ->]; [auto|]. by eexists.
Qed.

Lemma resolved_length message state s indices accounts :
  resolve_accounts message state s indices = Ok accounts → length accounts = length indices.
Proof.
  revert accounts. induction indices as [|i rest IH]; simpl; intros accounts; [by intros [= <-]|].
  destruct (account_key message i) as [key|]; [|done].
  destruct (resolve_accounts _ _ _ _) as [l|]; [|done]. intros [= <-]. cbn. f_equal. by apply IH.
Qed.

Section transactions.
Context `{SystemEnv} (others : ExecutionContext → Outcome ExecutionOutcome).
Context (heap : list (Pubkey * list Z) → option Z).
Local Instance lamport_programs : Programs := ledger_programs others heap.

(** C24. No transaction of system and token instructions makes or burns lamports: from a ledger
    whose balances fit in 64 bits, whatever instructions the message holds, the processor
    returns, and whether the transaction succeeds or stops at an error, the balances of the
    ledger it leaves add up to the same sum.  The other programs keep the same contract; the
    instructions that withdraw from a nonce account, fund a new account or close a token
    account name two distinct accounts; no TransferChecked or ApproveChecked names exactly
    two accounts. *)
Theorem lamports_are_conserved (max_compute_units : Z) (message : TransactionMessage)
  (state : gmap Pubkey Account) :
  Settling others → returns others → funded state →
  Forall (λ ci, Forall is_byte (ci_data ci)) (tm_instructions message) →
  separate_message message → no_short_checked message →
  ∃ r, process_transaction max_compute_units message state = Done r ∧
    lamports_total (overlay state (tr_modified_accounts r)) = lamports_total state.
Proof using.
  intros Hothers Hret Hf Hdata Hsep Hshort.
  enough (∃ r, process_transaction max_compute_units message state = Done r ∧
          (funded (overlay state (tr_modified_accounts r)) ∧
          lamports_total (overlay state (tr_modified_accounts r)) = lamports_total state)) by naive_solver.
  apply (process_transaction_invariant max_compute_units message state
    (λ l, funded l ∧ lamports_total l = lamports_total state)); [done|].
  intros s idx ci pid accounts _ Hci Hpid Hres [HI Htot].
  destruct (route_total others (instruction_context max_compute_units message s pid accounts (ci_data ci)))
    as [o Ho]; [done| |exists o; split; [exact Ho|]].
  { cbn. intros -> Htag. rewrite (resolved_length _ _ _ _ _ Hres).
    apply (Hshort ci); [by eapply list_elem_of_lookup_2|done|done]. }
  unfold overlay. rewrite <- (assoc_L (∪)).
  pose proof (resolved_agree _ _ _ _ _ Hres) as Hagree.
  assert (Hset : settles accounts (eo_modified_accounts o)).
  { eapply (settling (program := route_system (route_token others))
      (instruction_context max_compute_units message s pid accounts (ci_data ci)));
      [exact HI|exact Hagree|exact (Forall_lookup_1 _ _ _ _ Hdata Hci)| |exact Ho].
    intros Hrisk x y rest Hxy. cbn in Hxy. subst accounts.
    destruct (resolved_pair _ _ _ _ _ _ _ Hres) as (i & j & rest' & Hix & Hi & Hj).
    intros E. apply (Hsep ci) with (i := i) (j := j) (rest := rest'); [by eapply list_elem_of_lookup_2| |done|congruence].
    cbn in Hrisk. rewrite Hpid. naive_solver. }
  destruct (settles_conserves _ _ _ HI Hagree Hset) as [? E].
  split; [done|]. etrans; [exact E|exact Htot].
Qed.
End transactions.

(** ** Examples *)

(** A stand-in for the hash: any function to 32 bytes will do. *)
#[export] Instance demo_env : SystemEnv :=
  {| sha256 := λ l, to_le_bytes 32 (foldl (λ h b, (h * 257 + b + 1) mod 2 ^ 256) 7 l);
     pubkey_display := λ _, "key" |}.

Definition demo_wallet (lamports : Z) : Account := mkAccount (mkAccountMeta lamports SYSTEM_PROGRAM_ID false 0) [].

(** Programs that are not there: the instruction fails. *)
Definition refuse (context : ExecutionContext) : Outcome ExecutionOutcome :=
  Done (ExecutionOutcome_failure 0 "unsupported program").

#[export] Instance refuse_settling : Settling refuse.
Proof. intros context o s _ _ _ _ [= <-]. apply settle_none. Qed.

Definition payer_key : Pubkey := demo_key 11.
Definition payee_key : Pubkey := demo_key 12.
Definition fresh_key : Pubkey := demo_key 13.

Definition lamport_ledger : gmap Pubkey Account :=
  <[payer_key := demo_wallet 100]> {[payee_key := demo_wallet 5]}.

(** Sends 40 to the payee, and creates an account of 3 bytes with 25. *)
Definition lamport_message : TransactionMessage :=
  mkTransactionMessage (mkMessageHeader 2 0 1)
    [payer_key; fresh_key; payee_key; SYSTEM_PROGRAM_ID] (demo_key 0)
    [mkCompiledInstruction 3 [0; 2] ([2; 0; 0; 0] ++ to_le_bytes 8 40);
     mkCompiledInstruction 3 [0; 1] ([0; 0; 0; 0] ++ to_le_bytes 8 25 ++ to_le_bytes 8 3 ++ TOKEN_PROGRAM_ID)].

Definition lamport_result : TransactionResult :=
  match @process_transaction (ledger_programs refuse no_heap_request) 1400000 lamport_message lamport_ledger with
  | Done r => r
  | Panicked => mkTransactionResult false 0 ∅ [] None
  end.

Lemma lamports_are_conserved_witness :
  tr_success lamport_result = true ∧
  lamports_of <$> tr_modified_accounts lamport_result !! payer_key = Some 35 ∧
  lamports_total (overlay lamport_ledger (tr_modified_accounts lamport_result)) = lamports_total lamport_ledger.
Proof.
  split; [vm_compute; reflexivity|]. split; [vm_compute; reflexivity|].
  destruct (lamports_are_conserved refuse no_heap_request 1400000 lamport_message lamport_ledger) as (r & Hr & Htot).
  - apply refuse_settling.
  - intros context. by eexists.
  - split; [|vm_compute; discriminate]. unfold lamport_ledger.
    intros k a [[<- <-]|[_ [<- <-]%lookup_singleton_Some]]%lookup_insert_Some; vm_compute; discriminate.
  - apply (bool_decide_unpack _). vm_compute. exact I.
  - unfold separate_message, lamport_message. cbn [tm_instructions].
    intros ci [->|[->|[]%elem_of_nil]%elem_of_cons]%elem_of_cons [[_ Htag]|[_ Htag]];
      [|done| |done]; apply (bool_decide_pack _) in Htag; by vm_compute in Htag.
  - unfold no_short_checked, lamport_message. cbn [tm_instructions].
    by intros ci [->|[->|[]%elem_of_nil]%elem_of_cons]%elem_of_cons [=].
  - enough (lamport_result = r) as -> by exact Htot. unfold lamport_result.
    unfold lamport_programs in Hr. by rewrite Hr.
Defined.

Definition system_context (signers : gset Pubkey) (data : list Z) (accounts : list (Pubkey * Account * bool)) :
    ExecutionContext :=
  mkExecutionContext SYSTEM_PROGRAM_ID accounts data 1400000 DEFAULT_HEAP_SIZE
    (Some (mkSysvarSnapshot 0 (f64_of_u64 2) (demo_key 9) 5000 {[CREATE_ACCOUNT_ALLOW_PREFUND]})) signers.

(** The lamports that an instruction leaves at a key. *)
Definition lamports_left (k : Pubkey) (r : result ExecutionOutcome string) : option Z :=
  match r with
  | Ok o => lamports_of <$> eo_modified_accounts o !! k
  | Err _ => None
  end.

(** An account of another program with 80 zero bytes: it reads as a nonce account that is not
    initialized. *)
Definition zeroed_account : Account := mkAccount (mkAccountMeta 100 TOKEN_PROGRAM_ID false 0) (replicate 80 0).

(** What the missing checks of the system program allow.  A withdrawal from an account to itself
    doubles its 100 lamports, and so does funding a new account from itself; closing a token
    account into itself leaves twice its lamports.  An instruction signed by somebody else
    transfers the payer's lamports away, and empties an account that belongs to another
    program. *)
Theorem lamports_out_of_nothing :
  lamports_left payer_key
    (SystemProgram_execute (system_context ∅ ([5; 0; 0; 0] ++ to_le_bytes 8 100)
       [(payer_key, zeroed_account, true); (payer_key, zeroed_account, true)])) = Some 200 ∧
  lamports_left payer_key
    (SystemProgram_execute (system_context {[payer_key]}
       ([13; 0; 0; 0] ++ to_le_bytes 8 100 ++ to_le_bytes 8 0 ++ TOKEN_PROGRAM_ID)
       [(payer_key, demo_wallet 100, true); (payer_key, demo_wallet 100, true)])) = Some 200 ∧
  (r ← TokenProgram_execute 300 (unsigned_context [9]
     (let a := (alice_key, with_lamports (demo_account (demo_token owner_key 0 Initialized)) 100, true) in
      [a; a; wallet owner_key]));
   Done (lamports_left alice_key r)) = Done (Some 200) ∧
  lamports_left payee_key
    (SystemProgram_execute (system_context {[fresh_key]} ([2; 0; 0; 0] ++ to_le_bytes 8 60)
       [(payer_key, demo_wallet 100, true); (payee_key, demo_wallet 5, true)])) = Some 65 ∧
  lamports_left payee_key
    (SystemProgram_execute (system_context {[fresh_key]} ([5; 0; 0; 0] ++ to_le_bytes 8 100)
       [(payer_key, zeroed_account, true); (payee_key, demo_wallet 5, false)])) = Some 105.
Proof. split_and!; vm_compute; reflexivity. Qed.
