(* ===== verification/NonceAccounts.v ===== *)
(** * Durable nonces

    The nonce instructions of [karstflow-sbpf/src/system_program.rs] as a machine on the
    decoded state of the nonce account: [nonce_next] is what each instruction does to it,
    [nonce_instructions_refine] that the accepted instructions do exactly that to the bytes
    of the account, and [nonce_advances_once] that a nonce cannot be advanced twice under
    one blockhash.  The one thing assumed of SHA-256 is that a digest is 32 bytes. *)
From stdpp Require Import base tactics list gmap sets strings.
From Stdlib Require Import ZArith Lia.
From S2P Require Import Prelude TxProcessor TokenProgram TokenLayout TokenLedger SystemProgram Lamports.
Local Open Scope Z_scope.

(** ** The layout *)

Inductive nonce_typed : NonceVersionedState → Prop :=
| uninitialized_typed v :
    v = NONCE_VERSION_LEGACY ∨ v = NONCE_VERSION_CURRENT → nonce_typed (NonceUninitialized v)
| initialized_typed v authority nonce fee :
    v = NONCE_VERSION_LEGACY ∨ v = NONCE_VERSION_CURRENT →
    key_typed authority → key_typed nonce → is_u64 fee →
    nonce_typed (NonceInitialized v authority nonce fee).

Lemma version_known v :
  v = NONCE_VERSION_LEGACY ∨ v = NONCE_VERSION_CURRENT →
  is_u32 v ∧ (v =? NONCE_VERSION_LEGACY) || (v =? NONCE_VERSION_CURRENT) = true.
Proof. by intros [-> | ->]. Qed.

Lemma nonce_roundtrip st : nonce_typed st → Nonce_deserialize (Nonce_serialize st) = Ok st.
Proof.
  intros H. unfold Nonce_deserialize, Nonce_serialize.
  assert (H8 : ∀ d : list Z, length d = 80%nat → (8 <=? length d)%nat = true) by (intros d ->; done).
  assert (H80 : ∀ d : list Z, length d = 80%nat → (80 <=? length d)%nat = true) by (intros d ->; done).
  destruct H as [v Hv|v auth nonce fee Hv [Ha _] [Hn _] Hf]; destruct (version_known v Hv) as [Hu Hk];
    rewrite H8 by buf_len.
  - assert (Ev : ∀ d : list Z, bytes_at d 0 4 = to_le_bytes 4 v → from_le_bytes (bytes_at d 0 4) = v)
      by (intros d ->; by apply from_le_bytes_u32).
    rewrite !Ev by (buf_read; done). rewrite Hk. by buf_read.
  - assert (Ev : ∀ d : list Z, bytes_at d 0 4 = to_le_bytes 4 v → from_le_bytes (bytes_at d 0 4) = v)
      by (intros d ->; by apply from_le_bytes_u32).
    rewrite !Ev by (buf_read; done). rewrite Hk, H80 by buf_len. buf_read.
    change (from_le_bytes (to_le_bytes 4 NONCE_STATE_INITIALIZED)) with 1.
    change (1 =? NONCE_STATE_UNINITIALIZED) with false. change (1 =? NONCE_STATE_INITIALIZED) with true.
    by rewrite from_to_le_bytes_u64.
Qed.

Lemma nonce_deserialize_typed data st :
  Forall is_byte data → Nonce_deserialize data = Ok st → nonce_typed st.
Proof.
  intros Hd. unfold Nonce_deserialize. destruct (8 <=? length data)%nat eqn:H8; [|done]. cbn zeta.
  destruct (_ || _) eqn:Hv; [|done].
  assert (Hv' : from_le_bytes (bytes_at data 0 4) = NONCE_VERSION_LEGACY
                ∨ from_le_bytes (bytes_at data 0 4) = NONCE_VERSION_CURRENT).
  { apply orb_true_iff in Hv as [Hv|Hv]; apply Z.eqb_eq in Hv; auto. }
  destruct (_ =? NONCE_STATE_UNINITIALIZED); [intros [= <-]; by constructor|].
  destruct (_ =? NONCE_STATE_INITIALIZED); [|done].
  destruct (80 <=? length data)%nat eqn:H80; [|done]. apply Nat.leb_le in H80. intros [= <-].
  assert (Hb : ∀ a b, Forall is_byte (bytes_at data a b)) by (intros; by apply Forall_take, Forall_drop).
  constructor; [done|split; [|done]|split; [|done]|].
  - unfold bytes_at. rewrite length_take, length_drop. lia.
  - unfold bytes_at. rewrite length_take, length_drop. lia.
  - apply from_le_bytes_is_u64; [|done]. unfold bytes_at. rewrite length_take, length_drop. lia.
Qed.

#[local] Opaque Nonce_serialize.

(** ** The machine *)

Section machine.
Context `{SystemEnv}.

(** The next state of a nonce account under an instruction, if it is accepted. *)
Definition nonce_next (tag : Z) (data : list Z) (lamports : Z) (snapshot : option SysvarSnapshot)
  (st : NonceVersionedState) : option NonceVersionedState :=
  if tag =? 6 then
    match st, snapshot with
    | NonceUninitialized _, Some ss =>
        Some (NonceInitialized NONCE_VERSION_CURRENT (bytes_at data 4 36)
                (derive_durable_nonce (ss_recent_blockhash ss)) (ss_lamports_per_signature ss))
    | _, _ => None
    end
  else if tag =? 4 then
    match st, snapshot with
    | NonceInitialized _ authority nonce _, Some ss =>
        if decide (nonce = derive_durable_nonce (ss_recent_blockhash ss)) then None
        else Some (NonceInitialized NONCE_VERSION_CURRENT authority
                     (derive_durable_nonce (ss_recent_blockhash ss)) (ss_lamports_per_signature ss))
    | _, _ => None
    end
  else if tag =? 7 then
    match st with
    | NonceInitialized v _ nonce fee => Some (NonceInitialized v (bytes_at data 4 36) nonce fee)
    | NonceUninitialized _ => None
    end
  else if tag =? 12 then
    match st with
    | NonceInitialized v authority nonce fee =>
        if v =? NONCE_VERSION_LEGACY
        then Some (NonceInitialized NONCE_VERSION_CURRENT authority (derive_durable_nonce nonce) fee) else None
    | NonceUninitialized _ => None
    end
  else if tag =? 5 then
    match st, snapshot with
    | NonceUninitialized v, _ => Some (NonceUninitialized v)
    | NonceInitialized v authority nonce fee, Some ss =>
        if from_le_bytes (bytes_at data 4 12) =? lamports then
          if decide (nonce = derive_durable_nonce (ss_recent_blockhash ss)) then None
          else Some (NonceUninitialized NONCE_VERSION_CURRENT)
        else Some (NonceInitialized v authority nonce fee)
    | _, None => None
    end
  else None.

(** The state an instruction starts from: initializing an account of another size starts from zeroes. *)
Definition nonce_before (tag : Z) (a : Account) : result NonceVersionedState string :=
  if (tag =? 6) && negb (length (acc_data a) =? 80)%nat then Ok (NonceUninitialized NONCE_VERSION_LEGACY)
  else Nonce_deserialize (acc_data a).

(** What is known of an execution context. *)
Record nonce_context_typed (context : ExecutionContext) : Prop := {
  nct_data : Forall is_byte (ec_instruction_data context);
  nct_accounts : Forall (λ x, Forall is_byte (acc_data x.1.2)) (ec_accounts context);
  nct_fee : ∀ ss, ec_sysvar_snapshot context = Some ss → is_u64 (ss_lamports_per_signature ss);
}.

Definition digest_typed : Prop := ∀ message, key_typed (sha256 message).

Lemma nonce_next_typed tag data lamports snapshot st st' :
  digest_typed → Forall is_byte data → (tag ∈ [6; 7] → (36 <= length data)%nat) →
  (∀ ss, snapshot = Some ss → is_u64 (ss_lamports_per_signature ss)) →
  nonce_typed st → nonce_next tag data lamports snapshot st = Some st' → nonce_typed st'.
Proof.
  intros Hsha Hd Hlen Hfee Hst. unfold nonce_next.
  assert (Hkey : tag ∈ [6; 7] → key_typed (bytes_at data 4 36)).
  { intros Ht. split; [|by apply Forall_take, Forall_drop]. unfold bytes_at. rewrite length_take, length_drop.
    specialize (Hlen Ht). lia. }
  destruct (Z.eqb_spec tag 6) as [->|]; [|destruct (Z.eqb_spec tag 4) as [->|]; [|
    destruct (Z.eqb_spec tag 7) as [->|]; [|destruct (Z.eqb_spec tag 12) as [->|]; [|
      destruct (Z.eqb_spec tag 5) as [->|]; [|done]]]]];
    destruct Hst as [v Hv|v auth nonce fee Hv Ha Hn Hf]; try destruct snapshot as [ss|];
    repeat (case_decide || case_match); intros [= <-]; constructor; auto; try apply Hsha; try by right.
  all: apply Hkey; set_solver.
Qed.

(** ** Each instruction is a step *)

(** The authority of a state. *)
Definition nonce_authority (st : NonceVersionedState) : option Pubkey :=
  match st with
  | NonceInitialized _ authority _ _ => Some authority
  | NonceUninitialized _ => None
  end.

Definition nonce_effect (tag : Z) (context : ExecutionContext) (k : Pubkey) (a : Account)
  (m : gmap Pubkey Account) : Prop :=
  ∃ st st' a',
    nonce_before tag a = Ok st ∧
    nonce_next tag (ec_instruction_data context) (lamports_of a) (ec_sysvar_snapshot context) st = Some st' ∧
    m !! k = Some a' ∧
    (acc_data a' = Nonce_serialize st' ∨ acc_data a' = acc_data a ∧ st' = st ∧ tag = 5) ∧
    (tag ∈ [6; 7] → (36 <= length (ec_instruction_data context))%nat) ∧
    (tag ∈ [4; 5; 7] → ∀ authority, nonce_authority st = Some authority → authority ∈ (ec_accounts context).*1.*1).

Lemma in_accounts_keys context k : in_accounts context k = true → k ∈ (ec_accounts context).*1.*1.
Proof.
  unfold in_accounts. rewrite existsb_exists. intros (x & Hin%list_elem_of_In & Hx%bool_decide_eq_true).
  subst. by do 2 apply list_elem_of_fmap_2.
Qed.

Lemma nonce_next_withdraw data lamports snapshot st :
  nonce_next 5 data lamports snapshot st =
  match st, snapshot with
  | NonceUninitialized v, _ => Some (NonceUninitialized v)
  | NonceInitialized v authority nonce fee, Some ss =>
      if from_le_bytes (bytes_at data 4 12) =? lamports then
        if decide (nonce = derive_durable_nonce (ss_recent_blockhash ss)) then None
        else Some (NonceUninitialized NONCE_VERSION_CURRENT)
      else Some (NonceInitialized v authority nonce fee)
  | _, None => None
  end.
Proof. done. Qed.

Lemma withdraw_check_step context k a amount st a' signer :
  withdraw_check context k a amount st = Ok (a', signer) →
  amount = from_le_bytes (bytes_at (ec_instruction_data context) 4 12) →
  ∃ st', nonce_next 5 (ec_instruction_data context) (lamports_of a) (ec_sysvar_snapshot context) st = Some st' ∧
    (acc_data a' = Nonce_serialize st' ∨ acc_data a' = acc_data a ∧ st' = st) ∧
    ∀ authority, nonce_authority st = Some authority → signer = authority.
Proof.
  intros Hr ->. unfold withdraw_check in Hr. rewrite nonce_next_withdraw. destruct st as [v|v auth nonce fee].
  - open_instruction Hr. eexists. by split_and!; [|right|].
  - destruct (ec_sysvar_snapshot context) as [ss|]; [|done]. cbn iota in Hr.
    destruct (_ =? lamports_of a).
    + open_instruction Hr. rewrite decide_False by done. eexists. split_and!; [done|by left|by intros ? [= <-]].
    + open_instruction Hr. eexists. split_and!; [done|by right|by intros ? [= <-]].
Qed.

Section steps.
Context (context : ExecutionContext) (k : Pubkey) (a : Account) (w : bool) (rest : list (Pubkey * Account * bool)).
Context (Hacc : ec_accounts context = (k, a, w) :: rest).

Lemma initialize_nonce_step r :
  execute_initialize_nonce_account context = Ok r → nonce_effect 6 context k a r.1.
Proof using Hacc.
  intros Hr. unfold execute_initialize_nonce_account in Hr. rewrite Hacc in Hr. open_instruction Hr.
  match goal with E : Nonce_deserialize _ = Ok _, Es : ec_sysvar_snapshot _ = _ |- _ =>
    rename E into Hst; rename Es into Hss end.
  eexists _, _, _. split_and!; [| |apply lookup_singleton_eq|by left|done|intros; tags].
  - unfold nonce_before. cbn [Z.eqb andb]. destruct (length (acc_data a) =? 80)%nat; [exact Hst|]. done.
  - unfold nonce_next. by destruct (length (acc_data a) =? 80)%nat; rewrite Hss.
Qed.

Lemma advance_nonce_step r :
  execute_advance_nonce_account context = Ok r → nonce_effect 4 context k a r.1.
Proof using Hacc.
  intros Hr. unfold execute_advance_nonce_account in Hr. rewrite Hacc in Hr. open_instruction Hr.
  match goal with E : Nonce_deserialize _ = Ok _, Es : ec_sysvar_snapshot _ = _ |- _ =>
    rename E into Hst; rename Es into Hss end.
  eexists _, _, _. split_and!; [exact Hst| |apply lookup_singleton_eq|by left|intros; tags|].
  - unfold nonce_next. cbn [Z.eqb]. rewrite Hss. by rewrite decide_False.
  - intros _ auth' [= <-]. by apply in_accounts_keys.
Qed.

Lemma authorize_nonce_step r :
  execute_authorize_nonce_account context = Ok r → nonce_effect 7 context k a r.1.
Proof using Hacc.
  intros Hr. unfold execute_authorize_nonce_account in Hr. rewrite Hacc in Hr. open_instruction Hr.
  match goal with E : Nonce_deserialize _ = Ok _ |- _ => rename E into Hst end.
  eexists _, _, _. split_and!; [exact Hst|done|apply lookup_singleton_eq|by left|done|].
  intros _ auth' [= <-]. by apply in_accounts_keys.
Qed.

Lemma upgrade_nonce_step r :
  execute_upgrade_nonce_account context = Ok r → nonce_effect 12 context k a r.1.
Proof using Hacc.
  intros Hr. unfold execute_upgrade_nonce_account in Hr. rewrite Hacc in Hr. open_instruction Hr.
  match goal with E : Nonce_deserialize _ = Ok _ |- _ => rename E into Hst end.
  eexists _, _, _. split_and!; [exact Hst|done|apply lookup_singleton_eq|by left|intros; tags|intros; tags].
Qed.

Lemma withdraw_nonce_step r :
  (∀ y rest', rest = y :: rest' → k ≠ y.1.1) →
  execute_withdraw_nonce_account context = Ok r → nonce_effect 5 context k a r.1.
Proof using Hacc.
  intros Hne Hr. unfold execute_withdraw_nonce_account in Hr. rewrite Hacc in Hr. open_instruction Hr.
  match goal with E : Nonce_deserialize _ = Ok _, W : withdraw_check _ _ _ _ _ = Ok ?p |- _ =>
    rename E into Hst; rename W into Hw; destruct p as [a' signer] end.
  destruct (withdraw_check_step _ _ _ _ _ _ _ Hw eq_refl) as (st' & Hnext & Hdata & Hauth).
  eexists _, st', _. split_and!; [exact Hst|exact Hnext| | |intros; tags|].
  - rewrite lookup_insert_ne by (intros E; by eapply Hne). apply lookup_singleton_eq.
  - cbn. destruct Hdata as [?|[??]]; auto.
  - intros _ auth' <-%Hauth. by apply in_accounts_keys.
Qed.

(** The nonce instructions of the dispatch. *)
Lemma execute_step o tag :
  tag = from_le_bytes (bytes_at (ec_instruction_data context) 0 4) →
  SystemProgram_execute context = Ok o → tag ∈ [4; 5; 6; 7; 12] →
  (tag = 5 → ∀ y rest', rest = y :: rest' → k ≠ y.1.1) →
  nonce_effect tag context k a (eo_modified_accounts o).
Proof using Hacc.
  intros Etag Ho Htag Hne. unfold SystemProgram_execute in Ho.
  destruct (_ =? 0)%nat eqn:H0 in Ho.
  { apply Nat.eqb_eq, nil_length_inv in H0. rewrite H0 in Etag. cbn in Etag. tags. }
  destruct (4 <=? _)%nat in Ho; [|done]. cbn zeta in Ho. rewrite <- Etag in Ho. clear Etag.
  assert (Hcases : tag = 4 ∨ tag = 5 ∨ tag = 6 ∨ tag = 7 ∨ tag = 12) by tags.
  destruct Hcases as [->|[->|[->|[->| ->]]]]; cbn [Z.eqb Pos.eqb] in Ho;
    match type of Ho with (match ?x with _ => _ end) = Ok _ => destruct x eqn:Hr in Ho; [|done] end;
    injection Ho as <-; cbn [eo_modified_accounts].
  - by apply advance_nonce_step.
  - apply withdraw_nonce_step; [by apply Hne|done].
  - by apply initialize_nonce_step.
  - by apply authorize_nonce_step.
  - by apply upgrade_nonce_step.
Qed.
End steps.

(** C35. The nonce instructions implement the machine [nonce_next] on the bytes of the account:
    whenever the system program accepts one, the account decoded before, the machine makes
    the step, and the bytes written decode to its next state; advancing, authorizing and
    withdrawing from an initialized account name its authority among the accounts of the
    instruction.  (A withdrawal must not name the account as its own destination.) *)
Theorem nonce_instructions_refine (context : ExecutionContext) (o : ExecutionOutcome) (tag : Z)
  (k : Pubkey) (a : Account) (w : bool) (rest : list (Pubkey * Account * bool)) :
  digest_typed → nonce_context_typed context →
  ec_accounts context = (k, a, w) :: rest →
  tag = from_le_bytes (bytes_at (ec_instruction_data context) 0 4) → tag ∈ [4; 5; 6; 7; 12] →
  (tag = 5 → ∀ y rest', rest = y :: rest' → k ≠ y.1.1) →
  SystemProgram_execute context = Ok o →
  ∃ st st' a',
    nonce_before tag a = Ok st ∧
    nonce_next tag (ec_instruction_data context) (lamports_of a) (ec_sysvar_snapshot context) st = Some st' ∧
    eo_modified_accounts o !! k = Some a' ∧ Nonce_deserialize (acc_data a') = Ok st' ∧
    (tag ∈ [4; 5; 7] → ∀ authority, nonce_authority st = Some authority → authority ∈ (ec_accounts context).*1.*1).
Proof.
  intros Hsha [Hd Hacc Hfee] Ea Etag Htag Hne Ho.
  destruct (execute_step context k a w rest Ea o tag Etag Ho Htag Hne)
    as (st & st' & a' & Hst & Hnext & Hk & Hwr & Hlen & Hauth).
  exists st, st', a'. split_and!; [done..| |done].
  rewrite Ea in Hacc. apply Forall_cons in Hacc as [Ha _]. cbn in Ha.
  destruct Hwr as [->|(-> & -> & ->)]; [|exact Hst]. apply nonce_roundtrip.
  eapply nonce_next_typed; [exact Hsha|exact Hd|exact Hlen|exact Hfee| |exact Hnext].
  unfold nonce_before in Hst. destruct (_ && _); [injection Hst as <-; constructor; by left|].
  by eapply nonce_deserialize_typed.
Qed.

(** A nonce advances at most once per blockhash: after an accepted AdvanceNonceAccount, no
    AdvanceNonceAccount on the account it left is accepted in a context with the same recent
    blockhash, whoever is named; so a transaction that advanced it cannot be replayed. *)
Theorem nonce_advances_once (context context' : ExecutionContext) (o : ExecutionOutcome)
  (k : Pubkey) (a a' : Account) (w w' : bool) (rest rest' : list (Pubkey * Account * bool))
  (ss ss' : SysvarSnapshot) :
  digest_typed → nonce_context_typed context →
  ec_accounts context = (k, a, w) :: rest → ec_accounts context' = (k, a', w') :: rest' →
  from_le_bytes (bytes_at (ec_instruction_data context) 0 4) = 4 →
  from_le_bytes (bytes_at (ec_instruction_data context') 0 4) = 4 →
  ec_sysvar_snapshot context = Some ss → ec_sysvar_snapshot context' = Some ss' →
  ss_recent_blockhash ss = ss_recent_blockhash ss' →
  SystemProgram_execute context = Ok o → eo_modified_accounts o !! k = Some a' →
  ∃ e, SystemProgram_execute context' = Err e.
Proof.
  intros Hsha Htyped Ea Ea' Etag Etag' Hss Hss' Hbh Ho Hk.
  destruct (execute_step context k a w rest Ea o 4) as (st & st' & a0 & Hst & Hnext & Hk0 & Hwr & _ & _);
    [done|done|tags|done|]. rewrite Hk in Hk0. injection Hk0 as <-.
  destruct Hwr as [Hwr|(_ & _ & ?)]; [|done].
  destruct (SystemProgram_execute context') as [o'|e] eqn:Ho'; [|by eexists]. exfalso.
  destruct (execute_step context' k a' w' rest' Ea' o' 4) as (st1 & st1' & a1 & Hst1 & Hnext1 & _);
    [done|done|tags|done|].
  unfold nonce_before in Hst, Hst1. cbn [Z.eqb andb] in Hst, Hst1.
  rewrite Hwr, nonce_roundtrip in Hst1.
  - injection Hst1 as <-. rewrite Hss in Hnext. rewrite Hss' in Hnext1. unfold nonce_next in Hnext, Hnext1.
    cbn [Z.eqb] in Hnext, Hnext1. destruct st as [|v auth nonce fee]; [done|].
    destruct (decide _) in Hnext; [done|]. injection Hnext as <-. by rewrite Hbh, decide_True in Hnext1.
  - destruct Htyped as [Hd Hacc Hfee]. eapply nonce_next_typed; [exact Hsha|exact Hd| |exact Hfee| |exact Hnext];
      [intros; tags|].
    rewrite Ea in Hacc. apply Forall_cons in Hacc as [Ha _]. by eapply nonce_deserialize_typed.
Qed.
End machine.

(** ** Examples *)

Lemma demo_digest : digest_typed.
Proof. intros m. split; [apply length_to_le_bytes|apply to_le_bytes_byte]. Qed.

Definition nonce_account (st : NonceVersionedState) : Account :=
  mkAccount (mkAccountMeta 100 SYSTEM_PROGRAM_ID false 0) (Nonce_serialize st).

Definition advance_context (a : Account) : ExecutionContext :=
  system_context {[payer_key]} [4; 0; 0; 0] [(fresh_key, a, true); (payer_key, demo_wallet 1, false)].

Definition nonce_start : NonceVersionedState := NonceInitialized NONCE_VERSION_LEGACY payer_key (demo_key 1) 5000.

Definition advanced : ExecutionOutcome :=
  match SystemProgram_execute (advance_context (nonce_account nonce_start)) with
  | Ok o => o
  | Err _ => ExecutionOutcome_success 0
  end.

Definition nonce_advanced : NonceVersionedState :=
  NonceInitialized NONCE_VERSION_CURRENT payer_key (derive_durable_nonce (demo_key 9)) 5000.

Lemma advance_context_typed : nonce_context_typed (advance_context (nonce_account nonce_start)).
Proof. split; [apply (bool_decide_unpack _); vm_compute; exact I..|]. intros ss [= <-]. by vm_compute. Qed.

Lemma nonce_instructions_refine_witness :
  ∃ a', eo_modified_accounts advanced !! fresh_key = Some a' ∧ Nonce_deserialize (acc_data a') = Ok nonce_advanced.
Proof.
  destruct (nonce_instructions_refine (advance_context (nonce_account nonce_start)) advanced 4 fresh_key
    (nonce_account nonce_start) true [(payer_key, demo_wallet 1, false)]) as (st & st' & a' & Hst & Hnext & Hk & Hd & _).
  - exact demo_digest.
  - exact advance_context_typed.
  - reflexivity.
  - vm_compute. reflexivity.
  - tags.
  - discriminate.
  - vm_compute. reflexivity.
  - exists a'. split; [exact Hk|]. rewrite Hd. f_equal.
    vm_compute in Hst. injection Hst as <-. vm_compute in Hnext. injection Hnext as <-. vm_compute. reflexivity.
Defined.

Lemma nonce_advances_once_witness :
  ∃ e, SystemProgram_execute (advance_context (nonce_account nonce_advanced)) = Err e.
Proof.
  apply (nonce_advances_once (advance_context (nonce_account nonce_start))
    (advance_context (nonce_account nonce_advanced)) advanced fresh_key (nonce_account nonce_start)
    (nonce_account nonce_advanced) true true [(payer_key, demo_wallet 1, false)] [(payer_key, demo_wallet 1, false)]
    (mkSysvarSnapshot 0 (f64_of_u64 2) (demo_key 9) 5000 {[CREATE_ACCOUNT_ALLOW_PREFUND]})
    (mkSysvarSnapshot 0 (f64_of_u64 2) (demo_key 9) 5000 {[CREATE_ACCOUNT_ALLOW_PREFUND]})).
  - exact demo_digest.
  - exact advance_context_typed.
  - reflexivity.
  - reflexivity.
  - vm_compute. reflexivity.
  - vm_compute. reflexivity.
  - reflexivity.
  - reflexivity.
  - reflexivity.
  - vm_compute. reflexivity.
  - vm_compute. reflexivity.
Defined.
