(* ===== verification/TagCache.v ===== *)
(** * The tag cache of the mesh

    [karstflow-mesh/src/tag_cache.rs]: a deduplication cache of 64-bit tags, a
    ring of the last [depth] unique tags backed by an open-addressing hash
    table with linear probing and backward-shift deletion.

    The two vectors are lists, a [usize] index is a [nat] (every index stays
    below the length of a vector) and a tag is a [Z] of 64 bits.  A call may
    abort on an index out of range and a probe may loop forever on a full
    table, so both are outcomes of their own ([Aborted], [Looping]); the loops
    carry a fuel of one round of the table.  [debug_assert_ne!] compiles to
    nothing in the release profile.

    [spec_step] is what the cache promises: a window of the last [depth] unique
    tags, oldest first.  [rep] ties a cache to its window, and
    [tag_cache_refines_window] shows that every run of a cache returns what the
    window returns, without aborting and without looping. *)

From stdpp Require Import base tactics numbers list gmap.
From Stdlib Require Import ZArith Lia.
From S2P Require Import Prelude.
Local Open Scope nat_scope.

(** ** Outcomes of a call *)

Inductive Run (A : Type) : Type :=
| Returned (a : A)
| Aborted
| Looping.
Arguments Returned {A} a.
Arguments Aborted {A}.
Arguments Looping {A}.

#[export] Instance Run_ret : MRet Run := @Returned.
#[export] Instance Run_bind : MBind Run := λ A B f m,
  match m with
  | Returned a => f a
  | Aborted => Aborted
  | Looping => Looping
  end.

Lemma Returned_bind {A B} (x : A) (k : A → Run B) : Returned x ≫= k = k x.
Proof. done. Qed.

(** [v[i]] *)
Definition index (v : list Z) (i : nat) : Run Z :=
  match v !! i with
  | Some x => Returned x
  | None => Aborted
  end.

(** [v[i] = x] *)
Definition store (v : list Z) (i : nat) (x : Z) : Run (list Z) :=
  if i <? length v then Returned (<[i := x]> v) else Aborted.

(** ** The cache *)

Definition TAG_NULL : Z := 0.
Definition SPARSE_DEFAULT : Z := 2.

Record TagCache := mkTagCache {
  tc_ring : list Z;
  tc_map : list Z;
  tc_depth : nat;
  tc_map_mask : nat;
  tc_oldest : nat;
}.

(** [63 - dp1.leading_zeros()] is the position of the highest set bit. *)
Definition map_cnt_default (depth : nat) : nat :=
  if depth =? 0 then 0
  else Z.to_nat (wrap64 (Z.shiftl 1 ((Z.log2 (Z.of_nat depth + 1) + SPARSE_DEFAULT) mod 64))).

Definition is_power_of_two (n : nat) : bool :=
  (0 <? n) && (Nat.land n (n - 1) =? 0).

Definition TagCache_with_map_cnt (depth map_cnt : nat) : Run TagCache :=
  if (1 <=? depth) && is_power_of_two map_cnt && (depth + 2 <=? map_cnt) then
    Returned (mkTagCache (replicate depth TAG_NULL) (replicate map_cnt TAG_NULL) depth
                (map_cnt - 1) 0)
  else Aborted.

Definition TagCache_new (depth : nat) : Run TagCache :=
  if 1 <=? depth then TagCache_with_map_cnt depth (map_cnt_default depth) else Aborted.

(** The slot where the probe for a tag starts: [(tag as usize) & self.map_mask]. *)
Definition start_slot (mask : nat) (tag : Z) : nat := Z.to_nat (Z.land tag (Z.of_nat mask)).

Fixpoint probe_loop (fuel : nat) (map : list Z) (mask : nat) (tag : Z) (idx : nat) : Run (bool * nat) :=
  match fuel with
  | O => Looping
  | S fuel' =>
      slot_tag ← index map idx;
      if Z.eqb slot_tag tag then Returned (true, idx)
      else if Z.eqb slot_tag TAG_NULL then Returned (false, idx)
      else probe_loop fuel' map mask tag (Nat.land (idx + 1) mask)
  end.

Definition probe (map : list Z) (mask : nat) (tag : Z) : Run (bool * nat) :=
  probe_loop (S mask) map mask tag (start_slot mask tag).

Definition in_circular_range (a x b : nat) : bool :=
  if a <? b then (a <? x) && (x <=? b) else (a <? x) || (x <=? b).

(** The inner loop of [remove]: walk from the hole to the next tag that has to
    move back, and move it; [None] when an empty slot ends the cluster. *)
Fixpoint shift_back (fuel : nat) (map : list Z) (mask hole slot : nat) : Run (option (list Z * nat)) :=
  match fuel with
  | O => Looping
  | S fuel' =>
      let slot := Nat.land (slot + 1) mask in
      displaced ← index map slot;
      if Z.eqb displaced TAG_NULL then Returned None
      else if negb (in_circular_range hole (start_slot mask displaced) slot) then
        map ← store map hole displaced;
        Returned (Some (map, slot))
      else shift_back fuel' map mask hole slot
  end.

(** The outer loop of [remove]. *)
Fixpoint remove_loop (fuel : nat) (map : list Z) (mask slot : nat) : Run (list Z) :=
  match fuel with
  | O => Looping
  | S fuel' =>
      map ← store map slot TAG_NULL;
      moved ← shift_back (S mask) map mask slot slot;
      match moved with
      | None => Returned map
      | Some (map, slot) => remove_loop fuel' map mask slot
      end
  end.

Definition TagCache_remove (map : list Z) (mask : nat) (tag : Z) : Run (list Z) :=
  '(found, slot) ← probe map mask tag;
  if (found : bool) then remove_loop (S mask) map mask slot else Returned map.

Definition TagCache_contains (c : TagCache) (tag : Z) : Run bool :=
  '(found, _) ← probe (tc_map c) (tc_map_mask c) tag;
  Returned found.

Definition TagCache_insert (c : TagCache) (tag : Z) : Run (bool * TagCache) :=
  '(found, slot) ← probe (tc_map c) (tc_map_mask c) tag;
  if (found : bool) then Returned (true, c)
  else
    map ← store (tc_map c) slot tag;
    evicted ← index (tc_ring c) (tc_oldest c);
    ring ← store (tc_ring c) (tc_oldest c) tag;
    let oldest := if tc_depth c <=? tc_oldest c + 1 then 0 else tc_oldest c + 1 in
    map ← (if Z.eqb evicted TAG_NULL then Returned map
           else TagCache_remove map (tc_map_mask c) evicted);
    Returned (false, mkTagCache ring map (tc_depth c) (tc_map_mask c) oldest).

Definition TagCache_reset (c : TagCache) : TagCache :=
  mkTagCache (replicate (length (tc_ring c)) TAG_NULL) (replicate (length (tc_map c)) TAG_NULL)
    (tc_depth c) (tc_map_mask c) 0.

Definition TagCache_len (c : TagCache) : nat :=
  length (filter (λ t, t ≠ TAG_NULL) (tc_ring c)).

Definition TagCache_is_empty (c : TagCache) : Run bool :=
  first ← index (tc_ring c) 0;
  Returned (Z.eqb first TAG_NULL && (tc_oldest c =? 0)).

(** ** What the cache promises

    The window of the last [depth] unique tags, oldest first. *)

Definition kept (depth : nat) (w : list Z) : list Z := if length w <? depth then w else tail w.

Definition window_insert (depth : nat) (w : list Z) (tag : Z) : bool * list Z :=
  if decide (tag ∈ w) then (true, w)
  else (false, kept depth w ++ [tag]).

(** The calls of a client, and what it sees of them. *)
Inductive Call := Insert (tag : Z) | Contains (tag : Z) | Reset | Len | IsEmpty.
Inductive Answer := Flag (b : bool) | Count (n : nat) | Unit.

Definition spec_step (depth : nat) (w : list Z) (call : Call) : Answer * list Z :=
  match call with
  | Insert tag => let '(dup, w') := window_insert depth w tag in (Flag dup, w')
  | Contains tag => (Flag (bool_decide (tag ∈ w)), w)
  | Reset => (Unit, [])
  | Len => (Count (length w), w)
  | IsEmpty => (Flag (bool_decide (w = [])), w)
  end.

Definition cache_step (c : TagCache) (call : Call) : Run (Answer * TagCache) :=
  match call with
  | Insert tag => '(dup, c') ← TagCache_insert c tag; Returned (Flag dup, c')
  | Contains tag => b ← TagCache_contains c tag; Returned (Flag b, c)
  | Reset => Returned (Unit, TagCache_reset c)
  | Len => Returned (Count (TagCache_len c), c)
  | IsEmpty => b ← TagCache_is_empty c; Returned (Flag b, c)
  end.

Fixpoint spec_run (depth : nat) (w : list Z) (calls : list Call) : list Answer :=
  match calls with
  | [] => []
  | call :: calls' =>
      let '(a, w') := spec_step depth w call in a :: spec_run depth w' calls'
  end.

Fixpoint cache_run (c : TagCache) (calls : list Call) : Run (list Answer) :=
  match calls with
  | [] => Returned []
  | call :: calls' =>
      '(a, c') ← cache_step c call;
      rest ← cache_run c' calls';
      Returned (a :: rest)
  end.

(** The calls a client may make: tags are 64-bit and not the sentinel. *)
Definition call_ok (call : Call) : Prop :=
  match call with
  | Insert tag | Contains tag => tag ≠ TAG_NULL ∧ is_u64 tag
  | _ => True
  end.

(** ** Circular arithmetic

    [on_path m a j b]: slot [j] of a table of [m] slots is visited on the way
    from [a] to [b], [b] excluded.  [steps m a b] is the length of that way. *)

Definition on_path (m a j b : nat) : Prop :=
  j < m ∧ ((a ≤ j ∧ j < b) ∨ (b < a ∧ a ≤ j) ∨ (b < a ∧ j < b)).

Definition steps (m a b : nat) : nat := if a <=? b then b - a else b + m - a.

Definition next_slot (m i : nat) : nat := if i + 1 =? m then 0 else i + 1.

Lemma land_mask k i : i < 2 ^ k → Nat.land (i + 1) (2 ^ k - 1) = next_slot (2 ^ k) i.
Proof.
  intros Hi. pose proof (Nat.pow_nonzero 2 k). rewrite Nat.sub_1_r.
  replace (Nat.pred (2 ^ k)) with (Nat.ones k) by (by rewrite Nat.ones_equiv).
  rewrite Nat.land_ones. unfold next_slot. destruct (Nat.eqb_spec (i + 1) (2 ^ k)) as [->|].
  - by rewrite Nat.Div0.mod_same.
  - rewrite Nat.mod_small by lia. done.
Qed.

Lemma land_mask_lt k z : Z.to_nat (Z.land z (Z.of_nat (2 ^ k - 1))) < 2 ^ k.
Proof.
  pose proof (Nat.pow_nonzero 2 k).
  replace (Z.of_nat (2 ^ k - 1)) with (Z.ones (Z.of_nat k)).
  - rewrite Z.land_ones by lia. pose proof (Z.mod_pos_bound z (2 ^ Z.of_nat k)).
    pose proof (Z.pow_pos_nonneg 2 (Z.of_nat k)).
    assert (Z.of_nat (2 ^ k) = 2 ^ Z.of_nat k)%Z by (by rewrite Nat2Z.inj_pow). lia.
  - rewrite Z.ones_equiv, Nat2Z.inj_sub, Nat2Z.inj_pow by lia. lia.
Qed.

Lemma start_slot_lt k tag : start_slot (2 ^ k - 1) tag < 2 ^ k.
Proof. apply land_mask_lt. Qed.

(** ** The hash table

    [full map i]: slot [i] holds a tag.  [probing hole map]: every tag can be
    reached from its start slot over full slots, except that the way may pass
    through a slot of [hole].  [table map w]: a table that holds exactly the
    tags of [w], each once. *)

Definition full (map : list Z) (i : nat) : Prop := ∃ t, map !! i = Some t ∧ t ≠ TAG_NULL.

Definition once (map : list Z) : Prop :=
  ∀ i j t, t ≠ TAG_NULL → map !! i = Some t → map !! j = Some t → i = j.

(** A cyclic fact about slots below the size of the table. *)
Ltac cyc := unfold on_path, steps, next_slot in *;
  repeat match goal with
  | |- context [?a =? ?b] => destruct (Nat.eqb_spec a b)
  | |- context [?a <=? ?b] => destruct (Nat.leb_spec a b)
  | H : context [?a =? ?b] |- _ => destruct (Nat.eqb_spec a b)
  | H : context [?a <=? ?b] |- _ => destruct (Nat.leb_spec a b)
  end; lia.

Section table.
Context (k : nat) (start : Z → nat) (start_lt : ∀ t, start t < 2 ^ k).
Abbreviation M := (2 ^ k).
Abbreviation mask := (2 ^ k - 1).

Definition probing (hole : nat → Prop) (map : list Z) : Prop :=
  ∀ i t j, map !! i = Some t → t ≠ TAG_NULL → on_path M (start t) j i →
           full map j ∨ hole j.

Record table (map w : list Z) : Prop := {
  table_length : length map = M;
  table_once : once map;
  table_elem : ∀ t, t ≠ TAG_NULL → t ∈ map ↔ t ∈ w;
  table_probing : probing (λ _, False) map;
}.

Lemma index_lt (map : list Z) i : length map = M → i < M → ∃ t, map !! i = Some t ∧ index map i = Returned t.
Proof.
  intros Hl Hi. destruct (lookup_lt_is_Some_2 map i) as [t Ht]; [lia|].
  exists t. unfold index. by rewrite Ht.
Qed.

Lemma store_lt (map : list Z) i x : length map = M → i < M → store map i x = Returned (<[i := x]> map).
Proof. intros Hl Hi. unfold store. by rewrite (proj2 (Nat.ltb_lt _ _)) by lia. Qed.

Lemma not_full (map : list Z) i : map !! i = Some TAG_NULL → ¬ full map i.
Proof. intros H (t & Ht & Hn). congruence. Qed.

(** Some slot of a table that is not full is empty. *)
Lemma once_NoDup map : once map → NoDup (filter (λ t, t ≠ TAG_NULL) map).
Proof.
  induction map as [|x map IH]; intros Ho; [constructor|]. rewrite filter_cons.
  assert (Ho' : once map).
  { intros i j t Ht Hi Hj. specialize (Ho (S i) (S j) t Ht Hi Hj). lia. }
  case_decide as Hx; [|by apply IH]. constructor; [|by apply IH].
  intros [_ Hin]%list_elem_of_filter. apply list_elem_of_lookup in Hin as [j Hj].
  specialize (Ho 0 (S j) x Hx eq_refl Hj). lia.
Qed.

Lemma exists_null map w :
  length map = M → once map → (∀ t, t ≠ TAG_NULL → t ∈ map → t ∈ w) → length w < M →
  ∃ z, z < M ∧ map !! z = Some TAG_NULL.
Proof.
  intros Hl Ho Hin Hw.
  destruct (decide (TAG_NULL ∈ map)) as [Hn|Hn].
  - apply list_elem_of_lookup in Hn as [z Hz]. exists z. split; [|done].
    apply lookup_lt_Some in Hz. lia.
  - exfalso. assert (Hf : filter (λ t, t ≠ TAG_NULL) map = map).
    { apply list_filter_all, Forall_forall. intros t Ht ->. done. }
    pose proof (once_NoDup map Ho) as Hnd. rewrite Hf in Hnd.
    assert (length map <= length w); [|lia].
    apply submseteq_length, NoDup_submseteq; [done|]. intros t Ht. apply Hin; [|done].
    intros ->. done.
Qed.

(** *** Probing *)

Definition probed (map : list Z) (tag : Z) (r : bool * nat) : Prop :=
  r.2 < M ∧ map !! r.2 = Some (if r.1 then tag else TAG_NULL) ∧
  ∀ j, on_path M (start tag) j r.2 → full map j ∧ map !! j ≠ Some tag.

Lemma probe_loop_spec fuel map tag idx z :
  length map = M → z < M → map !! z = Some TAG_NULL → tag ≠ TAG_NULL →
  idx < M → steps M idx z < fuel → ¬ on_path M (start tag) z idx →
  (∀ j, on_path M (start tag) j idx → full map j ∧ map !! j ≠ Some tag) →
  ∃ r, probe_loop fuel map mask tag idx = Returned r ∧ probed map tag r.
Proof.
  intros Hl Hz Hnull Htag. revert idx. pose proof (start_lt tag) as Hs.
  induction fuel as [|fuel IH]; intros idx Hi Hf Hz' Hpath; [lia|]. cbn [probe_loop].
  destruct (index_lt map idx Hl Hi) as (t & Ht & ->). rewrite Returned_bind.
  destruct (Z.eqb_spec t tag) as [->|Hne]; [exists (true, idx); unfold probed; cbn; by split_and!|].
  destruct (Z.eqb_spec t TAG_NULL) as [->|Hnn]; [exists (false, idx); unfold probed; cbn; by split_and!|].
  rewrite land_mask by done.
  assert (idx ≠ z) by (intros ->; congruence).
  assert (Hnext : ∀ j, on_path M (start tag) j (next_slot M idx) →
            j = idx ∨ on_path M (start tag) j idx) by (intros j; cyc).
  apply IH.
  - cyc.
  - cyc.
  - intros [?|?]%Hnext; done.
  - intros j [->|Hj]%Hnext; [|by apply Hpath]. split; [by exists t|congruence].
Qed.

Lemma probe_spec fuel map tag z :
  M ≤ fuel → length map = M → z < M → map !! z = Some TAG_NULL → tag ≠ TAG_NULL →
  ∃ r, probe_loop fuel map mask tag (start tag) = Returned r ∧ probed map tag r.
Proof.
  intros Hfuel Hl Hz Hnull Htag. pose proof (start_lt tag).
  apply (probe_loop_spec _ _ _ _ z); [done..|cyc|cyc|]. intros j Hj. exfalso. cyc.
Qed.

(** The probe decides membership. *)
Lemma probed_found map w tag r :
  table map w → tag ≠ TAG_NULL → probed map tag r → r.1 = bool_decide (tag ∈ w).
Proof.
  intros [Hl Ho He Hp] Htag (Hr & Hat & Hpath). symmetry. destruct r as [[] i]; cbn in *.
  - apply bool_decide_eq_true, He; [done|]. by eapply list_elem_of_lookup_2.
  - apply bool_decide_eq_false. intros Hin. apply He in Hin; [|done].
    apply list_elem_of_lookup in Hin as [j Hj].
    assert (j < M) by (apply lookup_lt_Some in Hj; lia).
    pose proof (start_lt tag).
    assert (¬ on_path M (start tag) j i) by (intros []%Hpath; done).
    assert (¬ on_path M (start tag) i j).
    { intros [Hf|[]]%(Hp j tag i Hj Htag). by eapply not_full. }
    assert (i = j) as <- by cyc. congruence.
Qed.

(** *** Adding a tag *)

Lemma full_insert map i x j :
  i < length map → x ≠ TAG_NULL → full map j → full (<[i := x]> map) j.
Proof.
  intros Hi Hx (t & Ht & Hn). destruct (decide (i = j)) as [<-|Hne].
  - exists x. by rewrite list_lookup_insert_eq.
  - exists t. by rewrite list_lookup_insert_ne.
Qed.

Lemma table_insert map w tag i :
  table map w → tag ≠ TAG_NULL → tag ∉ w → probed map tag (false, i) →
  table (<[i := tag]> map) (tag :: w).
Proof.
  intros [Hl Ho He Hp] Htag Hw (Hi & Hat & Hpath). cbn in Hi, Hat, Hpath.
  assert (Hi' : i < length map) by lia.
  assert (Hout : ∀ j, map !! j ≠ Some tag).
  { intros j Hj. apply Hw, He; [done|]. by eapply list_elem_of_lookup_2. }
  split.
  - by rewrite length_insert.
  - intros j1 j2 t Ht [(<- & <- & _)|(? & Hj1)]%list_lookup_insert_Some
      [(<- & ? & _)|(? & Hj2)]%list_lookup_insert_Some; subst; try done; try (by eapply Ho).
    all: by edestruct Hout.
  - intros t Ht. rewrite elem_of_cons, <- He, !list_elem_of_lookup by done. split.
    + intros [j [(_ & -> & _)|(_ & Hj)]%list_lookup_insert_Some]; eauto.
    + intros [->|[j Hj]]; [exists i; by rewrite list_lookup_insert_eq|].
      exists j. rewrite list_lookup_insert_ne by (intros ->; congruence). done.
  - intros j t j' [(<- & <- & _)|(Hne & Hj)]%list_lookup_insert_Some Ht Hon; left.
    + apply full_insert; [done..|]. by apply Hpath.
    + destruct (Hp j t j' Hj Ht Hon) as [|[]]. by apply full_insert.
Qed.

Lemma table_empty : table (replicate M TAG_NULL) [].
Proof.
  assert (H : ∀ i t, replicate M TAG_NULL !! i = Some t → t = TAG_NULL).
  { intros i t Hi. by apply lookup_replicate_1 in Hi as [-> _]. }
  split.
  - apply length_replicate.
  - intros i j t Ht Hi. by apply H in Hi.
  - intros t Ht. split; [|by intros ?%elem_of_nil]. intros [i Hi]%list_elem_of_lookup. by apply H in Hi.
  - intros i t j Hi Ht. by apply H in Hi.
Qed.

End table.

Section removal.
Context (k : nat).
Abbreviation M := (2 ^ k).
Abbreviation mask := (2 ^ k - 1).
Abbreviation start := (start_slot (2 ^ k - 1)).

(** *** Removing a tag

    [holed map h w]: slot [h] has just been emptied, and the way of a tag may
    lead through it. *)

Record holed (map : list Z) (h : nat) (w : list Z) : Prop := {
  holed_length : length map = M;
  holed_lt : h < M;
  holed_null : map !! h = Some TAG_NULL;
  holed_once : once map;
  holed_elem : ∀ t, t ≠ TAG_NULL → t ∈ map ↔ t ∈ w;
  holed_probing : probing k start (λ j, j = h) map;
}.

(** The slots after the hole up to [s]. *)
Definition after (h i s : nat) : Prop := i ≠ h ∧ (on_path M h i s ∨ i = s).

(** The next tag to move back, if any. *)
Definition shifted (map : list Z) (h : nat) (r : option (list Z * nat)) : Prop :=
  match r with
  | None => probing k start (λ _, False) map
  | Some (map', n) =>
      ∃ d, map' = <[h := d]> map ∧ map !! n = Some d ∧ d ≠ TAG_NULL ∧ n < M ∧ n ≠ h ∧
           on_path M (start d) h n ∧ ∀ i, after h i n → full map i
  end.

Lemma shift_back_spec fuel map h w s :
  holed map h w → s < M → steps M (next_slot M s) h < fuel →
  (∀ i, after h i s → full map i) →
  (∀ i t, map !! i = Some t → after h i s → ¬ on_path M (start t) h i) →
  ∃ r, shift_back fuel map mask h s = Returned r ∧ shifted map h r.
Proof.
  intros [Hl Hh Hnull Ho He Hp]. revert s.
  induction fuel as [|fuel IH]; intros s Hs Hfuel Hfull Hstay; [lia|]. cbn [shift_back].
  rewrite land_mask by done. set (n := next_slot M s).
  assert (Hn : n < M) by (subst n; cyc).
  destruct (index_lt k map n Hl Hn) as (d & Hd & ->). rewrite Returned_bind.
  destruct (Z.eqb_spec d TAG_NULL) as [->|Hdn].
  { exists None. split; [done|]. intros i t j Hi Ht Hon.
    destruct (Hp i t j Hi Ht Hon) as [|Hj]; [by left|]. exfalso. subst j.
    assert (Hi' : i < M) by (apply lookup_lt_Some in Hi; lia).
    assert (n ≠ i) by congruence. pose proof (start_slot_lt k t).
    assert (Haft : ¬ after h i s) by (intros Ha; by eapply Hstay).
    assert (Hon' : n ≠ h ∧ on_path M (start t) n i) by (unfold after in *; subst n; cyc).
    destruct (Hp i t n Hi Ht (proj2 Hon')) as [Hf| ->]; [by eapply not_full|lia]. }
  assert (Hnh : n ≠ h) by congruence. pose proof (start_slot_lt k d) as Hsd.
  assert (Hsplit : ∀ i, after h i n → i = n ∨ after h i s).
  { intros i. unfold after. subst n. cyc. }
  assert (Hfull' : ∀ i, after h i n → full map i).
  { intros i [->|Ha]%Hsplit; [by exists d|by apply Hfull]. }
  unfold in_circular_range.
  destruct (decide (on_path M (start d) h n)) as [Hcross|Hkeep].
  - rewrite (store_lt k map h d Hl Hh).
    match goal with |- context [negb ?b] => assert (b = false) as -> end.
    { destruct (Nat.ltb_spec h n), (Nat.ltb_spec h (start d)),
        (Nat.leb_spec (start d) n); cbn; try done; exfalso; cyc. }
    exists (Some (<[h := d]> map, n)). split; [done|]. exists d. by split_and!.
  - match goal with |- context [negb ?b] => assert (b = true) as -> end.
    { destruct (Nat.ltb_spec h n), (Nat.ltb_spec h (start d)),
        (Nat.leb_spec (start d) n); cbn; try done; exfalso; cyc. }
    apply IH; [done|subst n; cyc|done|].
    intros i t Hi [->|Ha]%Hsplit; [by simplify_eq|by eapply Hstay].
Qed.

(** Moving the tag back leaves a hole at its old slot. *)
Lemma holed_shift map h w d n :
  holed map h w → map !! n = Some d → d ≠ TAG_NULL → n < M → n ≠ h →
  on_path M (start d) h n →
  holed (<[n := TAG_NULL]> (<[h := d]> map)) n w.
Proof.
  intros [Hl Hh Hnull Ho He Hp] Hn Hd Hlt Hne Hcross.
  assert (Hlen : length (<[h := d]> map) = M) by (by rewrite length_insert).
  assert (Hget : ∀ i t, t ≠ TAG_NULL → <[n := TAG_NULL]> (<[h := d]> map) !! i = Some t →
            i ≠ n ∧ (i = h ∧ t = d ∨ i ≠ h ∧ map !! i = Some t)).
  { intros i t Ht [(_ & ? & _)|(? & [(-> & -> & _)|(? & Hi)]%list_lookup_insert_Some)]%list_lookup_insert_Some;
      by auto. }
  assert (Hput : ∀ i, i ≠ n → i ≠ h → <[n := TAG_NULL]> (<[h := d]> map) !! i = map !! i).
  { intros i ??. by rewrite !list_lookup_insert_ne. }
  assert (Hath : <[n := TAG_NULL]> (<[h := d]> map) !! h = Some d).
  { rewrite list_lookup_insert_ne by done. apply list_lookup_insert_eq. lia. }
  split.
  - by rewrite length_insert.
  - done.
  - apply list_lookup_insert_eq. lia.
  - intros i j t Ht Hi Hj. apply Hget in Hi as [? [[-> ->]|[? Hi]]], Hj as [? [[-> ?]|[? Hj]]]; auto.
    + by assert (j = n) by (by eapply Ho).
    + subst t. by assert (i = n) by (by eapply Ho).
    + by eapply Ho.
  - intros t Ht. rewrite <- He, !list_elem_of_lookup by done. split.
    + intros [i Hi]. apply Hget in Hi as [_ [[_ ->]|[_ Hi]]]; eauto.
    + intros [i Hi]. destruct (decide (i = n)) as [->|Hin]; [exists h; congruence|].
      exists i. rewrite Hput; [done..|]. intros ->. congruence.
  - intros i t j Hi Ht Hon. apply Hget in Hi as [Hin Hi]; [|done].
    destruct (decide (j = n)) as [->|Hjn]; [by right|left].
    destruct (decide (j = h)) as [->|Hjh]; [by exists d|].
    assert (Hf : full map j ∨ j = h).
    { destruct Hi as [[-> ->]|[? Hi]]; [|by eapply Hp]. apply (Hp n d j Hn Hd).
      pose proof (start_slot_lt k d). cyc. }
    destruct Hf as [(u & Hu & Hun)|?]; [|done]. exists u. by rewrite Hput.
Qed.

Lemma remove_loop_spec fuel map slot w z :
  holed (<[slot := TAG_NULL]> map) slot w → z < M → z ≠ slot → map !! z = Some TAG_NULL →
  steps M slot z < fuel →
  ∃ map', remove_loop fuel map mask slot = Returned map' ∧ table k start map' w.
Proof.
  revert map slot. induction fuel as [|fuel IH]; intros map slot Hholed Hz Hzs Hnull Hfuel; [lia|].
  cbn [remove_loop]. pose proof Hholed as [Hl Hlt Hn Ho He Hp].
  rewrite length_insert in Hl. rewrite (store_lt k map slot _ Hl Hlt), Returned_bind.
  set (map0 := <[slot := TAG_NULL]> map) in *.
  assert (Hz0 : map0 !! z = Some TAG_NULL) by (subst map0; by rewrite list_lookup_insert_ne).
  destruct (shift_back_spec (S mask) map0 slot w slot Hholed Hlt) as ([[map' n]|] & -> & Hr).
  - pose proof (Nat.pow_nonzero 2 k). cyc.
  - intros i [? Hi]. exfalso. cyc.
  - intros i t Hi [? Hi']. exfalso. cyc.
  - destruct Hr as (d & -> & Hd & Hdn & Hnlt & Hnh & Hcross & Hfull). rewrite Returned_bind.
    assert (n ≠ z) by congruence.
    assert (Haft : ¬ after slot z n) by (intros Ha; by eapply not_full, Hfull).
    apply IH; [by apply holed_shift|done|done| |].
    + by rewrite list_lookup_insert_ne.
    + unfold after in Haft. cyc.
  - rewrite Returned_bind. exists map0. split; [done|].
    split; [apply (holed_length _ _ _ Hholed)|done..].
Qed.

Lemma remove_spec map w w' tag :
  table k start map w → tag ≠ TAG_NULL → tag ∈ w → length w < M →
  (∀ t, t ∈ w' ↔ t ∈ w ∧ t ≠ tag) →
  ∃ map', TagCache_remove map mask tag = Returned map' ∧ table k start map' w'.
Proof.
  intros Ht Htag Hin Hlen Hw'. pose proof Ht as [Hl Ho He Hp].
  destruct (exists_null k map w Hl Ho) as (z & Hz & Hnull); [intros; by apply He|done|].
  destruct (probe_spec k start (start_slot_lt k) (S mask) map tag z ltac:(lia) Hl Hz Hnull Htag) as ([b slot] & Heq & Hpr).
  pose proof (probed_found k start (start_slot_lt k) _ _ _ _ Ht Htag Hpr) as Hb. rewrite bool_decide_eq_true_2 in Hb by done.
  cbn in Hb. subst b. unfold TagCache_remove, probe. rewrite Heq, Returned_bind.
  destruct Hpr as (Hs & Hat & _). cbn in Hs, Hat.
  assert (Hput : ∀ i, i ≠ slot → <[slot := TAG_NULL]> map !! i = map !! i).
  { intros i ?. by rewrite list_lookup_insert_ne. }
  assert (Hget : ∀ i t, t ≠ TAG_NULL → <[slot := TAG_NULL]> map !! i = Some t → i ≠ slot ∧ map !! i = Some t).
  { intros i t Hn [(_ & ? & _)|[? ?]]%list_lookup_insert_Some; by auto. }
  apply (remove_loop_spec _ _ _ _ z); [|done|intros ->; congruence|done|cyc].
  split; [by rewrite length_insert|done|apply list_lookup_insert_eq; lia| | |].
  - intros i j t Hn [_ Hi]%Hget [_ Hj]%Hget; [by eapply Ho|done..].
  - intros t Hn. rewrite Hw', <- He, !list_elem_of_lookup by done. split.
    + intros [i [Hi Hit]%Hget]; [|done]. split; [eauto|]. intros ->. by apply Hi, (Ho i slot tag).
    + intros [[i Hi] Hne]. exists i. rewrite Hput; [done|]. intros ->. congruence.
  - intros i t j Hi Hn Hon. apply Hget in Hi as [_ Hi]; [|done].
    destruct (decide (j = slot)) as [->|Hj]; [by right|left].
    destruct (Hp i t j Hi Hn Hon) as [(u & Hu & Hun)|[]]. exists u. by rewrite Hput.
Qed.

End removal.

(** ** The ring

    The tags of the ring, oldest first. *)
Definition rotation (oldest : nat) (ring : list Z) : list Z := drop oldest ring ++ take oldest ring.

Lemma rotation_head o (ring : list Z) x :
  ring !! o = Some x → rotation o ring = x :: drop (S o) ring ++ take o ring.
Proof. intros H. unfold rotation. by rewrite (drop_S _ _ _ H). Qed.

Lemma rotation_step o (ring : list Z) x tag :
  ring !! o = Some x →
  rotation (if length ring <=? o + 1 then 0 else o + 1) (<[o := tag]> ring)
  = drop (S o) ring ++ take o ring ++ [tag].
Proof.
  intros H. pose proof (lookup_lt_Some _ _ _ H) as Hlt. unfold rotation.
  rewrite insert_take_drop by done.
  assert (Ht : length (take o ring) = o) by (rewrite length_take; lia).
  destruct (Nat.leb_spec (length ring) (o + 1)).
  - rewrite (drop_ge ring (S o)) by lia. by rewrite drop_0, take_0, app_nil_r.
  - rewrite (cons_middle tag), app_assoc.
    assert (Ht' : length (take o ring ++ [tag]) = o + 1) by (rewrite length_app; cbn; lia).
    by rewrite <- Ht', drop_app_length, take_app_length.
Qed.

Record rep (c : TagCache) (w : list Z) : Prop := {
  rep_length : length (tc_ring c) = tc_depth c;
  rep_oldest : tc_oldest c < tc_depth c;
  rep_ring : rotation (tc_oldest c) (tc_ring c) = replicate (tc_depth c - length w) TAG_NULL ++ w;
  rep_tags : Forall (λ t, t ≠ TAG_NULL) w;
  rep_NoDup : NoDup w;
  rep_start : tc_oldest c = length w ∨ length w = tc_depth c;
  rep_table : ∃ k, tc_map_mask c = 2 ^ k - 1 ∧ tc_depth c + 2 ≤ 2 ^ k ∧ table k (start_slot (2 ^ k - 1)) (tc_map c) w;
}.

Lemma length_rotation o (ring : list Z) : length (rotation o ring) = length ring.
Proof. unfold rotation. rewrite length_app, length_drop, length_take. lia. Qed.

Lemma rep_bound c w : rep c w → length w ≤ tc_depth c.
Proof.
  intros H. pose proof (f_equal length (rep_ring _ _ H)) as E.
  rewrite length_rotation, length_app, length_replicate, (rep_length _ _ H) in E. lia.
Qed.

(** The tag to evict: a sentinel while the window is not full, its oldest tag afterwards. *)
Lemma rep_evicted c w :
  rep c w →
  ∃ x, tc_ring c !! tc_oldest c = Some x ∧
    drop (S (tc_oldest c)) (tc_ring c) ++ take (tc_oldest c) (tc_ring c)
    = replicate (tc_depth c - S (length (kept (tc_depth c) w))) TAG_NULL ++ kept (tc_depth c) w ∧
    (x = TAG_NULL ∧ kept (tc_depth c) w = w ∧ length w < tc_depth c ∨
     x ≠ TAG_NULL ∧ w = x :: kept (tc_depth c) w ∧ length w = tc_depth c).
Proof.
  intros H. pose proof (rep_bound _ _ H) as Hb. pose proof (rep_oldest _ _ H) as Ho.
  destruct (lookup_lt_is_Some_2 (tc_ring c) (tc_oldest c)) as [x Hx];
    [by rewrite (rep_length _ _ H)|].
  exists x. split; [done|]. pose proof (rep_ring _ _ H) as Hr. rewrite (rotation_head _ _ _ Hx) in Hr.
  unfold kept. destruct (Nat.ltb_spec (length w) (tc_depth c)) as [Hlt|Hge].
  - replace (tc_depth c - length w) with (S (tc_depth c - S (length w))) in Hr by lia.
    cbn in Hr. simplify_eq. auto.
  - replace (tc_depth c - length w) with 0 in Hr by lia. cbn in Hr.
    destruct w as [|y w]; [done|]. cbn in *. simplify_eq. pose proof (rep_tags _ _ H) as Ht.
    apply Forall_cons_1 in Ht as [Ht _]. split; [|right; by split_and!; [..|lia]].
    by replace (tc_depth c - S (length (drop (S (tc_oldest c)) (tc_ring c) ++ take (tc_oldest c) (tc_ring c)))) with 0 by lia.
Qed.

Lemma probe_rep c w tag :
  rep c w → tag ≠ TAG_NULL →
  ∃ slot, probe (tc_map c) (tc_map_mask c) tag = Returned (bool_decide (tag ∈ w), slot) ∧
    ∃ k, tc_map_mask c = 2 ^ k - 1 ∧ tc_depth c + 2 ≤ 2 ^ k ∧ table k (start_slot (2 ^ k - 1)) (tc_map c) w ∧
         probed k (start_slot (2 ^ k - 1)) (tc_map c) tag (bool_decide (tag ∈ w), slot).
Proof.
  intros H Htag. destruct (rep_table _ _ H) as (k & Hm & Hk & Ht).
  pose proof (rep_bound _ _ H). pose proof Ht as [Hl Ho He Hp].
  destruct (exists_null k _ w Hl Ho) as (z & Hz & Hnull); [intros; by apply He|lia|].
  destruct (probe_spec k _ (start_slot_lt k) (S (2 ^ k - 1)) _ tag z ltac:(lia) Hl Hz Hnull Htag) as ([b slot] & Heq & Hpr).
  pose proof (probed_found k _ (start_slot_lt k) _ _ _ _ Ht Htag Hpr) as Hb. cbn in Hb. subst b.
  exists slot. rewrite Hm. unfold probe. split; [done|]. exists k. by split_and!.
Qed.

Lemma contains_rep c w tag :
  rep c w → tag ≠ TAG_NULL → TagCache_contains c tag = Returned (bool_decide (tag ∈ w)).
Proof.
  intros H Htag. unfold TagCache_contains. by destruct (probe_rep c w tag H Htag) as (? & -> & _).
Qed.

Lemma NoDup_snoc (w : list Z) x : x ∉ w → NoDup w → NoDup (w ++ [x]).
Proof.
  intros Hx Hw. apply NoDup_app. split; [done|]. split; [|apply NoDup_singleton].
  intros y Hy ->%list_elem_of_singleton. done.
Qed.

(** The ring and the table after the new tag has replaced the evicted one. *)
Lemma rep_push c w tag k map' :
  rep c w → tag ≠ TAG_NULL → tag ∉ w →
  tc_map_mask c = 2 ^ k - 1 → tc_depth c + 2 ≤ 2 ^ k →
  table k (start_slot (2 ^ k - 1)) map' (kept (tc_depth c) w ++ [tag]) →
  rep (mkTagCache (<[tc_oldest c := tag]> (tc_ring c)) map' (tc_depth c) (tc_map_mask c)
         (if tc_depth c <=? tc_oldest c + 1 then 0 else tc_oldest c + 1))
    (kept (tc_depth c) w ++ [tag]).
Proof.
  intros H Htag Hin Hm Hk Ht. destruct (rep_evicted c w H) as (x & Hx & Hrest & Hev).
  pose proof (rotation_step _ _ _ tag Hx) as Hstep. pose proof H as [Hl Ho _ Htags Hnd Hs _].
  pose proof (rep_bound _ _ H) as Hb. rewrite Hl, app_assoc, Hrest, <- app_assoc in Hstep.
  set (w0 := kept (tc_depth c) w) in *.
  assert (Hw0 : Forall (λ t, t ≠ TAG_NULL) w0 ∧ NoDup w0 ∧ tag ∉ w0).
  { destruct Hev as [(_ & -> & _)|(_ & E & _)]; [done|]. rewrite E in Htags, Hnd, Hin.
    apply Forall_cons_1 in Htags. apply NoDup_cons in Hnd. split; [apply Htags|]. split; [apply Hnd|].
    intros ?. apply Hin. by right. }
  assert (Hlen : length (w0 ++ [tag]) = S (length w0)) by (rewrite length_app; cbn; lia).
  assert (Hw : length w0 < tc_depth c ∧ (length w0 = length w ∨ S (length w0) = tc_depth c)).
  { destruct Hev as [(_ & -> & ?)|(_ & E & ?)]; [lia|]. apply (f_equal length) in E. cbn in E. lia. }
  destruct Hw0 as (? & ? & ?).
  split; cbn [tc_ring tc_map tc_depth tc_map_mask tc_oldest].
  - by rewrite length_insert.
  - destruct (Nat.leb_spec (tc_depth c) (tc_oldest c + 1)); lia.
  - by rewrite Hstep, Hlen.
  - apply Forall_app. by split; [|apply Forall_singleton].
  - by apply NoDup_snoc.
  - rewrite Hlen. destruct (Nat.leb_spec (tc_depth c) (tc_oldest c + 1)); lia.
  - by exists k.
Qed.

Lemma table_ext k start map w w' :
  (∀ t, t ∈ w ↔ t ∈ w') → table k start map w → table k start map w'.
Proof. intros Hw [Hl Ho He Hp]. split; [done..| |done]. intros t Ht. by rewrite He, Hw. Qed.

Lemma insert_rep c w tag :
  rep c w → tag ≠ TAG_NULL →
  ∃ c', TagCache_insert c tag = Returned ((window_insert (tc_depth c) w tag).1, c') ∧
    tc_depth c' = tc_depth c ∧ rep c' (window_insert (tc_depth c) w tag).2.
Proof.
  intros H Htag. destruct (probe_rep c w tag H Htag) as (slot & Hprobe & k & Hm & Hk & Ht & Hpr).
  unfold TagCache_insert, window_insert. rewrite Hprobe, Returned_bind.
  case_decide as Hin; [rewrite bool_decide_eq_true_2 by done; by exists c|].
  rewrite bool_decide_eq_false_2 in * by done.
  pose proof (rep_length _ _ H) as Hl. pose proof (rep_oldest _ _ H) as Ho.
  pose proof (table_insert k _ _ _ _ _ Ht Htag Hin Hpr) as Ht'.
  destruct Hpr as (Hslot & _). cbn in Hslot.
  rewrite (store_lt k _ _ _ (table_length k _ _ _ Ht) Hslot), Returned_bind.
  destruct (rep_evicted c w H) as (x & Hx & _ & Hev). unfold index. rewrite Hx, Returned_bind.
  unfold store. rewrite (proj2 (Nat.ltb_lt _ _)), Returned_bind by lia.
  assert (Hmap : ∃ map', (if Z.eqb x TAG_NULL then Returned (<[slot := tag]> (tc_map c))
                   else TagCache_remove (<[slot := tag]> (tc_map c)) (tc_map_mask c) x) = Returned map' ∧
                 table k (start_slot (2 ^ k - 1)) map' (kept (tc_depth c) w ++ [tag])).
  { destruct Hev as [(-> & Hkept & _)|(Hxn & E & Hlen)].
    - eexists. split; [done|]. rewrite Hkept. eapply table_ext, Ht'. set_solver.
    - rewrite (proj2 (Z.eqb_neq _ _) Hxn), Hm. pose proof (rep_NoDup _ _ H) as Hnd.
      generalize dependent (kept (tc_depth c) w). intros w0 E. rewrite E in Ht', Hnd, Hin, Hlen.
      apply NoDup_cons in Hnd as [Hx' _]. rewrite not_elem_of_cons in Hin.
      apply (remove_spec k _ (tag :: x :: w0)); [done..|set_solver|cbn in *; lia|].
      intros t. rewrite elem_of_app, !elem_of_cons, elem_of_nil. naive_solver. }
  destruct Hmap as (map' & -> & Hmap). rewrite Returned_bind. eexists. split; [done|]. split; [done|].
  by apply (rep_push c w tag k).
Qed.

Lemma filter_null_app n (w : list Z) :
  Forall (λ t, t ≠ TAG_NULL) w →
  filter (λ t, t ≠ TAG_NULL) (replicate n TAG_NULL ++ w) = w.
Proof.
  intros H. induction n as [|n IH]; cbn [replicate app]; [by apply list_filter_all|].
  rewrite filter_cons, decide_False by auto. done.
Qed.

Lemma len_rep c w : rep c w → TagCache_len c = length w.
Proof.
  intros H. rewrite <- (filter_null_app (tc_depth c - length w) w) by apply (rep_tags _ _ H).
  rewrite <- (rep_ring _ _ H). unfold TagCache_len, rotation.
  apply Permutation_length, filter_Permutation. rewrite Permutation_app_comm. by rewrite take_drop.
Qed.

Lemma is_empty_rep c w : rep c w → TagCache_is_empty c = Returned (bool_decide (w = [])).
Proof.
  intros H. pose proof H as [Hl Ho Hr Htags _ Hs _]. unfold TagCache_is_empty, index.
  destruct (lookup_lt_is_Some_2 (tc_ring c) 0) as [x Hx]; [lia|]. rewrite Hx, Returned_bind. f_equal.
  destruct (Nat.eqb_spec (tc_oldest c) 0) as [E|E].
  - rewrite E in Hr. unfold rotation in Hr. rewrite drop_0, take_0, app_nil_r in Hr. rewrite Hr in Hx.
    rewrite andb_true_r. destruct w as [|y w].
    + rewrite app_nil_r in Hx. apply lookup_replicate in Hx as [-> _]. done.
    + assert (length (y :: w) = tc_depth c) as Hd by (destruct Hs; cbn in *; lia).
      rewrite Hd, Nat.sub_diag in Hx. cbn in Hx. simplify_eq.
      apply Forall_cons_1 in Htags as [Hy _]. by rewrite (proj2 (Z.eqb_neq _ _) Hy).
  - rewrite andb_false_r. symmetry. apply bool_decide_eq_false. intros ->. cbn in Hs. lia.
Qed.

(** An empty cache. *)
Lemma fresh_rep depth k :
  1 ≤ depth → depth + 2 ≤ 2 ^ k →
  rep (mkTagCache (replicate depth TAG_NULL) (replicate (2 ^ k) TAG_NULL) depth (2 ^ k - 1) 0) [].
Proof.
  intros Hd Hk. split; cbn [tc_ring tc_map tc_depth tc_map_mask tc_oldest].
  - apply length_replicate.
  - lia.
  - unfold rotation. by rewrite drop_0, take_0, app_nil_r, app_nil_r, Nat.sub_0_r.
  - constructor.
  - constructor.
  - by left.
  - exists k. split_and!; [done..|]. apply table_empty.
Qed.

Lemma reset_rep c w : rep c w → rep (TagCache_reset c) [].
Proof.
  intros H. destruct (rep_table _ _ H) as (k & Hm & Hk & Ht). unfold TagCache_reset.
  rewrite (rep_length _ _ H), (table_length _ _ _ _ Ht), Hm. apply fresh_rep; [|done].
  pose proof (rep_oldest _ _ H). lia.
Qed.

(** The default table is a power of two with room for the window and two more. *)
Lemma map_cnt_default_pow depth :
  1 ≤ depth → (Z.of_nat depth + 1 < 2 ^ 62)%Z →
  ∃ k, map_cnt_default depth = 2 ^ k ∧ depth + 2 ≤ 2 ^ k.
Proof.
  intros Hd Hb. unfold map_cnt_default, SPARSE_DEFAULT.
  rewrite (proj2 (Nat.eqb_neq _ _)) by lia. set (n := (Z.of_nat depth + 1)%Z).
  pose proof (Z.log2_nonneg n). assert (Hlog : (Z.log2 n < 62)%Z) by (apply Z.log2_lt_pow2; lia).
  destruct (Z.log2_spec n ltac:(lia)) as [_ Hup].
  exists (Z.to_nat (Z.log2 n + 2)). rewrite Z.mod_small, Z.shiftl_1_l by lia.
  assert (Hpow : (2 ^ (Z.log2 n + 2) = 2 * 2 ^ Z.succ (Z.log2 n))%Z).
  { rewrite <- Z.pow_succ_r by lia. f_equal. lia. }
  assert (H64 : (2 ^ (Z.log2 n + 2) < 2 ^ 64)%Z) by (apply Z.pow_lt_mono_r; lia).
  rewrite wrap64_small by (unfold is_u64, u64_max; lia).
  assert (E : (Z.of_nat (2 ^ Z.to_nat (Z.log2 n + 2)) = 2 ^ (Z.log2 n + 2))%Z).
  { rewrite Nat2Z.inj_pow, Z2Nat.id by lia. done. }
  lia.
Qed.

Lemma is_power_of_two_pow k : is_power_of_two (2 ^ k) = true.
Proof.
  unfold is_power_of_two. pose proof (Nat.pow_nonzero 2 k).
  rewrite (proj2 (Nat.ltb_lt _ _)) by lia. apply Nat.eqb_eq.
  rewrite Nat.sub_1_r, <- Nat.ones_equiv, Nat.land_ones. by rewrite Nat.Div0.mod_same.
Qed.

Lemma new_rep depth :
  1 ≤ depth → (Z.of_nat depth + 1 < 2 ^ 62)%Z →
  ∃ c, TagCache_new depth = Returned c ∧ tc_depth c = depth ∧ rep c [].
Proof.
  intros Hd Hb. destruct (map_cnt_default_pow depth Hd Hb) as (k & Hk & Hle).
  unfold TagCache_new, TagCache_with_map_cnt.
  rewrite (proj2 (Nat.leb_le _ _) Hd), Hk, is_power_of_two_pow, (proj2 (Nat.leb_le _ _) Hle).
  eexists. split; [done|]. split; [done|]. by apply fresh_rep.
Qed.

Lemma cache_step_rep c w call :
  rep c w → call_ok call →
  ∃ c', cache_step c call = Returned ((spec_step (tc_depth c) w call).1, c') ∧
    tc_depth c' = tc_depth c ∧ rep c' (spec_step (tc_depth c) w call).2.
Proof.
  intros H Hok. destruct call as [tag|tag| | |]; cbn [cache_step spec_step].
  - destruct (insert_rep c w tag H (proj1 Hok)) as (c' & -> & Hd & Hc'). rewrite Returned_bind.
    destruct (window_insert (tc_depth c) w tag) as [dup w']. eauto.
  - rewrite (contains_rep c w tag H (proj1 Hok)), Returned_bind. eauto.
  - eexists. split; [done|]. split; [done|]. by eapply reset_rep.
  - rewrite (len_rep c w H). eauto.
  - rewrite (is_empty_rep c w H), Returned_bind. eauto.
Qed.

Lemma cache_run_rep calls c w :
  rep c w → Forall call_ok calls → cache_run c calls = Returned (spec_run (tc_depth c) w calls).
Proof.
  intros H Hok. revert c w H. induction Hok as [|call calls Hcall _ IH]; intros c w H; [done|].
  cbn [cache_run spec_run]. destruct (cache_step_rep c w call H Hcall) as (c' & -> & Hd & Hc').
  rewrite Returned_bind. destruct (spec_step (tc_depth c) w call) as [a w'].
  by rewrite (IH c' w' Hc'), Hd.
Qed.

(** C29. The tag cache is a window of the last [depth] unique tags: whatever sequence of
    inserts, queries and resets a client makes, every call returns (no index is out of
    range, no probe loops on the table), an insert reports a duplicate exactly when the tag
    is among the last [depth] unique tags inserted since the last reset, and the length and
    emptiness are the window's. *)
Theorem tag_cache_refines_window depth calls :
  1 ≤ depth → (Z.of_nat depth + 1 < 2 ^ 62)%Z → Forall call_ok calls →
  (c ← TagCache_new depth; cache_run c calls) = Returned (spec_run depth [] calls).
Proof.
  intros Hd Hb Hok. destruct (new_rep depth Hd Hb) as (c & -> & <- & Hc).
  rewrite Returned_bind. by apply cache_run_rep.
Qed.

(** A cache of two tags on a table of eight slots: the three tags start at the same slot, so
    that evicting the first one shifts the other two back. *)
Lemma tag_cache_refines_window_witness :
  (c ← TagCache_new 2;
   cache_run c [Insert 8; Insert 16; Insert 8; Insert 24; Contains 8; Contains 16; Contains 24; Len; Reset;
                IsEmpty])
  = Returned [Flag false; Flag false; Flag true; Flag false; Flag false; Flag true; Flag true; Count 2; Unit;
              Flag true].
Proof.
  rewrite (tag_cache_refines_window 2); [reflexivity|lia|lia|].
  repeat constructor; done.
Defined.
