(* ===== verification/DedupStage.v ===== *)
(** * The transaction deduplication stage

    [karstflow-stages/src/dedup_stage.rs]: the [TransactionCache] (a ring of
    tags and an open-addressing hash map) and the stage that counts what it
    lets through.  The table is the one of [TagCache] with another hash, so its
    invariant ([table], here with [slot_for] as the start slot) and the probe
    loop are shared; the deletion is the stage's own.

    The loops take an explicit fuel: a result [Returned] does not depend on it,
    and a loop that never ends is [Looping] for every fuel.

    [dedup_exact_until_full]: as long as no tag has been evicted the stage is
    exact.  [dedup_eviction_defects]: [remove_from_map] moves the hole past a
    tag that stays in place without filling it, so that an eviction can forget
    another tag, keep the evicted one, and in the end fill the map, where an
    insert loops forever. *)

From stdpp Require Import base tactics numbers list gmap.
From Stdlib Require Import ZArith Lia.
From S2P Require Import Prelude TagCache.
Local Open Scope nat_scope.

Definition NULL_TAG : Z := 0.
Definition SPARSE_FACTOR : nat := 2.

Record TransactionCache := mkTransactionCache {
  dc_ring : list Z;
  dc_ring_cursor : nat;
  dc_ring_count : nat;
  dc_map : list Z;
  dc_map_mask : nat;
  dc_depth : nat;
}.

Definition TransactionCache_new (depth : nat) : Run TransactionCache :=
  if (0 <? depth) && is_power_of_two depth then
    Returned (mkTransactionCache (replicate depth NULL_TAG) 0 0
                (replicate (depth * SPARSE_FACTOR) NULL_TAG) (depth * SPARSE_FACTOR - 1) depth)
  else Aborted.

(** [tag.wrapping_mul(0x9E3779B97F4A7C15) as usize & self.map_mask] *)
Definition slot_for (mask : nat) (tag : Z) : nat :=
  Z.to_nat (Z.land (wrap64 (tag * 0x9E3779B97F4A7C15)) (Z.of_nat mask)).

Definition should_shift (empty candidate natural : nat) : bool :=
  if empty <=? candidate then (natural <=? empty) || (candidate <? natural)
  else (natural <=? empty) && (candidate <? natural).

(** The loop that shifts the entries after the removed one; returns the map and [empty]. *)
Fixpoint shift_loop (fuel : nat) (map : list Z) (mask empty : nat) : Run (list Z * nat) :=
  match fuel with
  | O => Looping
  | S fuel' =>
      let next := Nat.land (empty + 1) mask in
      next_tag ← index map next;
      if Z.eqb next_tag NULL_TAG then Returned (map, empty)
      else if should_shift empty next (slot_for mask next_tag) then
        map ← store map empty next_tag;
        shift_loop fuel' map mask next
      else
        let scan := Nat.land (next + 1) mask in
        scan_tag ← index map scan;
        if Z.eqb scan_tag NULL_TAG then Returned (map, empty)
        else shift_loop fuel' map mask next
  end.

Definition remove_from_map (fuel : nat) (map : list Z) (mask : nat) (tag : Z) : Run (list Z) :=
  '(found, slot) ← probe_loop fuel map mask tag (slot_for mask tag);
  if (found : bool) then
    '(map, empty) ← shift_loop fuel map mask slot;
    store map empty NULL_TAG
  else Returned map.

(** The last loop of [insert]: store the tag in the first empty slot. *)
Fixpoint place_loop (fuel : nat) (map : list Z) (mask : nat) (tag : Z) (slot : nat) : Run (list Z) :=
  match fuel with
  | O => Looping
  | S fuel' =>
      existing ← index map slot;
      if Z.eqb existing NULL_TAG then store map slot tag
      else place_loop fuel' map mask tag (Nat.land (slot + 1) mask)
  end.

Definition TransactionCache_insert (fuel : nat) (c : TransactionCache) (tag : Z) :
    Run (bool * TransactionCache) :=
  if Z.eqb tag NULL_TAG then Returned (false, c)
  else
    '(found, _) ← probe_loop fuel (dc_map c) (dc_map_mask c) tag (slot_for (dc_map_mask c) tag);
    if (found : bool) then Returned (true, c)
    else
      '(map, ring_count) ←
        (if dc_ring_count c =? dc_depth c then
           evicted ← index (dc_ring c) (dc_ring_cursor c);
           map ← (if Z.eqb evicted NULL_TAG then Returned (dc_map c)
                  else remove_from_map fuel (dc_map c) (dc_map_mask c) evicted);
           Returned (map, dc_ring_count c)
         else Returned (dc_map c, dc_ring_count c + 1));
      ring ← store (dc_ring c) (dc_ring_cursor c) tag;
      map ← place_loop fuel map (dc_map_mask c) tag (slot_for (dc_map_mask c) tag);
      Returned (false, mkTransactionCache ring ((dc_ring_cursor c + 1) mod dc_depth c) ring_count map
                         (dc_map_mask c) (dc_depth c)).

Definition TransactionCache_query (fuel : nat) (c : TransactionCache) (tag : Z) : Run bool :=
  if Z.eqb tag NULL_TAG then Returned false
  else
    '(found, _) ← probe_loop fuel (dc_map c) (dc_map_mask c) tag (slot_for (dc_map_mask c) tag);
    Returned found.

Definition TransactionCache_reset (c : TransactionCache) : TransactionCache :=
  mkTransactionCache (replicate (length (dc_ring c)) NULL_TAG) 0 0
    (replicate (length (dc_map c)) NULL_TAG) (dc_map_mask c) (dc_depth c).

Inductive DedupOutcome := Unique | Duplicate.

Record DedupStats := mkDedupStats {
  total_checked : Z;
  duplicates_found : Z;
  unique_passed : Z;
}.

Record DedupStage := mkDedupStage {
  ds_cache : TransactionCache;
  ds_stats : DedupStats;
}.

Definition DedupStage_new (depth : nat) : Run DedupStage :=
  cache ← TransactionCache_new depth;
  Returned (mkDedupStage cache (mkDedupStats 0 0 0)).

Definition DedupStage_check (fuel : nat) (s : DedupStage) (tag : Z) : Run (DedupOutcome * DedupStage) :=
  let st := ds_stats s in
  let total := u64_add (total_checked st) 1 in
  '(dup, cache) ← TransactionCache_insert fuel (ds_cache s) tag;
  if (dup : bool) then
    Returned (Duplicate,
              mkDedupStage cache (mkDedupStats total (u64_add (duplicates_found st) 1) (unique_passed st)))
  else
    Returned (Unique,
              mkDedupStage cache (mkDedupStats total (duplicates_found st) (u64_add (unique_passed st) 1))).

Definition DedupStage_reset_stats (s : DedupStage) : DedupStage := mkDedupStage (ds_cache s) (mkDedupStats 0 0 0).

Definition DedupStage_reset_all (s : DedupStage) : DedupStage :=
  mkDedupStage (TransactionCache_reset (ds_cache s)) (mkDedupStats 0 0 0).

(** The checks of a stream of tags. *)
Fixpoint check_all (fuel : nat) (s : DedupStage) (tags : list Z) : Run (list DedupOutcome * DedupStage) :=
  match tags with
  | [] => Returned ([], s)
  | tag :: tags' =>
      '(o, s) ← DedupStage_check fuel s tag;
      '(os, s) ← check_all fuel s tags';
      Returned (o :: os, s)
  end.

(** ** What the stage means to do

    A tag is a duplicate when it has been seen; the sentinel never is. *)
Definition seen_step (seen : list Z) (tag : Z) : DedupOutcome * list Z :=
  if decide (tag = NULL_TAG) then (Unique, seen)
  else if decide (tag ∈ seen) then (Duplicate, seen)
  else (Unique, tag :: seen).

Fixpoint seen_outcomes (seen : list Z) (tags : list Z) : list DedupOutcome :=
  match tags with
  | [] => []
  | tag :: tags' =>
      let '(o, seen') := seen_step seen tag in o :: seen_outcomes seen' tags'
  end.

(** The distinct tags of a stream. *)
Definition distinct_tags (tags : list Z) : gset Z := list_to_set (filter (λ t, t ≠ NULL_TAG) tags).

#[export] Instance DedupOutcome_eq_dec : EqDecision DedupOutcome.
Proof. solve_decision. Defined.

Lemma slot_for_lt k tag : slot_for (2 ^ k - 1) tag < 2 ^ k.
Proof. apply land_mask_lt. Qed.

(** ** While nothing is evicted *)

(** The tag goes where the probe stopped. *)
Lemma place_after_probe fuel map mask tag idx i :
  probe_loop fuel map mask tag idx = Returned (false, i) →
  place_loop fuel map mask tag idx = store map i tag.
Proof.
  revert idx. induction fuel as [|fuel IH]; intros idx; [done|]. cbn [probe_loop place_loop].
  unfold index. destruct (map !! idx) as [t|]; [|done]. rewrite !Returned_bind.
  destruct (Z.eqb_spec t tag); [done|]. change NULL_TAG with TAG_NULL.
  destruct (Z.eqb_spec t TAG_NULL); [|apply IH]. by intros [= <-].
Qed.

Record holds (k : nat) (c : TransactionCache) (seen : list Z) : Prop := {
  holds_depth : dc_depth c = 2 ^ k;
  holds_mask : dc_map_mask c = 2 ^ S k - 1;
  holds_count : dc_ring_count c = length seen;
  holds_room : length seen ≤ 2 ^ k;
  holds_ring : length (dc_ring c) = 2 ^ k;
  holds_cursor : dc_ring_cursor c < 2 ^ k;
  holds_table : table (S k) (slot_for (2 ^ S k - 1)) (dc_map c) seen;
}.

Lemma insert_holds fuel k c seen tag :
  2 ^ S k ≤ fuel → holds k c seen → tag ≠ NULL_TAG →
  (tag ∉ seen → length seen < 2 ^ k) →
  ∃ c', TransactionCache_insert fuel c tag = Returned (bool_decide (tag ∈ seen), c') ∧
    holds k c' (if decide (tag ∈ seen) then seen else tag :: seen).
Proof.
  intros Hfuel [Hd Hm Hc Hroom Hr Hcur Ht] Htag Hnew. pose proof Ht as [Hl Ho He _].
  pose proof (Nat.pow_nonzero 2 k). assert (Hpow : 2 ^ S k = 2 * 2 ^ k) by done.
  destruct (exists_null (S k) _ seen Hl Ho) as (z & Hz & Hnull); [intros; by apply He|lia|].
  destruct (probe_spec (S k) _ (slot_for_lt (S k)) fuel _ tag z Hfuel Hl Hz Hnull Htag)
    as ([b i] & Hprobe & Hpr).
  pose proof (probed_found (S k) _ (slot_for_lt (S k)) _ _ _ _ Ht Htag Hpr) as Hb. cbn in Hb. subst b.
  unfold TransactionCache_insert. rewrite (proj2 (Z.eqb_neq _ _) Htag), Hm, Hprobe, Returned_bind.
  destruct (decide (tag ∈ seen)) as [Hin|Hin]; [rewrite bool_decide_eq_true_2 by done; by exists c|].
  rewrite bool_decide_eq_false_2 in * by done. specialize (Hnew Hin).
  rewrite (proj2 (Nat.eqb_neq _ _)), Returned_bind by lia.
  unfold store at 1. rewrite (proj2 (Nat.ltb_lt _ _)), Returned_bind by lia.
  rewrite (place_after_probe _ _ _ _ _ _ Hprobe).
  pose proof (table_insert (S k) _ _ _ _ _ Ht Htag Hin Hpr) as Ht'.
  rewrite (store_lt (S k) _ _ _ Hl (proj1 Hpr)), Returned_bind. eexists. split; [done|].
  split; cbn [dc_ring dc_ring_cursor dc_ring_count dc_map dc_map_mask dc_depth length]; try done; try lia.
  - by rewrite length_insert.
  - rewrite Hd. apply Nat.mod_upper_bound. lia.
Qed.

Lemma new_holds k :
  ∃ c, TransactionCache_new (2 ^ k) = Returned c ∧ holds k c [].
Proof.
  pose proof (Nat.pow_nonzero 2 k) as Hn. unfold TransactionCache_new, SPARSE_FACTOR.
  rewrite (proj2 (Nat.ltb_lt _ _)), is_power_of_two_pow by lia.
  rewrite (Nat.mul_comm (2 ^ k) 2). change (2 * 2 ^ k) with (2 ^ S k).
  eexists. split; [done|].
  split; cbn [dc_ring dc_ring_cursor dc_ring_count dc_map dc_map_mask dc_depth length]; try done; try lia.
  - apply length_replicate.
  - apply table_empty.
Qed.

(** The counters of the stage after the outcomes [os]. *)
Definition counted (st : DedupStats) (os : list DedupOutcome) : Prop :=
  total_checked st = Z.of_nat (length os) ∧
  duplicates_found st = Z.of_nat (length (filter (λ o, o = Duplicate) os)) ∧
  unique_passed st = Z.of_nat (length (filter (λ o, o = Unique) os)).


Lemma counted_snoc st os o :
  counted st os → (Z.of_nat (length os) < u64_max)%Z →
  counted (mkDedupStats (u64_add (total_checked st) 1)
             (if decide (o = Duplicate) then u64_add (duplicates_found st) 1 else duplicates_found st)
             (if decide (o = Unique) then u64_add (unique_passed st) 1 else unique_passed st))
    (os ++ [o]).
Proof.
  intros (Ht & Hd & Hu) Hb. unfold counted, u64_add. cbn [total_checked duplicates_found unique_passed].
  pose proof (length_filter (λ o, o = Duplicate) os). pose proof (length_filter (λ o, o = Unique) os).
  rewrite Ht, Hd, Hu, !filter_app, !length_app, !filter_cons, !filter_nil.
  destruct o; cbn [decide app length]; rewrite !wrap64_small by (unfold is_u64; lia);
    split_and!; vm_compute decide; cbn [length]; lia.
Qed.

Lemma seen_step_NoDup seen tag : NoDup seen → NoDup (seen_step seen tag).2.
Proof.
  intros Hnd. unfold seen_step. destruct (decide (tag = NULL_TAG)), (decide (tag ∈ seen)); cbn; try done.
  by constructor.
Qed.

(** The stream adds the same tags after the step as with it. *)
Lemma seen_step_tags seen tag tags :
  list_to_set (seen_step seen tag).2 ∪ distinct_tags tags
  = list_to_set seen ∪ distinct_tags (tag :: tags).
Proof.
  unfold seen_step, distinct_tags. rewrite filter_cons.
  destruct (decide (tag = NULL_TAG)) as [->|Hn]; [by rewrite decide_False by auto|].
  rewrite (decide_True (P := tag ≠ NULL_TAG)) by exact Hn. destruct (decide (tag ∈ seen)); cbn; set_solver.
Qed.

Lemma check_holds fuel k s seen os tag :
  2 ^ S k ≤ fuel → holds k (ds_cache s) seen →
  length (seen_step seen tag).2 ≤ 2 ^ k →
  counted (ds_stats s) os → (Z.of_nat (length os) < u64_max)%Z →
  ∃ s', DedupStage_check fuel s tag = Returned ((seen_step seen tag).1, s') ∧
    holds k (ds_cache s') (seen_step seen tag).2 ∧ counted (ds_stats s') (os ++ [(seen_step seen tag).1]).
Proof.
  intros Hfuel Hh Hroom Hc Hb. pose proof (counted_snoc _ _ (seen_step seen tag).1 Hc Hb) as Hc'.
  unfold DedupStage_check, seen_step in *.
  destruct (decide (tag = NULL_TAG)) as [->|Htag].
  { unfold TransactionCache_insert. rewrite Z.eqb_refl, Returned_bind. eauto. }
  destruct (insert_holds fuel k (ds_cache s) seen tag Hfuel Hh Htag) as (c' & -> & Hc'').
  { intros Hin. rewrite (decide_False _ _ Hin) in Hroom. cbn in Hroom. lia. }
  rewrite Returned_bind. destruct (decide (tag ∈ seen)) as [Hin|Hin].
  - rewrite bool_decide_eq_true_2 by done. eauto.
  - rewrite bool_decide_eq_false_2 by done. eauto.
Qed.

Lemma check_all_holds fuel k s seen os tags :
  2 ^ S k ≤ fuel → holds k (ds_cache s) seen → NoDup seen →
  size (list_to_set seen ∪ distinct_tags tags) ≤ 2 ^ k →
  counted (ds_stats s) os → (Z.of_nat (length os + length tags) <= u64_max)%Z →
  ∃ s', check_all fuel s tags = Returned (seen_outcomes seen tags, s') ∧
    counted (ds_stats s') (os ++ seen_outcomes seen tags).
Proof.
  intros Hfuel. revert s seen os. induction tags as [|tag tags IH]; intros s seen os Hh Hnd Hroom Hc Hb.
  { exists s. by rewrite app_nil_r. }
  cbn [length] in Hb. rewrite <- seen_step_tags in Hroom. apply (seen_step_NoDup _ tag) in Hnd.
  destruct (check_holds fuel k s seen os tag Hfuel Hh) as (s1 & E1 & Hh1 & Hc1); [|done|lia|].
  { rewrite <- (size_list_to_set (C := gset Z)) by done. etrans; [|exact Hroom].
    apply subseteq_size. set_solver. }
  cbn [check_all seen_outcomes]. rewrite E1, Returned_bind.
  destruct (seen_step seen tag) as [o seen1]; cbn [fst snd] in *.
  destruct (IH s1 seen1 (os ++ [o]) Hh1 Hnd Hroom Hc1) as (s2 & -> & Hc2).
  { rewrite length_app. cbn. lia. }
  rewrite Returned_bind. exists s2. split; [done|]. by rewrite <- app_assoc in Hc2.
Qed.

(** C40. The deduplication stage is exact until it has to evict: over a stream of at most
    [depth] distinct tags every check returns, a tag is reported as a duplicate exactly when
    it has been checked before (the sentinel never is), and the three counters count the
    checks, the duplicates and the unique tags. *)
Theorem dedup_exact_until_full k fuel tags :
  2 ^ S k ≤ fuel → size (distinct_tags tags) ≤ 2 ^ k → (Z.of_nat (length tags) <= u64_max)%Z →
  ∃ s', (s ← DedupStage_new (2 ^ k); check_all fuel s tags) = Returned (seen_outcomes [] tags, s') ∧
    counted (ds_stats s') (seen_outcomes [] tags).
Proof.
  intros Hfuel Hroom Hb. destruct (new_holds k) as (c & Hnew & Hh).
  unfold DedupStage_new. rewrite Hnew, !Returned_bind.
  apply (check_all_holds fuel k _ [] []); [done..|constructor| |done|done].
  by rewrite list_to_set_nil, (left_id_L ∅ (∪)).
Qed.

Lemma dedup_exact_until_full_witness :
  ∃ s', (s ← DedupStage_new (2 ^ 2); check_all 8 s [38; 33; 0; 38; 35; 0; 33]%Z)
        = Returned ([Unique; Unique; Unique; Duplicate; Unique; Unique; Duplicate], s') ∧
    counted (ds_stats s') [Unique; Unique; Unique; Duplicate; Unique; Unique; Duplicate].
Proof.
  apply (dedup_exact_until_full 2 8 [38; 33; 0; 38; 35; 0; 33]%Z); [cbn; lia| |cbn; unfold u64_max; lia].
  vm_compute. lia.
Defined.

(** ** Evictions *)

(** A probe over a full table that does not hold the tag never ends. *)
Lemma probe_loops fuel map mask tag idx :
  Forall (λ t, t ≠ NULL_TAG ∧ t ≠ tag) map →
  idx < length map → (∀ i, i < length map → Nat.land (i + 1) mask < length map) →
  probe_loop fuel map mask tag idx = Looping.
Proof.
  intros Hall Hi Hnext. revert idx Hi. induction fuel as [|fuel IH]; intros idx Hi; [done|].
  cbn [probe_loop]. unfold index. destruct (lookup_lt_is_Some_2 map idx Hi) as [t Ht].
  rewrite Ht, Returned_bind. rewrite Forall_lookup in Hall. destruct (Hall _ _ Ht) as [Hn Hne].
  rewrite (proj2 (Z.eqb_neq _ _) Hne), (proj2 (Z.eqb_neq t TAG_NULL) Hn). apply IH, Hnext. done.
Qed.

(** The deletion of [remove_from_map] is wrong.  In a cache of four tags: the tag 35 is checked
    twice among the last four unique ones and passes both times; the tag 31 is reported as a
    duplicate after four others have followed it; and after the twelve tags of [filling], all
    unique, the map is full and checking one more tag never returns. *)
Theorem dedup_eviction_defects :
  (∃ s, (s ← DedupStage_new 4; check_all 64 s [38; 33; 35; 19; 27; 35]%Z)
        = Returned (replicate 6 Unique, s)) ∧
  (∃ s, (s ← DedupStage_new 4; check_all 64 s [31; 36; 7; 11; 20; 31]%Z)
        = Returned (replicate 5 Unique ++ [Duplicate], s)) ∧
  (∃ s, (s ← DedupStage_new 4; check_all 64 s [26; 4; 50; 12; 34; 17; 13; 22; 62; 57; 60; 6]%Z)
        = Returned (replicate 12 Unique, s) ∧
        ∀ fuel, DedupStage_check fuel s 7 = Looping).
Proof.
  split_and!; [by eexists; vm_compute|by eexists; vm_compute|].
  eexists. split; [by vm_compute|]. intros fuel. unfold DedupStage_check, TransactionCache_insert.
  cbn [ds_cache ds_stats dc_map dc_map_mask Z.eqb]. rewrite probe_loops; [done|repeat constructor; done| |].
  - vm_compute. lia.
  - cbn [length]. intros i Hi. do 8 (destruct i as [|i]; [vm_compute; lia|]). lia.
Qed.
