(* ===== verification/WireFormat.v ===== *)
(** * The wire format of transactions

    [karstflow-types/src/compact.rs] (the compact-u16 length prefix),
    [transaction.rs] (legacy transactions) and [versioned.rs] (version 0
    messages with address table lookups).

    A byte string is a [list Z] of bytes and a [u16] a [Z].  A parser takes the
    input and an offset, as the functions of the source do with [data] and
    [offset]: it returns a value and the new offset, an error, or panics where
    a slice [&data[offset..]] starts past the end.  A serializer returns the
    bytes it appends to the buffer, or panics where [encode_compact_u16] writes
    past its three-byte buffer.

    [reads] and [safe] are the two laws of a parser: it reads back what the
    serializer wrote, and on any input it stays within the data and returns a
    well-formed value.  Both are proved once per combinator. *)

From stdpp Require Import base tactics numbers list gmap.
From Stdlib Require Import ZArith Lia.
From S2P Require Import Prelude.
Local Open Scope Z_scope.

(** ** compact-u16 *)

Inductive CompactError := CompactUnexpectedEnd | CompactOverflow | CompactTooManyBytes.

Definition COMPACT_U16_MAX_ENCODED_SIZE : nat := 3.

(** The loop of [encode_compact_u16], with [room] slots left in the buffer: it
    writes [buf[i]] and panics when the buffer is full. *)
Fixpoint encode_loop (room : nat) (rem : Z) : Outcome (list Z) :=
  match room with
  | O => Panicked
  | S room' =>
      let low := Z.land rem 0x7F in
      let rem := Z.shiftr rem 7 in
      if rem =? 0 then Done [low]
      else rest ← encode_loop room' rem; Done (Z.lor low 0x80 :: rest)
  end.

Definition encode_compact_u16 (value : Z) : Outcome (list Z) :=
  encode_loop COMPACT_U16_MAX_ENCODED_SIZE value.

(** [u16::checked_shl]: it only checks the shift, the bits shifted out are lost. *)
Definition u16_checked_shl (a shift : Z) : option Z :=
  if shift <? 16 then Some (Z.shiftl a shift mod 2 ^ 16) else None.

(** The loop of [decode_compact_u16] at position [i]. *)
Fixpoint decode_loop (data : list Z) (i : nat) (value shift : Z) : result (Z * nat) CompactError :=
  match data with
  | [] => Err CompactUnexpectedEnd
  | byte :: data' =>
      if (COMPACT_U16_MAX_ENCODED_SIZE <=? i)%nat then Err CompactTooManyBytes
      else
        match u16_checked_shl (Z.land byte 0x7F) shift with
        | None => Err CompactOverflow
        | Some low =>
            let value := Z.lor value low in
            if Z.land byte 0x80 =? 0 then Ok (value, (i + 1)%nat)
            else decode_loop data' (i + 1) value (shift + 7)
        end
  end.

Definition decode_compact_u16 (data : list Z) : result (Z * nat) CompactError :=
  if (length data =? 0)%nat then Err CompactUnexpectedEnd else decode_loop data 0 0 0.

(** ** Transactions *)

Definition SIGNATURE_BYTES : nat := 64.

Record MessageHeader := mkMessageHeader {
  num_required_signatures : Z;
  num_readonly_signed_accounts : Z;
  num_readonly_unsigned_accounts : Z;
}.

Record CompiledInstruction := mkCompiledInstruction {
  program_id_index : Z;
  ix_accounts : list Z;
  ix_data : list Z;
}.

Record Message := mkMessage {
  msg_header : MessageHeader;
  msg_account_keys : list (list Z);
  msg_recent_blockhash : list Z;
  msg_instructions : list CompiledInstruction;
}.

Record Transaction := mkTransaction {
  tx_signatures : list (list Z);
  tx_message : Message;
}.

Record MessageAddressTableLookup := mkMessageAddressTableLookup {
  lk_account_key : list Z;
  lk_writable_indexes : list Z;
  lk_readonly_indexes : list Z;
}.

Record MessageV0 := mkMessageV0 {
  v0_header : MessageHeader;
  v0_account_keys : list (list Z);
  v0_recent_blockhash : list Z;
  v0_instructions : list CompiledInstruction;
  v0_address_table_lookups : list MessageAddressTableLookup;
}.

Inductive VersionedMessage :=
| Legacy (m : Message)
| V0 (m : MessageV0).

Record VersionedTransaction := mkVersionedTransaction {
  vtx_signatures : list (list Z);
  vtx_message : VersionedMessage;
}.

Inductive TransactionParseError :=
| UnexpectedEnd
| InvalidCompactEncoding (e : CompactError)
| TooManySignatures (n : Z)
| TooManyAccountKeys (n : Z)
| TooManyInstructions (n : Z)
| InvalidVersionPrefix (prefix : Z).

(** *** Roles of the accounts *)

Definition num_writable_signed (h : MessageHeader) : Z :=
  Z.max (num_required_signatures h - num_readonly_signed_accounts h) 0.

Definition num_writable_unsigned (h : MessageHeader) (total_accounts : Z) : Z :=
  u64_saturating_sub (u64_saturating_sub total_accounts (num_required_signatures h))
    (num_readonly_unsigned_accounts h).

Definition Message_is_signer (m : Message) (index : Z) : bool :=
  index <? num_required_signatures (msg_header m).

Definition Message_is_writable (m : Message) (index : Z) : bool :=
  let num_signed := num_required_signatures (msg_header m) in
  if index <? num_signed then
    index <? u64_saturating_sub num_signed (num_readonly_signed_accounts (msg_header m))
  else
    let ro_unsigned_start :=
      u64_saturating_sub (Z.of_nat (length (msg_account_keys m)))
        (num_readonly_unsigned_accounts (msg_header m)) in
    (num_signed <=? index) && (index <? ro_unsigned_start).

Definition Transaction_new_unsigned (m : Message) : Transaction :=
  mkTransaction (replicate (Z.to_nat (num_required_signatures (msg_header m))) (replicate SIGNATURE_BYTES 0)) m.

(** *** Parsers *)

Definition Parser (A : Type) : Type :=
  list Z → nat → Outcome (result (A * nat) TransactionParseError).

#[export] Instance Parser_ret : MRet Parser := λ A a data offset, Done (Ok (a, offset)).
#[export] Instance Parser_bind : MBind Parser := λ A B f m data offset,
  match m data offset with
  | Done (Ok (a, offset)) => f a data offset
  | Done (Err e) => Done (Err e)
  | Panicked => Panicked
  end.

Definition parse_fail {A} (e : TransactionParseError) : Parser A := λ data offset, Done (Err e).

(** [decode_compact_u16(&data[offset..])] and [offset += consumed] *)
Definition parse_compact : Parser Z := λ data offset,
  if (length data <? offset)%nat then Panicked
  else
    match decode_compact_u16 (drop offset data) with
    | Ok (value, consumed) => Done (Ok (value, (offset + consumed)%nat))
    | Err e => Done (Err (InvalidCompactEncoding e))
    end.

(** [data[offset..offset + n]] after the check of its end, and [offset += n] *)
Definition parse_slice (n : nat) : Parser (list Z) := λ data offset,
  if (length data <? offset + n)%nat then Done (Err UnexpectedEnd)
  else Done (Ok (take n (drop offset data), (offset + n)%nat)).

(** [data[offset]] after the check of its end; the offset stays. *)
Definition parse_peek : Parser Z := λ data offset,
  match data !! offset with
  | Some b => Done (Ok (b, offset))
  | None => Done (Err UnexpectedEnd)
  end.

(** [for _ in 0..n] *)
Fixpoint parse_times {A} (n : nat) (p : Parser A) : Parser (list A) :=
  match n with
  | O => mret []
  | S n' => a ← p; rest ← parse_times n' p; mret (a :: rest)
  end.

Definition MAX_SIGNATURES : Z := 256.
Definition MAX_ACCOUNT_KEYS : Z := 256.
Definition MAX_INSTRUCTIONS : Z := 256.

Definition parse_signatures : Parser (list (list Z)) :=
  num_sigs ← parse_compact;
  if MAX_SIGNATURES <? num_sigs then parse_fail (TooManySignatures num_sigs)
  else parse_times (Z.to_nat num_sigs) (parse_slice SIGNATURE_BYTES).

Definition parse_header : Parser MessageHeader :=
  b ← parse_slice 3;
  mret (mkMessageHeader (nth 0 b 0) (nth 1 b 0) (nth 2 b 0)).

Definition parse_pubkey_array : Parser (list (list Z)) :=
  count ← parse_compact;
  if MAX_ACCOUNT_KEYS <? count then parse_fail (TooManyAccountKeys count)
  else parse_times (Z.to_nat count) (parse_slice 32).

Definition parse_hash : Parser (list Z) := parse_slice 32.

Definition parse_u8_array : Parser (list Z) :=
  count ← parse_compact;
  parse_slice (Z.to_nat count).

Definition parse_instruction : Parser CompiledInstruction :=
  program_id_index ← parse_slice 1;
  accounts ← parse_u8_array;
  ix_data ← parse_u8_array;
  mret (mkCompiledInstruction (nth 0 program_id_index 0) accounts ix_data).

Definition parse_instructions : Parser (list CompiledInstruction) :=
  count ← parse_compact;
  if MAX_INSTRUCTIONS <? count then parse_fail (TooManyInstructions count)
  else parse_times (Z.to_nat count) parse_instruction.

Definition parse_legacy_message : Parser Message :=
  header ← parse_header;
  account_keys ← parse_pubkey_array;
  recent_blockhash ← parse_hash;
  instructions ← parse_instructions;
  mret (mkMessage header account_keys recent_blockhash instructions).

Definition parse_lookup : Parser MessageAddressTableLookup :=
  key ← parse_slice 32;
  writable_indexes ← parse_u8_array;
  readonly_indexes ← parse_u8_array;
  mret (mkMessageAddressTableLookup key writable_indexes readonly_indexes).

Definition parse_message_v0 : Parser MessageV0 :=
  header ← parse_header;
  account_keys ← parse_pubkey_array;
  recent_blockhash ← parse_hash;
  instructions ← parse_instructions;
  num_lookups ← parse_compact;
  lookups ← parse_times (Z.to_nat num_lookups) parse_lookup;
  mret (mkMessageV0 header account_keys recent_blockhash instructions lookups).

(** The whole of a parse: the offset that is left is dropped, trailing bytes are ignored. *)
Definition run_parser {A} (p : Parser A) (data : list Z) : Outcome (result A TransactionParseError) :=
  match p data 0%nat with
  | Done (Ok (a, _)) => Done (Ok a)
  | Done (Err e) => Done (Err e)
  | Panicked => Panicked
  end.

(** [parse_transaction] has the code of the array parsers above inline. *)
Definition parse_transaction (data : list Z) : Outcome (result Transaction TransactionParseError) :=
  run_parser
    (signatures ← parse_signatures;
     header ← parse_header;
     account_keys ← parse_pubkey_array;
     recent_blockhash ← parse_hash;
     instructions ← parse_instructions;
     mret (mkTransaction signatures (mkMessage header account_keys recent_blockhash instructions))) data.

Definition VERSIONED_PREFIX_MASK : Z := 0x80.

Definition parse_versioned_message : Parser VersionedMessage :=
  prefix ← parse_peek;
  if negb (Z.land prefix VERSIONED_PREFIX_MASK =? 0) then
    if negb (Z.land prefix 0x7F =? 0) then parse_fail (InvalidVersionPrefix prefix)
    else
      _ ← parse_slice 1;
      m ← parse_message_v0;
      mret (V0 m)
  else
    m ← parse_legacy_message;
    mret (Legacy m).

Definition parse_versioned_transaction (data : list Z) :
    Outcome (result VersionedTransaction TransactionParseError) :=
  run_parser
    (signatures ← parse_signatures;
     message ← parse_versioned_message;
     mret (mkVersionedTransaction signatures message)) data.

(** *** Serializers *)

(** Appending the output of two steps to the buffer. *)
Definition append (s1 s2 : Outcome (list Z)) : Outcome (list Z) :=
  b1 ← s1; b2 ← s2; Done (b1 ++ b2).
Infix "+++" := append (at level 60, right associativity).

Definition append_all {A} (f : A → Outcome (list Z)) (l : list A) : Outcome (list Z) :=
  foldr (λ a s, f a +++ s) (Done []) l.

(** [encode_compact_u16(len as u16, ..)] and the copy of the encoded bytes *)
Definition serialize_len {A} (l : list A) : Outcome (list Z) :=
  encode_compact_u16 (Z.of_nat (length l) mod 2 ^ 16).

Definition serialize_u8_array (arr : list Z) : Outcome (list Z) :=
  serialize_len arr +++ Done arr.

Definition serialize_pubkey_array (keys : list (list Z)) : Outcome (list Z) :=
  serialize_len keys +++ append_all Done keys.

Definition serialize_instruction (ix : CompiledInstruction) : Outcome (list Z) :=
  Done [program_id_index ix] +++ serialize_u8_array (ix_accounts ix) +++ serialize_u8_array (ix_data ix).

Definition serialize_instructions (ixs : list CompiledInstruction) : Outcome (list Z) :=
  serialize_len ixs +++ append_all serialize_instruction ixs.

Definition serialize_header (h : MessageHeader) : Outcome (list Z) :=
  Done [num_required_signatures h; num_readonly_signed_accounts h; num_readonly_unsigned_accounts h].

Definition serialize_signatures (sigs : list (list Z)) : Outcome (list Z) :=
  serialize_len sigs +++ append_all Done sigs.

Definition serialize_legacy_message (m : Message) : Outcome (list Z) :=
  serialize_header (msg_header m) +++ serialize_pubkey_array (msg_account_keys m) +++
  Done (msg_recent_blockhash m) +++ serialize_instructions (msg_instructions m).

Definition serialize_lookup (l : MessageAddressTableLookup) : Outcome (list Z) :=
  Done (lk_account_key l) +++ serialize_u8_array (lk_writable_indexes l) +++
  serialize_u8_array (lk_readonly_indexes l).

Definition serialize_v0_message (m : MessageV0) : Outcome (list Z) :=
  serialize_header (v0_header m) +++ serialize_pubkey_array (v0_account_keys m) +++
  Done (v0_recent_blockhash m) +++ serialize_instructions (v0_instructions m) +++
  serialize_len (v0_address_table_lookups m) +++ append_all serialize_lookup (v0_address_table_lookups m).

Definition serialize_transaction (tx : Transaction) : Outcome (list Z) :=
  serialize_signatures (tx_signatures tx) +++ serialize_header (msg_header (tx_message tx)) +++
  serialize_pubkey_array (msg_account_keys (tx_message tx)) +++
  Done (msg_recent_blockhash (tx_message tx)) +++ serialize_instructions (msg_instructions (tx_message tx)).

Definition serialize_versioned_transaction (tx : VersionedTransaction) : Outcome (list Z) :=
  serialize_signatures (vtx_signatures tx) +++
  match vtx_message tx with
  | Legacy m => serialize_legacy_message m
  | V0 m => Done [0x80] +++ serialize_v0_message m
  end.

(** The size that [wire_size] computes. *)
Definition CompiledInstruction_wire_size (ix : CompiledInstruction) : Outcome nat :=
  n ← serialize_len (ix_accounts ix);
  k ← serialize_len (ix_data ix);
  Done (1 + length n + length (ix_accounts ix) + length k + length (ix_data ix))%nat.

(** ** compact-u16 round trip *)

Definition is_u16 (z : Z) : Prop := 0 <= z <= u16_max.

Lemma low_bits z : Z.land z 0x7F = z mod 128.
Proof. apply (Z.land_ones z 7). lia. Qed.

Lemma high_bit b : is_byte b → (Z.land b 0x80 =? 0) = (b <? 128).
Proof.
  unfold is_byte, u8_max. intros Hb.
  assert (H : forallb (λ b, Bool.eqb (Z.land b 0x80 =? 0) (b <? 128)) (seqZ 0 256) = true) by (by vm_compute).
  rewrite List.forallb_forall in H. apply Bool.eqb_prop, H, list_elem_of_In, elem_of_seqZ. lia.
Qed.

Lemma continued low : 0 <= low < 128 → Z.lor low 0x80 = low + 128.
Proof. intros H. exact (lor_shiftl low 1 7 ltac:(lia) H). Qed.

(** One step of the decoder on a byte that ends the value, and on one that does not. *)
Lemma decode_last b data i value shift :
  0 <= b < 128 → (i < 3)%nat → 0 <= shift < 16 →
  decode_loop (b :: data) i value shift = Ok (Z.lor value (Z.shiftl b shift mod 2 ^ 16), (i + 1)%nat).
Proof.
  intros Hb Hi Hs. cbn [decode_loop]. unfold COMPACT_U16_MAX_ENCODED_SIZE, u16_checked_shl.
  rewrite (proj2 (Nat.leb_gt _ _)), (proj2 (Z.ltb_lt shift 16)), low_bits, (Z.mod_small b 128) by lia.
  by rewrite high_bit, (proj2 (Z.ltb_lt _ _)) by (unfold is_byte, u8_max; lia).
Qed.

Lemma decode_more b data i value shift :
  0 <= b < 128 → (i < 3)%nat → 0 <= shift < 16 →
  decode_loop (b + 128 :: data) i value shift
  = decode_loop data (i + 1) (Z.lor value (Z.shiftl b shift mod 2 ^ 16)) (shift + 7).
Proof.
  intros Hb Hi Hs. cbn [decode_loop]. unfold COMPACT_U16_MAX_ENCODED_SIZE, u16_checked_shl.
  rewrite (proj2 (Nat.leb_gt _ _)), (proj2 (Z.ltb_lt shift 16)), low_bits by lia.
  replace ((b + 128) mod 128) with b by (rewrite <- Z.add_mod_idemp_r, Z.mod_same, Z.add_0_r, Z.mod_small; lia).
  by rewrite high_bit, (proj2 (Z.ltb_ge _ _)) by (unfold is_byte, u8_max; lia).
Qed.

Lemma lor_part a b k : 0 <= k → 0 <= a < 2 ^ k → 0 <= b → b * 2 ^ k < 2 ^ 16 →
  Z.lor a (Z.shiftl b k mod 2 ^ 16) = a + b * 2 ^ k.
Proof.
  intros Hk Ha Hb Hlt. pose proof (Z.shiftl_mul_pow2 b k Hk) as E.
  rewrite (Z.mod_small (Z.shiftl b k)) by lia. by apply lor_shiftl.
Qed.

(** The three lengths of an encoding. *)
Lemma encode_compact_cases v :
  is_u16 v →
  (v < 128 ∧ encode_compact_u16 v = Done [v]) ∨
  (128 <= v < 16384 ∧ encode_compact_u16 v = Done [v mod 128 + 128; v / 128]) ∨
  (16384 <= v ∧ encode_compact_u16 v = Done [v mod 128 + 128; v / 128 mod 128 + 128; v / 128 / 128]).
Proof.
  unfold is_u16, u16_max, encode_compact_u16, COMPACT_U16_MAX_ENCODED_SIZE. intros Hv.
  cbn [encode_loop]. rewrite !low_bits, !Z.shiftr_div_pow2 by lia. change (2 ^ 7) with 128.
  pose proof (Z.mod_pos_bound v 128). pose proof (Z.mod_pos_bound (v / 128) 128).
  rewrite !continued by lia.
  destruct (Z.ltb_spec v 128); [left|right; destruct (Z.ltb_spec v 16384); [left|right]]; split; try lia.
  - by rewrite (Z.div_small v 128), (Z.mod_small v 128) by lia.
  - assert (v / 128 ≠ 0 ∧ 0 <= v / 128 < 128) as [? ?] by (split; [|split]; pose proof (Z.div_mod v 128); lia).
    rewrite (proj2 (Z.eqb_neq _ _)), (Z.div_small (v / 128) 128), (Z.mod_small (v / 128) 128) by lia. done.
  - pose proof (Z.div_mod v 128). pose proof (Z.div_mod (v / 128) 128).
    assert (0 < v / 128 / 128 < 128) by lia.
    rewrite (proj2 (Z.eqb_neq (v / 128) 0)), (proj2 (Z.eqb_neq (v / 128 / 128) 0)) by lia.
    by rewrite (Z.div_small (v / 128 / 128) 128), (Z.mod_small (v / 128 / 128) 128) by lia.
Qed.

Lemma compact_roundtrip v :
  is_u16 v → ∃ l, encode_compact_u16 v = Done l ∧ Forall is_byte l ∧
    ∀ rest, decode_compact_u16 (l ++ rest) = Ok (v, length l).
Proof.
  intros Hv. pose proof (encode_compact_cases v Hv) as H. unfold is_u16, u16_max in Hv.
  pose proof (Z.div_mod v 128). pose proof (Z.mod_pos_bound v 128).
  pose proof (Z.div_mod (v / 128) 128). pose proof (Z.mod_pos_bound (v / 128) 128).
  destruct H as [[? E]|[[? E]|[? E]]]; eexists; (split; [exact E|]);
    (split; [repeat constructor; unfold is_byte, u8_max; lia|]); intros rest;
    unfold decode_compact_u16; cbn [app length Nat.eqb].
  - rewrite decode_last, lor_part by lia. f_equal. f_equal. lia.
  - rewrite decode_more by lia. change (0 + 7) with 7. rewrite decode_last, (lor_part 0 _ 0), lor_part by lia.
    f_equal. f_equal. lia.
  - rewrite decode_more by lia. change (0 + 7) with 7. rewrite decode_more by lia. change (7 + 7) with 14.
    rewrite decode_last, (lor_part 0 _ 0), (lor_part _ _ 7), lor_part by lia. f_equal. f_equal. lia.
Qed.

(** Whatever the decoder accepts is a [u16] in at most three of the bytes. *)
Lemma decode_loop_bound data i value shift v n :
  Forall is_byte data → is_u16 value → decode_loop data i value shift = Ok (v, n) →
  is_u16 v ∧ (i < n ≤ i + length data)%nat.
Proof.
  intros Hd. revert i value shift. induction Hd as [|b data Hb Hd IH]; intros i value shift Hv; [done|].
  cbn [decode_loop length]. destruct (_ <=? i)%nat; [done|].
  unfold u16_checked_shl. destruct (shift <? 16); [|done].
  assert (Hv' : is_u16 (Z.lor value (Z.shiftl (Z.land b 0x7F) shift mod 2 ^ 16))).
  { unfold is_u16, u16_max in *. pose proof (lor_fits 16 value (Z.shiftl (Z.land b 0x7F) shift mod 2 ^ 16)).
    unfold fits in *. pose proof (Z.mod_pos_bound (Z.shiftl (Z.land b 0x7F) shift) (2 ^ 16)). lia. }
  destruct (Z.land b 0x80 =? 0).
  - intros [= <- <-]. split; [done|lia].
  - intros [? ?]%IH; [|done]. split; [done|lia].
Qed.

Lemma decode_bound data v n :
  Forall is_byte data → decode_compact_u16 data = Ok (v, n) → is_u16 v ∧ (n ≤ length data)%nat.
Proof.
  intros Hd. unfold decode_compact_u16. destruct (length data =? 0)%nat; [done|].
  intros [? ?]%decode_loop_bound; [|done|unfold is_u16, u16_max; lia]. split; [done|lia].
Qed.

(** ** Well-formed transactions: what the types of the source guarantee, and the limits *)

Definition wf_bytes (n : nat) (l : list Z) : Prop := length l = n ∧ Forall is_byte l.
Definition wf_array (l : list Z) : Prop := is_u16 (Z.of_nat (length l)) ∧ Forall is_byte l.

Definition wf_header (h : MessageHeader) : Prop :=
  is_byte (num_required_signatures h) ∧ is_byte (num_readonly_signed_accounts h) ∧
  is_byte (num_readonly_unsigned_accounts h).

Definition wf_instruction (ix : CompiledInstruction) : Prop :=
  is_byte (program_id_index ix) ∧ wf_array (ix_accounts ix) ∧ wf_array (ix_data ix).

Definition wf_list {A} (max : Z) (P : A → Prop) (l : list A) : Prop :=
  Z.of_nat (length l) <= max ∧ Forall P l.

Definition wf_message (m : Message) : Prop :=
  wf_header (msg_header m) ∧ wf_list MAX_ACCOUNT_KEYS (wf_bytes 32) (msg_account_keys m) ∧
  wf_bytes 32 (msg_recent_blockhash m) ∧ wf_list MAX_INSTRUCTIONS wf_instruction (msg_instructions m).

Definition wf_signatures : list (list Z) → Prop := wf_list MAX_SIGNATURES (wf_bytes SIGNATURE_BYTES).

Definition wf_transaction (tx : Transaction) : Prop :=
  wf_signatures (tx_signatures tx) ∧ wf_message (tx_message tx).

Definition wf_lookup (l : MessageAddressTableLookup) : Prop :=
  wf_bytes 32 (lk_account_key l) ∧ wf_array (lk_writable_indexes l) ∧ wf_array (lk_readonly_indexes l).

Definition wf_message_v0 (m : MessageV0) : Prop :=
  wf_header (v0_header m) ∧ wf_list MAX_ACCOUNT_KEYS (wf_bytes 32) (v0_account_keys m) ∧
  wf_bytes 32 (v0_recent_blockhash m) ∧ wf_list MAX_INSTRUCTIONS wf_instruction (v0_instructions m) ∧
  wf_list u16_max wf_lookup (v0_address_table_lookups m).

(** The first byte of a legacy message must not look like a version prefix. *)
Definition wf_versioned_message (m : VersionedMessage) : Prop :=
  match m with
  | Legacy m => wf_message m ∧ num_required_signatures (msg_header m) < 128
  | V0 m => wf_message_v0 m
  end.

Definition wf_versioned_transaction (tx : VersionedTransaction) : Prop :=
  wf_signatures (vtx_signatures tx) ∧ wf_versioned_message (vtx_message tx).

(** ** Reading back what was written *)

(** [reads p l a]: wherever [l] lies in the input, [p] at its start returns [a] and stops at its end. *)
Definition reads {A} (p : Parser A) (l : list Z) (a : A) : Prop :=
  ∀ pre post, p (pre ++ l ++ post) (length pre) = Done (Ok (a, (length pre + length l)%nat)).

(** [codes s p a]: the serializer [s] does not panic and [p] reads [a] from its output. *)
Definition codes {A} (s : Outcome (list Z)) (p : Parser A) (a : A) : Prop :=
  ∃ l, s = Done l ∧ reads p l a.

Lemma reads_ret {A} (a : A) : reads (mret a) [] a.
Proof. intros pre post. cbn. by rewrite Nat.add_0_r. Qed.

Lemma reads_bind {A B} (p : Parser A) (f : A → Parser B) l1 l2 a b :
  reads p l1 a → reads (f a) l2 b → reads (p ≫= f) (l1 ++ l2) b.
Proof.
  intros Hp Hf pre post. unfold mbind, Parser_bind. rewrite <- app_assoc, Hp.
  specialize (Hf (pre ++ l1) post). rewrite length_app, <- app_assoc in Hf. rewrite Hf.
  by rewrite length_app, Nat.add_assoc.
Qed.

Lemma codes_ret {A} (a : A) : codes (Done []) (mret a) a.
Proof. exists []. split; [done|]. apply reads_ret. Qed.

Lemma codes_bind {A B} s1 s2 (p : Parser A) (f : A → Parser B) a b :
  codes s1 p a → codes s2 (f a) b → codes (s1 +++ s2) (p ≫= f) b.
Proof.
  intros (l1 & -> & H1) (l2 & -> & H2). exists (l1 ++ l2). split; [done|]. by eapply reads_bind.
Qed.

(** The last step of a parser builds the value. *)
Lemma codes_last {A B} s (p : Parser A) (f : A → Parser B) a b :
  codes s p a → f a = mret b → codes s (p ≫= f) b.
Proof.
  intros (l & -> & H) Hf. exists l. split; [done|]. rewrite <- (app_nil_r l).
  eapply reads_bind; [exact H|]. rewrite Hf. apply reads_ret.
Qed.

Lemma codes_compact v : is_u16 v → codes (encode_compact_u16 v) parse_compact v.
Proof.
  intros Hv. destruct (compact_roundtrip v Hv) as (l & El & _ & Hl). exists l. split; [done|].
  intros pre post. unfold parse_compact. rewrite length_app, (proj2 (Nat.ltb_ge _ _)) by lia.
  by rewrite drop_app_length, Hl.
Qed.

Lemma codes_len {A} (l : list A) :
  is_u16 (Z.of_nat (length l)) → codes (serialize_len l) parse_compact (Z.of_nat (length l)).
Proof.
  intros Hl. unfold serialize_len. unfold is_u16, u16_max in Hl. rewrite Z.mod_small by lia.
  by apply codes_compact.
Qed.

Lemma reads_slice n l : length l = n → reads (parse_slice n) l l.
Proof.
  intros <- pre post. unfold parse_slice. rewrite !length_app, (proj2 (Nat.ltb_ge _ _)) by lia.
  by rewrite drop_app_length, take_app_length.
Qed.

Lemma codes_slice n l : length l = n → codes (Done l) (parse_slice n) l.
Proof. intros H. exists l. split; [done|]. by apply reads_slice. Qed.

Lemma codes_times {A} (p : Parser A) (f : A → Outcome (list Z)) (l : list A) :
  Forall (λ a, codes (f a) p a) l → codes (append_all f l) (parse_times (length l) p) l.
Proof.
  induction 1 as [|a l Ha _ IH]; cbn [append_all foldr parse_times length]; [apply codes_ret|].
  eapply codes_bind; [exact Ha|]. by eapply codes_last.
Qed.

(** A length prefix with its limit, then that many elements. *)
Lemma codes_counted {A} max (e : Z → TransactionParseError) (p : Parser A) f P (l : list A) :
  max <= u16_max → wf_list max P l → (∀ a, P a → codes (f a) p a) →
  codes (serialize_len l +++ append_all f l)
    (n ← parse_compact; if max <? n then parse_fail (e n) else parse_times (Z.to_nat n) p) l.
Proof.
  intros Hmax [Hlen Hall] Hp. eapply codes_bind.
  - apply codes_len. unfold is_u16. lia.
  - rewrite (proj2 (Z.ltb_ge _ _)) by lia. rewrite Nat2Z.id. apply codes_times.
    by apply (Forall_impl _ _ _ Hall).
Qed.

Lemma codes_u8_array l : wf_array l → codes (serialize_u8_array l) parse_u8_array l.
Proof.
  intros [Hl _]. eapply codes_bind; [by apply codes_len|]. rewrite Nat2Z.id. by apply codes_slice.
Qed.

Lemma codes_instruction ix : wf_instruction ix → codes (serialize_instruction ix) parse_instruction ix.
Proof.
  destruct ix as [b accs d]. intros (_ & Ha & Hd). unfold serialize_instruction, parse_instruction.
  eapply codes_bind; [by apply (codes_slice 1 [b])|].
  eapply codes_bind; [by apply codes_u8_array|]. by eapply codes_last; [apply codes_u8_array|].
Qed.

Lemma codes_header h : codes (serialize_header h) parse_header h.
Proof.
  destruct h as [a b c]. unfold serialize_header, parse_header.
  by eapply codes_last; [by apply (codes_slice 3 [a; b; c])|].
Qed.

Lemma codes_signatures l : wf_signatures l → codes (serialize_signatures l) parse_signatures l.
Proof. intros H. eapply codes_counted; [done|exact H|]. intros a [Ha _]. by apply codes_slice. Qed.

Lemma codes_pubkey_array l :
  wf_list MAX_ACCOUNT_KEYS (wf_bytes 32) l → codes (serialize_pubkey_array l) parse_pubkey_array l.
Proof. intros H. eapply codes_counted; [done|exact H|]. intros a [Ha _]. by apply codes_slice. Qed.

Lemma codes_instructions l :
  wf_list MAX_INSTRUCTIONS wf_instruction l → codes (serialize_instructions l) parse_instructions l.
Proof. intros H. eapply codes_counted; [done|exact H|exact codes_instruction]. Qed.

Lemma codes_hash h : wf_bytes 32 h → codes (Done h) parse_hash h.
Proof. intros [H _]. by apply codes_slice. Qed.

Create HintDb wire.
#[export] Hint Resolve codes_header codes_signatures codes_pubkey_array codes_hash codes_instructions
  codes_instruction codes_u8_array : wire.

(** One field after another, the value at the end. *)
Ltac codes_fields :=
  repeat (eapply codes_bind; [solve [eauto with wire]|]);
  eapply codes_last; [solve [eauto with wire]|reflexivity].

Lemma codes_legacy_message m : wf_message m → codes (serialize_legacy_message m) parse_legacy_message m.
Proof.
  destruct m as [h ks bh ixs]. intros (Hh & Hk & Hb & Hi). cbn in Hh, Hk, Hb, Hi.
  unfold serialize_legacy_message, parse_legacy_message.
  cbn [msg_header msg_account_keys msg_recent_blockhash msg_instructions]. codes_fields.
Qed.

Lemma codes_lookup l : wf_lookup l → codes (serialize_lookup l) parse_lookup l.
Proof.
  destruct l as [k w r]. intros ([Hk _] & Hw & Hr). cbn in Hk, Hw, Hr. unfold serialize_lookup, parse_lookup.
  cbn [lk_account_key lk_writable_indexes lk_readonly_indexes].
  eapply codes_bind; [by apply codes_slice|]. codes_fields.
Qed.

Lemma codes_message_v0 m : wf_message_v0 m → codes (serialize_v0_message m) parse_message_v0 m.
Proof.
  destruct m as [h ks bh ixs ls]. intros (Hh & Hk & Hb & Hi & Hlen & Hl). cbn in Hh, Hk, Hb, Hi, Hlen, Hl.
  unfold serialize_v0_message, parse_message_v0.
  cbn [v0_header v0_account_keys v0_recent_blockhash v0_instructions v0_address_table_lookups].
  do 4 (eapply codes_bind; [solve [eauto with wire]|]).
  eapply codes_bind; [apply codes_len; unfold is_u16; lia|]. rewrite Nat2Z.id.
  eapply codes_last; [|reflexivity]. apply codes_times, (Forall_impl _ _ _ Hl), codes_lookup.
Qed.

(** The prefix byte is looked at, not consumed. *)
Lemma codes_versioned_message m :
  wf_versioned_message m →
  codes (match m with
         | Legacy m => serialize_legacy_message m
         | V0 m => Done [0x80] +++ serialize_v0_message m
         end) parse_versioned_message m.
Proof.
  destruct m as [m|m]; cbn [wf_versioned_message].
  - intros [Hm Hlt]. destruct (codes_legacy_message m Hm) as (l & El & Hl). exists l. split; [done|].
    assert (Hhead : ∃ l', l = num_required_signatures (msg_header m) :: l').
    { unfold serialize_legacy_message, append in El. cbn in El. apply bind_Done in El as (? & ? & [= <-]). eauto. }
    destruct Hhead as [l' ->]. destruct Hm as ((Hb & _) & _).
    assert (Hbit : (Z.land (num_required_signatures (msg_header m)) VERSIONED_PREFIX_MASK =? 0) = true).
    { unfold VERSIONED_PREFIX_MASK. rewrite high_bit by done. by apply Z.ltb_lt. }
    intros pre post. specialize (Hl pre post). cbn [app] in Hl. unfold parse_versioned_message.
    unfold mbind at 1, Parser_bind at 1, parse_peek. rewrite lookup_app_r, Nat.sub_diag by lia.
    cbn [app lookup list_lookup]. rewrite Hbit. cbn [negb]. unfold mbind at 1, Parser_bind at 1.
    by rewrite Hl.
  - intros Hm. destruct (codes_message_v0 m Hm) as (l & El & Hl). exists (0x80 :: l).
    split; [by rewrite El|]. intros pre post. specialize (Hl (pre ++ [0x80]) post).
    unfold parse_versioned_message. unfold mbind at 1, Parser_bind at 1, parse_peek.
    rewrite lookup_app_r, Nat.sub_diag by lia. cbn [app lookup list_lookup].
    change (Z.land 0x80 VERSIONED_PREFIX_MASK =? 0) with false. change (Z.land 0x80 0x7F =? 0) with true.
    cbn [negb]. unfold mbind at 1, Parser_bind at 1.
    pose proof (reads_slice 1 [0x80] eq_refl pre (l ++ post)) as Hs. cbn [app] in Hs. rewrite Hs.
    unfold mbind at 1, Parser_bind at 1.
    rewrite length_app, <- app_assoc in Hl. cbn [app length] in *. rewrite Hl.
    unfold mret, Parser_ret. by rewrite <- Nat.add_assoc.
Qed.

(** ** Every input *)

(** [safe P p]: on any bytes [p] stays within the input, does not panic, and the value it
    returns satisfies [P]. *)
Definition safe {A} (P : A → Prop) (p : Parser A) : Prop :=
  ∀ data offset, Forall is_byte data → (offset ≤ length data)%nat →
  match p data offset with
  | Done (Ok (a, offset')) => (offset' ≤ length data)%nat ∧ P a
  | Done (Err _) => True
  | Panicked => False
  end.

Lemma safe_ret {A} (P : A → Prop) a : P a → safe P (mret a).
Proof. intros H data offset _ Ho. by split. Qed.

Lemma safe_fail {A} (P : A → Prop) e : safe P (parse_fail e).
Proof. by intros data offset _ _. Qed.

Lemma safe_bind {A B} (P : A → Prop) (Q : B → Prop) p f :
  safe P p → (∀ a, P a → safe Q (f a)) → safe Q (p ≫= f).
Proof.
  intros Hp Hf data offset Hd Ho. specialize (Hp data offset Hd Ho). unfold mbind, Parser_bind.
  destruct (p data offset) as [[[a o']|e]|]; [|done|done]. destruct Hp as [Ho' Ha].
  exact (Hf a Ha data o' Hd Ho').
Qed.

Lemma safe_compact : safe is_u16 parse_compact.
Proof.
  intros data offset Hd Ho. unfold parse_compact. rewrite (proj2 (Nat.ltb_ge _ _)) by lia.
  destruct (decode_compact_u16 (drop offset data)) as [[v n]|e] eqn:E; [|done].
  apply decode_bound in E as [Hv Hn]; [|by apply Forall_drop]. rewrite length_drop in Hn.
  split; [lia|done].
Qed.

Lemma safe_slice n : safe (wf_bytes n) (parse_slice n).
Proof.
  intros data offset Hd Ho. unfold parse_slice.
  destruct (Nat.ltb_spec (length data) (offset + n)); [done|]. split; [lia|]. split.
  - rewrite length_take, length_drop. lia.
  - by apply Forall_take, Forall_drop.
Qed.

Lemma safe_times {A} n (P : A → Prop) p :
  safe P p → safe (λ l, length l = n ∧ Forall P l) (parse_times n p).
Proof.
  intros Hp. induction n as [|n IH]; cbn [parse_times]; [by apply safe_ret|].
  eapply safe_bind; [exact Hp|]. intros a Ha. eapply safe_bind; [exact IH|]. intros l [Hl Hall].
  apply safe_ret. split; [by rewrite <- Hl|by constructor].
Qed.

Lemma safe_mono {A} (P Q : A → Prop) p : (∀ a, P a → Q a) → safe P p → safe Q p.
Proof.
  intros HPQ Hp data offset Hd Ho. specialize (Hp data offset Hd Ho).
  destruct (p data offset) as [[[a o']|e]|]; [|done|done]. destruct Hp. auto.
Qed.

Lemma safe_counted {A} max (e : Z → TransactionParseError) (P : A → Prop) p :
  safe P p →
  safe (wf_list max P)
    (n ← parse_compact; if max <? n then parse_fail (e n) else parse_times (Z.to_nat n) p).
Proof.
  intros Hp. eapply safe_bind; [apply safe_compact|]. intros n [Hn _].
  destruct (Z.ltb_spec max n); [apply safe_fail|].
  eapply safe_mono, safe_times, Hp. intros l [Hl Hall]. split; [lia|done].
Qed.

Lemma safe_u8_array : safe wf_array parse_u8_array.
Proof.
  eapply safe_bind; [apply safe_compact|]. intros n Hn. eapply safe_mono, safe_slice.
  intros l [Hl Hb]. split; [|done]. unfold is_u16 in *. lia.
Qed.

Lemma nth_byte l i : Forall is_byte l → is_byte (nth i l 0).
Proof.
  intros H. revert i. induction H; intros [|i]; cbn; try done; unfold is_byte, u8_max; lia.
Qed.

Create HintDb safe.
#[export] Hint Resolve safe_compact safe_slice safe_u8_array nth_byte : safe.

(** One field after another. *)
Ltac safe_fields :=
  repeat (eapply safe_bind; [solve [eauto with safe]|intros ? ?]); apply safe_ret.

Lemma safe_instruction : safe wf_instruction parse_instruction.
Proof. unfold parse_instruction. safe_fields. unfold wf_instruction, wf_bytes in *. naive_solver eauto with safe. Qed.

Lemma safe_header : safe wf_header parse_header.
Proof. unfold parse_header. safe_fields. unfold wf_header, wf_bytes in *. naive_solver eauto with safe. Qed.

Lemma safe_signatures : safe wf_signatures parse_signatures.
Proof. apply safe_counted, safe_slice. Qed.

Lemma safe_pubkey_array : safe (wf_list MAX_ACCOUNT_KEYS (wf_bytes 32)) parse_pubkey_array.
Proof. apply safe_counted, safe_slice. Qed.

Lemma safe_instructions : safe (wf_list MAX_INSTRUCTIONS wf_instruction) parse_instructions.
Proof. apply safe_counted, safe_instruction. Qed.

Lemma safe_hash : safe (wf_bytes 32) parse_hash.
Proof. apply safe_slice. Qed.

#[export] Hint Resolve safe_header safe_signatures safe_pubkey_array safe_instructions safe_hash
  safe_instruction : safe.

Lemma safe_legacy_message : safe wf_message parse_legacy_message.
Proof. unfold parse_legacy_message. safe_fields. by unfold wf_message. Qed.

Lemma safe_lookup : safe wf_lookup parse_lookup.
Proof. unfold parse_lookup. safe_fields. by unfold wf_lookup. Qed.

Lemma safe_message_v0 : safe wf_message_v0 parse_message_v0.
Proof.
  unfold parse_message_v0. do 4 (eapply safe_bind; [solve [eauto with safe]|intros ? ?]).
  eapply safe_bind; [apply safe_compact|]. intros n Hn.
  eapply safe_bind; [apply safe_times, safe_lookup|]. intros l [Hl Hall]. apply safe_ret.
  unfold wf_message_v0. cbn [v0_header v0_account_keys v0_recent_blockhash v0_instructions v0_address_table_lookups].
  split_and!; try done. split; [|done]. unfold is_u16 in Hn. lia.
Qed.

Lemma Parser_bind_inv {A B} (p : Parser A) (f : A → Parser B) data o r :
  (p ≫= f) data o = Done (Ok r) → ∃ a o', p data o = Done (Ok (a, o')) ∧ f a data o' = Done (Ok r).
Proof.
  unfold mbind, Parser_bind. destruct (p data o) as [[[a o']|e]|]; [|done|done]. eauto.
Qed.

(** The first byte of a legacy message is the count of required signatures. *)
Lemma legacy_first_byte data o m o' :
  parse_legacy_message data o = Done (Ok (m, o')) →
  data !! o = Some (num_required_signatures (msg_header m)).
Proof.
  intros (h & o1 & Hh & H)%Parser_bind_inv.
  assert (msg_header m = h) as ->.
  { do 3 (apply Parser_bind_inv in H as (? & ? & _ & H)). by injection H as <- _. }
  apply Parser_bind_inv in Hh as (b & o2 & Hb & [= <- <-]). unfold parse_slice in Hb.
  destruct (Nat.ltb_spec (length data) (o + 3)) as [|Hlen]; [done|]. injection Hb as <- _.
  destruct (lookup_lt_is_Some_2 data o) as [x Hx]; [lia|]. by rewrite Hx, (drop_S _ _ _ Hx).
Qed.

Lemma safe_versioned_message : safe wf_versioned_message parse_versioned_message.
Proof.
  intros data o Hd Ho. unfold parse_versioned_message. unfold mbind at 1, Parser_bind at 1, parse_peek.
  destruct (data !! o) as [b|] eqn:Hb; [|done].
  destruct (Z.land b VERSIONED_PREFIX_MASK =? 0) eqn:Hbit; cbn [negb].
  - unfold mbind at 1, Parser_bind at 1. pose proof (safe_legacy_message data o Hd Ho) as H.
    destruct (parse_legacy_message data o) as [[[m o']|e]|] eqn:E; [|done|done].
    destruct H as [Ho' Hm]. split; [done|]. split; [done|]. apply legacy_first_byte in E. simplify_eq.
    unfold VERSIONED_PREFIX_MASK in Hbit. destruct Hm as ((Hb' & _) & _).
    rewrite high_bit in Hbit by done. by apply Z.ltb_lt.
  - destruct (negb (Z.land b 0x7F =? 0)); [apply safe_fail; done|].
    refine (safe_bind _ _ _ _ (safe_slice 1) _ data o Hd Ho). intros ? _.
    eapply safe_bind; [apply safe_message_v0|]. intros m Hm. by apply safe_ret.
Qed.

#[export] Hint Resolve safe_legacy_message safe_versioned_message : safe.

Lemma run_parser_safe {A} (P : A → Prop) p data :
  safe P p → Forall is_byte data →
  match run_parser p data with
  | Done (Ok a) => P a
  | Done (Err _) => True
  | Panicked => False
  end.
Proof.
  intros Hp Hd. specialize (Hp data 0%nat Hd ltac:(lia)). unfold run_parser.
  destruct (p data 0%nat) as [[[a o']|e]|]; [|done|done]. apply Hp.
Qed.

Lemma run_parser_codes {A} s (p : Parser A) a :
  codes s p a → ∃ bytes, s = Done bytes ∧ ∀ rest, run_parser p (bytes ++ rest) = Done (Ok a).
Proof.
  intros (l & -> & H). exists l. split; [done|]. intros rest. unfold run_parser.
  pose proof (H [] rest) as E. cbn [app length] in E. by rewrite E.
Qed.

Lemma legacy_roundtrip tx :
  wf_transaction tx →
  ∃ bytes, serialize_transaction tx = Done bytes ∧
    ∀ rest, parse_transaction (bytes ++ rest) = Done (Ok tx).
Proof.
  destruct tx as [sigs [h ks bh ixs]]. intros (Hs & Hh & Hk & Hb & Hi). cbn in Hs, Hh, Hk, Hb, Hi.
  apply run_parser_codes. unfold serialize_transaction.
  cbn [tx_signatures tx_message msg_header msg_account_keys msg_recent_blockhash msg_instructions].
  codes_fields.
Qed.

Lemma versioned_roundtrip tx :
  wf_versioned_transaction tx →
  ∃ bytes, serialize_versioned_transaction tx = Done bytes ∧
    ∀ rest, parse_versioned_transaction (bytes ++ rest) = Done (Ok tx).
Proof.
  destruct tx as [sigs m]. intros [Hs Hm]. cbn in Hs, Hm. apply run_parser_codes.
  unfold serialize_versioned_transaction. cbn [vtx_signatures vtx_message].
  eapply codes_bind; [by apply codes_signatures|].
  by eapply codes_last; [by apply codes_versioned_message|].
Qed.

(** *** Sizes and roles *)

(** [wire_size] is the size of the serialized instruction. *)
Lemma wire_size_exact ix :
  CompiledInstruction_wire_size ix = (l ← serialize_instruction ix; Done (length l)).
Proof.
  unfold CompiledInstruction_wire_size, serialize_instruction, serialize_u8_array, append.
  destruct (serialize_len (ix_accounts ix)) as [l1|]; [|done].
  destruct (serialize_len (ix_data ix)) as [l2|]; [|done].
  cbn. rewrite !length_app. f_equal. lia.
Qed.

(** An interval of indices is as long as its ends say. *)
Lemma count_below n a b : 0 <= a → b <= Z.of_nat n → 
  Z.of_nat (length (filter (λ i, a <= i < b) (seqZ 0 (Z.of_nat n)))) = Z.max (b - a) 0.
Proof.
  intros Ha. revert b. induction n as [|n IH]; intros b Hb.
  - change (seqZ 0 (Z.of_nat 0)) with (@nil Z). rewrite filter_nil. cbn [length]. lia.
  - rewrite Nat2Z.inj_succ in *. rewrite <- Z.add_1_r, seqZ_app by lia. rewrite filter_app, length_app, Nat2Z.inj_add.
    cbn [Z.of_nat]. change (seqZ (0 + Z.of_nat n) 1) with [0 + Z.of_nat n].
    rewrite filter_cons, filter_nil. destruct (decide (a <= 0 + Z.of_nat n < b)).
    + assert (b = Z.of_nat n + 1) as -> by lia. rewrite (list_filter_ext_in _ (λ i, a <= i < Z.of_nat n)).
      * rewrite IH by lia. cbn [length]. lia.
      * intros x Hx%elem_of_seqZ. lia.
    + destruct (decide (b <= Z.of_nat n)).
      * rewrite IH by lia. cbn. lia.
      * rewrite (list_filter_ext_in _ (λ i, a <= i < Z.of_nat n)).
        -- rewrite IH by lia. cbn. lia.
        -- intros x Hx%elem_of_seqZ. lia.
Qed.

(** Counting by disjoint cases. *)
Lemma filter_disj (P Q R : Z → Prop) `{∀ x, Decision (P x), ∀ x, Decision (Q x), ∀ x, Decision (R x)} l :
  (∀ x, x ∈ l → P x ↔ Q x ∨ R x) → (∀ x, Q x → R x → False) →
  length (filter P l) = (length (filter Q l) + length (filter R l))%nat.
Proof.
  intros HP HD. induction l as [|x l IH]; [done|]. rewrite !filter_cons.
  pose proof (HP x ltac:(by left)). pose proof (HD x).
  specialize (IH ltac:(intros; apply HP; by right)).
  repeat case_decide; cbn [length]; try lia; naive_solver.
Qed.

(** The accounts that [is_writable] marks are as many as the header announces. *)
Lemma writable_counts m :
  wf_header (msg_header m) →
  num_required_signatures (msg_header m) <= Z.of_nat (length (msg_account_keys m)) →
  Z.of_nat (length (filter (λ i, Message_is_writable m i = true) (seqZ 0 (Z.of_nat (length (msg_account_keys m))))))
  = num_writable_signed (msg_header m)
    + num_writable_unsigned (msg_header m) (Z.of_nat (length (msg_account_keys m))).
Proof.
  intros (Hr & Hs & Hu) Hn. unfold is_byte, u8_max in *. set (n := length (msg_account_keys m)) in *.
  set (req := num_required_signatures (msg_header m)) in *.
  set (rs := num_readonly_signed_accounts (msg_header m)) in *.
  set (ru := num_readonly_unsigned_accounts (msg_header m)) in *.
  rewrite (filter_disj _ (λ i, 0 <= i < req - rs) (λ i, req <= i < Z.of_nat n - ru)).
  - rewrite Nat2Z.inj_add, !count_below by lia.
    unfold num_writable_signed, num_writable_unsigned, u64_saturating_sub. fold req rs ru. lia.
  - intros i Hi%elem_of_seqZ. unfold Message_is_writable. fold req rs ru n. unfold u64_saturating_sub.
    destruct (Z.ltb_spec i req); rewrite ?andb_true_iff, ?Z.ltb_lt, ?Z.leb_le; lia.
  - intros i. lia.
Qed.

(** C39. The wire format round-trips: for every transaction within the limits of the format,
    legacy or versioned, serialization does not panic and the parser reads the same
    transaction back from its bytes, whatever follows them. *)
Theorem transaction_wire_roundtrip :
  (∀ tx rest, wf_transaction tx →
     ∃ bytes, serialize_transaction tx = Done bytes ∧
       parse_transaction (bytes ++ rest) = Done (Ok tx)) ∧
  (∀ tx rest, wf_versioned_transaction tx →
     ∃ bytes, serialize_versioned_transaction tx = Done bytes ∧
       parse_versioned_transaction (bytes ++ rest) = Done (Ok tx)).
Proof.
  split; intros tx rest H.
  - destruct (legacy_roundtrip tx H) as (l & ? & ?). eauto.
  - destruct (versioned_roundtrip tx H) as (l & ? & ?). eauto.
Qed.

(** The parsers are total and typed: on any bytes at all neither parser panics, and what
    it accepts is well-formed (64-byte signatures, 32-byte keys and blockhash, counts within
    the limits, and for the versioned parser a legacy message whose first byte is no version
    prefix), so that it can be serialized again and parses to itself. *)
Theorem transaction_parsers_typed data :
  Forall is_byte data →
  match parse_transaction data with
  | Done (Ok tx) => wf_transaction tx ∧
      ∃ bytes, serialize_transaction tx = Done bytes ∧ parse_transaction bytes = Done (Ok tx)
  | Done (Err _) => True
  | Panicked => False
  end ∧
  match parse_versioned_transaction data with
  | Done (Ok tx) => wf_versioned_transaction tx ∧
      ∃ bytes, serialize_versioned_transaction tx = Done bytes ∧
        parse_versioned_transaction bytes = Done (Ok tx)
  | Done (Err _) => True
  | Panicked => False
  end.
Proof.
  intros Hd. split.
  - assert (H : match parse_transaction data with
                | Done (Ok tx) => wf_transaction tx | Done (Err _) => True | Panicked => False end).
    { apply run_parser_safe; [|done]. safe_fields. done. }
    destruct (parse_transaction data) as [[tx|e]|]; [|done|done]. split; [done|].
    destruct (legacy_roundtrip tx H) as (l & Hl & Hp). exists l. split; [done|].
    rewrite <- (app_nil_r l). apply Hp.
  - assert (H : match parse_versioned_transaction data with
                | Done (Ok tx) => wf_versioned_transaction tx | Done (Err _) => True | Panicked => False end).
    { apply run_parser_safe; [|done]. safe_fields. done. }
    destruct (parse_versioned_transaction data) as [[tx|e]|]; [|done|done]. split; [done|].
    destruct (versioned_roundtrip tx H) as (l & Hl & Hp). exists l. split; [done|].
    rewrite <- (app_nil_r l). apply Hp.
Qed.

(** A transfer: one signature, three keys, one instruction with two accounts; and a version 0
    message with a lookup. *)
Definition demo_message : Message :=
  mkMessage (mkMessageHeader 1 0 1) [replicate 32 1; replicate 32 2; replicate 32 0] (replicate 32 9)
    [mkCompiledInstruction 2 [0; 1] ([2; 0; 0; 0] ++ to_le_bytes 8 1000)].

Definition demo_v0 : VersionedTransaction :=
  mkVersionedTransaction [replicate 64 7]
    (V0 (mkMessageV0 (mkMessageHeader 1 0 1) [replicate 32 1; replicate 32 0] (replicate 32 9)
           [mkCompiledInstruction 1 [0; 2] (replicate 200 5)]
           [mkMessageAddressTableLookup (replicate 32 4) [3] [1; 2]])).

Ltac wf_demo := repeat first [split | constructor]; vm_compute; intuition discriminate.

Lemma transaction_wire_roundtrip_witness :
  (∃ bytes, serialize_transaction (mkTransaction [replicate 64 7] demo_message) = Done bytes ∧
     parse_transaction (bytes ++ [1; 2; 3]) = Done (Ok (mkTransaction [replicate 64 7] demo_message))) ∧
  (∃ bytes, serialize_versioned_transaction demo_v0 = Done bytes ∧
     parse_versioned_transaction (bytes ++ [1; 2; 3]) = Done (Ok demo_v0)).
Proof.
  split; apply transaction_wire_roundtrip; wf_demo.
Defined.

(** A short input: one signature announced, none there. *)
Lemma transaction_parsers_typed_witness :
  Forall is_byte [1; 0] ∧
  match parse_transaction [1; 0] with
  | Done (Ok tx) => wf_transaction tx ∧
      ∃ bytes, serialize_transaction tx = Done bytes ∧ parse_transaction bytes = Done (Ok tx)
  | Done (Err _) => True
  | Panicked => False
  end.
Proof.
  assert (H : Forall is_byte [1; 0]) by (repeat constructor; done).
  split; [exact H|]. exact (proj1 (transaction_parsers_typed [1; 0] H)).
Defined.

(** ** Aliases of a length

    [checked_shl] checks the shift only, and a shift of 14 always passes: the decoder never
    reports the overflow its error type has a constructor for. *)
Lemma decode_loop_no_overflow data i value shift :
  0 <= shift <= 7 * Z.of_nat i → decode_loop data i value shift ≠ Err CompactOverflow.
Proof.
  revert i value shift. induction data as [|b data IH]; intros i value shift Hs; [done|].
  cbn [decode_loop]. unfold COMPACT_U16_MAX_ENCODED_SIZE. destruct (Nat.leb_spec 3 i); [done|].
  unfold u16_checked_shl. rewrite (proj2 (Z.ltb_lt _ _)) by lia.
  destruct (Z.land b 0x80 =? 0); [done|]. apply IH. lia.
Qed.

(** No input decodes to the overflow error: a third byte above 3 is accepted with its high bits
    dropped, and a length has encodings longer than the one the encoder writes.  So different
    bytes parse to the same transaction. *)
Theorem compact_aliases :
  (∀ data, decode_compact_u16 data ≠ Err CompactOverflow) ∧
  decode_compact_u16 [0xFF; 0xFF; 0x7F] = Ok (65535, 3%nat) ∧
  encode_compact_u16 65535 = Done [0xFF; 0xFF; 0x03] ∧
  decode_compact_u16 [0x81; 0x80; 0x00] = Ok (1, 3%nat) ∧ encode_compact_u16 1 = Done [1].
Proof.
  split_and!; try done. intros data. unfold decode_compact_u16. destruct (length data =? 0)%nat; [done|].
  apply decode_loop_no_overflow. lia.
Qed.
