(* ===== verification/MeshLink.v ===== *)
(** * Zero-copy links between tiles

    Model of [src/crates/karstflow-mesh/src/]: [fragment.rs] (fragment metadata and sequence
    numbers), [meta_ring.rs] (the ring of metadata), [data_region.rs] (the payloads),
    [flow.rs] (the consumer's progress) and [tile_link.rs] (the link built from them).

    Producer and consumer run on two threads over the same memory.  Each is a machine whose
    step is one access to the shared memory: one volatile access, one field of a metadata
    entry, one byte of a payload.  A run is an interleaving of the two, in program order per
    thread: the order that the compiler fences and x86-64 total store order give the code.
    Accesses through raw pointers that leave the allocation, and failed assertions, are
    faults. *)
From stdpp Require Import base tactics numbers list.
From Stdlib Require Import ZArith Lia.
From S2P Require Import Prelude.
Local Open Scope Z_scope.

(** ** Fragments *)

Definition CHUNK_LG_SIZE : Z := 6.
Definition CHUNK_SIZE : Z := 64.
Definition DATA_REGION_ALIGN : Z := 4096.
Definition DATA_REGION_SLOT_ALIGN : Z := 128.

Record FragmentMeta := mkFragmentMeta {
  fm_seq : Z;
  fm_sig : Z;
  fm_chunk : Z;
  fm_sz : Z;
  fm_ctl : Z;
  fm_tsorig : Z;
  fm_tspub : Z;
}.

Definition ctl_pack (origin : Z) (som eom err : bool) : Z :=
  Z.lor (Z.lor (Z.lor (Z.b2z som) (Z.shiftl (Z.b2z eom) 1)) (Z.shiftl (Z.b2z err) 2))
    (Z.shiftl origin 3 mod 2 ^ 16).
Definition FragmentMeta_invalid (seq : Z) : FragmentMeta :=
  mkFragmentMeta seq 0 0 0 (ctl_pack 0 true true true) 0 0.

(** [z as i64] of an unsigned [z]. *)
Definition as_i64 (z : Z) : Z := if z <? 2 ^ 63 then z else z - 2 ^ 64.

Definition seq_inc (a delta : Z) : Z := wrap64 (a + delta).
Definition seq_dec (a delta : Z) : Z := wrap64 (a - delta).
Definition seq_diff (a b : Z) : Z := as_i64 (wrap64 (a - b)).
Definition ts_compress (ts : Z) : Z := wrap32 ts.

(** ** The payload region *)

Definition div_ceil (a b : Z) : Z := (a + b - 1) / b.
Definition align_up (value alignment : Z) : Z := Z.land (value + alignment - 1) (Z.lnot (alignment - 1)).

Definition slot_chunks (mtu : Z) : Z :=
  let slot_align_chunks := DATA_REGION_SLOT_ALIGN / CHUNK_SIZE in
  wrap32 (div_ceil (div_ceil mtu CHUNK_SIZE) slot_align_chunks * slot_align_chunks).
Definition slot_footprint (mtu : Z) : Z := align_up mtu DATA_REGION_SLOT_ALIGN.
Definition required_data_size (mtu depth burst : Z) (compact : bool) : Z :=
  slot_footprint mtu * (depth + burst + Z.b2z compact).

Definition DataRegion_new (data_sz : Z) : list Z := replicate (Z.to_nat (align_up data_sz DATA_REGION_ALIGN)) 0.
Definition DataRegion_for_link (mtu depth burst : Z) (compact : bool) : list Z :=
  DataRegion_new (required_data_size mtu depth burst compact).
Definition DataRegion_chunk0 : Z := 0.
Definition DataRegion_chunk1 (data : list Z) : Z := wrap32 (Z.shiftr (Z.of_nat (length data)) CHUNK_LG_SIZE).
Definition DataRegion_watermark (data : list Z) (mtu : Z) : Z := wrap32 (DataRegion_chunk1 data - slot_chunks mtu).

(** The bytes behind [chunk_to_ptr]. *)
Definition chunk_to_offset (chunk : Z) : nat := Z.to_nat (Z.shiftl chunk CHUNK_LG_SIZE).
Definition DataRegion_read_payload (data : list Z) (chunk sz : Z) : option (list Z) :=
  read_bytes data (chunk_to_offset chunk) (Z.to_nat sz).

Definition compact_next (chunk frag_sz chunk0 wmark : Z) : Z :=
  let next := u32_add chunk (slot_chunks frag_sz) in
  if wmark <? next then chunk0 else next.

(** ** The shared memory *)

Record Shared := mkShared {
  sh_entries : list FragmentMeta;
  sh_watermark : Z;
  sh_data : list Z;
  sh_flow : Z;
}.

Definition line_idx (depth : nat) (seq : Z) : nat := Z.to_nat (Z.land seq (Z.of_nat depth - 1)).

(** [MetaRing::new]: the entries and the watermark. *)
Definition MetaRing_entries (depth : nat) (initial_seq : Z) : list FragmentMeta :=
  (λ i, FragmentMeta_invalid (seq_dec initial_seq (Z.of_nat (depth - i)))) <$> seq 0 depth.
Definition is_power_of_two (n : nat) : bool := Nat.eqb (2 ^ Nat.log2 n) n.

Record TileLinkConfig := mkTileLinkConfig {
  cfg_mtu : Z;
  cfg_depth : nat;
  cfg_burst : Z;
  cfg_initial_seq : Z;
}.

Definition TileLink_new (c : TileLinkConfig) : Outcome Shared :=
  _ ← rust_assert (Nat.ltb 0 (cfg_depth c) && is_power_of_two (cfg_depth c));
  mret (mkShared (MetaRing_entries (cfg_depth c) (cfg_initial_seq c)) (cfg_initial_seq c)
          (DataRegion_for_link (cfg_mtu c) (Z.of_nat (cfg_depth c)) (cfg_burst c) true) (cfg_initial_seq c)).

(** A write through [&mut *self.entries.add(idx)]; out of range is a fault. *)
Definition write_entry (sh : Shared) (idx : nat) (f : FragmentMeta → FragmentMeta) : option Shared :=
  e ← sh_entries sh !! idx;
  Some (mkShared (<[idx := f e]> (sh_entries sh)) (sh_watermark sh) (sh_data sh) (sh_flow sh)).
Definition write_byte (sh : Shared) (offset : nat) (b : Z) : option Shared :=
  _ ← sh_data sh !! offset;
  Some (mkShared (sh_entries sh) (sh_watermark sh) (<[offset := b]> (sh_data sh)) (sh_flow sh)).
Definition MetaRing_update_watermark (sh : Shared) (seq : Z) : Shared :=
  mkShared (sh_entries sh) seq (sh_data sh) (sh_flow sh).
Definition FlowSequence_update (sh : Shared) (seq : Z) : Shared :=
  mkShared (sh_entries sh) (sh_watermark sh) (sh_data sh) seq.

Definition set_seq (seq : Z) (m : FragmentMeta) : FragmentMeta :=
  mkFragmentMeta seq (fm_sig m) (fm_chunk m) (fm_sz m) (fm_ctl m) (fm_tsorig m) (fm_tspub m).

(** The body fields in the order in which [publish] writes and [poll] reads them. *)
Definition BODY_FIELDS : nat := 6.
Definition copy_field (k : nat) (from to : FragmentMeta) : FragmentMeta :=
  match k with
  | 0 => mkFragmentMeta (fm_seq to) (fm_sig from) (fm_chunk to) (fm_sz to) (fm_ctl to) (fm_tsorig to) (fm_tspub to)
  | 1 => mkFragmentMeta (fm_seq to) (fm_sig to) (fm_chunk from) (fm_sz to) (fm_ctl to) (fm_tsorig to) (fm_tspub to)
  | 2 => mkFragmentMeta (fm_seq to) (fm_sig to) (fm_chunk to) (fm_sz from) (fm_ctl to) (fm_tsorig to) (fm_tspub to)
  | 3 => mkFragmentMeta (fm_seq to) (fm_sig to) (fm_chunk to) (fm_sz to) (fm_ctl from) (fm_tsorig to) (fm_tspub to)
  | 4 => mkFragmentMeta (fm_seq to) (fm_sig to) (fm_chunk to) (fm_sz to) (fm_ctl to) (fm_tsorig from) (fm_tspub to)
  | _ => mkFragmentMeta (fm_seq to) (fm_sig to) (fm_chunk to) (fm_sz to) (fm_ctl to) (fm_tsorig to) (fm_tspub from)
  end%nat.

(** What a thread does on its turn. *)
Inductive Turn (A : Type) : Type := Moved (a : A) | Finished | Faulted.
Arguments Moved {_} _.
Arguments Finished {_}.
Arguments Faulted {_}.

Definition moved {A} (o : option A) : Turn A := match o with Some a => Moved a | None => Faulted end.

(** ** The producer *)

Record LinkProducer := mkLinkProducer {
  lp_next_seq : Z;
  lp_current_chunk : Z;
  lp_chunk0 : Z;
  lp_wmark : Z;
  lp_mtu : Z;
  lp_depth : nat;
}.

Definition TileLink_producer_at (c : TileLinkConfig) (sh : Shared) (start_seq : Z) : LinkProducer :=
  mkLinkProducer start_seq DataRegion_chunk0 DataRegion_chunk0 (DataRegion_watermark (sh_data sh) (cfg_mtu c))
    (cfg_mtu c) (cfg_depth c).

Definition LinkProducer_has_credits (sh : Shared) (p : LinkProducer) : bool :=
  seq_diff (lp_next_seq p) (sh_flow sh) <? Z.of_nat (lp_depth p).

(** The arguments of a [send], and the clock it reads. *)
Record Request := mkRequest {
  rq_sig : Z;
  rq_payload : list Z;
  rq_ctl : Z;
  rq_now : Z;
}.

(** The metadata that [send] publishes. *)
Definition request_meta (seq chunk : Z) (rq : Request) : FragmentMeta :=
  mkFragmentMeta seq (rq_sig rq) chunk (Z.of_nat (length (rq_payload rq)) mod 2 ^ 16) (rq_ctl rq)
    (ts_compress (rq_now rq)) (ts_compress (rq_now rq)).

(** Where a [send] is: before it; copying the payload, [i] bytes done; publishing, the entry
    marked and [k] fields written; published, before the watermark. *)
Inductive ProducerPc :=
| PIdle
| PCopy (rq : Request) (i : nat)
| PBody (rq : Request) (k : nat)
| PWatermark (rq : Request).

(** [pt_calls]: the calls made so far and what they return, decided by the credit check. *)
Record ProducerThread := mkProducerThread {
  pt_link : LinkProducer;
  pt_pc : ProducerPc;
  pt_todo : list Request;
  pt_calls : list (Request * option Z);
}.

Definition at_pc (t : ProducerThread) (pc : ProducerPc) : ProducerThread :=
  mkProducerThread (pt_link t) pc (pt_todo t) (pt_calls t).

(** [LinkProducer::send] and [MetaRing::publish], one access at a time. *)
Definition producer_step (sh : Shared) (t : ProducerThread) : Turn (Shared * ProducerThread) :=
  let p := pt_link t in
  let seq := lp_next_seq p in
  let idx := line_idx (lp_depth p) seq in
  match pt_pc t with
  | PIdle =>
      match pt_todo t with
      | [] => Finished
      | rq :: todo =>
          if lp_mtu p <? Z.of_nat (length (rq_payload rq)) then Faulted
          else if LinkProducer_has_credits sh p
          then Moved (sh, mkProducerThread p (PCopy rq 0) todo (pt_calls t ++ [(rq, Some seq)]))
          else Moved (sh, mkProducerThread p PIdle todo (pt_calls t ++ [(rq, None)]))
      end
  | PCopy rq i =>
      match rq_payload rq !! i with
      | Some b =>
          moved (sh ← write_byte sh (chunk_to_offset (lp_current_chunk p) + i) b; Some (sh, at_pc t (PCopy rq (S i))))
      | None => moved (sh ← write_entry sh idx (set_seq (seq_dec seq 1)); Some (sh, at_pc t (PBody rq 0)))
      end
  | PBody rq k =>
      let meta := request_meta seq (lp_current_chunk p) rq in
      if (k <? BODY_FIELDS)%nat
      then moved (sh ← write_entry sh idx (copy_field k meta); Some (sh, at_pc t (PBody rq (S k))))
      else moved (sh ← write_entry sh idx (set_seq seq); Some (sh, at_pc t (PWatermark rq)))
  | PWatermark rq =>
      let chunk := compact_next (lp_current_chunk p) (Z.of_nat (length (rq_payload rq))) (lp_chunk0 p) (lp_wmark p) in
      let next := seq_inc seq 1 in
      Moved (MetaRing_update_watermark sh next,
             mkProducerThread (mkLinkProducer next chunk (lp_chunk0 p) (lp_wmark p) (lp_mtu p) (lp_depth p))
               PIdle (pt_todo t) (pt_calls t))
  end.

(** ** The consumer *)

Record LinkConsumer := mkLinkConsumer {
  lc_next_seq : Z;
  lc_depth : nat;
}.
Definition TileLink_consumer_at (c : TileLinkConfig) (start_seq : Z) : LinkConsumer :=
  mkLinkConsumer start_seq (cfg_depth c).

Inductive PollResult := Poll_Ready (meta : FragmentMeta) | Poll_Overrun (found_seq : Z) | Poll_Timeout.

(** The payload of a [Ready] is the slice that the metadata points to. *)
Inductive ReceiveResult := Ready (meta : FragmentMeta) | Overrun (recover_seq : Z) | Empty.

Inductive ConsumerOp := Receive (max_polls : nat) | ReceiveBatch (max_count max_polls_per_frag : nat).
Inductive Received := Single (r : ReceiveResult) | Batch (l : list FragmentMeta).

(** The call that polls: [receive], or [receive_batch] with the turns left and its results. *)
Inductive Call := CallReceive | CallBatch (turns max_polls : nat) (results : list FragmentMeta).

(** Where a call is: before it; before the first read of the sequence number; with [k] fields
    read after it; before a flow update that ends the call, or the batch loop. *)
Inductive ConsumerPc :=
| CIdle
| CPoll (call : Call) (polls : nat)
| CBody (call : Call) (polls : nat) (copy : FragmentMeta) (k : nat)
| CFlow (r : Received)
| CBreak (results : list FragmentMeta).

Record ConsumerThread := mkConsumerThread {
  ct_link : LinkConsumer;
  ct_pc : ConsumerPc;
  ct_todo : list ConsumerOp;
  ct_results : list Received;
}.

Definition returned (c : LinkConsumer) (t : ConsumerThread) (r : Received) : ConsumerThread :=
  mkConsumerThread c CIdle (ct_todo t) (ct_results t ++ [r]).
Definition waiting (c : LinkConsumer) (t : ConsumerThread) (pc : ConsumerPc) : ConsumerThread :=
  mkConsumerThread c pc (ct_todo t) (ct_results t).

(** The end of [receive_batch]. *)
Definition batch_finish (c : LinkConsumer) (t : ConsumerThread) (results : list FragmentMeta) : ConsumerThread :=
  if bool_decide (results = []) then returned c t (Batch [])
  else waiting c t (CFlow (Batch results)).

(** Enter [poll] with [max_polls] turns, or return from it at once. *)
Definition enter_poll (c : LinkConsumer) (t : ConsumerThread) (call : Call) (max_polls : nat) : ConsumerThread :=
  match max_polls with
  | O => match call with
         | CallReceive => returned c t (Single Empty)
         | CallBatch _ _ results => batch_finish c t results
         end
  | S _ => waiting c t (CPoll call max_polls)
  end.

(** The body of the loop of [receive_batch], [turns] to go. *)
Definition enter_batch (c : LinkConsumer) (t : ConsumerThread) (turns max_polls : nat) (results : list FragmentMeta) :
    ConsumerThread :=
  match turns with
  | O => batch_finish c t results
  | S turns' => enter_poll c t (CallBatch turns' max_polls results) max_polls
  end.

(** What the caller does with the result of [poll]. *)
Definition poll_returns (t : ConsumerThread) (call : Call) (r : PollResult) : ConsumerThread :=
  let c := ct_link t in
  match r, call with
  | Poll_Ready meta, CallReceive =>
      waiting (mkLinkConsumer (seq_inc (lc_next_seq c) 1) (lc_depth c)) t (CFlow (Single (Ready meta)))
  | Poll_Ready meta, CallBatch turns max_polls results =>
      enter_batch (mkLinkConsumer (seq_inc (lc_next_seq c) 1) (lc_depth c)) t turns max_polls (results ++ [meta])
  | Poll_Overrun found, CallReceive => waiting (mkLinkConsumer found (lc_depth c)) t (CFlow (Single (Overrun found)))
  | Poll_Overrun found, CallBatch _ _ results => waiting (mkLinkConsumer found (lc_depth c)) t (CBreak results)
  | Poll_Timeout, CallReceive => returned c t (Single Empty)
  | Poll_Timeout, CallBatch _ _ results => batch_finish c t results
  end.

(** [LinkConsumer::receive] and [receive_batch] with [MetaRing::poll], one access at a time. *)
Definition consumer_step (sh : Shared) (t : ConsumerThread) : Turn (Shared * ConsumerThread) :=
  let c := ct_link t in
  let idx := line_idx (lc_depth c) (lc_next_seq c) in
  match ct_pc t with
  | CIdle =>
      match ct_todo t with
      | [] => Finished
      | op :: todo =>
          let t := mkConsumerThread c CIdle todo (ct_results t) in
          Moved (sh, match op with
                     | Receive max_polls => enter_poll c t CallReceive max_polls
                     | ReceiveBatch max_count max_polls => enter_batch c t max_count max_polls []
                     end)
      end
  | CPoll call polls =>
      moved (mline ← sh_entries sh !! idx;
             Some (sh, waiting c t (CBody call polls (set_seq (fm_seq mline) (FragmentMeta_invalid 0)) 0)))
  | CBody call polls copy k =>
      moved (mline ← sh_entries sh !! idx;
             Some (sh,
               if (k <? BODY_FIELDS)%nat then waiting c t (CBody call polls (copy_field k mline copy) (S k))
               else
                 let diff := seq_diff (fm_seq copy) (lc_next_seq c) in
                 if (fm_seq copy =? fm_seq mline) && (0 <=? diff) then
                   poll_returns t call (if diff =? 0 then Poll_Ready copy else Poll_Overrun (fm_seq copy))
                 else
                   match polls with
                   | S (S polls') => waiting c t (CPoll call (S polls'))
                   | _ => poll_returns t call Poll_Timeout
                   end))
  | CFlow r => Moved (FlowSequence_update sh (lc_next_seq c), returned c t r)
  | CBreak results => Moved (FlowSequence_update sh (lc_next_seq c), batch_finish c t results)
  end.

(** ** Interleavings *)

Inductive Thread := TheProducer | TheConsumer.

Record Link := mkLink {
  lk_shared : Shared;
  lk_producer : ProducerThread;
  lk_consumer : ConsumerThread;
}.

(** One turn of a thread; [None] is a fault. *)
Definition link_step (l : Link) (who : Thread) : option Link :=
  match who with
  | TheProducer =>
      match producer_step (lk_shared l) (lk_producer l) with
      | Moved (sh, p) => Some (mkLink sh p (lk_consumer l))
      | Finished => Some l
      | Faulted => None
      end
  | TheConsumer =>
      match consumer_step (lk_shared l) (lk_consumer l) with
      | Moved (sh, c) => Some (mkLink sh (lk_producer l) c)
      | Finished => Some l
      | Faulted => None
      end
  end.

Fixpoint link_run (l : Link) (schedule : list Thread) : option Link :=
  match schedule with
  | [] => Some l
  | who :: rest => l' ← link_step l who; link_run l' rest
  end.

(** A new link, its two ends, and what their owners call. *)
Definition link_start (c : TileLinkConfig) (requests : list Request) (ops : list ConsumerOp) : Outcome Link :=
  sh ← TileLink_new c;
  mret (mkLink sh
    (mkProducerThread (TileLink_producer_at c sh (cfg_initial_seq c)) PIdle requests [])
    (mkConsumerThread (TileLink_consumer_at c (cfg_initial_seq c)) CIdle ops [])).
