(* ===== verification/MeshLinkFifo.v ===== *)
(** * A link delivers what was sent

    Proofs about the two threads of [MeshLink].  Under every interleaving the consumer of a
    link receives exactly the messages that the producer sent, in order and unmixed: the
    credits that the consumer grants keep the producer away from every metadata entry and
    every payload byte that the consumer may still read. *)
From stdpp Require Import base tactics numbers list.
From Stdlib Require Import ZArith Lia.
From S2P Require Import Prelude MeshLink.
Local Open Scope Z_scope.

(** ** Sequence numbers *)

Lemma as_i64_wrap z : - 2 ^ 63 <= z < 2 ^ 63 → as_i64 (wrap64 z) = z.
Proof.
  intros Hz. unfold as_i64, wrap64. destruct (Z.ltb_spec (z mod 2 ^ 64) (2 ^ 63)) as [Hl|Hl].
  - destruct (Z.le_gt_cases 0 z); [by rewrite Z.mod_small by lia|].
    assert (z mod 2 ^ 64 = z + 2 ^ 64); [|lia]. symmetry. apply Z.mod_unique_pos with (q := -1); lia.
  - destruct (Z.le_gt_cases 0 z); [rewrite Z.mod_small in Hl by lia; lia|].
    assert (z mod 2 ^ 64 = z + 2 ^ 64); [|lia]. symmetry. apply Z.mod_unique_pos with (q := -1); lia.
Qed.

Lemma wrap64_sub a b : wrap64 (wrap64 a - wrap64 b) = wrap64 (a - b).
Proof. unfold wrap64. by rewrite <- Zminus_mod. Qed.
Lemma seq_diff_wrap a b : - 2 ^ 63 <= a - b < 2 ^ 63 → seq_diff (wrap64 a) (wrap64 b) = a - b.
Proof. intros Hab. unfold seq_diff. rewrite wrap64_sub. by apply as_i64_wrap. Qed.
Lemma seq_inc_wrap a b : seq_inc (wrap64 a) b = wrap64 (a + b).
Proof. unfold seq_inc, wrap64. by rewrite Zplus_mod_idemp_l. Qed.
Lemma seq_dec_wrap a b : seq_dec (wrap64 a) b = wrap64 (a - b).
Proof. unfold seq_dec, wrap64. by rewrite Zminus_mod_idemp_l. Qed.

Lemma line_idx_wrap (k : nat) z :
  (k <= 64)%nat → line_idx (2 ^ k) (wrap64 z) = Z.to_nat (z mod 2 ^ Z.of_nat k).
Proof.
  intros Hk. unfold line_idx, wrap64. rewrite Nat2Z.inj_pow. change (Z.of_nat 2) with 2.
  replace (2 ^ Z.of_nat k - 1) with (Z.ones (Z.of_nat k)) by (rewrite Z.ones_equiv; lia).
  rewrite Z.land_ones by lia. f_equal. rewrite Z.mod_mod_divide; [done|].
  exists (2 ^ (64 - Z.of_nat k)). rewrite <- Z.pow_add_r by lia. f_equal. lia.
Qed.

(** ** Metadata fields *)

Definition body_field (k : nat) (m : FragmentMeta) : Z :=
  match k with
  | 0 => fm_sig m | 1 => fm_chunk m | 2 => fm_sz m | 3 => fm_ctl m | 4 => fm_tsorig m | _ => fm_tspub m
  end%nat.
Definition agree (k : nat) (m m' : FragmentMeta) : Prop := ∀ j, (j < k)%nat → body_field j m = body_field j m'.

Lemma agree_copy k from to : (k < BODY_FIELDS)%nat → agree k to from → agree (S k) (copy_field k from to) from.
Proof.
  unfold BODY_FIELDS. intros Hk Ha j Hj. destruct (decide (j = k)) as [->|Hn].
  - by do 6 (destruct k as [|k]; [done|]); lia.
  - pose proof (Ha j ltac:(lia)) as Hjj. rewrite <- Hjj.
    do 6 (destruct k as [|k]; [by do 6 (destruct j as [|j]; [done|]); lia|]). lia.
Qed.
Lemma copy_field_seq k from to : fm_seq (copy_field k from to) = fm_seq to.
Proof. by do 6 (destruct k as [|k]; [done|]). Qed.
Lemma agree_eq m m' : fm_seq m = fm_seq m' → agree BODY_FIELDS m m' → m = m'.
Proof.
  destruct m, m'. cbn. intros -> Ha. unfold BODY_FIELDS in Ha. f_equal;
    [apply (Ha 0%nat)|apply (Ha 1%nat)|apply (Ha 2%nat)|apply (Ha 3%nat)|apply (Ha 4%nat)|apply (Ha 5%nat)]; lia.
Qed.

(** ** Payloads in the region *)

Definition stored (data : list Z) (offset : nat) (bytes : list Z) : Prop :=
  ∀ i b, bytes !! i = Some b → data !! (offset + i)%nat = Some b.

Lemma stored_other data offset bytes o b :
  stored data offset bytes → (o < offset ∨ offset + length bytes <= o)%nat → stored (<[o := b]> data) offset bytes.
Proof.
  intros Hs Ho i b' Hi. rewrite list_lookup_insert_ne; [by apply Hs|].
  apply lookup_lt_Some in Hi. lia.
Qed.
Lemma stored_next data offset bytes i b :
  stored data offset (take i bytes) → bytes !! i = Some b → (offset + i < length data)%nat →
  stored (<[(offset + i)%nat := b]> data) offset (take (S i) bytes).
Proof.
  intros Hs Hi Hlen j b' Hj. apply lookup_take_Some in Hj as [Hj Hji].
  destruct (decide (j = i)) as [->|Hn].
  - rewrite list_lookup_insert_eq by done. congruence.
  - rewrite list_lookup_insert_ne by lia. apply Hs. apply lookup_take_Some. split; [done|lia].
Qed.
Lemma stored_read data offset bytes :
  stored data offset bytes → (offset + length bytes <= length data)%nat → read_bytes data offset (length bytes) = Some bytes.
Proof.
  intros Hs Hlen. unfold read_bytes. rewrite (proj2 (Nat.ltb_ge _ _)) by lia. f_equal.
  apply list_eq. intros i. destruct (Nat.lt_ge_cases i (length bytes)) as [Hi|Hi].
  - rewrite lookup_take_lt, lookup_drop by done. destruct (lookup_lt_is_Some_2 bytes i Hi) as [b Hb].
    rewrite Hb. by apply Hs.
  - rewrite lookup_take_ge by done. symmetry. by apply lookup_ge_None.
Qed.

(** ** Sizes of the region *)

Lemma align_up_pow v k : 0 <= k → 0 <= v → align_up v (2 ^ k) = div_ceil v (2 ^ k) * 2 ^ k.
Proof.
  intros Hk Hv. unfold align_up, div_ceil.
  replace (2 ^ k - 1) with (Z.ones k) by (rewrite Z.ones_equiv; lia).
  rewrite <- Z.ldiff_land, Z.ldiff_ones_r, Z.shiftl_mul_pow2, Z.shiftr_div_pow2 by lia. done.
Qed.

Lemma slot_chunks_eq len : 0 <= len <= u16_max → slot_chunks len = 2 * ((len + 127) / 128).
Proof.
  intros Hl. unfold slot_chunks, div_ceil, DATA_REGION_SLOT_ALIGN, CHUNK_SIZE, u16_max in *.
  change (128 / 64) with 2. unfold wrap32.
  assert (E : ((len + 64 - 1) / 64 + 2 - 1) / 2 = (len + 127) / 128).
  { replace ((len + 64 - 1) / 64 + 2 - 1) with ((len + 64 - 1 + 1 * 64) / 64) by (rewrite Z.div_add; lia).
    rewrite Z.div_div by lia. f_equal. lia. }
  rewrite E. rewrite Z.mod_small; [lia|].
  assert (0 <= (len + 127) / 128) by (apply Z.div_pos; lia).
  assert ((len + 127) / 128 <= 1024) by (apply Z.div_le_upper_bound; lia). lia.
Qed.

Record link_ok (c : TileLinkConfig) : Prop := {
  ok_depth : ∃ k, (k <= 32)%nat ∧ cfg_depth c = (2 ^ k)%nat;
  ok_mtu : 0 <= cfg_mtu c <= u16_max;
  ok_burst : 1 <= cfg_burst c;
  ok_seq : is_u64 (cfg_initial_seq c);
  ok_region : required_data_size (cfg_mtu c) (Z.of_nat (cfg_depth c)) (cfg_burst c) true < 2 ^ 37;
}.

Section link.
Context (c : TileLinkConfig) (Hok : link_ok c).

Definition D : Z := Z.of_nat (cfg_depth c).
Definition M : Z := slot_chunks (cfg_mtu c).
Definition T : Z := Z.of_nat (length (DataRegion_for_link (cfg_mtu c) D (cfg_burst c) true)) / 64.

Lemma depth_bounds : 1 <= D <= 2 ^ 32.
Proof using Hok.
  destruct (ok_depth c Hok) as (k & Hk & E). unfold D. rewrite E, Nat2Z.inj_pow. change (Z.of_nat 2) with 2.
  pose proof (Z.pow_le_mono_r 2 0 (Z.of_nat k)). pose proof (Z.pow_le_mono_r 2 (Z.of_nat k) 32). lia.
Qed.
Lemma M_bounds : 0 <= M <= 1024.
Proof using Hok.
  unfold M. rewrite slot_chunks_eq by apply Hok. destruct (ok_mtu c Hok) as [H0 H1]. unfold u16_max in H1.
  assert (0 <= (cfg_mtu c + 127) / 128) by (apply Z.div_pos; lia).
  assert ((cfg_mtu c + 127) / 128 < 513) by (apply Z.div_lt_upper_bound; lia). lia.
Qed.

(** A payload fits in its chunks, and no payload takes more chunks than a full one. *)
Lemma slot_chunks_bounds len :
  0 <= len <= cfg_mtu c → 0 <= slot_chunks len <= M ∧ len <= 64 * slot_chunks len.
Proof using Hok.
  intros Hl. destruct (ok_mtu c Hok) as [H0 H1]. unfold M. rewrite !slot_chunks_eq by lia.
  assert (0 <= (len + 127) / 128) by (apply Z.div_pos; lia).
  assert ((len + 127) / 128 <= (cfg_mtu c + 127) / 128) by (apply Z.div_le_mono; lia).
  pose proof (Z.mod_pos_bound (len + 127) 128). pose proof (Z.div_mod (len + 127) 128). lia.
Qed.

Lemma region_size :
  Z.of_nat (length (DataRegion_for_link (cfg_mtu c) D (cfg_burst c) true)) = 64 * T ∧ (D + 2) * M <= T < 2 ^ 31 + 64.
Proof using Hok.
  pose proof depth_bounds as HD. pose proof M_bounds as HM. pose proof (ok_burst c Hok) as HB.
  pose proof (ok_region c Hok) as HR. destruct (ok_mtu c Hok) as [H0 H1].
  assert (Hf : slot_footprint (cfg_mtu c) = 64 * M).
  { unfold slot_footprint, DATA_REGION_SLOT_ALIGN, M. change 128 with (2 ^ 7) at 1.
    rewrite align_up_pow, slot_chunks_eq by lia. unfold div_ceil. change (2 ^ 7) with 128.
    replace (cfg_mtu c + 128 - 1) with (cfg_mtu c + 127) by lia. lia. }
  unfold T, DataRegion_for_link, DataRegion_new. rewrite length_replicate.
  set (r := required_data_size (cfg_mtu c) D (cfg_burst c) true) in *. fold D in HR. fold r in HR.
  assert (Hr : r = 64 * M * (D + cfg_burst c + 1)) by (unfold r, required_data_size; rewrite Hf; cbn; lia).
  assert (Hr0 : 64 * ((D + 2) * M) <= r) by nia.
  unfold DATA_REGION_ALIGN. change 4096 with (2 ^ 12). rewrite align_up_pow by nia.
  unfold div_ceil. change (2 ^ 12) with 4096.
  set (n := (r + 4096 - 1) / 4096). pose proof (Z.div_mod (r + 4096 - 1) 4096) as Hdm.
  pose proof (Z.mod_pos_bound (r + 4096 - 1) 4096) as Hmb. fold n in Hdm.
  assert (r <= n * 4096 < r + 4096) by lia. rewrite Z2Nat.id by nia.
  replace (n * 4096) with (n * 64 * 64) by lia. rewrite Z.div_mul by lia. lia.
Qed.

Lemma wmark_eq data : length data = length (DataRegion_for_link (cfg_mtu c) D (cfg_burst c) true) →
  DataRegion_watermark data (cfg_mtu c) = T - M.
Proof using Hok.
  intros Hd. destruct region_size as [HT HT']. pose proof M_bounds. pose proof depth_bounds.
  unfold DataRegion_watermark, DataRegion_chunk1, CHUNK_LG_SIZE. rewrite Hd, HT, Z.shiftr_div_pow2 by lia.
  change (2 ^ 6) with 64. rewrite (Z.mul_comm 64), Z.div_mul by lia. fold M.
  unfold wrap32. rewrite (Z.mod_small T) by nia. rewrite Z.mod_small by nia. done.
Qed.

(** ** Where payloads go *)

Definition len_of (rq : Request) : Z := Z.of_nat (length (rq_payload rq)).
Definition short (rq : Request) : Prop := len_of rq <= cfg_mtu c.
Definition chunks_of (rq : Request) : Z := slot_chunks (len_of rq).
Definition place (start : Z) (acc : list Request) : Z :=
  foldl (λ chunk rq, compact_next chunk (len_of rq) 0 (T - M)) start acc.
Definition used (acc : list Request) : Z := foldr (λ rq z, chunks_of rq + z) 0 acc.

Lemma used_snoc acc rq : used (acc ++ [rq]) = used acc + chunks_of rq.
Proof. unfold used. induction acc as [|r acc IH]; cbn; [lia|]. rewrite IH. lia. Qed.
Lemma chunks_bounds rq : short rq → 0 <= chunks_of rq <= M ∧ len_of rq <= 64 * chunks_of rq.
Proof using Hok. intros Hs. apply slot_chunks_bounds. unfold short, len_of in *. lia. Qed.
Lemma used_bounds acc : Forall short acc → 0 <= used acc <= Z.of_nat (length acc) * M.
Proof using Hok.
  induction 1 as [|rq acc Hs _ IH]; [done|]. pose proof (chunks_bounds rq Hs). cbn [length].
  rewrite Nat2Z.inj_succ, Z.mul_succ_l. change (used (rq :: acc)) with (chunks_of rq + used acc). lia.
Qed.

Lemma compact_next_eq chunk rq :
  0 <= chunk <= T - M → short rq →
  compact_next chunk (len_of rq) 0 (T - M) = if T - M <? chunk + chunks_of rq then 0 else chunk + chunks_of rq.
Proof using Hok.
  intros Hc Hs. unfold compact_next, u32_add, wrap32. fold (chunks_of rq).
  pose proof (chunks_bounds rq Hs). pose proof M_bounds. destruct region_size as [_ HT].
  rewrite Z.mod_small by lia. done.
Qed.

(** Over one lap, the next position is past all the payloads placed since [start], or wrapped
    and still below it. *)
Lemma place_walk start acc :
  0 <= start <= T - M → Forall short acc → (length acc <= S (cfg_depth c))%nat →
  0 <= place start acc <= T - M
  ∧ (place start acc = start + used acc ∨ place start acc < used acc + start + M - T).
Proof using Hok.
  intros Hst. pose proof M_bounds as HM. pose proof depth_bounds as HD. destruct region_size as [_ HT].
  induction acc as [|rq acc IH] using rev_ind; intros Hs Hl; [cbn; lia|].
  apply Forall_app in Hs as [Hs [Hrq _]%Forall_cons]. rewrite length_app in Hl. cbn in Hl.
  destruct IH as [Hb Hcase]; [done|lia|]. unfold place. rewrite foldl_app. cbn [foldl]. fold (place start acc).
  rewrite compact_next_eq by done. rewrite used_snoc.
  pose proof (chunks_bounds rq Hrq) as [Hc _]. pose proof (used_bounds acc Hs) as Hu.
  destruct (Z.ltb_spec (T - M) (place start acc + chunks_of rq)); [|lia].
  split; [nia|]. right. destruct Hcase as [Hcase|Hcase]; [lia|]. unfold D in *. nia.
Qed.

Lemma place_range acc : Forall short acc → 0 <= place 0 acc <= T - M.
Proof using Hok.
  pose proof M_bounds as HM. pose proof depth_bounds as HD. destruct region_size as [_ HT].
  induction acc as [|rq acc IH] using rev_ind; intros Hs; [cbn; nia|].
  apply Forall_app in Hs as [Hs [Hrq _]%Forall_cons]. unfold place. rewrite foldl_app. cbn [foldl].
  fold (place 0 acc). rewrite compact_next_eq by auto. pose proof (chunks_bounds rq Hrq) as [Hc _]. specialize (IH Hs).
  destruct (Z.ltb_spec (T - M) (place 0 acc + chunks_of rq)); nia.
Qed.

(** Two payloads at most [depth] messages apart do not overlap. *)
Lemma payloads_disjoint acc q m rq rq' :
  Forall short acc → acc !! q = Some rq → acc !! m = Some rq' → (q < m <= q + cfg_depth c)%nat →
  place 0 (take q acc) + chunks_of rq <= place 0 (take m acc)
  ∨ place 0 (take m acc) + chunks_of rq' <= place 0 (take q acc).
Proof using Hok.
  intros Hs Hq Hm Hqm. set (start := place 0 (take q acc)). set (mid := take (m - q) (drop q acc)).
  assert (Hst : 0 <= start <= T - M) by (by apply place_range, Forall_take).
  assert (Em : place 0 (take m acc) = place start mid).
  { unfold start, mid, place. rewrite <- foldl_app. f_equal. rewrite take_drop_commute.
    replace (m - q + q)%nat with m by lia. replace (q + (m - q))%nat with m by lia.
    rewrite <- (take_drop q (take m acc)) at 1. by rewrite take_take, Nat.min_l by lia. }
  assert (Hmid : Forall short mid) by (by apply Forall_take, Forall_drop).
  pose proof (lookup_lt_Some _ _ _ Hm) as Hlen.
  assert (Hlm : length mid = (m - q)%nat) by (unfold mid; rewrite length_take, length_drop; lia).
  assert (Hrq : chunks_of rq <= used mid).
  { unfold mid. rewrite (drop_S _ _ _ Hq). destruct (m - q)%nat eqn:Emq; [lia|]. cbn.
    pose proof (used_bounds (take n (drop (S q) acc)) ltac:(by apply Forall_take, Forall_drop)). fold (used (take n (drop (S q) acc))). lia. }
  pose proof (Forall_lookup_1 _ _ _ _ Hs Hm) as Hs'. pose proof (chunks_bounds rq' Hs') as [Hc' _].
  destruct (place_walk start mid Hst Hmid) as [_ [Hcase|Hcase]]; [lia|left; lia|right].
  pose proof (used_bounds mid Hmid) as Hu. rewrite Hlm in Hu. rewrite Em. destruct region_size as [_ HT].
  pose proof M_bounds. unfold D in *. nia.
Qed.

(** ** Slots of the ring *)

(** The sequence number of message [q], and its entry. *)
Definition seqno (q : Z) : Z := wrap64 (cfg_initial_seq c + q).
Definition slot (q : Z) : nat := Z.to_nat ((cfg_initial_seq c + q) mod D).

Lemma seq_diff_seqno a b : - 2 ^ 63 <= a - b < 2 ^ 63 → seq_diff (seqno a) (seqno b) = a - b.
Proof. intros Hab. unfold seqno. rewrite seq_diff_wrap; lia. Qed.
Lemma line_idx_slot q : line_idx (cfg_depth c) (seqno q) = slot q.
Proof using Hok.
  destruct (ok_depth c Hok) as (k & Hk & E). unfold seqno, slot, D. rewrite E, line_idx_wrap by lia.
  by rewrite Nat2Z.inj_pow.
Qed.
Lemma slot_lt q : (slot q < cfg_depth c)%nat.
Proof using Hok.
  pose proof depth_bounds as HD. unfold slot. pose proof (Z.mod_pos_bound (cfg_initial_seq c + q) D). unfold D in *. lia.
Qed.
Lemma slot_ne q q' : 0 < q' - q < D → slot q ≠ slot q'.
Proof using Hok.
  intros Hq E. pose proof depth_bounds as HD. unfold slot in E.
  pose proof (Z.mod_pos_bound (cfg_initial_seq c + q) D). pose proof (Z.mod_pos_bound (cfg_initial_seq c + q') D).
  assert (E' : (cfg_initial_seq c + q) mod D = (cfg_initial_seq c + q') mod D) by lia.
  assert (Hm : (q' - q) mod D = 0).
  { replace (q' - q) with ((cfg_initial_seq c + q') - (cfg_initial_seq c + q)) by lia.
    by rewrite Zminus_mod, E', Z.sub_diag. }
  rewrite Z.mod_small in Hm by lia. lia.
Qed.
Lemma slot_period q : slot (q + D) = slot q.
Proof using Hok.
  pose proof depth_bounds. unfold slot. f_equal. rewrite Z.add_assoc.
  rewrite <- (Z.mul_1_l D) at 1. by rewrite Z.mod_add by lia.
Qed.

(** The metadata that message [q] is published with. *)
Definition meta_of (acc : list Request) (q : nat) (rq : Request) : FragmentMeta :=
  request_meta (seqno (Z.of_nat q)) (place 0 (take q acc)) rq.
Definition offset_of (acc : list Request) (q : nat) : nat := chunk_to_offset (place 0 (take q acc)).

Lemma meta_of_app acc l q rq : (q <= length acc)%nat → meta_of (acc ++ l) q rq = meta_of acc q rq.
Proof. intros Hq. unfold meta_of. by rewrite take_app_le. Qed.
Lemma offset_of_app acc l q : (q <= length acc)%nat → offset_of (acc ++ l) q = offset_of acc q.
Proof. intros Hq. unfold offset_of. by rewrite take_app_le. Qed.
Lemma offset_eq acc q : Forall short acc → Z.of_nat (offset_of acc q) = 64 * place 0 (take q acc).
Proof using Hok.
  intros Hs. unfold offset_of, chunk_to_offset, CHUNK_LG_SIZE. rewrite Z.shiftl_mul_pow2 by lia.
  pose proof (place_range (take q acc) ltac:(by apply Forall_take)). change (2 ^ 6) with 64. lia.
Qed.
Lemma payload_in_region acc q rq :
  Forall short acc → acc !! q = Some rq → Z.of_nat (offset_of acc q) + len_of rq <= 64 * T.
Proof using Hok.
  intros Hs Hq. rewrite offset_eq by done. pose proof (place_range (take q acc) ltac:(by apply Forall_take)).
  pose proof (chunks_bounds rq ltac:(by eapply Forall_lookup_1)). lia.
Qed.

(** ** The shared memory while message [n - 1] is on its way *)

Definition unmarked (pc : ProducerPc) : nat := match pc with PCopy _ _ => 1 | _ => 0 end.
Definition unpublished (pc : ProducerPc) : nat := match pc with PCopy _ _ | PBody _ _ => 1 | _ => 0 end.
Definition written (pc : ProducerPc) (last : bool) (rq : Request) : list Z :=
  match pc with PCopy _ i => if last then take i (rq_payload rq) else rq_payload rq | _ => rq_payload rq end.

Record memory_inv (sh : Shared) (pc : ProducerPc) (acc : list Request) : Prop := {
  mi_entries : length (sh_entries sh) = cfg_depth c;
  mi_data : Z.of_nat (length (sh_data sh)) = 64 * T;
  mi_published : ∀ q rq, acc !! q = Some rq →
    (q < length acc - unpublished pc)%nat → (length acc - unmarked pc <= q + cfg_depth c)%nat →
    sh_entries sh !! slot (Z.of_nat q) = Some (meta_of acc q rq);
  mi_fresh : ∀ q, (length acc - unmarked pc <= q < cfg_depth c)%nat →
    ∃ e z, sh_entries sh !! slot (Z.of_nat q) = Some e ∧ fm_seq e = seqno z ∧ - D <= z < 0;
  mi_marked : match pc with
    | PBody rq k => ∃ e, sh_entries sh !! slot (Z.of_nat (length acc - 1)) = Some e
        ∧ fm_seq e = seqno (Z.of_nat (length acc - 1) - 1) ∧ agree k e (meta_of acc (length acc - 1) rq)
    | _ => True
    end;
  mi_payloads : ∀ q rq, acc !! q = Some rq → (length acc <= q + cfg_depth c + 1)%nat →
    stored (sh_data sh) (offset_of acc q) (written pc (Nat.eqb (S q) (length acc)) rq);
}.

Lemma memory_accept sh acc rq :
  memory_inv sh PIdle acc → memory_inv sh (PCopy rq 0) (acc ++ [rq]).
Proof using.
  intros []. split; [done|done|..]; rewrite ?length_app; cbn [length unmarked unpublished written].
  - intros q rq' Hq H1 H2. rewrite lookup_app_l in Hq by lia. rewrite meta_of_app by lia.
    apply mi_published0; cbn; [done|lia|lia].
  - intros q Hq. apply mi_fresh0. cbn. lia.
  - done.
  - intros q rq' Hq Hw. destruct (Nat.eqb_spec (S q) (length acc + 1)); [by intros i b|].
    apply lookup_lt_Some in Hq as Hlt. rewrite length_app in Hlt. cbn in Hlt.
    rewrite lookup_app_l in Hq by lia. rewrite offset_of_app by lia.
    specialize (mi_payloads0 q rq' Hq ltac:(lia)). done.
Qed.

Lemma memory_byte sh acc rq i b :
  memory_inv sh (PCopy rq i) acc → Forall short acc → acc !! (length acc - 1)%nat = Some rq →
  rq_payload rq !! i = Some b →
  ∃ sh', write_byte sh (offset_of acc (length acc - 1) + i) b = Some sh' ∧ sh_flow sh' = sh_flow sh
    ∧ memory_inv sh' (PCopy rq (S i)) acc.
Proof using Hok.
  intros [] Hs Hrq Hb. apply lookup_lt_Some in Hb as Hi. apply lookup_lt_Some in Hrq as Hn.
  pose proof (payload_in_region acc _ _ Hs Hrq) as Hin. unfold len_of in Hin.
  assert (Ho : (offset_of acc (length acc - 1) + i < length (sh_data sh))%nat) by lia.
  destruct (lookup_lt_is_Some_2 _ _ Ho) as [b0 Hb0]. unfold write_byte. rewrite Hb0. cbn.
  eexists. split; [done|]. split; [done|]. split; try done; cbn [sh_entries sh_data].
  { by rewrite length_insert. }
  intros q rq' Hq Hw. specialize (mi_payloads0 q rq' Hq Hw). cbn [written] in *.
  destruct (Nat.eqb_spec (S q) (length acc)) as [E|E].
  - replace (length acc - 1)%nat with q in * by lia. assert (rq' = rq) as -> by congruence.
    by apply stored_next.
  - apply stored_other; [done|]. apply lookup_lt_Some in Hq as Hql.
    destruct (payloads_disjoint acc q (length acc - 1) rq' rq Hs Hq Hrq) as [Hd|Hd]; [lia|..];
      pose proof (chunks_bounds rq ltac:(by eapply Forall_lookup_1)) as [_ Hc];
      pose proof (chunks_bounds rq' ltac:(by eapply Forall_lookup_1)) as [_ Hc'];
      pose proof (offset_eq acc q Hs); pose proof (offset_eq acc (length acc - 1) Hs); unfold len_of in *; lia.
Qed.

(** Writing the entry of the last message leaves the other entries in use alone. *)
Lemma memory_entry sh pc pc' acc f :
  memory_inv sh pc acc → (0 < length acc)%nat →
  unpublished pc = 1%nat → unmarked pc' = 0%nat →
  (∀ q rq, acc !! q = Some rq → written pc' (Nat.eqb (S q) (length acc)) rq = written pc (Nat.eqb (S q) (length acc)) rq) →
  ∀ e, sh_entries sh !! slot (Z.of_nat (length acc - 1)) = Some e →
  (unpublished pc' = 0%nat → ∀ rq, acc !! (length acc - 1)%nat = Some rq → f e = meta_of acc (length acc - 1) rq) →
  match pc' with
  | PBody rq k => fm_seq (f e) = seqno (Z.of_nat (length acc - 1) - 1) ∧ agree k (f e) (meta_of acc (length acc - 1) rq)
  | _ => True
  end →
  ∃ sh', write_entry sh (slot (Z.of_nat (length acc - 1))) f = Some sh' ∧ sh_flow sh' = sh_flow sh
    ∧ memory_inv sh' pc' acc.
Proof using Hok.
  intros [] Hn Hup Hum Hwr e He Hpub Hbody. unfold write_entry. rewrite He. cbn.
  eexists. split; [done|]. split; [done|]. set (n := length acc) in *.
  assert (Hslot : (slot (Z.of_nat (n - 1)) < length (sh_entries sh))%nat) by (rewrite mi_entries0; apply slot_lt).
  split; cbn [sh_entries sh_data]; [by rewrite length_insert|done|..].
  - intros q rq Hq H1 H2. fold n in H1, H2. destruct (decide (q = n - 1)%nat) as [->|Hq'].
    + rewrite list_lookup_insert_eq by done.
      f_equal. apply Hpub; [|done]. lia.
    + rewrite list_lookup_insert_ne; [apply mi_published0; [done|lia|lia]|].
      apply not_eq_sym, slot_ne. unfold D. lia.
  - intros q Hq. fold n in Hq. rewrite list_lookup_insert_ne; [apply mi_fresh0; lia|].
    apply slot_ne. unfold D. lia.
  - destruct pc' as [|rq i|rq k|rq]; try done. eexists. rewrite list_lookup_insert_eq by done. by split.
  - intros q rq Hq Hw. rewrite Hwr by done. by apply mi_payloads0.
Qed.

(** The entry that the last message will take, or the next one when none is on its way. *)
Lemma memory_stale sh pc acc (q := (length acc - unpublished pc)%nat) :
  memory_inv sh pc acc → (unpublished pc <= length acc)%nat →
  ∃ e z, sh_entries sh !! slot (Z.of_nat q) = Some e ∧ fm_seq e = seqno z ∧ Z.of_nat q - 2 * D <= z < Z.of_nat q.
Proof using Hok.
  intros Hm Hn. pose proof depth_bounds as HD. unfold D in HD.
  assert (Hold : (q = length acc - unmarked pc)%nat → ∃ e z, sh_entries sh !! slot (Z.of_nat q) = Some e
    ∧ fm_seq e = seqno z ∧ Z.of_nat q - 2 * D <= z < Z.of_nat q).
  { intros Eq. destruct (Nat.lt_ge_cases q (cfg_depth c)) as [Hlt|Hge].
    - destruct (mi_fresh _ _ _ Hm q) as (e & z & He & Hz & Hb); [lia|]. exists e, z. unfold D in *. split_and!; lia || done.
    - destruct (lookup_lt_is_Some_2 acc (q - cfg_depth c)) as [rq Hrq]; [lia|].
      pose proof (mi_published _ _ _ Hm _ _ Hrq ltac:(lia) ltac:(lia)) as He.
      eexists _, (Z.of_nat (q - cfg_depth c)). rewrite <- (slot_period (Z.of_nat (q - cfg_depth c))) in He.
      replace (Z.of_nat (q - cfg_depth c) + D) with (Z.of_nat q) in He by (unfold D; lia).
      split; [exact He|]. split; [done|]. unfold D in *. lia. }
  destruct pc as [|rq i|rq k|rq]; try by apply Hold.
  destruct (mi_marked _ _ _ Hm) as (e & He & Hz & _). subst q. cbn [unpublished] in *.
  exists e, (Z.of_nat (length acc - 1) - 1). split_and!; [done|done|unfold D; lia|lia].
Qed.

(** ** The producer *)

(** The calls that were accepted, with the sequence numbers they return. *)
Definition accepted (calls : list (Request * option Z)) : list (Request * Z) :=
  omap (λ x, (λ seq, (x.1, seq)) <$> x.2) calls.
Definition unreturned (pc : ProducerPc) : nat := match pc with PIdle => 0 | _ => 1 end.
Definition sending (pc : ProducerPc) (rq : Request) : Prop :=
  match pc with
  | PIdle => True
  | PCopy rq' i => rq' = rq ∧ (i <= length (rq_payload rq))%nat
  | PBody rq' k => rq' = rq ∧ (k <= BODY_FIELDS)%nat
  | PWatermark rq' => rq' = rq
  end.

Record producer_inv (t : ProducerThread) (acc : list Request) (granted : nat) : Prop := {
  pi_link : lp_chunk0 (pt_link t) = 0 ∧ lp_wmark (pt_link t) = T - M
    ∧ lp_mtu (pt_link t) = cfg_mtu c ∧ lp_depth (pt_link t) = cfg_depth c;
  pi_accepted : accepted (pt_calls t) = imap (λ q rq, (rq, seqno (Z.of_nat q))) acc;
  pi_short : Forall short acc;
  pi_started : (unreturned (pt_pc t) <= length acc)%nat;
  pi_next : lp_next_seq (pt_link t) = seqno (Z.of_nat (length acc - unreturned (pt_pc t)));
  pi_chunk : lp_current_chunk (pt_link t) = place 0 (take (length acc - unreturned (pt_pc t)) acc);
  pi_sending : ∀ rq, acc !! (length acc - 1)%nat = Some rq → sending (pt_pc t) rq;
  pi_credit : (length acc <= granted + cfg_depth c)%nat;
}.

(** What a turn of the producer does to the accepted messages. *)
Definition extends (acc acc' : list Request) : Prop := acc' = acc ∨ ∃ rq, acc' = acc ++ [rq].
Definition published (t : ProducerThread) (acc : list Request) : nat := (length acc - unpublished (pt_pc t))%nat.

Lemma last_message (acc : list Request) : (0 < length acc)%nat → ∃ rq, acc !! (length acc - 1)%nat = Some rq.
Proof. intros Hn. apply lookup_lt_is_Some_2. lia. Qed.

Lemma producer_copy sh t acc granted rq i :
  pt_pc t = PCopy rq i → memory_inv sh (pt_pc t) acc → producer_inv t acc granted →
  ∃ sh' t', producer_step sh t = Moved (sh', t') ∧ sh_flow sh' = sh_flow sh ∧ pt_todo t' = pt_todo t
    ∧ memory_inv sh' (pt_pc t') acc ∧ producer_inv t' acc granted ∧ published t' acc = published t acc.
Proof using Hok.
  intros Epc Hm Hp. unfold producer_step. rewrite Epc in *. destruct Hp. rewrite Epc in *. cbn [unreturned] in *.
  destruct (lookup_lt_is_Some_2 acc (length acc - 1)) as [rq' Hrq]; [lia|].
  destruct (pi_sending0 rq' Hrq) as [<- Hi]. destruct (rq_payload rq !! i) as [b|] eqn:Eb.
  - rewrite pi_chunk0. destruct (memory_byte sh acc rq i b Hm pi_short0 Hrq Eb) as (sh' & E & Hfl & Hm').
    unfold offset_of in E. rewrite E. cbn. eexists _, _. split; [done|]. split_and!; try done.
    + apply lookup_lt_Some in Eb. split; cbn; try done. intros rq'' Hq. simplify_eq. split; [done|lia].
    + unfold published. by rewrite Epc.
  - pose proof pi_link0 as (_ & _ & _ & Edepth). rewrite Edepth, pi_next0, line_idx_slot.
    destruct (memory_stale sh (PCopy rq i) acc Hm ltac:(cbn; lia)) as (e & z & He & _). cbn [unpublished] in He.
    destruct (memory_entry sh (PCopy rq i) (PBody rq 0) acc (set_seq (seq_dec (seqno (Z.of_nat (length acc - 1))) 1)) Hm)
      with (e := e) as (sh' & E & Hfl & Hm'); [lia|done|done| |done|done| |].
    + intros q rq' Hq. cbn [written]. destruct (Nat.eqb_spec (S q) (length acc)) as [Eq|]; [|done].
      replace (length acc - 1)%nat with q in Hrq by lia. assert (rq' = rq) as -> by congruence.
      symmetry. apply take_ge. by apply lookup_ge_None.
    + split; [cbn; unfold seqno; rewrite seq_dec_wrap; f_equal; lia|]. intros j Hj. lia.
    + rewrite E. cbn. eexists _, _. split; [done|]. split_and!; try done.
      * split; cbn; try done. intros rq'' Hq. simplify_eq. split; [done|unfold BODY_FIELDS; lia].
      * unfold published. by rewrite Epc.
Qed.

Lemma producer_body sh t acc granted rq k :
  pt_pc t = PBody rq k → memory_inv sh (pt_pc t) acc → producer_inv t acc granted →
  ∃ sh' t', producer_step sh t = Moved (sh', t') ∧ sh_flow sh' = sh_flow sh ∧ pt_todo t' = pt_todo t
    ∧ memory_inv sh' (pt_pc t') acc ∧ producer_inv t' acc granted ∧ (published t acc <= published t' acc)%nat.
Proof using Hok.
  intros Epc Hm Hp. unfold producer_step. rewrite Epc in *. destruct Hp. rewrite Epc in *. cbn [unreturned] in *.
  destruct (lookup_lt_is_Some_2 acc (length acc - 1)) as [rq' Hrq]; [lia|].
  destruct (pi_sending0 rq' Hrq) as [<- Hk]. pose proof pi_link0 as (_ & _ & _ & Edepth).
  destruct (mi_marked _ _ _ Hm) as (e & He & Hse & Ha). rewrite Edepth, pi_next0, pi_chunk0, line_idx_slot.
  change (request_meta (seqno (Z.of_nat (length acc - 1))) (place 0 (take (length acc - 1) acc)) rq)
    with (meta_of acc (length acc - 1) rq).
  destruct (Nat.ltb_spec k BODY_FIELDS) as [Hlt|Hge].
  - destruct (memory_entry sh (PBody rq k) (PBody rq (S k)) acc (copy_field k (meta_of acc (length acc - 1) rq)) Hm)
      with (e := e) as (sh' & E & Hfl & Hm'); [lia|done|done|done|done|done| |].
    + split; [by rewrite copy_field_seq|by apply agree_copy].
    + rewrite E. cbn. eexists _, _. split; [done|]. split_and!; try done.
      * split; cbn; try done. intros rq'' Hq. simplify_eq. split; [done|lia].
      * unfold published. by rewrite Epc.
  - assert (k = BODY_FIELDS) as -> by lia.
    destruct (memory_entry sh (PBody rq BODY_FIELDS) (PWatermark rq) acc (set_seq (seqno (Z.of_nat (length acc - 1)))) Hm)
      with (e := e) as (sh' & E & Hfl & Hm'); [lia|done|done|done|done| |done|].
    + intros _ rq' Hrq'. assert (rq' = rq) as -> by congruence. apply agree_eq.
      * done.
      * intros j Hj. rewrite <- (Ha j Hj). by do 6 (destruct j as [|j]; [done|]).
    + rewrite E. cbn. eexists _, _. split; [done|]. split_and!; try done.
      * split; cbn; try done. intros rq'' Hq. by simplify_eq.
      * unfold published. rewrite Epc. cbn. lia.
Qed.

Lemma producer_watermark sh t acc granted rq :
  pt_pc t = PWatermark rq → memory_inv sh (pt_pc t) acc → producer_inv t acc granted →
  ∃ sh' t', producer_step sh t = Moved (sh', t') ∧ sh_flow sh' = sh_flow sh ∧ pt_todo t' = pt_todo t
    ∧ memory_inv sh' (pt_pc t') acc ∧ producer_inv t' acc granted ∧ published t' acc = published t acc.
Proof using Hok.
  intros Epc Hm Hp. unfold producer_step. rewrite Epc in *. destruct Hp. rewrite Epc in *. cbn [unreturned] in *.
  destruct (lookup_lt_is_Some_2 acc (length acc - 1)) as [rq' Hrq]; [lia|].
  pose proof (pi_sending0 rq' Hrq) as <-. pose proof pi_link0 as (E0 & E1 & _).
  eexists _, _. split; [done|]. split_and!; try done; [by destruct Hm|split; cbn; try done|].
  - lia.
  - rewrite pi_next0. unfold seqno. rewrite seq_inc_wrap. f_equal. lia.
  - rewrite pi_chunk0, E0, E1, Nat.sub_0_r. rewrite firstn_all.
    rewrite <- (take_drop_middle acc _ _ Hrq) at 3. rewrite drop_ge by lia.
    unfold place. by rewrite foldl_app.
  - unfold published. by rewrite Epc.
Qed.

Lemma producer_idle sh t acc granted :
  pt_pc t = PIdle → memory_inv sh (pt_pc t) acc → producer_inv t acc granted →
  sh_flow sh = seqno (Z.of_nat granted) → (granted <= length acc)%nat → Forall short (pt_todo t) →
  producer_step sh t = Finished ∨
  ∃ t' acc', producer_step sh t = Moved (sh, t') ∧ extends acc acc' ∧ Forall short (pt_todo t')
    ∧ memory_inv sh (pt_pc t') acc' ∧ producer_inv t' acc' granted ∧ published t' acc' = published t acc.
Proof using Hok.
  intros Epc Hm Hp Hfl Hgr Htodo. unfold producer_step. rewrite Epc in *.
  destruct (pt_todo t) as [|rq todo] eqn:Et; [by left|right]. apply Forall_cons in Htodo as [Hrq Htodo].
  destruct Hp. rewrite Epc in *. cbn [unreturned] in *. pose proof pi_link0 as (_ & _ & Emtu & Edepth).
  rewrite Emtu. rewrite (proj2 (Z.ltb_ge _ _)) by (unfold short, len_of in Hrq; lia).
  unfold LinkProducer_has_credits. rewrite pi_next0, Hfl, Nat.sub_0_r, Edepth.
  pose proof depth_bounds as HD. unfold D in HD. rewrite seq_diff_seqno by lia.
  destruct (Z.ltb_spec (Z.of_nat (length acc) - Z.of_nat granted) (Z.of_nat (cfg_depth c))) as [Hcr|Hcr].
  - eexists _, (acc ++ [rq]). split; [done|]. split_and!; [right; by exists rq|done|by apply memory_accept| |].
    + split; cbn [pt_link pt_pc pt_calls unreturned]; rewrite ?length_app; cbn [length].
      * done.
      * unfold accepted in *. rewrite omap_app, pi_accepted0, imap_app. cbn. by rewrite Nat.add_0_r.
      * by apply Forall_app_2; [|repeat constructor].
      * lia.
      * rewrite pi_next0. f_equal. lia.
      * rewrite pi_chunk0. f_equal. rewrite take_app_le by lia. f_equal. lia.
      * intros rq' Hq. rewrite Nat.add_sub, list_lookup_middle in Hq by done. simplify_eq. split; [done|lia].
      * lia.
    + unfold published. rewrite Epc, length_app. cbn. lia.
  - eexists _, acc. split; [done|]. split_and!; [by left|done|done| |unfold published; by rewrite Epc].
    split; cbn; try done. unfold accepted in *. rewrite omap_app, pi_accepted0. cbn. by rewrite app_nil_r.
Qed.

Lemma producer_turn sh t acc granted :
  memory_inv sh (pt_pc t) acc → producer_inv t acc granted →
  sh_flow sh = seqno (Z.of_nat granted) → (granted <= length acc)%nat → Forall short (pt_todo t) →
  producer_step sh t = Finished ∨
  ∃ sh' t' acc', producer_step sh t = Moved (sh', t') ∧ sh_flow sh' = sh_flow sh
    ∧ extends acc acc' ∧ Forall short (pt_todo t')
    ∧ memory_inv sh' (pt_pc t') acc' ∧ producer_inv t' acc' granted ∧ (published t acc <= published t' acc')%nat.
Proof using Hok.
  intros Hm Hp Hfl Hgr Htodo. destruct (pt_pc t) as [|rq i|rq k|rq] eqn:Epc; rewrite <- Epc in Hm.
  - destruct (producer_idle sh t acc granted) as [?|(t' & acc' & ? & ? & ? & ? & ? & ?)]; try done; [by left|right].
    exists sh, t', acc'. split_and!; try done. lia.
  - right. destruct (producer_copy sh t acc granted rq i) as (sh' & t' & E & ? & ? & ? & ? & ?); try done.
    exists sh', t', acc. split_and!; try done; [by left|congruence|lia].
  - right. destruct (producer_body sh t acc granted rq k) as (sh' & t' & E & ? & ? & ? & ? & ?); try done.
    exists sh', t', acc. split_and!; try done; [by left|congruence].
  - right. destruct (producer_watermark sh t acc granted rq) as (sh' & t' & E & ? & ? & ? & ? & ?); try done.
    exists sh', t', acc. split_and!; try done; [by left|congruence|lia].
Qed.

(** ** The consumer *)

Definition metas_of (r : Received) : list FragmentMeta :=
  match r with Single (Ready meta) => [meta] | Single _ => [] | Batch l => l end.
(** What the calls have returned so far. *)
Definition delivered (results : list Received) : list FragmentMeta := results ≫= metas_of.
Definition no_overrun (r : Received) : Prop := match r with Single (Overrun _) => False | _ => True end.

Definition call_held (call : Call) : list FragmentMeta :=
  match call with CallReceive => [] | CallBatch _ _ results => results end.
(** What the current call has received. *)
Definition held (pc : ConsumerPc) : list FragmentMeta :=
  match pc with
  | CIdle => []
  | CPoll call _ | CBody call _ _ _ => call_held call
  | CFlow r => metas_of r
  | CBreak results => results
  end.
Definition clean (pc : ConsumerPc) : Prop :=
  match pc with CFlow r => no_overrun r | CBreak _ => False | _ => True end.

(** [got] are the first messages, in order. *)
Record in_order (link : LinkConsumer) (got : list FragmentMeta) (acc : list Request) (pub : nat) : Prop := {
  io_depth : lc_depth link = cfg_depth c;
  io_next : lc_next_seq link = seqno (Z.of_nat (length got));
  io_bound : (length got <= pub)%nat;
  io_right : ∀ i rq, (i < length got)%nat → acc !! i = Some rq → got !! i = Some (meta_of acc i rq);
}.

(** The consumer reads message [q]: the entry held it when the sequence number was read, or
    held an older one. *)
Definition reading (pc : ConsumerPc) (q : nat) (acc : list Request) (pub : nat) : Prop :=
  match pc with
  | CBody _ _ copy k => (k <= BODY_FIELDS)%nat ∧
      ((q < pub)%nat ∧ fm_seq copy = seqno (Z.of_nat q) ∧ (∀ rq, acc !! q = Some rq → agree k copy (meta_of acc q rq))
       ∨ ∃ z, fm_seq copy = seqno z ∧ Z.of_nat q - 2 * D <= z < Z.of_nat q)
  | _ => True
  end.

Record consumer_inv (t : ConsumerThread) (acc : list Request) (pub : nat) : Prop := {
  ci_order : in_order (ct_link t) (delivered (ct_results t) ++ held (ct_pc t)) acc pub;
  ci_clean : Forall no_overrun (ct_results t) ∧ clean (ct_pc t);
  ci_reading : reading (ct_pc t) (length (delivered (ct_results t) ++ held (ct_pc t))) acc pub;
}.
Definition granted (t : ConsumerThread) : nat := length (delivered (ct_results t)).

Lemma delivered_snoc results r : delivered (results ++ [r]) = delivered results ++ metas_of r.
Proof. unfold delivered. rewrite bind_app. cbn. by rewrite app_nil_r. Qed.

Lemma returned_inv link t acc pub r :
  in_order link (delivered (ct_results t) ++ metas_of r) acc pub → Forall no_overrun (ct_results t) → no_overrun r →
  consumer_inv (returned link t r) acc pub.
Proof.
  intros Ho Hn Hr. split; cbn; [by rewrite delivered_snoc, app_nil_r| |done].
  split; [|done]. apply Forall_app_2; [done|]. by repeat constructor.
Qed.

Lemma batch_finish_inv link t acc pub results :
  in_order link (delivered (ct_results t) ++ results) acc pub → Forall no_overrun (ct_results t) →
  consumer_inv (batch_finish link t results) acc pub
  ∧ granted (batch_finish link t results) = granted t.
Proof.
  intros Ho Hn. unfold batch_finish. case_bool_decide as E.
  - subst results. split; [by apply returned_inv|]. unfold granted. cbn. by rewrite delivered_snoc, app_nil_r.
  - split; [|done]. by split.
Qed.
Lemma enter_poll_inv link t acc pub call polls :
  in_order link (delivered (ct_results t) ++ call_held call) acc pub → Forall no_overrun (ct_results t) →
  consumer_inv (enter_poll link t call polls) acc pub ∧ granted (enter_poll link t call polls) = granted t.
Proof.
  intros Ho Hn. destruct polls as [|polls]; cbn; [|by split; [split|]].
  destruct call; [|by apply batch_finish_inv]. split; [by apply returned_inv|].
  unfold granted. cbn. by rewrite delivered_snoc, app_nil_r.
Qed.
Lemma enter_batch_inv link t acc pub turns polls results :
  in_order link (delivered (ct_results t) ++ results) acc pub → Forall no_overrun (ct_results t) →
  consumer_inv (enter_batch link t turns polls results) acc pub
  ∧ granted (enter_batch link t turns polls results) = granted t.
Proof. intros Ho Hn. destruct turns; [by apply batch_finish_inv|by apply enter_poll_inv]. Qed.

Lemma in_order_next link got acc pub rq :
  in_order link got acc pub → (length got < pub)%nat → acc !! length got = Some rq →
  in_order (mkLinkConsumer (seq_inc (lc_next_seq link) 1) (lc_depth link)) (got ++ [meta_of acc (length got) rq]) acc pub.
Proof.
  intros [] Hlt Hrq. split; cbn; [done| |rewrite length_app; cbn; lia|].
  - rewrite io_next0, length_app. unfold seqno. rewrite seq_inc_wrap. f_equal. cbn. lia.
  - intros i rq' Hi Hq. rewrite length_app in Hi. cbn in Hi. destruct (decide (i = length got)) as [->|Hn].
    + rewrite list_lookup_middle by done. congruence.
    + rewrite lookup_app_l by lia. apply io_right0; [lia|done].
Qed.

Lemma poll_ready_inv t acc pub call polls copy k rq :
  ct_pc t = CBody call polls copy k → consumer_inv t acc pub →
  let q := length (delivered (ct_results t) ++ call_held call) in
  (q < pub)%nat → acc !! q = Some rq →
  consumer_inv (poll_returns t call (Poll_Ready (meta_of acc q rq))) acc pub
  ∧ granted (poll_returns t call (Poll_Ready (meta_of acc q rq))) = granted t.
Proof.
  intros Epc [Ho [Hn _] _] q Hq Hrq. rewrite Epc in Ho. cbn [held] in Ho.
  pose proof (in_order_next _ _ _ _ _ Ho Hq Hrq) as Ho'. fold q in Ho'. destruct call as [|turns max_polls results]; cbn.
  - split; [|done]. split; cbn; [|done|done]. cbn in Ho'. by rewrite app_nil_r in Ho'.
  - apply enter_batch_inv; [|done]. cbn in Ho'. by rewrite <- app_assoc in Ho'.
Qed.
Lemma poll_timeout_inv t acc pub call polls copy k :
  ct_pc t = CBody call polls copy k → consumer_inv t acc pub →
  consumer_inv (poll_returns t call Poll_Timeout) acc pub ∧ granted (poll_returns t call Poll_Timeout) = granted t.
Proof.
  intros Epc [Ho [Hn _] _]. rewrite Epc in Ho. cbn [held] in Ho. destruct call as [|turns max_polls results]; cbn.
  - split; [by apply returned_inv|]. unfold granted. cbn. by rewrite delivered_snoc, app_nil_r.
  - by apply batch_finish_inv.
Qed.

(** The entry that the consumer polls is the message it waits for, or older. *)
Lemma polled_entry sh pc acc got (pub := (length acc - unpublished pc)%nat) :
  memory_inv sh pc acc → (unpublished pc <= length acc)%nat →
  (got <= pub)%nat → (length acc <= got + cfg_depth c)%nat →
  ∃ e, sh_entries sh !! slot (Z.of_nat got) = Some e ∧
    (∃ rq, (got < pub)%nat ∧ acc !! got = Some rq ∧ e = meta_of acc got rq
     ∨ got = pub ∧ ∃ z, fm_seq e = seqno z ∧ Z.of_nat got - 2 * D <= z < Z.of_nat got).
Proof using Hok.
  intros Hm Hn Hle Hw. destruct (Nat.lt_ge_cases got pub) as [Hlt|Hge].
  - destruct (lookup_lt_is_Some_2 acc got) as [rq Hrq]; [lia|].
    exists (meta_of acc got rq). split; [|exists rq; by left]. apply (mi_published _ _ _ Hm); [done|lia|lia].
  - assert (got = pub) as -> by lia. destruct (memory_stale sh pc acc Hm Hn) as (e & z & He & Hz & Hb).
    exists e. split; [exact He|]. exists (mkRequest 0 [] 0 0). right. split; [done|]. by exists z.
Qed.

Lemma consumer_body sh pc acc t call polls copy k (pub := (length acc - unpublished pc)%nat) :
  ct_pc t = CBody call polls copy k → memory_inv sh pc acc → (unpublished pc <= length acc)%nat →
  consumer_inv t acc pub → (length acc <= granted t + cfg_depth c)%nat →
  ∃ t', consumer_step sh t = Moved (sh, t') ∧ consumer_inv t' acc pub ∧ granted t' = granted t.
Proof using Hok.
  intros Epc Hm Hn Hc Hcr. pose proof Hc as [Ho Hcl Hr]. rewrite Epc in Ho, Hcl, Hr. cbn [held reading clean] in Ho, Hcl, Hr.
  set (q := length (delivered (ct_results t) ++ call_held call)) in *. pose proof Ho as [Hd Hnext Hb _].
  assert (Hq : (granted t <= q)%nat) by (unfold q, granted; rewrite length_app; lia).
  destruct (polled_entry sh pc acc q Hm Hn Hb ltac:(lia)) as (e & He & Hcase).
  unfold consumer_step. rewrite Epc, Hd, Hnext, line_idx_slot. fold q. rewrite He. cbn [mbind option_bind moved].
  eexists. split; [done|]. pose proof depth_bounds as HD.
  destruct Hr as [Hk Hr]. destruct (Nat.ltb_spec k BODY_FIELDS) as [Hlt|Hge].
  - split; [|done]. split; cbn; [done|done|]. fold q. split; [lia|]. rewrite copy_field_seq.
    destruct Hr as [(Hqp & Hse & Ha)|(z & Hse & Hz)]; [left|right; by exists z].
    split_and!; [done|done|]. intros rq Hrq. destruct Hcase as (rq' & [(_ & Hrq' & ->)|(? & _)]); [|lia].
    pose proof (eq_trans (eq_sym Hrq') Hrq) as [= ->]. apply agree_copy; auto.
  - assert (k = BODY_FIELDS) as -> by lia. destruct Hr as [(Hqp & Hse & Ha)|(z & Hse & Hz)].
    + destruct Hcase as (rq & [(_ & Hrq & ->)|(? & _)]); [|lia].
      assert (copy = meta_of acc q rq) as -> by (apply agree_eq; [done|by apply Ha]).
      rewrite Z.eqb_refl, Hse, seq_diff_seqno, Z.sub_diag by lia. cbn [andb Z.leb Z.eqb].
      by apply (poll_ready_inv t acc pub call polls (meta_of acc q rq) BODY_FIELDS).
    + rewrite Hse, seq_diff_seqno by lia. rewrite (proj2 (Z.leb_gt 0 (z - Z.of_nat q))), andb_false_r by lia.
      destruct polls as [|[|polls]]; [by eapply poll_timeout_inv..|]. split; [|done]. by split.
Qed.

Lemma consumer_turn sh pc acc t (pub := (length acc - unpublished pc)%nat) :
  memory_inv sh pc acc → (unpublished pc <= length acc)%nat → consumer_inv t acc pub →
  (length acc <= granted t + cfg_depth c)%nat → sh_flow sh = seqno (Z.of_nat (granted t)) →
  consumer_step sh t = Finished ∨
  ∃ sh' t', consumer_step sh t = Moved (sh', t') ∧ memory_inv sh' pc acc ∧ consumer_inv t' acc pub
    ∧ (granted t <= granted t')%nat ∧ sh_flow sh' = seqno (Z.of_nat (granted t')).
Proof using Hok.
  intros Hm Hn Hc Hcr Hfl. pose proof Hc as [Ho [Hno Hcl] Hr].
  destruct (ct_pc t) as [|call polls|call polls copy k|r|results] eqn:Epc.
  - unfold consumer_step. rewrite Epc. destruct (ct_todo t) as [|op todo]; [by left|right].
    cbn [held] in Ho. destruct op as [max_polls|max_count max_polls].
    + destruct (enter_poll_inv (ct_link t) (mkConsumerThread (ct_link t) CIdle todo (ct_results t)) acc pub CallReceive max_polls)
        as [Hi Hg]; [done|done|]. eexists _, _. split; [done|]. rewrite Hg. by split_and!.
    + destruct (enter_batch_inv (ct_link t) (mkConsumerThread (ct_link t) CIdle todo (ct_results t)) acc pub max_count max_polls [])
        as [Hi Hg]; [done|done|]. eexists _, _. split; [done|]. rewrite Hg. by split_and!.
  - right. cbn [held] in Ho. set (q := length (delivered (ct_results t) ++ call_held call)) in *.
    pose proof Ho as [Hd Hnext Hb _].
    assert (Hq : (granted t <= q)%nat) by (unfold q, granted; rewrite length_app; lia).
    destruct (polled_entry sh pc acc q Hm Hn Hb ltac:(lia)) as (e & He & Hcase).
    unfold consumer_step. rewrite Epc, Hd, Hnext, line_idx_slot. fold q. rewrite He. cbn [mbind option_bind moved].
    eexists _, _. split; [done|]. split_and!; [done| |done|done]. split; cbn; [done|done|]. fold q.
    split; [lia|]. destruct Hcase as (rq & [(Hlt & Hrq & ->)|(_ & z & Hz & Hzb)]); [left|right; by exists z].
    split_and!; [done|done|]. intros rq' Hrq' j Hj. lia.
  - right. destruct (consumer_body sh pc acc t call polls copy k) as (t' & E & Hi & Hg); try done.
    exists sh, t'. rewrite Hg. by split_and!.
  - right. unfold consumer_step. rewrite Epc. eexists _, _. split; [done|]. cbn [held clean] in *.
    split_and!; [by destruct Hm|by apply returned_inv|..]; unfold granted; cbn; rewrite delivered_snoc, length_app; [lia|].
    destruct Ho as [_ -> _ _]. by rewrite length_app.
  - done.
Qed.

(** ** The link *)

Lemma consumer_inv_mono t acc acc' pub pub' :
  extends acc acc' → (pub <= pub')%nat → (pub <= length acc)%nat → consumer_inv t acc pub → consumer_inv t acc' pub'.
Proof.
  intros Hext Hp Hn [[] Hc Hr].
  assert (Hmeta : ∀ i rq, (i < pub)%nat → acc' !! i = Some rq → acc !! i = Some rq ∧ meta_of acc' i rq = meta_of acc i rq).
  { intros i rq Hi. destruct Hext as [->|[x ->]]; [done|]. rewrite lookup_app_l, meta_of_app by lia. done. }
  split; [split; [done|done|lia|]|done|].
  - intros i rq Hi Hq. destruct (Hmeta i rq) as [Hq' ->]; [lia|done|]. by apply io_right0.
  - destruct (ct_pc t) as [|?|call polls copy k|?|?]; try done. cbn [reading held] in *. destruct Hr as [Hk Hr].
    split; [done|]. destruct Hr as [(Hq & Hs & Ha)|?]; [left|by right]. split_and!; [lia|done|].
    intros rq Hrq. destruct (Hmeta _ rq Hq Hrq) as [Hrq' ->]. by apply Ha.
Qed.

Record link_inv (l : Link) (acc : list Request) : Prop := {
  li_memory : memory_inv (lk_shared l) (pt_pc (lk_producer l)) acc;
  li_producer : producer_inv (lk_producer l) acc (granted (lk_consumer l));
  li_consumer : consumer_inv (lk_consumer l) acc (published (lk_producer l) acc);
  li_flow : sh_flow (lk_shared l) = seqno (Z.of_nat (granted (lk_consumer l)));
  li_todo : Forall short (pt_todo (lk_producer l));
}.

Lemma granted_bound l acc : link_inv l acc → (granted (lk_consumer l) <= published (lk_producer l) acc <= length acc)%nat.
Proof.
  intros []. destruct li_consumer0 as [[_ _ Hb _] _ _]. rewrite length_app in Hb. unfold granted, published in *. lia.
Qed.
Lemma unpublished_bound t acc g : producer_inv t acc g → (unpublished (pt_pc t) <= length acc)%nat.
Proof. intros []. destruct (pt_pc t); cbn in *; lia. Qed.

Lemma link_step_inv l acc who : link_inv l acc → ∃ l' acc', link_step l who = Some l' ∧ link_inv l' acc'.
Proof using Hok.
  intros Hl. pose proof (granted_bound l acc Hl) as Hg. destruct Hl. destruct who; cbn [link_step].
  - destruct (producer_turn (lk_shared l) (lk_producer l) acc (granted (lk_consumer l)))
      as [->|(sh' & t' & acc' & -> & Hfl & Hext & Htodo & Hm & Hp & Hpub)]; try done; [lia|by exists l, acc|].
    eexists _, acc'. split; [done|]. split; cbn; try done; [|congruence].
    eapply consumer_inv_mono; [done|done| |done]. lia.
  - destruct (consumer_turn (lk_shared l) (pt_pc (lk_producer l)) acc (lk_consumer l))
      as [->|(sh' & t' & -> & Hm & Hc & Hgr & Hfl)]; try done;
      [by eapply unpublished_bound|apply li_producer0|by exists l, acc|].
    eexists _, acc. split; [done|]. split; cbn; try done. destruct li_producer0. split; try done. lia.
Qed.
Lemma link_run_inv schedule : ∀ l acc, link_inv l acc → ∃ l' acc', link_run l schedule = Some l' ∧ link_inv l' acc'.
Proof using Hok.
  induction schedule as [|who rest IH]; intros l acc Hl; [by exists l, acc|]. cbn.
  destruct (link_step_inv l acc who Hl) as (l1 & acc1 & -> & Hl1). cbn. by eapply IH.
Qed.

Lemma link_start_inv requests ops :
  Forall short requests → ∃ l, link_start c requests ops = Done l ∧ link_inv l [].
Proof using Hok.
  intros Hreq. pose proof depth_bounds as HD. destruct (ok_depth c Hok) as (k & Hk & Ek).
  assert (Hinit : cfg_initial_seq c = seqno 0).
  { unfold seqno. rewrite Z.add_0_r, wrap64_small; [done|]. apply Hok. }
  unfold link_start, TileLink_new.
  assert (Hpow : (0 <? cfg_depth c)%nat && is_power_of_two (cfg_depth c) = true).
  { apply andb_true_iff. unfold D in HD. split; [apply Nat.ltb_lt; lia|]. unfold is_power_of_two.
    rewrite Ek, Nat.log2_pow2 by lia. apply Nat.eqb_refl. }
  rewrite Hpow. cbn [rust_assert]. rewrite Done_bind. eexists. split; [done|].
  assert (Hlen : length (MetaRing_entries (cfg_depth c) (cfg_initial_seq c)) = cfg_depth c)
    by (unfold MetaRing_entries; by rewrite length_fmap, length_seq).
  split; cbn [lk_shared lk_producer lk_consumer pt_pc pt_todo sh_flow]; [|..|done|done].
  - split; cbn [sh_entries sh_data]; [done|apply region_size|by intros|..|done|by intros].
    intros q Hq. assert (Hs := slot_lt (Z.of_nat q)). unfold MetaRing_entries. rewrite list_lookup_fmap.
    rewrite lookup_seq_lt by done. eexists _, (Z.of_nat (slot (Z.of_nat q)) - D). split; [done|]. cbn.
    rewrite Hinit at 1. unfold seqno at 1. rewrite Z.add_0_r, seq_dec_wrap. unfold seqno, D. split; [f_equal; lia|lia].
  - split; cbn; try done; [|lia]. rewrite wmark_eq by done. done.
  - split; [split|..]; cbn; done.
Qed.

(** The messages that the consumer has, and may still read the payloads of. *)
Lemma received_message l acc i meta :
  link_inv l acc → (delivered (ct_results (lk_consumer l)) ++ held (ct_pc (lk_consumer l))) !! i = Some meta →
  ∃ rq, acc !! i = Some rq ∧ meta = meta_of acc i rq
    ∧ ((granted (lk_consumer l) <= S i)%nat →
       DataRegion_read_payload (sh_data (lk_shared l)) (fm_chunk meta) (fm_sz meta) = Some (rq_payload rq)).
Proof using Hok.
  intros Hl Hi. pose proof (granted_bound l acc Hl) as Hg. destruct Hl. destruct li_consumer0 as [[_ _ Hb Hr] _ _].
  apply lookup_lt_Some in Hi as Hlt. destruct (lookup_lt_is_Some_2 acc i) as [rq Hrq]; [lia|].
  rewrite (Hr i rq Hlt Hrq) in Hi. injection Hi as <-. exists rq. split_and!; [done|done|]. intros Hw.
  pose proof (pi_short _ _ _ li_producer0) as Hs. pose proof (Forall_lookup_1 _ _ _ _ Hs Hrq) as Hrs.
  unfold short, len_of in Hrs. pose proof (ok_mtu c Hok) as Hmtu. unfold u16_max in Hmtu.
  pose proof (payload_in_region acc i rq Hs Hrq) as Hin. unfold len_of in Hin.
  pose proof (mi_payloads _ _ _ li_memory0 i rq Hrq) as Hst. pose proof (pi_credit _ _ _ li_producer0) as Hcr.
  unfold DataRegion_read_payload. cbn [fm_chunk fm_sz meta_of request_meta].
  rewrite Z.mod_small, Nat2Z.id by lia. apply stored_read; [|pose proof (mi_data _ _ _ li_memory0); unfold offset_of in Hin; lia].
  assert (Hwr : written (pt_pc (lk_producer l)) (Nat.eqb (S i) (length acc)) rq = rq_payload rq); [|rewrite <- Hwr; apply Hst; lia].
  destruct (pt_pc (lk_producer l)) eqn:Epc; try done. cbn [written]. unfold published in Hb. rewrite Epc in Hb. cbn in Hb.
  destruct (Nat.eqb_spec (S i) (length acc)); [lia|done].
Qed.

Lemma accepted_lookup (acc : list Request) i (rq : Request) (seq : Z) :
  imap (λ q rq, (rq, seqno (Z.of_nat q))) acc !! i = Some (rq, seq) ↔ acc !! i = Some rq ∧ seq = seqno (Z.of_nat i).
Proof.
  rewrite list_lookup_imap. destruct (acc !! i) as [rq'|]; cbn; [|naive_solver]. split; [by intros [= <- <-]|].
  by intros [[= ->] ->].
Qed.
End link.

(** C7. A link is a reliable queue under every interleaving.  Whatever the producer sends and
    whatever receives and batch receives the consumer makes, however the two threads
    interleave, memory access by memory access: no access leaves the shared memory, the
    consumer is never overrun, the accepted sends return consecutive sequence numbers, and
    the [i]-th fragment received carries the metadata of the [i]-th accepted send.  The
    payload bytes behind the last fragment that a finished call returned, and behind those
    that the current call has received, are the ones sent. *)
Theorem tile_link_is_fifo c requests ops schedule :
  link_ok c → Forall (short c) requests →
  ∃ l0 l, link_start c requests ops = Done l0 ∧ link_run l0 schedule = Some l ∧
    let sent := accepted (pt_calls (lk_producer l)) in
    let got := delivered (ct_results (lk_consumer l)) in
    Forall no_overrun (ct_results (lk_consumer l)) ∧
    (∀ i rq seq, sent !! i = Some (rq, seq) → seq = seqno c (Z.of_nat i)) ∧
    (∀ i meta, (got ++ held (ct_pc (lk_consumer l))) !! i = Some meta →
       ∃ rq seq, sent !! i = Some (rq, seq) ∧ meta = request_meta seq (fm_chunk meta) rq ∧
         ((length got <= S i)%nat →
          DataRegion_read_payload (sh_data (lk_shared l)) (fm_chunk meta) (fm_sz meta) = Some (rq_payload rq))).
Proof.
  intros Hok Hreq. destruct (link_start_inv c Hok requests ops Hreq) as (l0 & E0 & Hl0).
  destruct (link_run_inv c Hok schedule l0 [] Hl0) as (l & acc & E & Hl).
  exists l0, l. split; [done|]. split; [done|]. cbn zeta.
  rewrite (pi_accepted _ _ _ _ (li_producer _ _ _ Hl)). split_and!.
  - apply (li_consumer _ _ _ Hl).
  - intros i rq seq [_ ->]%accepted_lookup. done.
  - intros i meta Hi. destruct (received_message c Hok l acc i meta Hl Hi) as (rq & Hrq & -> & Hpay).
    exists rq, (seqno c (Z.of_nat i)). split_and!; [by apply accepted_lookup|reflexivity|exact Hpay].
Qed.

(** A link of two slots whose sequence numbers wrap around, and two messages on it. *)
Definition small_link : TileLinkConfig := mkTileLinkConfig 128 2 1 (2 ^ 64 - 1).
Definition small_requests : list Request := [mkRequest 7 [1; 2; 3] 0 10; mkRequest 8 [4] 0 20; mkRequest 9 [5] 0 30].
Definition small_ops : list ConsumerOp := [Receive 3; ReceiveBatch 2 1].
Definition alternate (n : nat) : list Thread := concat (replicate n [TheProducer; TheConsumer]).

Lemma small_link_ok : link_ok small_link.
Proof. split; [by exists 1%nat; split; [lia|]|by vm_compute..]. Qed.
Lemma small_requests_short : Forall (short small_link) small_requests.
Proof. by repeat constructor. Qed.

(** A new link after a schedule. *)
Definition run_link (c : TileLinkConfig) (requests : list Request) (ops : list ConsumerOp) (schedule : list Thread) :
    option Link :=
  match link_start c requests ops with Done l0 => link_run l0 schedule | Panicked => None end.

Lemma tile_link_is_fifo_witness :
  link_ok small_link ∧ Forall (short small_link) small_requests ∧
  ∃ l, run_link small_link small_requests small_ops (alternate 40) = Some l ∧
    (delivered (ct_results (lk_consumer l)) ++ held (ct_pc (lk_consumer l))) !! 1%nat = Some (mkFragmentMeta 0 8 2 1 0 20 20) ∧
    DataRegion_read_payload (sh_data (lk_shared l)) 2 1 = Some [4].
Proof.
  split; [exact small_link_ok|]. split; [exact small_requests_short|].
  destruct (tile_link_is_fifo small_link small_requests small_ops (alternate 40) small_link_ok small_requests_short)
    as (l0 & l & E0 & E & _ & _ & Hgot). exists l.
  assert (El : run_link small_link small_requests small_ops (alternate 40) = Some l) by (unfold run_link; by rewrite E0).
  split; [exact El|].
  assert (Hr : (λ l, (delivered (ct_results (lk_consumer l)), held (ct_pc (lk_consumer l)),
                      accepted (pt_calls (lk_producer l)) !! 1%nat))
                 <$> run_link small_link small_requests small_ops (alternate 40)
               = Some ([mkFragmentMeta (2 ^ 64 - 1) 7 0 3 0 10 10], [mkFragmentMeta 0 8 2 1 0 20 20],
                       Some (mkRequest 8 [4] 0 20, 0))) by (vm_compute; reflexivity).
  rewrite El in Hr. injection Hr as Hr1 Hr2 Hr3. rewrite Hr1, Hr2. split; [done|].
  destruct (Hgot 1%nat (mkFragmentMeta 0 8 2 1 0 20 20)) as (rq & seq & Hs & _ & Hpay); [by rewrite Hr1, Hr2|].
  rewrite Hr3 in Hs. injection Hs as <- <-. apply Hpay. rewrite Hr1. cbn. lia.
Defined.

(** ** Progress *)

(** The accesses left in a [send]. *)
Definition accesses (pc : ProducerPc) : nat :=
  match pc with
  | PIdle => 0
  | PCopy rq i => (length (rq_payload rq) - i) + 9
  | PBody rq k => (BODY_FIELDS - k) + 2
  | PWatermark rq => 1
  end.

Lemma producer_advances sh t sh' t' n :
  producer_step sh t = Moved (sh', t') → accesses (pt_pc t) = S n →
  accesses (pt_pc t') = n ∧ pt_calls t' = pt_calls t ∧ pt_todo t' = pt_todo t.
Proof.
  unfold producer_step, BODY_FIELDS. destruct (pt_pc t) as [|rq i|rq k|rq]; cbn [accesses]; [done|..].
  - destruct (rq_payload rq !! i) as [b|] eqn:Eb.
    + apply lookup_lt_Some in Eb. destruct (write_byte _ _ _); cbn; [|done]. intros [= <- <-] Hn. cbn. split; [lia|done].
    + apply lookup_ge_None in Eb. destruct (write_entry _ _ _); cbn; [|done]. intros [= <- <-] Hn. cbn. split; [lia|done].
  - unfold BODY_FIELDS. destruct (Nat.ltb_spec k 6); (destruct (write_entry _ _ _); cbn; [|done]); intros [= <- <-] Hn;
      cbn; (split; [unfold BODY_FIELDS in *; lia|done]).
  - intros [= <- <-] [= <-]. done.
Qed.

Lemma send_runs c (Hok : link_ok c) n : ∀ l acc,
  link_inv c l acc → accesses (pt_pc (lk_producer l)) = n →
  ∃ l' acc', link_run l (replicate n TheProducer) = Some l' ∧ link_inv c l' acc' ∧ pt_pc (lk_producer l') = PIdle
    ∧ pt_calls (lk_producer l') = pt_calls (lk_producer l) ∧ pt_todo (lk_producer l') = pt_todo (lk_producer l)
    ∧ lk_consumer l' = lk_consumer l.
Proof.
  induction n as [|n IH]; intros l acc Hl Hn.
  { exists l, acc. split_and!; try done. destruct (pt_pc (lk_producer l)); cbn in Hn; try done; lia. }
  destruct (link_step_inv c Hok l acc TheProducer Hl) as (l1 & acc1 & E1 & Hl1). cbn [replicate link_run]. rewrite E1.
  cbn [mbind option_bind]. cbn [link_step] in E1.
  destruct (producer_step (lk_shared l) (lk_producer l)) as [[sh t]| |] eqn:Es; [| |done].
  - injection E1 as <-. destruct (producer_advances _ _ _ _ _ Es Hn) as (Ha & Hc & Ht).
    destruct (IH _ _ Hl1 Ha) as (l' & acc' & E & Hl' & Hp & Hc' & Ht' & Hcons). exists l', acc'.
    cbn in Hc', Ht', Hcons. split_and!; try done; congruence.
  - unfold producer_step in Es. destruct (pt_pc (lk_producer l)) as [|rq i|rq k|rq]; [done|..].
    + destruct (rq_payload rq !! i); [destruct (write_byte _ _ _)|destruct (write_entry _ _ _)]; done.
    + destruct (_ <? _)%nat; destruct (write_entry _ _ _); done.
    + done.
Qed.

Lemma link_run_app s1 s2 : ∀ l, link_run l (s1 ++ s2) = l' ← link_run l s1; link_run l' s2.
Proof.
  induction s1 as [|who s1 IH]; intros l; [done|]. cbn [app link_run].
  destruct (link_step l who) as [l1|]; cbn [mbind option_bind]; [apply IH|done].
Qed.

(** A [receive] that finds its message: one access to enter, one for the sequence number, one
    per field, one to check the sequence number again, one to release the credit. *)
Definition RECEIVE_ACCESSES : nat := 4 + BODY_FIELDS.

Section receive.
Context (sh : Shared) (p : ProducerThread) (link : LinkConsumer) (e : FragmentMeta).
Context (He : sh_entries sh !! line_idx (lc_depth link) (lc_next_seq link) = Some e).
Context (Hseq : fm_seq e = lc_next_seq link).

Lemma seq_diff_refl a : seq_diff a a = 0.
Proof using. unfold seq_diff. by rewrite Z.sub_diag. Qed.

Definition reads (call : Call) polls copy k todo results : Link :=
  mkLink sh p (mkConsumerThread link (CBody call polls copy k) todo results).

Lemma consumer_reads call polls copy k todo results : (k < BODY_FIELDS)%nat →
  link_step (reads call polls copy k todo results) TheConsumer
  = Some (reads call polls (copy_field k e copy) (S k) todo results).
Proof using He.
  intros Hk. unfold reads. cbn [link_step consumer_step lk_shared lk_consumer ct_link ct_pc ct_todo ct_results].
  unfold consumer_step. cbn [ct_link ct_pc]. rewrite He. cbn [mbind option_bind moved].
  by rewrite (proj2 (Nat.ltb_lt k BODY_FIELDS) Hk).
Qed.

Lemma body_runs call polls todo results n : ∀ copy k,
  (k + n)%nat = BODY_FIELDS → fm_seq copy = fm_seq e → agree k copy e →
  link_run (reads call polls copy k todo results) (replicate n TheConsumer)
  = Some (reads call polls e BODY_FIELDS todo results).
Proof using He.
  induction n as [|n IH]; intros copy k Hk Hs Ha; cbn [replicate link_run].
  { assert (k = BODY_FIELDS) as -> by lia. by rewrite (agree_eq copy e). }
  rewrite consumer_reads by lia. cbn [mbind option_bind]. apply IH; [lia|by rewrite copy_field_seq|].
  apply agree_copy; [lia|done].
Qed.

Lemma consumer_polls call polls todo results :
  link_step (mkLink sh p (mkConsumerThread link (CPoll call polls) todo results)) TheConsumer
  = Some (reads call polls (set_seq (fm_seq e) (FragmentMeta_invalid 0)) 0 todo results).
Proof using He.
  unfold link_step, consumer_step. cbn [lk_shared lk_consumer ct_link ct_pc]. rewrite He. done.
Qed.

Lemma consumer_accepts polls todo results :
  link_step (reads CallReceive polls e BODY_FIELDS todo results) TheConsumer
  = Some (mkLink sh p (mkConsumerThread (mkLinkConsumer (seq_inc (lc_next_seq link) 1) (lc_depth link))
            (CFlow (Single (Ready e))) todo results)).
Proof using He Hseq.
  unfold reads, link_step, consumer_step. cbn [lk_shared lk_consumer ct_link ct_pc]. rewrite He.
  cbn [mbind option_bind moved]. by rewrite Nat.ltb_irrefl, Z.eqb_refl, Hseq, seq_diff_refl.
Qed.

Lemma receive_runs polls rest results :
  link_run (mkLink sh p (mkConsumerThread link CIdle (Receive (S polls) :: rest) results))
    (replicate RECEIVE_ACCESSES TheConsumer)
  = Some (mkLink (FlowSequence_update sh (seq_inc (lc_next_seq link) 1)) p
            (mkConsumerThread (mkLinkConsumer (seq_inc (lc_next_seq link) 1) (lc_depth link)) CIdle rest
               (results ++ [Single (Ready e)]))).
Proof using He Hseq.
  change (replicate RECEIVE_ACCESSES TheConsumer)
    with ([TheConsumer; TheConsumer] ++ replicate BODY_FIELDS TheConsumer ++ [TheConsumer; TheConsumer]).
  rewrite link_run_app. cbn [link_run].
  change (link_step (mkLink sh p (mkConsumerThread link CIdle (Receive (S polls) :: rest) results)) TheConsumer)
    with (Some (mkLink sh p (mkConsumerThread link (CPoll CallReceive (S polls)) rest results))).
  cbn [mbind option_bind]. rewrite consumer_polls. cbn [mbind option_bind].
  rewrite link_run_app, body_runs by (done || by intros j Hj%Nat.nlt_0_r). cbn [mbind option_bind link_run].
  rewrite consumer_accepts. done.
Qed.
End receive.

Lemma messages_of_accepted c (acc : list Request) :
  fst <$> imap (λ q rq, (rq, seqno c (Z.of_nat q))) acc = acc.
Proof. apply list_eq. intros i. rewrite list_lookup_fmap, list_lookup_imap. by destruct (acc !! i). Qed.
Lemma accepted_same c t t' acc acc' g g' :
  producer_inv c t acc g → producer_inv c t' acc' g' → pt_calls t = pt_calls t' → acc = acc'.
Proof.
  intros Hp Hp' E. pose proof (pi_accepted _ _ _ _ Hp) as H. rewrite E, (pi_accepted _ _ _ _ Hp') in H.
  apply (f_equal (fmap fst)) in H. by rewrite !messages_of_accepted in H.
Qed.

(** The [receive] of a consumer that is behind an idle producer. *)
Lemma receive_next c (Hok : link_ok c) l acc polls rest :
  link_inv c l acc → pt_pc (lk_producer l) = PIdle →
  ct_pc (lk_consumer l) = CIdle → ct_todo (lk_consumer l) = Receive (S polls) :: rest →
  (length (delivered (ct_results (lk_consumer l))) < length acc)%nat →
  ∃ l', link_run l (replicate RECEIVE_ACCESSES TheConsumer) = Some l' ∧ link_inv c l' acc
    ∧ lk_producer l' = lk_producer l ∧ ct_pc (lk_consumer l') = CIdle ∧ ct_todo (lk_consumer l') = rest
    ∧ length (delivered (ct_results (lk_consumer l'))) = S (length (delivered (ct_results (lk_consumer l)))).
Proof.
  intros Hl Hp Hc Htodo Hlt. pose proof Hl as [Hm Hpi Hci _ _]. destruct Hci as [[Hd Hnext Hb _] _ _].
  rewrite Hc in Hb, Hnext. cbn [held] in Hb, Hnext. rewrite app_nil_r in Hb, Hnext.
  destruct (polled_entry c Hok _ _ _ (length (delivered (ct_results (lk_consumer l)))) Hm) as (e & He & Hcase);
    [by rewrite Hp; cbn; lia|done|by pose proof (pi_credit _ _ _ _ Hpi)|].
  rewrite Hp in Hcase. destruct Hcase as (rq & [(_ & Hrq & ->)|(Hbad & _)]); [|cbn in Hbad; lia].
  pose proof (receive_runs (lk_shared l) (lk_producer l) (ct_link (lk_consumer l))) as Hrun.
  rewrite Hd, Hnext, (line_idx_slot c Hok) in Hrun. specialize (Hrun _ He eq_refl polls rest (ct_results (lk_consumer l))).
  destruct (link_run_inv c Hok (replicate RECEIVE_ACCESSES TheConsumer) l acc Hl) as (l' & acc' & E & Hl').
  assert (El : l = mkLink (lk_shared l) (lk_producer l)
    (mkConsumerThread (ct_link (lk_consumer l)) CIdle (Receive (S polls) :: rest) (ct_results (lk_consumer l)))).
  { rewrite <- Hc, <- Htodo. by destruct l as [? ? []]. }
  rewrite <- El in Hrun. rewrite Hrun in E. injection E as <-. eexists. split; [exact Hrun|].
  rewrite (accepted_same c _ _ acc' acc _ _ (li_producer _ _ _ Hl') Hpi) in Hl' by done.
  split_and!; try done. cbn [lk_consumer ct_results]. by rewrite delivered_snoc, length_app, Nat.add_comm.
Qed.

(** A consumer that makes as many receives as there are messages on their way gets them all. *)
Lemma receives_drain c (Hok : link_ok c) polls rest n : ∀ l acc,
  link_inv c l acc → pt_pc (lk_producer l) = PIdle →
  ct_pc (lk_consumer l) = CIdle → ct_todo (lk_consumer l) = replicate n (Receive (S polls)) ++ rest →
  length acc = (length (delivered (ct_results (lk_consumer l))) + n)%nat →
  ∃ l', link_run l (replicate (n * RECEIVE_ACCESSES) TheConsumer) = Some l' ∧ link_inv c l' acc
    ∧ lk_producer l' = lk_producer l ∧ ct_pc (lk_consumer l') = CIdle
    ∧ length (delivered (ct_results (lk_consumer l'))) = length acc.
Proof.
  induction n as [|n IH]; intros l acc Hl Hp Hc Htodo Hlen.
  { exists l. split_and!; try done; lia. }
  destruct (receive_next c Hok l acc polls _ Hl Hp Hc Htodo) as (l1 & E1 & Hl1 & Hp1 & Hc1 & Ht1 & Hn1); [lia|].
  destruct (IH l1 acc) as (l' & E & Hl' & Hp' & Hc' & Hn'); [done|congruence|done|done|lia|].
  exists l'. rewrite Nat.mul_succ_l, Nat.add_comm, replicate_add, link_run_app, E1. cbn [mbind option_bind].
  split_and!; try done; congruence.
Qed.

Lemma drained_credits c (Hok : link_ok c) l acc :
  link_inv c l acc → pt_pc (lk_producer l) = PIdle →
  length (delivered (ct_results (lk_consumer l))) = length acc →
  LinkProducer_has_credits (lk_shared l) (pt_link (lk_producer l)) = true.
Proof.
  intros [_ [(_ & _ & _ & Hd) _ _ _ Hn _ _ _] _ Hfl _] Hp Hlen. unfold LinkProducer_has_credits.
  rewrite Hd, Hn, Hp, Hfl. unfold granted. rewrite Hlen. cbn [unreturned]. rewrite Nat.sub_0_r, seq_diff_refl.
  pose proof (depth_bounds c Hok) as HD. unfold D in HD. apply Z.ltb_lt. lia.
Qed.

(** C18. A link never gets stuck.  From every state that the two threads can reach with the
    consumer between calls: once the producer has finished its current [send] (a number of its
    own accesses, bounded by the payload), a consumer that makes one [receive] per outstanding
    message, alone, gets every message that was accepted, in order, ten accesses each; and then
    the producer has credits for its next [send]. *)
Theorem tile_link_drains c requests ops schedule l0 l polls rest :
  link_ok c → Forall (short c) requests →
  link_start c requests ops = Done l0 → link_run l0 schedule = Some l →
  let sent := accepted (pt_calls (lk_producer l)) in
  let got := delivered (ct_results (lk_consumer l)) in
  let behind := (length sent - length got)%nat in
  ct_pc (lk_consumer l) = CIdle → ct_todo (lk_consumer l) = replicate behind (Receive (S polls)) ++ rest →
  ∃ l', link_run l (replicate (accesses (pt_pc (lk_producer l))) TheProducer
                    ++ replicate (behind * RECEIVE_ACCESSES) TheConsumer) = Some l'
    ∧ pt_calls (lk_producer l') = pt_calls (lk_producer l)
    ∧ LinkProducer_has_credits (lk_shared l') (pt_link (lk_producer l')) = true
    ∧ Forall2 (λ x meta, meta = request_meta x.2 (fm_chunk meta) x.1) sent (delivered (ct_results (lk_consumer l'))).
Proof.
  intros Hok Hreq E0 E sent got behind Hc Htodo.
  destruct (link_start_inv c Hok requests ops Hreq) as (l0' & E0' & Hl0).
  rewrite E0 in E0'. injection E0' as <-.
  destruct (link_run_inv c Hok schedule l0 [] Hl0) as (l'' & acc & E' & Hl). rewrite E in E'. injection E' as <-.
  destruct (send_runs c Hok _ l acc Hl eq_refl) as (l1 & acc1 & E1 & Hl1 & Hp1 & Hcalls & _ & Hcons).
  assert (Hsent : sent = imap (λ q rq, (rq, seqno c (Z.of_nat q))) acc1)
    by (unfold sent; rewrite <- Hcalls; apply (pi_accepted _ _ _ _ (li_producer _ _ _ Hl1))).
  assert (Hlen : length sent = length acc1) by (rewrite Hsent; apply length_imap).
  assert (Hle : (length got <= length acc1)%nat).
  { pose proof (granted_bound c l1 acc1 Hl1) as Hg. rewrite Hcons in Hg. unfold granted in Hg. fold got in Hg. lia. }
  destruct (receives_drain c Hok polls rest behind l1 acc1 Hl1) as (l' & E2 & Hl2 & Hp2 & Hc2 & Hn2);
    [done|by rewrite Hcons..|rewrite Hcons; fold got; unfold behind; lia|].
  exists l'. rewrite link_run_app, E1. cbn [mbind option_bind]. split_and!; [done|congruence|..].
  - apply (drained_credits c Hok l' acc1); [done|congruence|done].
  - apply Forall2_same_length_lookup_2; [congruence|]. intros i [rq seq] meta Hx Hi.
    rewrite Hsent in Hx. apply accepted_lookup in Hx as [Hrq ->].
    destruct (received_message c Hok l' acc1 i meta Hl2) as (rq' & Hrq' & -> & _); [by apply lookup_app_l_Some|].
    rewrite Hrq in Hrq'. by injection Hrq' as <-.
Qed.

Lemma tile_link_drains_witness :
  ∃ l l', run_link small_link small_requests (replicate 2 (Receive 1)) (replicate 20 TheProducer) = Some l ∧
    accesses (pt_pc (lk_producer l)) = 4%nat ∧ length (accepted (pt_calls (lk_producer l))) = 2%nat ∧
    link_run l (replicate 4 TheProducer ++ replicate (2 * RECEIVE_ACCESSES) TheConsumer) = Some l' ∧
    length (delivered (ct_results (lk_consumer l'))) = 2%nat.
Proof.
  destruct (link_start small_link small_requests (replicate 2 (Receive 1))) as [l0|] eqn:E0; [|by vm_compute in E0].
  assert (Hr : (λ l, (accesses (pt_pc (lk_producer l)), length (accepted (pt_calls (lk_producer l))), ct_results (lk_consumer l),
                      ct_pc (lk_consumer l), ct_todo (lk_consumer l)))
                 <$> run_link small_link small_requests (replicate 2 (Receive 1)) (replicate 20 TheProducer)
               = Some (4, 2, [], CIdle, replicate 2 (Receive 1))%nat) by (vm_compute; reflexivity).
  unfold run_link in *. rewrite E0 in Hr |- *.
  destruct (link_run l0 (replicate 20 TheProducer)) as [l|] eqn:E; [|done]. injection Hr as Hr1 Hr2 Hr3 Hr4 Hr5.
  destruct (tile_link_drains small_link small_requests (replicate 2 (Receive 1)) (replicate 20 TheProducer) l0 l 0 [])
    as (l' & El & _ & _ & Hall);
    [exact small_link_ok|exact small_requests_short|exact E0|exact E|exact Hr4|by rewrite Hr2, Hr3, Hr5|].
  exists l, l'. rewrite Hr1, Hr2, Hr3 in El. split_and!; [done|done|done|exact El|].
  rewrite <- Hr2. symmetry. by eapply Forall2_length.
Defined.

(** ** Payloads past their credit *)

(** [receive_batch] releases the credits of the whole batch before its caller reads the
    payloads: a link of 64 slots whose region has room for 96, a batch of 64, and 33 more
    sends.  The first payload of the batch is then not the one that was sent. *)
Definition wide_link : TileLinkConfig := mkTileLinkConfig 128 64 1 0.
Definition batch_then_sends : list Thread :=
  replicate (64 * 11) TheProducer ++ replicate 515 TheConsumer ++ replicate (33 * 11) TheProducer.

Lemma batch_payload_overwritten :
  link_ok wide_link ∧
  (λ l, (length (delivered (ct_results (lk_consumer l))), ct_pc (lk_consumer l),
         (λ meta, (fm_seq meta, DataRegion_read_payload (sh_data (lk_shared l)) (fm_chunk meta) (fm_sz meta)))
           <$> delivered (ct_results (lk_consumer l)) !! 0%nat))
    <$> run_link wide_link ((λ i, mkRequest 0 [Z.of_nat i] 0 0) <$> seq 0 97) [ReceiveBatch 64 1] batch_then_sends
  = Some (64%nat, CIdle, Some (0, Some [96])).
Proof. split; [split; [by exists 6%nat; split; [lia|]|by vm_compute..]|]. vm_compute. reflexivity. Qed.

(** [producer_at], made for resuming production, starts again at the first chunk: the next
    message overwrites the payload of one that is still on its way. *)
Definition resume (c : TileLinkConfig) (l : Link) (requests : list Request) : Link :=
  mkLink (lk_shared l)
    (mkProducerThread (TileLink_producer_at c (lk_shared l) (lp_next_seq (pt_link (lk_producer l)))) PIdle requests [])
    (lk_consumer l).

Lemma resumed_producer_overwrites :
  (l ← run_link small_link [mkRequest 7 [1] 0 0] [Receive 1] (replicate 11 TheProducer);
   l' ← link_run (resume small_link l [mkRequest 8 [2] 0 0]) (replicate 11 TheProducer ++ replicate 10 TheConsumer);
   Some (ct_results (lk_consumer l'), DataRegion_read_payload (sh_data (lk_shared l')) 0 1))
  = Some ([Single (Ready (mkFragmentMeta (2 ^ 64 - 1) 7 0 1 0 0 0))], Some [2]).
Proof. vm_compute. reflexivity. Qed.

(** The size field has 16 bits and the MTU does not: a payload of 65536 bytes is announced
    as empty. *)
Lemma size_truncated seq chunk sig ctl now :
  fm_sz (request_meta seq chunk (mkRequest sig (replicate (2 ^ 16) 0) ctl now)) = 0.
Proof. unfold request_meta. cbn [fm_sz rq_payload]. rewrite length_replicate. done. Qed.
