(* ===== verification/MerkleTree.v ===== *)
(** * Binary Merkle trees

    Model of [src/crates/karstflow-crypto/src/bmtree.rs]: hashing of leaves and nodes, the
    two ways to walk an inclusion proof, the builder [BmtreeCommit] with its proofs, and the
    verifier [BmtreeProofCommit].  SHA-256 comes from a third-party crate: it is a parameter
    of which only the size of the digest is known.

    Every leaf of a tree has a proof that leads to the root, and no other leaf of its place
    has one, short of two distinct inputs of the hash function with the same digest, which
    the proof then exhibits. *)
From stdpp Require Import base tactics numbers list strings.
From Stdlib Require Import ZArith Lia.
From S2P Require Import Prelude.
Local Open Scope Z_scope.

(** [sha2::Sha256], by its digest. *)
Class Sha256 := {
  digest : list Z → list Z;
  length_digest : ∀ message, length (digest message) = 32%nat;
  digest_bytes : ∀ message, Forall is_byte (digest message);
}.

(** The bytes of a literal. *)
Definition literal (s : String.string) : list Z := (λ a, Z.of_N (Ascii.N_of_ascii a)) <$> String.list_ascii_of_string s.

Record BmtreeConfig := mkBmtreeConfig {
  hash_sz : nat;
  leaf_prefix : list Z;
  node_prefix : list Z;
}.

Definition SHRED_CONFIG : BmtreeConfig :=
  mkBmtreeConfig 20 (0 :: literal "SOLANA_MERKLE_SHREDS_LEAF") (1 :: literal "SOLANA_MERKLE_SHREDS_NODE").
Definition RUNTIME_CONFIG : BmtreeConfig := mkBmtreeConfig 32 [0] [1].

Definition MAX_DEPTH : nat := 63.

(** [[0u8; 32]] *)
Definition ZERO_NODE : list Z := replicate 32 0.

(** [node[..n]], [v[i]] and [v[i] = x], which panic out of range. *)
Definition prefix_of (n : nat) (node : list Z) : Outcome (list Z) :=
  if (length node <? n)%nat then Panicked else Done (take n node).
Definition vec_get {A} (v : list A) (i : nat) : Outcome A :=
  match v !! i with Some x => Done x | None => Panicked end.
Definition vec_set {A} (v : list A) (i : nat) (x : A) : Outcome (list A) :=
  if (i <? length v)%nat then Done (<[i := x]> v) else Panicked.

(** [leading_zeros] of a [usize]. *)
Definition leading_zeros (n : nat) : nat := match n with O => 64 | S _ => 63 - Nat.log2 n end%nat.

Definition tree_depth (leaf_cnt : nat) : nat :=
  if (leaf_cnt <=? 1)%nat then 0 else 64 - leading_zeros (leaf_cnt - 1).

Section merkle.
Context `{Sha256}.

Definition hash_chunks (chunks : list (list Z)) : list Z := digest (concat chunks).

Definition hash_leaf (config : BmtreeConfig) (data : list Z) : list Z := hash_chunks [leaf_prefix config; data].

Definition merge_nodes (config : BmtreeConfig) (left right : list Z) : Outcome (list Z) :=
  l ← prefix_of (hash_sz config) left;
  r ← prefix_of (hash_sz config) right;
  mret (hash_chunks [node_prefix config; l; r]).

(** ** Walking a proof *)

(** One turn of the loop of [root_from_proof]: [current] and [idx]. *)
Definition walk_step (config : BmtreeConfig) (s : list Z * Z) (sibling : list Z) : Outcome (list Z * Z) :=
  let '(current, idx) := s in
  current ← (if Z.land idx 1 =? 0 then merge_nodes config current sibling else merge_nodes config sibling current);
  mret (current, Z.shiftr idx 1).

Definition root_from_proof (config : BmtreeConfig) (leaf : list Z) (leaf_idx : Z) (proof : list (list Z)) :
    Outcome (option (list Z)) :=
  if (MAX_DEPTH <? length proof)%nat then mret None
  else
    s ← for_each (walk_step config) (leaf, leaf_idx) proof;
    mret (Some s.1).

(** One turn of the loop of [root_from_proof_shred]: [current] and [inc_idx]. *)
Definition shred_walk_step (config : BmtreeConfig) (s : list Z * Z) (turn : Z * list Z) : Outcome (list Z * Z) :=
  let '(current, inc_idx) := s in
  let '(layer, sibling) := turn in
  let is_left := Z.land inc_idx (Z.shiftl 1 (layer + 1)) =? 0 in
  current ← (if is_left then merge_nodes config current sibling else merge_nodes config sibling current);
  let mask := u64_sub (Z.shiftl 2 layer) 1 in
  mret (current, Z.lor (Z.land inc_idx (Z.lnot (u64_sub (wrap64 (Z.shiftl 2 (layer + 1))) 1))) mask).

Definition enumerate {A} (l : list A) : list (Z * A) := imap (λ i x, (Z.of_nat i, x)) l.

Definition root_from_proof_shred (config : BmtreeConfig) (leaf : list Z) (leaf_idx : Z) (proof : list (list Z)) :
    Outcome (option (list Z)) :=
  if (MAX_DEPTH <? length proof)%nat then mret None
  else
    s ← for_each (shred_walk_step config) (leaf, wrap64 (leaf_idx * 2)) (enumerate proof);
    mret (Some s.1).

(** ** The builder *)

Record BmtreeCommit := mkBmtreeCommit {
  bc_config : BmtreeConfig;
  bc_leaves : list (list Z);
  bc_leaf_cnt : nat;
  bc_finalized : bool;
  bc_root : option (list Z);
}.

Definition BmtreeCommit_new (config : BmtreeConfig) : BmtreeCommit := mkBmtreeCommit config [] 0 false None.

Definition BmtreeCommit_append (b : BmtreeCommit) (leaf : list Z) : Outcome BmtreeCommit :=
  _ ← rust_assert (negb (bc_finalized b));
  mret (mkBmtreeCommit (bc_config b) (bc_leaves b ++ [leaf]) (S (bc_leaf_cnt b)) (bc_finalized b) (bc_root b)).

Definition BmtreeCommit_append_raw (b : BmtreeCommit) (data : list Z) : Outcome BmtreeCommit :=
  BmtreeCommit_append b (hash_leaf (bc_config b) data).

Definition place_leaf (full_size : nat) (tree : list (list Z)) (turn : nat * list Z) : Outcome (list (list Z)) :=
  vec_set tree (full_size + turn.1) turn.2.

Definition merge_at (config : BmtreeConfig) (tree : list (list Z)) (i : nat) : Outcome (list (list Z)) :=
  left ← vec_get tree (2 * i);
  right ← vec_get tree (2 * i + 1);
  node ← merge_nodes config left right;
  vec_set tree i node.

Definition BmtreeCommit_build_full_tree (b : BmtreeCommit) : Outcome (list (list Z)) :=
  let full_size := (2 ^ tree_depth (bc_leaf_cnt b))%nat in
  tree ← for_each (place_leaf full_size) (replicate (2 * full_size) ZERO_NODE) (imap (λ i leaf, (i, leaf)) (bc_leaves b));
  for_each (merge_at (bc_config b)) tree (rev (seq 1 (full_size - 1))).

Definition finalized_with (b : BmtreeCommit) (root : list Z) : BmtreeCommit * list Z :=
  (mkBmtreeCommit (bc_config b) (bc_leaves b) (bc_leaf_cnt b) true (Some root), root).

Definition BmtreeCommit_finalize (b : BmtreeCommit) : Outcome (BmtreeCommit * list Z) :=
  _ ← rust_assert (negb (bc_finalized b));
  if (bc_leaf_cnt b =? 0)%nat then mret (finalized_with b ZERO_NODE)
  else if (bc_leaf_cnt b =? 1)%nat then
    root ← vec_get (bc_leaves b) 0;
    mret (finalized_with b root)
  else
    tree ← BmtreeCommit_build_full_tree b;
    root ← vec_get tree 1;
    mret (finalized_with b root).

(** One turn of the loop of [get_proof]: [proof] and [idx]. *)
Definition sibling_step (tree : list (list Z)) (s : list (list Z) * nat) (_ : nat) : Outcome (list (list Z) * nat) :=
  node ← vec_get tree (Nat.lxor s.2 1);
  mret (s.1 ++ [node], (s.2 / 2)%nat).

Definition BmtreeCommit_get_proof (b : BmtreeCommit) (leaf_idx : nat) : Outcome (option (list (list Z))) :=
  if negb (bc_finalized b) || (bc_leaf_cnt b <=? leaf_idx)%nat then mret None
  else if (bc_leaf_cnt b <=? 1)%nat then mret (Some [])
  else
    tree ← BmtreeCommit_build_full_tree b;
    let depth := tree_depth (bc_leaf_cnt b) in
    s ← for_each (sibling_step tree) ([], 2 ^ depth + leaf_idx)%nat (seq 0 depth);
    mret (Some s.1).

(** ** The verifier *)

Record BmtreeProofCommit := mkBmtreeProofCommit {
  bp_config : BmtreeConfig;
  bp_root : option (list Z);
  bp_inserted : nat;
}.

Definition BmtreeProofCommit_new (config : BmtreeConfig) : BmtreeProofCommit := mkBmtreeProofCommit config None 0.

Definition BmtreeProofCommit_insert_with_proof (b : BmtreeProofCommit) (leaf : list Z) (leaf_idx : Z)
    (proof : list (list Z)) : Outcome (bool * BmtreeProofCommit) :=
  derived ← root_from_proof (bp_config b) leaf leaf_idx proof;
  match derived with
  | None => mret (false, b)
  | Some derived_root =>
      match bp_root b with
      | None => mret (true, mkBmtreeProofCommit (bp_config b) (Some derived_root) (S (bp_inserted b)))
      | Some existing =>
          x ← prefix_of (hash_sz (bp_config b)) existing;
          y ← prefix_of (hash_sz (bp_config b)) derived_root;
          if bool_decide (x = y)
          then mret (true, mkBmtreeProofCommit (bp_config b) (bp_root b) (S (bp_inserted b)))
          else mret (false, b)
      end
  end.

Definition BmtreeProofCommit_finalize (b : BmtreeProofCommit) : option (list Z) := bp_root b.

(** A tree over [leaves]. *)
Definition commit_leaves (config : BmtreeConfig) (leaves : list (list Z)) : Outcome (BmtreeCommit * list Z) :=
  b ← for_each BmtreeCommit_append (BmtreeCommit_new config) leaves;
  BmtreeCommit_finalize b.
End merkle.

(** ** Nodes and walks without panics *)

Definition is_node (node : list Z) : Prop := length node = 32%nat.

Lemma land_1_even z : (Z.land z 1 =? 0) = Z.even z.
Proof.
  change 1 with (Z.ones 1). rewrite Z.land_ones by lia. change (2 ^ 1) with 2.
  rewrite Zmod_even. by destruct (Z.even z).
Qed.

(** At layer [k] the bits of [inc_idx] above [k] are those of twice the index. *)
Definition inc_ok (idx inc : Z) (k : Z) : Prop := ∀ m, k < m → Z.testbit inc m = Z.testbit idx (m - 1).

Lemma inc_ok_left idx inc k : 0 <= k → inc_ok idx inc k →
  (Z.land inc (Z.shiftl 1 (k + 1)) =? 0) = Z.even (idx / 2 ^ k).
Proof.
  intros Hk Hi. rewrite <- Z.shiftr_div_pow2 by lia.
  rewrite Z.shiftl_1_l. transitivity (negb (Z.testbit inc (k + 1))).
  - destruct (Z.testbit inc (k + 1)) eqn:E; cbn [negb].
    + apply Z.eqb_neq. intros E0. apply (f_equal (λ z, Z.testbit z (k + 1))) in E0.
      rewrite Z.land_spec, E, Z.pow2_bits_true, Z.bits_0 in E0 by lia. done.
    + apply Z.eqb_eq, Z.bits_inj'. intros n Hn. rewrite Z.land_spec, Z.bits_0, Z.pow2_bits_eqb by lia.
      destruct (Z.eqb_spec (k + 1) n) as [<-|]; [by rewrite E|apply andb_false_r].
  - rewrite Hi by lia. replace (k + 1 - 1) with k by lia. rewrite <- Z.negb_odd. f_equal.
    rewrite <- Z.bit0_odd, Z.shiftr_spec by lia. by rewrite Z.add_0_l.
Qed.

Lemma inc_ok_next idx inc k : 0 <= k <= 62 → inc_ok idx inc k →
  inc_ok idx (Z.lor (Z.land inc (Z.lnot (u64_sub (wrap64 (Z.shiftl 2 (k + 1))) 1))) (u64_sub (Z.shiftl 2 k) 1)) (k + 1).
Proof.
  intros Hk Hi m Hm.
  assert (E1 : u64_sub (wrap64 (Z.shiftl 2 (k + 1))) 1 = Z.ones (k + 2)).
  { unfold u64_sub, wrap64. rewrite Zminus_mod_idemp_l. change 2 with (2 ^ 1) at 1.
    rewrite Z.shiftl_mul_pow2, <- Z.pow_add_r, Z.ones_equiv by lia. replace (1 + (k + 1)) with (k + 2) by lia.
    pose proof (Z.pow_le_mono_r 2 (k + 2) 64). pose proof (Z.pow_pos_nonneg 2 (k + 2)). rewrite Z.mod_small; lia. }
  assert (E2 : u64_sub (Z.shiftl 2 k) 1 = Z.ones (k + 1)).
  { unfold u64_sub, wrap64. change 2 with (2 ^ 1) at 1.
    rewrite Z.shiftl_mul_pow2, <- Z.pow_add_r, Z.ones_equiv by lia. replace (1 + k) with (k + 1) by lia.
    pose proof (Z.pow_lt_mono_r 2 (k + 1) 64). pose proof (Z.pow_pos_nonneg 2 (k + 1)). rewrite Z.mod_small; lia. }
  rewrite E1, E2, Z.lor_spec, Z.land_spec, Z.lnot_spec, !Z.ones_spec_high by lia.
  rewrite orb_false_r, andb_true_r. apply Hi. lia.
Qed.

Section walks.
Context `{Sha256} (c : BmtreeConfig) (Hc : (hash_sz c <= 32)%nat).

(** What is hashed for an inner node. *)
Definition message (l r : list Z) : list Z := node_prefix c ++ take (hash_sz c) l ++ take (hash_sz c) r.
Definition walk_message (idx : Z) (current sibling : list Z) : list Z :=
  if Z.even idx then message current sibling else message sibling current.

Fixpoint walk (current : list Z) (idx : Z) (proof : list (list Z)) : list Z :=
  match proof with
  | [] => current
  | sibling :: rest => walk (digest (walk_message idx current sibling)) (idx / 2) rest
  end.

(** Everything that is hashed on the way to the root. *)
Fixpoint walk_inputs (current : list Z) (idx : Z) (proof : list (list Z)) : list (list Z) :=
  match proof with
  | [] => []
  | sibling :: rest =>
      let m := walk_message idx current sibling in m :: walk_inputs (digest m) (idx / 2) rest
  end.

(** Two distinct inputs whose digests agree where they are compared. *)
Definition collides (m m' : list Z) : Prop := m ≠ m' ∧ take (hash_sz c) (digest m) = take (hash_sz c) (digest m').

Lemma digest_node m : is_node (digest m).
Proof. apply length_digest. Qed.

Lemma merge_nodes_eq l r : is_node l → is_node r → merge_nodes c l r = Done (digest (message l r)).
Proof.
  unfold is_node. intros Hl Hr. unfold merge_nodes, prefix_of. rewrite Hl, Hr, (proj2 (Nat.ltb_ge _ _)) by done.
  cbn. unfold hash_chunks. cbn. by rewrite app_nil_r.
Qed.

Lemma message_inj l r l' r' : is_node l → is_node l' → message l r = message l' r' →
  take (hash_sz c) l = take (hash_sz c) l' ∧ take (hash_sz c) r = take (hash_sz c) r'.
Proof.
  unfold is_node, message. intros Hl Hl' E. apply app_inv_head in E. apply app_inj_1 in E; [done|].
  rewrite !length_take. lia.
Qed.

Lemma walk_step_eq current idx sibling : is_node current → is_node sibling →
  walk_step c (current, idx) sibling = Done (digest (walk_message idx current sibling), idx / 2).
Proof.
  intros Hcur Hs. unfold walk_step, walk_message. rewrite land_1_even, Z.shiftr_div_pow2 by lia.
  destruct (Z.even idx); by rewrite merge_nodes_eq.
Qed.

Lemma for_each_walk proof : ∀ current idx, is_node current → Forall is_node proof →
  ∃ idx', for_each (walk_step c) (current, idx) proof = Done (walk current idx proof, idx').
Proof.
  induction proof as [|s proof IH]; intros current idx Hcur Hp; [by exists idx|].
  apply Forall_cons in Hp as [Hs Hp]. cbn [for_each walk]. rewrite walk_step_eq by done. rewrite Done_bind.
  apply IH; [apply digest_node|done].
Qed.

Lemma root_from_proof_eq leaf idx proof : is_node leaf → Forall is_node proof → (length proof <= MAX_DEPTH)%nat →
  root_from_proof c leaf idx proof = Done (Some (walk leaf idx proof)).
Proof.
  intros Hl Hp Hd. unfold root_from_proof. rewrite (proj2 (Nat.ltb_ge _ _)) by done.
  destruct (for_each_walk proof leaf idx Hl Hp) as [idx' ->]. done.
Qed.

Lemma shred_walk_step_eq idx k current inc s : 0 <= k → inc_ok idx inc k → is_node current → is_node s →
  shred_walk_step c (current, inc) (k, s)
  = Done (digest (walk_message (idx / 2 ^ k) current s),
          Z.lor (Z.land inc (Z.lnot (u64_sub (wrap64 (Z.shiftl 2 (k + 1))) 1))) (u64_sub (Z.shiftl 2 k) 1)).
Proof.
  intros Hk Hi Hcur Hs. unfold shred_walk_step, walk_message. rewrite (inc_ok_left idx inc k Hk Hi).
  destruct (Z.even _); by rewrite merge_nodes_eq.
Qed.

Lemma for_each_shred_walk idx proof : ∀ k current inc,
  0 <= k → k + Z.of_nat (length proof) <= 63 → inc_ok idx inc k → is_node current → Forall is_node proof →
  ∃ inc', for_each (shred_walk_step c) (current, inc) (imap (λ i x, (k + Z.of_nat i, x)) proof)
          = Done (walk current (idx / 2 ^ k) proof, inc').
Proof.
  induction proof as [|s proof IH]; intros k current inc Hk Hlen Hi Hcur Hp; [by exists inc|].
  apply Forall_cons in Hp as [Hs Hp]. cbn [length] in Hlen. rewrite imap_cons. cbn [for_each].
  rewrite Z.add_0_r, (shred_walk_step_eq idx) by done. rewrite Done_bind. cbn [walk]. rewrite Z.div_div by lia.
  replace (2 ^ k * 2) with (2 ^ (k + 1)) by (rewrite Z.pow_add_r; lia).
  erewrite imap_ext.
  - apply (IH (k + 1)); [lia|lia|apply inc_ok_next; [lia|done]|apply digest_node|done].
  - intros i x _. cbn. f_equal. lia.
Qed.

Lemma root_from_proof_shred_eq leaf idx proof :
  0 <= idx < 2 ^ 63 → is_node leaf → Forall is_node proof → (length proof <= MAX_DEPTH)%nat →
  root_from_proof_shred c leaf idx proof = Done (Some (walk leaf idx proof)).
Proof.
  intros Hi Hl Hp Hd. unfold root_from_proof_shred. rewrite (proj2 (Nat.ltb_ge _ _)) by done.
  destruct (for_each_shred_walk idx proof 0 leaf (wrap64 (idx * 2))) as [inc' E]; [lia|unfold MAX_DEPTH in Hd; lia|..|done|done|].
  - intros m Hm. unfold wrap64. rewrite Z.mod_small by lia. rewrite Z.mul_comm.
    replace m with (Z.succ (m - 1)) at 1 by lia. by apply Z.double_bits_succ.
  - unfold enumerate. change (2 ^ 0) with 1 in E. rewrite Z.div_1_r in E. change (imap (λ i x, (0 + Z.of_nat i, x)) proof) with (imap (λ i x, (Z.of_nat i, x)) proof) in E.
    rewrite E. done.
Qed.

(** A walk reads one bit of the index per step: an index that is too large for the depth
    stands for its low bits. *)
Lemma walk_low_bits proof : ∀ current idx,
  walk current (idx mod 2 ^ Z.of_nat (length proof)) proof = walk current idx proof
  ∧ walk_inputs current (idx mod 2 ^ Z.of_nat (length proof)) proof = walk_inputs current idx proof.
Proof using. clear Hc.
  induction proof as [|sibling rest IH]; intros current idx; [done|]. cbn [walk walk_inputs length].
  set (n := Z.of_nat (length rest)) in *. replace (Z.of_nat (S (length rest))) with (Z.succ n) by lia.
  assert (Hdiv : idx mod 2 ^ Z.succ n / 2 = (idx / 2) mod 2 ^ n).
  { rewrite Z.pow_succ_r, Z.rem_mul_r by lia. symmetry. rewrite Z.add_comm, Z.mul_comm, Z.div_add_l by lia.
    rewrite (Z.div_small (idx mod 2)) by (apply Z.mod_pos_bound; lia). lia. }
  assert (Hm : walk_message (idx mod 2 ^ Z.succ n) current sibling = walk_message idx current sibling).
  { unfold walk_message. f_equal. rewrite <- !Z.negb_odd, <- !Z.bit0_odd. f_equal.
    by rewrite Z.mod_pow2_bits_low by lia. }
  rewrite Hdiv, Hm. destruct (IH (digest (walk_message idx current sibling)) (idx / 2)) as [-> ->]. done.
Qed.

(** Two walks of the same index and length that meet start at the same leaf, or hash two
    distinct messages to one digest on the way. *)
Lemma walk_binds p : ∀ p' current current' idx,
  length p = length p' → is_node current → is_node current' → Forall is_node p → Forall is_node p' →
  take (hash_sz c) (walk current idx p) = take (hash_sz c) (walk current' idx p') →
  take (hash_sz c) current = take (hash_sz c) current'
  ∨ ∃ m m', m ∈ walk_inputs current idx p ∧ m' ∈ walk_inputs current' idx p' ∧ collides m m'.
Proof.
  induction p as [|s p IH]; intros [|s' p'] current current' idx Hlen Hcur Hcur' Hp Hp' E; try done; [by left|].
  apply Forall_cons in Hp as [Hs Hp], Hp' as [Hs' Hp']. cbn [walk walk_inputs] in *.
  set (m := walk_message idx current s) in *. set (m' := walk_message idx current' s') in *.
  destruct (IH p' (digest m) (digest m') (idx / 2)) as [Hd|(x & x' & Hx & Hx' & Hcol)]; try done;
    [by injection Hlen|apply digest_node|apply digest_node| |].
  - destruct (decide (m = m')) as [Em|Em].
    + left. subst m m'. unfold walk_message in Em.
      destruct (Z.even idx); apply message_inj in Em; try done; apply Em.
    + right. exists m, m'. split; [left|]. split; [left|]. done.
  - right. exists x, x'. split; [by right|]. split; [by right|]. done.
Qed.
End walks.

(** ** Depth of a tree *)

Lemma tree_depth_eq n : (2 <= n)%nat → Z.of_nat n <= 2 ^ 63 → tree_depth n = S (Nat.log2 (n - 1)) ∧ (tree_depth n <= 63)%nat.
Proof.
  intros Hn Hm. unfold tree_depth, leading_zeros. rewrite (proj2 (Nat.leb_gt _ _)) by lia.
  assert (Hl : (Nat.log2 (n - 1) < 63)%nat).
  { apply Nat.log2_lt_pow2; [lia|]. apply Nat2Z.inj_lt. rewrite Nat2Z.inj_pow. change (Z.of_nat 2) with 2.
    change (Z.of_nat 63) with 63. lia. }
  destruct (n - 1)%nat eqn:E; [lia|]. rewrite <- E. rewrite <- E in Hl. lia.
Qed.
Lemma tree_depth_fits n : Z.of_nat n <= 2 ^ 63 → (n <= 2 ^ tree_depth n)%nat.
Proof.
  intros Hm. destruct (Nat.le_gt_cases n 1) as [Hn|Hn].
  - unfold tree_depth. rewrite (proj2 (Nat.leb_le _ _)) by lia. cbn. lia.
  - destruct (tree_depth_eq n) as [-> _]; [lia|done|]. pose proof (Nat.log2_spec (n - 1)). lia.
Qed.

Lemma tree_depth_max n : Z.of_nat n <= 2 ^ 63 → (tree_depth n <= MAX_DEPTH)%nat.
Proof.
  intros Hm. unfold MAX_DEPTH. destruct (Nat.le_gt_cases n 1) as [H1|H1].
  - unfold tree_depth. rewrite (proj2 (Nat.leb_le _ _) H1). lia.
  - apply tree_depth_eq; [lia|done].
Qed.

Lemma lxor_1_double q : Nat.lxor (2 * q) 1 = (2 * q + 1)%nat.
Proof.
  apply Nat.bits_inj. intros [|n]; rewrite Nat.lxor_spec.
  - by rewrite Nat.testbit_even_0, Nat.testbit_odd_0.
  - rewrite Nat.testbit_even_succ, Nat.testbit_odd_succ by lia. change 1%nat with (2 * 0 + 1)%nat at 1.
    rewrite Nat.testbit_odd_succ, Nat.bits_0 by lia. apply xorb_false_r.
Qed.
Lemma lxor_1_double_1 q : Nat.lxor (2 * q + 1) 1 = (2 * q)%nat.
Proof. by rewrite <- lxor_1_double, Nat.lxor_assoc, Nat.lxor_nilpotent, Nat.lxor_0_r. Qed.

Lemma half_double q : (2 * q / 2)%nat = q.
Proof. rewrite Nat.mul_comm. by apply Nat.div_mul. Qed.
Lemma half_double_1 q : ((2 * q + 1) / 2)%nat = q.
Proof. rewrite Nat.add_comm, Nat.mul_comm, Nat.div_add by lia. done. Qed.

Lemma even_of_nat j : Z.even (Z.of_nat j) = Nat.even j.
Proof.
  destruct (Nat.Even_or_Odd j) as [[q ->]|[q ->]]; [rewrite Nat.even_even|rewrite Nat.even_odd].
  - replace (Z.of_nat (2 * q)) with (2 * Z.of_nat q) by lia. by rewrite Z.even_mul.
  - replace (Z.of_nat (2 * q + 1)) with (2 * Z.of_nat q + 1) by lia. by rewrite Z.even_add, Z.even_mul.
Qed.

(** ** The full tree *)

Section tree.
Context `{Sha256} (c : BmtreeConfig) (leaves : list (list Z)) (depth : nat).
Abbreviation full := (2 ^ depth)%nat.

(** The node at height [h] with heap index [j]. *)
Definition leaf_of (j : nat) : list Z := default ZERO_NODE (leaves !! (j - full)%nat).
Fixpoint node_at (h j : nat) : list Z :=
  match h with
  | O => leaf_of j
  | S h' => digest (message c (node_at h' (2 * j)) (node_at h' (2 * j + 1)))
  end.
Definition heap (j : nat) : list Z := node_at (depth - Nat.log2 j) j.

Lemma heap_children i : (1 <= i < full)%nat → heap i = digest (message c (heap (2 * i)) (heap (2 * i + 1))).
Proof.
  intros Hi. unfold heap. rewrite Nat.log2_double, Nat.log2_succ_double by lia.
  assert (Nat.log2 i < depth)%nat by (apply Nat.log2_lt_pow2; lia).
  replace (depth - Nat.log2 i)%nat with (S (depth - S (Nat.log2 i)))%nat by lia. done.
Qed.
Lemma heap_leaf i : (i < full)%nat → heap (full + i) = default ZERO_NODE (leaves !! i).
Proof.
  intros Hi. unfold heap. rewrite (Nat.log2_unique (full + i) depth) by (cbn; lia). rewrite Nat.sub_diag. cbn.
  unfold leaf_of. by rewrite Nat.add_sub_swap, Nat.sub_diag by lia.
Qed.

(** The tree after the inner nodes down to [k] are merged. *)
Definition merged_from (k : nat) (tree : list (list Z)) : Prop :=
  length tree = (2 * full)%nat ∧ ∀ j, (k <= j < 2 * full)%nat → tree !! j = Some (heap j).

(** ** Proofs *)

(** The siblings from the node [j] of height [h] on. *)
Fixpoint siblings (h j n : nat) : list (list Z) :=
  match n with
  | O => []
  | S n' => node_at h (Nat.lxor j 1) :: siblings (S h) (j / 2) n'
  end.

Lemma length_siblings n : ∀ h j, length (siblings h j n) = n.
Proof. induction n; intros h j; cbn; auto. Qed.

(** The parent of a node, as the walk computes it. *)
Lemma parent_message h j idx : Z.even idx = Nat.even j →
  walk_message c idx (node_at h j) (node_at h (Nat.lxor j 1))
  = message c (node_at h (2 * (j / 2))) (node_at h (2 * (j / 2) + 1)).
Proof.
  intros E. unfold walk_message. rewrite E. destruct (Nat.Even_or_Odd j) as [[q ->]|[q ->]].
  - by rewrite lxor_1_double, half_double, Nat.even_even.
  - by rewrite lxor_1_double_1, half_double_1, Nat.even_odd.
Qed.

Lemma heap_half j : (2 <= j)%nat → Nat.log2 j = S (Nat.log2 (j / 2)) ∧ Nat.log2 (Nat.lxor j 1) = Nat.log2 j.
Proof.
  intros Hj. destruct (Nat.Even_or_Odd j) as [[q ->]|[q ->]].
  - rewrite lxor_1_double, half_double, Nat.log2_succ_double, Nat.log2_double by lia. done.
  - rewrite lxor_1_double_1, half_double_1, Nat.log2_succ_double, Nat.log2_double by lia. done.
Qed.
Lemma heap_at h j : (h <= depth)%nat → Nat.log2 j = (depth - h)%nat → heap j = node_at h j.
Proof. intros Hh E. unfold heap. rewrite E. by replace (depth - (depth - h))%nat with h by lia. Qed.
Lemma level_range h j : (1 <= j)%nat → Nat.log2 j = (depth - h)%nat → (1 <= j < 2 * full)%nat.
Proof.
  intros Hj E. split; [done|]. pose proof (Nat.log2_spec j) as Hl. rewrite E in Hl.
  pose proof (Nat.pow_le_mono_r 2 (S (depth - h)) (S depth)). cbn [Nat.pow] in *. lia.
Qed.

(** A node below the root: its height, its sibling and its parent. *)
Lemma level_up h j : (h < depth)%nat → (1 <= j)%nat → Nat.log2 j = (depth - h)%nat →
  (2 <= j)%nat ∧ (1 <= j / 2 < full)%nat ∧ Nat.log2 (j / 2) = (depth - S h)%nat
  ∧ Nat.log2 (Nat.lxor j 1) = (depth - h)%nat ∧ (1 <= Nat.lxor j 1)%nat.
Proof.
  intros Hh Hj E. assert (H2 : (2 <= j)%nat) by (destruct j as [|[|j]]; [lia|cbn in E; lia|lia]).
  destruct (heap_half j H2) as [E1 E2]. pose proof (level_range h j Hj E) as Hr.
  assert (Hx : Nat.lxor j 1 ≠ 0%nat) by (intros Hx; rewrite Hx in E2; cbn in E2; lia).
  split_and!; try lia; [|apply Nat.Div0.div_lt_upper_bound; lia]. pose proof (Nat.div_mod_eq j 2). pose proof (Nat.mod_upper_bound j 2). lia.
Qed.

Lemma sibling_loop tree n : merged_from 1 tree → ∀ h j acc start, (h + n <= depth)%nat → (1 <= j)%nat → Nat.log2 j = (depth - h)%nat →
  ∃ j', for_each (sibling_step tree) (acc, j) (seq start n) = Done (acc ++ siblings h j n, j').
Proof.
  intros [_ Hget]. induction n as [|n IH]; intros h j acc start Hh Hj E; cbn [seq for_each siblings].
  { exists j. by rewrite app_nil_r. }
  destruct (level_up h j) as (H2 & Hq & Eq & Ex & Hx); [lia|done|done|].
  assert (Es : sibling_step tree (acc, j) start = Done (acc ++ [node_at h (Nat.lxor j 1)], (j / 2)%nat)).
  { unfold sibling_step, vec_get. cbn [fst snd]. rewrite Hget by (by apply (level_range h)).
    by rewrite (heap_at h) by (lia || done). }
  rewrite Es, Done_bind. destruct (IH (S h) (j / 2)%nat (acc ++ [node_at h (Nat.lxor j 1)]) (S start)) as [j' ->];
    [lia|lia|done|]. exists j'. by rewrite <- (assoc_L (++)).
Qed.

(** The inputs of the inner nodes. *)
Definition inner_messages : list (list Z) := (λ i, message c (heap (2 * i)) (heap (2 * i + 1))) <$> seq 1 (full - 1).

Lemma walk_siblings n : ∀ h j idx, (h + n <= depth)%nat → (1 <= j)%nat → Nat.log2 j = (depth - h)%nat →
  (∃ q, Z.of_nat j = idx + q * 2 ^ Z.of_nat n) →
  walk c (node_at h j) idx (siblings h j n) = node_at (h + n) (j / 2 ^ n)
  ∧ ∀ m, m ∈ walk_inputs c (node_at h j) idx (siblings h j n) → m ∈ inner_messages.
Proof.
  induction n as [|n IH]; intros h j idx Hh Hj E [q Hq]; cbn [siblings walk walk_inputs].
  { rewrite Nat.add_0_r, Nat.div_1_r. split; [done|]. by intros m ?%elem_of_nil. }
  destruct (level_up h j) as (H2 & Hr & Eq & _); [lia|done|done|].
  rewrite Nat2Z.inj_succ, Z.pow_succ_r in Hq by lia.
  assert (Heven : Z.even idx = Nat.even j).
  { replace idx with (Z.of_nat j - 2 * (q * 2 ^ Z.of_nat n)) by lia.
    rewrite Z.even_sub, Z.even_mul, even_of_nat. cbn. by destruct (Nat.even j). }
  rewrite parent_message by done. set (m0 := message c _ _).
  assert (Em : digest m0 = node_at (S h) (j / 2)) by done. rewrite Em.
  destruct (IH (S h) (j / 2)%nat (idx / 2)) as [Hw Hin]; [lia|lia|done| |].
  { exists q. rewrite Nat2Z.inj_div, Hq. change (Z.of_nat 2) with 2.
    replace (idx + q * (2 * 2 ^ Z.of_nat n)) with (idx + q * 2 ^ Z.of_nat n * 2) by lia. by rewrite Z.div_add by lia. }
  split; [rewrite Hw, Nat.Div0.div_div; f_equal; lia|].
  intros m [->|Hm]%elem_of_cons; [|by apply Hin].
  apply list_elem_of_fmap. exists (j / 2)%nat. split; [|apply elem_of_seq; lia].
  unfold m0. rewrite !(heap_at h); try lia; [done|rewrite Nat.log2_succ_double by lia; lia|rewrite Nat.log2_double by lia; lia].
Qed.

(** ** Building it *)

Context (Hc : (hash_sz c <= 32)%nat) (Hleaves : Forall is_node leaves) (Hfits : (length leaves <= 2 ^ depth)%nat).

Lemma node_at_node h j : is_node (node_at h j).
Proof.
  destruct h; [|apply digest_node]. cbn. unfold leaf_of. destruct (leaves !! _) as [leaf|] eqn:E; [|done].
  cbn. by eapply Forall_lookup_1.
Qed.
Lemma siblings_nodes n : ∀ h j, Forall is_node (siblings h j n).
Proof. induction n; intros h j; constructor; [apply node_at_node|auto]. Qed.

Lemma siblings_bytes n : Forall (Forall is_byte) leaves → ∀ h j, Forall (Forall is_byte) (siblings h j n).
Proof.
  intros Hb. induction n as [|n IH]; intros h j; constructor; [|auto]. destruct h; [|apply digest_bytes].
  cbn. unfold leaf_of. destruct (leaves !! _) as [leaf|] eqn:E; [by eapply Forall_lookup_1|].
  by apply Forall_replicate.
Qed.

Lemma place_leaves ls : ∀ off pre m,
  length pre = (full + off)%nat → (length ls <= m)%nat →
  for_each (place_leaf full) (pre ++ replicate m ZERO_NODE) (imap (λ i leaf, (off + i, leaf)%nat) ls)
  = Done (pre ++ ls ++ replicate (m - length ls) ZERO_NODE).
Proof.
  induction ls as [|leaf ls IH]; intros off pre m Hpre Hm; cbn [length] in *.
  { cbn. by rewrite Nat.sub_0_r. }
  destruct m as [|m]; [lia|]. rewrite imap_cons. cbn [for_each].
  assert (E : place_leaf full (pre ++ replicate (S m) ZERO_NODE) (off + 0, leaf)%nat
              = Done ((pre ++ [leaf]) ++ replicate m ZERO_NODE)).
  { unfold place_leaf, vec_set. cbn [fst snd]. rewrite length_app, length_replicate, (proj2 (Nat.ltb_lt _ _)) by lia.
    rewrite insert_app_r_alt by lia. replace (full + (off + 0) - length pre)%nat with 0%nat by lia.
    cbn. by rewrite <- (assoc_L (++)). }
  rewrite E, Done_bind.
  erewrite imap_ext; [rewrite (IH (S off) (pre ++ [leaf]) m)|]; [|rewrite length_app; cbn; lia|lia|].
  - by rewrite <- (assoc_L (++)).
  - intros i x _. cbn. f_equal. lia.
Qed.

Lemma placed_leaves : merged_from full (replicate full ZERO_NODE ++ leaves ++ replicate (full - length leaves) ZERO_NODE).
Proof.
  split; [rewrite !length_app, !length_replicate; lia|]. intros j Hj. replace j with (full + (j - full))%nat by lia.
  rewrite heap_leaf by lia. rewrite lookup_app_r by (rewrite length_replicate; lia). rewrite length_replicate.
  replace (full + (j - full) - full)%nat with (j - full)%nat by lia.
  destruct (leaves !! (j - full)%nat) as [leaf|] eqn:E; cbn.
  - by apply lookup_app_l_Some.
  - apply lookup_ge_None in E. rewrite lookup_app_r by done. apply lookup_replicate_2. lia.
Qed.

Lemma merge_at_eq i tree : (1 <= i < full)%nat → merged_from (S i) tree →
  ∃ tree', merge_at c tree i = Done tree' ∧ merged_from i tree'.
Proof.
  intros Hi [Hlen Hget]. exists (<[i := heap i]> tree). unfold merge_at, vec_get.
  rewrite (Hget (2 * i)%nat), (Hget (2 * i + 1)%nat) by lia. rewrite !Done_bind.
  rewrite merge_nodes_eq by (done || apply node_at_node). rewrite Done_bind. unfold vec_set.
  rewrite (proj2 (Nat.ltb_lt _ _)), <- heap_children by lia. split; [done|]. split; [by rewrite length_insert|].
  intros j Hj. destruct (decide (i = j)) as [->|Hne].
  - rewrite list_lookup_insert_eq by lia. done.
  - rewrite list_lookup_insert_ne by done. apply Hget. lia.
Qed.

Lemma merge_loop n : ∀ tree, (n < full)%nat → merged_from (S n) tree →
  ∃ tree', for_each (merge_at c) tree (rev (seq 1 n)) = Done tree' ∧ merged_from 1 tree'.
Proof.
  induction n as [|n IH]; intros tree Hn Ht; [by exists tree|].
  rewrite seq_S, rev_app_distr. cbn [rev app for_each]. replace (1 + n)%nat with (S n) by lia.
  destruct (merge_at_eq (S n) tree) as (tree' & -> & Ht'); [lia|done|]. rewrite Done_bind. apply IH; [lia|done].
Qed.

Lemma build_full_tree_eq b : bc_config b = c → bc_leaves b = leaves → tree_depth (bc_leaf_cnt b) = depth →
  ∃ tree, BmtreeCommit_build_full_tree b = Done tree ∧ merged_from 1 tree.
Proof.
  intros Ec El Ed. unfold BmtreeCommit_build_full_tree. rewrite Ec, El, Ed.
  replace (2 * full)%nat with (full + full)%nat by lia. rewrite replicate_add.
  pose proof (place_leaves leaves 0 (replicate full ZERO_NODE) full) as E. cbn [Nat.add] in E.
  rewrite E by (rewrite ?length_replicate; lia). rewrite Done_bind. assert (full ≠ 0)%nat by (by apply Nat.pow_nonzero). apply merge_loop; [lia|].
  replace (S (full - 1)) with full by lia. apply placed_leaves.
Qed.
End tree.

(** ** Committed trees *)

Section commits.
Context `{Sha256} (c : BmtreeConfig).

Lemma append_all leaves : ∀ ls n, for_each BmtreeCommit_append (mkBmtreeCommit c ls n false None) leaves
  = Done (mkBmtreeCommit c (ls ++ leaves) (n + length leaves) false None).
Proof.
  induction leaves as [|leaf leaves IH]; intros ls n; cbn [for_each length].
  { by rewrite app_nil_r, Nat.add_0_r. }
  unfold BmtreeCommit_append at 1. cbn [bc_finalized negb rust_assert bc_config bc_leaves bc_leaf_cnt bc_root].
  change (BmtreeCommit_append (mkBmtreeCommit c ls n false None) leaf)
    with (Done (mkBmtreeCommit c (ls ++ [leaf]) (S n) false None)).
  rewrite Done_bind, IH, <- (assoc_L (++)). cbn [app]. by rewrite Nat.add_succ_comm.
Qed.

Context (leaves : list (list Z)).
Abbreviation depth := (tree_depth (length leaves)).

Definition committed : BmtreeCommit :=
  mkBmtreeCommit c leaves (length leaves) true (Some (heap c leaves depth 1)).

(** The place of leaf [i] in the heap. *)
Lemma leaf_place i : (i < 2 ^ depth)%nat →
  (1 <= 2 ^ depth + i)%nat ∧ Nat.log2 (2 ^ depth + i) = (depth - 0)%nat
  ∧ node_at c leaves depth 0 (2 ^ depth + i) = default ZERO_NODE (leaves !! i).
Proof.
  intros Hi. pose proof (Nat.pow_nonzero 2 depth). split; [lia|]. rewrite Nat.sub_0_r.
  assert (E : Nat.log2 (2 ^ depth + i) = depth) by (apply Nat.log2_unique; cbn; lia). split; [done|].
  rewrite <- (heap_leaf c leaves depth i) by done. unfold heap. by rewrite E, Nat.sub_diag.
Qed.

Definition proof_of (i : nat) : list (list Z) := siblings c leaves depth 0 (2 ^ depth + i) depth.

Lemma walk_to_root i : (i < 2 ^ depth)%nat →
  walk c (default ZERO_NODE (leaves !! i)) (Z.of_nat i) (proof_of i) = heap c leaves depth 1
  ∧ ∀ m, m ∈ walk_inputs c (default ZERO_NODE (leaves !! i)) (Z.of_nat i) (proof_of i) → m ∈ inner_messages c leaves depth.
Proof.
  intros Hi. destruct (leaf_place i Hi) as (Hj & El & <-). pose proof (Nat.pow_nonzero 2 depth).
  destruct (walk_siblings c leaves depth depth 0 (2 ^ depth + i) (Z.of_nat i)) as [Hw Hin]; [lia|done|done| |].
  { exists 1. rewrite Nat2Z.inj_add, Nat2Z.inj_pow. change (Z.of_nat 2) with 2. lia. }
  split; [|exact Hin]. unfold proof_of. rewrite Hw. unfold heap. cbn [Nat.add]. rewrite Nat.sub_0_r.
  f_equal. symmetry. apply (Nat.div_unique _ _ _ i); lia.
Qed.

Context (Hc : (hash_sz c <= 32)%nat) (Hleaves : Forall is_node leaves).
Context (Hpos : (1 <= length leaves)%nat) (Hmax : Z.of_nat (length leaves) <= 2 ^ 63).

Lemma commit_leaves_eq : commit_leaves c leaves = Done (committed, heap c leaves depth 1).
Proof.
  unfold commit_leaves, BmtreeCommit_new. rewrite append_all, Done_bind. cbn [app Nat.add].
  unfold BmtreeCommit_finalize. cbn [bc_finalized negb rust_assert bc_leaf_cnt bc_leaves]. rewrite Done_bind.
  rewrite (proj2 (Nat.eqb_neq _ _)) by lia. destruct (Nat.eqb_spec (length leaves) 1) as [E|E].
  - unfold committed. clear Hpos Hmax Hleaves. by destruct leaves as [|leaf [|]].
  - edestruct (build_full_tree_eq c leaves depth Hc Hleaves (tree_depth_fits _ Hmax)) as (tree & -> & _ & Hget); [done..|].
    rewrite Done_bind. unfold vec_get. pose proof (Nat.pow_nonzero 2 depth). rewrite Hget by lia. done.
Qed.

Lemma built_tree : ∃ tree, BmtreeCommit_build_full_tree committed = Done tree ∧ merged_from c leaves depth 1 tree.
Proof. apply build_full_tree_eq; try done. by apply tree_depth_fits. Qed.

Lemma get_proof_eq i : (i < length leaves)%nat → BmtreeCommit_get_proof committed i = Done (Some (proof_of i)).
Proof.
  intros Hi. pose proof (tree_depth_fits _ Hmax) as Hfit. unfold BmtreeCommit_get_proof.
  cbn [bc_finalized bc_leaf_cnt committed negb orb]. rewrite (proj2 (Nat.leb_gt _ _)) by lia.
  destruct (Nat.leb_spec (length leaves) 1) as [H1|H1].
  - unfold proof_of, tree_depth. by rewrite (proj2 (Nat.leb_le _ _) H1).
  - destruct built_tree as (tree & -> & Hm). rewrite Done_bind.
    destruct (leaf_place i) as (Hj & El & _); [lia|].
    destruct (sibling_loop c leaves depth tree depth Hm 0 (2 ^ depth + i) [] 0) as [j' E]; [lia|done|done|].
    by rewrite E.
Qed.
End commits.

(** What the builder hashes for its inner nodes. *)
Definition tree_inputs (c : BmtreeConfig) (tree : list (list Z)) : list (list Z) :=
  (λ i, message c (default ZERO_NODE (tree !! (2 * i)%nat)) (default ZERO_NODE (tree !! (2 * i + 1)%nat)))
    <$> seq 1 (length tree / 2 - 1).

Lemma tree_inputs_eq `{Sha256} c leaves depth tree :
  merged_from c leaves depth 1 tree → tree_inputs c tree = inner_messages c leaves depth.
Proof.
  intros [Hlen Hget]. unfold tree_inputs, inner_messages. rewrite Hlen, half_double.
  apply list_fmap_ext. intros n i Hi%list_elem_of_lookup_2%elem_of_seq. by rewrite !Hget by lia.
Qed.

(** Every leaf has a proof.  Building a tree from any number of leaves between 1 and 2^63
    returns, and for each leaf [get_proof] returns a proof of the depth of the tree from which
    both walks, the plain one and the one with the shred verifier's index convention, derive
    the root. *)
Theorem merkle_proofs_verify `{Sha256} c leaves :
  (hash_sz c <= 32)%nat → Forall is_node leaves → (1 <= length leaves)%nat → Z.of_nat (length leaves) <= 2 ^ 63 →
  ∃ b root, commit_leaves c leaves = Done (b, root) ∧ bc_root b = Some root ∧
    ∀ i leaf, leaves !! i = Some leaf →
      ∃ proof, BmtreeCommit_get_proof b i = Done (Some proof) ∧ length proof = tree_depth (length leaves) ∧
        root_from_proof c leaf (Z.of_nat i) proof = Done (Some root) ∧
        root_from_proof_shred c leaf (Z.of_nat i) proof = Done (Some root).
Proof.
  intros Hc Hl Hpos Hmax. eexists _, _. split; [by apply commit_leaves_eq|]. split; [done|]. intros i leaf Hi.
  apply lookup_lt_Some in Hi as Hlt. pose proof (tree_depth_fits _ Hmax) as Hfit.
  exists (proof_of c leaves i). split; [by apply get_proof_eq|]. split; [apply length_siblings|].
  destruct (walk_to_root c leaves i) as [Hw _]; [lia|]. rewrite Hi in Hw. change (default ZERO_NODE (Some leaf)) with leaf in Hw.
  pose proof (Forall_lookup_1 _ _ _ _ Hl Hi). pose proof (tree_depth_max _ Hmax).
  rewrite root_from_proof_eq, root_from_proof_shred_eq; try done; try lia; try (by apply siblings_nodes);
    try (unfold proof_of; by rewrite length_siblings). by rewrite Hw.
Qed.

(** A leaf with its index and proof, as handed to the verifier. *)
Record Attempt := mkAttempt {
  at_leaf : list Z;
  at_idx : Z;
  at_proof : list (list Z);
}.
Definition attempt_typed (a : Attempt) : Prop := is_node (at_leaf a) ∧ Forall is_node (at_proof a).

Section verifier.
Context `{Sha256}.

Definition insert_one (s : list bool * BmtreeProofCommit) (a : Attempt) : Outcome (list bool * BmtreeProofCommit) :=
  r ← BmtreeProofCommit_insert_with_proof s.2 (at_leaf a) (at_idx a) (at_proof a);
  mret (s.1 ++ [r.1], r.2).
Definition insert_all (b : BmtreeProofCommit) (attempts : list Attempt) : Outcome (list bool * BmtreeProofCommit) :=
  for_each insert_one ([], b) attempts.

Context (c : BmtreeConfig) (Hc : (hash_sz c <= 32)%nat).

(** The proof leads to the first [hash_sz] bytes of [root]. *)
Definition leads_to (root : list Z) (a : Attempt) : bool :=
  bool_decide ((length (at_proof a) <= MAX_DEPTH)%nat
    ∧ take (hash_sz c) root = take (hash_sz c) (walk c (at_leaf a) (at_idx a) (at_proof a))).

Lemma walk_node proof : ∀ current idx, is_node current → is_node (walk c current idx proof).
Proof. induction proof as [|s proof IH]; intros current idx Hcur; [done|]. apply IH, digest_node. Qed.

Lemma insert_eq root n a : is_node root → attempt_typed a →
  BmtreeProofCommit_insert_with_proof (mkBmtreeProofCommit c (Some root) n) (at_leaf a) (at_idx a) (at_proof a)
  = Done (leads_to root a, mkBmtreeProofCommit c (Some root) (if leads_to root a then S n else n)).
Proof.
  intros Hr [Hl Hp]. unfold BmtreeProofCommit_insert_with_proof, leads_to. cbn [bp_config bp_root bp_inserted].
  destruct (Nat.le_gt_cases (length (at_proof a)) MAX_DEPTH) as [Hd|Hd].
  - rewrite root_from_proof_eq by done. rewrite Done_bind. unfold prefix_of.
    rewrite (walk_node (at_proof a) (at_leaf a) (at_idx a) Hl : length _ = _), (Hr : length _ = _), (proj2 (Nat.ltb_ge _ _)) by done.
    rewrite !Done_bind.
    destruct (decide (take (hash_sz c) root = take (hash_sz c) (walk c (at_leaf a) (at_idx a) (at_proof a)))) as [E|E].
    + by rewrite !bool_decide_eq_true_2.
    + rewrite !bool_decide_eq_false_2; [done|naive_solver|done].
  - unfold root_from_proof. rewrite (proj2 (Nat.ltb_lt _ _)) by done. cbn. rewrite bool_decide_eq_false_2 by lia. done.
Qed.

Lemma insert_all_eq root attempts : is_node root → Forall attempt_typed attempts → ∀ acc n,
  for_each insert_one (acc, mkBmtreeProofCommit c (Some root) n) attempts
  = Done (acc ++ (leads_to root <$> attempts),
          mkBmtreeProofCommit c (Some root) (n + length (filter (eq true) (leads_to root <$> attempts)))).
Proof.
  intros Hr. induction 1 as [|a attempts Ha _ IH]; intros acc n; cbn [for_each].
  { by rewrite app_nil_r, Nat.add_0_r. }
  assert (E : insert_one (acc, mkBmtreeProofCommit c (Some root) n) a
    = Done (acc ++ [leads_to root a], mkBmtreeProofCommit c (Some root) (if leads_to root a then S n else n))).
  { unfold insert_one. cbn [fst snd]. by rewrite insert_eq. }
  rewrite E, Done_bind, IH, fmap_cons, <- (assoc_L (++)), filter_cons. cbn [app]. do 3 f_equal.
  destruct (leads_to root a); case_decide; try done. cbn. lia.
Qed.

Lemma insert_first a : attempt_typed a → (length (at_proof a) <= MAX_DEPTH)%nat →
  insert_one ([], BmtreeProofCommit_new c) a
  = Done ([true], mkBmtreeProofCommit c (Some (walk c (at_leaf a) (at_idx a) (at_proof a))) 1).
Proof.
  intros [Hl Hp] Hd. unfold insert_one, BmtreeProofCommit_insert_with_proof, BmtreeProofCommit_new. cbn [fst snd bp_config bp_root].
  by rewrite root_from_proof_eq.
Qed.
End verifier.

(** An accepted leaf is the tree's, or there is a collision. *)
Lemma accepted_leaf `{Sha256} c leaves tree a :
  (hash_sz c <= 32)%nat → Forall is_node leaves → attempt_typed a →
  merged_from c leaves (tree_depth (length leaves)) 1 tree →
  length (at_proof a) = tree_depth (length leaves) → 0 <= at_idx a < 2 ^ Z.of_nat (tree_depth (length leaves)) →
  leads_to c (heap c leaves (tree_depth (length leaves)) 1) a = true →
  take (hash_sz c) (at_leaf a) = take (hash_sz c) (default ZERO_NODE (leaves !! Z.to_nat (at_idx a)))
  ∨ ∃ m m', m ∈ walk_inputs c (at_leaf a) (at_idx a) (at_proof a) ∧ m' ∈ tree_inputs c tree ∧ collides c m m'.
Proof.
  intros Hc Hl [Hla Hpa] Hm Hlen Hidx [_ Hacc]%bool_decide_eq_true. set (j := Z.to_nat (at_idx a)).
  assert (Hj : (j < 2 ^ tree_depth (length leaves))%nat).
  { apply Nat2Z.inj_lt. rewrite Nat2Z.inj_pow. change (Z.of_nat 2) with 2. lia. }
  destruct (walk_to_root c leaves j Hj) as [Hw Hin]. replace (Z.of_nat j) with (at_idx a) in Hw, Hin by lia.
  rewrite <- Hw in Hacc. rewrite (tree_inputs_eq _ _ _ _ Hm).
  destruct (walk_binds c Hc (at_proof a) (proof_of c leaves j) (at_leaf a) (default ZERO_NODE (leaves !! j)) (at_idx a))
    as [E|(m & m' & Hx & Hx' & Hcol)]; try done.
  - unfold proof_of. by rewrite length_siblings.
  - destruct (leaf_place c leaves j Hj) as (_ & _ & <-). by apply node_at_node.
  - by apply siblings_nodes.
  - by left.
  - right. exists m, m'. split_and!; [done|by apply Hin|done].
Qed.

(** C22. Only the leaves of the tree verify.  A verifier that has accepted a leaf with the
    proof that the tree gives for it returns on every further leaf, index and proof, whatever
    their number and order; it stays at the root of the tree and counts what it accepts.  It
    accepts every leaf with the proof of the tree.  And if it accepts a proof of the tree's
    depth for an index of the tree, then the leaf is the one that the tree has there, a zero
    node past the last, or two distinct messages are known that the hash function maps to
    the same node: one hashed in the proof, one in the tree. *)
Theorem merkle_verifier_sound `{Sha256} c leaves i leaf attempts :
  (hash_sz c <= 32)%nat → Forall is_node leaves → Z.of_nat (length leaves) <= 2 ^ 63 →
  leaves !! i = Some leaf → Forall attempt_typed attempts →
  ∃ b root tree proof results v,
    commit_leaves c leaves = Done (b, root) ∧ BmtreeCommit_build_full_tree b = Done tree ∧
    BmtreeCommit_get_proof b i = Done (Some proof) ∧
    insert_all (BmtreeProofCommit_new c) (mkAttempt leaf (Z.of_nat i) proof :: attempts) = Done (true :: results, v) ∧
    BmtreeProofCommit_finalize v = Some root ∧ bp_inserted v = S (length (filter (eq true) results)) ∧
    ∀ k a, attempts !! k = Some a → length (at_proof a) = tree_depth (length leaves) →
      (∀ j, leaves !! j = Some (at_leaf a) → at_idx a = Z.of_nat j →
         BmtreeCommit_get_proof b j = Done (Some (at_proof a)) → results !! k = Some true) ∧
      (results !! k = Some true → 0 <= at_idx a < 2 ^ Z.of_nat (tree_depth (length leaves)) →
         take (hash_sz c) (at_leaf a) = take (hash_sz c) (default ZERO_NODE (leaves !! Z.to_nat (at_idx a)))
         ∨ ∃ m m', m ∈ walk_inputs c (at_leaf a) (at_idx a) (at_proof a) ∧ m' ∈ tree_inputs c tree ∧ collides c m m').
Proof.
  intros Hc Hl Hmax Hi Hatt. apply lookup_lt_Some in Hi as Hlt. pose proof (tree_depth_fits _ Hmax) as Hfit.
  set (root := heap c leaves (tree_depth (length leaves)) 1).
  destruct (built_tree c leaves Hc Hl Hmax) as (tree & Et & Hm).
  assert (Hroot : is_node root) by (by apply node_at_node).
  destruct (walk_to_root c leaves i) as [Hw _]; [lia|]. rewrite Hi in Hw. change (default ZERO_NODE (Some leaf)) with leaf in Hw.
  pose proof (tree_depth_max _ Hmax) as Hd.
  eexists _, root, tree, (proof_of c leaves i), (leads_to c root <$> attempts), _.
  split; [apply commit_leaves_eq; done || lia|]. split; [exact Et|]. split; [by apply get_proof_eq; done || lia|].
  split.
  { unfold insert_all. cbn [for_each]. rewrite (insert_first c Hc); cbn [at_leaf at_idx at_proof].
    - rewrite Done_bind, Hw. exact (insert_all_eq c Hc root attempts Hroot Hatt [true] 1).
    - split; [by eapply Forall_lookup_1|by apply siblings_nodes].
    - unfold proof_of. by rewrite length_siblings. }
  split; [done|]. split; [done|]. intros k a Ha Hlen. rewrite list_lookup_fmap, Ha. split.
  - intros j Hj Hidx Hget. apply lookup_lt_Some in Hj as Hjlt. rewrite get_proof_eq in Hget by (done || lia).
    injection Hget as Hget. cbn. f_equal. apply bool_decide_eq_true. split; [lia|].
    destruct (walk_to_root c leaves j) as [Hwj _]; [lia|]. rewrite Hj in Hwj. rewrite <- Hget, Hidx.
    change (default ZERO_NODE (Some (at_leaf a))) with (at_leaf a) in Hwj. by rewrite Hwj.
  - intros [= Hacc] Hidx. apply accepted_leaf; try done. by eapply Forall_lookup_1.
Qed.

(** [BmtreeProofCommit::finalize] checks nothing: a proof that was refused leaves no trace. *)
Lemma refused_proof_forgotten `{Sha256} c root n a :
  (hash_sz c <= 32)%nat → is_node root → attempt_typed a → leads_to c root a = false →
  ∃ v, BmtreeProofCommit_insert_with_proof (mkBmtreeProofCommit c (Some root) n) (at_leaf a) (at_idx a) (at_proof a)
       = Done (false, v) ∧ BmtreeProofCommit_finalize v = Some root.
Proof. intros Hc Hr Ha E. rewrite insert_eq, E by done. by eexists. Qed.

(** ** A tree of three leaves *)

(** A function with digests of 32 bytes, to run the model with. *)
Definition toy_digest (l : list Z) : list Z := to_le_bytes 32 (foldl (λ h b, (h * 257 + b + 1) mod 4294967296) 7 l).
Definition toy_sha256 : Sha256 := {| digest := toy_digest; length_digest m := length_to_le_bytes 32 _;
  digest_bytes m := to_le_bytes_byte 32 _ |}.
Definition toy_leaves : list (list Z) := @hash_leaf toy_sha256 SHRED_CONFIG <$> [[1]; [2]; [3]].
Definition toy_proof (i : nat) : list (list Z) :=
  match r ← @commit_leaves toy_sha256 SHRED_CONFIG toy_leaves; @BmtreeCommit_get_proof toy_sha256 r.1 i with
  | Done (Some proof) => proof
  | _ => []
  end.
Definition toy_attempts : list Attempt := [mkAttempt (nth 2 toy_leaves []) 2 (toy_proof 2); mkAttempt (nth 0 toy_leaves []) 1 (toy_proof 1)].

Lemma merkle_proofs_verify_witness :
  (hash_sz SHRED_CONFIG <= 32)%nat ∧ Forall is_node toy_leaves ∧
  ∃ b root, @commit_leaves toy_sha256 SHRED_CONFIG toy_leaves = Done (b, root) ∧
    @root_from_proof_shred toy_sha256 SHRED_CONFIG (nth 2 toy_leaves []) 2 (toy_proof 2) = Done (Some root).
Proof.
  assert (Hc : (hash_sz SHRED_CONFIG <= 32)%nat) by (cbn; lia).
  assert (Hl : Forall is_node toy_leaves) by (repeat constructor).
  split; [done|]. split; [done|].
  destruct (@merkle_proofs_verify toy_sha256 SHRED_CONFIG toy_leaves Hc Hl) as (b & root & E & _ & Hp); [cbn; lia|cbn; lia|].
  exists b, root. split; [done|]. destruct (Hp 2%nat (nth 2 toy_leaves [])) as (proof & Eg & _ & _ & Es); [done|].
  assert (toy_proof 2 = proof) as -> by (unfold toy_proof; rewrite E, Done_bind; cbn [fst]; by rewrite Eg). exact Es.
Defined.

Lemma merkle_verifier_sound_witness :
  Forall attempt_typed toy_attempts ∧
  ∃ results v, @insert_all toy_sha256 (BmtreeProofCommit_new SHRED_CONFIG)
      (mkAttempt (nth 0 toy_leaves []) 0 (toy_proof 0) :: toy_attempts) = Done (true :: results, v)
    ∧ results !! 0%nat = Some true ∧ results !! 1%nat = Some false.
Proof.
  assert (Ht : Forall attempt_typed toy_attempts) by (repeat constructor).
  split; [done|].
  destruct (@merkle_verifier_sound toy_sha256 SHRED_CONFIG toy_leaves 0 (nth 0 toy_leaves []) toy_attempts)
    as (b & root & tree & proof & results & v & E & _ & Eg & Ei & _ & _ & Hk); [cbn; lia|repeat constructor|cbn; lia|done|done|].
  assert (Ep : ∀ i p, @BmtreeCommit_get_proof toy_sha256 b i = Done (Some p) → toy_proof i = p)
    by (intros i p Hg; unfold toy_proof; rewrite E, Done_bind; cbn [fst]; by rewrite Hg).
  rewrite <- (Ep 0%nat proof Eg) in Ei. change (Z.of_nat 0) with 0 in Ei. exists results, v. split; [exact Ei|]. split.
  - destruct (Hk 0%nat (mkAttempt (nth 2 toy_leaves []) 2 (toy_proof 2))) as [Hh _]; [done|by vm_compute|].
    apply (Hh 2%nat); [done|done|]. cbn [at_proof].
    destruct (@BmtreeCommit_get_proof toy_sha256 b 2) as [[p|]|] eqn:E2; [by rewrite (Ep _ _ E2)|..];
      (assert (Hn : toy_proof 2 = []) by (unfold toy_proof; rewrite E, Done_bind; cbn [fst]; by rewrite E2)); by vm_compute in Hn.
  - assert (Hv : (λ r, r.1 !! 2%nat) <$> @insert_all toy_sha256 (BmtreeProofCommit_new SHRED_CONFIG)
      (mkAttempt (nth 0 toy_leaves []) 0 (toy_proof 0) :: toy_attempts) = Done (Some false)) by (vm_compute; reflexivity).
    rewrite Ei in Hv. by injection Hv as Hv.
Defined.
