(* ===== verification/Shreds.v ===== *)
(** * Shreds and their encodings

    Model of [src/crates/karstflow-types/src/shred/]: the types ([types.rs]), the parser and
    serializer of the network format ([parser.rs]) and the codec that carries a shred over a
    link between tiles ([codec.rs]), with the constants of
    [src/crates/karstflow-constants/src/shred.rs]. *)
From stdpp Require Import base tactics numbers list.
From Stdlib Require Import ZArith Lia.
From S2P Require Import Prelude.
Local Open Scope Z_scope.

Definition SHRED_SIGNATURE_BYTES : nat := 64.
Definition SHRED_HEADER_SIZE : nat := 88.
Definition SHRED_MIN_SIZE : nat := 1203.
Definition SHRED_SIZE : nat := 1228.
Definition DATA_SHRED_PAYLOAD_SIZE : Z := 1203 - 88.
Definition MAX_FEC_SHREDS : Z := 67.
Definition MERKLE_PROOF_NODE_BYTES : nat := 20.
Definition MERKLE_MAX_PROOF_DEPTH : nat := 15.

Definition SHRED_TYPE_MASK : Z := 0xF0.
Definition SHRED_PROOF_COUNT_MASK : Z := 0x0F.
Definition SHRED_TYPE_LEGACY_DATA : Z := 0xA0.
Definition SHRED_TYPE_LEGACY_CODE : Z := 0x50.
Definition SHRED_TYPE_MERKLE_DATA : Z := 0x80.
Definition SHRED_TYPE_MERKLE_CODE : Z := 0x40.
Definition SHRED_TYPE_MERKLE_DATA_CHAINED_RESIGNED : Z := 0xB0.
Definition SHRED_TYPE_MERKLE_CODE_CHAINED_RESIGNED : Z := 0x70.
Definition SHRED_LAST_IN_SLOT : Z := 0x80.

Record ShredCommonHeader := mkShredCommonHeader {
  ch_signature : list Z;
  ch_variant : Z;
  ch_slot : Z;
  ch_index : Z;
  ch_version : Z;
  ch_fec_set_index : Z;
}.

Record DataShredHeader := mkDataShredHeader {
  dh_parent_offset : Z;
  dh_flags : Z;
  dh_size : Z;
}.

Record CodingShredHeader := mkCodingShredHeader {
  cd_num_data_shreds : Z;
  cd_num_coding_shreds : Z;
  cd_position : Z;
}.

(** [MerkleProof]: its nodes. *)
Definition MerkleProof : Type := list (list Z).

Inductive ShredVariant :=
| LegacyData (h : DataShredHeader)
| LegacyCoding (h : CodingShredHeader)
| MerkleData (h : DataShredHeader) (proof : MerkleProof)
| MerkleCoding (h : CodingShredHeader) (proof : MerkleProof).

Record Shred := mkShred {
  shred_common : ShredCommonHeader;
  shred_variant : ShredVariant;
  shred_payload : list Z;
  shred_raw : option (list Z);
}.

Definition Shred_new (common : ShredCommonHeader) (variant : ShredVariant) (payload : list Z) : Shred :=
  mkShred common variant payload None.

Definition shred_type (variant_byte : Z) : Z := Z.land variant_byte SHRED_TYPE_MASK.
Definition proof_count_of (variant_byte : Z) : nat := Z.to_nat (Z.land variant_byte SHRED_PROOF_COUNT_MASK).
Definition is_legacy_type (ty : Z) : bool := (ty =? SHRED_TYPE_LEGACY_DATA) || (ty =? SHRED_TYPE_LEGACY_CODE).
Definition is_resigned_type (ty : Z) : bool :=
  (ty =? SHRED_TYPE_MERKLE_DATA_CHAINED_RESIGNED) || (ty =? SHRED_TYPE_MERKLE_CODE_CHAINED_RESIGNED).

Definition Shred_is_data (s : Shred) : bool :=
  match shred_variant s with LegacyData _ | MerkleData _ _ => true | _ => false end.
Definition Shred_is_coding (s : Shred) : bool :=
  match shred_variant s with LegacyCoding _ | MerkleCoding _ _ => true | _ => false end.
Definition Shred_data_header (s : Shred) : option DataShredHeader :=
  match shred_variant s with LegacyData h | MerkleData h _ => Some h | _ => None end.
Definition Shred_coding_header (s : Shred) : option CodingShredHeader :=
  match shred_variant s with LegacyCoding h | MerkleCoding h _ => Some h | _ => None end.
Definition Shred_is_last_in_slot (s : Shred) : bool :=
  match shred_variant s with
  | LegacyData h | MerkleData h _ => negb (Z.land (dh_flags h) SHRED_LAST_IN_SLOT =? 0)
  | _ => false
  end.

(** ** The parser *)

Inductive ShredParseError :=
| TooShort (expected actual : nat)
| InvalidVariant (variant : Z)
| InvalidDataSize (size : Z)
| InvalidCodingParams (data coding : Z)
| InvalidMerkleProof
| IoError.

(** A step over a [Cursor]: the buffer, the position, and the position after it. *)
Definition Cursor (A : Type) : Type := list Z → nat → Outcome (result (A * nat) ShredParseError).
#[export] Instance Cursor_ret : MRet Cursor := λ A a data pos, Done (Ok (a, pos)).
#[export] Instance Cursor_bind : MBind Cursor := λ A B f m data pos,
  match m data pos with
  | Done (Ok (a, pos')) => f a data pos'
  | Done (Err e) => Done (Err e)
  | Panicked => Panicked
  end.
Definition cursor_fail {A} (e : ShredParseError) : Cursor A := λ data pos, Done (Err e).

(** [read_exact] on a buffer of [n] bytes. *)
Definition read_exact (n : nat) : Cursor (list Z) := λ data pos,
  match read_bytes data pos n with
  | Some bytes => Done (Ok (bytes, (pos + n)%nat))
  | None => Done (Err IoError)
  end.
(** [read_exact] and [from_le_bytes]. *)
Definition read_le (n : nat) : Cursor Z := bytes ← read_exact n; mret (from_le_bytes bytes).

(** [data[start..end]], which panics out of range. *)
Definition range_of (data : list Z) (start stop : nat) : Outcome (list Z) :=
  if (stop <? start)%nat || (length data <? stop)%nat then Panicked else Done (take (stop - start) (drop start data)).

Definition parse_common_header : Cursor ShredCommonHeader :=
  signature ← read_exact SHRED_SIGNATURE_BYTES;
  variant ← read_le 1;
  slot ← read_le 8;
  index ← read_le 4;
  version ← read_le 2;
  fec_set_index ← read_le 4;
  mret (mkShredCommonHeader signature variant slot index version fec_set_index).

Definition parse_data_header : Cursor DataShredHeader :=
  parent_offset ← read_le 2;
  flags ← read_le 1;
  size ← read_le 2;
  if DATA_SHRED_PAYLOAD_SIZE <? size then cursor_fail (InvalidDataSize size)
  else mret (mkDataShredHeader parent_offset flags size).

Definition parse_coding_header : Cursor CodingShredHeader :=
  num_data_shreds ← read_le 2;
  num_coding_shreds ← read_le 2;
  position ← read_le 2;
  if (MAX_FEC_SHREDS <? num_data_shreds) || (MAX_FEC_SHREDS <? num_coding_shreds)
  then cursor_fail (InvalidCodingParams num_data_shreds num_coding_shreds)
  else mret (mkCodingShredHeader num_data_shreds num_coding_shreds position).

(** [merkle_sz + resign_sz]: the tail of a Merkle shred. *)
Definition merkle_sz (variant_byte : Z) : nat := (proof_count_of variant_byte * MERKLE_PROOF_NODE_BYTES)%nat.
Definition resign_sz (variant_byte : Z) : nat :=
  if is_resigned_type (shred_type variant_byte) then SHRED_SIGNATURE_BYTES else 0%nat.

Definition read_node (raw : list Z) (proof_start : nat) (proof : MerkleProof) (i : nat) : Outcome MerkleProof :=
  let off := (proof_start + i * MERKLE_PROOF_NODE_BYTES)%nat in
  node ← range_of raw off (off + MERKLE_PROOF_NODE_BYTES);
  mret (proof ++ [node]).

Definition extract_merkle_proof (variant_byte : Z) (raw : list Z) (is_data : bool) :
    Outcome (result MerkleProof ShredParseError) :=
  let proof_count := proof_count_of variant_byte in
  if (MERKLE_MAX_PROOF_DEPTH <? proof_count)%nat then mret (Err InvalidMerkleProof)
  else if (proof_count =? 0)%nat then mret (Ok [])
  else
    let shred_sz := if is_data then SHRED_MIN_SIZE else SHRED_SIZE in
    let shred_end := (length raw `min` shred_sz)%nat in
    let tail := (merkle_sz variant_byte + resign_sz variant_byte)%nat in
    if (shred_end <? tail)%nat then mret (Err InvalidMerkleProof)
    else
      let proof_start := (shred_end - tail)%nat in
      if (length raw <? proof_start + merkle_sz variant_byte)%nat then mret (Err InvalidMerkleProof)
      else
        proof ← for_each (read_node raw proof_start) [] (seq 0 proof_count);
        mret (Ok proof).

(** [Self::extract_merkle_proof(variant_byte, raw_data, is_data)?] *)
Definition with_proof (variant_byte : Z) (is_data : bool) : Cursor MerkleProof := λ data pos,
  r ← extract_merkle_proof variant_byte data is_data;
  mret (match r with Ok proof => Ok (proof, pos) | Err e => Err e end).

Definition parse_variant (variant_byte : Z) : Cursor ShredVariant :=
  let ty := shred_type variant_byte in
  if negb (Z.land ty SHRED_TYPE_MERKLE_DATA =? 0) then
    h ← parse_data_header;
    if is_legacy_type ty then mret (LegacyData h)
    else proof ← with_proof variant_byte true; mret (MerkleData h proof)
  else if negb (Z.land ty SHRED_TYPE_MERKLE_CODE =? 0) then
    h ← parse_coding_header;
    if is_legacy_type ty then mret (LegacyCoding h)
    else proof ← with_proof variant_byte false; mret (MerkleCoding h proof)
  else cursor_fail (InvalidVariant variant_byte).

(** The bytes between the header and the tail. *)
Definition parse_payload (variant_byte : Z) (data : list Z) (header_end : nat) : Outcome (list Z) :=
  if is_legacy_type (shred_type variant_byte) then range_of data header_end (length data)
  else
    let proof_start := (length data - (merkle_sz variant_byte + resign_sz variant_byte))%nat in
    range_of data header_end (proof_start `max` header_end).

Definition parse_headers : Cursor (ShredCommonHeader * ShredVariant) :=
  common ← parse_common_header;
  variant ← parse_variant (ch_variant common);
  mret (common, variant).

Definition ShredParser_parse (data : list Z) : Outcome (result Shred ShredParseError) :=
  if (length data <? SHRED_HEADER_SIZE)%nat then mret (Err (TooShort SHRED_HEADER_SIZE (length data)))
  else
    r ← parse_headers data 0%nat;
    match r with
    | Err e => mret (Err e)
    | Ok (common, variant, header_end) =>
        payload ← parse_payload (ch_variant common) data header_end;
        mret (Ok (mkShred common variant payload (Some data)))
    end.

(** ** The serializer *)

Definition write_common_header (h : ShredCommonHeader) : list Z :=
  ch_signature h ++ [ch_variant h] ++ to_le_bytes 8 (ch_slot h) ++ to_le_bytes 4 (ch_index h)
  ++ to_le_bytes 2 (ch_version h) ++ to_le_bytes 4 (ch_fec_set_index h).
Definition write_data_header (h : DataShredHeader) : list Z :=
  to_le_bytes 2 (dh_parent_offset h) ++ [dh_flags h] ++ to_le_bytes 2 (dh_size h).
Definition write_coding_header (h : CodingShredHeader) : list Z :=
  to_le_bytes 2 (cd_num_data_shreds h) ++ to_le_bytes 2 (cd_num_coding_shreds h) ++ to_le_bytes 2 (cd_position h).
Definition write_variant_header (v : ShredVariant) : list Z :=
  match v with
  | LegacyData h | MerkleData h _ => write_data_header h
  | LegacyCoding h | MerkleCoding h _ => write_coding_header h
  end.

(** [buffer.resize(n, 0)] where [n] is not below the length. *)
Definition pad_to (n : nat) (buffer : list Z) : list Z := buffer ++ replicate (n - length buffer) 0.

Definition ShredParser_serialize (s : Shred) : list Z :=
  let buffer := write_common_header (shred_common s) ++ write_variant_header (shred_variant s) ++ shred_payload s in
  match shred_variant s with
  | MerkleData _ proof => pad_to (SHRED_MIN_SIZE - length proof * MERKLE_PROOF_NODE_BYTES) buffer ++ concat proof
  | MerkleCoding _ proof => pad_to (SHRED_SIZE - length proof * MERKLE_PROOF_NODE_BYTES) buffer ++ concat proof
  | _ => buffer
  end.

Definition Shred_to_wire_bytes (s : Shred) : list Z :=
  match shred_raw s with
  | Some raw => raw
  | None => pad_to SHRED_SIZE (write_common_header (shred_common s) ++ write_variant_header (shred_variant s) ++ shred_payload s)
  end.

(** ** The codec for links between tiles *)

Definition SHRED_MAX_PAYLOAD : nat := 1280.
Definition SHRED_COMMON_HEADER_SIZE : nat := 64 + 1 + 8 + 4 + 2 + 4.
Definition SHRED_MAX_VARIANT : nat := 1 + 6 + 1 + 15 * MERKLE_PROOF_NODE_BYTES.
Definition Shred_max_encoded_size : nat := SHRED_COMMON_HEADER_SIZE + SHRED_MAX_VARIANT + 4 + SHRED_MAX_PAYLOAD.

(** [buf[pos..pos + n].copy_from_slice(bytes)] and [pos += n]. *)
Definition put (bytes : list Z) (s : list Z * nat) : Outcome (list Z * nat) :=
  let '(buf, pos) := s in
  if (length buf <? pos + length bytes)%nat then Panicked
  else Done (take pos buf ++ bytes ++ drop (pos + length bytes) buf, (pos + length bytes)%nat).

(** Reads that panic past the end, as [bytes[pos..pos + n]] does. *)
Definition Decoder (A : Type) : Type := list Z → nat → Outcome (A * nat).
#[export] Instance Decoder_ret : MRet Decoder := λ A a bytes pos, Done (a, pos).
#[export] Instance Decoder_bind : MBind Decoder := λ A B f m bytes pos,
  match m bytes pos with
  | Done (a, pos') => f a bytes pos'
  | Panicked => Panicked
  end.
Definition get (n : nat) : Decoder (list Z) := λ bytes pos,
  match read_bytes bytes pos n with
  | Some x => Done (x, (pos + n)%nat)
  | None => Panicked
  end.
Definition get_le (n : nat) : Decoder Z := x ← get n; mret (from_le_bytes x).
Fixpoint get_times {A} (n : nat) (d : Decoder A) : Decoder (list A) :=
  match n with
  | O => mret []
  | S n' => a ← d; rest ← get_times n' d; mret (a :: rest)
  end.

Definition encode_data_header (h : DataShredHeader) (s : list Z * nat) : Outcome (list Z * nat) :=
  s ← put (to_le_bytes 2 (dh_parent_offset h)) s;
  s ← put [dh_flags h] s;
  put (to_le_bytes 2 (dh_size h)) s.
Definition decode_data_header : Decoder DataShredHeader :=
  parent_offset ← get_le 2;
  flags ← get_le 1;
  size ← get_le 2;
  mret (mkDataShredHeader parent_offset flags size).

Definition encode_coding_header (h : CodingShredHeader) (s : list Z * nat) : Outcome (list Z * nat) :=
  s ← put (to_le_bytes 2 (cd_num_data_shreds h)) s;
  s ← put (to_le_bytes 2 (cd_num_coding_shreds h)) s;
  put (to_le_bytes 2 (cd_position h)) s.
Definition decode_coding_header : Decoder CodingShredHeader :=
  num_data_shreds ← get_le 2;
  num_coding_shreds ← get_le 2;
  position ← get_le 2;
  mret (mkCodingShredHeader num_data_shreds num_coding_shreds position).

Definition encode_merkle_proof (proof : MerkleProof) (s : list Z * nat) : Outcome (list Z * nat) :=
  s ← put [Z.of_nat (length proof) mod 2 ^ 8] s;
  for_each (λ s node, put node s) s proof.
Definition decode_merkle_proof : Decoder MerkleProof :=
  count ← get_le 1;
  get_times (Z.to_nat count) (get MERKLE_PROOF_NODE_BYTES).

Definition encode_variant (v : ShredVariant) (s : list Z * nat) : Outcome (list Z * nat) :=
  match v with
  | LegacyData dh => s ← put [0] s; encode_data_header dh s
  | LegacyCoding ch => s ← put [1] s; encode_coding_header ch s
  | MerkleData dh proof => s ← put [2] s; s ← encode_data_header dh s; encode_merkle_proof proof s
  | MerkleCoding ch proof => s ← put [3] s; s ← encode_coding_header ch s; encode_merkle_proof proof s
  end.

Definition encode_from (sh : Shred) (s : list Z * nat) : Outcome (list Z * nat) :=
  let h := shred_common sh in
  s ← put (ch_signature h) s;
  s ← put [ch_variant h] s;
  s ← put (to_le_bytes 8 (ch_slot h)) s;
  s ← put (to_le_bytes 4 (ch_index h)) s;
  s ← put (to_le_bytes 2 (ch_version h)) s;
  s ← put (to_le_bytes 4 (ch_fec_set_index h)) s;
  s ← encode_variant (shred_variant sh) s;
  let payload_len := (length (shred_payload sh) `min` SHRED_MAX_PAYLOAD)%nat in
  s ← put (to_le_bytes 4 (Z.of_nat payload_len)) s;
  put (take payload_len (shred_payload sh)) s.

(** [FragmentCodec::encode] for a shred: the buffer and the bytes written. *)
Definition Shred_encode (sh : Shred) (buf : list Z) : Outcome (list Z * nat) := encode_from sh (buf, 0%nat).

Definition decode_variant : Decoder ShredVariant :=
  tag ← get_le 1;
  if tag =? 0 then dh ← decode_data_header; mret (LegacyData dh)
  else if tag =? 1 then ch ← decode_coding_header; mret (LegacyCoding ch)
  else if tag =? 2 then dh ← decode_data_header; proof ← decode_merkle_proof; mret (MerkleData dh proof)
  else if tag =? 3 then ch ← decode_coding_header; proof ← decode_merkle_proof; mret (MerkleCoding ch proof)
  else mret (LegacyData (mkDataShredHeader 0 0 0)).

(** [FragmentCodec::decode]. *)
Definition Shred_decode (bytes : list Z) : Outcome Shred :=
  r ← (signature ← get SHRED_SIGNATURE_BYTES;
       variant_byte ← get_le 1;
       slot ← get_le 8;
       index ← get_le 4;
       version ← get_le 2;
       fec_set_index ← get_le 4;
       variant ← decode_variant;
       payload_len ← get_le 4;
       payload ← get (Z.to_nat payload_len);
       mret (mkShred (mkShredCommonHeader signature variant_byte slot index version fec_set_index) variant payload None))
      bytes 0%nat;
  mret r.1.

(** ** Fields of a buffer *)

Definition bytes_at (data : list Z) (pos n : nat) : list Z := take n (drop pos data).
Definition field (data : list Z) (pos n : nat) : Z := from_le_bytes (bytes_at data pos n).

Lemma length_slice_at data pos n : (pos + n <= length data)%nat → length (bytes_at data pos n) = n.
Proof. intros H. unfold bytes_at. rewrite length_take, length_drop. lia. Qed.
Lemma bytes_at_byte data pos n : Forall is_byte data → Forall is_byte (bytes_at data pos n).
Proof. intros H. by apply Forall_take, Forall_drop. Qed.
Lemma bytes_at_split data pos n m : bytes_at data pos n ++ bytes_at data (pos + n) m = bytes_at data pos (n + m).
Proof. unfold bytes_at. by rewrite <- drop_drop, take_take_drop. Qed.
Lemma bytes_at_join data pos n pos' m k : pos' = (pos + n)%nat → k = (n + m)%nat →
  bytes_at data pos n ++ bytes_at data pos' m = bytes_at data pos k.
Proof. intros -> ->. apply bytes_at_split. Qed.
Lemma bytes_at_all data : bytes_at data 0 (length data) = data.
Proof. unfold bytes_at. by rewrite drop_0, firstn_all. Qed.

Lemma read_exact_eq data pos n : (pos + n <= length data)%nat →
  read_exact n data pos = Done (Ok (bytes_at data pos n, (pos + n)%nat)).
Proof. intros H. unfold read_exact, read_bytes. by rewrite (proj2 (Nat.ltb_ge _ _)). Qed.
Lemma read_le_eq data pos n : (pos + n <= length data)%nat →
  read_le n data pos = Done (Ok (field data pos n, (pos + n)%nat)).
Proof. intros H. unfold read_le, mbind, Cursor_bind. by rewrite read_exact_eq. Qed.
Lemma read_le_short data pos n : (length data < pos + n)%nat → read_le n data pos = Done (Err IoError).
Proof. intros H. unfold read_le, mbind, Cursor_bind, read_exact, read_bytes. by rewrite (proj2 (Nat.ltb_lt _ _)). Qed.

Lemma field_bound data pos n : Forall is_byte data → (pos + n <= length data)%nat → 0 <= field data pos n < 256 ^ Z.of_nat n.
Proof.
  intros Hb Hl. pose proof (from_le_bytes_bound (bytes_at data pos n) ltac:(by apply bytes_at_byte)) as H.
  by rewrite length_slice_at in H.
Qed.
Lemma field_bytes data pos n : Forall is_byte data → (pos + n <= length data)%nat →
  to_le_bytes n (field data pos n) = bytes_at data pos n.
Proof.
  intros Hb Hl. rewrite <- (length_slice_at data pos n Hl) at 1. apply to_from_le_bytes. by apply bytes_at_byte.
Qed.
Lemma field_byte data pos : Forall is_byte data → (pos + 1 <= length data)%nat → [field data pos 1] = bytes_at data pos 1.
Proof.
  intros Hb Hl. rewrite <- field_bytes by done. cbn [to_le_bytes]. f_equal.
  pose proof (field_bound data pos 1 Hb Hl) as H. change (256 ^ Z.of_nat 1) with 256 in H. symmetry. by apply Z.mod_small.
Qed.

(** A field between known bytes. *)
Lemma bytes_at_app pre x post : bytes_at (pre ++ x ++ post) (length pre) (length x) = x.
Proof. unfold bytes_at. by rewrite drop_app_length, take_app_length. Qed.
Lemma bytes_at_mid data pre x post pos n : data = pre ++ x ++ post → pos = length pre → n = length x → bytes_at data pos n = x.
Proof. intros -> -> ->. apply bytes_at_app. Qed.

(** ** What the parser reads *)

Definition common_of (data : list Z) : ShredCommonHeader :=
  mkShredCommonHeader (bytes_at data 0 64) (field data 64 1) (field data 65 8) (field data 73 4) (field data 77 2)
    (field data 79 4).
Definition data_header_of (data : list Z) : DataShredHeader :=
  mkDataShredHeader (field data 83 2) (field data 85 1) (field data 86 2).
Definition coding_header_of (data : list Z) : CodingShredHeader :=
  mkCodingShredHeader (field data 83 2) (field data 85 2) (field data 87 2).

Lemma parse_common_header_eq data : (83 <= length data)%nat →
  parse_common_header data 0%nat = Done (Ok (common_of data, 83%nat)).
Proof.
  intros H. unfold parse_common_header, SHRED_SIGNATURE_BYTES, mbind, Cursor_bind.
  rewrite read_exact_eq by lia. rewrite !read_le_eq by (cbn; lia). done.
Qed.
Lemma parse_data_header_eq data : (88 <= length data)%nat →
  parse_data_header data 83%nat =
    if DATA_SHRED_PAYLOAD_SIZE <? dh_size (data_header_of data) then Done (Err (InvalidDataSize (dh_size (data_header_of data))))
    else Done (Ok (data_header_of data, 88%nat)).
Proof.
  intros H. unfold parse_data_header, mbind, Cursor_bind. rewrite !read_le_eq by (cbn; lia). cbn [Nat.add].
  change (dh_size (data_header_of data)) with (field data 86 2). by destruct (_ <? _).
Qed.
Lemma parse_coding_header_eq data : (89 <= length data)%nat →
  parse_coding_header data 83%nat =
    if (MAX_FEC_SHREDS <? cd_num_data_shreds (coding_header_of data)) || (MAX_FEC_SHREDS <? cd_num_coding_shreds (coding_header_of data))
    then Done (Err (InvalidCodingParams (field data 83 2) (field data 85 2)))
    else Done (Ok (coding_header_of data, 89%nat)).
Proof.
  intros H. unfold parse_coding_header, mbind, Cursor_bind. rewrite !read_le_eq by (cbn; lia). cbn [Nat.add].
  change (cd_num_data_shreds (coding_header_of data)) with (field data 83 2).
  change (cd_num_coding_shreds (coding_header_of data)) with (field data 85 2). by destruct (_ || _).
Qed.
Lemma parse_coding_header_short data : length data = 88%nat → parse_coding_header data 83%nat = Done (Err IoError).
Proof.
  intros H. unfold parse_coding_header, mbind, Cursor_bind. rewrite !read_le_eq by (cbn; lia). cbn [Nat.add].
  by rewrite read_le_short by lia.
Qed.

Definition proof_nodes (raw : list Z) (start count : nat) : MerkleProof :=
  (λ i, bytes_at raw (start + i * MERKLE_PROOF_NODE_BYTES) MERKLE_PROOF_NODE_BYTES) <$> seq 0 count.

Lemma read_nodes raw start count : (start + count * MERKLE_PROOF_NODE_BYTES <= length raw)%nat →
  for_each (read_node raw start) [] (seq 0 count) = Done (proof_nodes raw start count).
Proof.
  intros H. cut (∀ n k acc, (k + n)%nat = count → for_each (read_node raw start) acc (seq k n)
    = Done (acc ++ ((λ i, bytes_at raw (start + i * MERKLE_PROOF_NODE_BYTES) MERKLE_PROOF_NODE_BYTES) <$> seq k n))).
  { intros Hc. by apply (Hc count 0%nat []). }
  induction n as [|n IH]; intros k acc Hk; cbn [seq for_each fmap list_fmap]; [by rewrite app_nil_r|].
  assert (E : read_node raw start acc k = Done (acc ++ [bytes_at raw (start + k * MERKLE_PROOF_NODE_BYTES) MERKLE_PROOF_NODE_BYTES])).
  { unfold read_node, range_of, MERKLE_PROOF_NODE_BYTES in *. rewrite !(proj2 (Nat.ltb_ge _ _)) by nia. cbn [orb].
    unfold bytes_at. by replace (start + k * 20 + 20 - (start + k * 20))%nat with 20%nat by lia. }
  rewrite E, Done_bind, IH by lia. by rewrite <- app_assoc.
Qed.

Lemma proof_count_max vb : (proof_count_of vb <= MERKLE_MAX_PROOF_DEPTH)%nat.
Proof.
  unfold proof_count_of, SHRED_PROOF_COUNT_MASK, MERKLE_MAX_PROOF_DEPTH. change 0x0F with (Z.ones 4).
  rewrite Z.land_ones by lia. pose proof (Z.mod_pos_bound vb (2 ^ 4)). lia.
Qed.

(** Where the tail of a Merkle shred starts. *)
Definition shred_end (is_data : bool) (raw : list Z) : nat :=
  (length raw `min` (if is_data then SHRED_MIN_SIZE else SHRED_SIZE))%nat.
Definition tail_sz (vb : Z) : nat := (merkle_sz vb + resign_sz vb)%nat.

Lemma extract_merkle_proof_eq vb raw is_data : (tail_sz vb <= shred_end is_data raw)%nat →
  extract_merkle_proof vb raw is_data
  = Done (Ok (proof_nodes raw (shred_end is_data raw - tail_sz vb) (proof_count_of vb))).
Proof.
  intros Ht. pose proof (proof_count_max vb). unfold extract_merkle_proof. rewrite (proj2 (Nat.ltb_ge _ _)) by done.
  destruct (Nat.eqb_spec (proof_count_of vb) 0) as [E|E]; [by rewrite E|]. fold (shred_end is_data raw) (tail_sz vb).
  unfold shred_end, tail_sz, merkle_sz in *. rewrite !(proj2 (Nat.ltb_ge _ _)) by lia.
  by rewrite read_nodes by lia.
Qed.
Lemma extract_merkle_proof_short vb raw is_data : (shred_end is_data raw < tail_sz vb)%nat →
  extract_merkle_proof vb raw is_data = if (proof_count_of vb =? 0)%nat then Done (Ok []) else Done (Err InvalidMerkleProof).
Proof.
  intros Ht. pose proof (proof_count_max vb). unfold extract_merkle_proof. rewrite (proj2 (Nat.ltb_ge _ _)) by done.
  destruct (_ =? 0)%nat; [done|]. fold (shred_end is_data raw) (tail_sz vb). by rewrite (proj2 (Nat.ltb_lt _ _)).
Qed.

(** The variants that the parser makes of a buffer, with the end of their header. *)
Definition is_data_type (ty : Z) : bool := negb (Z.land ty SHRED_TYPE_MERKLE_DATA =? 0).
Definition is_code_type (ty : Z) : bool := negb (Z.land ty SHRED_TYPE_MERKLE_CODE =? 0).
Definition variant_byte_of (data : list Z) : Z := field data 64 1.

Inductive accepts (data : list Z) : ShredVariant → nat → Prop :=
| accepts_data proof :
    is_data_type (shred_type (variant_byte_of data)) = true →
    dh_size (data_header_of data) <= DATA_SHRED_PAYLOAD_SIZE →
    is_legacy_type (shred_type (variant_byte_of data)) = false →
    extract_merkle_proof (variant_byte_of data) data true = Done (Ok proof) →
    accepts data (MerkleData (data_header_of data) proof) 88
| accepts_legacy_data :
    is_data_type (shred_type (variant_byte_of data)) = true →
    dh_size (data_header_of data) <= DATA_SHRED_PAYLOAD_SIZE →
    is_legacy_type (shred_type (variant_byte_of data)) = true →
    accepts data (LegacyData (data_header_of data)) 88
| accepts_coding proof :
    is_data_type (shred_type (variant_byte_of data)) = false → is_code_type (shred_type (variant_byte_of data)) = true →
    (89 <= length data)%nat →
    cd_num_data_shreds (coding_header_of data) <= MAX_FEC_SHREDS → cd_num_coding_shreds (coding_header_of data) <= MAX_FEC_SHREDS →
    is_legacy_type (shred_type (variant_byte_of data)) = false →
    extract_merkle_proof (variant_byte_of data) data false = Done (Ok proof) →
    accepts data (MerkleCoding (coding_header_of data) proof) 89
| accepts_legacy_coding :
    is_data_type (shred_type (variant_byte_of data)) = false → is_code_type (shred_type (variant_byte_of data)) = true →
    (89 <= length data)%nat →
    cd_num_data_shreds (coding_header_of data) <= MAX_FEC_SHREDS → cd_num_coding_shreds (coding_header_of data) <= MAX_FEC_SHREDS →
    is_legacy_type (shred_type (variant_byte_of data)) = true →
    accepts data (LegacyCoding (coding_header_of data)) 89.

(** The payload of a buffer whose header ends at [n]. *)
Definition payload_of (data : list Z) (n : nat) : list Z :=
  if is_legacy_type (shred_type (variant_byte_of data)) then drop n data
  else bytes_at data n (length data - tail_sz (variant_byte_of data) - n).

Lemma parse_payload_eq data n : (n <= length data)%nat →
  parse_payload (variant_byte_of data) data n = Done (payload_of data n).
Proof.
  intros Hn. unfold parse_payload, payload_of, range_of. destruct (is_legacy_type _).
  - rewrite !(proj2 (Nat.ltb_ge _ _)) by lia. cbn. by rewrite firstn_all2 by (rewrite length_drop; lia).
  - rewrite !(proj2 (Nat.ltb_ge _ _)) by lia. cbn. unfold bytes_at, tail_sz. do 2 f_equal. lia.
Qed.

Lemma extract_total vb raw is_data : ∃ r, extract_merkle_proof vb raw is_data = Done r.
Proof.
  destruct (Nat.le_gt_cases (tail_sz vb) (shred_end is_data raw)).
  - rewrite extract_merkle_proof_eq by done. by eexists.
  - rewrite extract_merkle_proof_short by done. case_match; by eexists.
Qed.

(** The parser returns on every buffer, and accepts exactly these. *)
Lemma parse_variant_spec data : (88 <= length data)%nat →
  (∃ e, parse_variant (variant_byte_of data) data 83%nat = Done (Err e)
     ∧ ∀ v n, ¬ accepts data v n) ∨
  (∃ v n, parse_variant (variant_byte_of data) data 83%nat = Done (Ok (v, n)) ∧ (n <= length data)%nat ∧ accepts data v n
     ∧ ∀ v' n', accepts data v' n' → v' = v ∧ n' = n).
Proof.
  intros Hl. unfold parse_variant. fold (is_data_type (shred_type (variant_byte_of data))) (is_code_type (shred_type (variant_byte_of data))).
  destruct (is_data_type _) eqn:Ed; [|destruct (is_code_type _) eqn:Ec].
  - unfold mbind, Cursor_bind. rewrite parse_data_header_eq by done.
    destruct (Z.ltb_spec DATA_SHRED_PAYLOAD_SIZE (dh_size (data_header_of data))) as [Hs|Hs].
    { left. eexists. split; [done|]. intros v n [] ; congruence || lia. }
    destruct (is_legacy_type _) eqn:El.
    { right. eexists _, _. split; [done|]. split; [done|]. split; [by constructor|]. intros v' n' []; congruence || done. }
    unfold with_proof. destruct (extract_total (variant_byte_of data) data true) as [[proof|e] Ex]; rewrite Ex; cbn.
    + right. eexists _, _. split; [done|]. split; [done|]. split; [by constructor|].
      intros v' n' Ha. destruct Ha; try congruence. rewrite Ex in *. by simplify_eq.
    + left. eexists. split; [done|]. intros v n Ha. destruct Ha; congruence.
  - unfold mbind, Cursor_bind. destruct (decide (length data = 88%nat)) as [H88|H88].
    { rewrite parse_coding_header_short by done. left. eexists. split; [done|]. intros v n Ha. destruct Ha; congruence || lia. }
    rewrite parse_coding_header_eq by lia.
    destruct (_ || _) eqn:Eo.
    { left. eexists. split; [done|]. intros v n Ha.
      apply orb_true_iff in Eo as [Eo%Z.ltb_lt|Eo%Z.ltb_lt]; destruct Ha; congruence || lia. }
    apply orb_false_iff in Eo as [E1%Z.ltb_ge E2%Z.ltb_ge]. destruct (is_legacy_type _) eqn:El.
    { right. eexists _, _. split; [done|]. split; [lia|]. split; [constructor; done || lia|]. intros v' n' Ha; destruct Ha; congruence || done. }
    unfold with_proof. destruct (extract_total (variant_byte_of data) data false) as [[proof|e] Ex]; rewrite Ex; cbn.
    + right. eexists _, _. split; [done|]. split; [lia|]. split; [constructor; done || lia|].
      intros v' n' Ha. destruct Ha; try congruence. rewrite Ex in *. by simplify_eq.
    + left. eexists. split; [done|]. intros v n Ha. destruct Ha; congruence.
  - left. eexists. split; [done|]. intros v n Ha. destruct Ha; congruence.
Qed.

Definition parsed_shred (data : list Z) (v : ShredVariant) (n : nat) : Shred :=
  mkShred (common_of data) v (payload_of data n) (Some data).

Lemma parse_headers_eq data : (88 <= length data)%nat →
  parse_headers data 0%nat =
    match parse_variant (variant_byte_of data) data 83%nat with
    | Done (Ok (v, n)) => Done (Ok (common_of data, v, n))
    | Done (Err e) => Done (Err e)
    | Panicked => Panicked
    end.
Proof. intros Hl. unfold parse_headers, mbind, Cursor_bind. by rewrite parse_common_header_eq by lia. Qed.

Lemma parse_spec data :
  (∃ e, ShredParser_parse data = Done (Err e)) ∨
  (∃ v n, ShredParser_parse data = Done (Ok (parsed_shred data v n))
     ∧ (88 <= length data)%nat ∧ (n <= length data)%nat ∧ accepts data v n).
Proof.
  unfold ShredParser_parse, SHRED_HEADER_SIZE. destruct (Nat.ltb_spec (length data) 88) as [Hs|Hs]; [left; by eexists|].
  rewrite parse_headers_eq by done.
  destruct (parse_variant_spec data Hs) as [(e & -> & _)|(v & n & -> & Hn & Ha & _)]; rewrite Done_bind.
  - left. by eexists.
  - right. exists v, n. cbn [common_of ch_variant]. fold (variant_byte_of data). rewrite parse_payload_eq by done. by split_and!.
Qed.
Lemma parse_accepts data v n : (88 <= length data)%nat → accepts data v n →
  ShredParser_parse data = Done (Ok (parsed_shred data v n)).
Proof.
  intros Hl Ha. unfold ShredParser_parse, SHRED_HEADER_SIZE. rewrite (proj2 (Nat.ltb_ge _ _)) by done.
  rewrite parse_headers_eq by done.
  destruct (parse_variant_spec data Hl) as [(e & _ & Hno)|(v' & n' & -> & Hn & _ & Hu)]; [by destruct (Hno v n)|].
  destruct (Hu v n Ha) as [-> ->]. rewrite Done_bind. cbn [common_of ch_variant]. fold (variant_byte_of data).
  by rewrite parse_payload_eq.
Qed.

(** ** Well-formed shreds *)

Definition is_u16 (z : Z) : Prop := 0 <= z <= u16_max.
Record common_wf (h : ShredCommonHeader) : Prop := {
  cw_signature : length (ch_signature h) = 64%nat ∧ Forall is_byte (ch_signature h);
  cw_variant : is_byte (ch_variant h);
  cw_slot : is_u64 (ch_slot h);
  cw_index : is_u32 (ch_index h);
  cw_version : is_u16 (ch_version h);
  cw_fec_set_index : is_u32 (ch_fec_set_index h);
}.
Definition data_header_wf (h : DataShredHeader) : Prop :=
  is_u16 (dh_parent_offset h) ∧ is_byte (dh_flags h) ∧ 0 <= dh_size h <= DATA_SHRED_PAYLOAD_SIZE.
Definition coding_header_wf (h : CodingShredHeader) : Prop :=
  0 <= cd_num_data_shreds h <= MAX_FEC_SHREDS ∧ 0 <= cd_num_coding_shreds h <= MAX_FEC_SHREDS ∧ is_u16 (cd_position h).
Definition node_wf (node : list Z) : Prop := length node = MERKLE_PROOF_NODE_BYTES ∧ Forall is_byte node.
Definition proof_wf (vb : Z) (proof : MerkleProof) : Prop := length proof = proof_count_of vb ∧ Forall node_wf proof.

Definition variant_wf (vb : Z) (v : ShredVariant) : Prop :=
  let ty := shred_type vb in
  match v with
  | LegacyData h => is_data_type ty = true ∧ is_legacy_type ty = true ∧ data_header_wf h
  | MerkleData h proof => is_data_type ty = true ∧ is_legacy_type ty = false ∧ data_header_wf h ∧ proof_wf vb proof
  | LegacyCoding h => is_data_type ty = false ∧ is_code_type ty = true ∧ is_legacy_type ty = true ∧ coding_header_wf h
  | MerkleCoding h proof =>
      is_data_type ty = false ∧ is_code_type ty = true ∧ is_legacy_type ty = false ∧ coding_header_wf h ∧ proof_wf vb proof
  end.

Record shred_wf (s : Shred) : Prop := {
  sw_common : common_wf (shred_common s);
  sw_variant : variant_wf (ch_variant (shred_common s)) (shred_variant s);
  sw_payload : Forall is_byte (shred_payload s);
}.

(** A Merkle shred whose payload takes all the room between the header and the proof. *)
Definition fills (s : Shred) : Prop :=
  match shred_variant s with
  | MerkleData _ proof => (88 + length (shred_payload s) + length proof * 20 = 1203)%nat
  | MerkleCoding _ proof => (89 + length (shred_payload s) + length proof * 20 = 1228)%nat
  | _ => True
  end.

(** *** From bytes *)

Lemma common_of_wf data : Forall is_byte data → (83 <= length data)%nat → common_wf (common_of data).
Proof.
  intros Hb Hl. split; cbn [common_of ch_signature ch_variant ch_slot ch_index ch_version ch_fec_set_index].
  - split; [apply length_slice_at; lia|by apply bytes_at_byte].
  - pose proof (field_bound data 64 1 Hb ltac:(lia)). unfold is_byte, u8_max. lia.
  - pose proof (field_bound data 65 8 Hb ltac:(lia)). unfold is_u64, u64_max. lia.
  - pose proof (field_bound data 73 4 Hb ltac:(lia)). unfold is_u32, u32_max. lia.
  - pose proof (field_bound data 77 2 Hb ltac:(lia)). unfold is_u16, u16_max. lia.
  - pose proof (field_bound data 79 4 Hb ltac:(lia)). unfold is_u32, u32_max. lia.
Qed.
Lemma data_header_of_wf data : Forall is_byte data → (88 <= length data)%nat →
  dh_size (data_header_of data) <= DATA_SHRED_PAYLOAD_SIZE → data_header_wf (data_header_of data).
Proof.
  intros Hb Hl Hs. pose proof (field_bound data 83 2 Hb ltac:(lia)). pose proof (field_bound data 85 1 Hb ltac:(lia)).
  pose proof (field_bound data 86 2 Hb ltac:(lia)). unfold data_header_wf, is_u16, is_byte, u16_max, u8_max. cbn in *. lia.
Qed.
Lemma coding_header_of_wf data : Forall is_byte data → (89 <= length data)%nat →
  cd_num_data_shreds (coding_header_of data) <= MAX_FEC_SHREDS → cd_num_coding_shreds (coding_header_of data) <= MAX_FEC_SHREDS →
  coding_header_wf (coding_header_of data).
Proof.
  intros Hb Hl H1 H2. pose proof (field_bound data 83 2 Hb ltac:(lia)). pose proof (field_bound data 85 2 Hb ltac:(lia)).
  pose proof (field_bound data 87 2 Hb ltac:(lia)). unfold coding_header_wf, is_u16, u16_max. cbn in *. lia.
Qed.
Lemma extracted_wf vb raw is_data proof : Forall is_byte raw → extract_merkle_proof vb raw is_data = Done (Ok proof) →
  proof_wf vb proof.
Proof.
  intros Hb E. destruct (Nat.le_gt_cases (tail_sz vb) (shred_end is_data raw)) as [Ht|Ht].
  - rewrite extract_merkle_proof_eq in E by done. injection E as <-. unfold proof_nodes. split.
    + by rewrite length_fmap, length_seq.
    + apply Forall_fmap, Forall_forall. intros i Hi%elem_of_seq. split; [|by apply bytes_at_byte].
      apply length_slice_at. unfold tail_sz, merkle_sz, shred_end, MERKLE_PROOF_NODE_BYTES in *. nia.
  - rewrite extract_merkle_proof_short in E by done. destruct (Nat.eqb_spec (proof_count_of vb) 0) as [E0|]; [|done].
    injection E as <-. split; [done|constructor].
Qed.
Lemma parsed_wf data v n : Forall is_byte data → (88 <= length data)%nat → accepts data v n → shred_wf (parsed_shred data v n).
Proof.
  intros Hb Hl Ha. split; cbn [parsed_shred shred_common shred_variant shred_payload].
  - apply common_of_wf; [done|lia].
  - change (ch_variant (common_of data)) with (variant_byte_of data).
    destruct Ha; cbn [variant_wf]; split_and!; try done;
      eauto using data_header_of_wf, coding_header_of_wf, extracted_wf.
  - unfold payload_of. case_match; [by apply Forall_drop|by apply bytes_at_byte].
Qed.

(** *** Serializing what was parsed *)

Lemma write_common_header_of data : Forall is_byte data → (83 <= length data)%nat →
  write_common_header (common_of data) = bytes_at data 0 83.
Proof.
  intros Hb Hl. unfold write_common_header. cbn [common_of ch_signature ch_variant ch_slot ch_index ch_version ch_fec_set_index].
  rewrite field_byte, !field_bytes by (done || lia).
  rewrite (bytes_at_join data 77 2 79 4 6), (bytes_at_join data 73 4 77 6 10), (bytes_at_join data 65 8 73 10 18),
    (bytes_at_join data 64 1 65 18 19) by done.
  by apply bytes_at_join.
Qed.
Lemma write_data_header_of data : Forall is_byte data → (88 <= length data)%nat →
  write_data_header (data_header_of data) = bytes_at data 83 5.
Proof.
  intros Hb Hl. unfold write_data_header. cbn [data_header_of dh_parent_offset dh_flags dh_size].
  rewrite field_byte, !field_bytes by (done || lia). rewrite (bytes_at_join data 85 1 86 2 3) by done. by apply bytes_at_join.
Qed.
Lemma write_coding_header_of data : Forall is_byte data → (89 <= length data)%nat →
  write_coding_header (coding_header_of data) = bytes_at data 83 6.
Proof.
  intros Hb Hl. unfold write_coding_header. cbn [coding_header_of cd_num_data_shreds cd_num_coding_shreds cd_position].
  rewrite !field_bytes by (done || lia). rewrite (bytes_at_join data 85 2 87 2 4) by done. by apply bytes_at_join.
Qed.
Lemma concat_proof_nodes raw start count : (start + count * 20 <= length raw)%nat →
  concat (proof_nodes raw start count) = bytes_at raw start (count * 20).
Proof.
  intros Hl. unfold proof_nodes, MERKLE_PROOF_NODE_BYTES. induction count as [|n IH]; [done|].
  rewrite seq_S, fmap_app, concat_app, IH by lia. cbn [fmap list_fmap concat]. rewrite app_nil_r, Nat.add_0_l.
  apply bytes_at_join; lia.
Qed.

Definition is_resigned (s : Shred) : bool := is_resigned_type (shred_type (ch_variant (shred_common s))).

Lemma drop_bytes_at data n : drop n data = bytes_at data n (length data - n).
Proof. unfold bytes_at. by rewrite firstn_all2 by (rewrite length_drop; lia). Qed.
Lemma pad_full n l : length l = n → pad_to n l = l.
Proof. intros <-. unfold pad_to. by rewrite Nat.sub_diag, app_nil_r. Qed.

(** A header of [n] bytes, the payload after it and the proof at the end. *)
Lemma reassemble data n target count h (k := (target - count * 20 - n)%nat) : (83 <= n)%nat → length data = target →
  (n + count * 20 <= target)%nat → h = bytes_at data 83 (n - 83) →
  pad_to (target - count * 20) (bytes_at data 0 83 ++ h ++ bytes_at data n k) ++ bytes_at data (target - count * 20) (count * 20)
  = data.
Proof.
  intros Hn Hl Hc ->. rewrite (bytes_at_join data 83 (n - 83) n k (n - 83 + k)), (bytes_at_join data 0 83 83 _ (target - count * 20)) by lia.
  rewrite pad_full by (apply length_slice_at; lia). rewrite (bytes_at_join data 0 _ _ _ (length data)) by lia. apply bytes_at_all.
Qed.

Lemma serialize_parsed data v n : Forall is_byte data → (88 <= length data)%nat → accepts data v n →
  is_resigned (parsed_shred data v n) = false → fills (parsed_shred data v n) →
  ShredParser_serialize (parsed_shred data v n) = data.
Proof.
  intros Hb Hl Ha Hr Hf. unfold is_resigned in Hr. cbn [parsed_shred shred_common common_of ch_variant] in Hr.
  fold (variant_byte_of data) in Hr. set (vb := variant_byte_of data) in *.
  assert (Ht : tail_sz vb = (proof_count_of vb * 20)%nat) by (unfold tail_sz, resign_sz, merkle_sz, MERKLE_PROOF_NODE_BYTES; rewrite Hr; lia).
  pose proof (proof_count_max vb) as Hmax. unfold MERKLE_MAX_PROOF_DEPTH in Hmax.
  unfold ShredParser_serialize, fills in *. cbn [parsed_shred shred_common shred_variant shred_payload] in *.
  rewrite write_common_header_of by (done || lia).
  destruct Ha as [proof Hd Hs El Ex|Hd Hs El|proof Hd Hc H89 H1 H2 El Ex|Hd Hc H89 H1 H2 El];
    unfold payload_of in *; fold vb in El, Hf |- *; rewrite El in *; cbn [write_variant_header];
    rewrite ?write_data_header_of, ?write_coding_header_of by (done || lia).
  - pose proof (extracted_wf _ _ _ _ Hb Ex) as [Hlen _]. fold vb in Hlen. rewrite Hlen in *.
    assert (El' : length data = 1203%nat).
    { unfold bytes_at in Hf. rewrite length_take, length_drop in Hf. lia. }
    rewrite extract_merkle_proof_eq in Ex by (unfold shred_end, SHRED_MIN_SIZE; fold vb; lia). injection Ex as <-.
    fold vb. unfold shred_end, SHRED_MIN_SIZE, MERKLE_PROOF_NODE_BYTES in *. rewrite El', Nat.min_id, Ht in *.
    rewrite concat_proof_nodes by lia. by apply (reassemble data 88 1203 (proof_count_of vb)); [lia|..|lia|].
  - rewrite drop_bytes_at, (bytes_at_join data 83 5 88 _ (length data - 83)), (bytes_at_join data 0 83 83 _ (length data)) by lia.
    apply bytes_at_all.
  - pose proof (extracted_wf _ _ _ _ Hb Ex) as [Hlen _]. fold vb in Hlen. rewrite Hlen in *.
    assert (El' : length data = 1228%nat).
    { unfold bytes_at in Hf. rewrite length_take, length_drop in Hf. lia. }
    rewrite extract_merkle_proof_eq in Ex by (unfold shred_end, SHRED_SIZE; fold vb; lia). injection Ex as <-.
    fold vb. unfold shred_end, SHRED_SIZE, MERKLE_PROOF_NODE_BYTES in *. rewrite El', Nat.min_id, Ht in *.
    rewrite concat_proof_nodes by lia. by apply (reassemble data 89 1228 (proof_count_of vb)); [lia|..|lia|].
  - rewrite drop_bytes_at, (bytes_at_join data 83 6 89 _ (length data - 83)), (bytes_at_join data 0 83 83 _ (length data)) by lia.
    apply bytes_at_all.
Qed.

(** *** Parsing what was serialized *)

Lemma bytes_at_skip x rest pos n : (length x <= pos)%nat → bytes_at (x ++ rest) pos n = bytes_at rest (pos - length x) n.
Proof. intros H. unfold bytes_at. by rewrite drop_app_ge. Qed.
Lemma bytes_at_head x rest n : length x = n → bytes_at (x ++ rest) 0 n = x.
Proof. intros <-. unfold bytes_at. by rewrite drop_0, take_app_length. Qed.

Lemma field_skip x rest pos n : (length x <= pos)%nat → field (x ++ rest) pos n = field rest (pos - length x) n.
Proof. intros H. unfold field. by rewrite bytes_at_skip. Qed.
Lemma field_le n z rest : 0 <= z < 256 ^ Z.of_nat n → field (to_le_bytes n z ++ rest) 0 n = z.
Proof. intros H. unfold field. rewrite bytes_at_head by apply length_to_le_bytes. by apply from_to_le_bytes. Qed.
Lemma field_u8 b rest : field ([b] ++ rest) 0 1 = b.
Proof. unfold field. rewrite bytes_at_head by done. cbn. lia. Qed.

(** Skip the known fields before the one that is read. *)
Ltac seek :=
  repeat (rewrite field_skip by (rewrite ?length_to_le_bytes; cbn [length]; lia));
  rewrite ?length_to_le_bytes; cbn [length Nat.sub].

Section serialized.
Context (s : Shred) (Hwf : shred_wf s) (rest : list Z).
Abbreviation data := (write_common_header (shred_common s) ++ write_variant_header (shred_variant s) ++ rest).

Lemma length_common_header : length (write_common_header (shred_common s)) = 83%nat.
Proof.
  unfold write_common_header. rewrite !length_app, !length_to_le_bytes, (proj1 (cw_signature _ (sw_common _ Hwf))). done.
Qed.

Lemma common_of_serialized : common_of data = shred_common s.
Proof.
  pose proof (sw_common _ Hwf) as [[Hsig _] Hv Hslot Hidx Hver Hfec]. destruct (shred_common s) as [sig vb slot idx ver fec].
  cbn [ch_signature ch_variant ch_slot ch_index ch_version ch_fec_set_index] in *.
  unfold is_u64, is_u32, is_u16, u64_max, u32_max, u16_max in *.
  unfold common_of, write_common_header. cbn [ch_signature ch_variant ch_slot ch_index ch_version ch_fec_set_index].
  rewrite <- !(assoc_L (++)). f_equal; [by apply bytes_at_head|..];
    (rewrite field_skip, Hsig by lia; cbn [Nat.sub]; seek); [apply field_u8|apply field_le; lia..].
Qed.
Lemma data_header_of_serialized h : write_variant_header (shred_variant s) = write_data_header h → data_header_wf h →
  data_header_of data = h.
Proof.
  intros -> (Hp & Hf & Hs). destruct h as [parent flags size]. cbn [dh_parent_offset dh_flags dh_size] in *.
  unfold is_u16, DATA_SHRED_PAYLOAD_SIZE, u16_max in *. unfold data_header_of, write_data_header. cbn [dh_parent_offset dh_flags dh_size].
  rewrite <- !(assoc_L (++)).
  f_equal; (rewrite field_skip, length_common_header by (rewrite length_common_header; lia); cbn [Nat.sub]; seek);
    [apply field_le; lia|apply field_u8|apply field_le; lia].
Qed.
Lemma coding_header_of_serialized h : write_variant_header (shred_variant s) = write_coding_header h → coding_header_wf h →
  coding_header_of data = h.
Proof.
  intros -> (Hd & Hc & Hp). destruct h as [nd nc pos]. cbn [cd_num_data_shreds cd_num_coding_shreds cd_position] in *.
  unfold is_u16, MAX_FEC_SHREDS, u16_max in *. unfold coding_header_of, write_coding_header.
  cbn [cd_num_data_shreds cd_num_coding_shreds cd_position]. rewrite <- !(assoc_L (++)).
  f_equal; (rewrite field_skip, length_common_header by (rewrite length_common_header; lia); cbn [Nat.sub]; seek); apply field_le; lia.
Qed.
End serialized.

Lemma length_write_data_header h : length (write_data_header h) = 5%nat.
Proof. unfold write_data_header. by rewrite !length_app, !length_to_le_bytes. Qed.
Lemma length_write_coding_header h : length (write_coding_header h) = 6%nat.
Proof. unfold write_coding_header. by rewrite !length_app, !length_to_le_bytes. Qed.

(** Nodes of 20 bytes are found again where they are written. *)
Lemma proof_nodes_concat pre proof post : Forall node_wf proof →
  proof_nodes (pre ++ concat proof ++ post) (length pre) (length proof) = proof.
Proof.
  intros Hp. unfold proof_nodes, MERKLE_PROOF_NODE_BYTES. revert pre. induction Hp as [|node proof [Hn _] _ IH]; intros pre; [done|].
  cbn [length seq fmap list_fmap concat]. rewrite Nat.mul_0_l, Nat.add_0_r, <- (assoc_L (++) node). f_equal.
  - unfold MERKLE_PROOF_NODE_BYTES in Hn. rewrite <- Hn. apply bytes_at_app.
  - rewrite <- (fmap_S_seq 0 (length proof)), <- list_fmap_compose. specialize (IH (pre ++ node)).
    rewrite <- (assoc_L (++) pre), length_app in IH. unfold MERKLE_PROOF_NODE_BYTES in Hn. rewrite Hn in IH.
    etransitivity; [|exact IH]. apply list_fmap_ext. intros _ i _. cbn [compose]. f_equal. lia.
Qed.

(** A Merkle shred that is full: its bytes, and what is found in them. *)
Lemma merkle_serialized s proof target (is_data : bool) (n := (83 + length (write_variant_header (shred_variant s)))%nat) :
  shred_wf s → is_resigned s = false → proof_wf (ch_variant (shred_common s)) proof →
  (if is_data then target = SHRED_MIN_SIZE else target = SHRED_SIZE) →
  (n + length (shred_payload s) + length proof * 20 = target)%nat →
  let data := pad_to (target - length proof * MERKLE_PROOF_NODE_BYTES)
    (write_common_header (shred_common s) ++ write_variant_header (shred_variant s) ++ shred_payload s) ++ concat proof in
  data = write_common_header (shred_common s) ++ write_variant_header (shred_variant s) ++ shred_payload s ++ concat proof
  ∧ length data = target
  ∧ extract_merkle_proof (ch_variant (shred_common s)) data is_data = Done (Ok proof)
  ∧ bytes_at data n (length data - tail_sz (ch_variant (shred_common s)) - n) = shred_payload s.
Proof.
  intros Hwf Hr [Hlen Hnodes] Htarget Hfill data. unfold MERKLE_PROOF_NODE_BYTES in *.
  assert (Hc : length (concat proof) = (length proof * 20)%nat).
  { clear -Hnodes. induction Hnodes as [|node proof [Hn _] _ IH]; [done|]. unfold MERKLE_PROOF_NODE_BYTES in Hn.
    cbn [concat length]. rewrite length_app. lia. }
  set (buf := write_common_header _ ++ _ ++ _) in data.
  assert (Hbuf : length buf = (n + length (shred_payload s))%nat).
  { unfold buf, n. rewrite !length_app, length_common_header by done. lia. }
  assert (Ed : data = buf ++ concat proof) by (unfold data; rewrite pad_full by lia; done).
  assert (Hl : length data = target) by (rewrite Ed, length_app; lia).
  assert (Ht : tail_sz (ch_variant (shred_common s)) = (length proof * 20)%nat).
  { unfold tail_sz, resign_sz, merkle_sz, MERKLE_PROOF_NODE_BYTES. unfold is_resigned in Hr. rewrite Hr. lia. }
  split; [rewrite Ed; unfold buf; by rewrite <- !(assoc_L (++))|]. split; [done|].
  assert (Hse : shred_end is_data data = target) by (unfold shred_end; destruct is_data; lia). split.
  - rewrite extract_merkle_proof_eq by lia. rewrite Hse, Ht, <- Hlen. do 2 f_equal. rewrite Ed.
    replace (target - length proof * 20)%nat with (length buf) by lia.
    rewrite <- (app_nil_r (concat proof)). by apply proof_nodes_concat.
  - rewrite Ht, Hl, Ed. unfold buf. rewrite (assoc_L (++) (write_common_header _)), <- (assoc_L (++) _ (shred_payload s)).
    apply (bytes_at_mid _ (write_common_header (shred_common s) ++ write_variant_header (shred_variant s)) (shred_payload s) (concat proof));
      [done| |lia]. rewrite length_app, length_common_header by done. done.
Qed.

Section parse_serialized.
Context (s : Shred) (Hwf : shred_wf s).
Definition layout (data : list Z) : Prop :=
  ∃ rest, data = write_common_header (shred_common s) ++ write_variant_header (shred_variant s) ++ rest.

Lemma layout_variant data : layout data → variant_byte_of data = ch_variant (shred_common s).
Proof. intros [rest ->]. unfold variant_byte_of. by rewrite <- (common_of_serialized s Hwf rest) at 2. Qed.

Lemma layout_parse data n : layout data → (88 <= length data)%nat → accepts data (shred_variant s) n →
  payload_of data n = shred_payload s →
  ShredParser_parse data = Done (Ok (mkShred (shred_common s) (shred_variant s) (shred_payload s) (Some data))).
Proof.
  intros [rest Ed] Hl Ha Hp. rewrite (parse_accepts data _ n Hl Ha). unfold parsed_shred.
  by rewrite Hp, Ed, common_of_serialized.
Qed.

Lemma layout_data data h : layout data → write_variant_header (shred_variant s) = write_data_header h → data_header_wf h →
  data_header_of data = h ∧ dh_size (data_header_of data) <= DATA_SHRED_PAYLOAD_SIZE.
Proof. intros [rest ->] E Hh. rewrite (data_header_of_serialized s Hwf rest h E Hh). split; [done|apply Hh]. Qed.
Lemma layout_coding data h : layout data → write_variant_header (shred_variant s) = write_coding_header h → coding_header_wf h →
  coding_header_of data = h ∧ cd_num_data_shreds (coding_header_of data) <= MAX_FEC_SHREDS
  ∧ cd_num_coding_shreds (coding_header_of data) <= MAX_FEC_SHREDS.
Proof. intros [rest ->] E Hh. rewrite (coding_header_of_serialized s Hwf rest h E Hh). split; [done|]. split; apply Hh. Qed.

Lemma parse_legacy_serialized : is_legacy_type (shred_type (ch_variant (shred_common s))) = true →
  ShredParser_parse (ShredParser_serialize s)
  = Done (Ok (mkShred (shred_common s) (shred_variant s) (shred_payload s) (Some (ShredParser_serialize s)))).
Proof.
  intros El. pose proof (sw_variant _ Hwf) as Hv. unfold ShredParser_serialize. pose proof (length_common_header s Hwf) as Hlc.
  destruct (shred_variant s) as [h|h|h proof|h proof] eqn:Ev; cbn [variant_wf] in Hv;
    destruct_and?; try congruence; rewrite <- Ev;
    set (data := write_common_header _ ++ _); assert (Hlay : layout data) by (by exists (shred_payload s));
    pose proof (layout_variant data Hlay) as Hvb;
    assert (Hpay : payload_of data (length (write_common_header (shred_common s) ++ write_variant_header (shred_variant s)))
                   = shred_payload s)
      by (unfold payload_of; rewrite Hvb, El; unfold data; by rewrite (assoc_L (++)), drop_app_length).
  - assert (Hlen : length (write_variant_header (shred_variant s)) = 5%nat) by (rewrite Ev; apply length_write_data_header).
    rewrite length_app, Hlc, Hlen in Hpay. destruct (layout_data data h) as [Eh Hsz]; [done|by rewrite Ev|done|].
    apply (layout_parse data 88); [done|unfold data; rewrite !length_app; lia| |done].
    rewrite Ev, <- Eh. constructor; rewrite ?Hvb; done.
  - assert (Hlen : length (write_variant_header (shred_variant s)) = 6%nat) by (rewrite Ev; apply length_write_coding_header).
    rewrite length_app, Hlc, Hlen in Hpay. destruct (layout_coding data h) as (Eh & Hn1 & Hn2); [done|by rewrite Ev|done|].
    apply (layout_parse data 89); [done|unfold data; rewrite !length_app; lia| |done].
    rewrite Ev, <- Eh. constructor; rewrite ?Hvb; try done. unfold data. rewrite !length_app. lia.
Qed.

Lemma parse_merkle_serialized : is_legacy_type (shred_type (ch_variant (shred_common s))) = false →
  is_resigned s = false → fills s →
  ShredParser_parse (ShredParser_serialize s)
  = Done (Ok (mkShred (shred_common s) (shred_variant s) (shred_payload s) (Some (ShredParser_serialize s)))).
Proof.
  intros El Hr Hf. pose proof (sw_variant _ Hwf) as Hv. unfold ShredParser_serialize, fills in *.
  destruct (shred_variant s) as [h|h|h proof|h proof] eqn:Ev; cbn [variant_wf] in Hv; destruct_and?; try congruence.
  - assert (Hlen : length (write_variant_header (shred_variant s)) = 5%nat) by (rewrite Ev; apply length_write_data_header).
    destruct (merkle_serialized s proof SHRED_MIN_SIZE true) as (Ed & Hl & Ex & Hp); try done; [rewrite Hlen; unfold SHRED_MIN_SIZE; lia|].
    rewrite <- Ev. set (data := pad_to _ _ ++ _) in *. assert (Hlay : layout data) by (by exists (shred_payload s ++ concat proof)).
    pose proof (layout_variant data Hlay) as Hvb. destruct (layout_data data h) as [Eh Hsz]; [done|by rewrite Ev|done|].
    rewrite Hlen in Hp. apply (layout_parse data 88); [done|rewrite Hl; unfold SHRED_MIN_SIZE; lia| |].
    + rewrite Ev, <- Eh. constructor; rewrite ?Hvb; done.
    + unfold payload_of. by rewrite Hvb, El.
  - assert (Hlen : length (write_variant_header (shred_variant s)) = 6%nat) by (rewrite Ev; apply length_write_coding_header).
    destruct (merkle_serialized s proof SHRED_SIZE false) as (Ed & Hl & Ex & Hp); try done; [rewrite Hlen; unfold SHRED_SIZE; lia|].
    rewrite <- Ev. set (data := pad_to _ _ ++ _) in *. assert (Hlay : layout data) by (by exists (shred_payload s ++ concat proof)).
    pose proof (layout_variant data Hlay) as Hvb. destruct (layout_coding data h) as (Eh & Hn1 & Hn2); [done|by rewrite Ev|done|].
    rewrite Hlen in Hp. apply (layout_parse data 89); [done|rewrite Hl; unfold SHRED_SIZE; lia| |].
    + rewrite Ev, <- Eh. constructor; rewrite ?Hvb; try done. rewrite Hl. unfold SHRED_SIZE. lia.
    + unfold payload_of. by rewrite Hvb, El.
Qed.
End parse_serialized.

(** C33. The network format.  The parser returns on every buffer of bytes; what it accepts is a
    well-formed shred that keeps the buffer.  Serializing an accepted shred gives the buffer
    back, and parsing a serialized well-formed shred gives the shred back, for legacy shreds
    and for the Merkle shreds that are full and not signed again by a retransmitter. *)
Theorem shred_wire_roundtrip :
  (∀ data, Forall is_byte data →
     ∃ r, ShredParser_parse data = Done r ∧
       ∀ s, r = Ok s → shred_wf s ∧ shred_raw s = Some data ∧
         (is_resigned s = false → fills s → ShredParser_serialize s = data)) ∧
  (∀ s, shred_wf s → is_resigned s = false → fills s →
     ShredParser_parse (ShredParser_serialize s)
     = Done (Ok (mkShred (shred_common s) (shred_variant s) (shred_payload s) (Some (ShredParser_serialize s))))).
Proof.
  split.
  - intros data Hb. destruct (parse_spec data) as [[e ->]|(v & n & -> & Hl & _ & Ha)]; eexists; (split; [done|]).
    { intros s [=]. }
    intros s [= <-]. split; [by apply parsed_wf|]. split; [done|]. intros. by apply serialize_parsed.
  - intros s Hwf Hr Hf. destruct (is_legacy_type (shred_type (ch_variant (shred_common s)))) eqn:El.
    + by apply parse_legacy_serialized.
    + by apply parse_merkle_serialized.
Qed.

(** A Merkle data shred with a proof of one node. *)
Definition sample_shred (vb : Z) (payload : list Z) : Shred :=
  mkShred (mkShredCommonHeader (replicate 64 9) vb 100 5 1 3) (MerkleData (mkDataShredHeader 1 0 256) [replicate 20 7]) payload None.

Lemma sample_wf : shred_wf (sample_shred 0x81 (replicate 1095 4)).
Proof.
  assert (Hb : ∀ n b, 0 <= b <= 9 → Forall is_byte (replicate n b))
      by (intros n b Hb; apply Forall_replicate; unfold is_byte, u8_max; lia).
    split; [split| |apply Hb; lia]; unfold is_u64, is_u32, is_u16, is_byte, u64_max, u32_max, u16_max, u8_max; cbn; try lia.
    - split; [done|apply (Hb 64%nat 9); lia].
    - split_and!; try done. split; [done|]. constructor; [|constructor]. split; [done|]. apply (Hb 20%nat 7). lia.
Qed.

Lemma shred_wire_roundtrip_witness :
  ∃ s, ShredParser_parse (ShredParser_serialize (sample_shred 0x81 (replicate 1095 4))) = Done (Ok s)
    ∧ shred_payload s = replicate 1095 4 ∧ ShredParser_serialize s = ShredParser_serialize (sample_shred 0x81 (replicate 1095 4)).
Proof.
  destruct shred_wire_roundtrip as [Hparse Hser].
  pose proof sample_wf as Hwf.
  eexists. split; [apply Hser; done|]. split; [done|].
  unfold ShredParser_serialize. reflexivity.
Defined.

(** The room for the retransmitter's signature is not written: the proof of a shred that is
    signed again is found in another place. *)
Lemma resigned_proof_lost :
  (r ← ShredParser_parse (ShredParser_serialize (sample_shred 0xB1 (replicate 1031 4)));
   mret (match r with Ok s => match shred_variant s with MerkleData _ p => Some p | _ => None end | Err _ => None end))
  = Done (Some [replicate 20 0]).
Proof. vm_compute. reflexivity. Qed.

(** The four upper nibbles from 0xC on are no shred type, and are taken for Merkle data. *)
Lemma unknown_types_accepted :
  Forall (λ vb, ∃ h p payload raw, ShredParser_parse (ShredParser_serialize (sample_shred vb (replicate 1095 4)))
    = Done (Ok (mkShred (mkShredCommonHeader (replicate 64 9) vb 100 5 1 3) (MerkleData h p) payload raw)))
    [0xC1; 0xD1; 0xE1; 0xF1].
Proof. repeat constructor; eexists _, _, _, _; vm_compute; reflexivity. Qed.

(** ** The codec *)

(** [f] writes [l] at its position and leaves the rest of the buffer alone. *)
Definition writes (f : list Z * nat → Outcome (list Z * nat)) (l : list Z) : Prop :=
  ∀ pre junk, (length l <= length junk)%nat →
    f (pre ++ junk, length pre) = Done (pre ++ l ++ drop (length l) junk, length (pre ++ l)).

Lemma put_writes x : writes (put x) x.
Proof.
  intros pre junk Hl. unfold put. rewrite length_app, (proj2 (Nat.ltb_ge _ _)) by lia.
  by rewrite take_app_length, drop_app_add, length_app.
Qed.
Lemma writes_bind f g l l' : writes f l → writes g l' → writes (λ s, s' ← f s; g s') (l ++ l').
Proof.
  intros Hf Hg pre junk Hl. rewrite length_app in Hl. rewrite Hf, Done_bind by lia. rewrite (assoc_L (++) pre), Hg by (rewrite length_drop; lia).
  rewrite drop_drop, (length_app l l'), <- !(assoc_L (++)). done.
Qed.
Lemma writes_all nodes : writes (λ s, for_each (λ s node, put node s) s nodes) (concat nodes).
Proof.
  induction nodes as [|node nodes IH]; [|exact (writes_bind _ _ _ _ (put_writes node) IH)].
  intros pre junk _. cbn. by rewrite app_nil_r.
Qed.

(** The bytes that [encode] writes. *)
Definition encoded_proof (proof : MerkleProof) : list Z := [Z.of_nat (length proof) mod 2 ^ 8] ++ concat proof.
Definition encoded_variant (v : ShredVariant) : list Z :=
  match v with
  | LegacyData h => [0] ++ write_data_header h
  | LegacyCoding h => [1] ++ write_coding_header h
  | MerkleData h proof => [2] ++ write_data_header h ++ encoded_proof proof
  | MerkleCoding h proof => [3] ++ write_coding_header h ++ encoded_proof proof
  end.
Definition encoded_payload (payload : list Z) : list Z :=
  let payload_len := (length payload `min` SHRED_MAX_PAYLOAD)%nat in
  to_le_bytes 4 (Z.of_nat payload_len) ++ take payload_len payload.
Definition encoded (sh : Shred) : list Z :=
  let h := shred_common sh in
  ch_signature h ++ [ch_variant h] ++ to_le_bytes 8 (ch_slot h) ++ to_le_bytes 4 (ch_index h) ++ to_le_bytes 2 (ch_version h)
  ++ to_le_bytes 4 (ch_fec_set_index h) ++ encoded_variant (shred_variant sh) ++ encoded_payload (shred_payload sh).

Lemma encode_data_header_writes h : writes (encode_data_header h) (write_data_header h).
Proof. apply writes_bind; [apply put_writes|]. apply writes_bind; apply put_writes. Qed.
Lemma encode_coding_header_writes h : writes (encode_coding_header h) (write_coding_header h).
Proof. apply writes_bind; [apply put_writes|]. apply writes_bind; apply put_writes. Qed.
Lemma encode_merkle_proof_writes proof : writes (encode_merkle_proof proof) (encoded_proof proof).
Proof. apply writes_bind; [apply put_writes|apply writes_all]. Qed.

Lemma encode_variant_writes v : writes (encode_variant v) (encoded_variant v).
Proof.
  destruct v; cbn [encode_variant encoded_variant]; (apply writes_bind; [apply put_writes|]);
    eauto using writes_bind, encode_data_header_writes, encode_coding_header_writes, encode_merkle_proof_writes.
Qed.
Lemma encode_from_writes sh : writes (encode_from sh) (encoded sh).
Proof.
  unfold encode_from, encoded. repeat (apply writes_bind; [apply put_writes || apply encode_variant_writes|]). 
  apply put_writes.
Qed.
Lemma Shred_encode_eq sh buf : (length (encoded sh) <= length buf)%nat →
  Shred_encode sh buf = Done (encoded sh ++ drop (length (encoded sh)) buf, length (encoded sh)).
Proof. intros Hl. apply (encode_from_writes sh [] buf Hl). Qed.

(** [d] reads [l] as [a]. *)
Definition gets {A} (d : Decoder A) (l : list Z) (a : A) : Prop :=
  ∀ pre post, d (pre ++ l ++ post) (length pre) = Done (a, length (pre ++ l)).

Lemma gets_ret {A} (a : A) : gets (mret a) [] a.
Proof. intros pre post. by rewrite app_nil_r. Qed.
Lemma gets_bind {A B} (d : Decoder A) (k : A → Decoder B) l l' a b : gets d l a → gets (k a) l' b → gets (d ≫= k) (l ++ l') b.
Proof.
  intros Hd Hk pre post. unfold mbind, Decoder_bind. rewrite <- (assoc_L (++)), Hd. specialize (Hk (pre ++ l) post).
  rewrite <- !(assoc_L (++)) in Hk. exact Hk.
Qed.
Lemma gets_bytes x n : length x = n → gets (get n) x x.
Proof.
  intros <- pre post. unfold get. rewrite read_bytes_app. by rewrite length_app.
Qed.
Lemma gets_le n z : 0 <= z < 256 ^ Z.of_nat n → gets (get_le n) (to_le_bytes n z) z.
Proof.
  intros Hz. unfold get_le. rewrite <- (app_nil_r (to_le_bytes n z)). eapply gets_bind; [apply gets_bytes, length_to_le_bytes|].
  rewrite from_to_le_bytes by done. apply gets_ret.
Qed.
Lemma gets_u8 b : is_byte b → gets (get_le 1) [b] b.
Proof.
  intros Hb. unfold is_byte, u8_max in Hb. pose proof (gets_le 1 b) as H. cbn [to_le_bytes] in H. rewrite Z.mod_small in H by lia. apply H. cbn. lia.
Qed.
Lemma gets_times n (proof : MerkleProof) : length proof = n → Forall node_wf proof →
  gets (get_times n (get MERKLE_PROOF_NODE_BYTES)) (concat proof) proof.
Proof.
  intros <-. induction 1 as [|node proof [Hn _] _ IH]; [apply gets_ret|]. cbn [length get_times concat].
  eapply gets_bind; [by apply gets_bytes|]. rewrite <- (app_nil_r (concat proof)). eapply gets_bind; [exact IH|]. apply gets_ret.
Qed.

Lemma decode_data_header_gets h : data_header_wf h → gets decode_data_header (write_data_header h) h.
Proof.
  intros (Hp & Hf & Hs). unfold is_u16, u16_max, DATA_SHRED_PAYLOAD_SIZE in *. unfold decode_data_header, write_data_header.
  eapply gets_bind; [apply gets_le; cbn; lia|]. eapply gets_bind; [by apply gets_u8|].
  rewrite <- (app_nil_r (to_le_bytes 2 (dh_size h))). eapply gets_bind; [apply gets_le; cbn; lia|]. destruct h. apply gets_ret.
Qed.
Lemma decode_coding_header_gets h : coding_header_wf h → gets decode_coding_header (write_coding_header h) h.
Proof.
  intros (Hd & Hc & Hp). unfold is_u16, u16_max, MAX_FEC_SHREDS in *. unfold decode_coding_header, write_coding_header.
  eapply gets_bind; [apply gets_le; cbn; lia|]. eapply gets_bind; [apply gets_le; cbn; lia|].
  rewrite <- (app_nil_r (to_le_bytes 2 (cd_position h))). eapply gets_bind; [apply gets_le; cbn; lia|]. destruct h. apply gets_ret.
Qed.
Lemma decode_merkle_proof_gets vb proof : proof_wf vb proof → gets decode_merkle_proof (encoded_proof proof) proof.
Proof.
  intros [Hl Hn]. pose proof (proof_count_max vb) as Hm. unfold MERKLE_MAX_PROOF_DEPTH in Hm. unfold decode_merkle_proof, encoded_proof.
  rewrite Z.mod_small by lia. eapply gets_bind; [apply gets_u8; unfold is_byte, u8_max; lia|]. apply gets_times; [lia|done].
Qed.
Lemma decode_variant_gets vb v : variant_wf vb v → gets decode_variant (encoded_variant v) v.
Proof.
  intros Hv. unfold decode_variant. destruct v as [h|h|h proof|h proof]; cbn [variant_wf encoded_variant] in *; destruct_and!;
    (eapply gets_bind; [apply gets_u8; unfold is_byte, u8_max; lia|]); cbn [Z.eqb Pos.eqb].
  - rewrite <- (app_nil_r (write_data_header h)). eapply gets_bind; [by apply decode_data_header_gets|]. apply gets_ret.
  - rewrite <- (app_nil_r (write_coding_header h)). eapply gets_bind; [by apply decode_coding_header_gets|]. apply gets_ret.
  - eapply gets_bind; [by apply decode_data_header_gets|]. rewrite <- (app_nil_r (encoded_proof proof)).
    eapply gets_bind; [by eapply decode_merkle_proof_gets|]. apply gets_ret.
  - eapply gets_bind; [by apply decode_coding_header_gets|]. rewrite <- (app_nil_r (encoded_proof proof)).
    eapply gets_bind; [by eapply decode_merkle_proof_gets|]. apply gets_ret.
Qed.

Lemma length_encoded sh : shred_wf sh → (length (encoded sh) <= Shred_max_encoded_size)%nat.
Proof.
  intros Hwf. pose proof (sw_variant _ Hwf) as Hv. pose proof (proj1 (cw_signature _ (sw_common _ Hwf))) as Hsig.
  pose proof (proof_count_max (ch_variant (shred_common sh))) as Hm.
  unfold encoded, encoded_payload, Shred_max_encoded_size, SHRED_COMMON_HEADER_SIZE, SHRED_MAX_VARIANT, MERKLE_MAX_PROOF_DEPTH,
    MERKLE_PROOF_NODE_BYTES in *.
  rewrite !length_app, !length_to_le_bytes, Hsig, length_take. 
  assert (Hc : ∀ proof, Forall node_wf proof → length (concat proof) = (length proof * 20)%nat).
  { induction 1 as [|node proof [Hn _] _ IH]; [done|]. cbn [concat length]. rewrite length_app, Hn, IH. unfold MERKLE_PROOF_NODE_BYTES. lia. }
  cut (length (encoded_variant (shred_variant sh)) <= 308)%nat; [cbn [length]; lia|].
  destruct (shred_variant sh) as [h|h|h proof|h proof]; cbn [variant_wf encoded_variant] in *; unfold proof_wf in Hv; destruct_and!;
    unfold encoded_proof; rewrite ?length_app, ?length_write_data_header, ?length_write_coding_header, ?Hc by done; cbn [length]; lia.
Qed.

(** A shred as it comes out of a link: without its network bytes, its payload cut at 1280. *)
Definition over_link (sh : Shred) : Shred :=
  mkShred (shred_common sh) (shred_variant sh) (take SHRED_MAX_PAYLOAD (shred_payload sh)) None.

Lemma decode_encoded sh post : shred_wf sh → Shred_decode (encoded sh ++ post) = Done (over_link sh).
Proof.
  intros Hwf. pose proof (sw_common _ Hwf) as [[Hsig _] Hv Hslot Hidx Hver Hfec].
  unfold is_u64, is_u32, is_u16, u64_max, u32_max, u16_max in *. unfold Shred_decode.
  match goal with |- ?d _ _ ≫= _ = _ => assert (Hg : gets d (encoded sh) (over_link sh)) end.
  { unfold encoded. eapply gets_bind; [by apply gets_bytes|]. eapply gets_bind; [by apply gets_u8|].
    do 4 (eapply gets_bind; [apply gets_le; cbn; lia|]).
    eapply gets_bind; [by eapply decode_variant_gets, sw_variant|]. unfold encoded_payload.
    set (n := (length (shred_payload sh) `min` SHRED_MAX_PAYLOAD)%nat). assert (n <= 1280)%nat by (unfold n, SHRED_MAX_PAYLOAD; lia).
    eapply gets_bind; [apply gets_le; cbn; lia|]. rewrite <- (app_nil_r (take n _)).
    eapply gets_bind; [apply gets_bytes; rewrite length_take; lia|].
    assert (Et : take n (shred_payload sh) = take SHRED_MAX_PAYLOAD (shred_payload sh)).
    { unfold n. destruct (Nat.le_gt_cases (length (shred_payload sh)) SHRED_MAX_PAYLOAD).
      - rewrite Nat.min_l, !firstn_all2 by lia. done.
      - by rewrite Nat.min_r by lia. }
    rewrite Et. unfold over_link. destruct (shred_common sh). apply gets_ret. }
  pose proof (Hg [] post) as E. cbn [app length] in E. by rewrite E.
Qed.

(** The codec of a shred keeps its contract: a well-formed shred encodes into any buffer of
    the maximal size without a panic, in at most that many bytes, and decoding the bytes
    written gives the shred back, except for a payload longer than 1280 bytes, which is cut,
    and the network bytes, which are dropped. *)
Lemma shred_codec_roundtrip sh buf :
  shred_wf sh → (Shred_max_encoded_size <= length buf)%nat →
  ∃ buf' n, Shred_encode sh buf = Done (buf', n) ∧ (n <= Shred_max_encoded_size)%nat ∧ length buf' = length buf ∧
    Shred_decode (take n buf') = Done (over_link sh).
Proof.
  intros Hwf Hl. pose proof (length_encoded sh Hwf) as Hle. eexists _, _. split; [apply Shred_encode_eq; lia|].
  split; [done|]. split; [rewrite length_app, length_drop; lia|]. rewrite take_app_length.
  rewrite <- (app_nil_r (encoded sh)). by apply decode_encoded.
Qed.
