(* ===== verification/ShredVerifier.v ===== *)
(** * Verification of shreds

    Model of [src/crates/karstflow-stages/src/shred_verifier.rs], over the trees of
    [MerkleTree] and the parser of [Shreds].  The leader of a slot signs the root of a tree
    whose leaves are the shreds of a set; a shred carries the signature and its proof.

    Ed25519 is third-party code behind [verify_signature]
    ([src/crates/karstflow-crypto/src/ed25519_batch.rs]): a parameter. *)
From stdpp Require Import base tactics numbers list strings.
From Stdlib Require Import ZArith Lia.
From S2P Require Import Prelude MerkleTree Shreds.
Local Open Scope Z_scope.

(** [ed25519_dalek]: the keys that decode, and the signatures that verify. *)
Class Ed25519 := {
  key_decodes : list Z → bool;
  signature_verifies : list Z → list Z → list Z → bool;
}.

Inductive VerificationResult := Success | Failed.

Definition verify_signature `{Ed25519} (public_key message signature : list Z) : result VerificationResult () :=
  if key_decodes public_key
  then Ok (if signature_verifies public_key message signature then Success else Failed)
  else Err ().

Inductive ShredVerifyResult := Valid | Invalid | ZeroSignature | Deferred | UnknownLeader | LegacyRejected.

Definition DATA_MERKLE_PROTECTED_BASE : nat := 1139.
Definition CODE_MERKLE_PROTECTED_BASE : nat := 1164.
Definition MERKLE_LEAF_PREFIX : list Z := 0 :: literal "SOLANA_MERKLE_SHREDS_LEAF".
Definition MERKLE_NODE_PREFIX : list Z := 1 :: literal "SOLANA_MERKLE_SHREDS_NODE".

Definition is_zero_signature (signature : list Z) : bool := forallb (λ b, b =? 0) signature.

Definition merkle_protected_sz (variant_byte : Z) : nat :=
  let ty := shred_type variant_byte in
  let is_data := negb (Z.land ty SHRED_TYPE_MERKLE_DATA =? 0) in
  let is_resigned := (ty =? SHRED_TYPE_MERKLE_DATA_CHAINED_RESIGNED) || (ty =? SHRED_TYPE_MERKLE_CODE_CHAINED_RESIGNED) in
  let proof_depth := Z.to_nat (Z.land variant_byte 0x0F) in
  let resign_penalty := if is_resigned then SHRED_SIGNATURE_BYTES else 0%nat in
  let base := if is_data then DATA_MERKLE_PROTECTED_BASE else CODE_MERKLE_PROTECTED_BASE in
  (base - (MERKLE_PROOF_NODE_BYTES * proof_depth + resign_penalty))%nat.

Section verifier.
Context `{Sha256, Ed25519}.

Definition merkle_leaf_hash (raw : list Z) (protected_sz : nat) : Outcome (list Z) :=
  let start := SHRED_SIGNATURE_BYTES in
  let stop := ((start + protected_sz) `min` length raw)%nat in
  bytes ← range_of raw start stop;
  mret (hash_chunks [MERKLE_LEAF_PREFIX; bytes]).

Definition merkle_merge (left right : list Z) : list Z :=
  hash_chunks [MERKLE_NODE_PREFIX; take MERKLE_PROOF_NODE_BYTES left; take MERKLE_PROOF_NODE_BYTES right].

(** One turn of the loop of [merkle_root_from_proof]. *)
Definition merkle_walk_step (s : list Z * Z) (turn : Z * list Z) : list Z * Z :=
  let '(current, inc_idx) := s in
  let '(layer, sibling_bytes) := turn in
  let sibling := sibling_bytes ++ replicate (32 - MERKLE_PROOF_NODE_BYTES) 0 in
  let is_left := Z.land inc_idx (Z.shiftl 1 (layer + 1)) =? 0 in
  let mask := u64_sub (Z.shiftl 2 layer) 1 in
  (if is_left then merkle_merge current sibling else merkle_merge sibling current,
   Z.lor (Z.land inc_idx (Z.lnot (u64_sub (wrap64 (Z.shiftl 2 (layer + 1))) 1))) mask).

Definition merkle_root_from_proof (leaf : list Z) (proof_nodes : MerkleProof) (leaf_idx : Z) : list Z :=
  (foldl merkle_walk_step (leaf, wrap64 (leaf_idx * 2)) (enumerate proof_nodes)).1.

Definition merkle_leaf_index (s : Shred) : option Z :=
  if Shred_is_data s
  then Some (u64_saturating_sub (ch_index (shred_common s)) (ch_fec_set_index (shred_common s)))
  else
    coding ← Shred_coding_header s;
    Some (cd_num_data_shreds coding + cd_position coding).

Definition proof_of_variant (v : ShredVariant) : option MerkleProof :=
  match v with MerkleData _ p | MerkleCoding _ p => Some p | _ => None end.

Definition verify_merkle_shred (s : Shred) (raw leader_pubkey : list Z) : Outcome ShredVerifyResult :=
  let variant_byte := default 0 (raw !! SHRED_SIGNATURE_BYTES) in
  let protected_sz := merkle_protected_sz variant_byte in
  if (length raw <? SHRED_SIGNATURE_BYTES + protected_sz)%nat then mret Invalid
  else
    leaf ← merkle_leaf_hash raw protected_sz;
    match proof_of_variant (shred_variant s) with
    | None => mret Invalid
    | Some proof =>
        match merkle_leaf_index s with
        | None => mret Invalid
        | Some leaf_idx =>
            let root := merkle_root_from_proof leaf proof leaf_idx in
            mret (match verify_signature leader_pubkey root (ch_signature (shred_common s)) with
                  | Ok Success => Valid
                  | Ok Failed => Invalid
                  | Err _ => Invalid
                  end)
        end
    end.

Definition verify_shred (s : Shred) (leader_pubkey : list Z) : Outcome ShredVerifyResult :=
  if is_zero_signature (ch_signature (shred_common s)) then mret ZeroSignature
  else
    match shred_variant s with
    | LegacyData _ | LegacyCoding _ => mret LegacyRejected
    | MerkleData _ _ | MerkleCoding _ _ =>
        match shred_raw s with
        | Some raw => verify_merkle_shred s raw leader_pubkey
        | None => mret Deferred
        end
    end.
End verifier.

(** ** Regions of a Merkle shred *)

Lemma protected_and_tail vb :
  (64 + merkle_protected_sz vb + tail_sz vb = if is_data_type (shred_type vb) then SHRED_MIN_SIZE else SHRED_SIZE)%nat
  ∧ (775 <= merkle_protected_sz vb)%nat.
Proof.
  pose proof (proof_count_max vb) as Hm. unfold merkle_protected_sz, tail_sz, merkle_sz, resign_sz. fold (is_data_type (shred_type vb)).
  fold (is_resigned_type (shred_type vb)). change (Z.to_nat (Z.land vb 15)) with (proof_count_of vb).
  unfold MERKLE_MAX_PROOF_DEPTH, MERKLE_PROOF_NODE_BYTES, SHRED_SIGNATURE_BYTES, DATA_MERKLE_PROTECTED_BASE, CODE_MERKLE_PROTECTED_BASE,
    SHRED_MIN_SIZE, SHRED_SIZE in *.
  destruct (is_data_type _), (is_resigned_type _); lia.
Qed.

Lemma variant_byte_lookup raw : (65 <= length raw)%nat → default 0 (raw !! SHRED_SIGNATURE_BYTES) = variant_byte_of raw.
Proof.
  intros Hl. unfold variant_byte_of, field, bytes_at. destruct (lookup_lt_is_Some_2 raw 64%nat) as [b Hb]; [lia|].
  rewrite (drop_S _ _ _ Hb). unfold SHRED_SIGNATURE_BYTES. rewrite Hb. change (b = b + 256 * 0). lia.
Qed.

Lemma is_node_pad node : length node = MERKLE_PROOF_NODE_BYTES → is_node (node ++ replicate (32 - MERKLE_PROOF_NODE_BYTES) 0).
Proof. unfold is_node, MERKLE_PROOF_NODE_BYTES. intros Hn. rewrite length_app, Hn, length_replicate. done. Qed.

Section roots.
Context `{Sha256}.
Abbreviation C := SHRED_CONFIG.
Definition pad_node (node : list Z) : list Z := node ++ replicate (32 - MERKLE_PROOF_NODE_BYTES) 0.

Lemma shred_config_ok : (hash_sz C <= 32)%nat.
Proof. cbn. lia. Qed.

Lemma merge_nodes_shred l r : is_node l → is_node r → merge_nodes C l r = Done (merkle_merge l r).
Proof. unfold is_node, merge_nodes, prefix_of. intros -> ->. done. Qed.

Lemma merkle_merge_node l r : is_node (merkle_merge l r).
Proof. apply digest_node. Qed.

Lemma merkle_walk_agrees nodes : ∀ s, is_node s.1 → Forall (λ x : Z * list Z, length x.2 = MERKLE_PROOF_NODE_BYTES) nodes →
  for_each (shred_walk_step C) s (prod_map id pad_node <$> nodes) = Done (foldl merkle_walk_step s nodes).
Proof.
  induction nodes as [|[layer node] nodes IH]; intros [current inc] Hs Hn; [done|]. apply Forall_cons in Hn as [Hx Hn].
  rewrite fmap_cons. cbn [for_each foldl]. cbn [fst snd] in Hs, Hx.
  assert (E : shred_walk_step C (current, inc) (prod_map id pad_node (layer, node)) = Done (merkle_walk_step (current, inc) (layer, node))).
  { unfold shred_walk_step, merkle_walk_step, prod_map, id. cbn [fst snd]. fold (pad_node node). pose proof (is_node_pad node Hx) as Hp. fold (pad_node node) in Hp.
    destruct (_ =? 0); by rewrite merge_nodes_shred. }
  rewrite E, Done_bind. apply IH; [|done]. unfold merkle_walk_step. cbn [fst]. case_match; apply merkle_merge_node.
Qed.

Lemma merkle_root_eq leaf nodes idx : is_node leaf → Forall (λ x, length x = MERKLE_PROOF_NODE_BYTES) nodes →
  (length nodes <= 63)%nat → 0 <= idx < 2 ^ 63 →
  merkle_root_from_proof leaf nodes idx = walk C leaf idx (pad_node <$> nodes).
Proof.
  intros Hl Hn Hlen Hidx.
  assert (Hnodes : Forall is_node (pad_node <$> nodes)).
  { apply Forall_fmap. eapply Forall_impl; [exact Hn|]. intros x Hx. by apply is_node_pad. }
  pose proof (root_from_proof_shred_eq C shred_config_ok leaf idx (pad_node <$> nodes) Hidx Hl Hnodes) as E.
  rewrite length_fmap in E. specialize (E ltac:(unfold MAX_DEPTH; lia)).
  unfold root_from_proof_shred in E. rewrite length_fmap, (proj2 (Nat.ltb_ge _ _)) in E by (unfold MAX_DEPTH; lia).
  assert (Een : enumerate (pad_node <$> nodes) = prod_map id pad_node <$> enumerate nodes).
  { unfold enumerate. rewrite imap_fmap, fmap_imap. done. }
  rewrite Een, merkle_walk_agrees in E; [|done|].
  - rewrite Done_bind in E. by injection E as E.
  - apply Forall_lookup_2. intros i [k x] Hi. unfold enumerate in Hi. rewrite list_lookup_imap in Hi.
    destruct (nodes !! i) as [x'|] eqn:Ex; [|done]. cbn in Hi. injection Hi as <- <-. cbn.
    exact (Forall_lookup_1 _ _ _ _ Hn Ex).
Qed.

(** Only the first 20 bytes of a sibling matter. *)
Lemma walk_truncated proof : ∀ current idx, Forall is_node proof →
  walk C current idx (pad_node <$> (take MERKLE_PROOF_NODE_BYTES <$> proof)) = walk C current idx proof.
Proof.
  induction proof as [|node proof IH]; intros current idx Hp; [done|]. apply Forall_cons in Hp as [Hn Hp].
  cbn [fmap list_fmap walk]. rewrite IH by done. f_equal. f_equal.
  assert (E : take (hash_sz C) (pad_node (take MERKLE_PROOF_NODE_BYTES node)) = take (hash_sz C) node).
  { unfold pad_node, MERKLE_PROOF_NODE_BYTES, is_node in *. cbn [hash_sz SHRED_CONFIG].
    rewrite take_app_le by (rewrite length_take; lia). by rewrite take_take. }
  unfold walk_message, message. by rewrite E.
Qed.
End roots.

(** ** What a valid shred shows *)

Section validity.
Context `{Sha256, Ed25519}.
Abbreviation C := SHRED_CONFIG.

(** The bytes of a shred that its leaf is the hash of. *)
Definition body_of (data : list Z) : list Z := bytes_at data 64 (merkle_protected_sz (variant_byte_of data)).
Definition leaf_of_body (body : list Z) : list Z := hash_leaf C body.
(** The root that a proof derives for a shred. *)
Definition derived_root (data : list Z) (idx : Z) (proof : MerkleProof) : list Z :=
  walk C (leaf_of_body (body_of data)) idx (pad_node <$> proof).

Lemma leaf_index_bound s idx : shred_wf s → merkle_leaf_index s = Some idx → 0 <= idx < 2 ^ 63.
Proof.
  intros Hwf. pose proof (sw_common _ Hwf) as [_ _ _ Hi _ Hf]. pose proof (sw_variant _ Hwf) as Hv.
  unfold merkle_leaf_index, Shred_is_data, Shred_coding_header, is_u32, u32_max, u64_saturating_sub in *.
  destruct (shred_variant s) as [h|h|h p|h p]; cbn [variant_wf] in Hv; try (intros [= <-]; lia);
    unfold coding_header_wf, is_u16, u16_max, MAX_FEC_SHREDS in Hv; destruct_and!; cbn; intros [= <-]; lia.
Qed.

Lemma merkle_leaf_hash_eq data : (64 + merkle_protected_sz (variant_byte_of data) <= length data)%nat →
  merkle_leaf_hash data (merkle_protected_sz (variant_byte_of data)) = Done (leaf_of_body (body_of data)).
Proof.
  intros Hl. unfold merkle_leaf_hash, range_of, SHRED_SIGNATURE_BYTES. rewrite Nat.min_l by done.
  rewrite !(proj2 (Nat.ltb_ge _ _)) by lia. cbn [orb]. rewrite Done_bind. unfold leaf_of_body, hash_leaf, body_of, bytes_at.
  replace (64 + merkle_protected_sz (variant_byte_of data) - 64)%nat with (merkle_protected_sz (variant_byte_of data)) by lia. done.
Qed.

Lemma leaf_of_body_node body : is_node (leaf_of_body body).
Proof. apply digest_node. Qed.

(** The verdict on a Merkle shred that was parsed from [data]. *)
Lemma verify_merkle_eq data v n proof pk :
  Forall is_byte data → (88 <= length data)%nat → accepts data v n → proof_of_variant v = Some proof →
  (64 + merkle_protected_sz (variant_byte_of data) <= length data)%nat →
  ∃ idx, merkle_leaf_index (parsed_shred data v n) = Some idx ∧ 0 <= idx < 2 ^ 63 ∧
    verify_merkle_shred (parsed_shred data v n) data pk
    = Done (match verify_signature pk (derived_root data idx proof) (bytes_at data 0 64) with Ok Success => Valid | _ => Invalid end).
Proof.
  intros Hb Hl Ha Hp Hpl. pose proof (parsed_wf data v n Hb Hl Ha) as Hwf.
  assert (Hidx : ∃ idx, merkle_leaf_index (parsed_shred data v n) = Some idx).
  { unfold merkle_leaf_index, Shred_is_data, Shred_coding_header. cbn [shred_variant parsed_shred]. destruct v; by eexists. }
  destruct Hidx as [idx Hidx]. exists idx. split; [done|]. pose proof (leaf_index_bound _ _ Hwf Hidx) as Hib. split; [done|].
  assert (Hpw : proof_wf (variant_byte_of data) proof).
  { pose proof (sw_variant _ Hwf) as Hv. cbn [shred_variant parsed_shred shred_common] in Hv.
    change (ch_variant (common_of data)) with (variant_byte_of data) in Hv.
    destruct v; cbn [proof_of_variant] in Hp; simplify_eq; cbn [variant_wf] in Hv; by destruct_and!. }
  destruct Hpw as [Hpl1 Hpn]. pose proof (proof_count_max (variant_byte_of data)) as Hpm. unfold MERKLE_MAX_PROOF_DEPTH in Hpm.
  unfold verify_merkle_shred. rewrite variant_byte_lookup by lia. rewrite (proj2 (Nat.ltb_ge _ _)) by done.
  rewrite merkle_leaf_hash_eq, Done_bind by done. cbn [shred_variant parsed_shred]. rewrite Hp.
  change (mkShred (common_of data) v (payload_of data n) (Some data)) with (parsed_shred data v n). rewrite Hidx.
  rewrite merkle_root_eq; [|apply leaf_of_body_node|by eapply Forall_impl; [exact Hpn|intros x [? _]]|lia|done].
  cbn [shred_common parsed_shred common_of ch_signature]. fold (derived_root data idx proof).
  by destruct (verify_signature _ _ _) as [[]|].
Qed.

Lemma verify_valid data s pk : Forall is_byte data → ShredParser_parse data = Done (Ok s) → verify_shred s pk = Done Valid →
  ∃ v n proof idx, s = parsed_shred data v n ∧ accepts data v n ∧ proof_of_variant v = Some proof
    ∧ merkle_leaf_index s = Some idx ∧ 0 <= idx
    ∧ verify_signature pk (derived_root data idx proof) (ch_signature (shred_common s)) = Ok Success.
Proof.
  intros Hb Hparse Hv. destruct (parse_spec data) as [[e E]|(v & n & E & Hl & _ & Ha)]; [congruence|].
  rewrite E in Hparse. injection Hparse as <-. unfold verify_shred in Hv. case_match; [done|].
  cbn [shred_variant parsed_shred shred_raw] in Hv.
  destruct (proof_of_variant v) as [proof|] eqn:Hp; [|by destruct v].
  assert (Hv' : verify_merkle_shred (parsed_shred data v n) data pk = Done Valid) by (by destruct v). clear Hv.
  destruct (Nat.le_gt_cases (64 + merkle_protected_sz (variant_byte_of data)) (length data)) as [Hpl|Hpl].
  - destruct (verify_merkle_eq data v n proof pk Hb Hl Ha Hp Hpl) as (idx & Hidx & Hib & Eq).
    exists v, n, proof, idx. split_and!; try done; [lia|]. rewrite Hv' in Eq. cbn [shred_common parsed_shred common_of ch_signature].
    by destruct (verify_signature _ _ _) as [[]|].
  - unfold verify_merkle_shred in Hv'. rewrite variant_byte_lookup, (proj2 (Nat.ltb_lt _ _)) in Hv' by (unfold SHRED_SIGNATURE_BYTES; lia). done.
Qed.

Lemma proof_nodes_sized data v n proof : Forall is_byte data → accepts data v n → proof_of_variant v = Some proof →
  Forall (λ x, length x = MERKLE_PROOF_NODE_BYTES) proof.
Proof.
  intros Hb Ha Hp. assert (Hw : proof_wf (variant_byte_of data) proof).
  { destruct Ha; cbn in Hp; simplify_eq; by eapply extracted_wf. }
  eapply Forall_impl; [apply Hw|]. by intros x [? _].
Qed.

(** What is hashed for a leaf. *)
Definition leaf_message (body : list Z) : list Z := leaf_prefix C ++ body.
Lemma leaf_of_body_eq body : leaf_of_body body = digest (leaf_message body).
Proof. unfold leaf_of_body, hash_leaf, hash_chunks, leaf_message. cbn [concat]. by rewrite app_nil_r. Qed.

(** Two leaves with the same node. *)
Lemma same_leaf body body' : take (hash_sz C) (leaf_of_body body) = take (hash_sz C) (leaf_of_body body') →
  body = body' ∨ collides C (leaf_message body) (leaf_message body').
Proof.
  rewrite !leaf_of_body_eq. intros E. destruct (decide (leaf_message body = leaf_message body')) as [Em|Em]; [left|by right].
  by apply app_inv_head in Em.
Qed.

(** In a buffer of the size of a shred the payload is protected. *)
Lemma payload_in_body data v n proof : accepts data v n → proof_of_variant v = Some proof →
  length data = (if is_data_type (shred_type (variant_byte_of data)) then SHRED_MIN_SIZE else SHRED_SIZE) →
  shred_payload (parsed_shred data v n)
  = drop (if is_data_type (shred_type (variant_byte_of data)) then 24 else 25) (body_of data).
Proof.
  intros Ha Hp Hl. destruct (protected_and_tail (variant_byte_of data)) as [Ht _]. cbn [shred_payload parsed_shred].
  unfold payload_of, body_of, bytes_at.
  destruct Ha as [p Hd _ El _|Hd _ El|p Hd _ _ _ _ El _|Hd _ _ _ _ El]; cbn in Hp; try done; rewrite Hd, El in *;
    rewrite skipn_firstn_comm, drop_drop; f_equal; unfold SHRED_MIN_SIZE, SHRED_SIZE in *; lia.
Qed.
End validity.

(** C11. A verified shred is the leader's.  When the parser and the verifier accept some bytes,
    the signature in them is valid for the root that their proof derives.  The protected bytes
    follow the signature; in a buffer of the size of a shred they hold the payload.  If the
    derived root is the one of a set of shreds, with a tree of the depth of the proof, then the
    protected bytes are those of the shred of the set at the leaf index of the shred; or they
    hash to a zero node in the padding of the tree; or two distinct messages are known with the
    same node as digest.  The verifier does not check that the leaf index fits the tree: the
    leaf is the index modulo the number of leaves, [2 ^ tree_depth]. *)
Theorem verified_shred_authentic `{Sha256, Ed25519} bodies data s pk :
  (1 <= length bodies)%nat → Z.of_nat (length bodies) <= 2 ^ 63 →
  Forall is_byte data → ShredParser_parse data = Done (Ok s) → verify_shred s pk = Done Valid →
  ∃ b root tree idx proof,
    commit_leaves SHRED_CONFIG (leaf_of_body <$> bodies) = Done (b, root) ∧ BmtreeCommit_build_full_tree b = Done tree ∧
    merkle_leaf_index s = Some idx ∧ proof_of_variant (shred_variant s) = Some proof ∧
    verify_signature pk (derived_root data idx proof) (ch_signature (shred_common s)) = Ok Success ∧
    (length data = (if is_data_type (shred_type (variant_byte_of data)) then SHRED_MIN_SIZE else SHRED_SIZE) →
     shred_payload s = drop (if is_data_type (shred_type (variant_byte_of data)) then 24 else 25) (body_of data)) ∧
    (derived_root data idx proof = root → length proof = tree_depth (length bodies) →
       let leaf := Z.to_nat (idx mod 2 ^ Z.of_nat (tree_depth (length bodies))) in
       bodies !! leaf = Some (body_of data)
       ∨ ((length bodies <= leaf)%nat ∧ take 20 (leaf_of_body (body_of data)) = replicate 20 0)
       ∨ ∃ m m', m ∈ leaf_message (body_of data) :: walk_inputs SHRED_CONFIG (leaf_of_body (body_of data)) idx (pad_node <$> proof)
           ∧ m' ∈ (leaf_message <$> bodies) ++ tree_inputs SHRED_CONFIG tree ∧ collides SHRED_CONFIG m m').
Proof.
  intros Hpos Hmax Hb Hparse Hv. destruct (verify_valid data s pk Hb Hparse Hv) as (v & n & proof & idx & -> & Ha & Hp & Hidx & Hge & Hsig).
  assert (Hl : length (leaf_of_body <$> bodies) = length bodies) by apply length_fmap.
  assert (Hnodes : Forall is_node (leaf_of_body <$> bodies)) by (apply Forall_fmap, Forall_true; intros; apply leaf_of_body_node).
  destruct (built_tree SHRED_CONFIG (leaf_of_body <$> bodies) shred_config_ok Hnodes) as (tree & Et & Hm); [by rewrite Hl|].
  eexists _, _, tree, idx, proof. split; [apply commit_leaves_eq; rewrite ?Hl; done || apply shred_config_ok|].
  split; [exact Et|]. split; [done|]. split; [done|]. split; [done|].
  split; [by eapply payload_in_body|]. intros Hroot Hlen leaf.
  pose proof (tree_depth_max _ Hmax) as Hd. subst leaf. rewrite <- Hl in Hlen |- *.
  set (low := idx mod _).
  assert (Hlow : 0 <= low < 2 ^ Z.of_nat (tree_depth (length (leaf_of_body <$> bodies)))) by (apply Z.mod_pos_bound; lia).
  destruct (walk_low_bits SHRED_CONFIG (pad_node <$> proof) (leaf_of_body (body_of data)) idx) as [Hwalk Hinputs].
  rewrite length_fmap, Hlen in Hwalk, Hinputs. fold low in Hwalk, Hinputs. rewrite <- Hinputs.
  set (a := mkAttempt (leaf_of_body (body_of data)) low (pad_node <$> proof)).
  destruct (accepted_leaf SHRED_CONFIG (leaf_of_body <$> bodies) tree a) as [E|(m & m' & Hx & Hx' & Hcol)].
  - apply shred_config_ok.
  - done.
  - split; [apply leaf_of_body_node|]. apply Forall_fmap.
    pose proof (proof_nodes_sized data v n proof Hb Ha Hp) as Hps. eapply Forall_impl; [exact Hps|]. intros x Hx. by apply is_node_pad.
  - exact Hm.
  - cbn [at_proof a]. by rewrite length_fmap.
  - done.
  - apply bool_decide_eq_true. cbn [at_proof at_leaf at_idx a].
    split; [by rewrite length_fmap, Hlen, Hl|]. by rewrite Hwalk, <- Hroot.
  - cbn [at_leaf at_idx a] in E. rewrite list_lookup_fmap in E. destruct (bodies !! Z.to_nat low) as [body|] eqn:Eb; cbn in E.
    + destruct (same_leaf (body_of data) body E) as [->|Hcol]; [by left|right; right].
      exists (leaf_message (body_of data)), (leaf_message body). split_and!; [left|apply elem_of_app; left|done].
      apply list_elem_of_fmap. exists body. split; [done|by eapply list_elem_of_lookup_2].
    + right. left. apply lookup_ge_None in Eb. split; [by rewrite Hl|done].
  - right. right. exists m, m'. split_and!; [by right|apply elem_of_app; by right|done].
Qed.

(** ** The leader's side *)

Section leader.
Context `{Sha256, Ed25519}.

(** The bytes that a shred with this body takes, and the trailer of a retransmitter. *)
Record body_ok (depth : nat) (body trailer : list Z) : Prop := {
  bo_bytes : Forall is_byte body;
  bo_length : length body = merkle_protected_sz (hd 0 body);
  bo_merkle : is_legacy_type (shred_type (hd 0 body)) = false;
  bo_depth : proof_count_of (hd 0 body) = depth;
  bo_trailer : length trailer = resign_sz (hd 0 body) ∧ Forall is_byte trailer;
}.
Definition assemble (signature body : list Z) (proof : list (list Z)) (trailer : list Z) : list Z :=
  signature ++ body ++ concat (take MERKLE_PROOF_NODE_BYTES <$> proof) ++ trailer.

Context (signature body trailer : list Z) (proof : list (list Z)) (depth : nat).
Context (Hsig : length signature = 64%nat) (Hbody : body_ok depth body trailer).
Context (Hproof : Forall (λ x, is_node x ∧ Forall is_byte x) proof) (Hdepth : length proof = depth).
Abbreviation data := (assemble signature body proof trailer).

Lemma nodes_truncated : Forall node_wf (take MERKLE_PROOF_NODE_BYTES <$> proof).
Proof.
  apply Forall_fmap. eapply Forall_impl; [exact Hproof|]. intros x [Hx Hb]. split; [|by apply Forall_take].
  cbn. rewrite length_take, Hx. done.
Qed.
Lemma length_nodes : length (concat (take MERKLE_PROOF_NODE_BYTES <$> proof)) = (depth * 20)%nat.
Proof.
  rewrite <- Hdepth. pose proof nodes_truncated as Hn. clear -Hn. induction proof as [|x l IH]; [done|].
  apply Forall_cons in Hn as [[Hx _] Hn]. cbn [fmap list_fmap concat length] in *. rewrite length_app, Hx, IH by done.
  unfold MERKLE_PROOF_NODE_BYTES. lia.
Qed.

Lemma assembled_variant : variant_byte_of data = hd 0 body.
Proof.
  unfold variant_byte_of, assemble. rewrite field_skip, Hsig by lia. cbn [Nat.sub].
  pose proof (bo_length _ _ _ Hbody) as Hl. pose proof (protected_and_tail (hd 0 body)) as [_ Hp].
  destruct body as [|b rest]; [cbn in *; lia|]. apply (field_u8 b).
Qed.
Lemma assembled_body : body_of data = body.
Proof.
  unfold body_of. rewrite assembled_variant, <- (bo_length _ _ _ Hbody). unfold assemble.
  rewrite bytes_at_skip, Hsig by lia. by apply bytes_at_head.
Qed.
Lemma length_assembled :
  length data = if is_data_type (shred_type (hd 0 body)) then SHRED_MIN_SIZE else SHRED_SIZE.
Proof.
  destruct (protected_and_tail (hd 0 body)) as [<- _]. unfold assemble.
  rewrite !length_app, Hsig, length_nodes, (bo_length _ _ _ Hbody), (proj1 (bo_trailer _ _ _ Hbody)).
  unfold tail_sz, merkle_sz, MERKLE_PROOF_NODE_BYTES. rewrite (bo_depth _ _ _ Hbody). lia.
Qed.
Lemma assembled_bytes : Forall is_byte signature → Forall is_byte data.
Proof.
  intros Hs. unfold assemble. rewrite !Forall_app. split_and!; [done|apply Hbody| |apply Hbody].
  apply Forall_concat. eapply Forall_impl; [exact nodes_truncated|]. by intros x [_ ?].
Qed.
Lemma assembled_extract : extract_merkle_proof (hd 0 body) data (is_data_type (shred_type (hd 0 body)))
  = Done (Ok (take MERKLE_PROOF_NODE_BYTES <$> proof)).
Proof.
  pose proof length_assembled as Hl. destruct (protected_and_tail (hd 0 body)) as [Ht _].
  assert (Hse : shred_end (is_data_type (shred_type (hd 0 body))) data = length data).
  { unfold shred_end. rewrite Hl. destruct (is_data_type _); apply Nat.min_id. }
  rewrite extract_merkle_proof_eq by (rewrite Hse, Hl; lia). rewrite Hse, (bo_depth _ _ _ Hbody), <- Hdepth.
  replace (length data - tail_sz (hd 0%Z body))%nat with (length (signature ++ body))
    by (rewrite Hl, length_app, Hsig, (bo_length _ _ _ Hbody); lia).
  unfold assemble. rewrite (assoc_L (++) signature). rewrite <- (length_fmap (take MERKLE_PROOF_NODE_BYTES) proof).
  do 2 f_equal. apply proof_nodes_concat, nodes_truncated.
Qed.

Lemma assembled_verdict s pk i : Forall is_byte signature → is_zero_signature signature = false →
  ShredParser_parse data = Done (Ok s) → merkle_leaf_index s = Some i →
  verify_shred s pk
  = Done (match verify_signature pk (walk SHRED_CONFIG (leaf_of_body body) i proof) signature with Ok Success => Valid | _ => Invalid end).
Proof.
  intros Hsb Hz Hparse Hi. pose proof (assembled_bytes Hsb) as Hb. pose proof length_assembled as Hlen. pose proof assembled_variant as Hvb.
  destruct (parse_spec data) as [[e E]|(v & n & E & Hl & _ & Ha)]; [congruence|]. rewrite E in Hparse. injection Hparse as <-.
  assert (Hp : proof_of_variant v = Some (take MERKLE_PROOF_NODE_BYTES <$> proof)).
  { pose proof assembled_extract as Hex. pose proof (bo_merkle _ _ _ Hbody) as Hm.
    destruct Ha as [p Hd _ _ Ex|_ _ El|p Hd _ _ _ _ _ Ex|_ _ _ _ _ El]; rewrite Hvb in *; try congruence;
      cbn [proof_of_variant]; rewrite Hd in Hex; rewrite Hex in Ex; by injection Ex as ->. }
  assert (Hpl : (64 + merkle_protected_sz (variant_byte_of data) <= length data)%nat).
  { rewrite Hvb, Hlen. destruct (protected_and_tail (hd 0 body)) as [<- _]. lia. }
  assert (Esig : bytes_at data 0 64 = signature) by (by apply bytes_at_head).
  unfold verify_shred. cbn [shred_common parsed_shred common_of ch_signature shred_variant shred_raw]. rewrite Esig, Hz.
  destruct (verify_merkle_eq data v n _ pk Hb Hl Ha Hp Hpl) as (idx & Hidx & _ & Eq). rewrite Hi in Hidx. injection Hidx as <-.
  unfold derived_root in Eq. rewrite assembled_body, walk_truncated, Esig in Eq
    by (eapply Forall_impl; [exact Hproof|by intros x [? _]]).
  destruct v; try done; exact Eq.
Qed.
End leader.

(** C32. What the leader sends verifies.  Take the bodies of the shreds of a set, of the sizes
    of their variants and with the depth of the tree in their variant bytes.  Building the tree
    of their leaves returns, and when the leader's signature of the root is valid, every shred
    assembled from the signature, a body, the proof of its leaf and any retransmitter's
    trailer verifies, once the parser accepts it with the index of its leaf. *)
Theorem fec_set_verifies `{Sha256, Ed25519} bodies signature pk :
  (1 <= length bodies)%nat → Z.of_nat (length bodies) <= 2 ^ 63 →
  length signature = 64%nat → Forall is_byte signature → is_zero_signature signature = false →
  ∃ b root, commit_leaves SHRED_CONFIG (leaf_of_body <$> bodies) = Done (b, root) ∧
    ∀ i body, bodies !! i = Some body →
      ∃ proof, BmtreeCommit_get_proof b i = Done (Some proof) ∧
        ∀ trailer s, body_ok (tree_depth (length bodies)) body trailer →
          ShredParser_parse (assemble signature body proof trailer) = Done (Ok s) →
          merkle_leaf_index s = Some (Z.of_nat i) →
          verify_shred s pk
          = Done (match verify_signature pk root signature with Ok Success => Valid | _ => Invalid end).
Proof.
  intros Hpos Hmax Hsl Hsb Hz. assert (Hl : length (leaf_of_body <$> bodies) = length bodies) by apply length_fmap.
  assert (Hnodes : Forall is_node (leaf_of_body <$> bodies)) by (apply Forall_fmap, Forall_true; intros; apply leaf_of_body_node).
  assert (Hbytes : Forall (Forall is_byte) (leaf_of_body <$> bodies))
    by (apply Forall_fmap, Forall_true; intros; apply digest_bytes).
  eexists _, _. split; [apply commit_leaves_eq; rewrite ?Hl; done || apply shred_config_ok|]. intros i body Hi.
  apply lookup_lt_Some in Hi as Hlt. pose proof (tree_depth_fits _ Hmax) as Hfit.
  exists (proof_of SHRED_CONFIG (leaf_of_body <$> bodies) i).
  split; [apply get_proof_eq; rewrite ?Hl; done || apply shred_config_ok|]. intros trailer s Hbody Hparse Hidx.
  rewrite (assembled_verdict signature body trailer (proof_of SHRED_CONFIG (leaf_of_body <$> bodies) i)
             (tree_depth (length bodies)) Hsl Hbody) with (i := Z.of_nat i); try done.
  - destruct (walk_to_root SHRED_CONFIG (leaf_of_body <$> bodies) i) as [Hw _]; [rewrite Hl; lia|].
    rewrite list_lookup_fmap, Hi in Hw. cbn [fmap option_fmap option_map] in Hw.
    change (default ZERO_NODE (Some (leaf_of_body body))) with (leaf_of_body body) in Hw. by rewrite Hw.
  - apply Forall_and. split; [by apply siblings_nodes|by apply siblings_bytes].
  - unfold proof_of. by rewrite length_siblings, Hl.
Qed.

(** ** Samples *)

Definition toy_ed25519 : Ed25519 := {|
  key_decodes pk := bool_decide (length pk = 32%nat);
  signature_verifies pk message signature := bool_decide (signature = pk ++ message);
|}.
Definition toy_body (i : Z) : list Z :=
  0x81 :: to_le_bytes 8 100 ++ to_le_bytes 4 (3 + i) ++ to_le_bytes 2 1 ++ to_le_bytes 4 3 ++ to_le_bytes 2 1 ++ [0]
  ++ to_le_bytes 2 256 ++ replicate 1095 4.
Definition toy_bodies : list (list Z) := [toy_body 0; toy_body 1].
Definition toy_key : list Z := replicate 32 5.
Definition toy_commit : Outcome (list Z * list (list Z)) :=
  r ← @commit_leaves toy_sha256 SHRED_CONFIG (@leaf_of_body toy_sha256 <$> toy_bodies);
  p ← @BmtreeCommit_get_proof toy_sha256 r.1 1;
  mret (r.2, default [] p).
Definition toy_root : list Z := match toy_commit with Done r => r.1 | Panicked => [] end.
Definition toy_nodes : list (list Z) := match toy_commit with Done r => r.2 | Panicked => [] end.
Definition toy_data : list Z := assemble (toy_key ++ toy_root) (toy_body 1) toy_nodes [].

Lemma verified_shred_authentic_witness :
  ∃ s, ShredParser_parse toy_data = Done (Ok s) ∧ @verify_shred toy_sha256 toy_ed25519 s toy_key = Done Valid
    ∧ shred_payload s = drop 24 (body_of toy_data).
Proof.
  assert (Hb : Forall is_byte toy_data) by (apply (bool_decide_unpack _); by vm_compute).
  assert (Hv : ∃ s, ShredParser_parse toy_data = Done (Ok s) ∧ @verify_shred toy_sha256 toy_ed25519 s toy_key = Done Valid).
  { eexists. split; [vm_compute; reflexivity|]. vm_compute. reflexivity. }
  destruct Hv as (s & Hp & Hv). exists s. split; [done|]. split; [done|].
  destruct (@verified_shred_authentic toy_sha256 toy_ed25519 toy_bodies toy_data s toy_key)
    as (b & root & tree & idx & proof & _ & _ & _ & _ & _ & Hpay & _); [cbn; lia|cbn; lia|done|done|done|].
  apply Hpay. vm_compute. reflexivity.
Defined.

Lemma fec_set_verifies_witness :
  ∃ s, ShredParser_parse toy_data = Done (Ok s) ∧ @verify_shred toy_sha256 toy_ed25519 s toy_key = Done Valid.
Proof.
  destruct (@fec_set_verifies toy_sha256 toy_ed25519 toy_bodies (toy_key ++ toy_root) toy_key)
    as (b & root & E & Hall); [cbn; lia|cbn; lia|by vm_compute|apply (bool_decide_unpack _); by vm_compute|by vm_compute|].
  destruct (Hall 1%nat (toy_body 1)) as (proof & Ep & Hv); [done|].
  assert (Et : toy_commit = Done (root, proof)) by (unfold toy_commit; rewrite E, Done_bind; cbn [fst snd]; by rewrite Ep).
  assert (Er : toy_root = root) by (unfold toy_root; by rewrite Et).
  assert (En : toy_nodes = proof) by (unfold toy_nodes; by rewrite Et).
  assert (Hs : ∃ s, ShredParser_parse toy_data = Done (Ok s) ∧ merkle_leaf_index s = Some 1)
    by (eexists; split; vm_compute; reflexivity).
  destruct Hs as (s & Hp & Hi). exists s. split; [done|]. rewrite (Hv [] s); [|..|done].
  - rewrite <- Er. vm_compute. reflexivity.
  - split; [apply (bool_decide_unpack _); by vm_compute|by vm_compute..|split; [by vm_compute|constructor]].
  - rewrite <- En. exact Hp.
Defined.

(** The leaf index is not checked against the depth of the tree: in a tree of two leaves a
    shred with leaf index 2 verifies, as the shred at leaf 0. *)
Definition alias_data : list Z :=
  match (r ← @commit_leaves toy_sha256 SHRED_CONFIG (@leaf_of_body toy_sha256 <$> [toy_body 2; toy_body 1]);
         p ← @BmtreeCommit_get_proof toy_sha256 r.1 0; mret (r.2, default [] p)) with
  | Done (root, proof) => assemble (toy_key ++ root) (toy_body 2) proof []
  | Panicked => []
  end.
Lemma leaf_index_unchecked :
  ∃ s, ShredParser_parse alias_data = Done (Ok s) ∧ @verify_shred toy_sha256 toy_ed25519 s toy_key = Done Valid
    ∧ merkle_leaf_index s = Some 2.
Proof. eexists. split; [vm_compute; reflexivity|]. split; vm_compute; reflexivity. Qed.

(** A buffer longer than a shred: the proof is read at the end of a shred, the payload up to
    the end of the buffer.  The shred verifies with seven bytes of payload that nobody signed. *)
Lemma oversized_shred_verifies :
  ∃ s, ShredParser_parse (toy_data ++ replicate 7 1) = Done (Ok s)
    ∧ @verify_shred toy_sha256 toy_ed25519 s toy_key = Done Valid ∧ length (shred_payload s) = (1095 + 7)%nat.
Proof. eexists. split; [vm_compute; reflexivity|]. split; vm_compute; reflexivity. Qed.
