(* ===== verification/DualLink.v ===== *)
(** * Typed messages over a link

    Model of the shared-memory side of [src/crates/karstflow-mesh/src/dual.rs] and of the
    contract of [src/crates/karstflow-mesh/src/codec.rs]: a sender encodes each message into a
    private buffer and sends the bytes over a tile link, a receiver decodes the payload that
    it gets.  The contract of a codec is a class with its laws; the theorem on the link is
    proved against it, and the codec of shreds is an instance.

    The channel side of the two ends wraps a third-party queue and is left out. *)
From stdpp Require Import base tactics numbers list.
From Stdlib Require Import ZArith Lia.
From S2P Require Import Prelude MeshLink MeshLinkFifo Shreds.
Local Open Scope Z_scope.

Class FragmentCodec (T : Type) := {
  codec_encode : T → list Z → Outcome (list Z * nat);
  codec_decode : list Z → Outcome T;
  codec_max_encoded_size : nat;
  codec_signature : T → Z;
}.

(** The contract: a message that is fit to be sent is encoded into any buffer that is large
    enough, and what was written is decoded to what the other side is meant to get. *)
Class CodecLaws (T : Type) `{FragmentCodec T} := {
  codec_fit : T → Prop;
  codec_received : T → T;
  codec_roundtrip : ∀ msg buf, codec_fit msg → (codec_max_encoded_size <= length buf)%nat →
    ∃ buf' n, codec_encode msg buf = Done (buf', n) ∧ (n <= codec_max_encoded_size)%nat ∧ length buf' = length buf
      ∧ codec_decode (take n buf') = Done (codec_received msg);
}.

Inductive DualReceiveError := Closed | DualOverrun (recover_seq : Z).

Definition next_power_of_two (n : nat) : nat := (2 ^ Nat.log2_up n)%nat.

Section dual.
Context {T : Type} `{FragmentCodec T}.

(** The link of [dual_link] with the shared-memory backend. *)
Definition dual_config (capacity : nat) : TileLinkConfig :=
  mkTileLinkConfig (Z.of_nat codec_max_encoded_size) (next_power_of_two capacity `max` 4) 1 0.

(** [DualSender::try_send] up to the [send] of the producer; [now] is the clock it will read.
    The buffer is reused. *)
Definition DualSender_encode (buf : list Z) (msg : T) (now : Z) : Outcome (Request * list Z) :=
  let sig := codec_signature msg in
  r ← codec_encode msg buf;
  let '(buf, len) := r in
  let ctl := ctl_pack 0 true true false in
  if (length buf <? len)%nat then Panicked else mret (mkRequest sig (take len buf) ctl now, buf).

(** The requests of a sender that is given one message after the other. *)
Definition dual_send (s : list Request * list Z) (msg : T * Z) : Outcome (list Request * list Z) :=
  r ← DualSender_encode s.2 msg.1 msg.2;
  mret (s.1 ++ [r.1], r.2).
Definition dual_requests (msgs : list (T * Z)) : Outcome (list Request) :=
  r ← for_each dual_send ([], replicate codec_max_encoded_size 0) msgs;
  mret r.1.

(** [DualReceiver::try_recv] from the result of the consumer's [receive(1)] on. *)
Definition DualReceiver_decode (data : list Z) (r : ReceiveResult) : Outcome (result (option T) DualReceiveError) :=
  match r with
  | Ready meta =>
      match DataRegion_read_payload data (fm_chunk meta) (fm_sz meta) with
      | Some payload => msg ← codec_decode payload; mret (Ok (Some msg))
      | None => Panicked
      end
  | Empty => mret (Ok None)
  | Overrun recover_seq => mret (Err (DualOverrun recover_seq))
  end.
End dual.

(** ** What the sender sends *)

(** The request carries the message. *)
Definition of_message {T} `{CodecLaws T} (rq : Request) (msg : T) : Prop :=
  rq_sig rq = codec_signature msg ∧ (length (rq_payload rq) <= codec_max_encoded_size)%nat
  ∧ codec_decode (rq_payload rq) = Done (codec_received msg).

Section sender.
Context {T : Type} `{CodecLaws T}.

Lemma dual_send_run msgs : Forall codec_fit msgs.*1 → ∀ requests buf, length buf = codec_max_encoded_size →
  ∃ sent buf', for_each dual_send (requests, buf) msgs = Done (requests ++ sent, buf') ∧ Forall2 of_message sent msgs.*1.
Proof.
  induction msgs as [|[msg now] msgs IH]; intros Hfit requests buf Hl; cbn [for_each].
  - exists [], buf. by rewrite app_nil_r.
  - cbn in Hfit. apply Forall_cons in Hfit as [Hm Hfit].
    destruct (codec_roundtrip msg buf Hm) as (buf1 & n & E & Hn & Hl1 & Hdec); [lia|].
    set (rq := mkRequest (codec_signature msg) (take n buf1) (ctl_pack 0 true true false) now).
    assert (Es : dual_send (requests, buf) (msg, now) = Done (requests ++ [rq], buf1)).
    { unfold dual_send, DualSender_encode. cbn [fst snd]. rewrite E, Done_bind.
      by rewrite (proj2 (Nat.ltb_ge _ _)) by lia. }
    rewrite Es, Done_bind. destruct (IH Hfit (requests ++ [rq]) buf1) as (sent & buf2 & -> & Hall); [lia|].
    eexists (_ :: sent), buf2. rewrite <- (assoc_L (++)). split; [done|]. constructor; [|done].
    split; [done|]. split; [|done]. cbn. rewrite length_take. lia.
Qed.

Lemma dual_requests_ok msgs : Forall codec_fit msgs.*1 → ∃ requests, dual_requests msgs = Done requests ∧ Forall2 of_message requests msgs.*1.
Proof.
  intros Hfit. unfold dual_requests. destruct (dual_send_run msgs Hfit [] (replicate codec_max_encoded_size 0)) as (sent & buf & -> & Hall);
    [apply length_replicate|]. by exists sent.
Qed.

Lemma requests_short capacity requests (msgs : list T) : Forall2 of_message requests msgs →
  Forall (short (dual_config (T := T) capacity)) requests.
Proof.
  induction 1 as [|rq msg requests msgs (_ & Hl & _) _ IH]; constructor; [|done]. unfold short, len_of. cbn. lia.
Qed.
End sender.

(** ** What was accepted, of what there was to send *)

Lemma producer_calls sh t sh' t' : producer_step sh t = Moved (sh', t') →
  (pt_calls t').*1 ++ pt_todo t' = (pt_calls t).*1 ++ pt_todo t.
Proof.
  unfold producer_step, moved. intros Hs. repeat case_match; simplify_option_eq; try done.
  - by rewrite fmap_app, <- (assoc_L (++)).
  - by rewrite fmap_app, <- (assoc_L (++)).
Qed.
Lemma link_calls schedule : ∀ l l', link_run l schedule = Some l' →
  (pt_calls (lk_producer l')).*1 ++ pt_todo (lk_producer l') = (pt_calls (lk_producer l)).*1 ++ pt_todo (lk_producer l).
Proof.
  induction schedule as [|who schedule IH]; intros l l'; cbn; [by intros [= <-]|].
  destruct (link_step l who) as [l1|] eqn:E; [|done]. cbn. intros Hr. rewrite (IH l1 l' Hr).
  destruct who; cbn in E.
  - destruct (producer_step _ _) as [[sh t]| |] eqn:Ep; simplify_eq; [|done]. by apply producer_calls in Ep.
  - destruct (consumer_step _ _) as [[sh t]| |]; by simplify_eq.
Qed.

Lemma accepted_sublist calls : sublist (accepted calls).*1 calls.*1.
Proof.
  unfold accepted. induction calls as [|[rq [seq|]] calls IH]; cbn; [constructor|by constructor|by constructor].
Qed.

Lemma sublist_related {A B} (R : A → B → Prop) l1 l2 l : Forall2 R l1 l2 → sublist l l1 → ∃ l', sublist l' l2 ∧ Forall2 R l l'.
Proof.
  intros HR Hs. revert l2 HR. induction Hs as [|x l l1 _ IH|x l l1 _ IH]; intros l2 HR.
  - apply Forall2_nil_inv_l in HR as ->. exists []. by split.
  - apply Forall2_cons_inv_l in HR as (y & l2' & Hxy & HR & ->). destruct (IH l2' HR) as (l' & Hl' & Hf).
    exists (y :: l'). split; by constructor.
  - apply Forall2_cons_inv_l in HR as (y & l2' & Hxy & HR & ->). destruct (IH l2' HR) as (l' & Hl' & Hf).
    exists l'. split; [by constructor|done].
Qed.

Lemma last_delivered results meta : last results = Some (Single (Ready meta)) →
  delivered results !! (length (delivered results) - 1)%nat = Some meta ∧ (0 < length (delivered results))%nat.
Proof.
  intros (l & ->)%last_Some. rewrite delivered_snoc, length_app. cbn.
  split; [|lia]. rewrite lookup_app_r by lia. by replace (_ - _ - _)%nat with 0%nat by lia.
Qed.

(** Messages for what a link has accepted. *)
Lemma accepted_messages {T} `{CodecLaws T} c requests ops schedule l0 l acc (msgs : list T) : link_ok c →
  link_start c requests ops = Done l0 → link_run l0 schedule = Some l → link_inv c l acc → Forall2 of_message requests msgs →
  ∃ sent, sublist sent msgs ∧ Forall2 of_message acc sent.
Proof.
  intros Hok E0 E Hl Hall. apply (sublist_related _ requests); [done|].
  assert (Hacc : (accepted (pt_calls (lk_producer l))).*1 = acc).
  { rewrite (pi_accepted _ _ _ _ (li_producer _ _ _ Hl)). apply list_eq. intros i. rewrite list_lookup_fmap, list_lookup_imap.
    by destruct (acc !! i). }
  assert (Hc : (pt_calls (lk_producer l)).*1 ++ pt_todo (lk_producer l) = requests).
  { rewrite (link_calls _ _ _ E). unfold link_start in E0. apply bind_Done in E0 as (sh & _ & [= <-]). done. }
  rewrite <- Hacc, <- Hc. apply sublist_inserts_r, accepted_sublist.
Qed.

(** C19. A typed link delivers messages.  Whatever messages a sender is given, fit for their
    codec, and whatever the interleaving of the two threads: encoding never panics, no access
    faults, and there are messages, taken from those given in order, such that after every
    call of the receiver the [i]-th delivery is for the [i]-th of them, and, until its next
    call delivers, decoding gives nothing for an empty call and otherwise the message that
    was sent last of those delivered, as its codec has it received. *)
Theorem dual_link_delivers {T} `{CodecLaws T} capacity (msgs : list (T * Z)) calls schedule :
  link_ok (dual_config (T := T) capacity) → Forall codec_fit msgs.*1 →
  ∃ requests l0 l sent,
    dual_requests msgs = Done requests ∧ link_start (dual_config (T := T) capacity) requests (replicate calls (Receive 1)) = Done l0 ∧
    link_run l0 schedule = Some l ∧ sublist sent msgs.*1 ∧
    let results := ct_results (lk_consumer l) in
    (∀ i meta, delivered results !! i = Some meta → ∃ msg, sent !! i = Some msg ∧ fm_sig meta = codec_signature msg) ∧
    (∀ r, last results = Some (Single r) →
       DualReceiver_decode (sh_data (lk_shared l)) r = Done (Ok None) ∨
       ∃ msg, sent !! (length (delivered results) - 1)%nat = Some msg ∧
         DualReceiver_decode (sh_data (lk_shared l)) r = Done (Ok (Some (codec_received msg)))).
Proof.
  intros Hok Hfit. destruct (dual_requests_ok msgs Hfit) as (requests & Er & Hall).
  destruct (link_start_inv _ Hok requests (replicate calls (Receive 1)) (requests_short capacity _ _ Hall)) as (l0 & E0 & Hl0).
  destruct (link_run_inv _ Hok schedule l0 [] Hl0) as (l & acc & E & Hl).
  destruct (accepted_messages _ requests _ _ l0 l acc _ Hok E0 E Hl Hall) as (sent & Hsub & Hsent).
  assert (Hmsg : ∀ i meta, delivered (ct_results (lk_consumer l)) !! i = Some meta → ∃ msg, sent !! i = Some msg
    ∧ fm_sig meta = codec_signature msg ∧ ((length (delivered (ct_results (lk_consumer l))) <= S i)%nat →
      DualReceiver_decode (sh_data (lk_shared l)) (Ready meta) = Done (Ok (Some (codec_received msg))))).
  { intros i meta Hi. destruct (received_message _ Hok l acc i meta Hl) as (rq & Hrq & -> & Hpay); [by apply lookup_app_l_Some|].
    destruct (Forall2_lookup_l _ _ _ _ _ Hsent Hrq) as (msg & Hm & Hsig & _ & Hdec). exists msg. split; [done|]. split; [exact Hsig|].
    intros Hlast. unfold DualReceiver_decode. by rewrite (Hpay Hlast), Hdec. }
  exists requests, l0, l, sent. do 4 (split; [done|]). cbn zeta. split.
  - intros i meta Hi. destruct (Hmsg i meta Hi) as (msg & ? & ? & _). by exists msg.
  - intros [meta|seq|] Hlast; [right| |by left].
    + destruct (last_delivered _ _ Hlast) as [Hi Hlen]. destruct (Hmsg _ _ Hi) as (msg & Hm & _ & Hdec).
      exists msg. split; [done|]. apply Hdec. lia.
    + exfalso. destruct (li_consumer _ _ _ Hl) as [_ [Hno _] _]. rewrite Forall_forall in Hno.
      apply (Hno (Single (Overrun seq))). by apply last_Some_elem_of.
Qed.

(** ** The codec of shreds *)

Definition Shred_signature (sh : Shred) : Z := from_le_bytes (take 8 (ch_signature (shred_common sh))).

#[export] Instance Shred_codec : FragmentCodec Shred := {|
  codec_encode := Shred_encode;
  codec_decode := Shred_decode;
  codec_max_encoded_size := Shred_max_encoded_size;
  codec_signature := Shred_signature;
|}.

#[export] Instance Shred_codec_laws : CodecLaws Shred := {|
  codec_fit := shred_wf;
  codec_received := over_link;
  codec_roundtrip := shred_codec_roundtrip;
|}.

Lemma shred_link_ok capacity : (capacity <= 2 ^ 16)%nat → link_ok (dual_config (T := Shred) capacity).
Proof.
  intros Hc. assert (Hk : ∃ k, (2 <= k <= 16)%nat ∧ (next_power_of_two capacity `max` 4 = 2 ^ k)%nat).
  { unfold next_power_of_two. pose proof (Nat.log2_up_le_mono _ _ Hc) as Hl. rewrite Nat.log2_up_pow2 in Hl by lia.
    destruct (decide (2 <= Nat.log2_up capacity)%nat) as [H2|H2].
    - exists (Nat.log2_up capacity). split; [lia|]. apply Nat.max_l. apply (Nat.pow_le_mono_r 2 2); lia.
    - exists 2%nat. split; [lia|]. apply Nat.max_r. apply (Nat.pow_le_mono_r 2 _ 2); lia. }
  destruct Hk as (k & Hk & E). assert (Hp : Z.of_nat (2 ^ k) <= 2 ^ 16)
    by (rewrite Nat2Z.inj_pow; apply Z.pow_le_mono_r; lia).
  split; cbn [dual_config cfg_depth cfg_mtu cfg_burst cfg_initial_seq].
  - exists k. split; [lia|done].
  - split; [lia|]. by vm_compute.
  - lia.
  - by vm_compute.
  - rewrite E. unfold required_data_size. change (slot_footprint _) with 1792. cbn [Z.b2z]. lia.
Qed.

(** ** Sample: one byte per message *)

Definition byte_codec : FragmentCodec Z := {|
  codec_encode b buf := match buf with [] => Panicked | _ :: rest => Done (b :: rest, 1%nat) end;
  codec_decode l := match l with [] => Panicked | b :: _ => Done b end;
  codec_max_encoded_size := 1;
  codec_signature b := b;
|}.
Lemma byte_roundtrip (b : Z) buf : True → (1 <= length buf)%nat →
  ∃ buf' n, @codec_encode Z byte_codec b buf = Done (buf', n) ∧ (n <= 1)%nat ∧ length buf' = length buf
    ∧ @codec_decode Z byte_codec (take n buf') = Done b.
Proof. intros _ Hl. destruct buf as [|x rest]; [cbn in Hl; lia|]. by exists (b :: rest), 1%nat. Qed.
Definition byte_laws : @CodecLaws Z byte_codec :=
  @Build_CodecLaws Z byte_codec (λ _, True) (λ b, b) byte_roundtrip.

Lemma byte_link_ok : link_ok (@dual_config Z byte_codec 4).
Proof. split; [exists 2%nat; split; [lia|done]|by vm_compute|by vm_compute|by vm_compute|by vm_compute]. Qed.

(** The producer sends a 7 and begins to send a 9, the consumer receives. *)
Definition byte_schedule : list Thread := replicate 12 TheProducer ++ replicate 20 TheConsumer.

Lemma dual_link_delivers_witness :
  ∃ requests l0 l r, @dual_requests Z byte_codec [(7, 0); (9, 0)] = Done requests
    ∧ link_start (@dual_config Z byte_codec 4) requests (replicate 1 (Receive 1)) = Done l0 ∧ link_run l0 byte_schedule = Some l
    ∧ last (ct_results (lk_consumer l)) = Some (Single r)
    ∧ ∃ msg, msg ∈ [7; 9] ∧ @DualReceiver_decode Z byte_codec (sh_data (lk_shared l)) r = Done (Ok (Some msg)).
Proof.
  destruct (@dual_link_delivers Z byte_codec byte_laws 4 [(7, 0); (9, 0)] 1 byte_schedule byte_link_ok)
    as (requests & l0 & l & sent & E1 & E2 & E3 & Hsub & _ & Hlast); [by repeat constructor|].
  assert (Er : (requests ← dual_requests [(7, 0); (9, 0)]; link_start (@dual_config Z byte_codec 4) requests [Receive 1]) = Done l0)
    by (rewrite E1; exact E2).
  assert (Hl : (λ l, (last (ct_results (lk_consumer l)), length (delivered (ct_results (lk_consumer l)))))
     <$> match requests ← @dual_requests Z byte_codec [(7, 0); (9, 0)]; link_start (@dual_config Z byte_codec 4) requests [Receive 1] with
         | Done l0 => link_run l0 byte_schedule | Panicked => None end
     = Some (Some (Single (Ready (mkFragmentMeta 0 7 0 1 (ctl_pack 0 true true false) 0 0))), 1%nat)) by (vm_compute; reflexivity).
  rewrite Er, E3 in Hl. injection Hl as Hr Hn. eexists requests, l0, l, _. do 3 (split; [eassumption|]). split; [exact Hr|].
  destruct (Hlast _ Hr) as [Hd|(msg & Hm & Hd)].
  - exfalso. unfold DualReceiver_decode in Hd. destruct (DataRegion_read_payload _ _ _) as [payload|]; [|discriminate Hd].
    destruct (codec_decode payload); discriminate Hd.
  - exists msg. split; [|exact Hd]. apply list_elem_of_lookup_2 in Hm. exact (elem_of_sublist _ _ _ Hm Hsub).
Defined.
