(* ===== verification/FecResolver.v ===== *)
(** * The resolver of FEC sets

    Model of [src/crates/karstflow-stages/src/fec_resolver.rs]: a pool of preallocated buffers
    that collect the data and coding shreds of the sets in progress.  Buffers go from the free
    queue to a set in progress, to the queue of completed sets, and back.

    The iteration order of a hash map is the [IterOrder] of [Prelude].  Additions on 32 bits
    wrap, as in a release build. *)
From stdpp Require Import base tactics numbers list gmap.
From Stdlib Require Import ZArith Lia.
From S2P Require Import Prelude Shreds.
Local Open Scope Z_scope.

Definition FEC_RESOLVER_DEPTH : nat := 32.
Definition FEC_RESOLVER_COMPLETE_DEPTH : nat := 512.
Definition FEC_RESOLVER_DONE_DEPTH : nat := 4096.

(** ** Data *)

Record FecSetKey := mkFecSetKey {
  fk_slot : Z;
  fk_fec_set_index : Z;
}.
#[export] Instance FecSetKey_eq_dec : EqDecision FecSetKey.
Proof. solve_decision. Defined.
#[export] Instance FecSetKey_countable : Countable FecSetKey.
Proof.
  apply (inj_countable' (λ k, (fk_slot k, fk_fec_set_index k)) (λ p, mkFecSetKey p.1 p.2)). by intros [].
Defined.

Definition signature_of (s : Shred) : list Z := ch_signature (shred_common s).

Record FecBuffer := mkFecBuffer {
  fb_data_shreds : gmap Z Shred;
  fb_coding_shreds : gmap Z Shred;
  fb_num_data : Z;
  fb_num_coding : Z;
  fb_params_known : bool;
  fb_resolved : bool;
  fb_first_signature : list Z;
  fb_key : option FecSetKey;
}.

Definition FecBuffer_new : FecBuffer := mkFecBuffer ∅ ∅ 0 0 false false (replicate 64 0) None.
(** [reset] clears every field, whatever they hold. *)
Definition FecBuffer_reset (b : FecBuffer) : FecBuffer := mkFecBuffer ∅ ∅ 0 0 false false (replicate 64 0) None.

Definition map_len {A} (m : gmap Z A) : Z := wrap32 (Z.of_nat (size m)).

Definition FecBuffer_total_received (b : FecBuffer) : Z :=
  u32_add (map_len (fb_data_shreds b)) (map_len (fb_coding_shreds b)).
Definition FecBuffer_is_complete (b : FecBuffer) : bool :=
  fb_params_known b && (fb_num_data b <=? map_len (fb_data_shreds b)) && negb (fb_resolved b).
Definition FecBuffer_is_recoverable (b : FecBuffer) : bool :=
  fb_params_known b && (fb_num_data b <=? FecBuffer_total_received b)
  && (map_len (fb_data_shreds b) <? fb_num_data b) && negb (fb_resolved b).
Definition FecBuffer_learn_params (b : FecBuffer) (num_data num_coding : Z) : FecBuffer :=
  if fb_params_known b then b
  else mkFecBuffer (fb_data_shreds b) (fb_coding_shreds b) num_data num_coding true (fb_resolved b)
         (fb_first_signature b) (fb_key b).

Definition set_key (k : FecSetKey) (b : FecBuffer) : FecBuffer :=
  mkFecBuffer (fb_data_shreds b) (fb_coding_shreds b) (fb_num_data b) (fb_num_coding b) (fb_params_known b)
    (fb_resolved b) (fb_first_signature b) (Some k).
Definition set_resolved (b : FecBuffer) : FecBuffer :=
  mkFecBuffer (fb_data_shreds b) (fb_coding_shreds b) (fb_num_data b) (fb_num_coding b) (fb_params_known b)
    true (fb_first_signature b) (fb_key b).
Definition set_data (m : gmap Z Shred) (b : FecBuffer) : FecBuffer :=
  mkFecBuffer m (fb_coding_shreds b) (fb_num_data b) (fb_num_coding b) (fb_params_known b)
    (fb_resolved b) (fb_first_signature b) (fb_key b).
Definition set_coding (m : gmap Z Shred) (b : FecBuffer) : FecBuffer :=
  mkFecBuffer (fb_data_shreds b) m (fb_num_data b) (fb_num_coding b) (fb_params_known b)
    (fb_resolved b) (fb_first_signature b) (fb_key b).
(** The signature of the first shred of a set. *)
Definition track_first (signature : list Z) (b : FecBuffer) : FecBuffer :=
  if bool_decide (fb_data_shreds b = ∅) && bool_decide (fb_coding_shreds b = ∅)
  then mkFecBuffer (fb_data_shreds b) (fb_coding_shreds b) (fb_num_data b) (fb_num_coding b) (fb_params_known b)
         (fb_resolved b) signature (fb_key b)
  else b.

Record SpilledFecSet := mkSpilledFecSet {
  sp_slot : Z;
  sp_fec_set_index : Z;
  sp_data_received : Z;
  sp_coding_received : Z;
}.

Inductive ResolverInsertResult := Accepted | Complete | Recoverable | DuplicateFecSet | DuplicateShred | Equivocation.

Record EquivocationProof := mkEquivocationProof {
  eq_slot : Z;
  eq_fec_set_index : Z;
  eq_position : Z;
  eq_existing_signature : list Z;
  eq_conflicting_signature : list Z;
}.

Record SlotChainState := mkSlotChainState {
  sc_next_expected_index : Z;
  sc_sets_completed : Z;
}.

(** The counters, of which [sets_recoverable] is never counted. *)
Inductive Counter :=
| shreds_inserted | sets_completed | sets_recoverable | sets_spilled | duplicates_rejected | duplicate_shreds_rejected
| equivocations_detected | chain_breaks.
#[export] Instance Counter_eq_dec : EqDecision Counter.
Proof. solve_decision. Defined.

Record FecResolverPool := mkFecResolverPool {
  rp_buffers : list FecBuffer;
  rp_free_queue : list nat;
  rp_in_progress : gmap FecSetKey nat;
  rp_in_progress_order : list FecSetKey;
  rp_completed_queue : list nat;
  rp_done_signatures : list (list Z);
  rp_slot_chain : gmap Z SlotChainState;
  rp_depth : nat;
  rp_complete_depth : nat;
  rp_done_depth : nat;
  rp_last_spilled : option SpilledFecSet;
  rp_equivocation_proofs : list EquivocationProof;
  rp_stats : Counter → Z;
}.

(** Assignments to the fields of the pool. *)
Definition set_buffers (x : list FecBuffer) (p : FecResolverPool) : FecResolverPool :=
  mkFecResolverPool x (rp_free_queue p) (rp_in_progress p) (rp_in_progress_order p) (rp_completed_queue
    p) (rp_done_signatures p) (rp_slot_chain p) (rp_depth p) (rp_complete_depth p) (rp_done_depth p)
    (rp_last_spilled p) (rp_equivocation_proofs p) (rp_stats p).
Definition set_free_queue (x : list nat) (p : FecResolverPool) : FecResolverPool :=
  mkFecResolverPool (rp_buffers p) x (rp_in_progress p) (rp_in_progress_order p) (rp_completed_queue p)
    (rp_done_signatures p) (rp_slot_chain p) (rp_depth p) (rp_complete_depth p) (rp_done_depth p)
    (rp_last_spilled p) (rp_equivocation_proofs p) (rp_stats p).
Definition set_in_progress (x : gmap FecSetKey nat) (p : FecResolverPool) : FecResolverPool :=
  mkFecResolverPool (rp_buffers p) (rp_free_queue p) x (rp_in_progress_order p) (rp_completed_queue p)
    (rp_done_signatures p) (rp_slot_chain p) (rp_depth p) (rp_complete_depth p) (rp_done_depth p)
    (rp_last_spilled p) (rp_equivocation_proofs p) (rp_stats p).
Definition set_in_progress_order (x : list FecSetKey) (p : FecResolverPool) : FecResolverPool :=
  mkFecResolverPool (rp_buffers p) (rp_free_queue p) (rp_in_progress p) x (rp_completed_queue p)
    (rp_done_signatures p) (rp_slot_chain p) (rp_depth p) (rp_complete_depth p) (rp_done_depth p)
    (rp_last_spilled p) (rp_equivocation_proofs p) (rp_stats p).
Definition set_completed_queue (x : list nat) (p : FecResolverPool) : FecResolverPool :=
  mkFecResolverPool (rp_buffers p) (rp_free_queue p) (rp_in_progress p) (rp_in_progress_order p) x
    (rp_done_signatures p) (rp_slot_chain p) (rp_depth p) (rp_complete_depth p) (rp_done_depth p)
    (rp_last_spilled p) (rp_equivocation_proofs p) (rp_stats p).
Definition set_done_signatures (x : list (list Z)) (p : FecResolverPool) : FecResolverPool :=
  mkFecResolverPool (rp_buffers p) (rp_free_queue p) (rp_in_progress p) (rp_in_progress_order p)
    (rp_completed_queue p) x (rp_slot_chain p) (rp_depth p) (rp_complete_depth p) (rp_done_depth p)
    (rp_last_spilled p) (rp_equivocation_proofs p) (rp_stats p).
Definition set_slot_chain (x : gmap Z SlotChainState) (p : FecResolverPool) : FecResolverPool :=
  mkFecResolverPool (rp_buffers p) (rp_free_queue p) (rp_in_progress p) (rp_in_progress_order p)
    (rp_completed_queue p) (rp_done_signatures p) x (rp_depth p) (rp_complete_depth p) (rp_done_depth p)
    (rp_last_spilled p) (rp_equivocation_proofs p) (rp_stats p).
Definition set_last_spilled (x : option SpilledFecSet) (p : FecResolverPool) : FecResolverPool :=
  mkFecResolverPool (rp_buffers p) (rp_free_queue p) (rp_in_progress p) (rp_in_progress_order p)
    (rp_completed_queue p) (rp_done_signatures p) (rp_slot_chain p) (rp_depth p) (rp_complete_depth p)
    (rp_done_depth p) x (rp_equivocation_proofs p) (rp_stats p).
Definition set_equivocation_proofs (x : list EquivocationProof) (p : FecResolverPool) : FecResolverPool :=
  mkFecResolverPool (rp_buffers p) (rp_free_queue p) (rp_in_progress p) (rp_in_progress_order p)
    (rp_completed_queue p) (rp_done_signatures p) (rp_slot_chain p) (rp_depth p) (rp_complete_depth p)
    (rp_done_depth p) (rp_last_spilled p) x (rp_stats p).
Definition set_stats (x : Counter → Z) (p : FecResolverPool) : FecResolverPool :=
  mkFecResolverPool (rp_buffers p) (rp_free_queue p) (rp_in_progress p) (rp_in_progress_order p)
    (rp_completed_queue p) (rp_done_signatures p) (rp_slot_chain p) (rp_depth p) (rp_complete_depth p)
    (rp_done_depth p) (rp_last_spilled p) (rp_equivocation_proofs p) x.
Definition count (c : Counter) (p : FecResolverPool) : FecResolverPool :=
  set_stats (λ d, if decide (d = c) then u64_add (rp_stats p c) 1 else rp_stats p d) p.

(** [self.buffers[idx]], read and written. *)
Definition buffer_at (p : FecResolverPool) (idx : nat) : Outcome FecBuffer :=
  match rp_buffers p !! idx with Some b => mret b | None => Panicked end.
Definition update_buffer (idx : nat) (f : FecBuffer → FecBuffer) (p : FecResolverPool) : Outcome FecResolverPool :=
  b ← buffer_at p idx;
  mret (set_buffers (<[idx := f b]> (rp_buffers p)) p).

(** ** Operations *)

Definition FecResolverPool_new (depth complete_depth done_depth : nat) : FecResolverPool :=
  mkFecResolverPool (replicate (depth + complete_depth) FecBuffer_new) (seq 0 (depth + complete_depth)) ∅ [] [] [] ∅
    depth complete_depth done_depth None [] (λ _, 0).
Definition FecResolverPool_with_defaults : FecResolverPool :=
  FecResolverPool_new FEC_RESOLVER_DEPTH FEC_RESOLVER_COMPLETE_DEPTH FEC_RESOLVER_DONE_DEPTH.

Definition all_zero (signature : list Z) : bool := forallb (λ b, b =? 0) signature.

Definition is_fec_set_done (p : FecResolverPool) (signature : list Z) : bool :=
  if all_zero signature then false else bool_decide (signature ∈ rp_done_signatures p).

Definition record_done_signature (p : FecResolverPool) (signature : list Z) : FecResolverPool :=
  if all_zero signature then p
  else
    let done :=
      if (rp_done_depth p <=? length (rp_done_signatures p))%nat then tail (rp_done_signatures p) else rp_done_signatures p in
    set_done_signatures (done ++ [signature]) p.

Definition check_fec_status (p : FecResolverPool) (buf_idx : nat) : Outcome ResolverInsertResult :=
  buf ← buffer_at p buf_idx;
  mret (if FecBuffer_is_complete buf then Complete else if FecBuffer_is_recoverable buf then Recoverable else Accepted).

Definition validate_chain (p : FecResolverPool) (slot fec_set_index num_data : Z) : bool * FecResolverPool :=
  let chain := default (mkSlotChainState fec_set_index 0) (rp_slot_chain p !! slot) in
  let valid := if sc_sets_completed chain =? 0 then true else fec_set_index =? sc_next_expected_index chain in
  let p := if valid then p else count chain_breaks p in
  let chain := mkSlotChainState (u32_add fec_set_index num_data) (u32_add (sc_sets_completed chain) 1) in
  (valid, set_slot_chain (<[slot := chain]> (rp_slot_chain p)) p).

Definition evict_oldest (p : FecResolverPool) : Outcome (nat * FecResolverPool) :=
  match rp_in_progress_order p with
  | [] => Panicked
  | key :: order =>
      let p := set_in_progress_order order p in
      match rp_in_progress p !! key with
      | None => Panicked
      | Some buf_idx =>
          let p := set_in_progress (delete key (rp_in_progress p)) p in
          buf ← buffer_at p buf_idx;
          let p := set_last_spilled
            (Some (mkSpilledFecSet (fk_slot key) (fk_fec_set_index key) (map_len (fb_data_shreds buf))
                     (map_len (fb_coding_shreds buf)))) p in
          let p := count sets_spilled p in
          p ← update_buffer buf_idx FecBuffer_reset p;
          mret (buf_idx, p)
      end
  end.

(** The loop that enforces the depth; the fuel is the number of sets in progress, one of which
    each turn removes. *)
Fixpoint enforce_depth (fuel : nat) (p : FecResolverPool) : Outcome FecResolverPool :=
  if (rp_depth p <? size (rp_in_progress p))%nat then
    match fuel with
    | O => Panicked
    | S fuel => r ← evict_oldest p; enforce_depth fuel r.2
    end
  else mret p.

(** A buffer for a new set: its oldest sets give way to the depth. *)
Definition attach (key : FecSetKey) (buf_idx : nat) (p : FecResolverPool) : Outcome FecResolverPool :=
  p ← update_buffer buf_idx (λ b, set_key key (FecBuffer_reset b)) p;
  let p := set_in_progress (<[key := buf_idx]> (rp_in_progress p)) p in
  let p := set_in_progress_order (rp_in_progress_order p ++ [key]) p in
  enforce_depth (size (rp_in_progress p)) p.

Definition ensure_buffer (p : FecResolverPool) (key : FecSetKey) : Outcome (nat * FecResolverPool) :=
  match rp_in_progress p !! key with
  | Some idx => mret (idx, p)
  | None =>
      r ← match rp_free_queue p with
          | idx :: free => mret (idx, set_free_queue free p)
          | [] => evict_oldest p
          end;
      let '(buf_idx, p) := r in
      p ← attach key buf_idx p;
      mret (buf_idx, p)
  end.

(** Record two conflicting shreds, 64 proofs at most. *)
Definition report_equivocation (proof : EquivocationProof) (p : FecResolverPool) : FecResolverPool :=
  let p := count equivocations_detected (set_equivocation_proofs (rp_equivocation_proofs p ++ [proof]) p) in
  if (64 <? length (rp_equivocation_proofs p))%nat
  then set_equivocation_proofs (tail (rp_equivocation_proofs p)) p else p.

Definition FecResolverPool_insert_data_shred (p : FecResolverPool) (slot fec_set_index relative_index : Z) (shred : Shred) :
    Outcome (ResolverInsertResult * FecResolverPool) :=
  let key := mkFecSetKey slot fec_set_index in
  if is_fec_set_done p (signature_of shred) then mret (DuplicateFecSet, count duplicates_rejected p)
  else
    r ← ensure_buffer p key;
    let '(buf_idx, p) := r in
    p ← update_buffer buf_idx (track_first (signature_of shred)) p;
    buf ← buffer_at p buf_idx;
    match fb_data_shreds buf !! relative_index with
    | Some existing =>
        mret (if bool_decide (signature_of existing ≠ signature_of shred)
              then (Equivocation,
                    report_equivocation (mkEquivocationProof slot fec_set_index relative_index (signature_of existing)
                                           (signature_of shred)) p)
              else (DuplicateShred, count duplicate_shreds_rejected p))
    | None =>
        p ← update_buffer buf_idx (λ b, set_data (<[relative_index := shred]> (fb_data_shreds b)) b) p;
        let p := count shreds_inserted p in
        r ← check_fec_status p buf_idx;
        mret (r, p)
    end.

Definition FecResolverPool_insert_coding_shred (p : FecResolverPool)
    (slot fec_set_index position num_data num_coding : Z) (shred : Shred) : Outcome (ResolverInsertResult * FecResolverPool) :=
  let key := mkFecSetKey slot fec_set_index in
  if is_fec_set_done p (signature_of shred) then mret (DuplicateFecSet, count duplicates_rejected p)
  else
    r ← ensure_buffer p key;
    let '(buf_idx, p) := r in
    p ← update_buffer buf_idx (track_first (signature_of shred)) p;
    p ← update_buffer buf_idx (λ b, FecBuffer_learn_params b num_data num_coding) p;
    buf ← buffer_at p buf_idx;
    match fb_coding_shreds buf !! position with
    | Some existing =>
        mret (if bool_decide (signature_of existing ≠ signature_of shred)
              then (Equivocation,
                    report_equivocation (mkEquivocationProof slot fec_set_index position (signature_of existing)
                                           (signature_of shred)) p)
              else (DuplicateShred, count duplicate_shreds_rejected p))
    | None =>
        p ← update_buffer buf_idx (λ b, set_coding (<[position := shred]> (fb_coding_shreds b)) b) p;
        let p := count shreds_inserted p in
        r ← check_fec_status p buf_idx;
        mret (r, p)
    end.

(** Give a buffer back. *)
Definition recycle (idx : nat) (p : FecResolverPool) : Outcome FecResolverPool :=
  p ← update_buffer idx FecBuffer_reset p;
  mret (set_free_queue (rp_free_queue p ++ [idx]) p).

(** Queue a completed buffer, for which the oldest one is recycled when the queue is full. *)
Definition retire (buf_idx : nat) (p : FecResolverPool) : Outcome FecResolverPool :=
  p ← (if (rp_complete_depth p <=? length (rp_completed_queue p))%nat then
         match rp_completed_queue p with
         | [] => mret p
         | old_idx :: queue => recycle old_idx (set_completed_queue queue p)
         end
       else mret p);
  mret (set_completed_queue (rp_completed_queue p ++ [buf_idx]) p).

Definition FecResolverPool_mark_completed (p : FecResolverPool) (key : FecSetKey) : Outcome (bool * FecResolverPool) :=
  match rp_in_progress p !! key with
  | None => mret (true, p)
  | Some buf_idx =>
      let p := set_in_progress (delete key (rp_in_progress p)) p in
      let p := set_in_progress_order (filter (.≠ key) (rp_in_progress_order p)) p in
      p ← update_buffer buf_idx set_resolved p;
      buf ← buffer_at p buf_idx;
      let '(chain_ok, p) := validate_chain p (fk_slot key) (fk_fec_set_index key) (fb_num_data buf) in
      let p := record_done_signature p (fb_first_signature buf) in
      let p := count sets_completed p in
      p ← retire buf_idx p;
      mret (chain_ok, p)
  end.

Definition FecResolverPool_release_completed (p : FecResolverPool) : Outcome (bool * FecResolverPool) :=
  match rp_completed_queue p with
  | [] => mret (false, p)
  | buf_idx :: queue =>
      p ← recycle buf_idx (set_completed_queue queue p);
      mret (true, p)
  end.

(** What a reader sees of a set in progress: its buffer. *)
Definition FecResolverPool_get_buffer (p : FecResolverPool) (key : FecSetKey) : Outcome (option FecBuffer) :=
  match rp_in_progress p !! key with
  | None => mret None
  | Some idx => b ← buffer_at p idx; mret (Some b)
  end.

(** [get_buffer_mut], and what its caller writes to the data shreds. *)
Definition FecResolverPool_write_data (p : FecResolverPool) (key : FecSetKey) (f : gmap Z Shred → gmap Z Shred) :
    Outcome FecResolverPool :=
  match rp_in_progress p !! key with
  | None => mret p
  | Some idx => update_buffer idx (λ b, set_data (f (fb_data_shreds b)) b) p
  end.

Definition FecResolverPool_drain_equivocation_proofs (p : FecResolverPool) : list EquivocationProof * FecResolverPool :=
  (rp_equivocation_proofs p, set_equivocation_proofs [] p).
Definition FecResolverPool_take_last_spilled (p : FecResolverPool) : option SpilledFecSet * FecResolverPool :=
  (rp_last_spilled p, set_last_spilled None p).

Definition prune_key (p : FecResolverPool) (key : FecSetKey) : Outcome FecResolverPool :=
  match rp_in_progress p !! key with
  | None => mret p
  | Some buf_idx => recycle buf_idx (set_in_progress (delete key (rp_in_progress p)) p)
  end.
Definition FecResolverPool_prune_slots_below `{!IterOrder FecSetKey} (p : FecResolverPool) (min_slot : Z) :
    Outcome FecResolverPool :=
  let keys_to_remove := filter (λ k, fk_slot k < min_slot) (iter_order (dom (rp_in_progress p))) in
  p ← for_each prune_key p keys_to_remove;
  let p := set_in_progress_order (filter (λ k, min_slot <= fk_slot k) (rp_in_progress_order p)) p in
  mret (set_slot_chain (filter (λ x, min_slot <= x.1) (rp_slot_chain p)) p).

(** ** Runs of the pool *)

Inductive ResolverOp :=
| InsertData (slot fec_set_index relative_index : Z) (shred : Shred)
| InsertCoding (slot fec_set_index position num_data num_coding : Z) (shred : Shred)
| MarkCompleted (key : FecSetKey)
| ReleaseCompleted
| WriteData (key : FecSetKey) (f : gmap Z Shred → gmap Z Shred)
| PruneBelow (min_slot : Z)
| Drain.

Inductive OpResult := Inserted (r : ResolverInsertResult) | Flag (b : bool) | Nothing.

Section runs.
Context `{!IterOrder FecSetKey}.

Definition pool_step (p : FecResolverPool) (op : ResolverOp) : Outcome (OpResult * FecResolverPool) :=
  match op with
  | InsertData slot idx rel s => r ← FecResolverPool_insert_data_shred p slot idx rel s; mret (Inserted r.1, r.2)
  | InsertCoding slot idx pos nd nc s =>
      r ← FecResolverPool_insert_coding_shred p slot idx pos nd nc s; mret (Inserted r.1, r.2)
  | MarkCompleted key => r ← FecResolverPool_mark_completed p key; mret (Flag r.1, r.2)
  | ReleaseCompleted => r ← FecResolverPool_release_completed p; mret (Flag r.1, r.2)
  | WriteData key f => p ← FecResolverPool_write_data p key f; mret (Nothing, p)
  | PruneBelow min_slot => p ← FecResolverPool_prune_slots_below p min_slot; mret (Nothing, p)
  | Drain => mret (Nothing, (FecResolverPool_take_last_spilled (FecResolverPool_drain_equivocation_proofs p).2).2)
  end.
End runs.

Definition run_with {S} (step : S → ResolverOp → Outcome (OpResult * S)) (s : S) (ops : list ResolverOp) :
    Outcome (list OpResult * S) :=
  for_each (λ acc op, r ← step acc.2 op; mret (acc.1 ++ [r.1], r.2)) ([], s) ops.

(** ** What a resolver does, without buffers

    The sets in progress, oldest first, and how many buffers are free and completed. *)

Record Resolver := mkResolver {
  rv_sets : list (FecSetKey * FecBuffer);
  rv_free : nat;
  rv_completed : nat;
  rv_done : list (list Z);
  rv_chain : gmap Z SlotChainState;
  rv_depth : nat;
  rv_complete_depth : nat;
  rv_done_depth : nat;
}.

Definition Resolver_new (depth complete_depth done_depth : nat) : Resolver :=
  mkResolver [] (depth + complete_depth) 0 [] ∅ depth complete_depth done_depth.

Definition with_sets (sets : list (FecSetKey * FecBuffer)) (free : nat) (r : Resolver) : Resolver :=
  mkResolver sets free (rv_completed r) (rv_done r) (rv_chain r) (rv_depth r) (rv_complete_depth r) (rv_done_depth r).

Definition find_set (k : FecSetKey) (sets : list (FecSetKey * FecBuffer)) : option FecBuffer :=
  snd <$> head (filter (λ x, x.1 = k) sets).
Definition update_set (k : FecSetKey) (b : FecBuffer) (sets : list (FecSetKey * FecBuffer)) : list (FecSetKey * FecBuffer) :=
  (λ x, if decide (x.1 = k) then (k, b) else x) <$> sets.

(** A set for [key]: the one in progress, or an empty one, for which the oldest set is
    dropped when no buffer is free or the depth is exceeded. *)
Definition open_set (r : Resolver) (key : FecSetKey) : Outcome Resolver :=
  if decide (key ∈ (rv_sets r).*1) then mret r
  else
    let fresh := (key, set_key key FecBuffer_new) in
    match rv_free r, rv_sets r with
    | S free, sets => mret (with_sets (drop (S (length sets) - rv_depth r) (sets ++ [fresh])) free r)
    | O, _ :: sets => mret (with_sets (sets ++ [fresh]) 0 r)
    | O, [] => Panicked
    end.

Definition is_done (r : Resolver) (signature : list Z) : bool :=
  negb (all_zero signature) && bool_decide (signature ∈ rv_done r).

Definition status (b : FecBuffer) : ResolverInsertResult :=
  if FecBuffer_is_complete b then Complete else if FecBuffer_is_recoverable b then Recoverable else Accepted.
Definition clash (existing shred : Shred) : ResolverInsertResult :=
  if bool_decide (signature_of existing ≠ signature_of shred) then Equivocation else DuplicateShred.

Definition add_data (relative_index : Z) (shred : Shred) (b : FecBuffer) : ResolverInsertResult * FecBuffer :=
  let b := track_first (signature_of shred) b in
  match fb_data_shreds b !! relative_index with
  | Some existing => (clash existing shred, b)
  | None => let b := set_data (<[relative_index := shred]> (fb_data_shreds b)) b in (status b, b)
  end.
Definition add_coding (position num_data num_coding : Z) (shred : Shred) (b : FecBuffer) : ResolverInsertResult * FecBuffer :=
  let b := FecBuffer_learn_params (track_first (signature_of shred) b) num_data num_coding in
  match fb_coding_shreds b !! position with
  | Some existing => (clash existing shred, b)
  | None => let b := set_coding (<[position := shred]> (fb_coding_shreds b)) b in (status b, b)
  end.

Definition resolver_insert (r : Resolver) (key : FecSetKey) (shred : Shred)
    (add : FecBuffer → ResolverInsertResult * FecBuffer) : Outcome (OpResult * Resolver) :=
  if is_done r (signature_of shred) then mret (Inserted DuplicateFecSet, r)
  else
    r ← open_set r key;
    match find_set key (rv_sets r) with
    | None => Panicked
    | Some b => mret (Inserted (add b).1, with_sets (update_set key (add b).2 (rv_sets r)) (rv_free r) r)
    end.

Definition chain_of (r : Resolver) (k : FecSetKey) : SlotChainState :=
  default (mkSlotChainState (fk_fec_set_index k) 0) (rv_chain r !! fk_slot k).
Definition continues (r : Resolver) (k : FecSetKey) : bool :=
  (sc_sets_completed (chain_of r k) =? 0) || (fk_fec_set_index k =? sc_next_expected_index (chain_of r k)).
Definition remember (r : Resolver) (signature : list Z) : list (list Z) :=
  if all_zero signature then rv_done r
  else (if (rv_done_depth r <=? length (rv_done r))%nat then tail (rv_done r) else rv_done r) ++ [signature].

(** A completed set leaves the sets in progress; when the queue of completed sets is full, its
    oldest buffer is free again. *)
Definition resolver_complete (r : Resolver) (key : FecSetKey) : OpResult * Resolver :=
  match find_set key (rv_sets r) with
  | None => (Flag true, r)
  | Some b =>
      let full := (rv_complete_depth r <=? rv_completed r)%nat && (0 <? rv_completed r)%nat in
      (Flag (continues r key),
       mkResolver (filter (λ x, x.1 ≠ key) (rv_sets r))
         (if full then S (rv_free r) else rv_free r) (if full then rv_completed r else S (rv_completed r))
         (remember r (fb_first_signature b))
         (<[fk_slot key := mkSlotChainState (u32_add (fk_fec_set_index key) (fb_num_data b))
              (u32_add (sc_sets_completed (chain_of r key)) 1)]> (rv_chain r))
         (rv_depth r) (rv_complete_depth r) (rv_done_depth r))
  end.

Definition resolver_prune (r : Resolver) (min_slot : Z) : Resolver :=
  let kept := filter (λ x, min_slot <= fk_slot x.1) (rv_sets r) in
  mkResolver kept (rv_free r + (length (rv_sets r) - length kept)) (rv_completed r) (rv_done r)
    (filter (λ x, min_slot <= x.1) (rv_chain r)) (rv_depth r) (rv_complete_depth r) (rv_done_depth r).

Definition resolver_step (r : Resolver) (op : ResolverOp) : Outcome (OpResult * Resolver) :=
  match op with
  | InsertData slot idx rel s => resolver_insert r (mkFecSetKey slot idx) s (add_data rel s)
  | InsertCoding slot idx pos nd nc s => resolver_insert r (mkFecSetKey slot idx) s (add_coding pos nd nc s)
  | MarkCompleted key => mret (resolver_complete r key)
  | ReleaseCompleted =>
      mret match rv_completed r with
           | O => (Flag false, r)
           | S n => (Flag true, mkResolver (rv_sets r) (S (rv_free r)) n (rv_done r) (rv_chain r) (rv_depth r)
                                  (rv_complete_depth r) (rv_done_depth r))
           end
  | WriteData key f =>
      mret (Nothing, match find_set key (rv_sets r) with
                     | None => r
                     | Some b => with_sets (update_set key (set_data (f (fb_data_shreds b)) b) (rv_sets r)) (rv_free r) r
                     end)
  | PruneBelow min_slot => mret (Nothing, resolver_prune r min_slot)
  | Drain => mret (Nothing, r)
  end.

(** ** Where the buffers are *)

(** The sets in progress have distinct buffers, none of which is among [others]. *)
Record placed (n : nat) (m : gmap FecSetKey nat) (order : list FecSetKey) (others : list nat) : Prop := {
  pl_order : NoDup order;
  pl_dom : ∀ k, k ∈ order ↔ is_Some (m !! k);
  pl_others : NoDup others;
  pl_bound : Forall (λ i, (i < n)%nat) others;
  pl_index : ∀ k i, m !! k = Some i → (i < n)%nat ∧ (i ∉ others) ∧ ∀ k', m !! k' = Some i → k' = k;
}.

Definition entry (bufs : list FecBuffer) (m : gmap FecSetKey nat) (k : FecSetKey) : option (FecSetKey * FecBuffer) :=
  i ← m !! k; b ← bufs !! i; Some (k, b).
Definition open_sets (bufs : list FecBuffer) (m : gmap FecSetKey nat) (order : list FecSetKey) : list (FecSetKey * FecBuffer) :=
  omap (entry bufs m) order.

Lemma placed_remove n m order others k i : placed n m order others → m !! k = Some i →
  placed n (delete k m) (filter (.≠ k) order) (i :: others).
Proof.
  intros [Ho Hd Hn Hb Hi] Hk. destruct (Hi k i Hk) as (Hlt & Hnot & Huniq). split.
  - by apply NoDup_filter.
  - intros k'. rewrite list_elem_of_filter, Hd, lookup_delete_is_Some. naive_solver.
  - by constructor.
  - by constructor.
  - intros k' i' [Hne Hk']%lookup_delete_Some. destruct (Hi k' i' Hk') as (? & ? & Hu).
    split_and!; [done| |].
    + intros [->|?]%elem_of_cons; [|done]. apply Hne. symmetry. by apply Huniq.
    + intros k'' [_ ?]%lookup_delete_Some. by apply Hu.
Qed.
Lemma placed_insert n m order others k i : placed n m order (i :: others) → m !! k = None →
  placed n (<[k := i]> m) (order ++ [k]) others.
Proof.
  intros [Ho Hd [Hni Hn]%NoDup_cons [Hlt Hb]%Forall_cons Hi] Hk. split; [| |done|done|].
  - apply NoDup_app. split_and!; [done| |apply NoDup_singleton]. intros x Hx ->%list_elem_of_singleton.
    apply Hd in Hx as [? ?]. congruence.
  - intros k'. rewrite elem_of_app, list_elem_of_singleton, Hd, lookup_insert_is_Some. destruct (decide (k = k')); naive_solver.
  - intros k' i' [[-> ->]|[Hne Hk']]%lookup_insert_Some.
    + split_and!; [done|done|]. intros k'' [[-> _]|[_ Hk'']]%lookup_insert_Some; [done|].
      destruct (Hi _ _ Hk'') as (_ & Hc & _). by destruct Hc; left.
    + destruct (Hi k' i' Hk') as (? & Hnot & Hu). split_and!; [done|set_solver|].
      intros k'' [[-> ->]|[_ ?]]%lookup_insert_Some; [|by apply Hu]. destruct Hnot. by left.
Qed.
Lemma placed_perm n m order others others' : others ≡ₚ others' → placed n m order others → placed n m order others'.
Proof. intros E [Ho Hd Hn Hb Hi]. split; [done|done|by rewrite <- E|by rewrite <- E|]. intros k i Hk. rewrite <- E. by apply Hi. Qed.
Lemma placed_forget n m order others i : placed n m order (i :: others) → placed n m order others.
Proof.
  intros [Ho Hd [_ Hn]%NoDup_cons [_ Hb]%Forall_cons Hi]. split; [done..|]. intros k i' Hk.
  destruct (Hi k i' Hk) as (? & Hnot & ?). set_solver.
Qed.

Lemma placed_size n m order others : placed n m order others → size m = length order.
Proof.
  intros [Ho Hd _ _ _]. rewrite <- (size_dom (D := gset FecSetKey)).
  assert (dom m = list_to_set order) as -> by (apply set_eq; intros k; by rewrite elem_of_dom, elem_of_list_to_set, Hd).
  by apply size_list_to_set.
Qed.

Section entries.
Context (bufs : list FecBuffer) (m : gmap FecSetKey nat) (order : list FecSetKey) (others : list nat).
Context (Hp : placed (length bufs) m order others).

Lemma entry_Some k : k ∈ order → ∃ i b, m !! k = Some i ∧ bufs !! i = Some b ∧ entry bufs m k = Some (k, b).
Proof.
  intros [i Hi]%(pl_dom _ _ _ _ Hp). destruct (pl_index _ _ _ _ Hp k i Hi) as (Hlt & _ & _).
  apply lookup_lt_is_Some in Hlt as [b Hb]. exists i, b. split_and!; [done|done|]. unfold entry. by rewrite Hi; cbn; rewrite Hb.
Qed.

Lemma open_sets_keys l : l ⊆ order → (open_sets bufs m l).*1 = l.
Proof.
  unfold open_sets. induction l as [|k l IH]; intros Hl; [done|]. destruct (entry_Some k) as (i & b & _ & _ & E); [set_solver|].
  cbn [omap list_omap]. rewrite E. cbn [fmap list_fmap fst]. f_equal. apply IH. set_solver.
Qed.

(** A buffer that no set has may be written. *)
Lemma open_sets_other i b : (∀ k, m !! k ≠ Some i) → open_sets (<[i := b]> bufs) m order = open_sets bufs m order.
Proof.
  intros Hi. apply list_omap_ext, Forall2_same_length_lookup. split; [done|]. intros j k k' -> [= ->].
  unfold entry. destruct (m !! k') as [i'|] eqn:E; [|done]. cbn. rewrite list_lookup_insert_ne; [done|]. naive_solver.
Qed.

Lemma open_sets_update k i b : m !! k = Some i →
  open_sets (<[i := b]> bufs) m order = update_set k b (open_sets bufs m order).
Proof.
  intros Hi. destruct (pl_index _ _ _ _ Hp k i Hi) as (Hlt & _ & Hu). unfold open_sets, update_set.
  assert (Hin : ∀ l, l ⊆ order → omap (entry (<[i:=b]> bufs) m) l
    = (λ x, if decide (x.1 = k) then (k, b) else x) <$> omap (entry bufs m) l); [|by apply Hin].
  induction l as [|k' l IH]; intros Hl; [done|]. destruct (entry_Some k') as (i' & b' & Ei & Eb & E); [set_solver|].
  cbn [omap list_omap]. rewrite E, IH by set_solver. cbn [fmap list_fmap fst]. unfold entry. rewrite Ei. cbn.
  destruct (decide (k' = k)) as [->|Hne].
  - assert (i' = i) as -> by congruence. by rewrite list_lookup_insert_eq.
  - rewrite list_lookup_insert_ne by (intros <-; naive_solver). by rewrite Eb.
Qed.

Lemma open_sets_delete k : open_sets bufs (delete k m) (filter (.≠ k) order) = filter (λ x, x.1 ≠ k) (open_sets bufs m order).
Proof.
  assert (Hin : ∀ l, l ⊆ order → omap (entry bufs (delete k m)) (filter (.≠ k) l)
    = filter (λ x, x.1 ≠ k) (omap (entry bufs m) l)); [|by apply Hin].
  induction l as [|k' l IH]; intros Hl; [done|]. destruct (entry_Some k') as (i & b & Ei & Eb & E); [set_solver|].
  cbn [omap list_omap]. rewrite E. rewrite !filter_cons. cbn [fst]. destruct (decide (k' ≠ k)) as [Hne|He].
  - cbn [omap list_omap]. unfold entry at 1. rewrite lookup_delete_ne by congruence. rewrite Ei. cbn. rewrite Eb.
    f_equal. apply IH. set_solver.
  - apply IH. set_solver.
Qed.

Lemma open_sets_find k : find_set k (open_sets bufs m order) = (i ← m !! k; bufs !! i).
Proof.
  unfold find_set. destruct (m !! k) as [i|] eqn:Ei.
  - assert (Hk : k ∈ order) by (apply (pl_dom _ _ _ _ Hp); by eexists).
    destruct (entry_Some k Hk) as (i' & b & Ei' & Eb & E). rewrite Ei in Ei'. injection Ei' as <-. cbn. rewrite Eb.
    assert (Hin : (k, b) ∈ filter (λ x, x.1 = k) (open_sets bufs m order)).
    { apply list_elem_of_filter. split; [done|]. apply list_elem_of_omap. by exists k. }
    destruct (filter _ _) as [|[k' b'] l] eqn:Ef; [by apply elem_of_nil in Hin|]. cbn.
    assert (Hin' : (k', b') ∈ filter (λ x, x.1 = k) (open_sets bufs m order)) by (rewrite Ef; left).
    apply list_elem_of_filter in Hin' as [Hk' Hin']. cbn in Hk'. subst k'.
    apply list_elem_of_omap in Hin' as (k'' & _ & E''). unfold entry in E''.
    destruct (m !! k'') as [i''|] eqn:E1; [|done]. cbn in E''. destruct (bufs !! i'') as [b''|] eqn:E2; [|done]. cbn in E''.
    injection E'' as -> ->. congruence.
  - cbn. destruct (filter _ _) as [|x l] eqn:Ef; [done|].
    assert (Hin : x ∈ filter (λ x, x.1 = k) (open_sets bufs m order)) by (rewrite Ef; left).
    apply list_elem_of_filter in Hin as [Hk Hin]. apply list_elem_of_omap in Hin as (k'' & Hk'' & E'').
    apply (pl_dom _ _ _ _ Hp) in Hk'' as [i Hi]. unfold entry in E''. rewrite Hi in E''. cbn in E''.
    destruct (bufs !! i); [|done]. cbn in E''. injection E'' as <-. cbn in Hk. congruence.
Qed.
End entries.

(** ** The pool implements the resolver *)

Abbreviation queues p := (rp_free_queue p ++ rp_completed_queue p).
Abbreviation pool_placed p := (placed (length (rp_buffers p)) (rp_in_progress p) (rp_in_progress_order p)).

Record pool_ok (p : FecResolverPool) : Prop := {
  ok_placed : pool_placed p (queues p);
  ok_depth : (length (rp_in_progress_order p) <= rp_depth p)%nat;
  ok_pos : (1 <= rp_depth p)%nat;
}.

Definition view (p : FecResolverPool) : Resolver :=
  mkResolver (open_sets (rp_buffers p) (rp_in_progress p) (rp_in_progress_order p))
    (length (rp_free_queue p)) (length (rp_completed_queue p)) (rp_done_signatures p) (rp_slot_chain p)
    (rp_depth p) (rp_complete_depth p) (rp_done_depth p).

Lemma filter_ne_head {A} `{EqDecision A} (k : A) l : NoDup (k :: l) → filter (.≠ k) (k :: l) = l.
Proof.
  intros [Hk Hl]%NoDup_cons. rewrite filter_cons_False by auto. apply list_filter_all. apply Forall_forall. intros x Hx ->. done.
Qed.
Lemma filter_keys_head k b (l : list (FecSetKey * FecBuffer)) : NoDup (k :: l.*1) → filter (λ x, x.1 ≠ k) ((k, b) :: l) = l.
Proof.
  intros [Hk Hl]%NoDup_cons. rewrite filter_cons_False by (cbn; auto). apply list_filter_all. apply Forall_forall.
  intros x Hx E. apply Hk. rewrite <- E. by apply list_elem_of_fmap_2.
Qed.

Lemma update_buffer_eq p i b f : rp_buffers p !! i = Some b →
  update_buffer i f p = Done (set_buffers (<[i := f b]> (rp_buffers p)) p).
Proof. intros E. unfold update_buffer, buffer_at. by rewrite E. Qed.

Lemma evict_ok p k rest : pool_placed p (queues p) → rp_in_progress_order p = k :: rest →
  ∃ i p', evict_oldest p = Done (i, p') ∧ pool_placed p' (i :: queues p') ∧ rp_in_progress_order p' = rest
    ∧ rp_in_progress p' = delete k (rp_in_progress p)
    ∧ view p' = with_sets (tail (rv_sets (view p))) (rv_free (view p)) (view p).
Proof.
  intros Hp Ho. destruct (entry_Some _ _ _ _ Hp k) as (i & b & Ei & Eb & E); [rewrite Ho; left|].
  unfold evict_oldest. rewrite Ho. cbn [rp_in_progress set_in_progress_order]. rewrite Ei.
  unfold buffer_at at 1. cbn [rp_buffers set_in_progress set_in_progress_order]. rewrite Eb, Done_bind.
  erewrite update_buffer_eq by exact Eb. rewrite Done_bind. exists i. eexists. split; [done|].
  pose proof (pl_order _ _ _ _ Hp) as Hnd. rewrite Ho in Hnd.
  pose proof (placed_remove _ _ _ _ _ _ Hp Ei) as Hr. rewrite Ho, filter_ne_head in Hr by done. split; [|split_and!; [done|done|]].
  - cbn [set_buffers rp_buffers rp_in_progress rp_in_progress_order rp_free_queue rp_completed_queue]. by rewrite length_insert.
  - unfold view, with_sets. cbn -[open_sets]. f_equal.
    rewrite open_sets_other by (intros k' [Hne Hk']%lookup_delete_Some; destruct (pl_index _ _ _ _ Hp k i Ei) as (_ & _ & Hu);
      pose proof (Hu k' Hk'); congruence).
    pose proof (open_sets_delete _ _ _ _ Hp k) as Hd. pose proof (open_sets_keys _ _ _ _ Hp rest ltac:(rewrite Ho; set_solver)) as Hk.
    rewrite Ho in *. rewrite filter_ne_head in Hd by done. unfold open_sets at 2 in Hd. cbn [omap list_omap] in Hd. rewrite E in Hd.
    change (omap (entry (rp_buffers p) (rp_in_progress p)) rest) with (open_sets (rp_buffers p) (rp_in_progress p) rest) in Hd.
    rewrite filter_keys_head in Hd by (by rewrite Hk). unfold open_sets at 2. cbn [omap list_omap]. by rewrite E.
Qed.
Lemma evict_empty p : rp_in_progress_order p = [] → evict_oldest p = Panicked.
Proof. intros E. unfold evict_oldest. by rewrite E. Qed.

Lemma open_sets_snoc bufs m order others k i b : placed (length bufs) m order (i :: others) → m !! k = None → bufs !! i = Some b →
  open_sets bufs (<[k := i]> m) (order ++ [k]) = open_sets bufs m order ++ [(k, b)].
Proof.
  intros Hp Hk Hb. unfold open_sets. rewrite omap_app. f_equal.
  - apply list_omap_ext, Forall2_same_length_lookup. split; [done|]. intros j x y Hx Hy. rewrite Hx in Hy. injection Hy as <-.
    unfold entry. rewrite lookup_insert_ne; [done|]. intros <-. apply list_elem_of_lookup_2 in Hx.
    apply (pl_dom _ _ _ _ Hp) in Hx as [? ?]. congruence.
  - cbn. unfold entry. rewrite lookup_insert_eq. cbn. by rewrite Hb.
Qed.

Lemma enforce_none fuel p : (size (rp_in_progress p) <= rp_depth p)%nat → enforce_depth fuel p = Done p.
Proof. intros Hs. destruct fuel; cbn [enforce_depth]; by rewrite (proj2 (Nat.ltb_ge _ _)). Qed.

(** A new set gets the buffer [i], which nothing else has. *)
Lemma attach_ok p key i : pool_placed p (i :: queues p) → rp_in_progress p !! key = None →
  (length (rp_in_progress_order p) <= rp_depth p)%nat → (1 <= rp_depth p)%nat →
  ∃ p', attach key i p = Done p' ∧ pool_ok p' ∧ rp_in_progress p' !! key = Some i
    ∧ view p' = with_sets (drop (S (length (rp_in_progress_order p)) - rp_depth p)
                             (rv_sets (view p) ++ [(key, set_key key FecBuffer_new)])) (rv_free (view p)) (view p).
Proof.
  intros Hp Hk Hd Hpos. assert (Hlt : (i < length (rp_buffers p))%nat) by (by pose proof (pl_bound _ _ _ _ Hp) as [? _]%Forall_cons).
  apply lookup_lt_is_Some in Hlt as [b Hb]. unfold attach. erewrite update_buffer_eq by exact Hb. rewrite Done_bind.
  set (p1 := set_in_progress_order _ _).
  assert (Hp1 : pool_placed p1 (queues p1)).
  { unfold p1. cbn. rewrite length_insert. by apply placed_insert. }
  assert (Hv : view p1 = with_sets (rv_sets (view p) ++ [(key, set_key key FecBuffer_new)]) (rv_free (view p)) (view p)).
  { unfold p1, view, with_sets. cbn -[open_sets]. f_equal.
    rewrite (open_sets_snoc _ _ _ (queues p) _ _ (set_key key FecBuffer_new)); [|by rewrite length_insert|done|].
    - f_equal. apply open_sets_other. intros k' Hk'. destruct (pl_index _ _ _ _ Hp k' i Hk') as (_ & Hn & _). apply Hn. left.
    - rewrite list_lookup_insert_eq; [done|by eapply lookup_lt_Some]. }
  assert (Hs : size (rp_in_progress p1) = S (length (rp_in_progress_order p))).
  { rewrite (placed_size _ _ _ _ Hp1). unfold p1. cbn. rewrite length_app. cbn. lia. }
  assert (Hk1 : rp_in_progress p1 !! key = Some i) by apply lookup_insert_eq.
  assert (Hl1 : length (rp_in_progress_order p1) = S (length (rp_in_progress_order p))) by (rewrite <- Hs; by apply placed_size in Hp1).
  destruct (decide (S (length (rp_in_progress_order p)) <= rp_depth p)%nat) as [Hle|Hgt].
  - exists p1. split; [apply enforce_none; by rewrite Hs|]. split; [split; [done|by rewrite Hl1|done]|]. split; [done|].
    rewrite Hv. by replace (S (length (rp_in_progress_order p)) - rp_depth p)%nat with 0%nat by lia.
  - destruct (rp_in_progress_order p) as [|k0 rest] eqn:Eo; [cbn in *; lia|].
    assert (Eo1 : rp_in_progress_order p1 = k0 :: rest ++ [key]) by (unfold p1; cbn; by rewrite Eo).
    destruct (evict_ok p1 k0 (rest ++ [key]) Hp1 Eo1) as (j & p2 & Ee & Hp2 & Eo2 & Em & Ev).
    apply placed_forget in Hp2. exists p2. rewrite Hs. cbn [enforce_depth]. rewrite (proj2 (Nat.ltb_lt _ _)), Ee, Done_bind by (change (rp_depth p1) with (rp_depth p); lia).
    assert (Ed : rp_depth p2 = rp_depth p) by (by apply (f_equal rv_depth) in Ev).
    assert (Hl2 : length (rp_in_progress_order p2) = rp_depth p2) by (rewrite Eo2, Ed, length_app; cbn in *; lia).
    split; [apply enforce_none; cbn [snd]; rewrite (placed_size _ _ _ _ Hp2); lia|]. split; [split; [done|lia|lia]|]. split.
    + rewrite Em, lookup_delete_ne; [done|]. intros ->. assert (Hin : key ∈ key :: rest) by left.
      apply (pl_dom _ _ _ _ Hp) in Hin as [? ?]. congruence.
    + rewrite Ev, Hv. replace (S (length (k0 :: rest)) - rp_depth p)%nat with 1%nat by (cbn in *; lia). done.
Qed.

Lemma ensure_ok p key : pool_ok p →
  match ensure_buffer p key with
  | Done (i, p') => pool_ok p' ∧ rp_in_progress p' !! key = Some i ∧ open_set (view p) key = Done (view p')
  | Panicked => open_set (view p) key = Panicked
  end.
Proof.
  intros [Hp Hd Hpos]. unfold ensure_buffer, open_set. cbn [view rv_sets rv_free rv_depth].
  pose proof (open_sets_keys _ _ _ _ Hp (rp_in_progress_order p) ltac:(done)) as Hkeys. rewrite Hkeys.
  destruct (rp_in_progress p !! key) as [i|] eqn:Ek.
  { rewrite decide_True by (apply (pl_dom _ _ _ _ Hp); by eexists). done. }
  rewrite decide_False by (rewrite (pl_dom _ _ _ _ Hp), Ek; apply is_Some_None).
  assert (Hlen : length (open_sets (rp_buffers p) (rp_in_progress p) (rp_in_progress_order p)) = length (rp_in_progress_order p))
    by (rewrite <- Hkeys at 2; by rewrite length_fmap).
  destruct (rp_free_queue p) as [|i free] eqn:Ef; cbn [length].
  - destruct (rp_in_progress_order p) as [|k rest] eqn:Eo; [by rewrite evict_empty|].
    rewrite <- Eo, <- Ef in Hp. destruct (evict_ok p k rest Hp Eo) as (i & p1 & Ee & Hp1 & Eo1 & Em & Ev). rewrite Ee, Done_bind.
    assert (Ed : rp_depth p1 = rp_depth p) by (by apply (f_equal rv_depth) in Ev).
    destruct (attach_ok p1 key i) as (p2 & Ea & Hok & Hk2 & Ev2); [done|rewrite Em; apply lookup_delete_None; by right|rewrite Eo1, Ed; cbn in *; lia|lia|].
    rewrite Ea, Done_bind. split; [done|]. split; [done|]. rewrite Ev2, Ev, Eo1, Ed.
    destruct (open_sets _ _ (k :: rest)) as [|x l] eqn:El; [done|]. unfold view, with_sets. cbn -[open_sets]. rewrite Eo, El, Ef. cbn -[open_sets].
    replace (S (length rest) - rp_depth p)%nat with 0%nat by (cbn in *; lia). done.
  - rewrite Done_bind. set (p1 := set_free_queue free p).
    destruct (attach_ok p1 key i) as (p2 & Ea & Hok & Hk2 & Ev2); [unfold p1; cbn; done|done|done|done|].
    rewrite Ea, Done_bind. split; [done|]. split; [done|]. rewrite Ev2. unfold p1, view, with_sets. cbn -[open_sets drop]. by rewrite Hlen.
Qed.

(** The buffer of a set in progress, read and written. *)
Lemma set_buffer p key i : pool_ok p → rp_in_progress p !! key = Some i →
  ∃ b, rp_buffers p !! i = Some b ∧ find_set key (rv_sets (view p)) = Some b.
Proof.
  intros [Hp _ _] Hk. destruct (pl_index _ _ _ _ Hp key i Hk) as (Hlt & _ & _). apply lookup_lt_is_Some in Hlt as [b Hb].
  exists b. split; [done|]. cbn [view rv_sets]. rewrite (open_sets_find _ _ _ _ Hp), Hk. done.
Qed.
Lemma write_ok p key i b : pool_ok p → rp_in_progress p !! key = Some i →
  pool_ok (set_buffers (<[i := b]> (rp_buffers p)) p)
  ∧ view (set_buffers (<[i := b]> (rp_buffers p)) p) = with_sets (update_set key b (rv_sets (view p))) (rv_free (view p)) (view p).
Proof.
  intros [Hp Hd Hpos] Hk. split; [split; cbn; [by rewrite length_insert|done|done]|].
  unfold view, with_sets. cbn -[open_sets]. f_equal. by eapply open_sets_update.
Qed.
Lemma update_set_twice k b b' sets : update_set k b (update_set k b' sets) = update_set k b sets.
Proof.
  unfold update_set. rewrite <- list_fmap_compose. apply list_fmap_ext. intros _ [k' b''] _. cbn.
  destruct (decide (k' = k)); [by rewrite decide_True|by rewrite decide_False].
Qed.

(** Both inserts end alike, once the buffer holds [b], after a first update. *)
Lemma is_done_eq p signature : is_done (view p) signature = is_fec_set_done p signature.
Proof. unfold is_done, is_fec_set_done. cbn. by destruct (all_zero signature). Qed.

Lemma view_count c p : view (count c p) = view p.
Proof. done. Qed.
Lemma view_report proof p : view (report_equivocation proof p) = view p.
Proof. unfold report_equivocation. by case_match. Qed.
Lemma ok_count c p : pool_ok p → pool_ok (count c p).
Proof. by intros []. Qed.
Lemma ok_report proof p : pool_ok p → pool_ok (report_equivocation proof p).
Proof. intros []. unfold report_equivocation. by case_match. Qed.

(** What an operation returns, seen without buffers. *)
Definition agrees {A} (r : Outcome (A * FecResolverPool)) (s : Outcome (OpResult * Resolver)) (f : A → OpResult) : Prop :=
  match r with
  | Done (x, p) => pool_ok p ∧ s = Done (f x, view p)
  | Panicked => s = Panicked
  end.

(** The two ends of an insert into the buffer [i] of a set. *)
Lemma clash_ok p existing s proof : pool_ok p →
  agrees (mret (if bool_decide (signature_of existing ≠ signature_of s) then (Equivocation, report_equivocation proof p)
                else (DuplicateShred, count duplicate_shreds_rejected p)))
    (Done (Inserted (clash existing s), view p)) Inserted.
Proof.
  intros Hok. unfold agrees, clash. case_bool_decide; cbn [mret Outcome_ret].
  - split; [by apply ok_report|by rewrite view_report].
  - split; [by apply ok_count|by rewrite view_count].
Qed.
Lemma store_ok p key i b f : pool_ok p → rp_in_progress p !! key = Some i → rp_buffers p !! i = Some b →
  agrees (p ← update_buffer i f p; r ← check_fec_status (count shreds_inserted p) i; mret (r, count shreds_inserted p))
    (Done (Inserted (status (f b)), with_sets (update_set key (f b) (rv_sets (view p))) (rv_free (view p)) (view p))) Inserted.
Proof.
  intros Hok Hk Eb. erewrite update_buffer_eq by exact Eb. rewrite Done_bind. destruct (write_ok p key i (f b) Hok Hk) as (Hok2 & <-).
  unfold check_fec_status, buffer_at. change (rp_buffers (count _ (set_buffers ?x p))) with x.
  rewrite list_lookup_insert_eq by (by eapply lookup_lt_Some). split; [by apply ok_count|done].
Qed.

Lemma insert_data_ok p slot idx rel s : pool_ok p →
  agrees (FecResolverPool_insert_data_shred p slot idx rel s)
    (resolver_insert (view p) (mkFecSetKey slot idx) s (add_data rel s)) Inserted.
Proof.
  intros Hok. unfold FecResolverPool_insert_data_shred, resolver_insert. rewrite is_done_eq.
  destruct (is_fec_set_done p _); [by split; [apply ok_count|]|]. pose proof (ensure_ok p (mkFecSetKey slot idx) Hok) as He.
  destruct (ensure_buffer p _) as [[i p1]|]; [|by rewrite He]. destruct He as (Hok1 & Hk & ->). rewrite !Done_bind.
  destruct (set_buffer p1 _ i Hok1 Hk) as (b & Eb & Ef). rewrite Ef. erewrite update_buffer_eq by exact Eb. rewrite Done_bind.
  set (b1 := track_first (signature_of s) b). destruct (write_ok p1 _ i b1 Hok1 Hk) as (Hok2 & Ev2).
  set (p2 := set_buffers _ p1) in *. destruct (set_buffer p2 _ i Hok2 Hk) as (b2 & Eb2 & Ef2).
  assert (b2 = b1) as -> by (unfold p2 in Eb2; cbn in Eb2; rewrite list_lookup_insert_eq in Eb2 by (by eapply lookup_lt_Some); congruence).
  unfold buffer_at at 1. rewrite Eb2, Done_bind. unfold add_data. fold b1. destruct (fb_data_shreds b1 !! rel) as [ex|] eqn:Ex.
  - cbn [fst snd]. rewrite <- Ev2. by apply clash_ok.
  - pose proof (store_ok p2 _ i b1 (λ b, set_data (<[rel := s]> (fb_data_shreds b)) b) Hok2 Hk Eb2) as Hs. rewrite Ev2 in Hs.
    unfold with_sets in Hs. cbn [rv_sets rv_free rv_completed rv_done rv_chain rv_depth rv_complete_depth rv_done_depth] in Hs.
    rewrite update_set_twice in Hs. exact Hs.
Qed.

Lemma insert_coding_ok p slot idx pos nd nc s : pool_ok p →
  agrees (FecResolverPool_insert_coding_shred p slot idx pos nd nc s)
    (resolver_insert (view p) (mkFecSetKey slot idx) s (add_coding pos nd nc s)) Inserted.
Proof.
  intros Hok. unfold FecResolverPool_insert_coding_shred, resolver_insert. rewrite is_done_eq.
  destruct (is_fec_set_done p _); [by split; [apply ok_count|]|]. pose proof (ensure_ok p (mkFecSetKey slot idx) Hok) as He.
  destruct (ensure_buffer p _) as [[i p1]|]; [|by rewrite He]. destruct He as (Hok1 & Hk & ->). rewrite !Done_bind.
  destruct (set_buffer p1 _ i Hok1 Hk) as (b & Eb & Ef). rewrite Ef. erewrite update_buffer_eq by exact Eb. rewrite Done_bind.
  assert (Hlt : (i < length (rp_buffers p1))%nat) by (by eapply lookup_lt_Some).
  erewrite update_buffer_eq by (cbn; by apply list_lookup_insert_eq). rewrite Done_bind. cbn [rp_buffers set_buffers].
  set (b1 := FecBuffer_learn_params _ _ _). destruct (write_ok p1 _ i b1 Hok1 Hk) as (Hok2 & Ev2).
  replace (set_buffers _ (set_buffers _ p1)) with (set_buffers (<[i:=b1]> (rp_buffers p1)) p1)
    by (unfold set_buffers; cbn; by rewrite list_insert_insert_eq).
  set (p2 := set_buffers _ p1) in *.
  assert (Eb2 : rp_buffers p2 !! i = Some b1) by (by apply list_lookup_insert_eq).
  unfold buffer_at at 1. rewrite Eb2, Done_bind. unfold add_coding. fold b1. destruct (fb_coding_shreds b1 !! pos) as [ex|] eqn:Ex.
  - cbn [fst snd]. rewrite <- Ev2. by apply clash_ok.
  - pose proof (store_ok p2 _ i b1 (λ b, set_coding (<[pos := s]> (fb_coding_shreds b)) b) Hok2 Hk Eb2) as Hs. rewrite Ev2 in Hs.
    unfold with_sets in Hs. cbn [rv_sets rv_free rv_completed rv_done rv_chain rv_depth rv_complete_depth rv_done_depth] in Hs.
    rewrite update_set_twice in Hs. exact Hs.
Qed.

(** A buffer that the caller holds, in no queue and in no set. *)
Lemma held_buffer p i others : pool_placed p (i :: others) →
  ∃ b, rp_buffers p !! i = Some b ∧ ∀ b', view (set_buffers (<[i := b']> (rp_buffers p)) p) = view p
    ∧ pool_placed (set_buffers (<[i := b']> (rp_buffers p)) p) (i :: others).
Proof.
  intros Hp. assert (Hlt : (i < length (rp_buffers p))%nat) by (by pose proof (pl_bound _ _ _ _ Hp) as [? _]%Forall_cons).
  apply lookup_lt_is_Some in Hlt as [b Hb]. exists b. split; [done|]. intros b'. split; [|cbn; by rewrite length_insert].
  unfold view. cbn -[open_sets]. f_equal. apply open_sets_other. intros k Hk.
  destruct (pl_index _ _ _ _ Hp k i Hk) as (_ & Hn & _). apply Hn. left.
Qed.

Definition with_counts (free completed : nat) (r : Resolver) : Resolver :=
  mkResolver (rv_sets r) free completed (rv_done r) (rv_chain r) (rv_depth r) (rv_complete_depth r) (rv_done_depth r).

Lemma recycle_ok p i others : pool_placed p (i :: others) →
  ∃ p', recycle i p = Done p' ∧ pool_placed p' (i :: others) ∧ rp_free_queue p' = rp_free_queue p ++ [i]
    ∧ rp_completed_queue p' = rp_completed_queue p ∧ rp_in_progress p' = rp_in_progress p
    ∧ rp_in_progress_order p' = rp_in_progress_order p ∧ rp_depth p' = rp_depth p
    ∧ view p' = with_counts (S (rv_free (view p))) (rv_completed (view p)) (view p).
Proof.
  intros Hp. destruct (held_buffer p i others Hp) as (b & Eb & Hw). destruct (Hw (FecBuffer_reset b)) as [Hv Hp'].
  unfold recycle. erewrite update_buffer_eq by exact Eb. rewrite Done_bind. eexists. split; [done|].
  split; [exact Hp'|]. split_and!; try done. rewrite <- Hv. unfold view, with_counts. cbn -[open_sets]. f_equal.
  rewrite length_app. cbn. lia.
Qed.

Lemma release_ok p : pool_ok p →
  agrees (FecResolverPool_release_completed p)
    (mret match rv_completed (view p) with
          | O => (Flag false, view p)
          | S n => (Flag true, with_counts (S (rv_free (view p))) n (view p))
          end) Flag.
Proof.
  intros [Hp Hd Hpos]. unfold FecResolverPool_release_completed. cbn [view rv_completed].
  destruct (rp_completed_queue p) as [|i queue] eqn:Eq; cbn [length]; [by split; [split; rewrite ?Eq|]|].
  set (p1 := set_completed_queue queue p).
  assert (Hp1 : pool_placed p1 (i :: queues p1)).
  { eapply placed_perm; [|exact Hp]. cbn. rewrite (Permutation_middle _ _ i). done. }
  destruct (recycle_ok p1 i _ Hp1) as (p2 & Er & Hp2 & Ef & Ec & Em & Eo & Ed & Ev). rewrite Er, Done_bind. cbn.
  split.
  - split; [|by rewrite Eo, Ed|by rewrite Ed].
    eapply placed_perm; [|exact Hp2]. rewrite Ef, Ec. cbn. rewrite <- (assoc_L (++)). by rewrite Permutation_middle.
  - by rewrite Ev.
Qed.

Lemma write_data_ok p key f : pool_ok p →
  agrees (p ← FecResolverPool_write_data p key f; mret ((), p))
    (mret (Nothing, match find_set key (rv_sets (view p)) with
                    | None => view p
                    | Some b => with_sets (update_set key (set_data (f (fb_data_shreds b)) b) (rv_sets (view p))) (rv_free (view p)) (view p)
                    end)) (λ _, Nothing).
Proof.
  intros Hok. unfold FecResolverPool_write_data. destruct (rp_in_progress p !! key) as [i|] eqn:Ek.
  - destruct (set_buffer p key i Hok Ek) as (b & Eb & ->). erewrite update_buffer_eq by exact Eb. rewrite Done_bind.
    destruct (write_ok p key i (set_data (f (fb_data_shreds b)) b) Hok Ek) as [Hok' <-]. by split.
  - cbn [view rv_sets]. rewrite (open_sets_find _ _ _ _ (ok_placed _ Hok)), Ek. by split.
Qed.

(** A buffer joins the completed queue. *)
Lemma retire_ok p i : pool_placed p (i :: queues p) →
  (length (rp_in_progress_order p) <= rp_depth p)%nat → (1 <= rp_depth p)%nat →
  let r := view p in
  let full := (rv_complete_depth r <=? rv_completed r)%nat && (0 <? rv_completed r)%nat in
  ∃ p', retire i p = Done p' ∧ pool_ok p'
    ∧ view p' = with_counts (if full then S (rv_free r) else rv_free r) (if full then rv_completed r else S (rv_completed r)) r.
Proof.
  intros Hp Hd Hpos r full. unfold retire, full, r. cbn [view rv_complete_depth rv_completed rv_free]. clear full.
  assert (Hpush : ∃ p', Done (set_completed_queue (rp_completed_queue p ++ [i]) p) = Done p' ∧ pool_ok p'
    ∧ view p' = with_counts (length (rp_free_queue p)) (S (length (rp_completed_queue p))) r).
  { eexists. split; [done|]. split.
    - split; [|done|done]. eapply placed_perm; [|exact Hp]. cbn. rewrite (assoc_L (++)). by rewrite Permutation_cons_append.
    - unfold view, with_counts. cbn -[open_sets]. f_equal. rewrite length_app. cbn. lia. }
  destruct (Nat.leb_spec (rp_complete_depth p) (length (rp_completed_queue p))) as [Hc|Hc]; cbn [andb]; [|exact Hpush].
  destruct (rp_completed_queue p) as [|o queue] eqn:Eq; cbn [length];
    [rewrite Done_bind, Eq; exact Hpush|]. clear Hpush.
  set (p1 := set_completed_queue queue p).
  assert (Hp1 : pool_placed p1 (o :: i :: queues p1)).
  { eapply placed_perm; [|exact Hp]. cbn. rewrite <- Permutation_middle. apply perm_swap. }
  destruct (recycle_ok p1 o _ Hp1) as (p2 & Er & Hp2 & Ef & Ec & Em & Eo & Ed & Ev). rewrite Er, Done_bind. eexists. split; [done|].
  change (0 <? S (length queue))%nat with true. cbn [andb]. split.
  - split; [|by cbn; rewrite Eo, Ed|by cbn; rewrite Ed]. eapply placed_perm; [|exact Hp2]. cbn. rewrite Ef, Ec. cbn.
    rewrite <- !(assoc_L (++)). cbn. rewrite <- Permutation_middle. apply perm_skip. rewrite (assoc_L (++)). by rewrite Permutation_cons_append.
  - transitivity (with_counts (rv_free (view p2)) (S (rv_completed (view p2))) (view p2)); [|by rewrite Ev].
    unfold view, with_counts. cbn -[open_sets]. f_equal. rewrite length_app. cbn. lia.
Qed.

(** The chain and the signatures of a completed set; its buffers stay where they are. *)
Lemma bookkeeping p key num_data signature : let r := view p in
  ∃ p', validate_chain p (fk_slot key) (fk_fec_set_index key) num_data = (continues r key, p') ∧
  let p4 := count sets_completed (record_done_signature p' signature) in
  (∀ others, pool_placed p others → pool_placed p4 others) ∧ queues p4 = queues p
  ∧ rp_in_progress_order p4 = rp_in_progress_order p ∧ rp_depth p4 = rp_depth p
  ∧ view p4 = mkResolver (rv_sets r) (rv_free r) (rv_completed r) (remember r signature)
      (<[fk_slot key := mkSlotChainState (u32_add (fk_fec_set_index key) num_data)
            (u32_add (sc_sets_completed (chain_of r key)) 1)]> (rv_chain r))
      (rv_depth r) (rv_complete_depth r) (rv_done_depth r).
Proof.
  intros r. unfold validate_chain. eexists. split.
  - reflexivity.
  - unfold record_done_signature, remember, chain_of, r. cbn [view rv_chain rv_done rv_done_depth].
    destruct (if _ =? 0 then _ else _), (all_zero signature); done.
Qed.

Lemma mark_completed_ok p key : pool_ok p →
  agrees (FecResolverPool_mark_completed p key) (mret (resolver_complete (view p) key)) Flag.
Proof.
  intros Hok. pose proof Hok as [Hp Hd Hpos]. unfold FecResolverPool_mark_completed, resolver_complete.
  destruct (rp_in_progress p !! key) as [i|] eqn:Ek; cycle 1.
  { cbn [view rv_sets]. rewrite (open_sets_find _ _ _ _ Hp), Ek. by split. }
  destruct (set_buffer p key i Hok Ek) as (b & Eb & ->).
  set (p1 := set_in_progress_order _ _).
  assert (Hp1 : pool_placed p1 (i :: queues p1)) by (by apply placed_remove).
  assert (Hv1 : view p1 = with_sets (filter (λ x, x.1 ≠ key) (rv_sets (view p))) (rv_free (view p)) (view p)).
  { unfold p1, view, with_sets. cbn -[open_sets]. f_equal. by eapply open_sets_delete. }
  destruct (held_buffer p1 i _ Hp1) as (b' & Eb' & Hw). change (rp_buffers p1) with (rp_buffers p) in Eb'.
  rewrite Eb in Eb'. injection Eb' as <-. destruct (Hw (set_resolved b)) as [Hv2 Hp2].
  erewrite update_buffer_eq by exact Eb. rewrite Done_bind. set (p2 := set_buffers _ p1) in *.
  assert (Eb2 : rp_buffers p2 !! i = Some (set_resolved b)) by (apply list_lookup_insert_eq; by eapply lookup_lt_Some).
  unfold buffer_at. rewrite Eb2, Done_bind. cbn [fb_num_data fb_first_signature set_resolved].
  destruct (bookkeeping p2 key (fb_num_data b) (fb_first_signature b)) as (p3 & -> & Hp4 & Eq4 & Eo4 & Ed4 & Ev4).
  set (p4 := count _ _) in *. destruct (retire_ok p4 i) as (p5 & -> & Hok5 & Ev5).
  - rewrite Eq4. by apply Hp4.
  - rewrite Eo4, Ed4. cbn. etransitivity; [apply length_filter|]. done.
  - by rewrite Ed4.
  - rewrite Done_bind. split; [done|]. rewrite Ev5, Ev4, Hv2, Hv1. done.
Qed.

(** The fields that pruning a key leaves alone. *)
Definition kept_fields (p : FecResolverPool) :=
  (rp_completed_queue p, rp_done_signatures p, rp_slot_chain p, rp_in_progress_order p,
   (rp_depth p, rp_complete_depth p, rp_done_depth p)).

(** [order] is the order as it will be once the loop is over. *)
Lemma prune_key_ok p order k : placed (length (rp_buffers p)) (rp_in_progress p) order (queues p) → k ∈ order →
  ∃ p', prune_key p k = Done p' ∧ placed (length (rp_buffers p')) (rp_in_progress p') (filter (.≠ k) order) (queues p')
    ∧ open_sets (rp_buffers p') (rp_in_progress p') (filter (.≠ k) order)
      = filter (λ x, x.1 ≠ k) (open_sets (rp_buffers p) (rp_in_progress p) order)
    ∧ length (rp_free_queue p') = S (length (rp_free_queue p)) ∧ kept_fields p' = kept_fields p.
Proof.
  intros Hp Hk. destruct (entry_Some _ _ _ _ Hp k Hk) as (i & b & Ei & Eb & _).
  pose proof (placed_remove _ _ _ _ _ _ Hp Ei) as Hr. unfold prune_key, recycle. rewrite Ei. erewrite update_buffer_eq by exact Eb.
  rewrite Done_bind. eexists. split; [done|]. cbn [rp_buffers set_free_queue set_buffers set_in_progress rp_in_progress rp_free_queue rp_completed_queue].
  rewrite length_insert. split_and!; [| |rewrite length_app; cbn; lia|done].
  - eapply placed_perm; [|exact Hr]. rewrite <- (assoc_L (++)). apply Permutation_middle.
  - rewrite open_sets_other; [by eapply open_sets_delete|]. intros k' Hk'.
    destruct (pl_index _ _ _ _ Hr k' i Hk') as (_ & Hn & _). apply Hn. left.
Qed.

Lemma prune_loop_ok keys : ∀ p order, placed (length (rp_buffers p)) (rp_in_progress p) order (queues p) →
  NoDup keys → keys ⊆ order →
  ∃ p', for_each prune_key p keys = Done p'
    ∧ placed (length (rp_buffers p')) (rp_in_progress p') (filter (.∉ keys) order) (queues p')
    ∧ open_sets (rp_buffers p') (rp_in_progress p') (filter (.∉ keys) order)
      = filter (λ x, x.1 ∉ keys) (open_sets (rp_buffers p) (rp_in_progress p) order)
    ∧ length (rp_free_queue p') = (length (rp_free_queue p) + length keys)%nat ∧ kept_fields p' = kept_fields p.
Proof.
  induction keys as [|k keys IH]; intros p order Hp Hnd Hin; cbn [for_each].
  - exists p. rewrite !(list_filter_all _ _) by (apply Forall_forall; intros; apply not_elem_of_nil).
    split_and!; done.
  - apply NoDup_cons in Hnd as [Hk Hnd]. destruct (prune_key_ok p order k Hp) as (p1 & -> & Hp1 & Es1 & Ef1 & Eo1); [set_solver|].
    rewrite Done_bind. destruct (IH p1 (filter (.≠ k) order) Hp1 Hnd) as (p2 & -> & Hp2 & Es2 & Ef2 & Eo2).
    { intros x Hx. apply list_elem_of_filter. split; [by intros ->|]. apply Hin. by right. }
    exists p2. split; [done|]. rewrite list_filter_filter in Hp2, Es2. rewrite Es1, list_filter_filter in Es2.
    assert (Ho : filter (λ x, (x ∉ keys) ∧ x ≠ k) order = filter (.∉ k :: keys) order)
      by (apply list_filter_iff; intros x; rewrite not_elem_of_cons; tauto).
    rewrite Ho in Hp2, Es2. split; [done|]. split; [|split; [cbn; lia|congruence]]. rewrite Es2.
    apply list_filter_iff. intros x. rewrite not_elem_of_cons. tauto.
Qed.

Lemma filter_split_length {A} (P Q : A → Prop) `{∀ x, Decision (P x)} `{∀ x, Decision (Q x)} l :
  (∀ x, x ∈ l → P x ↔ ¬ Q x) → (length (filter P l) + length (filter Q l) = length l)%nat.
Proof.
  induction l as [|x l IH]; intros Hpq; [done|]. assert (IH' := IH ltac:(intros; apply Hpq; by right)).
  pose proof (Hpq x ltac:(left)) as Hx. rewrite !filter_cons. destruct (decide (P x)), (decide (Q x)); cbn [length]; tauto || lia.
Qed.

Lemma open_sets_length bufs m order others : placed (length bufs) m order others → length (open_sets bufs m order) = length order.
Proof. intros Hp. rewrite <- (length_fmap fst). by rewrite (open_sets_keys _ _ _ _ Hp). Qed.

Lemma removed_length {A} `{EqDecision A} (keys order : list A) : NoDup keys → NoDup order → keys ⊆ order →
  (length keys + length (filter (.∉ keys) order) = length order)%nat.
Proof.
  intros Hk Ho Hin. rewrite <- (filter_split_length (.∈ keys) (.∉ keys) order) by (intros; destruct (decide (x ∈ keys)); tauto).
  f_equal. apply Permutation_length, NoDup_Permutation; [done|by apply NoDup_filter|]. intros x. rewrite list_elem_of_filter. naive_solver.
Qed.

Lemma pool_prune_ok `{!IterOrder FecSetKey} p min_slot : pool_ok p →
  agrees (p ← FecResolverPool_prune_slots_below p min_slot; mret ((), p)) (mret (Nothing, resolver_prune (view p) min_slot))
    (λ _, Nothing).
Proof.
  intros [Hp Hd Hpos]. unfold FecResolverPool_prune_slots_below. set (keys := filter _ _).
  assert (Hkeys : ∀ k, k ∈ keys ↔ k ∈ rp_in_progress_order p ∧ fk_slot k < min_slot).
  { intros k. unfold keys. rewrite list_elem_of_filter, elem_of_iter_order, elem_of_dom, (pl_dom _ _ _ _ Hp). tauto. }
  assert (Hnd : NoDup keys) by (apply NoDup_filter; rewrite iter_order_perm; apply NoDup_elements).
  assert (Hsub : keys ⊆ rp_in_progress_order p) by (intros k Hk; by apply Hkeys).
  destruct (prune_loop_ok keys p _ Hp Hnd Hsub) as (p1 & -> & Hp1 & Es1 & Ef1 & Eo1).
  rewrite !Done_bind. injection Eo1 as Ec Edn Ech Eo Ed Ecd Edd.
  pose proof (removed_length keys _ Hnd (pl_order _ _ _ _ Hp) Hsub) as Hlen.
  pose proof (open_sets_length _ _ _ _ Hp) as Hl. pose proof (open_sets_length _ _ _ _ Hp1) as Hl1. rewrite Es1 in Hl1.
  assert (Ho : filter (.∉ keys) (rp_in_progress_order p) = filter (λ k, min_slot <= fk_slot k) (rp_in_progress_order p)).
  { apply list_filter_ext_in. intros k Hk. rewrite Hkeys. split; [|lia]. intros Hn. apply Z.nlt_ge. tauto. }
  assert (Ek : filter (λ x, x.1 ∉ keys) (open_sets (rp_buffers p) (rp_in_progress p) (rp_in_progress_order p))
      = filter (λ x, min_slot <= fk_slot x.1) (open_sets (rp_buffers p) (rp_in_progress p) (rp_in_progress_order p))).
  { apply list_filter_ext_in. intros x Hx%(list_elem_of_fmap_2 fst). rewrite (open_sets_keys _ _ _ _ Hp) in Hx by done.
    rewrite Hkeys. split; [|lia]. intros Hn. apply Z.nlt_ge. tauto. }
  rewrite Ho in Hp1, Es1. split.
  - split; cbn -[open_sets]; rewrite ?Eo, ?Ed; [exact Hp1| |done]. etransitivity; [apply length_filter|done].
  - unfold resolver_prune, view. cbn -[open_sets]. rewrite Eo, Ec, Ech, Edn, Ed, Ecd, Edd, Es1, <- Ek. do 3 f_equal. lia.
Qed.

Section refinement.
Context `{!IterOrder FecSetKey}.

Lemma pool_step_ok p op : pool_ok p → agrees (pool_step p op) (resolver_step (view p) op) id.
Proof.
  intros Hok. assert (Hlift : ∀ A (r : Outcome (A * FecResolverPool)) s f, agrees r s f →
    agrees (r ← r; mret (f r.1, r.2)) s id) by (by intros A [[]|]).
  destruct op as [slot idx rel s|slot idx pos nd nc s|key| |key f|min_slot|]; cbn [pool_step resolver_step].
  - by apply Hlift, insert_data_ok.
  - by apply Hlift, insert_coding_ok.
  - by apply Hlift, mark_completed_ok.
  - by apply Hlift, release_ok.
  - pose proof (write_data_ok p key f Hok) as H. by destruct (FecResolverPool_write_data p key f).
  - pose proof (pool_prune_ok p min_slot Hok) as H. by destruct (FecResolverPool_prune_slots_below p min_slot).
  - split; [|done]. by destruct Hok.
Qed.

Lemma new_ok depth complete_depth done_depth : (1 <= depth)%nat → pool_ok (FecResolverPool_new depth complete_depth done_depth).
Proof.
  intros Hd. split; cbn; [|lia|done]. rewrite app_nil_r, length_replicate. split; try constructor.
  - by intros ?%elem_of_nil.
  - rewrite lookup_empty. by intros [? ?].
  - apply NoDup_seq.
  - apply Forall_forall. intros i Hi%elem_of_seq. lia.
  - by rewrite lookup_empty in *.
  - by rewrite lookup_empty in *.
Qed.

Lemma pool_run_ok ops : ∀ acc p, pool_ok p →
  match for_each (λ acc op, r ← pool_step acc.2 op; mret (acc.1 ++ [r.1], r.2)) (acc, p) ops with
  | Done (results, p') =>
      pool_ok p' ∧ for_each (λ acc op, r ← resolver_step acc.2 op; mret (acc.1 ++ [r.1], r.2)) (acc, view p) ops = Done (results, view p')
  | Panicked => for_each (λ acc op, r ← resolver_step acc.2 op; mret (acc.1 ++ [r.1], r.2)) (acc, view p) ops = Panicked
  end.
Proof.
  induction ops as [|op ops IH]; intros acc p Hok; cbn [for_each fst snd]; [done|].
  pose proof (pool_step_ok p op Hok) as Hs. destruct (pool_step p op) as [[x p']|]; [|by rewrite Hs].
  destruct Hs as [Hok' ->]. rewrite !Done_bind. apply (IH (acc ++ [x]) p' Hok').
Qed.

Lemma get_buffer_ok p k : pool_ok p → FecResolverPool_get_buffer p k = Done (find_set k (rv_sets (view p))).
Proof.
  intros [Hp _ _]. cbn [view rv_sets]. rewrite (open_sets_find _ _ _ _ Hp). unfold FecResolverPool_get_buffer.
  destruct (rp_in_progress p !! k) as [i|] eqn:Ek; [|done]. cbn. unfold buffer_at.
  destruct (pl_index _ _ _ _ Hp k i Ek) as (Hlt & _ & _). by apply lookup_lt_is_Some in Hlt as [b ->].
Qed.
End refinement.

(** C10. The pool is a queue of sets.  On every sequence of operations, whatever the order in
    which hash maps are visited, a pool of depth at least 1 returns what the resolver without
    buffers returns, call by call, and panics exactly when it does; what a reader sees of a
    key is the contents of its set.  No two sets share a buffer, a buffer that is handed out
    again is empty, and a set is dropped only as the oldest one. *)
Theorem resolver_pool_refines `{!IterOrder FecSetKey} depth complete_depth done_depth ops :
  (1 <= depth)%nat →
  let spec := run_with resolver_step (Resolver_new depth complete_depth done_depth) ops in
  match run_with pool_step (FecResolverPool_new depth complete_depth done_depth) ops with
  | Done (results, p) =>
      ∃ r, spec = Done (results, r) ∧ ∀ k, FecResolverPool_get_buffer p k = Done (find_set k (rv_sets r))
  | Panicked => spec = Panicked
  end.
Proof.
  intros Hd spec. pose proof (new_ok depth complete_depth done_depth Hd) as Hok.
  assert (Hv : view (FecResolverPool_new depth complete_depth done_depth) = Resolver_new depth complete_depth done_depth).
  { unfold view, Resolver_new. cbn. by rewrite length_seq. }
  pose proof (pool_run_ok ops [] _ Hok) as Hr. rewrite Hv in Hr. unfold run_with in *.
  destruct (for_each _ ([], FecResolverPool_new _ _ _) ops) as [[results p]|]; [|done].
  destruct Hr as [Hok' Hr]. exists (view p). split; [done|]. intros k. by apply get_buffer_ok.
Qed.

(** ** How many buffers are left *)

(** All but [complete_depth] buffers stay in use: a set that the depth drops loses its buffer,
    which takes a free one, and one is free only while less than [complete_depth] are lost. *)
Record bounded (depth : nat) (r : Resolver) : Prop := {
  bd_depth : rv_depth r = depth;
  bd_sets : (length (rv_sets r) <= rv_depth r)%nat;
  bd_completed : (rv_completed r <= 1 `max` rv_complete_depth r)%nat;
  bd_left : (rv_depth r <= length (rv_sets r) + rv_free r + rv_completed r)%nat;
  bd_deep : (1 `max` rv_complete_depth r < rv_depth r)%nat;
}.

Lemma find_set_Some k sets : k ∈ sets.*1 → ∃ b, find_set k sets = Some b.
Proof.
  intros ([k' b] & -> & Hin)%list_elem_of_fmap. unfold find_set. cbn [fst].
  assert (Hf : (k', b) ∈ filter (λ x, x.1 = k') sets) by (by apply list_elem_of_filter).
  destruct (filter _ _) as [|x l]; [by apply elem_of_nil in Hf|]. by exists x.2.
Qed.
Lemma find_set_elem k b sets : find_set k sets = Some b → (k, b) ∈ sets.
Proof.
  unfold find_set. destruct (filter _ sets) as [|[k' b'] l] eqn:E; [done|]. intros [= ->].
  assert (Hin : (k', b) ∈ filter (λ x, x.1 = k) sets) by (rewrite E; left). apply list_elem_of_filter in Hin as [Hk ?]. cbn in Hk. by subst.
Qed.
Lemma length_update_set k b sets : length (update_set k b sets) = length sets.
Proof. apply length_fmap. Qed.

Lemma open_bounded depth r key : bounded depth r → ∃ r', open_set r key = Done r' ∧ bounded depth r' ∧ key ∈ (rv_sets r').*1.
Proof.
  intros [He Hs Hc Hl Hd]. unfold open_set. case_decide as Hk; [exists r; split; [done|by split]|].
  destruct (rv_free r) as [|free] eqn:Ef.
  - destruct (rv_sets r) as [|x sets] eqn:Es; [cbn in *; lia|]. eexists. split; [done|]. split.
    + split; cbn; rewrite ?length_app; cbn in *; lia.
    + cbn. rewrite fmap_app. apply elem_of_app. right. left.
  - eexists. split; [done|]. split.
    + split; cbn [with_sets rv_sets rv_depth rv_free rv_completed rv_complete_depth];
        rewrite ?length_drop, ?length_app; cbn [length]; lia.
    + cbn [with_sets rv_sets]. rewrite drop_app_le by lia. rewrite fmap_app. apply elem_of_app. right. left.
Qed.

Lemma filter_out_length k b sets : find_set k sets = Some b → NoDup sets.*1 →
  S (length (filter (λ x, x.1 ≠ k) sets)) = length sets.
Proof.
  intros Hf%find_set_elem Hnd. induction sets as [|[k' b'] sets IH]; [by apply elem_of_nil in Hf|].
  cbn in Hnd. apply NoDup_cons in Hnd as [Hk Hnd]. apply elem_of_cons in Hf as [[= <- <-]|Hin].
  - rewrite filter_cons_False by (cbn; auto). cbn [length]. do 2 f_equal. apply list_filter_all, Forall_forall.
    intros x Hx E. apply Hk. rewrite <- E. by apply list_elem_of_fmap_2.
  - rewrite filter_cons_True by (cbn; intros ->; apply Hk; by apply (list_elem_of_fmap_2 fst _ (k, b))). cbn [length]. by rewrite IH.
Qed.

Lemma insert_bounded depth r key s add : bounded depth r → ∃ x r', resolver_insert r key s add = Done (x, r') ∧ bounded depth r'.
Proof.
  intros Hb. unfold resolver_insert. destruct (is_done r _); [by eexists _, r|].
  destruct (open_bounded depth r key Hb) as (r' & -> & [He Hs Hc Hl Hd] & Hk). rewrite Done_bind. destruct (find_set_Some _ _ Hk) as [b ->].
  eexists _, _. split; [done|]. split; cbn; rewrite ?length_update_set; done.
Qed.

Lemma step_bounded depth r op : bounded depth r → NoDup (rv_sets r).*1 → ∃ x r', resolver_step r op = Done (x, r') ∧ bounded depth r'.
Proof.
  intros Hb Hnd. destruct op as [slot idx rel s|slot idx pos nd nc s|key| |key f|min_slot|]; cbn [resolver_step].
  - by apply insert_bounded.
  - by apply insert_bounded.
  - eexists _, (resolver_complete r key).2. split; [by rewrite <- surjective_pairing|]. unfold resolver_complete.
    destruct (find_set key (rv_sets r)) as [b|] eqn:Ef; [|done]. pose proof (filter_out_length _ _ _ Ef Hnd).
    destruct Hb as [He Hs Hc Hl Hd]. cbn [snd].
    destruct (Nat.leb_spec (rv_complete_depth r) (rv_completed r)), (Nat.ltb_spec 0 (rv_completed r)); split; cbn; lia.
  - destruct Hb as [He Hs Hc Hl Hd]. destruct (rv_completed r) eqn:Ec; eexists _, _; (split; [done|]); split; cbn; lia.
  - eexists _, _. split; [done|]. destruct Hb as [He Hs Hc Hl Hd]. destruct (find_set key _); [|done].
    split; cbn; rewrite ?length_update_set; done.
  - eexists _, _. split; [done|]. destruct Hb as [He Hs Hc Hl Hd].
    pose proof (length_filter (λ x : FecSetKey * FecBuffer, min_slot <= fk_slot x.1) (rv_sets r)). split; cbn; lia.
  - by eexists _, _.
Qed.

Lemma run_bounded `{!IterOrder FecSetKey} depth ops : ∀ acc p, pool_ok p → bounded depth (view p) →
  ∃ results p', for_each (λ acc op, r ← pool_step acc.2 op; mret (acc.1 ++ [r.1], r.2)) (acc, p) ops = Done (results, p')
    ∧ pool_ok p' ∧ bounded depth (view p').
Proof.
  induction ops as [|op ops IH]; intros acc p Hok Hb; cbn [for_each fst snd]; [by eexists _, _|].
  destruct (step_bounded depth (view p) op Hb) as (x & r & Es & Hb').
  { cbn [view rv_sets]. rewrite (open_sets_keys _ _ _ _ (ok_placed _ Hok)) by done. apply (pl_order _ _ _ _ (ok_placed _ Hok)). }
  pose proof (pool_step_ok p op Hok) as Hs. rewrite Es in Hs. destruct (pool_step p op) as [[y p']|]; [|done].
  destruct Hs as [Hok' [= -> ->]]. rewrite Done_bind. by apply (IH (acc ++ [y]) p').
Qed.

(** C16. When it is safe.  If the depth exceeds the depth of the completed queue (and 1), no
    sequence of operations makes a pool panic; at most [depth] sets are ever in progress, and
    at least [depth] buffers are always in progress, free or completed. *)
Theorem resolver_never_panics `{!IterOrder FecSetKey} depth complete_depth done_depth ops :
  (1 `max` complete_depth < depth)%nat →
  ∃ results p, run_with pool_step (FecResolverPool_new depth complete_depth done_depth) ops = Done (results, p)
    ∧ (size (rp_in_progress p) <= depth)%nat
    ∧ (depth <= size (rp_in_progress p) + length (rp_free_queue p) + length (rp_completed_queue p))%nat.
Proof.
  intros Hd. pose proof (new_ok depth complete_depth done_depth ltac:(lia)) as Hok.
  destruct (run_bounded depth ops [] _ Hok) as (results & p & E & Hok' & [He Hs Hc Hl _]); [split; cbn; rewrite ?length_seq; lia|].
  exists results, p. split; [exact E|]. cbn [view rv_sets rv_free rv_completed rv_depth] in *.
  pose proof (ok_placed _ Hok') as Hp. rewrite (open_sets_length _ _ _ _ Hp) in *. rewrite (placed_size _ _ _ _ Hp). lia.
Qed.

(** ** What the buffers hold *)

Section contents.
Context (P : Shred → Prop).

Definition buffer_all (b : FecBuffer) : Prop :=
  map_Forall (λ _, P) (fb_data_shreds b) ∧ map_Forall (λ _, P) (fb_coding_shreds b).
Definition pool_all (p : FecResolverPool) : Prop := Forall buffer_all (rp_buffers p).

Lemma all_reset b : buffer_all (FecBuffer_reset b).
Proof. split; apply map_Forall_empty. Qed.
Lemma all_track signature b : buffer_all b → buffer_all (track_first signature b).
Proof. unfold track_first. by case_match. Qed.
Lemma all_learn n k b : buffer_all b → buffer_all (FecBuffer_learn_params b n k).
Proof. unfold FecBuffer_learn_params. by case_match. Qed.

Lemma all_update i f p p' : (∀ b, buffer_all b → buffer_all (f b)) → update_buffer i f p = Done p' → pool_all p → pool_all p'.
Proof.
  unfold update_buffer, buffer_at. intros Hf Hu Hp. destruct (rp_buffers p !! i) as [b|] eqn:E; [|done].
  injection Hu as <-. apply Forall_insert; [done|]. apply Hf. by eapply Forall_lookup_1.
Qed.
Lemma all_buffer i b p : buffer_at p i = Done b → pool_all p → buffer_all b.
Proof.
  unfold buffer_at. intros Hb Hp. destruct (rp_buffers p !! i) as [b'|] eqn:E; [|done]. injection Hb as <-. by eapply Forall_lookup_1.
Qed.

Lemma all_evict p i p' : evict_oldest p = Done (i, p') → pool_all p → pool_all p'.
Proof.
  unfold evict_oldest. intros He Hp. destruct (rp_in_progress_order p) as [|k order]; [done|].
  destruct (rp_in_progress _ !! k) as [j|]; [|done]. apply bind_Done in He as (b & Hb & He).
  apply bind_Done in He as (p1 & Hu & [= <- <-]). eapply all_update; [|exact Hu|done]. intros b' _. apply all_reset.
Qed.
Lemma all_enforce fuel : ∀ p p', enforce_depth fuel p = Done p' → pool_all p → pool_all p'.
Proof.
  induction fuel as [|fuel IH]; intros p p'; cbn [enforce_depth]; case_match; try done; [by intros [= <-]| |by intros [= <-]].
  intros ([i p1] & He & Hl)%bind_Done Hp. eapply IH; [exact Hl|]. by eapply all_evict.
Qed.
Lemma all_ensure p key i p' : ensure_buffer p key = Done (i, p') → pool_all p → pool_all p'.
Proof.
  unfold ensure_buffer. intros He Hp. destruct (rp_in_progress p !! key) as [j|]; [by injection He as <- <-|].
  apply bind_Done in He as ([j p1] & H1 & He). apply bind_Done in He as (p2 & H2 & [= <- <-]).
  assert (Hp1 : pool_all p1) by (destruct (rp_free_queue p); [by eapply all_evict|by injection H1 as <- <-]).
  unfold attach in H2. apply bind_Done in H2 as (p3 & Hu & Hl). eapply all_enforce; [exact Hl|].
  change (pool_all p3). eapply all_update; [|exact Hu|exact Hp1]. intros b _. split; apply map_Forall_empty.
Qed.

Lemma all_insert_data p slot idx rel s x p' : P s → FecResolverPool_insert_data_shred p slot idx rel s = Done (x, p') →
  pool_all p → pool_all p'.
Proof.
  unfold FecResolverPool_insert_data_shred. intros Hs Hi Hp. case_match; [by injection Hi as <- <-|].
  apply bind_Done in Hi as ([i p1] & H1 & Hi). apply (all_ensure _ _ _ _ H1) in Hp.
  apply bind_Done in Hi as (p2 & H2 & Hi). apply (all_update _ _ _ _ (all_track _) H2) in Hp.
  apply bind_Done in Hi as (b & Hb & Hi). case_match.
  - case_bool_decide; injection Hi as <- <-; [|done]. unfold report_equivocation. by case_match.
  - apply bind_Done in Hi as (p3 & H3 & Hi). apply bind_Done in Hi as (r & _ & [= <- <-]).
    apply (all_update _ _ _ _) in H3; [done| |done]. intros b' [Hd Hc]. split; [by apply map_Forall_insert_2|done].
Qed.
Lemma all_insert_coding p slot idx pos nd nc s x p' : P s → FecResolverPool_insert_coding_shred p slot idx pos nd nc s = Done (x, p') →
  pool_all p → pool_all p'.
Proof.
  unfold FecResolverPool_insert_coding_shred. intros Hs Hi Hp. case_match; [by injection Hi as <- <-|].
  apply bind_Done in Hi as ([i p1] & H1 & Hi). apply (all_ensure _ _ _ _ H1) in Hp.
  apply bind_Done in Hi as (p2 & H2 & Hi). apply (all_update _ _ _ _ (all_track _) H2) in Hp.
  apply bind_Done in Hi as (p4 & H4 & Hi). apply (all_update _ _ _ _ (all_learn _ _) H4) in Hp.
  apply bind_Done in Hi as (b & Hb & Hi). case_match.
  - case_bool_decide; injection Hi as <- <-; [|done]. unfold report_equivocation. by case_match.
  - apply bind_Done in Hi as (p3 & H3 & Hi). apply bind_Done in Hi as (r & _ & [= <- <-]).
    apply (all_update _ _ _ _) in H3; [done| |done]. intros b' [Hd Hc]. split; [done|by apply map_Forall_insert_2].
Qed.

Lemma all_recycle i p p' : recycle i p = Done p' → pool_all p → pool_all p'.
Proof.
  unfold recycle. intros (p1 & Hu & [= <-])%bind_Done Hp. change (pool_all p1). eapply all_update; [|exact Hu|exact Hp].
  intros b _. apply all_reset.
Qed.
Lemma all_complete p key x p' : FecResolverPool_mark_completed p key = Done (x, p') → pool_all p → pool_all p'.
Proof.
  unfold FecResolverPool_mark_completed. intros Hi Hp. destruct (rp_in_progress p !! key) as [i|]; [|by injection Hi as <- <-].
  apply bind_Done in Hi as (p1 & H1 & Hi). assert (Hp1 : pool_all p1) by (by eapply all_update; [|exact H1|]).
  apply bind_Done in Hi as (b & Hb & Hi). destruct (bookkeeping p1 key (fb_num_data b) (fb_first_signature b)) as (p2 & Ev & _).
  rewrite Ev in Hi. apply bind_Done in Hi as (p3 & H3 & [= <- <-]).
  assert (Hp2 : pool_all (count sets_completed (record_done_signature p2 (fb_first_signature b)))).
  { unfold validate_chain in Ev. injection Ev as <-. unfold record_done_signature.
    destruct (if _ =? 0 then _ else _), (all_zero _); done. }
  unfold retire in H3. apply bind_Done in H3 as (p4 & H4 & [= <-]).
  change (pool_all p4). case_match; [|by injection H4 as <-]. case_match; [by injection H4 as <-|].
  eapply all_recycle; [exact H4|exact Hp2].
Qed.
Lemma all_write p key f p' : (∀ m, map_Forall (λ _, P) m → map_Forall (λ _, P) (f m)) → FecResolverPool_write_data p key f = Done p' →
  pool_all p → pool_all p'.
Proof.
  unfold FecResolverPool_write_data. intros Hf Hi Hp. case_match; [|by injection Hi as <-].
  eapply all_update; [|exact Hi|done]. intros b [Hd Hc]. split; [by apply Hf|done].
Qed.
Lemma all_prune `{!IterOrder FecSetKey} p min_slot p' : FecResolverPool_prune_slots_below p min_slot = Done p' → pool_all p → pool_all p'.
Proof.
  unfold FecResolverPool_prune_slots_below. intros (p1 & Hl & [= <-])%bind_Done Hp. change (pool_all p1).
  eapply (for_each_ind prune_key pool_all); [|exact Hp|exact Hl]. intros k q q' _ Hq. unfold prune_key. case_match; [|by intros [= <-]].
  intros Hr. by eapply all_recycle.
Qed.
End contents.

(** ** Samples *)

(** A data shred with the signature [n, 0, 0, ...]. *)
Definition plain_shred (n : Z) : Shred :=
  mkShred (mkShredCommonHeader (n :: replicate 63 0) 0x81 7 0 1 0) (MerkleData (mkDataShredHeader 1 0 88) []) [] None.
Definition touch_set (n : Z) : ResolverOp := InsertData n 0 0 (plain_shred 0).

Lemma resolver_pool_refines_witness :
  ∃ p, @run_with _ (@pool_step (elements_order FecSetKey)) (FecResolverPool_new 1 1 4)
         [InsertCoding 7 0 0 2 2 (plain_shred 1); InsertData 7 0 0 (plain_shred 1); InsertData 7 0 0 (plain_shred 2);
          InsertData 8 0 0 (plain_shred 3); MarkCompleted (mkFecSetKey 7 0)]
       = Done ([Inserted Accepted; Inserted Recoverable; Inserted Equivocation; Inserted Accepted; Flag true], p)
    ∧ FecResolverPool_get_buffer p (mkFecSetKey 7 0) = Done None.
Proof.
  set (ops := [_; _; _; _; _]). unfold plain_shred in ops.
  pose proof (@resolver_pool_refines (elements_order FecSetKey) 1 1 4 ops ltac:(lia)) as H. cbn zeta in H.
  assert (Es : (λ r, (r.1, find_set (mkFecSetKey 7 0) (rv_sets r.2))) <$> run_with resolver_step (Resolver_new 1 1 4) ops
    = Done ([Inserted Accepted; Inserted Recoverable; Inserted Equivocation; Inserted Accepted; Flag true], None)) by (vm_compute; reflexivity).
  destruct (run_with pool_step _ ops) as [[results p]|]; [|rewrite H in Es; discriminate Es]. destruct H as (r & E & Hg). rewrite E in Es.
  injection Es as -> Ef. exists p. split; [reflexivity|]. rewrite Hg, Ef. reflexivity.
Defined.

Lemma resolver_never_panics_witness :
  ∃ results p, @run_with _ (@pool_step (elements_order FecSetKey)) (FecResolverPool_new 3 2 4) (touch_set <$> seqZ 0 20)
    = Done (results, p) ∧ (size (rp_in_progress p) <= 3)%nat.
Proof.
  destruct (@resolver_never_panics (elements_order FecSetKey) 3 2 4 (touch_set <$> seqZ 0 20)) as (results & p & E & H1 & _);
    [cbn; lia|]. exists results, p. split; [exact E|exact H1].
Defined.

(** With the default depths, 32 and 512, 64 sets in progress lose 32 buffers, and when the
    completed queue holds the other 512, the next shred of a new set makes the pool panic. *)
Definition default_trace : list ResolverOp :=
  (touch_set <$> seqZ 0 64) ++ ((λ n, MarkCompleted (mkFecSetKey n 0)) <$> seqZ 32 32)
  ++ (n ← seqZ 64 480; [touch_set n; MarkCompleted (mkFecSetKey n 0)]).
Lemma default_pool_panics :
  @run_with _ (@pool_step (elements_order FecSetKey)) FecResolverPool_with_defaults (default_trace ++ [touch_set 1000]) = Panicked
  ∧ (λ r, (length (rp_free_queue r.2), size (rp_in_progress r.2), length (rp_completed_queue r.2)))
      <$> @run_with _ (@pool_step (elements_order FecSetKey)) FecResolverPool_with_defaults default_trace = Done (0, 0, 512)%nat.
Proof. split; vm_compute; reflexivity. Qed.
