(* ===== verification/ReedSolomon.v ===== *)
(** * Reconstruction of FEC sets

    Model of [src/crates/karstflow-crypto/src/reed_solomon.rs].  The code itself is the
    third-party crate [reed_solomon_erasure]: a parameter, with its documented behaviour, that
    a set of shards of an encoding is completed when at least as many are present as there are
    data shards, as the law [rs_restores]. *)
From stdpp Require Import base tactics numbers list.
From Stdlib Require Import ZArith Lia.
From S2P Require Import Prelude.
Local Open Scope nat_scope.

Definition MAX_FEC_DATA_SHREDS : nat := 67.
Definition MAX_FEC_CODING_SHREDS : nat := 67.

(** [ReedSolomon::new] succeeds; [encode], the parity shards; [reconstruct], with [None] for
    an error. *)
Class ReedSolomon := {
  rs_new : nat → nat → bool;
  rs_encode : nat → nat → list (list Z) → list (list Z);
  rs_reconstruct : nat → nat → list (option (list Z)) → option (list (option (list Z)));
}.

(** What is left of a list of shards. *)
Definition erased (shard : list Z) (left : option (list Z)) : Prop := left = None ∨ left = Some shard.
Definition present (shards : list (option (list Z))) : nat := length (filter is_Some shards).

Class ReedSolomonLaws `{ReedSolomon} := {
  length_rs_encode : ∀ n k data, rs_new n k = true → length data = n → length (rs_encode n k data) = k;
  rs_encode_size : ∀ n k data size, rs_new n k = true → length data = n → Forall (λ x, length x = size) data →
    Forall (λ x, length x = size) (rs_encode n k data);
  rs_restores : ∀ n k data size shards,
    rs_new n k = true → length data = n → 0 < size → Forall (λ x, length x = size) data →
    Forall2 erased (data ++ rs_encode n k data) shards → n <= present shards →
    rs_reconstruct n k shards = Some (Some <$> (data ++ rs_encode n k data));
}.

Inductive FecError :=
| InvalidParameters (data coding : nat)
| InsufficientShreds (have need : nat)
| SizeMismatch (expected actual : nat)
| ReconstructionFailed
| InvalidIndex (i : nat).

Record FecReconstructor := mkFecReconstructor {
  fr_num_data : nat;
  fr_num_coding : nat;
}.

Record ReconstructedSet := mkReconstructedSet {
  rc_data_shreds : list (option (list Z));
  rc_num_reconstructed : nat;
}.

Section reconstructor.
Context `{ReedSolomon}.

Definition FecReconstructor_new (num_data num_coding : nat) : result FecReconstructor FecError :=
  if (num_data =? 0) || (MAX_FEC_DATA_SHREDS <? num_data) then Err (InvalidParameters num_data num_coding)
  else if (num_coding =? 0) || (MAX_FEC_CODING_SHREDS <? num_coding) then Err (InvalidParameters num_data num_coding)
  else if rs_new num_data num_coding then Ok (mkFecReconstructor num_data num_coding)
  else Err ReconstructionFailed.

(** The size of the first shred present, and the first shred of another size. *)
Definition get_uniform_size (data_shreds coding_shreds : list (option (list Z))) : result nat FecError :=
  match omap id (data_shreds ++ coding_shreds) with
  | [] => Err (InsufficientShreds 0 1)
  | (first :: _) as shreds =>
      match filter (λ s, length s ≠ length first) shreds with
      | [] => Ok (length first)
      | s :: _ => Err (SizeMismatch (length first) (length s))
      end
  end.

(** What the loop over the data shreds pushes: the shreds that were missing. *)
Definition reconstructed (before after : option (list Z)) : option (list Z) :=
  match before with Some _ => None | None => after end.

Definition FecReconstructor_reconstruct (f : FecReconstructor) (data_shreds coding_shreds : list (option (list Z))) :
    result ReconstructedSet FecError :=
  if negb (length data_shreds =? fr_num_data f) then Err (InvalidParameters (length data_shreds) (fr_num_coding f))
  else if negb (length coding_shreds =? fr_num_coding f) then Err (InvalidParameters (fr_num_data f) (length coding_shreds))
  else
    let num_data_available := present data_shreds in
    let total_available := num_data_available + present coding_shreds in
    if total_available <? fr_num_data f then Err (InsufficientShreds total_available (fr_num_data f))
    else if num_data_available =? fr_num_data f then Ok (mkReconstructedSet data_shreds 0)
    else
      match get_uniform_size data_shreds coding_shreds with
      | Err e => Err e
      | Ok _ =>
          match rs_reconstruct (fr_num_data f) (fr_num_coding f) (data_shreds ++ coding_shreds) with
          | None => Err ReconstructionFailed
          | Some all_shreds =>
              let data := zip_with reconstructed data_shreds (take (fr_num_data f) all_shreds) in
              Ok (mkReconstructedSet data (present data))
          end
      end.

(** The turns that place the shreds given with their indices. *)
Fixpoint place_shreds (all_shreds : list (option (list Z))) (shred_size : nat) (shreds : list (nat * list Z)) :
    result (list (option (list Z))) FecError :=
  match shreds with
  | [] => Ok all_shreds
  | (idx, shred) :: rest =>
      if length all_shreds <=? idx then Err (InvalidIndex idx)
      else if negb (length shred =? shred_size) then Err (SizeMismatch shred_size (length shred))
      else place_shreds (<[idx := Some shred]> all_shreds) shred_size rest
  end.

Definition FecReconstructor_reconstruct_with_indices (f : FecReconstructor) (shreds : list (nat * list Z)) (shred_size : nat) :
    result (list (list Z)) FecError :=
  if length shreds <? fr_num_data f then Err (InsufficientShreds (length shreds) (fr_num_data f))
  else
    match place_shreds (replicate (fr_num_data f + fr_num_coding f) None) shred_size shreds with
    | Err e => Err e
    | Ok all_shreds =>
        match rs_reconstruct (fr_num_data f) (fr_num_coding f) all_shreds with
        | None => Err ReconstructionFailed
        | Some all_shreds =>
            match mapM id (take (fr_num_data f) all_shreds) with
            | Some result => Ok result
            | None => Err ReconstructionFailed
            end
        end
    end.
End reconstructor.

Lemma present_app a b : present (a ++ b) = present a + present b.
Proof. unfold present. by rewrite filter_app, length_app. Qed.

Lemma present_erased data shards : Forall2 erased data shards →
  present shards <= length data ∧ (present shards = length data → shards = Some <$> data)
  ∧ present (zip_with reconstructed shards (Some <$> data)) = length data - present shards
  ∧ zip_with (∪) shards (zip_with reconstructed shards (Some <$> data)) = Some <$> data.
Proof.
  unfold present. induction 1 as [|x s data shards [-> | ->] _ (IH1 & IH2 & IH3 & IH4)]; [done|..]; cbn [zip_with fmap list_fmap reconstructed].
  - rewrite !filter_cons. rewrite !decide_False by apply is_Some_None. rewrite !decide_True by (by eexists). cbn [length].
    split_and!; [lia|lia|lia|]. by rewrite IH4.
  - rewrite !filter_cons. rewrite !decide_True by (by eexists). rewrite !decide_False by apply is_Some_None. cbn [length].
    split_and!; [lia| |lia|by rewrite IH4]. intros [= Heq]. by rewrite IH2.
Qed.

Lemma uniform_size ds cs size : 0 < length (omap id (ds ++ cs)) →
  Forall (λ s, length s = size) (omap id (ds ++ cs)) → get_uniform_size ds cs = Ok size.
Proof.
  intros Hne Hall. unfold get_uniform_size. destruct (omap id (ds ++ cs)) as [|first shreds]; [cbn in Hne; lia|].
  apply Forall_cons in Hall as [Hf Hall].
  rewrite filter_cons_False by auto. destruct (filter _ _) as [|s l] eqn:Ef; [by rewrite Hf|].
  assert (Hin : s ∈ s :: l) by left. rewrite <- Ef in Hin. apply list_elem_of_filter in Hin as [Hs Hin].
  rewrite Forall_forall in Hall. destruct Hs. by rewrite Hf, Hall.
Qed.

Lemma erased_sizes data shards size : Forall2 erased data shards → Forall (λ x, length x = size) data →
  Forall (λ s, length s = size) (omap id shards) ∧ length (omap id shards) = present shards.
Proof.
  unfold present. induction 1 as [|x s data shards [-> | ->] _ IH]; intros Hs; [done|..]; apply Forall_cons in Hs as [Hx Hs];
    destruct (IH Hs) as [IH1 IH2]; cbn [omap list_omap id]; rewrite filter_cons.
  - by rewrite decide_False by apply is_Some_None.
  - rewrite decide_True by (by eexists). cbn [length]. split; [by constructor|by rewrite IH2].
Qed.
(** Missing data shreds are restored: given the documented behaviour of the codec, a
    reconstructor gets from any [num_data] of the data and coding shreds of an encoding, all
    of one size, the data shreds that are missing; together with those present they are the
    data that was encoded. *)
Lemma reconstruct_restores `{ReedSolomonLaws} num_data num_coding f data size ds cs :
  FecReconstructor_new num_data num_coding = Ok f →
  length data = num_data → 0 < size → Forall (λ x, length x = size) data →
  Forall2 erased data ds → Forall2 erased (rs_encode num_data num_coding data) cs → num_data <= present ds + present cs →
  ∃ r, FecReconstructor_reconstruct f ds cs = Ok r
    ∧ zip_with (∪) ds (rc_data_shreds r) = Some <$> data ∧ length (rc_data_shreds r) = num_data
    ∧ rc_num_reconstructed r = num_data - present ds.
Proof.
  unfold FecReconstructor_new. intros Hnew Hn Hs Hsz Hd Hc Hp. repeat case_match; try done. injection Hnew as <-.
  assert (Hrs : rs_new num_data num_coding = true) by done.
  pose proof (Forall2_length _ _ _ Hd) as Hld. pose proof (Forall2_length _ _ _ Hc) as Hlc. rewrite length_rs_encode in Hlc by done.
  destruct (present_erased _ _ Hd) as (Hle & Hall & Hcnt & Hzip). unfold FecReconstructor_reconstruct. cbn [fr_num_data fr_num_coding].
  rewrite (proj2 (Nat.eqb_eq (length ds) num_data)) by lia. rewrite (proj2 (Nat.eqb_eq (length cs) num_coding)) by lia. cbn [negb].
  rewrite (proj2 (Nat.ltb_ge _ _)) by lia. destruct (Nat.eqb_spec (present ds) num_data) as [E|E].
  - eexists. split; [done|]. cbn. split; [|lia]. rewrite Hall by lia. clear. induction data; cbn; by f_equal.
  - pose proof (rs_encode_size _ _ _ _ Hrs Hn Hsz) as Hsc.
    destruct (erased_sizes _ _ _ Hd Hsz) as [Hs1 Hl1]. destruct (erased_sizes _ _ _ Hc Hsc) as [Hs2 Hl2].
    rewrite (uniform_size ds cs size); [|rewrite omap_app, length_app; lia|rewrite omap_app; by apply Forall_app].
    rewrite (rs_restores _ _ data size) by (done || (by apply Forall2_app) || by rewrite present_app).
    rewrite fmap_app, take_app_length' by (by rewrite length_fmap). eexists. split; [done|]. cbn.
    split; [done|]. rewrite length_zip_with, length_fmap. lia.
Qed.

(** A code for one data shred: copies of it. *)
Definition copies : ReedSolomon := {|
  rs_new n k := bool_decide (n = 1);
  rs_encode n k data := replicate k (default [] (head data));
  rs_reconstruct n k shards := match omap id shards with [] => None | x :: _ => Some (replicate (n + k) (Some x)) end;
|}.

Lemma copies_restore k x shards : Forall2 erased (x :: replicate k x) shards → 1 <= present shards →
  match omap id shards with [] => None | y :: _ => Some (replicate (1 + k) (Some y)) end = Some (Some <$> x :: replicate k x).
Proof.
  intros Hall Hp. change (x :: replicate k x) with (replicate (S k) x) in *.
  assert (Hx : Forall (eq x) (omap id shards)).
  { remember (replicate (S k) x) as l eqn:El. assert (Hl : Forall (eq x) l) by (subst l; by apply Forall_replicate).
    clear -Hall Hl. induction Hall as [|y s l shards [-> | ->] _ IH]; [constructor|..]; apply Forall_cons in Hl as [-> Hl]; cbn; auto. }
  destruct (erased_sizes (replicate (S k) x) shards (length x) Hall) as [_ Hlen]; [by apply Forall_replicate|].
  destruct (omap id shards) as [|y l]; [cbn in Hlen; lia|]. apply Forall_cons in Hx as [<- _]. by rewrite fmap_replicate.
Qed.

#[export] Instance copies_laws : @ReedSolomonLaws copies.
Proof.
  split.
  - intros n k data _ _. apply length_replicate.
  - intros n k [|x data] size Hn Hl Hs; cbn in *; apply bool_decide_eq_true in Hn; [lia|]. apply Forall_cons in Hs as [? _]. by apply Forall_replicate.
  - intros n k data size shards Hn Hl _ _ Hall Hp. cbn in *. apply bool_decide_eq_true in Hn. subst n.
    destruct data as [|x [|y data]]; try (cbn in *; lia). by apply copies_restore.
Qed.
