(* ===== verification/ShredNetwork.v ===== *)
(** * The shred networking stage

    Model of [ShredNetworkStage] of [src/crates/karstflow-stages/src/shred_network.rs], over the
    verifier of [ShredVerifier], the pool of [FecResolver] and the reconstructor of
    [ReedSolomon].  The stage admits shreds, drops those whose signature it has seen in the
    slot, collects FEC sets, and hands on the sets that are complete, recovered or
    flushed.

    The leader lookup is an interface: a function from slots.  Logging is left out. *)
From stdpp Require Import base tactics numbers list gmap sorting.
From Stdlib Require Import ZArith Lia.
From S2P Require Import Prelude MerkleTree Shreds ShredVerifier FecResolver ReedSolomon.
Local Open Scope Z_scope.

(** ** Data *)

Inductive ShredSource := Local | Turbine | Repair.
#[export] Instance ShredSource_eq_dec : EqDecision ShredSource.
Proof. solve_decision. Defined.

Record NetworkShred := mkNetworkShred {
  ns_shred : Shred;
  ns_source : ShredSource;
}.

Inductive ShredInsertOutcome :=
| OAccepted
| OFecSetComplete (fec_set_index : Z)
| OFecRecoverable (fec_set_index : Z)
| ODuplicate
| OIgnored
| OTooOld
| OInvalidSignature.

#[export] Instance ShredInsertOutcome_eq_dec : EqDecision ShredInsertOutcome.
Proof. solve_decision. Defined.

Record RetransmitDecision := mkRetransmitDecision {
  rd_shred_data : list Z;
  rd_destination_indices : list Z;
  rd_slot : Z;
}.

Record CompletedFecSet := mkCompletedFecSet {
  cf_slot : Z;
  cf_fec_set_index : Z;
  cf_data_shreds : list Shred;
  cf_was_recovered : bool;
}.

(** [SlotState] of this file. *)
Record NetworkSlotState := mkNetworkSlotState {
  sl_seen_signatures : gset (list Z);
  sl_last_shred_seen : bool;
  sl_fec_set_indices : gset Z;
}.
Definition NetworkSlotState_new : NetworkSlotState := mkNetworkSlotState ∅ false ∅.

Record ShredNetworkConfig := mkShredNetworkConfig {
  nc_max_tracked_slots : nat;
  nc_turbine_layer : Z;
  nc_turbine_neighbor_count : Z;
  nc_min_slot : Z;
}.
Definition ShredNetworkConfig_default : ShredNetworkConfig := mkShredNetworkConfig 512 0 0 0.

Inductive NetCounter :=
| shreds_received | shreds_from_turbine | shreds_from_repair | shreds_local | shreds_duplicate | shreds_signature_invalid
| fec_sets_completed | fec_sets_recovered | retransmits_sent | slots_completed.
#[export] Instance NetCounter_eq_dec : EqDecision NetCounter.
Proof. solve_decision. Defined.

Record ShredNetworkStage := mkShredNetworkStage {
  sn_config : ShredNetworkConfig;
  sn_slots : gmap Z NetworkSlotState;
  sn_slot_order : list Z;
  sn_resolver_pool : FecResolverPool;
  sn_pending_retransmits : list RetransmitDecision;
  sn_pending_completed : list CompletedFecSet;
  sn_leader_lookup : option (Z → option (list Z));
  sn_stats : NetCounter → Z;
}.

Definition ShredNetworkStage_with_config (config : ShredNetworkConfig) : ShredNetworkStage :=
  mkShredNetworkStage config ∅ [] FecResolverPool_with_defaults [] [] None (λ _, 0).
Definition ShredNetworkStage_set_leader_lookup (lookup : Z → option (list Z)) (s : ShredNetworkStage) : ShredNetworkStage :=
  mkShredNetworkStage (sn_config s) (sn_slots s) (sn_slot_order s) (sn_resolver_pool s) (sn_pending_retransmits s)
    (sn_pending_completed s) (Some lookup) (sn_stats s).

(** Assignments to the fields of the stage. *)
Definition set_slots (slots : gmap Z NetworkSlotState) (order : list Z) (s : ShredNetworkStage) : ShredNetworkStage :=
  mkShredNetworkStage (sn_config s) slots order (sn_resolver_pool s) (sn_pending_retransmits s)
    (sn_pending_completed s) (sn_leader_lookup s) (sn_stats s).
Definition set_pool (p : FecResolverPool) (s : ShredNetworkStage) : ShredNetworkStage :=
  mkShredNetworkStage (sn_config s) (sn_slots s) (sn_slot_order s) p (sn_pending_retransmits s)
    (sn_pending_completed s) (sn_leader_lookup s) (sn_stats s).
Definition set_retransmits (l : list RetransmitDecision) (s : ShredNetworkStage) : ShredNetworkStage :=
  mkShredNetworkStage (sn_config s) (sn_slots s) (sn_slot_order s) (sn_resolver_pool s) l
    (sn_pending_completed s) (sn_leader_lookup s) (sn_stats s).
Definition set_completed (l : list CompletedFecSet) (s : ShredNetworkStage) : ShredNetworkStage :=
  mkShredNetworkStage (sn_config s) (sn_slots s) (sn_slot_order s) (sn_resolver_pool s) (sn_pending_retransmits s)
    l (sn_leader_lookup s) (sn_stats s).
Definition set_config (c : ShredNetworkConfig) (s : ShredNetworkStage) : ShredNetworkStage :=
  mkShredNetworkStage c (sn_slots s) (sn_slot_order s) (sn_resolver_pool s) (sn_pending_retransmits s)
    (sn_pending_completed s) (sn_leader_lookup s) (sn_stats s).
Definition tally (c : NetCounter) (s : ShredNetworkStage) : ShredNetworkStage :=
  mkShredNetworkStage (sn_config s) (sn_slots s) (sn_slot_order s) (sn_resolver_pool s) (sn_pending_retransmits s)
    (sn_pending_completed s) (sn_leader_lookup s)
    (λ d, if decide (d = c) then u64_add (sn_stats s c) 1 else sn_stats s d).
Definition push_completed (c : CompletedFecSet) (s : ShredNetworkStage) : ShredNetworkStage :=
  set_completed (sn_pending_completed s ++ [c]) s.

(** ** Operations *)

(** The turns that evict slots; the fuel is the number of slots in the order. *)
Fixpoint evict_slots (slots : gmap Z NetworkSlotState) (order : list Z) (max : nat) : gmap Z NetworkSlotState * list Z :=
  if (max <=? size slots)%nat then
    match order with
    | [] => (slots, [])
    | oldest :: order => evict_slots (delete oldest slots) order max
    end
  else (slots, order).

Definition ensure_slot_tracked (s : ShredNetworkStage) (slot : Z) : ShredNetworkStage :=
  match sn_slots s !! slot with
  | Some _ => s
  | None =>
      let '(slots, order) := evict_slots (sn_slots s) (sn_slot_order s) (nc_max_tracked_slots (sn_config s)) in
      set_slots (<[slot := NetworkSlotState_new]> slots) (order ++ [slot]) s
  end.

Definition schedule_retransmit (s : ShredNetworkStage) (slot : Z) (data : list Z) : ShredNetworkStage :=
  let destinations := seqZ 0 (nc_turbine_neighbor_count (sn_config s)) in
  tally retransmits_sent (set_retransmits (sn_pending_retransmits s ++ [mkRetransmitDecision data destinations slot]) s).

(** The data shreds in the order of their indices. *)
Definition sorted_values (m : gmap Z Shred) : list Shred := omap (m !!.) (merge_sort Z.le (elements (dom m))).

Definition extract_completed_from_pool (p : FecResolverPool) (key : FecSetKey) (was_recovered : bool) :
    Outcome (CompletedFecSet * FecResolverPool) :=
  view ← FecResolverPool_get_buffer p key;
  let data_shreds := match view with Some b => sorted_values (fb_data_shreds b) | None => [] end in
  r ← FecResolverPool_mark_completed p key;
  mret (mkCompletedFecSet (fk_slot key) (fk_fec_set_index key) data_shreds was_recovered, r.2).

(** [Vec::resize] with zeros. *)
Definition resize (n : nat) (l : list Z) : list Z := take n l ++ replicate (n - length l) 0.

Section stage.
Context `{Sha256, Ed25519, ReedSolomon, !IterOrder Z, !IterOrder FecSetKey}.

(** [values().next()]. *)
Definition first_value (m : gmap Z Shred) : option Shred := k ← head (iter_order (dom m)); m !! k.

Definition reference_shred (b : FecBuffer) : option Shred :=
  match first_value (fb_data_shreds b) with Some s => Some s | None => first_value (fb_coding_shreds b) end.

Definition shards (m : gmap Z Shred) (shard_size num : nat) : list (option (list Z)) :=
  (λ i : nat, (λ s, resize shard_size (shred_payload s)) <$> m !! Z.of_nat i) <$> seq 0 num.

(** The shred built for a payload that was recovered. *)
Definition recovered_shred (key : FecSetKey) (ref_shred : Shred) (rel_idx : nat) (payload : list Z) : Shred :=
  Shred_new
    (mkShredCommonHeader (replicate 64 0) (ch_variant (shred_common ref_shred)) (fk_slot key)
       (u32_add (fk_fec_set_index key) (Z.of_nat rel_idx)) (ch_version (shred_common ref_shred)) (fk_fec_set_index key))
    (LegacyData
       (mkDataShredHeader (match Shred_data_header ref_shred with Some h => dh_parent_offset h | None => 1 end) 0
          (Z.of_nat (length payload) mod 2 ^ 16)))
    payload.

(** One turn of the loop that puts the recovered shreds back. *)
Definition put_back (key : FecSetKey) (ref_shred : Shred) (m : gmap Z Shred) (r : nat * option (list Z)) : gmap Z Shred :=
  match r.2 with
  | None => m
  | Some payload =>
      match m !! Z.of_nat r.1 with
      | Some _ => m
      | None => <[Z.of_nat r.1 := recovered_shred key ref_shred r.1 payload]> m
      end
  end.

Definition attempt_recovery_from_pool (p : FecResolverPool) (key : FecSetKey) :
    Outcome (option CompletedFecSet * FecResolverPool) :=
  view ← FecResolverPool_get_buffer p key;
  match view with
  | None => mret (None, p)
  | Some b =>
      let num_data := Z.to_nat (fb_num_data b) in
      let num_coding := Z.to_nat (fb_num_coding b) in
      match reference_shred b with
      | None => mret (None, p)
      | Some ref_shred =>
          let shard_size := length (shred_payload ref_shred) in
          let data_array := shards (fb_data_shreds b) shard_size num_data in
          let coding_array := shards (fb_coding_shreds b) shard_size num_coding in
          match FecReconstructor_new num_data num_coding with
          | Err _ => mret (None, p)
          | Ok reconstructor =>
              match FecReconstructor_reconstruct reconstructor data_array coding_array with
              | Err _ => mret (None, p)
              | Ok result =>
                  p ← FecResolverPool_write_data p key
                        (λ m, foldl (put_back key ref_shred) m (imap pair (rc_data_shreds result)));
                  r ← extract_completed_from_pool p key true;
                  mret (Some r.1, r.2)
              end
          end
      end
  end.

(** The check of the signature, unless the shred is our own: what it lets through. *)
Definition passes_verification (s : ShredNetworkStage) (net : NetworkShred) : Outcome bool :=
  if decide (ns_source net = Local) then mret true
  else
    match sn_leader_lookup s with
    | None => mret true
    | Some lookup =>
        match lookup (ch_slot (shred_common (ns_shred net))) with
        | None => mret true
        | Some leader_pubkey =>
            r ← verify_shred (ns_shred net) leader_pubkey;
            mret (match r with
                  | Valid | Deferred => true
                  | Invalid | ZeroSignature | UnknownLeader | LegacyRejected => false
                  end)
        end
    end.

(** The shred goes to the pool, as a coding or as a data shred. *)
Definition route_to_pool (p : FecResolverPool) (shred : Shred) : Outcome (option (ResolverInsertResult * FecResolverPool)) :=
  let slot := ch_slot (shred_common shred) in
  let fec_set_index := ch_fec_set_index (shred_common shred) in
  if Shred_is_coding shred then
    match Shred_coding_header shred with
    | Some h =>
        r ← FecResolverPool_insert_coding_shred p slot fec_set_index (cd_position h) (cd_num_data_shreds h)
              (cd_num_coding_shreds h) shred;
        mret (Some r)
    | None => mret None
    end
  else
    r ← FecResolverPool_insert_data_shred p slot fec_set_index
          (u64_saturating_sub (ch_index (shred_common shred)) fec_set_index) shred;
    mret (Some r).

(** What the stage makes of the result of the pool. *)
Definition pool_outcome (s : ShredNetworkStage) (key : FecSetKey) (r : ResolverInsertResult) :
    Outcome (ShredInsertOutcome * ShredNetworkStage) :=
  match r with
  | Complete =>
      let s := tally fec_sets_completed s in
      r ← extract_completed_from_pool (sn_resolver_pool s) key false;
      mret (OFecSetComplete (fk_fec_set_index key), push_completed r.1 (set_pool r.2 s))
  | Recoverable =>
      let s := tally fec_sets_recovered s in
      r ← attempt_recovery_from_pool (sn_resolver_pool s) key;
      let s := set_pool r.2 s in
      mret (OFecRecoverable (fk_fec_set_index key), match r.1 with Some c => push_completed c s | None => s end)
  | DuplicateFecSet => mret (ODuplicate, tally shreds_duplicate s)
  | DuplicateShred => mret (OAccepted, s)
  | Equivocation => mret (ODuplicate, s)
  | Accepted => mret (OAccepted, s)
  end.

(** A shred that was admitted. *)
Definition admit_shred (s : ShredNetworkStage) (net : NetworkShred) : Outcome (ShredInsertOutcome * ShredNetworkStage) :=
  let shred := ns_shred net in
  let slot := ch_slot (shred_common shred) in
  let fec_set_index := ch_fec_set_index (shred_common shred) in
  let s := ensure_slot_tracked s slot in
  let s :=
    if bool_decide (ns_source net = Turbine) && (0 <? nc_turbine_neighbor_count (sn_config s))
    then schedule_retransmit s slot (default (shred_payload shred) (shred_raw shred)) else s in
  match sn_slots s !! slot with
  | None => Panicked
  | Some slot_state =>
      if decide (signature_of shred ∈ sl_seen_signatures slot_state) then mret (ODuplicate, tally shreds_duplicate s)
      else
        let slot_state :=
          mkNetworkSlotState ({[signature_of shred]} ∪ sl_seen_signatures slot_state)
            (if Shred_is_last_in_slot shred then true else sl_last_shred_seen slot_state)
            ({[fec_set_index]} ∪ sl_fec_set_indices slot_state) in
        let s := set_slots (<[slot := slot_state]> (sn_slots s)) (sn_slot_order s) s in
        routed ← route_to_pool (sn_resolver_pool s) shred;
        match routed with
        | None => mret (OAccepted, s)
        | Some (r, p) => pool_outcome (set_pool p s) (mkFecSetKey slot fec_set_index) r
        end
  end.

Definition ShredNetworkStage_insert_shred (s : ShredNetworkStage) (net : NetworkShred) :
    Outcome (ShredInsertOutcome * ShredNetworkStage) :=
  let s := tally shreds_received s in
  let s := tally (match ns_source net with Turbine => shreds_from_turbine | Repair => shreds_from_repair | Local => shreds_local end) s in
  if ch_slot (shred_common (ns_shred net)) <? nc_min_slot (sn_config s) then mret (OTooOld, s)
  else
    passes ← passes_verification s net;
    if passes : bool then admit_shred s net
    else mret (OInvalidSignature, tally shreds_signature_invalid s).

(** One set of a slot whose last shred was seen. *)
Definition flush_set (s : ShredNetworkStage) (key : FecSetKey) : Outcome ShredNetworkStage :=
  view ← FecResolverPool_get_buffer (sn_resolver_pool s) key;
  match view with
  | None => mret s
  | Some b =>
      if negb (fb_resolved b) && negb (bool_decide (fb_data_shreds b = ∅)) then
        let s := tally fec_sets_completed s in
        r ← extract_completed_from_pool (sn_resolver_pool s) key false;
        mret (push_completed r.1 (set_pool r.2 s))
      else mret s
  end.

Definition ShredNetworkStage_flush_complete_slots (s : ShredNetworkStage) : Outcome ShredNetworkStage :=
  let keys := slot ← iter_order (dom (sn_slots s));
    match sn_slots s !! slot with
    | Some state => if sl_last_shred_seen state then mkFecSetKey slot <$> iter_order (sl_fec_set_indices state) else []
    | None => []
    end in
  for_each flush_set s keys.

Definition ShredNetworkStage_set_min_slot (s : ShredNetworkStage) (min_slot : Z) : Outcome ShredNetworkStage :=
  let c := sn_config s in
  let s := set_config (mkShredNetworkConfig (nc_max_tracked_slots c) (nc_turbine_layer c) (nc_turbine_neighbor_count c) min_slot) s in
  let s := set_slots (filter (λ x, ¬ x.1 < min_slot) (sn_slots s)) (filter (λ x, min_slot <= x) (sn_slot_order s)) s in
  p ← FecResolverPool_prune_slots_below (sn_resolver_pool s) min_slot;
  mret (set_pool p s).

Definition ShredNetworkStage_drain_completed_sets (s : ShredNetworkStage) : list CompletedFecSet * ShredNetworkStage :=
  (sn_pending_completed s, set_completed [] s).
Definition ShredNetworkStage_drain_retransmits (s : ShredNetworkStage) : list RetransmitDecision * ShredNetworkStage :=
  (sn_pending_retransmits s, set_retransmits [] s).
Definition ShredNetworkStage_drain_equivocations (s : ShredNetworkStage) : list EquivocationProof * ShredNetworkStage :=
  let r := FecResolverPool_drain_equivocation_proofs (sn_resolver_pool s) in (r.1, set_pool r.2 s).
Definition ShredNetworkStage_is_slot_complete (s : ShredNetworkStage) (slot : Z) : bool :=
  match sn_slots s !! slot with Some state => sl_last_shred_seen state | None => false end.
End stage.

(** ** Runs of the stage *)

Inductive StageOp :=
| InsertShred (net : NetworkShred)
| FlushCompleteSlots
| SetMinSlot (min_slot : Z)
| DrainCompleted
| DrainRetransmits
| DrainEquivocations.

(** What a run gives: the outcomes of the inserts, and the sets that were drained. *)
Record StageRun := mkStageRun {
  sr_stage : ShredNetworkStage;
  sr_outcomes : list ShredInsertOutcome;
  sr_drained : list CompletedFecSet;
}.

Section runs.
Context `{Sha256, Ed25519, ReedSolomon, !IterOrder Z, !IterOrder FecSetKey}.

Definition stage_step (r : StageRun) (op : StageOp) : Outcome StageRun :=
  match op with
  | InsertShred net =>
      o ← ShredNetworkStage_insert_shred (sr_stage r) net;
      mret (mkStageRun o.2 (sr_outcomes r ++ [o.1]) (sr_drained r))
  | FlushCompleteSlots =>
      s ← ShredNetworkStage_flush_complete_slots (sr_stage r); mret (mkStageRun s (sr_outcomes r) (sr_drained r))
  | SetMinSlot min_slot =>
      s ← ShredNetworkStage_set_min_slot (sr_stage r) min_slot; mret (mkStageRun s (sr_outcomes r) (sr_drained r))
  | DrainCompleted =>
      let d := ShredNetworkStage_drain_completed_sets (sr_stage r) in
      mret (mkStageRun d.2 (sr_outcomes r) (sr_drained r ++ d.1))
  | DrainRetransmits =>
      mret (mkStageRun (ShredNetworkStage_drain_retransmits (sr_stage r)).2 (sr_outcomes r) (sr_drained r))
  | DrainEquivocations =>
      mret (mkStageRun (ShredNetworkStage_drain_equivocations (sr_stage r)).2 (sr_outcomes r) (sr_drained r))
  end.

Definition stage_start (config : ShredNetworkConfig) (lookup : Z → option (list Z)) : StageRun :=
  mkStageRun (ShredNetworkStage_set_leader_lookup lookup (ShredNetworkStage_with_config config)) [] [].
Definition stage_run (config : ShredNetworkConfig) (lookup : Z → option (list Z)) (ops : list StageOp) : Outcome StageRun :=
  for_each stage_step (stage_start config lookup) ops.
End runs.

(** ** Where the shreds of a set come from *)

Section origin.
Context `{Sha256, Ed25519, ReedSolomon, !IterOrder Z, !IterOrder FecSetKey}.

(** The check that a shred passed: it is our own, its leader is not known, its signature is
    valid, or its network bytes are missing and the check was put off. *)
Definition trusted (lookup : Z → option (list Z)) (net : NetworkShred) : Prop :=
  ns_source net = Local ∨
  match lookup (ch_slot (shred_common (ns_shred net))) with
  | None => True
  | Some pk => verify_shred (ns_shred net) pk = Done Valid
               ∨ verify_shred (ns_shred net) pk = Done Deferred ∧ shred_raw (ns_shred net) = None
  end.
(** A data shred that the codec made from the shreds of a set. *)
Definition rebuilt_from (key : FecSetKey) (b : FecBuffer) (s : Shred) : Prop :=
  ∃ ref rec result i payload,
    let shard_size := length (shred_payload ref) in
    reference_shred b = Some ref ∧
    FecReconstructor_new (Z.to_nat (fb_num_data b)) (Z.to_nat (fb_num_coding b)) = Ok rec ∧
    FecReconstructor_reconstruct rec (shards (fb_data_shreds b) shard_size (Z.to_nat (fb_num_data b)))
      (shards (fb_coding_shreds b) shard_size (Z.to_nat (fb_num_coding b))) = Ok result ∧
    rc_data_shreds result !! i = Some (Some payload) ∧ s = recovered_shred key ref i payload.

Section invariant.
Context (P : Shred → Prop) (Hrebuilt : ∀ key b s, buffer_all P b → rebuilt_from key b s → P s) (L : option (Z → option (list Z))).

Definition stage_all (s : ShredNetworkStage) : Prop :=
  pool_all P (sn_resolver_pool s) ∧ Forall (λ c, Forall P (cf_data_shreds c)) (sn_pending_completed s)
  ∧ sn_leader_lookup s = L.

Lemma sorted_values_all m : map_Forall (λ _, P) m → Forall P (sorted_values m).
Proof.
  intros Hm. apply Forall_forall. intros s Hs. unfold sorted_values in Hs. apply list_elem_of_omap in Hs as (k & _ & Hk). by eapply Hm.
Qed.

Lemma get_buffer_all p key b : FecResolverPool_get_buffer p key = Done (Some b) → pool_all P p → buffer_all P b.
Proof.
  unfold FecResolverPool_get_buffer. intros Hg Hp. case_match; [|done]. apply bind_Done in Hg as (b' & Hb & [= <-]). by eapply all_buffer.
Qed.

Lemma extract_all p key w c p' : extract_completed_from_pool p key w = Done (c, p') → pool_all P p →
  pool_all P p' ∧ Forall P (cf_data_shreds c).
Proof.
  unfold extract_completed_from_pool. intros (v & Hg & Hi)%bind_Done Hp. apply bind_Done in Hi as ([x p1] & Hm & [= <- <-]).
  split; [by eapply all_complete|]. cbn. destruct v as [b|]; [|constructor]. apply sorted_values_all.
  by destruct (get_buffer_all _ _ _ Hg Hp).
Qed.

Lemma put_back_all key ref l : (∀ i payload, (i, Some payload) ∈ l → P (recovered_shred key ref i payload)) →
  ∀ m, map_Forall (λ _, P) m → map_Forall (λ _, P) (foldl (put_back key ref) m l).
Proof.
  induction l as [|[i r] l IH]; intros Hl m Hm; cbn [foldl]; [done|]. apply IH; [intros; apply Hl; by right|].
  unfold put_back. cbn. destruct r as [payload|]; [|done]. case_match; [done|].
  apply map_Forall_insert_2; [|done]. apply Hl. left.
Qed.

Lemma recovery_all p key c p' : attempt_recovery_from_pool p key = Done (c, p') → pool_all P p →
  pool_all P p' ∧ ∀ c', c = Some c' → Forall P (cf_data_shreds c').
Proof.
  unfold attempt_recovery_from_pool. intros (v & Hg & Hi)%bind_Done Hp. destruct v as [b|]; [|by injection Hi as <- <-].
  destruct (reference_shred b) as [ref|] eqn:Eref; [|by injection Hi as <- <-].
  destruct (FecReconstructor_new _ _) as [rec|] eqn:Enew; [|by injection Hi as <- <-].
  destruct (FecReconstructor_reconstruct _ _ _) as [res|] eqn:Eres; [|by injection Hi as <- <-].
  apply bind_Done in Hi as (p1 & Hw & Hi). apply bind_Done in Hi as ([c1 p2] & He & [= <- <-]).
  destruct (extract_all _ _ _ _ _ He) as [Hp2 Hc]; [|by split; [|intros ? [= <-]]].
  eapply all_write; [|exact Hw|done]. apply put_back_all. intros i payload Hin.
  apply list_elem_of_lookup in Hin as [j Hj]. rewrite list_lookup_imap in Hj. apply fmap_Some in Hj as (x & Hx & [= -> <-]).
  apply (Hrebuilt key b); [by eapply get_buffer_all|]. by exists ref, rec, res, j, payload.
Qed.

Lemma outcome_all s key r x s' : pool_outcome s key r = Done (x, s') → stage_all s → stage_all s'.
Proof.
  intros Ho (Hp & Hc & HL). destruct r; cbn [pool_outcome] in Ho; try (by injection Ho as <- <-).
  - apply bind_Done in Ho as ([c p] & He & [= <- <-]). destruct (extract_all _ _ _ _ _ He Hp) as [Hp' Hc']. split_and!; [done| |done].
    cbn. apply Forall_app. split; [done|by apply Forall_singleton].
  - apply bind_Done in Ho as ([[c|] p] & He & [= <- <-]); destruct (recovery_all _ _ _ _ He Hp) as [Hp' Hc']; split_and!; try done.
    cbn. apply Forall_app. split; [done|]. apply Forall_singleton. by apply Hc'.
Qed.

Lemma tracked_all s slot : stage_all s → stage_all (ensure_slot_tracked s slot).
Proof. unfold ensure_slot_tracked. case_match; [done|]. by destruct (evict_slots _ _ _). Qed.

Lemma route_all p s r p' : P s → route_to_pool p s = Done (Some (r, p')) → pool_all P p → pool_all P p'.
Proof.
  unfold route_to_pool. intros Hs Hr Hp. destruct (Shred_is_coding s).
  - destruct (Shred_coding_header s); [|done]. apply bind_Done in Hr as ([r' p1] & Hi & [= -> ->]). by eapply all_insert_coding.
  - apply bind_Done in Hr as ([r' p1] & Hi & [= -> ->]). by eapply all_insert_data.
Qed.

Lemma admit_all s net x s' : P (ns_shred net) → admit_shred s net = Done (x, s') → stage_all s → stage_all s'.
Proof.
  intros Hs Ha Hall. unfold admit_shred in Ha. apply (tracked_all _ (ch_slot (shred_common (ns_shred net)))) in Hall.
  set (s1 := ensure_slot_tracked _ _) in *. set (s2 := if _ && _ then _ else s1) in *.
  assert (H2s : stage_all s2) by (unfold s2; destruct (_ && _); exact Hall). clearbody s1 s2. case_match; [|done].
  case_decide; [by injection Ha as <- <-|]. apply bind_Done in Ha as ([[r p]|] & Hr & Ho); [|by injection Ho as <- <-].
  eapply outcome_all; [exact Ho|]. split_and!; [|apply H2s|apply H2s]. eapply route_all; [exact Hs|exact Hr|]. apply H2s.
Qed.

Lemma flush_all s s' : ShredNetworkStage_flush_complete_slots s = Done s' → stage_all s → stage_all s'.
Proof.
  intros Hf Hall. eapply (for_each_ind flush_set stage_all); [|exact Hall|exact Hf]. clear Hf. intros key t t' _ (Hp & Hc & HL) Hf.
  unfold flush_set in Hf. apply bind_Done in Hf as ([b|] & _ & Hf); [|by injection Hf as <-].
  case_match; [|by injection Hf as <-]. apply bind_Done in Hf as ([c p] & He & [= <-]).
  destruct (extract_all _ _ _ _ _ He Hp) as [Hp' Hc']. split_and!; [done| |done]. cbn. apply Forall_app. split; [done|by apply Forall_singleton].
Qed.
Lemma min_slot_all s min_slot s' : ShredNetworkStage_set_min_slot s min_slot = Done s' → stage_all s → stage_all s'.
Proof.
  unfold ShredNetworkStage_set_min_slot. intros (p & Hp & [= <-])%bind_Done (Ha & Hc & HL). split_and!; [|done|done].
  by eapply all_prune.
Qed.
End invariant.

Lemma merkle_not_deferred s raw pk : verify_merkle_shred s raw pk ≠ Done Deferred.
Proof.
  unfold verify_merkle_shred. destruct (_ <? _)%nat; [done|]. intros (leaf & _ & Hv)%bind_Done.
  destruct (proof_of_variant _); [|done]. destruct (merkle_leaf_index s); [|done]. by destruct (verify_signature _ _ _) as [[]|].
Qed.
Lemma deferred_raw s pk : verify_shred s pk = Done Deferred → shred_raw s = None.
Proof.
  unfold verify_shred. intros Hv. destruct (is_zero_signature _); [done|]. destruct (shred_raw s) as [raw|]; [|done].
  destruct (shred_variant s); try done; by apply merkle_not_deferred in Hv.
Qed.

(** The check lets through what is trusted. *)
Lemma passes_trusted s lookup net : sn_leader_lookup s = Some lookup → passes_verification s net = Done true → trusted lookup net.
Proof.
  unfold passes_verification, trusted. intros -> Hp. case_decide as Hl; [by left|]. right.
  destruct (lookup _) as [pk|]; [|done]. apply bind_Done in Hp as (v & Hv & [= Hb]).
  destruct v; try done; [by left|right]. split; [done|by eapply deferred_raw].
Qed.
End origin.

(** Where a shred comes from, in a run over [ops]: it was inserted and passed the check, or it
    was recovered from shreds that all come from such places. *)
Inductive originates `{Sha256, Ed25519, ReedSolomon, !IterOrder Z} (lookup : Z → option (list Z)) (ops : list StageOp) : Shred → Prop :=
| inserted net : InsertShred net ∈ ops → trusted lookup net → originates lookup ops (ns_shred net)
| recovered key b s :
    map_Forall (λ _, originates lookup ops) (fb_data_shreds b) → map_Forall (λ _, originates lookup ops) (fb_coding_shreds b) →
    rebuilt_from key b s → originates lookup ops s.

Lemma step_origin `{Sha256, Ed25519, ReedSolomon, !IterOrder Z, !IterOrder FecSetKey} lookup ops op r r' :
  let P := originates lookup ops in
  let I r := stage_all P (Some lookup) (sr_stage r) ∧ Forall (λ c, Forall P (cf_data_shreds c)) (sr_drained r) in
  op ∈ ops → I r → stage_step r op = Done r' → I r'.
Proof.
  intros P I Hop [Hall Hd] Hs. assert (Hrb : ∀ key b s, buffer_all P b → rebuilt_from key b s → P s) by (intros key b s []; by apply recovered). unfold I.
  destruct op as [net| |m| | |]; cbn [stage_step] in Hs.
  - apply bind_Done in Hs as ([o s'] & Hi & [= <-]). split; [|done]. cbn. unfold ShredNetworkStage_insert_shred in Hi.
    case_match; [by injection Hi as <- <-|]. apply bind_Done in Hi as ([] & Hp & Hi); [|by injection Hi as <- <-].
    eapply admit_all; [exact Hrb| |exact Hi|exact Hall]. apply inserted; [done|].
    eapply passes_trusted; [|exact Hp]. apply Hall.
  - apply bind_Done in Hs as (s' & Hf & [= <-]). split; [|done]. by eapply flush_all.
  - apply bind_Done in Hs as (s' & Hf & [= <-]). split; [|done]. by eapply min_slot_all.
  - injection Hs as <-. destruct Hall as (Hp & Hc & HL). split; [by split_and!|]. cbn. by apply Forall_app.
  - by injection Hs as <-.
  - by injection Hs as <-.
Qed.


(** C12. What the stage hands on was checked.  On every run of the stage with a leader lookup,
    every data shred of every set that was drained or is waiting is one that was inserted and
    passed the check, or one that the codec rebuilt from the shreds of a set which are
    themselves of these two kinds.  A check is passed with a valid
    signature of the slot's leader, by our own shreds, when the leader is not known, and by
    shreds without their network bytes. *)
Theorem completed_sets_are_checked `{Sha256, Ed25519, ReedSolomon, !IterOrder Z, !IterOrder FecSetKey} config lookup ops r :
  stage_run config lookup ops = Done r →
  ∀ c s, c ∈ sr_drained r ++ sn_pending_completed (sr_stage r) → s ∈ cf_data_shreds c →
    originates lookup ops s.
Proof.
  intros Hrun c s Hc Hs. set (P := originates lookup ops).
  assert (Hinv : stage_all P (Some lookup) (sr_stage r) ∧ Forall (λ c, Forall P (cf_data_shreds c)) (sr_drained r)).
  { eapply (for_each_ind stage_step (λ r, stage_all P (Some lookup) (sr_stage r) ∧ Forall (λ c, Forall P (cf_data_shreds c)) (sr_drained r)));
      [|..|exact Hrun].
    - intros op a b Hop. by apply step_origin.
    - split; [|constructor]. split_and!; [|constructor|done]. apply Forall_replicate. split; apply map_Forall_empty. }
  destruct Hinv as ((_ & Hpend & _) & Hdr).
  assert (Hall : Forall (λ c, Forall P (cf_data_shreds c)) (sr_drained r ++ sn_pending_completed (sr_stage r))) by (by apply Forall_app).
  rewrite Forall_forall in Hall. specialize (Hall c Hc). rewrite Forall_forall in Hall. by apply Hall.
Qed.

(** ** Shreds that share a signature *)

Section stall.
Context `{Sha256, Ed25519, ReedSolomon, !IterOrder Z, !IterOrder FecSetKey}.

Lemma verify_total s pk : ∃ v, verify_shred s pk = Done v.
Proof.
  assert (Hm : ∀ raw, ∃ v, verify_merkle_shred s raw pk = Done v).
  { intros raw. unfold verify_merkle_shred. destruct (Nat.ltb_spec (length raw) (SHRED_SIGNATURE_BYTES + merkle_protected_sz (default 0 (raw !! SHRED_SIGNATURE_BYTES)))) as [|Hl];
      [by eexists|]. unfold merkle_leaf_hash, range_of. rewrite !(proj2 (Nat.ltb_ge _ _)) by lia. cbn [orb]. rewrite !Done_bind.
    repeat case_match; by eexists. }
  unfold verify_shred. repeat (case_match; try (by eexists)); auto.
Qed.
Lemma passes_total s net : ∃ b, passes_verification s net = Done b.
Proof.
  unfold passes_verification. repeat (case_match; try (by eexists)). destruct (verify_total (ns_shred net) l) as [v ->]. by eexists.
Qed.

Context (slot : Z) (signature : list Z).

(** A shred of the set: its leader's signature, and a set of at least two data shreds. *)
Definition of_set (net : NetworkShred) : Prop :=
  ch_slot (shred_common (ns_shred net)) = slot ∧ signature_of (ns_shred net) = signature ∧
  ∀ h, Shred_coding_header (ns_shred net) = Some h → 2 <= cd_num_data_shreds h.

(** The sets in progress: none, or one of the slot with at most one data shred.  The default
    pool then has a free buffer. *)
Record quiet (sets : list (FecSetKey * FecBuffer)) (r : Resolver) : Prop := {
  qt_sets : rv_sets r = sets;
  qt_depth : rv_depth r = FEC_RESOLVER_DEPTH;
  qt_complete : rv_complete_depth r = FEC_RESOLVER_COMPLETE_DEPTH;
  qt_completed : (rv_completed r <= 512)%nat;
  qt_free : (length sets + rv_free r + rv_completed r = 544)%nat;
}.
Definition few (r : Resolver) : Prop :=
  quiet [] r ∨ ∃ key b, quiet [(key, b)] r ∧ fk_slot key = slot ∧ (size (fb_data_shreds b) <= 1)%nat.

(** Before a shred is admitted, and after it. *)
Definition waiting (s : ShredNetworkStage) : Prop :=
  sn_slots s = ∅ ∧ sn_slot_order s = [] ∧ pool_ok (sn_resolver_pool s) ∧ quiet [] (view (sn_resolver_pool s)).
Definition stalled (s : ShredNetworkStage) : Prop :=
  (∃ state, sn_slots s = {[slot := state]} ∧ signature ∈ sl_seen_signatures state) ∧ sn_slot_order s = [slot]
  ∧ pool_ok (sn_resolver_pool s) ∧ few (view (sn_resolver_pool s)).

Lemma stalled_insert s net : of_set net → stalled s →
  ∃ o s', ShredNetworkStage_insert_shred s net = Done (o, s') ∧ stalled s' ∧ o ∈ [ODuplicate; OTooOld; OInvalidSignature]
    ∧ sn_pending_completed s' = sn_pending_completed s.
Proof.
  intros (Hslot & Hsig & _) Hs. pose proof Hs as ((state & Hst & Hin) & _). unfold ShredNetworkStage_insert_shred. rewrite Hslot.
  case_match; [eexists _, _; split; [done|]; split_and!; [exact Hs|set_solver|done]|].
  destruct (passes_total (tally (match ns_source net with Turbine => shreds_from_turbine | Repair => shreds_from_repair
    | Local => shreds_local end) (tally shreds_received s)) net) as [[] ->]; rewrite Done_bind; cycle 1.
  { eexists _, _. split; [done|]. split_and!; [exact Hs|set_solver|done]. }
  unfold admit_shred, ensure_slot_tracked. rewrite Hslot. cbn [sn_slots tally]. rewrite Hst, lookup_singleton_eq, Hsig.
  set (s2 := if _ && _ then _ else _).
  assert (Es : sn_slots s2 = sn_slots s ∧ stalled s2 ∧ sn_pending_completed s2 = sn_pending_completed s) by (unfold s2; by destruct (_ && _)).
  destruct Es as (Es & Hs2 & Ep). clearbody s2. rewrite Es, Hst, lookup_singleton_eq, decide_True by done.
  eexists _, _. split; [done|]. split_and!; [exact Hs2|set_solver|done].
Qed.

(** The first shred of a set. *)
Lemma insert_first_shred r key s add : quiet [] r → fk_slot key = slot →
  (add (set_key key FecBuffer_new)).1 = Accepted → (size (fb_data_shreds (add (set_key key FecBuffer_new)).2) <= 1)%nat →
  ∃ x r', resolver_insert r key s add = Done (Inserted x, r') ∧ (x = Accepted ∨ x = DuplicateFecSet) ∧ few r'.
Proof.
  intros Hq Hslot Hx Hsize. unfold resolver_insert. destruct (is_done r _); [eexists _, r; split_and!; auto; by left|].
  destruct Hq as [Es Ed Ec Hc Hf]. unfold open_set. rewrite Es, decide_False by apply not_elem_of_nil.
  destruct (rv_free r) as [|free] eqn:Ef; [cbn in Hf; lia|]. rewrite Ed, Done_bind.
  unfold find_set, with_sets, rv_sets at 1. change (drop _ _) with [(key, set_key key FecBuffer_new)].
  rewrite filter_cons_True by done. eexists _, _. split; [done|]. split; [by left|]. right.
  exists key, (add (set_key key FecBuffer_new)).2. split_and!; [|done|done].
  split; cbn; rewrite ?decide_True by done; try done; cbn in *; lia.
Qed.

Lemma map_len_one (k : Z) (s : Shred) : map_len (<[k := s]> ∅) = 1.
Proof. unfold map_len. by rewrite insert_empty, map_size_singleton. Qed.
Lemma track_new signature' key :
  track_first signature' (set_key key FecBuffer_new) = mkFecBuffer ∅ ∅ 0 0 false false signature' (Some key).
Proof. unfold track_first. by rewrite !bool_decide_eq_true_2. Qed.
Lemma add_first_coding key pos nd nc s : 2 <= nd →
  let r := add_coding pos nd nc s (set_key key FecBuffer_new) in r.1 = Accepted ∧ (size (fb_data_shreds r.2) <= 1)%nat.
Proof.
  intros Hnd. unfold add_coding. rewrite track_new. cbn [FecBuffer_learn_params fb_params_known fb_coding_shreds]. rewrite lookup_empty. cbn [fst snd].
  split; [|cbn; rewrite map_size_empty; lia].
  unfold status, FecBuffer_is_complete, FecBuffer_is_recoverable, FecBuffer_total_received. cbn -[map_len].
  rewrite map_len_one. change (map_len ∅) with 0. change (u32_add 0 1) with 1. by rewrite !(proj2 (Z.leb_gt nd _)) by lia.
Qed.
Lemma add_first_data key rel s :
  let r := add_data rel s (set_key key FecBuffer_new) in r.1 = Accepted ∧ (size (fb_data_shreds r.2) <= 1)%nat.
Proof. unfold add_data. rewrite track_new. split; [done|]. cbn [fb_data_shreds]. rewrite lookup_empty. cbn [snd set_data fb_data_shreds]. by rewrite insert_empty, map_size_singleton. Qed.

Lemma first_routed p s : pool_ok p → quiet [] (view p) → ch_slot (shred_common s) = slot →
  (∀ h, Shred_coding_header s = Some h → 2 <= cd_num_data_shreds h) →
  ∃ r, route_to_pool p s = Done r
    ∧ ∀ x p', r = Some (x, p') → (x = Accepted ∨ x = DuplicateFecSet) ∧ pool_ok p' ∧ few (view p').
Proof.
  intros Hok Hq Hslot Hc. unfold route_to_pool. rewrite Hslot. set (key := mkFecSetKey slot (ch_fec_set_index (shred_common s))).
  destruct (Shred_is_coding s).
  - destruct (Shred_coding_header s) as [h|]; [|by eexists]. specialize (Hc h eq_refl).
    destruct (add_first_coding key (cd_position h) _ (cd_num_coding_shreds h) s Hc) as [Hx Hsize].
    destruct (insert_first_shred _ key s _ Hq eq_refl Hx Hsize) as (x & r & Er & Hcase & Hfew).
    pose proof (insert_coding_ok p slot (ch_fec_set_index (shred_common s)) (cd_position h) (cd_num_data_shreds h)
      (cd_num_coding_shreds h) s Hok) as Ha. fold key in Ha. rewrite Er in Ha.
    destruct (FecResolverPool_insert_coding_shred _ _ _ _ _ _ _) as [[y p']|]; [|done]. destruct Ha as [Hok' [= -> ->]].
    eexists. split; [done|]. by intros ? ? [= <- <-].
  - set (rel := u64_saturating_sub _ _). destruct (add_first_data key rel s) as [Hx Hsize].
    destruct (insert_first_shred _ key s _ Hq eq_refl Hx Hsize) as (x & r & Er & Hcase & Hfew).
    pose proof (insert_data_ok p slot (ch_fec_set_index (shred_common s)) rel s Hok) as Ha. fold key in Ha. rewrite Er in Ha.
    destruct (FecResolverPool_insert_data_shred _ _ _ _ _) as [[y p']|]; [|done]. destruct Ha as [Hok' [= -> ->]].
    eexists. split; [done|]. by intros ? ? [= <- <-].
Qed.

Lemma waiting_insert s net : of_set net → waiting s →
  ∃ o s', ShredNetworkStage_insert_shred s net = Done (o, s') ∧ sn_pending_completed s' = sn_pending_completed s
    ∧ (waiting s' ∧ o ∈ [OTooOld; OInvalidSignature] ∨ stalled s' ∧ o ∈ [OAccepted; ODuplicate]).
Proof.
  intros (Hslot & Hsig & Hcode) Hw. pose proof Hw as (Es & Eo & Hok & Hq). unfold ShredNetworkStage_insert_shred. rewrite Hslot.
  case_match; [eexists _, _; split; [done|]; split; [done|]; left; split; [exact Hw|set_solver]|].
  destruct (passes_total (tally (match ns_source net with Turbine => shreds_from_turbine | Repair => shreds_from_repair
    | Local => shreds_local end) (tally shreds_received s)) net) as [[] ->]; rewrite Done_bind; cycle 1.
  { eexists _, _. split; [done|]. split; [done|]. left. split; [exact Hw|set_solver]. }
  unfold admit_shred, ensure_slot_tracked. rewrite Hslot, Hsig. cbn [sn_slots tally sn_slot_order]. rewrite Es, lookup_empty, Eo.
  assert (Ee : ∀ n, evict_slots ∅ [] n = (∅, [])) by (intros n; cbn [evict_slots]; by destruct (_ <=? _)%nat). rewrite Ee.
  set (s2 := if _ && _ then _ else _).
  assert (E2 : sn_slots s2 = {[slot := NetworkSlotState_new]} ∧ sn_slot_order s2 = [slot]
    ∧ sn_pending_completed s2 = sn_pending_completed s ∧ sn_resolver_pool s2 = sn_resolver_pool s)
    by (unfold s2; destruct (_ && _); cbn; by rewrite insert_empty).
  destruct E2 as (E2s & E2o & E2c & E2p). clearbody s2. rewrite E2s, lookup_singleton_eq, decide_False by (cbn; set_solver).
  cbn [sn_resolver_pool set_slots]. rewrite E2p, insert_singleton_eq.
  destruct (first_routed _ (ns_shred net) Hok Hq Hslot Hcode) as (r & -> & Hr). rewrite Done_bind.
  assert (Hs3 : ∀ p, pool_ok p → few (view p) → ∀ state, signature ∈ sl_seen_signatures state →
    stalled (set_pool p (set_slots {[slot := state]} (sn_slot_order s2) s2))).
  { intros p Hp Hf state Hin. split_and!; [by exists state|done..]. }
  assert (Hin : ∀ l f, signature ∈ sl_seen_signatures (mkNetworkSlotState ({[signature]} ∪ sl_seen_signatures NetworkSlotState_new) l f))
    by (intros; cbn; set_solver).
  destruct r as [[x p]|].
  - destruct (Hr x p eq_refl) as (Hx & Hp & Hf).
    destruct Hx as [-> | ->]; cbn [pool_outcome]; eexists _, _; (split; [done|]); (split; [done|]); right;
      (split; [by apply (Hs3 p)|set_solver]).
  - eexists _, _. split; [done|]. split; [done|]. right. split; [|set_solver].
    specialize (Hs3 (sn_resolver_pool s) Hok (or_introl Hq) _ (Hin (if Shred_is_last_in_slot (ns_shred net) then true else false)
      ({[ch_fec_set_index (shred_common (ns_shred net))]} ∪ ∅))).
    destruct Hs3 as (Ha & Hb & _ & _). split_and!; [exact Ha|exact Hb|by cbn; rewrite E2p|left; by cbn; rewrite E2p].
Qed.

(** A set of the slot that is handed on with a single data shred. *)
Definition lone (c : CompletedFecSet) : Prop :=
  cf_slot c = slot ∧ length (cf_data_shreds c) = 1%nat ∧ cf_was_recovered c = false.

Lemma sorted_value (m : gmap Z Shred) : m ≠ ∅ → (size m <= 1)%nat → length (sorted_values m) = 1%nat.
Proof.
  intros (k & x & Hk)%map_choose Hsize. assert (m = {[k := x]}) as ->.
  { rewrite <- (insert_delete_id m k x), <- insert_empty by done. f_equal. apply map_size_empty_iff.
    rewrite map_size_delete_Some by (by eexists). lia. }
  unfold sorted_values. rewrite dom_singleton_L, elements_singleton. cbn. by rewrite lookup_singleton_eq.
Qed.

Lemma extract_few p key b : pool_ok p → few (view p) → find_set key (rv_sets (view p)) = Some b → fb_data_shreds b ≠ ∅ →
  ∃ c p', extract_completed_from_pool p key false = Done (c, p') ∧ pool_ok p' ∧ few (view p') ∧ lone c.
Proof.
  intros Hok Hfew Hfind Hne. unfold extract_completed_from_pool. rewrite get_buffer_ok, Hfind, Done_bind by done.
  pose proof (mark_completed_ok p key Hok) as Hm. unfold resolver_complete in Hm. rewrite Hfind in Hm.
  destruct Hfew as [Hq|(k & b' & Hq & Hslot & Hsize)]; destruct Hq as [Es Ed Ec Hc Hf]; rewrite Es in *; [done|].
  apply find_set_elem, list_elem_of_singleton in Hfind as [= -> ->].
  destruct (FecResolverPool_mark_completed p k) as [[x p']|]; [|done]. destruct Hm as [Hok' Hv]. rewrite Done_bind.
  eexists _, p'. split; [done|]. split; [done|]. split; [left|split_and!; [done|by apply sorted_value|done]].
  set (v' := view p') in *. clearbody v'. injection Hv as _ <-. rewrite filter_cons_False, filter_nil by auto.
  clear Es. cbn [view rv_depth rv_free rv_completed rv_complete_depth length] in *. rewrite Ec in *. unfold FEC_RESOLVER_COMPLETE_DEPTH in *.
  destruct (Nat.leb_spec 512 (length (rp_completed_queue p))), (Nat.ltb_spec 0 (length (rp_completed_queue p)));
    split; cbn; (done || lia).
Qed.

Definition hands_on (s s' : ShredNetworkStage) : Prop :=
  ∃ l, sn_pending_completed s' = sn_pending_completed s ++ l ∧ Forall lone l.

Lemma flush_stalled keys : ∀ s, stalled s → ∃ s', for_each flush_set s keys = Done s' ∧ stalled s' ∧ hands_on s s'.
Proof.
  induction keys as [|key keys IH]; intros s Hs; cbn [for_each].
  { exists s. split; [done|]. split; [done|]. exists []. by rewrite app_nil_r. }
  assert (Hstep : ∃ s', flush_set s key = Done s' ∧ stalled s' ∧ hands_on s s').
  { assert (Hsame : ∃ s', Done s = Done s' ∧ stalled s' ∧ hands_on s s')
      by (exists s; split; [done|]; split; [done|]; exists []; by rewrite app_nil_r).
    pose proof Hs as (Hst & Ho & Hok & Hf). unfold flush_set. rewrite get_buffer_ok, Done_bind by done.
    destruct (find_set key _) as [b|] eqn:Eb; [|exact Hsame]. destruct (negb (fb_resolved b)); [|exact Hsame].
    case_bool_decide as Hne; [exact Hsame|]. cbn [negb andb sn_resolver_pool tally].
    destruct (extract_few _ _ _ Hok Hf Eb Hne) as (c & p' & -> & Hok' & Hf' & Hc). rewrite Done_bind.
    eexists. split; [done|]. split; [by split_and!|]. exists [c]. split; [done|by apply Forall_singleton]. }
  destruct Hstep as (s1 & -> & Hs1 & l1 & E1 & Hl1). rewrite Done_bind. destruct (IH s1 Hs1) as (s' & -> & Hs' & l2 & E2 & Hl2).
  exists s'. split; [done|]. split; [done|]. exists (l1 ++ l2). rewrite E2, E1, (assoc_L (++)). split; [done|by apply Forall_app].
Qed.
Lemma flush_waiting s : waiting s → ShredNetworkStage_flush_complete_slots s = Done s.
Proof.
  intros (Es & _). unfold ShredNetworkStage_flush_complete_slots. rewrite Es, dom_empty_L.
  assert (El : iter_order (∅ : gset Z) = []) by (apply Permutation_nil; by rewrite iter_order_perm, elements_empty).
  by rewrite El.
Qed.

Lemma min_slot_step s m : stalled s ∨ waiting s →
  ∃ s', ShredNetworkStage_set_min_slot s m = Done s' ∧ sn_pending_completed s' = sn_pending_completed s
    ∧ (waiting s' ∧ (waiting s ∨ slot < m) ∨ stalled s ∧ stalled s').
Proof.
  intros Hs. assert (Hok : pool_ok (sn_resolver_pool s)) by (by destruct Hs as [(_ & _ & ? & _)|(_ & _ & ? & _)]).
  unfold ShredNetworkStage_set_min_slot. cbn [sn_resolver_pool set_slots set_config].
  pose proof (pool_prune_ok _ m Hok) as Hp. destruct (FecResolverPool_prune_slots_below _ m) as [p|]; [|done].
  destruct Hp as [Hok' Hv].
  assert (Ev : view p = resolver_prune (view (sn_resolver_pool s)) m).
  { apply (f_equal (λ r, match r with Done x => x.2 | Panicked => view p end)) in Hv. exact (eq_sym Hv). }
  rewrite Done_bind. eexists. split; [done|]. split; [done|].
  assert (Hempty : quiet [] (view (sn_resolver_pool s)) → quiet [] (view p)).
  { intros [Es Ed Ec Hc Hf]. rewrite Ev. unfold resolver_prune. rewrite Es. split; cbn [rv_sets rv_free rv_depth rv_completed rv_complete_depth]; (done || cbn in *; lia). }
  assert (Hone : few (view (sn_resolver_pool s)) → if decide (m <= slot) then few (view p) else quiet [] (view p)).
  { intros [Hq|(k & b & [Es Ed Ec Hc Hf] & Hk & Hb)]; [case_decide; [left|]; auto|]. rewrite Ev. unfold resolver_prune. rewrite Es. case_decide as Hm.
    - right. exists k, b. split; [|done]. rewrite filter_cons_True by (cbn; lia). split; cbn [rv_sets rv_free rv_depth rv_completed rv_complete_depth]; (done || cbn in *; lia).
    - rewrite filter_cons_False by (cbn; lia). split; cbn [rv_sets rv_free rv_depth rv_completed rv_complete_depth]; (done || cbn in *; lia). }
  destruct Hs as [Hs|Hs].
  - pose proof Hs as ((state & Es & Hin) & Eo & _ & Hf). specialize (Hone Hf). destruct (decide (m <= slot)) as [Hm|Hm].
    + assert (Hs' : stalled (set_pool p (set_slots (filter (λ x, ¬ x.1 < m) (sn_slots s)) (filter (λ x, m <= x) (sn_slot_order s))
        (set_config (mkShredNetworkConfig (nc_max_tracked_slots (sn_config s)) (nc_turbine_layer (sn_config s))
           (nc_turbine_neighbor_count (sn_config s)) m) s)))).
      { split_and!; [|by cbn; rewrite Eo, filter_cons_True|done|done]. exists state. split; [|done]. cbn. rewrite Es.
        apply map_filter_singleton_True. cbn. lia. }
      by right.
    + left. split; [|right; lia]. split_and!; [|by cbn; rewrite Eo, filter_cons_False|done|done]. cbn. rewrite Es.
      apply map_filter_singleton_False. cbn. lia.
  - pose proof Hs as (Es & Eo & _ & Hq). left. split; [|by left].
    split_and!; [by cbn; rewrite Es, map_filter_empty|by cbn; rewrite Eo|done|by apply Hempty].
Qed.

(** ** Runs on the shreds of one set *)

Definition op_of_set (op : StageOp) : Prop := match op with InsertShred net => of_set net | _ => True end.
(** The operations that make the stage forget the slot. *)
Definition raises (op : StageOp) : Prop := match op with SetMinSlot m => slot < m | _ => False end.
#[local] Instance raises_dec op : Decision (raises op).
Proof. destruct op; cbn; apply _. Defined.
Definition raised (ops : list StageOp) : nat := length (filter raises ops).

Definition accepted (r : StageRun) : nat := length (filter (eq OAccepted) (sr_outcomes r)).
Definition handed_on (r : StageRun) : list CompletedFecSet := sr_drained r ++ sn_pending_completed (sr_stage r).
Definition unfinished (o : ShredInsertOutcome) : Prop := o ∈ [OAccepted; ODuplicate; OTooOld; OInvalidSignature].

Record stall_inv (ops : list StageOp) (r : StageRun) : Prop := {
  si_state : waiting (sr_stage r) ∧ (accepted r <= raised ops)%nat ∨ stalled (sr_stage r) ∧ (accepted r <= S (raised ops))%nat;
  si_outcomes : Forall unfinished (sr_outcomes r);
  si_lone : Forall lone (handed_on r);
  si_flushed : FlushCompleteSlots ∈ ops ∨ handed_on r = [];
}.

Lemma raised_snoc ops op : raised (ops ++ [op]) = (raised ops + if decide (raises op) then 1 else 0)%nat.
Proof. unfold raised. rewrite filter_app, length_app. f_equal.
  destruct (decide (raises op)); [by rewrite filter_cons_True|by rewrite filter_cons_False]. Qed.
Lemma accepted_snoc r s o drained :
  accepted (mkStageRun s (sr_outcomes r ++ [o]) drained)
  = (accepted r + if decide (OAccepted = o) then 1 else 0)%nat.
Proof. unfold accepted. cbn. rewrite filter_app, length_app. f_equal.
  destruct (decide (OAccepted = o)); [by rewrite filter_cons_True|by rewrite filter_cons_False]. Qed.

(** A step that leaves the outcomes and what was handed on. *)
Lemma quiet_step ops op s outcomes drained s' drained' :
  ¬ raises op → stall_inv ops (mkStageRun s outcomes drained) →
  (waiting s → waiting s') → (stalled s → stalled s') →
  drained' ++ sn_pending_completed s' = drained ++ sn_pending_completed s →
  stall_inv (ops ++ [op]) (mkStageRun s' outcomes drained').
Proof.
  intros Hop [Hst Ho Hl Hf] Hw Hs Eh. unfold handed_on, accepted in *. cbn in *.
  split; unfold handed_on, accepted; cbn; rewrite ?raised_snoc, ?decide_False, ?Nat.add_0_r, ?Eh, ?elem_of_app by done; naive_solver.
Qed.

Lemma insert_step ops net r : of_set net → stall_inv ops r →
  ∃ r', stage_step r (InsertShred net) = Done r' ∧ stall_inv (ops ++ [InsertShred net]) r'.
Proof.
  intros Hnet [Hst Ho Hl Hf]. cbn [stage_step].
  assert (Hstep : ∃ o s', ShredNetworkStage_insert_shred (sr_stage r) net = Done (o, s')
    ∧ sn_pending_completed s' = sn_pending_completed (sr_stage r) ∧ unfinished o
    ∧ (waiting s' ∧ (accepted (mkStageRun s' (sr_outcomes r ++ [o]) (sr_drained r)) <= raised ops)%nat
       ∨ stalled s' ∧ (accepted (mkStageRun s' (sr_outcomes r ++ [o]) (sr_drained r)) <= S (raised ops))%nat)).
  { unfold unfinished. destruct Hst as [[Hw Ha]|[Hs Ha]].
    - destruct (waiting_insert _ _ Hnet Hw) as (o & s' & E & Ep & Hcase). exists o, s'. split; [done|]. split; [done|].
      rewrite accepted_snoc. destruct Hcase as [[Hw' Hin]|[Hs' Hin]]; (split; [set_solver|]).
      + left. split; [done|]. rewrite decide_False by set_solver. lia.
      + right. split; [done|]. case_decide; lia.
    - destruct (stalled_insert _ _ Hnet Hs) as (o & s' & E & Hs' & Hin & Ep). exists o, s'. split; [done|]. split; [done|].
      split; [set_solver|]. right. split; [done|]. rewrite accepted_snoc, decide_False by set_solver. lia. }
  destruct Hstep as (o & s' & -> & Ep & Hun & Hcase). rewrite Done_bind. eexists. split; [done|].
  split; unfold handed_on in *; cbn [fst snd sr_stage sr_outcomes sr_drained].
  - by rewrite raised_snoc, decide_False, Nat.add_0_r by auto.
  - apply Forall_app. split; [done|by apply Forall_singleton].
  - by rewrite Ep.
  - rewrite Ep, elem_of_app. naive_solver.
Qed.

Lemma flush_step ops r : stall_inv ops r →
  ∃ r', stage_step r FlushCompleteSlots = Done r' ∧ stall_inv (ops ++ [FlushCompleteSlots]) r'.
Proof.
  intros [Hst Ho Hl Hf]. cbn [stage_step].
  assert (Hstep : ∃ s', ShredNetworkStage_flush_complete_slots (sr_stage r) = Done s' ∧ hands_on (sr_stage r) s'
    ∧ (waiting (sr_stage r) → waiting s') ∧ (stalled (sr_stage r) → stalled s')).
  { destruct Hst as [[Hw _]|[Hs _]].
    - exists (sr_stage r). split; [by apply flush_waiting|]. split; [exists []; by rewrite app_nil_r|done].
    - destruct (flush_stalled (slot ← iter_order (dom (sn_slots (sr_stage r)));
        match sn_slots (sr_stage r) !! slot with
        | Some state => if sl_last_shred_seen state then mkFecSetKey slot <$> iter_order (sl_fec_set_indices state) else []
        | None => [] end) _ Hs) as (s' & E & Hs' & Hh).
      exists s'. split; [exact E|]. split; [done|]. split; [|done]. intros (Es & _). destruct Hs as ((state & Es' & _) & _).
      rewrite Es in Es'. symmetry in Es'. by apply map_non_empty_singleton in Es'. }
  destruct Hstep as (s' & -> & (l & El & Hll) & Hw & Hs). rewrite Done_bind. eexists. split; [done|].
  split; unfold handed_on, accepted in *; cbn [sr_stage sr_outcomes sr_drained].
  - rewrite raised_snoc, decide_False, Nat.add_0_r by auto. naive_solver.
  - done.
  - rewrite El, (assoc_L (++)). by apply Forall_app.
  - left. apply elem_of_app. right. left.
Qed.

Lemma min_slot_stage_step ops m r : stall_inv ops r →
  ∃ r', stage_step r (SetMinSlot m) = Done r' ∧ stall_inv (ops ++ [SetMinSlot m]) r'.
Proof.
  intros [Hst Ho Hl Hf]. cbn [stage_step].
  destruct (min_slot_step (sr_stage r) m) as (s' & -> & Ep & Hcase); [naive_solver|]. rewrite Done_bind. eexists. split; [done|].
  split; unfold handed_on, accepted in *; cbn [sr_stage sr_outcomes sr_drained]; rewrite ?Ep, ?elem_of_app; [|naive_solver..].
  rewrite raised_snoc. cbn [raises]. destruct Hcase as [[Hw' Hw]|[Hs Hs']].
  - left. split; [done|]. destruct Hst as [[_ Ha]|[((state & Es & _) & _) Ha]]; [lia|]. destruct Hw as [(Es' & _)|Hm].
    + rewrite Es in Es'. by apply map_non_empty_singleton in Es'.
    + rewrite decide_True by done. lia.
  - right. split; [done|]. destruct Hst as [[_ Ha]|[_ Ha]]; lia.
Qed.

Lemma stall_step ops op r : op_of_set op → stall_inv ops r →
  ∃ r', stage_step r op = Done r' ∧ stall_inv (ops ++ [op]) r'.
Proof.
  intros Hop Hr. destruct op as [net| |m| | |].
  - by apply insert_step.
  - by apply flush_step.
  - by apply min_slot_stage_step.
  - eexists. split; [done|]. destruct r. eapply quiet_step; [auto|exact Hr|done|done|]. cbn. by rewrite app_nil_r.
  - eexists. split; [done|]. destruct r. by eapply quiet_step; [auto|exact Hr|..].
  - eexists. split; [done|]. destruct r. eapply quiet_step; [auto|exact Hr|..]; [| |done].
    + intros (? & ? & [] & ?). by split_and!.
    + intros (? & ? & [] & ?). by split_and!.
Qed.

Lemma stall_run ops : ∀ before r, Forall op_of_set ops → stall_inv before r →
  ∃ r', for_each stage_step r ops = Done r' ∧ stall_inv (before ++ ops) r'.
Proof.
  induction ops as [|op ops IH]; intros before r Hops Hr; cbn [for_each].
  { exists r. by rewrite app_nil_r. }
  apply Forall_cons in Hops as [Hop Hops]. destruct (stall_step before op r Hop Hr) as (r1 & -> & Hr1). rewrite Done_bind.
  destruct (IH _ _ Hops Hr1) as (r' & -> & Hr'). exists r'. by rewrite <- (assoc_L (++)) in Hr'.
Qed.
End stall.

(** C21. Shreds that share a signature stall.  The shreds of a Merkle FEC set all carry the
    leader's signature of the root.  A stage that receives the shreds of such a set, of two
    data shreds or more, in any number and order and from any source, with flushes, drains
    and changes of the minimum slot in between, never panics, and no shred completes the set or
    makes it recoverable: at most one shred is admitted, and at most one more for each time
    that the minimum slot was raised above the slot; the others count as duplicates unless
    they are too old or do not verify.  Nothing is handed on before the first flush,
    and a flush, which hands on what it holds of a slot once a shred with the last-in-slot
    flag was admitted, hands on a set with a single data shred and without recovery. *)
Theorem merkle_fec_set_stalls `{Sha256, Ed25519, ReedSolomon, !IterOrder Z, !IterOrder FecSetKey} config lookup slot signature ops :
  Forall (op_of_set slot signature) ops →
  ∃ r, stage_run config lookup ops = Done r
    ∧ Forall unfinished (sr_outcomes r) ∧ (accepted r <= 1 + raised slot ops)%nat
    ∧ Forall (lone slot) (handed_on r) ∧ (FlushCompleteSlots ∉ ops → handed_on r = []).
Proof.
  intros Hall. destruct (stall_run slot signature ops [] (stage_start config lookup) Hall) as (r & E & [Hst Ho Hl Hf]).
  { split; [left|constructor|constructor|by right]. split; [|cbn; lia]. split_and!; [done|done|by apply (new_ok 32 512 4096); lia|].
    split; vm_compute; (reflexivity || lia). }
  exists r. split; [exact E|]. split; [done|]. split; [destruct Hst as [[_ ?]|[_ ?]]; cbn [app] in *; lia|]. split; [done|]. by destruct Hf.
Qed.

(** ** Recovery *)

Lemma omap_lookup_seq {A} (l : list A) : omap (l !!.) (seq 0 (length l)) = l.
Proof.
  induction l as [|x l IH] using rev_ind; [done|]. rewrite length_app. cbn [length]. rewrite seq_app, omap_app. cbn.
  rewrite lookup_app_r, Nat.sub_diag by lia. cbn. f_equal. transitivity (omap (l !!.) (seq 0 (length l))); [|done].
  apply list_omap_ext, Forall2_same_length_lookup.
  split; [done|]. intros i a b Ha Hb. rewrite Ha in Hb. injection Hb as <-. apply lookup_seq in Ha as [-> Hlt]. by rewrite lookup_app_l.
Qed.
Lemma sorted_of_seq n : ∀ k, Sorted Z.le (Z.of_nat <$> seq k n).
Proof. induction n as [|n IH]; intros k; cbn; constructor; [apply IH|]. destruct n; cbn; constructor. lia. Qed.
Lemma omap_of_fmap {A B C} (f : B → option C) (g : A → B) (l : list A) : omap f (g <$> l) = omap (f ∘ g) l.
Proof. induction l as [|x l IH]; [done|]. cbn. by rewrite IH. Qed.

(** A map whose keys are an initial segment. *)
Definition lists_map {A} (l : list A) (m : gmap Z A) : Prop :=
  ∀ z, m !! z = if decide (0 <= z) then l !! Z.to_nat z else None.

Lemma sorted_values_range m l : lists_map l m → sorted_values m = l.
Proof.
  intros Hm. assert (Es : merge_sort Z.le (elements (dom m)) = Z.of_nat <$> seq 0 (length l)).
  { apply (Sorted_unique Z.le); [apply Sorted_merge_sort; apply _|apply sorted_of_seq|].
    rewrite merge_sort_Permutation. apply NoDup_Permutation; [apply NoDup_elements|apply NoDup_fmap_2; [apply _|apply NoDup_seq]|].
    intros z. rewrite elem_of_elements, elem_of_dom, Hm, list_elem_of_fmap. split.
    - case_decide; [|by intros []]. intros Hl%lookup_lt_is_Some. exists (Z.to_nat z). split; [lia|]. apply elem_of_seq. lia.
    - intros (i & -> & Hi%elem_of_seq). rewrite decide_True by lia. apply lookup_lt_is_Some. lia. }
  unfold sorted_values. rewrite Es, omap_of_fmap. rewrite <- (omap_lookup_seq l) at 2. apply list_omap_ext, Forall2_same_length_lookup.
  split; [done|]. intros i a b Ha Hb. rewrite Ha in Hb. injection Hb as <-. cbn. rewrite Hm, decide_True by lia. by rewrite Nat2Z.id.
Qed.

(** What is put back: the recovered shreds that are missing. *)
Lemma put_back_lookup key ref l : ∀ off m z,
  foldl (put_back key ref) m (imap (λ i x, ((off + i)%nat, x)) l) !! z
  = match m !! z with
    | Some s => Some s
    | None => if decide (Z.of_nat off <= z) then
                payload ← mjoin (l !! Z.to_nat (z - Z.of_nat off));
                Some (recovered_shred key ref (Z.to_nat z) payload)
              else None
    end.
Proof.
  induction l as [|x l IH]; intros off m z.
  - cbn. destruct (m !! z); [done|]. by case_decide.
  - rewrite imap_cons. cbn [foldl].
    rewrite (imap_ext _ (λ i x, ((S off + i)%nat, x))) by (intros; cbn; f_equal; lia). rewrite IH. unfold put_back. cbn [fst snd].
    rewrite Nat.add_0_r.
    assert (Hz : (z = Z.of_nat off ∧ Z.to_nat (z - Z.of_nat off) = 0%nat) ∨ (z ≠ Z.of_nat off ∧ (Z.of_nat off <= z → Z.to_nat (z - Z.of_nat off) = S (Z.to_nat (z - Z.of_nat (S off)))))) by lia.
    destruct Hz as [[-> Hz]|[Hne Hz]].
    + rewrite (decide_False (P := Z.of_nat (S off) <= Z.of_nat off)) by lia. rewrite decide_True, Hz by lia. cbn [lookup list_lookup].
      destruct x as [payload|]; cbn; [|by destruct (m !! Z.of_nat off)].
      destruct (m !! Z.of_nat off) eqn:E; [by rewrite E|]. rewrite lookup_insert_eq. by rewrite Nat2Z.id.
    + assert (Em : match x with None => m | Some payload => match m !! Z.of_nat off with Some _ => m
        | None => <[Z.of_nat off := recovered_shred key ref off payload]> m end end !! z = m !! z).
      { destruct x; [|done]. destruct (m !! Z.of_nat off); [done|]. by rewrite lookup_insert_ne. }
      rewrite Em. destruct (m !! z); [done|]. destruct (decide (Z.of_nat (S off) <= z)).
      * rewrite decide_True by lia. by rewrite Hz by lia.
      * by rewrite decide_False by lia.
Qed.

(** The shreds of a map carry the payloads of [l], those that it has. *)
Definition carries (m : gmap Z Shred) (l : list (list Z)) : Prop :=
  ∀ z s, m !! z = Some s → 0 <= z ∧ l !! Z.to_nat z = Some (shred_payload s).

Lemma resize_full n l : length l = n → resize n l = l.
Proof. intros <-. unfold resize. by rewrite take_ge, Nat.sub_diag, app_nil_r. Qed.

Lemma shards_erased m l shard_size : carries m l → Forall (λ x, length x = shard_size) l →
  Forall2 erased l (shards m shard_size (length l)).
Proof.
  intros Hm Hl. unfold shards. apply Forall2_same_length_lookup. split; [by rewrite length_fmap, length_seq|].
  intros i x y Hx Hy. rewrite list_lookup_fmap in Hy. apply fmap_Some in Hy as (j & Hj & ->). apply lookup_seq in Hj as [-> _].
  cbn. destruct (m !! Z.of_nat i) as [s|] eqn:E; [right|by left]. destruct (Hm _ _ E) as [_ Hs]. rewrite Nat2Z.id, Hx in Hs.
  injection Hs as Hs. cbn. f_equal. rewrite <- Hs. apply resize_full. by eapply Forall_lookup_1 in Hl.
Qed.

Lemma shards_present m l shard_size : carries m l → present (shards m shard_size (length l)) = size m.
Proof.
  intros Hm. set (held := filter (λ i, is_Some (m !! Z.of_nat i)) (seq 0 (length l))).
  assert (Ed : dom m = list_to_set (Z.of_nat <$> held) :> gset Z).
  { apply set_eq. intros z. rewrite elem_of_dom, elem_of_list_to_set, list_elem_of_fmap. unfold held. split.
    - intros [s Hs]. destruct (Hm z s Hs) as [Hz Hlt%lookup_lt_Some]. exists (Z.to_nat z). split; [lia|].
      apply list_elem_of_filter. split; [rewrite Z2Nat.id by lia; by eexists|]. apply elem_of_seq. lia.
    - by intros (i & -> & [? _]%list_elem_of_filter). }
  rewrite <- (size_dom (D := gset Z)), Ed, size_list_to_set by (apply NoDup_fmap_2; [apply _|]; apply NoDup_filter, NoDup_seq).
  rewrite length_fmap. unfold present, shards, held. generalize (seq 0 (length l)). intros js. induction js as [|i js IH]; [done|].
  cbn [fmap list_fmap]. rewrite !filter_cons. destruct (m !! Z.of_nat i); cbn.
  - rewrite !decide_True by (by eexists). cbn [length]. by rewrite IH.
  - rewrite !decide_False by apply is_Some_None. done.
Qed.

Lemma first_value_Some `{!IterOrder Z} m : m ≠ ∅ → ∃ z s, first_value m = Some s ∧ m !! z = Some s.
Proof.
  intros Hm. unfold first_value. destruct (iter_order (dom m)) as [|k l] eqn:E.
  - destruct Hm. apply (dom_empty_iff_L (D := gset Z)). apply elem_of_equiv_empty_L. intros x Hx.
    apply elem_of_iter_order in Hx. rewrite E in Hx. by apply elem_of_nil in Hx.
  - assert (Hk : k ∈ dom m) by (apply elem_of_iter_order; rewrite E; left). apply elem_of_dom in Hk as [s Hs].
    exists k, s. by rewrite <- Hs.
Qed.
Lemma first_value_None `{!IterOrder Z} : first_value ∅ = None.
Proof. unfold first_value. destruct (head _); [cbn|done]. apply lookup_empty. Qed.

Lemma carries_size m l : carries m l → (size m <= length l)%nat.
Proof.
  intros Hm. rewrite <- (shards_present m l 0 Hm). unfold present. etransitivity; [apply length_filter|].
  unfold shards. by rewrite length_fmap, length_seq.
Qed.

Section recovery.
Context `{ReedSolomonLaws, !IterOrder Z}.
Context (b : FecBuffer) (payloads : list (list Z)) (shard_size : nat).
Abbreviation n := (Z.to_nat (fb_num_data b)).
Abbreviation k := (Z.to_nat (fb_num_coding b)).
Context (f : FecReconstructor) (Hnew : FecReconstructor_new n k = Ok f).
Context (Hlen : length payloads = n) (Hpos : (0 < shard_size)%nat) (Hsz : Forall (λ x, length x = shard_size) payloads).
Context (Hdata : carries (fb_data_shreds b) payloads) (Hcoding : carries (fb_coding_shreds b) (rs_encode n k payloads)).
Context (Hrec : FecBuffer_is_recoverable b = true).

Lemma codec_ok : (1 <= n <= 67)%nat ∧ (k <= 67)%nat ∧ rs_new n k = true.
Proof.
  clear -Hnew. unfold FecReconstructor_new in Hnew. destruct (_ || _) eqn:E1; [done|]. destruct ((_ =? 0)%nat || (MAX_FEC_CODING_SHREDS <? _)%nat) eqn:E2; [done|].
  destruct (rs_new n k); [|done]. apply orb_false_iff in E1 as [?%Nat.eqb_neq ?%Nat.ltb_ge]. apply orb_false_iff in E2 as [_ ?%Nat.ltb_ge].
  unfold MAX_FEC_DATA_SHREDS, MAX_FEC_CODING_SHREDS in *. split_and!; lia || done.
Qed.

Lemma coding_length : length (rs_encode n k payloads) = k.
Proof. destruct codec_ok as (_ & _ & ?). by apply length_rs_encode. Qed.

(** The counts do not wrap. *)
Lemma enough : (n <= size (fb_data_shreds b) + size (fb_coding_shreds b))%nat.
Proof.
  destruct codec_ok as (Hn & Hk & _). pose proof (carries_size _ _ Hdata) as H1. pose proof (carries_size _ _ Hcoding) as H2.
  rewrite coding_length in H2. rewrite Hlen in H1. unfold FecBuffer_is_recoverable in Hrec.
  apply andb_true_iff in Hrec as [Hr _]. apply andb_true_iff in Hr as [Hr _]. apply andb_true_iff in Hr as [_ Hr%Z.leb_le].
  unfold FecBuffer_total_received, map_len, u32_add in Hr. rewrite (wrap32_small (Z.of_nat (size (fb_data_shreds b)))) in Hr by (unfold is_u32, u32_max; lia).
  rewrite (wrap32_small (Z.of_nat (size (fb_coding_shreds b)))) in Hr by (unfold is_u32, u32_max; lia).
  rewrite wrap32_small in Hr by (unfold is_u32, u32_max; lia). lia.
Qed.

(** The reference shred has the common size. *)
Lemma reference_size : ∃ ref, reference_shred b = Some ref ∧ length (shred_payload ref) = shard_size.
Proof.
  pose proof enough as He. destruct codec_ok as (Hn & _ & Hok). unfold reference_shred.
  destruct (decide (fb_data_shreds b = ∅)) as [E|E].
  - rewrite E, first_value_None. rewrite E, map_size_empty in He. destruct (decide (fb_coding_shreds b = ∅)) as [E'|E'].
    + rewrite E', map_size_empty in He. lia.
    + destruct (first_value_Some _ E') as (z & s & -> & Hs). exists s. split; [done|]. destruct (Hcoding _ _ Hs) as [_ Hp].
      exact (Forall_lookup_1 _ _ _ _ (rs_encode_size _ _ _ _ Hok Hlen Hsz) Hp).
  - destruct (first_value_Some _ E) as (z & s & -> & Hs). exists s. split; [done|]. destruct (Hdata _ _ Hs) as [_ Hp].
    exact (Forall_lookup_1 _ _ _ _ Hsz Hp).
Qed.

Lemma reconstruction : ∃ r,
  FecReconstructor_reconstruct f (shards (fb_data_shreds b) shard_size n) (shards (fb_coding_shreds b) shard_size k) = Ok r
  ∧ zip_with (∪) (shards (fb_data_shreds b) shard_size n) (rc_data_shreds r) = Some <$> payloads
  ∧ length (rc_data_shreds r) = n.
Proof.
  destruct codec_ok as (Hn & Hk & Hok). pose proof (rs_encode_size _ _ _ _ Hok Hlen Hsz) as Hsc.
  pose proof (shards_erased _ _ _ Hdata Hsz) as Hd. pose proof (shards_erased _ _ _ Hcoding Hsc) as Hc.
  pose proof (shards_present _ _ shard_size Hdata) as Pd. pose proof (shards_present _ _ shard_size Hcoding) as Pc.
  rewrite coding_length in Hc, Pc. rewrite Hlen in Hd, Pd.
  destruct (reconstruct_restores n k f payloads shard_size _ _ Hnew Hlen Hpos Hsz Hd Hc) as (r & E & Hz & Hrl & _);
    [rewrite Pd, Pc; apply enough|]. by exists r.
Qed.

(** The data shreds after the recovered ones are put back. *)
Lemma restored_map key ref r :
  zip_with (∪) (shards (fb_data_shreds b) shard_size n) (rc_data_shreds r) = Some <$> payloads → length (rc_data_shreds r) = n →
  ∃ l, lists_map l (foldl (put_back key ref) (fb_data_shreds b) (imap pair (rc_data_shreds r)))
    ∧ shred_payload <$> l = payloads
    ∧ ∀ i s, l !! i = Some s → fb_data_shreds b !! Z.of_nat i = Some s ∨ s = recovered_shred key ref i (shred_payload s).
Proof.
  intros Hz Hrl. set (l := imap (λ i payload, default (recovered_shred key ref i payload) (fb_data_shreds b !! Z.of_nat i)) payloads).
  exists l. split_and!.
  - intros z. etransitivity; [apply (put_back_lookup key ref (rc_data_shreds r) 0)|]. change (Z.of_nat 0) with 0.
    rewrite Z.sub_0_r. case_decide as Hz0; cycle 1.
    { destruct (fb_data_shreds b !! z) eqn:E; [|done]. by destruct (Hdata _ _ E). }
    unfold l. rewrite list_lookup_imap. cbn beta. rewrite Z2Nat.id by lia. destruct (fb_data_shreds b !! z) as [s|] eqn:E.
    + destruct (Hdata _ _ E) as [_ ->]. done.
    + apply (f_equal (.!! Z.to_nat z)) in Hz. rewrite lookup_zip_with, list_lookup_fmap in Hz. unfold shards in Hz.
      rewrite list_lookup_fmap in Hz. destruct (payloads !! Z.to_nat z) as [x|] eqn:Ex.
      * apply lookup_lt_Some in Ex as Hlt. rewrite lookup_seq_lt in Hz by lia. cbn in Hz. rewrite Z2Nat.id, E in Hz by lia.
        destruct (rc_data_shreds r !! Z.to_nat z) as [y|]; [|done]. cbn in Hz. injection Hz as Hz. rewrite (left_id_L None (∪)) in Hz. by rewrite Hz.
      * apply lookup_ge_None in Ex. by rewrite lookup_ge_None_2 by lia.
  - apply list_eq. intros i. unfold l. rewrite list_lookup_fmap, list_lookup_imap. destruct (payloads !! i) as [x|] eqn:Ex; [|done].
    cbn. destruct (fb_data_shreds b !! Z.of_nat i) as [s|] eqn:E; [|done]. destruct (Hdata _ _ E) as [_ Hs].
    rewrite Nat2Z.id, Ex in Hs. by injection Hs as ->.
  - intros i s. unfold l. rewrite list_lookup_imap. intros (x & Ex & ->)%fmap_Some. destruct (fb_data_shreds b !! Z.of_nat i); cbn; [by left|by right].
Qed.
End recovery.

Lemma find_update key b b' sets : find_set key sets = Some b → find_set key (update_set key b' sets) = Some b'.
Proof.
  unfold find_set, update_set. induction sets as [|[k c] sets IH]; [done|]. cbn [fmap list_fmap fst]. destruct (decide (k = key)) as [->|Hne].
  - intros _. by rewrite filter_cons_True.
  - rewrite !filter_cons_False by done. apply IH.
Qed.
Lemma find_filtered key sets : find_set key (filter (λ x, x.1 ≠ key) sets) = None.
Proof.
  unfold find_set. induction sets as [|x sets IH]; [done|]. rewrite (filter_cons (λ x, x.1 ≠ key)). case_decide; [|done].
  by rewrite filter_cons_False by auto.
Qed.

(** A set is taken out of the pool with its data shreds in order. *)
Lemma extract_ok p key b w : pool_ok p → FecResolverPool_get_buffer p key = Done (Some b) →
  ∃ p', extract_completed_from_pool p key w
        = Done (mkCompletedFecSet (fk_slot key) (fk_fec_set_index key) (sorted_values (fb_data_shreds b)) w, p')
    ∧ FecResolverPool_get_buffer p' key = Done None.
Proof.
  intros Hok Hget. unfold extract_completed_from_pool. rewrite Hget, Done_bind.
  pose proof (mark_completed_ok p key Hok) as Hm. destruct (FecResolverPool_mark_completed p key) as [[x p']|]; [|done].
  destruct Hm as [Hok' Hm]. rewrite Done_bind. exists p'. split; [done|]. rewrite (get_buffer_ok p' key Hok').
  rewrite (get_buffer_ok p key Hok) in Hget. assert (Hf : find_set key (rv_sets (view p)) = Some b) by congruence.
  assert (Hv : resolver_complete (view p) key = (Flag x, view p')) by (by apply (inj Done)). apply (f_equal snd) in Hv. cbn [snd] in Hv.
  rewrite <- Hv. unfold resolver_complete. rewrite Hf. cbn [snd]. cbn [rv_sets]. by rewrite find_filtered.
Qed.

(** C20. Recovery restores the set.  In a pool that operations have led to, take a set that is
    reported as recoverable and whose shreds carry the payloads, all of one size, of an
    encoding.  Given the documented behaviour of the codec, the recovery returns the completed
    set: its payloads are the encoded data in order; the shreds that had arrived are kept,
    the others are rebuilt with their index; and the set is no longer in progress. *)
Theorem recovery_restores_payloads `{ReedSolomonLaws, !IterOrder Z} p key b payloads shard_size f :
  let n := Z.to_nat (fb_num_data b) in
  let k := Z.to_nat (fb_num_coding b) in
  pool_ok p → FecResolverPool_get_buffer p key = Done (Some b) → FecBuffer_is_recoverable b = true →
  FecReconstructor_new n k = Ok f → length payloads = n → (0 < shard_size)%nat → Forall (λ x, length x = shard_size) payloads →
  carries (fb_data_shreds b) payloads → carries (fb_coding_shreds b) (rs_encode n k payloads) →
  ∃ c p' ref, attempt_recovery_from_pool p key = Done (Some c, p')
    ∧ shred_payload <$> cf_data_shreds c = payloads
    ∧ (∀ i s, cf_data_shreds c !! i = Some s → fb_data_shreds b !! Z.of_nat i = Some s ∨ s = recovered_shred key ref i (shred_payload s))
    ∧ FecResolverPool_get_buffer p' key = Done None.
Proof.
  cbn zeta. intros Hok Hget Hrec Hnew Hlen Hpos Hsz Hd Hc.
  destruct (reference_size b payloads shard_size f Hnew Hlen Hpos Hsz Hd Hc Hrec) as (ref & Er & Hrs).
  destruct (reconstruction b payloads shard_size f Hnew Hlen Hpos Hsz Hd Hc Hrec) as (r & Erec & Hz & Hrl).
  destruct (restored_map b payloads shard_size Hlen Hpos Hd key ref r Hz Hrl) as (l & Hl & Hpl & Hfrom).
  unfold attempt_recovery_from_pool. rewrite Hget, Done_bind, Er, Hrs, Hnew, Erec.
  set (put := λ m, foldl _ m _). pose proof (write_data_ok p key put Hok) as Hw.
  rewrite (get_buffer_ok p key Hok) in Hget. assert (Hf : find_set key (rv_sets (view p)) = Some b) by congruence. rewrite Hf in Hw.
  destruct (FecResolverPool_write_data p key put) as [p1|]; [|done]. destruct Hw as [Hok1 Hv]. rewrite Done_bind.
  destruct (extract_ok p1 key (set_data (put (fb_data_shreds b)) b) true Hok1) as (p2 & -> & Hg2).
  { rewrite (get_buffer_ok p1 key Hok1). apply (inj Done), (f_equal snd) in Hv. cbn [snd] in Hv. rewrite <- Hv. cbn [with_sets rv_sets]. by rewrite (find_update key b). }
  rewrite Done_bind. eexists _, p2, ref. split; [done|]. cbn [fst cf_data_shreds fb_data_shreds set_data].
  rewrite (sorted_values_range (put (fb_data_shreds b)) l Hl). done.
Qed.

(** ** Shreds that crossed a link *)

(** The link codec drops the network bytes: whatever the bytes and the keys, a Merkle shred
    with a signature that is not zero passes the check once it has crossed a link, with its
    signature unchecked. *)
Lemma link_bypasses_verification `{Sha256, Ed25519} sh proof buf s source :
  shred_wf sh → is_zero_signature (ch_signature (shred_common sh)) = false → proof_of_variant (shred_variant sh) = Some proof →
  (Shred_max_encoded_size <= length buf)%nat →
  ∃ buf' n sh', Shred_encode sh buf = Done (buf', n) ∧ Shred_decode (take n buf') = Done sh'
    ∧ passes_verification s (mkNetworkShred sh' source) = Done true.
Proof.
  intros Hwf Hz Hp Hl. destruct (shred_codec_roundtrip sh buf Hwf Hl) as (buf' & n & E & _ & _ & Ed).
  exists buf', n, (over_link sh). split; [done|]. split; [done|]. unfold passes_verification. cbn [ns_source ns_shred over_link].
  repeat case_match; try done. unfold verify_shred. cbn [shred_common shred_variant shred_raw over_link].
  rewrite Hz. by destruct (shred_variant sh).
Qed.

(** ** Samples *)

(** Shreds of the set [n] of slot 1, without network bytes: its only data shred, and a coding
    shred.  Their signatures are theirs alone. *)
Definition bare_data (n : Z) : NetworkShred :=
  mkNetworkShred (mkShred (mkShredCommonHeader (1 :: to_le_bytes 63 n) 0x80 1 n 1 n) (MerkleData (mkDataShredHeader 1 0 88) []) [] None) Turbine.
Definition bare_coding (n : Z) : NetworkShred :=
  mkNetworkShred (mkShred (mkShredCommonHeader (2 :: to_le_bytes 63 n) 0x40 1 n 1 n) (MerkleCoding (mkCodingShredHeader 1 1 0) []) [] None) Turbine.

Definition toy_run (ops : list StageOp) : Outcome StageRun :=
  @stage_run toy_sha256 toy_ed25519 copies (elements_order Z) (elements_order FecSetKey) ShredNetworkConfig_default
    (λ _, Some toy_key) ops.

Lemma completed_sets_are_checked_witness :
  ∃ r, toy_run [InsertShred (bare_data 5); InsertShred (bare_coding 5); DrainCompleted] = Done r ∧
  ∃ c s, c ∈ sr_drained r ++ sn_pending_completed (sr_stage r) ∧ s ∈ cf_data_shreds c ∧
    @originates toy_sha256 toy_ed25519 copies (elements_order Z) (λ _, Some toy_key) [InsertShred (bare_data 5); InsertShred (bare_coding 5); DrainCompleted] s.
Proof.
  set (ops := [_; _; _]).
  assert (E : (λ r, sr_drained r) <$> toy_run ops = Done [mkCompletedFecSet 1 5 [ns_shred (bare_data 5)] false]) by (vm_compute; reflexivity).
  destruct (toy_run ops) as [r|] eqn:Er; [|discriminate E]. injection E as E. exists r. split; [reflexivity|].
  exists (mkCompletedFecSet 1 5 [ns_shred (bare_data 5)] false), (ns_shred (bare_data 5)).
  assert (Hc : mkCompletedFecSet 1 5 [ns_shred (bare_data 5)] false ∈ sr_drained r ++ sn_pending_completed (sr_stage r))
    by (apply elem_of_app; left; rewrite E; left).
  split; [exact Hc|]. split; [left|].
  apply (@completed_sets_are_checked toy_sha256 toy_ed25519 copies (elements_order Z) (elements_order FecSetKey)
    ShredNetworkConfig_default (λ _, Some toy_key) ops r Er _ _ Hc). left.
Defined.

(** The two shreds of the sample set of [ShredVerifier], received from the network. *)
Definition toy_received (i : nat) : NetworkShred :=
  let nodes := match r ← @commit_leaves toy_sha256 SHRED_CONFIG (@leaf_of_body toy_sha256 <$> toy_bodies);
                     @BmtreeCommit_get_proof toy_sha256 r.1 i with Done (Some p) => p | _ => [] end in
  let data := assemble (toy_key ++ toy_root) (toy_body (Z.of_nat i)) nodes [] in
  mkNetworkShred (match ShredParser_parse data with Done (Ok s) => s | _ => sample_shred 0 [] end) Turbine.

(** The set arrives, the first shred comes twice, and the slot is flushed.  Its shreds do not
    have the last-in-slot flag. *)
Definition toy_set_ops : list StageOp :=
  [InsertShred (toy_received 0); InsertShred (toy_received 1); InsertShred (toy_received 0); FlushCompleteSlots; DrainCompleted].

Lemma merkle_fec_set_stalls_witness :
  Forall (λ i, @verify_shred toy_sha256 toy_ed25519 (ns_shred (toy_received i)) toy_key = Done Valid) [0; 1]%nat ∧
  ∃ r, toy_run toy_set_ops = Done r ∧ (accepted r <= 1)%nat ∧ Forall (lone 100) (handed_on r).
Proof.
  split; [constructor; [vm_compute; reflexivity|constructor; [vm_compute; reflexivity|constructor]]|].
  destruct (@merkle_fec_set_stalls toy_sha256 toy_ed25519 copies (elements_order Z) (elements_order FecSetKey)
    ShredNetworkConfig_default (λ _, Some toy_key) 100 (toy_key ++ toy_root) toy_set_ops)
    as (r & E & _ & Ha & Hl & _); [|exists r; split; [exact E|]; split; [exact Ha|exact Hl]].
  assert (Ho : ∀ i, (i = 0 ∨ i = 1)%nat → of_set 100 (toy_key ++ toy_root) (toy_received i)).
  { intros i Hi. assert (E : ch_slot (shred_common (ns_shred (toy_received i))) = 100
      ∧ signature_of (ns_shred (toy_received i)) = toy_key ++ toy_root ∧ Shred_coding_header (ns_shred (toy_received i)) = None)
      by (destruct Hi as [-> | ->]; (split; [|split]); vm_compute; reflexivity).
    destruct E as (E1 & E2 & E3). split; [exact E1|]. split; [exact E2|]. intros h Hh. rewrite E3 in Hh. discriminate Hh. }
  constructor; [apply Ho; by left|]. constructor; [apply Ho; by right|]. constructor; [apply Ho; by left|].
  constructor; [exact I|]. constructor; [exact I|]. constructor.
Defined.

(** A set of two data shreds, the second with the last-in-slot flag: the flush hands on the
    set with the shred that came first, although both shreds were received. *)
Definition tail_shred (n : Z) : NetworkShred :=
  mkNetworkShred (mkShred (mkShredCommonHeader (replicate 64 3) 0x80 1 n 1 5)
    (MerkleData (mkDataShredHeader 1 (if n =? 6 then SHRED_LAST_IN_SLOT else 0) 88) []) [] None) Local.
Lemma flush_hands_on_single_shred :
  sr_drained <$> toy_run [InsertShred (tail_shred 6); InsertShred (tail_shred 5); FlushCompleteSlots; DrainCompleted]
  = Done [mkCompletedFecSet 1 5 [ns_shred (tail_shred 6)] false].
Proof. vm_compute. reflexivity. Qed.

(** A pool with one coding shred of a set of one data shred. *)
Definition toy_coding : Shred :=
  mkShred (mkShredCommonHeader (replicate 64 9) 0x40 7 0 1 0) (MerkleCoding (mkCodingShredHeader 1 2 1) []) [4; 5; 6] None.
Definition toy_insert : Outcome (ResolverInsertResult * FecResolverPool) :=
  FecResolverPool_insert_coding_shred (FecResolverPool_new 2 2 4) 7 0 1 1 2 toy_coding.

Lemma recovery_restores_payloads_witness :
  ∃ p c p' , toy_insert = Done (Recoverable, p)
    ∧ @attempt_recovery_from_pool copies (elements_order Z) p (mkFecSetKey 7 0) = Done (Some c, p')
    ∧ shred_payload <$> cf_data_shreds c = [[4; 5; 6]].
Proof.
  pose proof (insert_coding_ok (FecResolverPool_new 2 2 4) 7 0 1 1 2 toy_coding (new_ok 2 2 4 ltac:(lia))) as Ha. fold toy_insert in Ha.
  assert (Eg : (r ← toy_insert; b ← FecResolverPool_get_buffer r.2 (mkFecSetKey 7 0); mret (r.1, b))
    = Done (Recoverable, Some (mkFecBuffer ∅ (<[1 := toy_coding]> ∅) 1 2 true false (replicate 64 9) (Some (mkFecSetKey 7 0)))))
    by (vm_compute; reflexivity).
  destruct toy_insert as [[x p]|]; [|discriminate Eg]. destruct Ha as [Hok _]. rewrite Done_bind in Eg. cbn [fst snd] in Eg.
  apply bind_Done in Eg as (b & Hb & Eb). injection Eb as -> ->.
  destruct (@recovery_restores_payloads copies copies_laws (elements_order Z) p (mkFecSetKey 7 0) _ [[4; 5; 6]] 3
    (mkFecReconstructor 1 2) Hok Hb) as (c & p' & ref & E & Hp & _).
  - vm_compute. reflexivity.
  - reflexivity.
  - reflexivity.
  - lia.
  - constructor; [reflexivity|constructor].
  - intros z s Hs. cbn [fb_data_shreds] in Hs. rewrite lookup_empty in Hs. discriminate Hs.
  - intros z s Hs. cbn [fb_coding_shreds] in Hs. apply lookup_insert_Some in Hs as [[<- <-]|[_ Hs]].
    + split; [lia|reflexivity].
    + rewrite lookup_empty in Hs. discriminate Hs.
  - exists p, c, p'. split; [reflexivity|]. split; [exact E|exact Hp].
Defined.
