(* ===== verification/PackScheduler.v ===== *)
(** * The transaction scheduler

    Model of the pack stage, [src/crates/karstflow-stages/src/pack_stage]: the queue of pending
    transactions ([priority_queue.rs]), the account locks of the microblocks in flight
    ([conflict_detector.rs]), and the scheduler that fills microblocks ([scheduler.rs]).

    A binary heap is the list of its entries; [pop] takes out a greatest one.  Additions wrap,
    as in a release build.  An account is its 32 bytes. *)
From stdpp Require Import base tactics numbers list sorting gmap.
From Stdlib Require Import ZArith Lia.
From S2P Require Import Prelude.
Local Open Scope Z_scope.

(** ** The queue *)

Record PackedTransaction := mkPackedTransaction {
  pt_payload : list Z;
  pt_blockhash : list Z;
  pt_priority_fee : Z;
  pt_compute_units : Z;
  pt_total_cost : Z;
  pt_is_vote : bool;
  pt_expires_at_slot : Z;
  pt_write_accounts : list (list Z);
  pt_read_accounts : list (list Z);
  pt_data_size : Z;
  pt_insertion_order : Z;
}.
#[export] Instance PackedTransaction_eq_dec : EqDecision PackedTransaction.
Proof. solve_decision. Defined.

Definition PackedTransaction_fee_rate (tx : PackedTransaction) : Z := pt_priority_fee tx.
Definition PackedTransaction_block_cost (tx : PackedTransaction) : Z :=
  if 0 <? pt_total_cost tx then pt_total_cost tx else pt_compute_units tx.
Definition set_insertion_order (n : Z) (tx : PackedTransaction) : PackedTransaction :=
  mkPackedTransaction (pt_payload tx) (pt_blockhash tx) (pt_priority_fee tx) (pt_compute_units tx) (pt_total_cost tx)
    (pt_is_vote tx) (pt_expires_at_slot tx) (pt_write_accounts tx) (pt_read_accounts tx) (pt_data_size tx) n.

(** [Ord] of the entries of the heap. *)
Definition PriorityEntry_cmp (x y : PackedTransaction) : comparison :=
  match pt_is_vote x, pt_is_vote y with
  | true, false => Gt
  | false, true => Lt
  | _, _ =>
      match Z.compare (PackedTransaction_fee_rate x) (PackedTransaction_fee_rate y) with
      | Eq => Z.compare (pt_insertion_order y) (pt_insertion_order x)
      | ord => ord
      end
  end.

(** [BinaryHeap::pop]. *)
Fixpoint heap_pop (heap : list PackedTransaction) : option (PackedTransaction * list PackedTransaction) :=
  match heap with
  | [] => None
  | x :: rest =>
      match heap_pop rest with
      | None => Some (x, [])
      | Some (y, others) =>
          match PriorityEntry_cmp x y with Lt => Some (y, x :: others) | _ => Some (x, rest) end
      end
  end.

Record TransactionQueue := mkTransactionQueue {
  tq_heap : list PackedTransaction;
  tq_insertion_counter : Z;
  tq_total_compute_units : Z;
  tq_total_data_bytes : Z;
}.

Definition TransactionQueue_new : TransactionQueue := mkTransactionQueue [] 0 0 0.

Definition TransactionQueue_insert (q : TransactionQueue) (tx : PackedTransaction) : TransactionQueue :=
  let tx := set_insertion_order (tq_insertion_counter q) tx in
  mkTransactionQueue (tx :: tq_heap q) (u64_add (tq_insertion_counter q) 1)
    (u64_add (tq_total_compute_units q) (PackedTransaction_block_cost tx)) (u64_add (tq_total_data_bytes q) (pt_data_size tx)).

(** What [pop] and [drain_expired] do to the totals. *)
Definition forget (tx : PackedTransaction) (heap : list PackedTransaction) (q : TransactionQueue) : TransactionQueue :=
  mkTransactionQueue heap (tq_insertion_counter q)
    (u64_saturating_sub (tq_total_compute_units q) (PackedTransaction_block_cost tx))
    (u64_saturating_sub (tq_total_data_bytes q) (pt_data_size tx)).

Definition TransactionQueue_pop (q : TransactionQueue) : option (PackedTransaction * TransactionQueue) :=
  match heap_pop (tq_heap q) with
  | Some (tx, heap) => Some (tx, forget tx heap q)
  | None => None
  end.

(** The loop of [drain_expired]; the fuel is the length of the heap. *)
Fixpoint drain_loop (fuel : nat) (current_slot : Z) (remaining : list PackedTransaction) (q : TransactionQueue) :
    Outcome (list PackedTransaction * TransactionQueue) :=
  match heap_pop (tq_heap q) with
  | None => mret (remaining, q)
  | Some (tx, heap) =>
      match fuel with
      | O => Panicked
      | S fuel =>
          if current_slot <? pt_expires_at_slot tx
          then drain_loop fuel current_slot (tx :: remaining)
                 (mkTransactionQueue heap (tq_insertion_counter q) (tq_total_compute_units q) (tq_total_data_bytes q))
          else drain_loop fuel current_slot remaining (forget tx heap q)
      end
  end.

Definition TransactionQueue_drain_expired (q : TransactionQueue) (current_slot : Z) : Outcome (Z * TransactionQueue) :=
  r ← drain_loop (length (tq_heap q)) current_slot [] q;
  let '(remaining, q') := r in
  mret (Z.of_nat (length (tq_heap q) - length remaining),
        mkTransactionQueue remaining (tq_insertion_counter q') (tq_total_compute_units q') (tq_total_data_bytes q')).

(** ** The locks *)

Inductive LockKind := Read | Write.
#[export] Instance LockKind_eq_dec : EqDecision LockKind.
Proof. solve_decision. Defined.

Record AccountLock := mkAccountLock {
  al_account : list Z;
  al_kind : LockKind;
}.
#[export] Instance AccountLock_eq_dec : EqDecision AccountLock.
Proof. solve_decision. Defined.

Record ConflictDetector := mkConflictDetector {
  cd_locks : gmap (list Z) (Z * Z);
  cd_microblock_locks : gmap Z (list AccountLock);
  cd_write_cost_per_account : gmap (list Z) Z;
  cd_max_write_cost_per_account : Z;
}.

Definition ConflictDetector_new (max_write_cost_per_account : Z) : ConflictDetector :=
  mkConflictDetector ∅ ∅ ∅ max_write_cost_per_account.

(** A turn of [can_schedule]. *)
Definition lock_is_free (d : ConflictDetector) (lock : AccountLock) : bool :=
  match cd_locks d !! al_account lock with
  | None => true
  | Some (write_count, read_count) =>
      match al_kind lock with
      | Write => negb ((0 <? write_count) || (0 <? read_count))
      | Read => negb (0 <? write_count)
      end
  end.
Definition ConflictDetector_can_schedule (d : ConflictDetector) (locks : list AccountLock) : bool :=
  forallb (lock_is_free d) locks.

Definition write_cost (d : ConflictDetector) (account : list Z) : Z := default 0 (cd_write_cost_per_account d !! account).
Definition ConflictDetector_would_exceed_write_cost (d : ConflictDetector) (write_accounts : list (list Z)) (tx_cost : Z) : bool :=
  existsb (λ account, cd_max_write_cost_per_account d <? u64_saturating_add (write_cost d account) tx_cost) write_accounts.

Definition acquire_lock (locks : gmap (list Z) (Z * Z)) (lock : AccountLock) : gmap (list Z) (Z * Z) :=
  let '(w, r) := default (0, 0) (locks !! al_account lock) in
  <[al_account lock := match al_kind lock with Write => (u32_add w 1, r) | Read => (w, u32_add r 1) end]> locks.
Definition ConflictDetector_acquire (d : ConflictDetector) (microblock_id : Z) (locks : list AccountLock) : ConflictDetector :=
  mkConflictDetector (foldl acquire_lock (cd_locks d) locks) (<[microblock_id := locks]> (cd_microblock_locks d))
    (cd_write_cost_per_account d) (cd_max_write_cost_per_account d).

Definition ConflictDetector_record_write_cost (d : ConflictDetector) (write_accounts : list (list Z)) (cost : Z) : ConflictDetector :=
  mkConflictDetector (cd_locks d) (cd_microblock_locks d)
    (foldl (λ m account, <[account := u64_add (default 0 (m !! account)) cost]> m) (cd_write_cost_per_account d) write_accounts)
    (cd_max_write_cost_per_account d).

Definition release_lock (locks : gmap (list Z) (Z * Z)) (lock : AccountLock) : gmap (list Z) (Z * Z) :=
  match locks !! al_account lock with
  | None => locks
  | Some (w, r) =>
      let '(w, r) := match al_kind lock with
                     | Write => (u64_saturating_sub w 1, r)
                     | Read => (w, u64_saturating_sub r 1)
                     end in
      if (w =? 0) && (r =? 0) then delete (al_account lock) locks else <[al_account lock := (w, r)]> locks
  end.
Definition ConflictDetector_release (d : ConflictDetector) (microblock_id : Z) : ConflictDetector :=
  match cd_microblock_locks d !! microblock_id with
  | None => d
  | Some locks =>
      mkConflictDetector (foldl release_lock (cd_locks d) locks) (delete microblock_id (cd_microblock_locks d))
        (cd_write_cost_per_account d) (cd_max_write_cost_per_account d)
  end.
Definition ConflictDetector_reset (d : ConflictDetector) : ConflictDetector :=
  mkConflictDetector ∅ ∅ ∅ (cd_max_write_cost_per_account d).

(** ** The scheduler *)

Record PackLimits := mkPackLimits {
  pl_max_cost_per_block : Z;
  pl_max_vote_cost_per_block : Z;
  pl_max_write_cost_per_account : Z;
  pl_max_data_bytes_per_block : Z;
}.
Definition PackLimits_default : PackLimits := mkPackLimits 50000000 36000000 12000000 27539200.

(** [vote_fraction], which nothing reads, is left out. *)
Record PackConfig := mkPackConfig {
  pc_max_txns_per_microblock : nat;
  pc_max_cus_per_microblock : Z;
  pc_limits : PackLimits;
  pc_execution_tile_count : nat;
  pc_max_microblocks_per_block : Z;
}.
Definition PackConfig_default : PackConfig := mkPackConfig 64 1600000 PackLimits_default 1 131072.

Record Microblock := mkMicroblock {
  mb_id : Z;
  mb_target_tile : nat;
  mb_transactions : list PackedTransaction;
  mb_total_compute_units : Z;
  mb_total_data_bytes : Z;
  mb_is_vote_only : bool;
}.

Record MicroblockRebate := mkMicroblockRebate {
  mr_requested_cus : Z;
  mr_consumed_cus : Z;
  mr_is_vote_only : bool;
}.

(** The counters that the scheduler writes; [block_vote_cost_units_used] and
    [microblocks_paced] are never written. *)
Inductive PackCounter :=
| transactions_scheduled | transactions_conflicted | transactions_expired | microblocks_produced | blocks_completed
| block_cost_units_used | rebated_cus.
#[export] Instance PackCounter_eq_dec : EqDecision PackCounter.
Proof. solve_decision. Defined.
Definition PackStats : Type := PackCounter → Z.
Definition stat_store (c : PackCounter) (n : Z) (s : PackStats) : PackStats := λ d, if decide (d = c) then n else s d.
Definition stat_add (c : PackCounter) (n : Z) (s : PackStats) : PackStats := stat_store c (u64_add (s c) n) s.

Record PackScheduler := mkPackScheduler {
  ps_config : PackConfig;
  ps_queue : TransactionQueue;
  ps_conflict_detector : ConflictDetector;
  ps_next_microblock_id : Z;
  ps_block_cost_units : Z;
  ps_block_vote_cost_units : Z;
  ps_block_data_bytes : Z;
  ps_microblocks_this_block : Z;
  ps_current_slot : Z;
  ps_stats : PackStats;
  ps_per_tile_inflight_cus : list Z;
  ps_microblock_tile_map : gmap Z (nat * Z);
}.

Definition PackScheduler_with_config (config : PackConfig) : PackScheduler :=
  mkPackScheduler config TransactionQueue_new (ConflictDetector_new (pl_max_write_cost_per_account (pc_limits config)))
    0 0 0 0 0 0 (λ _, 0) (replicate (pc_execution_tile_count config `max` 1) 0) ∅.

(** Assignments to the fields of the scheduler. *)
Definition set_queue (q : TransactionQueue) (s : PackScheduler) : PackScheduler :=
  mkPackScheduler (ps_config s) q (ps_conflict_detector s) (ps_next_microblock_id s) (ps_block_cost_units s)
    (ps_block_vote_cost_units s) (ps_block_data_bytes s) (ps_microblocks_this_block s) (ps_current_slot s) (ps_stats s)
    (ps_per_tile_inflight_cus s) (ps_microblock_tile_map s).
Definition set_detector (d : ConflictDetector) (s : PackScheduler) : PackScheduler :=
  mkPackScheduler (ps_config s) (ps_queue s) d (ps_next_microblock_id s) (ps_block_cost_units s)
    (ps_block_vote_cost_units s) (ps_block_data_bytes s) (ps_microblocks_this_block s) (ps_current_slot s) (ps_stats s)
    (ps_per_tile_inflight_cus s) (ps_microblock_tile_map s).
Definition set_stats (x : PackStats) (s : PackScheduler) : PackScheduler :=
  mkPackScheduler (ps_config s) (ps_queue s) (ps_conflict_detector s) (ps_next_microblock_id s) (ps_block_cost_units s)
    (ps_block_vote_cost_units s) (ps_block_data_bytes s) (ps_microblocks_this_block s) (ps_current_slot s) x
    (ps_per_tile_inflight_cus s) (ps_microblock_tile_map s).
Definition set_tiles (tiles : list Z) (m : gmap Z (nat * Z)) (s : PackScheduler) : PackScheduler :=
  mkPackScheduler (ps_config s) (ps_queue s) (ps_conflict_detector s) (ps_next_microblock_id s) (ps_block_cost_units s)
    (ps_block_vote_cost_units s) (ps_block_data_bytes s) (ps_microblocks_this_block s) (ps_current_slot s) (ps_stats s)
    tiles m.
Definition set_costs (cost vote : Z) (s : PackScheduler) : PackScheduler :=
  mkPackScheduler (ps_config s) (ps_queue s) (ps_conflict_detector s) (ps_next_microblock_id s) cost vote
    (ps_block_data_bytes s) (ps_microblocks_this_block s) (ps_current_slot s) (ps_stats s)
    (ps_per_tile_inflight_cus s) (ps_microblock_tile_map s).

Definition PackScheduler_submit (s : PackScheduler) (tx : PackedTransaction) : PackScheduler :=
  set_queue (TransactionQueue_insert (ps_queue s) tx) s.

Definition build_lock_set (tx : PackedTransaction) : list AccountLock :=
  ((λ account, mkAccountLock account Write) <$> pt_write_accounts tx)
  ++ ((λ account, mkAccountLock account Read) <$> pt_read_accounts tx).

(** The least loaded tile, the first among equals. *)
Definition select_target_tile (s : PackScheduler) : Outcome nat :=
  match ps_per_tile_inflight_cus s with
  | [] => Panicked
  | first :: rest =>
      mret (foldl (λ best x, if x.2 <? best.2 then x else best) (0%nat, first) (imap (λ i cus, (S i, cus)) rest)).1
  end.

(** What the loop of [produce_microblock] builds: the microblock and the transactions put aside. *)
Record Packing := mkPacking {
  pk_transactions : list PackedTransaction;
  pk_total_cu : Z;
  pk_total_data : Z;
  pk_all_votes : bool;
  pk_deferred : list PackedTransaction;
}.
Definition defer (tx : PackedTransaction) (k : Packing) : Packing :=
  mkPacking (pk_transactions k) (pk_total_cu k) (pk_total_data k) (pk_all_votes k) (pk_deferred k ++ [tx]).
Definition take_in (tx : PackedTransaction) (k : Packing) : Packing :=
  mkPacking (pk_transactions k ++ [tx]) (u64_add (pk_total_cu k) (PackedTransaction_block_cost tx))
    (u64_add (pk_total_data k) (pt_data_size tx)) (pk_all_votes k && pt_is_vote tx) (pk_deferred k).

(** What the loop does with a transaction that has not expired: the checks of the limits, of
    the cost per account and of the locks, in order. *)
Inductive Verdict := Fits | Skip (conflicted : bool) | Stop.
Definition judge (s : PackScheduler) (k : Packing) (tx : PackedTransaction) : Verdict :=
  let limits := pc_limits (ps_config s) in
  let tx_cost := PackedTransaction_block_cost tx in
  if (pc_max_txns_per_microblock (ps_config s) <=? length (pk_transactions k))%nat then Stop
  else if pc_max_cus_per_microblock (ps_config s) <? u64_saturating_add (pk_total_cu k) tx_cost then Stop
  else if pl_max_cost_per_block limits
            <? u64_saturating_add (u64_saturating_add (ps_block_cost_units s) (pk_total_cu k)) tx_cost then Stop
  else if pt_is_vote tx && (pl_max_vote_cost_per_block limits <? u64_saturating_add (ps_block_vote_cost_units s) tx_cost)
  then Skip false
  else if ConflictDetector_would_exceed_write_cost (ps_conflict_detector s) (pt_write_accounts tx) tx_cost then Skip true
  else if negb (ConflictDetector_can_schedule (ps_conflict_detector s) (build_lock_set tx)) then Skip true
  else Fits.

(** The loop; the fuel is the length of the queue. *)
Fixpoint pack_loop (fuel : nat) (s : PackScheduler) (k : Packing) : Outcome (PackScheduler * Packing) :=
  match TransactionQueue_pop (ps_queue s) with
  | None => mret (s, k)
  | Some (tx, q) =>
      match fuel with
      | O => Panicked
      | S fuel =>
          let s := set_queue q s in
          if pt_expires_at_slot tx <=? ps_current_slot s
          then pack_loop fuel (set_stats (stat_add transactions_expired 1 (ps_stats s)) s) k
          else
            match judge s k tx with
            | Stop => mret (s, defer tx k)
            | Skip conflicted =>
                pack_loop fuel
                  (if conflicted : bool then set_stats (stat_add transactions_conflicted 1 (ps_stats s)) s else s) (defer tx k)
            | Fits =>
                pack_loop fuel
                  (set_detector (ConflictDetector_record_write_cost (ps_conflict_detector s) (pt_write_accounts tx)
                                   (PackedTransaction_block_cost tx)) s) (take_in tx k)
            end
      end
  end.

(** The end of [produce_microblock], for transactions that were found. *)
Definition emit (s : PackScheduler) (k : Packing) : Outcome (option Microblock * PackScheduler) :=
  let microblock_id := ps_next_microblock_id s in
  let all_locks := mbind build_lock_set (pk_transactions k) in
  let block_cost_units := u64_add (ps_block_cost_units s) (pk_total_cu k) in
  target_tile ← select_target_tile s;
  match ps_per_tile_inflight_cus s !! target_tile with
  | None => Panicked
  | Some cus =>
      mret (Some (mkMicroblock microblock_id target_tile (pk_transactions k) (pk_total_cu k) (pk_total_data k) (pk_all_votes k)),
        mkPackScheduler (ps_config s) (ps_queue s)
          (ConflictDetector_acquire (ps_conflict_detector s) microblock_id all_locks)
          (u64_add microblock_id 1) block_cost_units
          (if pk_all_votes k then u64_add (ps_block_vote_cost_units s) (pk_total_cu k) else ps_block_vote_cost_units s)
          (u64_add (ps_block_data_bytes s) (pk_total_data k))
          (u64_add (ps_microblocks_this_block s) 1) (ps_current_slot s)
          (stat_store block_cost_units_used block_cost_units
             (stat_add microblocks_produced 1
                (stat_add transactions_scheduled (Z.of_nat (length (pk_transactions k))) (ps_stats s))))
          (<[target_tile := u64_add cus (pk_total_cu k)]> (ps_per_tile_inflight_cus s))
          (<[microblock_id := (target_tile, pk_total_cu k)]> (ps_microblock_tile_map s)))
  end.

Definition PackScheduler_produce_microblock (s : PackScheduler) : Outcome (option Microblock * PackScheduler) :=
  let limits := pc_limits (ps_config s) in
  if bool_decide (tq_heap (ps_queue s) = []) then mret (None, s)
  else if pl_max_cost_per_block limits <=? ps_block_cost_units s then mret (None, s)
  else if pl_max_data_bytes_per_block limits <=? ps_block_data_bytes s then mret (None, s)
  else if pc_max_microblocks_per_block (ps_config s) <=? ps_microblocks_this_block s then mret (None, s)
  else
    r ← pack_loop (length (tq_heap (ps_queue s))) s (mkPacking [] 0 0 true []);
    let '(s, k) := r in
    let s := set_queue (foldl TransactionQueue_insert (ps_queue s) (pk_deferred k)) s in
    if bool_decide (pk_transactions k = []) then mret (None, s) else emit s k.

(** The load of the tile and the locks are given back. *)
Definition PackScheduler_complete_microblock (s : PackScheduler) (microblock_id : Z) : Outcome PackScheduler :=
  s ← match ps_microblock_tile_map s !! microblock_id with
      | None => mret s
      | Some (tile, cus) =>
          match ps_per_tile_inflight_cus s !! tile with
          | None => Panicked
          | Some load =>
              mret (set_tiles (<[tile := u64_saturating_sub load cus]> (ps_per_tile_inflight_cus s))
                      (delete microblock_id (ps_microblock_tile_map s)) s)
          end
      end;
  mret (set_detector (ConflictDetector_release (ps_conflict_detector s) microblock_id) s).

Definition PackScheduler_complete_microblock_with_rebate (s : PackScheduler) (microblock_id : Z) (rebate : MicroblockRebate) :
    Outcome PackScheduler :=
  let rebated := u64_saturating_sub (mr_requested_cus rebate) (mr_consumed_cus rebate) in
  let s :=
    if 0 <? rebated then
      set_stats (stat_add rebated_cus rebated (ps_stats s))
        (set_costs (u64_saturating_sub (ps_block_cost_units s) rebated)
           (if mr_is_vote_only rebate then u64_saturating_sub (ps_block_vote_cost_units s) rebated
            else ps_block_vote_cost_units s) s)
    else s in
  PackScheduler_complete_microblock s microblock_id.

Definition PackScheduler_new_block (s : PackScheduler) (slot : Z) : Outcome PackScheduler :=
  r ← TransactionQueue_drain_expired (ps_queue s) slot;
  let '(expired, q) := r in
  mret (mkPackScheduler (ps_config s) q (ConflictDetector_reset (ps_conflict_detector s)) 0 0 0 0 0 slot
          (stat_add blocks_completed 1 (stat_add transactions_expired expired (ps_stats s)))
          (replicate (length (ps_per_tile_inflight_cus s)) 0) ∅).

(** ** Runs of the scheduler *)

Inductive PackOp :=
| Submit (tx : PackedTransaction)
| Produce
| CompleteMicroblock (microblock_id : Z)
| CompleteWithRebate (microblock_id : Z) (rebate : MicroblockRebate)
| NewBlock (slot : Z).

(** The scheduler, the microblocks in flight (produced in the current block and not completed
    since), all the microblocks of the current block, all the microblocks, and what was
    rebated in the current block. *)
Record PackRun := mkPackRun {
  pr_scheduler : PackScheduler;
  pr_in_flight : list Microblock;
  pr_block : list Microblock;
  pr_produced : list Microblock;
  pr_rebated : Z;
}.

Definition finish (id : Z) (l : list Microblock) : list Microblock := filter (λ m, mb_id m ≠ id) l.

Definition pack_step (r : PackRun) (op : PackOp) : Outcome PackRun :=
  match op with
  | Submit tx =>
      mret (mkPackRun (PackScheduler_submit (pr_scheduler r) tx) (pr_in_flight r) (pr_block r) (pr_produced r) (pr_rebated r))
  | Produce =>
      x ← PackScheduler_produce_microblock (pr_scheduler r);
      let new := option_list x.1 in
      mret (mkPackRun x.2 (pr_in_flight r ++ new) (pr_block r ++ new) (pr_produced r ++ new) (pr_rebated r))
  | CompleteMicroblock id =>
      s ← PackScheduler_complete_microblock (pr_scheduler r) id;
      mret (mkPackRun s (finish id (pr_in_flight r)) (pr_block r) (pr_produced r) (pr_rebated r))
  | CompleteWithRebate id rebate =>
      s ← PackScheduler_complete_microblock_with_rebate (pr_scheduler r) id rebate;
      mret (mkPackRun s (finish id (pr_in_flight r)) (pr_block r) (pr_produced r)
              (pr_rebated r + u64_saturating_sub (mr_requested_cus rebate) (mr_consumed_cus rebate)))
  | NewBlock slot =>
      s ← PackScheduler_new_block (pr_scheduler r) slot;
      mret (mkPackRun s [] [] (pr_produced r) 0)
  end.

Definition pack_run (config : PackConfig) (ops : list PackOp) : Outcome PackRun :=
  for_each pack_step (mkPackRun (PackScheduler_with_config config) [] [] [] 0) ops.

(** ** Where the scheduler falls short *)

(** A transaction that writes the account [a], expires late and costs [units]. *)
Definition sample (a fee units : Z) (vote : bool) (size : Z) : PackedTransaction :=
  mkPackedTransaction [] (replicate 32 0) fee units 0 vote u64_max [[a]] [] size 0.
Definition run_txs (o : Outcome PackRun) : list (list (list (list Z))) :=
  match o with Done r => (λ m, pt_write_accounts <$> mb_transactions m) <$> pr_produced r | Panicked => [] end.

(** A microblock is meant to be a group of transactions that do not conflict; but the locks are
    taken once it is complete, so two transactions that write the same account share one. *)
Lemma microblock_conflicts_with_itself :
  run_txs (pack_run PackConfig_default [Submit (sample 1 5 100 false 10); Submit (sample 1 4 100 false 10); Produce])
  = [[[[1]]; [[1]]]].
Proof. vm_compute. reflexivity. Qed.

(** Votes are held against the limit one by one, without those of the microblock, and those of
    a microblock with another transaction are not counted at all. *)
Lemma vote_limit_exceeded :
  let config := mkPackConfig 64 1600000 (mkPackLimits 50000000 100 12000000 27539200) 1 131072 in
  let votes := [Submit (sample 1 0 60 true 10); Submit (sample 2 0 60 true 10); Submit (sample 3 0 60 false 10); Produce;
                Submit (sample 4 0 60 true 10); Submit (sample 5 0 60 false 10); Produce] in
  ∃ r, pack_run config votes = Done r ∧ ps_block_vote_cost_units (pr_scheduler r) = 0
    ∧ run_txs (Done r) = [[[[1]]; [[2]]; [[3]]]; [[[4]]; [[5]]]].
Proof. eexists. split; [vm_compute; reflexivity|]. split; vm_compute; reflexivity. Qed.

(** The limit of data bytes is looked at before the microblock is filled, not while. *)
Lemma data_limit_exceeded :
  let config := mkPackConfig 64 1600000 (mkPackLimits 50000000 36000000 12000000 100) 1 131072 in
  ∃ r, pack_run config [Submit (sample 1 0 10 false 80); Submit (sample 2 0 10 false 80); Produce] = Done r
    ∧ ps_block_data_bytes (pr_scheduler r) = 160.
Proof. eexists. split; vm_compute; reflexivity. Qed.

(** Equals are meant to be served in the order of arrival; but a transaction that finds the
    microblock full goes to the end of the queue: the third is packed before the second. *)
Lemma full_microblock_reorders :
  let config := mkPackConfig 1 1600000 PackLimits_default 1 131072 in
  run_txs (pack_run config [Submit (sample 1 0 10 false 0); Submit (sample 2 0 10 false 0); Submit (sample 3 0 10 false 0);
                            Produce; Produce; Produce]) = [[[[1]]]; [[[3]]]; [[[2]]]].
Proof. vm_compute. reflexivity. Qed.

(** The identifiers start again with a block, so the late completion of a microblock of the last
    block gives back the locks of one of this block, which may still be running. *)
Lemma late_completion_unlocks :
  let config := mkPackConfig 1 1600000 PackLimits_default 1 131072 in
  run_txs (pack_run config [Submit (sample 1 0 10 false 0); Produce; NewBlock 1; Submit (sample 2 0 10 false 0); Produce;
                            Submit (sample 2 0 10 false 0); CompleteMicroblock 0; Produce]) = [[[[1]]]; [[[2]]]; [[[2]]]].
Proof. vm_compute. reflexivity. Qed.
