(* ===== verification/PackRuns.v ===== *)
(** * What the scheduler guarantees

    Theorems on [PackScheduler]: the microblocks in flight do not conflict, a block stays
    within its limits, and no transaction is lost. *)
From stdpp Require Import base tactics numbers list sorting gmap.
From Stdlib Require Import ZArith Lia.
From S2P Require Import Prelude PackScheduler.
Local Open Scope Z_scope.

(** ** The queue *)

(** The order in which the heap gives its entries. *)
Definition before (x y : PackedTransaction) : Prop := PriorityEntry_cmp x y ≠ Lt.

Definition vote_rank (x : PackedTransaction) : Z := Z.b2z (pt_is_vote x).
Lemma before_iff x y : before x y ↔ vote_rank y < vote_rank x ∨ (vote_rank y = vote_rank x
  ∧ (pt_priority_fee y < pt_priority_fee x ∨ (pt_priority_fee y = pt_priority_fee x
     ∧ pt_insertion_order x <= pt_insertion_order y))).
Proof.
  unfold before, PriorityEntry_cmp, PackedTransaction_fee_rate, vote_rank.
  destruct (pt_is_vote x), (pt_is_vote y); cbn [Z.b2z];
    try (split; [intros; lia|done]); try (split; [by intros []|lia]);
    destruct (Z.compare_spec (pt_priority_fee x) (pt_priority_fee y)); try (split; [intros; lia|done]);
    try (split; [by intros []|lia]);
    destruct (Z.compare_spec (pt_insertion_order y) (pt_insertion_order x)); (split; [try (by intros []); intros; lia|intros; try done; lia]).
Qed.
Lemma before_trans x y z : before x y → before y z → before x z.
Proof. rewrite !before_iff. lia. Qed.
Lemma before_flip x y : PriorityEntry_cmp x y = Lt → before y x.
Proof. intros H. assert (¬ before x y) as Hn by (intros Hb; by apply Hb). rewrite before_iff in *. lia. Qed.

Lemma heap_pop_perm heap : ∀ x rest, heap_pop heap = Some (x, rest) → heap ≡ₚ x :: rest.
Proof.
  induction heap as [|y heap IH]; intros x rest; cbn; [done|].
  destruct (heap_pop heap) as [[z others]|] eqn:E.
  - specialize (IH z others eq_refl). destruct (PriorityEntry_cmp y z); intros [= <- <-]; try done.
    rewrite IH. apply Permutation_swap.
  - intros [= <- <-]. destruct heap as [|w heap]; [done|]. cbn in E. repeat case_match; done.
Qed.
Lemma heap_pop_None heap : heap_pop heap = None → heap = [].
Proof. destruct heap as [|x heap]; [done|]. cbn. repeat case_match; done. Qed.
Lemma heap_pop_first heap : ∀ x rest, heap_pop heap = Some (x, rest) → Forall (before x) rest.
Proof.
  induction heap as [|y heap IH]; intros x rest; cbn; [done|].
  destruct (heap_pop heap) as [[z others]|] eqn:E; [|intros [= <- <-]; constructor].
  pose proof (heap_pop_perm _ _ _ E) as Hp. specialize (IH z others eq_refl).
  assert (before y z → Forall (before y) heap) as Hge.
  { intros Hb. rewrite Hp. constructor; [done|]. eapply Forall_impl; [exact IH|]. intros w. by apply before_trans. }
  destruct (PriorityEntry_cmp y z) eqn:Ec; intros [= <- <-].
  - apply Hge. unfold before. by rewrite Ec.
  - constructor; [|done]. by apply before_flip.
  - apply Hge. unfold before. by rewrite Ec.
Qed.

(** A transaction but for its place in the queue. *)
Definition strip (tx : PackedTransaction) : PackedTransaction := set_insertion_order 0 tx.

Lemma insert_all q l : strip <$> tq_heap (foldl TransactionQueue_insert q l) ≡ₚ (strip <$> l) ++ (strip <$> tq_heap q).
Proof.
  revert q. induction l as [|x l IH]; intros q; cbn [foldl]; [done|]. rewrite IH. cbn. symmetry. apply Permutation_middle.
Qed.

Lemma drain_ok slot fuel : ∀ remaining q, (length (tq_heap q) <= fuel)%nat →
  ∃ remaining' q', drain_loop fuel slot remaining q = Done (remaining', q')
    ∧ remaining' ≡ₚ remaining ++ filter (λ tx, slot < pt_expires_at_slot tx) (tq_heap q).
Proof.
  induction fuel as [|fuel IH]; intros remaining q Hf; cbn [drain_loop];
    destruct (heap_pop (tq_heap q)) as [[tx heap]|] eqn:E.
  - apply heap_pop_perm, Permutation_length in E. cbn in E. lia.
  - apply heap_pop_None in E. rewrite E, app_nil_r. by eexists _, _.
  - pose proof (heap_pop_perm _ _ _ E) as Hp. pose proof (Permutation_length Hp) as Hl. cbn in Hl.
    destruct (Z.ltb_spec slot (pt_expires_at_slot tx)).
    + destruct (IH (tx :: remaining) (mkTransactionQueue heap (tq_insertion_counter q) (tq_total_compute_units q)
        (tq_total_data_bytes q))) as (r & q' & -> & Hr); [cbn; lia|].
      eexists _, _. split; [done|]. cbn in Hr. by rewrite Hr, Hp, filter_cons_True, <- Permutation_middle by done.
    + destruct (IH remaining (forget tx heap q)) as (r & q' & -> & Hr); [cbn; lia|].
      eexists _, _. split; [done|]. cbn in Hr. by rewrite Hr, Hp, filter_cons_False by lia.
  - apply heap_pop_None in E. rewrite E, app_nil_r. by eexists _, _.
Qed.

(** ** The loop *)

Abbreviation cost := PackedTransaction_block_cost.

(** What the loop has done since [s0]: the queue is split, and nothing but the queue, the costs
    of the accounts and two counters has changed. *)
Record packing_ok (s0 s : PackScheduler) (k : Packing) (expired : list PackedTransaction) : Prop := {
  po_same : s = set_queue (ps_queue s) (set_detector (ps_conflict_detector s) (set_stats (ps_stats s) s0));
  po_locks : cd_locks (ps_conflict_detector s) = cd_locks (ps_conflict_detector s0);
  po_microblocks : cd_microblock_locks (ps_conflict_detector s) = cd_microblock_locks (ps_conflict_detector s0);
  po_limit : cd_max_write_cost_per_account (ps_conflict_detector s) = cd_max_write_cost_per_account (ps_conflict_detector s0);
  po_split : tq_heap (ps_queue s0) ≡ₚ pk_transactions k ++ pk_deferred k ++ expired ++ tq_heap (ps_queue s);
  po_expired : Forall (λ tx, pt_expires_at_slot tx <= ps_current_slot s0) expired;
  po_fresh : Forall (λ tx, ps_current_slot s0 < pt_expires_at_slot tx) (pk_transactions k);
  po_free : Forall (λ tx, ConflictDetector_can_schedule (ps_conflict_detector s0) (build_lock_set tx) = true) (pk_transactions k);
  po_few : (length (pk_transactions k) <= pc_max_txns_per_microblock (ps_config s0))%nat;
  po_sorted : StronglySorted before (pk_transactions k);
  po_ahead : Forall (λ x, Forall (before x) (tq_heap (ps_queue s))) (pk_transactions k);
  po_count : wrap64 (ps_stats s transactions_expired) = wrap64 (ps_stats s0 transactions_expired + Z.of_nat (length expired));
}.

Lemma can_schedule_same d d' locks : cd_locks d = cd_locks d' →
  ConflictDetector_can_schedule d locks = ConflictDetector_can_schedule d' locks.
Proof.
  intros H. unfold ConflictDetector_can_schedule. induction locks as [|l locks IH]; [done|].
  cbn. rewrite IH. f_equal. unfold lock_is_free. by rewrite H.
Qed.

Lemma judge_fits s k tx : judge s k tx = Fits →
  (length (pk_transactions k) < pc_max_txns_per_microblock (ps_config s))%nat
  ∧ u64_saturating_add (pk_total_cu k) (cost tx) <= pc_max_cus_per_microblock (ps_config s)
  ∧ u64_saturating_add (u64_saturating_add (ps_block_cost_units s) (pk_total_cu k)) (cost tx)
    <= pl_max_cost_per_block (pc_limits (ps_config s))
  ∧ ConflictDetector_would_exceed_write_cost (ps_conflict_detector s) (pt_write_accounts tx) (cost tx) = false
  ∧ ConflictDetector_can_schedule (ps_conflict_detector s) (build_lock_set tx) = true.
Proof.
  unfold judge. destruct (Nat.leb_spec (pc_max_txns_per_microblock (ps_config s)) (length (pk_transactions k))); [done|].
  repeat (case_match; [done|]). intros _. b2p. done.
Qed.

(** A turn takes the first transaction of the queue. *)
Lemma packing_pop s0 s k expired tx q : packing_ok s0 s k expired → TransactionQueue_pop (ps_queue s) = Some (tx, q) →
  tq_heap (ps_queue s) ≡ₚ tx :: tq_heap q ∧ Forall (before tx) (tq_heap q)
  ∧ Forall (λ x, before x tx ∧ Forall (before x) (tq_heap q)) (pk_transactions k).
Proof.
  intros Hok. unfold TransactionQueue_pop. destruct (heap_pop (tq_heap (ps_queue s))) as [[y heap]|] eqn:E; [|done].
  intros [= -> <-]. cbn [forget tq_heap]. pose proof (heap_pop_perm _ _ _ E) as Hp. split; [done|].
  split; [by apply heap_pop_first in E|]. eapply Forall_impl; [exact (po_ahead _ _ _ _ Hok)|].
  intros x Hx. cbn in Hx. rewrite Hp in Hx. by apply Forall_cons in Hx.
Qed.

Lemma wrap64_add_l a b : wrap64 (wrap64 a + b) = wrap64 (a + b).
Proof. unfold wrap64. by rewrite Zplus_mod_idemp_l. Qed.

Lemma packing_expire s0 s k expired tx q : packing_ok s0 s k expired → TransactionQueue_pop (ps_queue s) = Some (tx, q) →
  pt_expires_at_slot tx <= ps_current_slot s0 →
  packing_ok s0 (set_stats (stat_add transactions_expired 1 (ps_stats s)) (set_queue q s)) k (expired ++ [tx]).
Proof.
  intros Hok Hpop Hx. destruct (packing_pop _ _ _ _ _ _ Hok Hpop) as (Hp & _ & Hall). destruct Hok. split; cbn; try done.
  - rewrite po_same0. by cbn.
  - rewrite po_split0, Hp. by rewrite <- (assoc_L (++) expired [tx]).
  - apply Forall_app. split; [done|by constructor].
  - eapply Forall_impl; [exact Hall|]. by intros ? [_ ?].
  - unfold stat_add, stat_store. rewrite decide_True by done. unfold u64_add. rewrite length_app. cbn.
    unfold wrap64 in *. rewrite Zmod_mod, <- Zplus_mod_idemp_l, po_count0, Zplus_mod_idemp_l. f_equal. lia.
Qed.

Lemma packing_defer s0 s k expired tx q (conflicted : bool) :
  packing_ok s0 s k expired → TransactionQueue_pop (ps_queue s) = Some (tx, q) →
  packing_ok s0 (if conflicted then set_stats (stat_add transactions_conflicted 1 (ps_stats s)) (set_queue q s) else set_queue q s)
    (defer tx k) expired.
Proof.
  intros Hok Hpop. destruct (packing_pop _ _ _ _ _ _ Hok Hpop) as (Hp & _ & Hall). destruct Hok.
  destruct conflicted; split; cbn; try done; try (rewrite po_same0; by cbn);
    try (eapply Forall_impl; [exact Hall|]; by intros ? [_ ?]);
    rewrite po_split0, Hp; rewrite <- !(assoc_L (++)); do 2 f_equiv; cbn; by rewrite <- Permutation_middle.
Qed.

Lemma packing_take s0 s k expired tx q :
  packing_ok s0 s k expired → TransactionQueue_pop (ps_queue s) = Some (tx, q) → ps_current_slot s0 < pt_expires_at_slot tx →
  judge (set_queue q s) k tx = Fits →
  packing_ok s0 (set_detector (ConflictDetector_record_write_cost (ps_conflict_detector s) (pt_write_accounts tx) (cost tx))
                   (set_queue q s)) (take_in tx k) expired.
Proof.
  intros Hok Hpop Hx Hj. destruct (packing_pop _ _ _ _ _ _ Hok Hpop) as (Hp & Hfirst & Hall).
  apply judge_fits in Hj as (Hn & _ & _ & _ & Hfree). cbn in Hn, Hfree. destruct Hok.
  rewrite (can_schedule_same _ _ _ po_locks0) in Hfree. rewrite po_same0 in Hn. cbn in Hn.
  split; cbn; try done.
  - rewrite po_same0. by cbn.
  - rewrite po_split0, Hp, <- !(assoc_L (++)). f_equiv. cbn. by rewrite !(assoc_L (++)), <- Permutation_middle.
  - apply Forall_app. split; [done|by constructor].
  - apply Forall_app. split; [done|by constructor].
  - rewrite length_app. cbn. lia.
  - apply StronglySorted_app_2; [|done|by repeat constructor].
    intros x1 x2 H1 ->%list_elem_of_singleton. rewrite Forall_forall in Hall. by apply Hall.
  - apply Forall_app. split; [|by constructor]. eapply Forall_impl; [exact Hall|]. by intros ? [_ ?].
Qed.

Lemma packing_start s : packing_ok s s (mkPacking [] 0 0 true []) [].
Proof. split; cbn; try done; [by destruct s|lia|constructor|f_equal; lia]. Qed.

(** ** Costs *)

Definition total (f : PackedTransaction → Z) (l : list PackedTransaction) : Z := foldr (λ tx n, f tx + n) 0 l.
Lemma total_app f l l' : total f (l ++ l') = total f l + total f l'.
Proof. unfold total. induction l as [|x l IH]; cbn; lia. Qed.

(** What the transactions spend on writing an account. *)
Definition spent (a : list Z) (l : list PackedTransaction) : Z :=
  total (λ tx, if decide (a ∈ pt_write_accounts tx) then cost tx else 0) l.

Definition tx_typed (tx : PackedTransaction) : Prop := 0 <= cost tx ∧ NoDup (pt_write_accounts tx).
Record config_typed (c : PackConfig) : Prop := {
  ct_microblocks : is_u64 (pc_max_microblocks_per_block c);
  ct_cus : 0 <= pc_max_cus_per_microblock c;
  ct_cost : 0 <= pl_max_cost_per_block (pc_limits c) < u64_max;
  ct_write : 0 <= pl_max_write_cost_per_account (pc_limits c) < u64_max;
}.

Lemma record_write_cost_at d accounts c a : NoDup accounts →
  write_cost (ConflictDetector_record_write_cost d accounts c) a
  = if decide (a ∈ accounts) then u64_add (write_cost d a) c else write_cost d a.
Proof.
  unfold write_cost. cbn [ConflictDetector_record_write_cost cd_write_cost_per_account].
  generalize (cd_write_cost_per_account d). induction accounts as [|b accounts IH]; intros m Hnd; [done|].
  apply NoDup_cons in Hnd as [Hb Hnd]. cbn [foldl]. rewrite IH by done.
  destruct (decide (a = b)) as [->|Hne].
  - rewrite (decide_False (P := b ∈ accounts)) by done. rewrite decide_True by left. by rewrite lookup_insert_eq.
  - rewrite lookup_insert_ne by done. destruct (decide (a ∈ accounts)).
    + by rewrite decide_True by (right; done).
    + rewrite decide_False; [done|]. rewrite not_elem_of_cons. done.
Qed.

Record costs_ok (s0 s : PackScheduler) (k : Packing) : Prop := {
  co_total : pk_total_cu k = total cost (pk_transactions k);
  co_microblock : 0 <= pk_total_cu k <= pc_max_cus_per_microblock (ps_config s0);
  co_block : ps_block_cost_units s0 + pk_total_cu k <= pl_max_cost_per_block (pc_limits (ps_config s0));
  co_spent : ∀ a, write_cost (ps_conflict_detector s) a = write_cost (ps_conflict_detector s0) a + spent a (pk_transactions k);
  co_account : ∀ a, 0 <= write_cost (ps_conflict_detector s) a <= cd_max_write_cost_per_account (ps_conflict_detector s0);
}.

(** The scheduler is within its limits. *)
Record within_limits (s : PackScheduler) : Prop := {
  wl_config : config_typed (ps_config s);
  wl_max : cd_max_write_cost_per_account (ps_conflict_detector s) = pl_max_write_cost_per_account (pc_limits (ps_config s));
  wl_cost : 0 <= ps_block_cost_units s <= pl_max_cost_per_block (pc_limits (ps_config s));
  wl_account : ∀ a, 0 <= write_cost (ps_conflict_detector s) a <= pl_max_write_cost_per_account (pc_limits (ps_config s));
  wl_queue : Forall tx_typed (tq_heap (ps_queue s));
}.

Lemma saturating_exact a b m : u64_saturating_add a b <= m → m < u64_max → a + b <= m.
Proof. unfold u64_saturating_add. lia. Qed.

Lemma within_account d accounts c a : ConflictDetector_would_exceed_write_cost d accounts c = false →
  a ∈ accounts → u64_saturating_add (write_cost d a) c <= cd_max_write_cost_per_account d.
Proof.
  unfold ConflictDetector_would_exceed_write_cost. induction accounts as [|b accounts IH]; [by intros _ ?%elem_of_nil|].
  cbn. intros H Ha. b2p. apply elem_of_cons in Ha as [->|Ha]; auto.
Qed.

Lemma costs_take s0 s k expired tx q :
  within_limits s0 → packing_ok s0 s k expired → costs_ok s0 s k → tx_typed tx → judge (set_queue q s) k tx = Fits →
  costs_ok s0 (set_detector (ConflictDetector_record_write_cost (ps_conflict_detector s) (pt_write_accounts tx) (cost tx))
                 (set_queue q s)) (take_in tx k).
Proof.
  intros [[_ _ Hcost Hwrite] Hmax Hb _ _] Hok [Htot Hmb Hblk Hsp Hacc] [Hpos Hnd] Hj.
  apply judge_fits in Hj as (_ & Hcu & Hblock & Hex & _). cbn in Hcu, Hblock, Hex.
  rewrite (po_same _ _ _ _ Hok) in Hcu, Hblock. cbn in Hcu, Hblock.
  assert (ps_block_cost_units s0 + pk_total_cu k + cost tx <= pl_max_cost_per_block (pc_limits (ps_config s0))) as Hsum.
  { apply saturating_exact in Hblock; [|lia]. revert Hblock. unfold u64_saturating_add. lia. }
  assert (u64_add (pk_total_cu k) (cost tx) = pk_total_cu k + cost tx) as Eadd by (apply wrap64_small; unfold is_u64; lia).
  assert (∀ a, a ∈ pt_write_accounts tx → write_cost (ps_conflict_detector s) a + cost tx
    <= cd_max_write_cost_per_account (ps_conflict_detector s0)) as Hw.
  { intros a Ha. eapply saturating_exact; [|rewrite Hmax; lia]. rewrite <- (po_limit _ _ _ _ Hok). by eapply within_account. }
  split; cbn [take_in pk_total_cu pk_transactions ps_conflict_detector set_detector].
  - rewrite Eadd, total_app, Htot. cbn. lia.
  - rewrite Eadd. revert Hcu. unfold u64_saturating_add. lia.
  - rewrite Eadd. lia.
  - intros a. rewrite record_write_cost_at by done. unfold spent. rewrite total_app. cbn. pose proof (Hsp a) as Ha.
    unfold spent in Ha. destruct (decide (a ∈ pt_write_accounts tx)) as [Hin|]; [|lia].
    specialize (Hw a Hin). specialize (Hacc a). unfold u64_add. rewrite wrap64_small by (unfold is_u64; lia). lia.
  - intros a. rewrite record_write_cost_at by done. specialize (Hacc a).
    destruct (decide (a ∈ pt_write_accounts tx)) as [Hin|]; [|done]. specialize (Hw a Hin).
    unfold u64_add. rewrite wrap64_small by (unfold is_u64; lia). lia.
Qed.

Lemma pack_loop_ok s0 fuel : ∀ s k expired, (length (tq_heap (ps_queue s)) <= fuel)%nat → packing_ok s0 s k expired →
  ∃ s' k' expired', pack_loop fuel s k = Done (s', k') ∧ packing_ok s0 s' k' expired'
    ∧ (within_limits s0 → costs_ok s0 s k → costs_ok s0 s' k').
Proof.
  induction fuel as [|fuel IH]; intros s k expired Hf Hok; cbn [pack_loop];
    destruct (TransactionQueue_pop (ps_queue s)) as [[tx q]|] eqn:E; try (by eexists _, _, expired);
    pose proof (packing_pop _ _ _ _ _ _ Hok E) as (Hp & _); pose proof (Permutation_length Hp) as Hl; cbn in Hl; [lia|].
  assert (ps_current_slot (set_queue q s) = ps_current_slot s0) as -> by (by rewrite (po_same _ _ _ _ Hok)).
  destruct (Z.leb_spec (pt_expires_at_slot tx) (ps_current_slot s0)) as [Hx|Hx].
  - pose proof (packing_expire _ _ _ _ _ _ Hok E Hx) as Hok'.
    edestruct IH as (s' & k' & expired' & Hr & Hok'' & Hc); [|exact Hok'|]; [cbn; lia|]. exists s', k', expired'.
    split_and!; [done..|]. intros Hw [????]. by apply Hc.
  - destruct (judge (set_queue q s) k tx) as [|conflicted|] eqn:Hj.
    + pose proof (packing_take _ _ _ _ _ _ Hok E Hx Hj) as Hok'.
      edestruct IH as (s' & k' & expired' & Hr & Hok'' & Hc); [|exact Hok'|]; [cbn; lia|]. exists s', k', expired'.
      split_and!; [done..|]. intros Hw Hco. apply Hc; [done|]. eapply costs_take; [done..| |done].
      pose proof (wl_queue _ Hw) as Hq. rewrite (po_split _ _ _ _ Hok), Hp, !Forall_app, Forall_cons in Hq. tauto.
    + pose proof (packing_defer _ _ _ _ _ _ conflicted Hok E) as Hok'.
      edestruct IH as (s' & k' & expired' & Hr & Hok'' & Hc); [|exact Hok'|]; [destruct conflicted; cbn; lia|].
      exists s', k', expired'. split_and!; [done..|]. intros Hw [????]. apply Hc; [done|]. by destruct conflicted.
    + exists (set_queue q s), (defer tx k), expired. split_and!; [done| |by intros _ []].
      exact (packing_defer _ _ _ _ _ _ false Hok E).
Qed.

(** [produce_microblock] returns at once, or runs the loop and puts back what it deferred. *)
Definition requeue (s : PackScheduler) (k : Packing) : PackScheduler :=
  set_queue (foldl TransactionQueue_insert (ps_queue s) (pk_deferred k)) s.

Lemma produce_cases s : PackScheduler_produce_microblock s = Done (None, s) ∨
  ∃ s1 k expired, packing_ok s s1 k expired ∧ (within_limits s → costs_ok s s1 k)
    ∧ ps_microblocks_this_block s < pc_max_microblocks_per_block (ps_config s)
    ∧ PackScheduler_produce_microblock s
      = if bool_decide (pk_transactions k = []) then Done (None, requeue s1 k) else emit (requeue s1 k) k.
Proof.
  unfold PackScheduler_produce_microblock. repeat (case_match; [by left|]). right.
  destruct (pack_loop_ok s (length (tq_heap (ps_queue s))) s (mkPacking [] 0 0 true []) [])
    as (s1 & k & expired & -> & Hok & Hc); [done|apply packing_start|].
  exists s1, k, expired. b2p. split_and!; [done| |done|done]. intros Hw. apply Hc; [done|].
  destruct Hw as [[] ? ? Ha ?]. split; unfold spent, total; cbn; try lia; intros a; specialize (Ha a); lia.
Qed.

(** ** Locks *)

Definition held (k : LockKind) (a : list Z) (locks : list AccountLock) : Z :=
  Z.of_nat (length (filter (.= mkAccountLock a k) locks)).
Definition lock_entry (w r : Z) : option (Z * Z) := if (w =? 0) && (r =? 0) then None else Some (w, r).
(** The table counts the locks. *)
Definition counts (m : gmap (list Z) (Z * Z)) (locks : list AccountLock) : Prop :=
  ∀ a, m !! a = lock_entry (held Write a locks) (held Read a locks).
Definition clash (l h : AccountLock) : Prop := al_account l = al_account h ∧ (al_kind l = Write ∨ al_kind h = Write).

#[export] Instance held_proper k a : Proper ((≡ₚ) ==> eq) (held k a).
Proof. intros l l' H. unfold held. by rewrite H. Qed.
#[export] Instance counts_proper m : Proper ((≡ₚ) ==> iff) (counts m).
Proof. intros l l' H. unfold counts. split; intros Hc a; rewrite Hc; by rewrite H. Qed.

Lemma held_cons k a l locks : held k a (l :: locks) = (if decide (l = mkAccountLock a k) then 1 else 0) + held k a locks.
Proof. unfold held. destruct (decide (l = mkAccountLock a k)); [rewrite filter_cons_True by done|rewrite filter_cons_False by done]; cbn; lia. Qed.
Lemma held_nonneg k a locks : 0 <= held k a locks <= Z.of_nat (length locks).
Proof. unfold held. pose proof (length_filter (.= mkAccountLock a k) locks). lia. Qed.
Lemma held_pos k a locks : 0 < held k a locks ↔ mkAccountLock a k ∈ locks.
Proof.
  unfold held. destruct (filter (.= mkAccountLock a k) locks) as [|x l] eqn:E; cbn.
  - split; [lia|]. intros H. assert (mkAccountLock a k ∈ filter (.= mkAccountLock a k) locks) as H' by (by apply list_elem_of_filter).
    rewrite E in H'. by apply elem_of_nil in H'.
  - split; [|lia]. intros _. assert (x ∈ filter (.= mkAccountLock a k) locks) as [-> ?]%list_elem_of_filter by (rewrite E; left). done.
Qed.
Lemma lock_entry_default w r : default (0, 0) (lock_entry w r) = (w, r).
Proof. unfold lock_entry. destruct (Z.eqb_spec w 0), (Z.eqb_spec r 0); subst; done. Qed.

Lemma acquire_counts m locks l : counts m locks → Z.of_nat (length locks) < u32_max → counts (acquire_lock m l) (l :: locks).
Proof.
  intros Hm Hb a. unfold acquire_lock. destruct l as [b k]. cbn. rewrite Hm, lock_entry_default, !held_cons.
  pose proof (held_nonneg Write b locks). pose proof (held_nonneg Read b locks).
  destruct (decide (a = b)) as [->|Hne].
  - rewrite lookup_insert_eq. unfold u32_add. destruct k;
      rewrite !wrap32_small by (unfold is_u32; lia); repeat (case_decide; simplify_eq; try done); unfold lock_entry;
      rewrite (proj2 (Z.eqb_neq (1 + _) 0)) by lia; rewrite ?andb_false_r; f_equal; f_equal; lia.
  - rewrite lookup_insert_ne, Hm by done. rewrite !decide_False by congruence. done.
Qed.
Lemma acquire_all m locks new : counts m locks → Z.of_nat (length locks) + Z.of_nat (length new) <= u32_max →
  counts (foldl acquire_lock m new) (new ++ locks).
Proof.
  revert m locks. induction new as [|l new IH]; intros m locks Hm Hb; [done|]. cbn [foldl length app] in *.
  rewrite Permutation_middle. apply IH; [apply acquire_counts; [done|lia]|cbn; lia].
Qed.

Lemma release_counts m locks l : counts m (l :: locks) → counts (release_lock m l) locks.
Proof.
  intros Hm a. unfold release_lock. destruct l as [b k]. cbn [al_account al_kind].
  pose proof (held_nonneg Write b locks). pose proof (held_nonneg Read b locks).
  pose proof (Hm a) as Ha. pose proof (Hm b) as Hb. rewrite !held_cons in Ha, Hb.
  destruct (decide (a = b)) as [->|Hne].
  - rewrite Hb. unfold lock_entry. unfold u64_saturating_sub.
    destruct k; repeat (case_decide; simplify_eq; try done);
      rewrite (proj2 (Z.eqb_neq (1 + _) 0)) by lia; rewrite ?andb_false_r; cbn [andb];
      rewrite ?Z.add_simpl_l, ?Z.add_0_l, !Z.max_l by lia;
      destruct (_ && _) eqn:E; rewrite ?lookup_delete_eq, ?lookup_insert_eq; done.
  - rewrite !decide_False in Ha by congruence. rewrite !Z.add_0_l in Ha. rewrite <- Ha.
    repeat case_match; rewrite ?lookup_delete_ne, ?lookup_insert_ne by done; done.
Qed.
Lemma release_all m locks old : counts m (old ++ locks) → counts (foldl release_lock m old) locks.
Proof. revert m. induction old as [|l old IH]; intros m Hm; [done|]. apply IH. by apply release_counts. Qed.

(** The check is exact. *)
Lemma lock_is_free_iff d locks l : counts (cd_locks d) locks → lock_is_free d l = true ↔ ∀ h, h ∈ locks → ¬ clash l h.
Proof.
  intros Hm. unfold lock_is_free. destruct l as [a k]. cbn. rewrite Hm.
  assert ((0 < held Write a locks ∨ (k = Write ∧ 0 < held Read a locks)) ↔ ∃ h, h ∈ locks ∧ clash (mkAccountLock a k) h) as Hiff.
  { rewrite !held_pos. split.
    - intros [?|[-> ?]]; eexists; (split; [eassumption|]); split; cbn; auto.
    - intros ([b kh] & Hin & [Ha Hk]). cbn in *. subst b. destruct kh; [|by left]. destruct Hk as [->|?]; [by right|done]. }
  pose proof (held_nonneg Write a locks). pose proof (held_nonneg Read a locks).
  transitivity (¬ (0 < held Write a locks ∨ (k = Write ∧ 0 < held Read a locks))); [|rewrite Hiff; naive_solver].
  unfold lock_entry. destruct (Z.eqb_spec (held Write a locks) 0), (Z.eqb_spec (held Read a locks) 0); cbn;
    [split; [intros _ [?|[_ ?]]; lia|done]|..]; destruct k; rewrite ?negb_true_iff, ?orb_false_iff, ?Z.ltb_ge;
    (split; [intros ? [?|[? ?]]; (done || lia)|intros Hn; try split; destruct (decide (0 < held Write a locks)); 
      destruct (decide (0 < held Read a locks)); first [lia|exfalso; apply Hn; auto]]).
Qed.
Lemma can_schedule_iff d locks new : counts (cd_locks d) locks →
  ConflictDetector_can_schedule d new = true ↔ ∀ l h, l ∈ new → h ∈ locks → ¬ clash l h.
Proof.
  intros Hm. unfold ConflictDetector_can_schedule. rewrite forallb_forall. split.
  - intros Hall l h Hl. apply (lock_is_free_iff d locks l Hm). apply Hall. by apply list_elem_of_In.
  - intros Hall l Hl. apply (lock_is_free_iff d locks l Hm). intros h. apply Hall. by apply list_elem_of_In.
Qed.

(** ** Microblocks in flight *)

Definition locks_of (m : Microblock) : list AccountLock := mb_transactions m ≫= build_lock_set.
Definition apart (m1 m2 : Microblock) : Prop := ∀ l h, l ∈ locks_of m1 → h ∈ locks_of m2 → ¬ clash l h.
Definition lock_count (l : list PackedTransaction) : nat := length (l ≫= build_lock_set).

Lemma apart_sym m1 m2 : apart m1 m2 → apart m2 m1.
Proof. intros H l h Hl Hh [Ha Hk]. apply (H h l Hh Hl). split; [done|tauto]. Qed.
Lemma lock_count_app l l' : lock_count (l ++ l') = (lock_count l + lock_count l')%nat.
Proof. unfold lock_count. by rewrite bind_app, length_app. Qed.
Lemma lock_count_cons tx l : lock_count (tx :: l) = (length (build_lock_set tx) + lock_count l)%nat.
Proof. unfold lock_count. by rewrite bind_cons, length_app. Qed.
Lemma lock_count_strip l l' : strip <$> l ≡ₚ strip <$> l' → lock_count l = lock_count l'.
Proof.
  intros H. assert (∀ l, lock_count (strip <$> l) = lock_count l) as Hs.
  { intros x. induction x as [|tx x IH]; [done|]. by rewrite fmap_cons, !lock_count_cons, IH. }
  rewrite <- (Hs l), <- (Hs l'). unfold lock_count. by rewrite H.
Qed.
#[export] Instance lock_count_proper : Proper ((≡ₚ) ==> eq) lock_count.
Proof. intros l l' H. unfold lock_count. by rewrite H. Qed.

Record tiles_ok (s : PackScheduler) : Prop := {
  to_some : (0 < length (ps_per_tile_inflight_cus s))%nat;
  to_map : ∀ id tile cus, ps_microblock_tile_map s !! id = Some (tile, cus) → (tile < length (ps_per_tile_inflight_cus s))%nat;
}.

Lemma select_ok s : tiles_ok s → ∃ tile load, select_target_tile s = Done tile ∧ ps_per_tile_inflight_cus s !! tile = Some load.
Proof.
  intros [Hl _]. unfold select_target_tile. destruct (ps_per_tile_inflight_cus s) as [|first rest]; [cbn in Hl; lia|].
  set (f := λ (best x : nat * Z), if x.2 <? best.2 then x else best).
  assert (∀ l best, (best.1 < S (length rest))%nat → Forall (λ x : nat * Z, (x.1 < S (length rest))%nat) l →
    ((foldl f best l).1 < S (length rest))%nat) as Hf.
  { induction l as [|x l IH]; intros best Hb Hall; [done|]. apply Forall_cons in Hall as [Hx Hall]. cbn.
    apply IH; [|done]. unfold f. by case_match. }
  destruct (lookup_lt_is_Some_2 (first :: rest) (foldl f (0%nat, first) (imap (λ i cus, (S i, cus)) rest)).1) as [load Hload].
  - apply Hf; [cbn; lia|]. apply Forall_forall. intros x Hx. apply elem_of_lookup_imap in Hx as (i & y & -> & Hi).
    apply lookup_lt_Some in Hi. cbn. lia.
  - by eexists _, load.
Qed.

(** The invariant of a run; [n] locks were submitted. *)
Record flight_ok (r : PackRun) (n : nat) : Prop := {
  fo_max : is_u64 (pc_max_microblocks_per_block (ps_config (pr_scheduler r)));
  fo_next : ps_next_microblock_id (pr_scheduler r) = ps_microblocks_this_block (pr_scheduler r);
  fo_range : 0 <= ps_microblocks_this_block (pr_scheduler r) <= pc_max_microblocks_per_block (ps_config (pr_scheduler r));
  fo_ids : NoDup (mb_id <$> pr_in_flight r);
  fo_old : Forall (λ m, mb_id m < ps_next_microblock_id (pr_scheduler r)) (pr_in_flight r);
  fo_table : ∀ id locks, cd_microblock_locks (ps_conflict_detector (pr_scheduler r)) !! id = Some locks
    ↔ ∃ m, m ∈ pr_in_flight r ∧ mb_id m = id ∧ locks = locks_of m;
  fo_counts : counts (cd_locks (ps_conflict_detector (pr_scheduler r))) (pr_in_flight r ≫= locks_of);
  fo_apart : ∀ m1 m2, m1 ∈ pr_in_flight r → m2 ∈ pr_in_flight r → m1 ≠ m2 → apart m1 m2;
  fo_size : (lock_count (tq_heap (ps_queue (pr_scheduler r))) + length (pr_in_flight r ≫= locks_of) <= n)%nat;
  fo_tiles : tiles_ok (pr_scheduler r);
}.

Lemma requeue_ok s0 s k expired : packing_ok s0 s k expired → ∃ q,
  requeue s k = set_queue q (set_detector (ps_conflict_detector s) (set_stats (ps_stats s) s0))
  ∧ strip <$> tq_heap (ps_queue s0) ≡ₚ (strip <$> pk_transactions k) ++ (strip <$> expired) ++ (strip <$> tq_heap q).
Proof.
  intros Hok. exists (foldl TransactionQueue_insert (ps_queue s) (pk_deferred k)). split.
  { pose proof (po_same _ _ _ _ Hok) as E. unfold requeue. clear Hok. destruct s, s0. cbn in *. by injection E as -> -> -> -> -> -> -> -> ->. }
  rewrite insert_all, (po_split _ _ _ _ Hok), !fmap_app. f_equiv.
  by rewrite !(assoc_L (++)), (comm (++) (strip <$> pk_deferred k) (strip <$> expired)).
Qed.

(** The loop leaves the locks alone. *)
Lemma flight_packed r n s k expired : flight_ok r n → packing_ok (pr_scheduler r) s k expired → ∀ block produced rebated,
  flight_ok (mkPackRun (requeue s k) (pr_in_flight r) block produced rebated) (n - lock_count (pk_transactions k))
  ∧ (lock_count (pk_transactions k) <= n)%nat.
Proof.
  intros [] Hok block produced rebated. destruct (requeue_ok _ _ _ _ Hok) as (q & E & Hp).
  rewrite <- !fmap_app in Hp. apply lock_count_strip in Hp. rewrite !lock_count_app in Hp. split; [|lia].
  split; cbn [pr_scheduler pr_in_flight]; rewrite ?E; cbn; rewrite ?(po_locks _ _ _ _ Hok), ?(po_microblocks _ _ _ _ Hok);
    try done; [lia|by destruct fo_tiles0].
Qed.

Lemma flight_emit r n k : flight_ok r n → Z.of_nat (n + lock_count (pk_transactions k)) <= u32_max →
  ps_microblocks_this_block (pr_scheduler r) < pc_max_microblocks_per_block (ps_config (pr_scheduler r)) →
  Forall (λ tx, ConflictDetector_can_schedule (ps_conflict_detector (pr_scheduler r)) (build_lock_set tx) = true) (pk_transactions k) →
  ∃ m s, emit (pr_scheduler r) k = Done (Some m, s) ∧ mb_transactions m = pk_transactions k ∧
    ∀ block produced rebated, flight_ok (mkPackRun s (pr_in_flight r ++ [m]) block produced rebated) (n + lock_count (pk_transactions k)).
Proof.
  intros [Hmax Hnext Hrange Hids Hold Htab Hcnt Hap Hsize Htiles] Hn Hlt Hfree.
  destruct (select_ok _ Htiles) as (tile & load & Esel & Eload).
  set (m := mkMicroblock (ps_next_microblock_id (pr_scheduler r)) tile (pk_transactions k) (pk_total_cu k) (pk_total_data k) (pk_all_votes k)).
  eexists m, _. split; [unfold emit; by rewrite Esel, Done_bind, Eload|]. split; [done|]. intros block produced rebated.
  assert (∀ m', m' ∈ pr_in_flight r → mb_id m' ≠ mb_id m) as Hnew.
  { intros m' Hm'. rewrite Forall_forall in Hold. specialize (Hold m' Hm'). cbn. lia. }
  assert (u64_add (ps_next_microblock_id (pr_scheduler r)) 1 = ps_next_microblock_id (pr_scheduler r) + 1
    ∧ u64_add (ps_microblocks_this_block (pr_scheduler r)) 1 = ps_next_microblock_id (pr_scheduler r) + 1) as [E1 E2].
  { unfold u64_add, is_u64 in *. rewrite !wrap64_small by (unfold is_u64; lia). lia. }
  assert (∀ m', m' ∈ pr_in_flight r → apart m m') as Hm.
  { intros m' Hm' l h (tx & Hl & Htx)%list_elem_of_bind Hh. rewrite Forall_forall in Hfree.
    eapply (can_schedule_iff _ _ _ Hcnt); [exact (Hfree tx Htx)|done|]. apply list_elem_of_bind. by exists m'. }
  split; cbn [pr_scheduler pr_in_flight]; cbn -[locks_of]; try (rewrite ?E1, ?E2; done || lia).
  - rewrite fmap_app. apply NoDup_app. split; [done|]. split; [|apply NoDup_singleton].
    intros id (m' & -> & Hm')%list_elem_of_fmap. cbn. intros Hin%list_elem_of_singleton. by apply (Hnew m').
  - rewrite E1. apply Forall_app. split; [eapply Forall_impl; [exact Hold|]; cbn; lia|]. constructor; [cbn; lia|done].
  - intros id locks. rewrite lookup_insert_Some, Htab. split.
    + intros [[<- <-]|[Hne (m' & Hm' & <- & ->)]]; [exists m|exists m']; set_solver.
    + intros (m' & [Hm'| ->%list_elem_of_singleton]%elem_of_app & <- & ->); [right|by left].
      split; [|by exists m']. intros Heq. by apply (Hnew m' Hm').
  - rewrite bind_app, (comm (++)). cbn. rewrite app_nil_r. apply acquire_all; [done|].
    unfold lock_count in *. lia.
  - intros m1 m2 [H1| ->%list_elem_of_singleton]%elem_of_app [H2| ->%list_elem_of_singleton]%elem_of_app Hne;
      [by apply Hap|by apply apart_sym, Hm|by apply Hm|done].
  - rewrite bind_app, length_app. cbn. rewrite app_nil_r. unfold lock_count in *. cbn. lia.
  - destruct Htiles as [H1 H2]. split; cbn; rewrite length_insert; [done|].
    intros id t cus [[_ [= <- <-]]|[_ ?]]%lookup_insert_Some; [by eapply lookup_lt_Some|by eapply H2].
Qed.

Lemma complete_ok s id : tiles_ok s → ∃ tiles m,
  PackScheduler_complete_microblock s id
  = Done (set_detector (ConflictDetector_release (ps_conflict_detector s) id) (set_tiles tiles m s)) ∧ tiles_ok (set_tiles tiles m s).
Proof.
  intros Ht. unfold PackScheduler_complete_microblock.
  destruct (ps_microblock_tile_map s !! id) as [[tile cus]|] eqn:E.
  - destruct (lookup_lt_is_Some_2 (ps_per_tile_inflight_cus s) tile) as [load ->]; [by eapply to_map|].
    eexists _, _. split; [done|]. destruct Ht as [H1 H2]. split; cbn; rewrite length_insert; [done|].
    intros id' t c [_ ?]%lookup_delete_Some. by eapply H2.
  - exists (ps_per_tile_inflight_cus s), (ps_microblock_tile_map s). split; [by destruct s|by destruct Ht].
Qed.

Lemma finish_split id l m : NoDup (mb_id <$> l) → m ∈ l → mb_id m = id → l ≡ₚ m :: finish id l.
Proof.
  intros Hnd Hm <-. apply list_elem_of_split in Hm as (l1 & l2 & ->). rewrite fmap_app, fmap_cons in Hnd.
  apply NoDup_app in Hnd as (_ & H1 & [H2 _]%NoDup_cons). unfold finish. rewrite filter_app, filter_cons_False by (by intros []).
  rewrite !list_filter_all; [symmetry; apply Permutation_middle|..]; apply Forall_forall; intros x Hx Heq.
  - apply H2. rewrite <- Heq. by apply list_elem_of_fmap_2.
  - apply (H1 (mb_id x)); [by apply list_elem_of_fmap_2|]. rewrite Heq. left.
Qed.

Lemma elem_of_finish id l m : m ∈ finish id l ↔ m ∈ l ∧ mb_id m ≠ id.
Proof. unfold finish. rewrite list_elem_of_filter. tauto. Qed.

Lemma finish_ids id l : NoDup (mb_id <$> l) → NoDup (mb_id <$> finish id l).
Proof.
  induction l as [|m l IH]; [done|]. rewrite fmap_cons, NoDup_cons. intros [Hm Hl]. unfold finish. rewrite filter_cons.
  case_decide; [|by apply IH]. rewrite fmap_cons, NoDup_cons. split; [|by apply IH].
  contradict Hm. apply list_elem_of_fmap in Hm as (m' & -> & [_ ?]%list_elem_of_filter). by apply list_elem_of_fmap_2.
Qed.

(** The locks of a completed microblock are given back. *)
Lemma flight_release r n id tiles m : flight_ok r n → tiles_ok (set_tiles tiles m (pr_scheduler r)) → ∀ block produced rebated,
  flight_ok (mkPackRun (set_detector (ConflictDetector_release (ps_conflict_detector (pr_scheduler r)) id)
                          (set_tiles tiles m (pr_scheduler r))) (finish id (pr_in_flight r)) block produced rebated) n.
Proof.
  intros [Hmax Hnext Hrange Hids Hold Htab Hcnt Hap Hsize _] Ht block produced rebated.
  pose proof (finish_ids id _ Hids) as Hids'.
  assert (∀ m', m' ∈ finish id (pr_in_flight r) → m' ∈ pr_in_flight r) as Hsub by (intros m'; rewrite elem_of_finish; tauto).
  unfold ConflictDetector_release.
  destruct (cd_microblock_locks (ps_conflict_detector (pr_scheduler r)) !! id) as [locks|] eqn:E.
  - apply Htab in E as (m0 & Hm0 & Hid & ->). pose proof (finish_split id _ m0 Hids Hm0 Hid) as Hsplit.
    split; cbn; try done.
    + rewrite Hsplit in Hold. apply Forall_cons in Hold; tauto.
    + intros id' locks. rewrite lookup_delete_Some, Htab. setoid_rewrite elem_of_finish. naive_solver.
    + apply release_all. rewrite Hsplit in Hcnt. exact Hcnt.
    + intros m1 m2 H1 H2. apply Hap; auto.
    + rewrite Hsplit, bind_cons, length_app in Hsize. lia.
    + by destruct Ht.
  - assert (finish id (pr_in_flight r) = pr_in_flight r) as ->.
    { apply list_filter_all, Forall_forall. intros m' Hm' <-. assert (is_Some (cd_microblock_locks
        (ps_conflict_detector (pr_scheduler r)) !! mb_id m')) as [? ?] by (eexists; apply Htab; eauto). congruence. }
    split; cbn; try done; by destruct Ht.
Qed.

Definition op_locks (op : PackOp) : nat := match op with Submit tx => length (build_lock_set tx) | _ => 0%nat end.
Definition run_locks (ops : list PackOp) : nat := sum_list_with op_locks ops.

Lemma new_block_ok s slot : ∃ q, PackScheduler_new_block s slot
    = Done (mkPackScheduler (ps_config s) q (ConflictDetector_reset (ps_conflict_detector s)) 0 0 0 0 0 slot
        (stat_add blocks_completed 1 (stat_add transactions_expired
           (Z.of_nat (length (filter (λ tx, ¬ slot < pt_expires_at_slot tx) (tq_heap (ps_queue s))))) (ps_stats s)))
        (replicate (length (ps_per_tile_inflight_cus s)) 0) ∅)
  ∧ tq_heap q ≡ₚ filter (λ tx, slot < pt_expires_at_slot tx) (tq_heap (ps_queue s)).
Proof.
  unfold PackScheduler_new_block, TransactionQueue_drain_expired.
  destruct (drain_ok slot (length (tq_heap (ps_queue s))) [] (ps_queue s) ltac:(done)) as (remaining & q & -> & Hr).
  rewrite !Done_bind. eexists (mkTransactionQueue remaining _ _ _). split; [|exact Hr].
  assert (Nat.sub (length (tq_heap (ps_queue s))) (length remaining)
    = length (filter (λ tx, ¬ slot < pt_expires_at_slot tx) (tq_heap (ps_queue s)))) as ->; [|done].
  rewrite (Permutation_length Hr). cbn.
  pose proof (Permutation_length (filter_app_complement (λ tx, slot < pt_expires_at_slot tx) (tq_heap (ps_queue s)))) as Hl.
  rewrite length_app in Hl. lia.
Qed.

Lemma flight_step r n op : flight_ok r n → Z.of_nat (n + op_locks op) <= u32_max →
  ∃ r', pack_step r op = Done r' ∧ flight_ok r' (n + op_locks op).
Proof.
  intros Hok Hn. destruct op as [tx| |id|id rebate|slot]; cbn [pack_step op_locks] in *; rewrite ?Nat.add_0_r in *.
  - eexists. split; [done|]. destruct Hok. split; cbn -[lock_count build_lock_set]; try done; [|by destruct fo_tiles0].
    rewrite lock_count_cons. change (build_lock_set (set_insertion_order ?n tx)) with (build_lock_set tx). lia.
  - destruct (produce_cases (pr_scheduler r)) as [->|(s1 & k & expired & Hp & _ & Hlt & ->)].
    + rewrite Done_bind. eexists. split; [done|]. cbn. rewrite !app_nil_r. by destruct Hok.
    + destruct (flight_packed r n s1 k expired Hok Hp [] [] 0) as [Hf Hle].
      destruct (requeue_ok _ _ _ _ Hp) as (q & Eq & _).
      case_bool_decide as Hnil; [rewrite Done_bind; eexists; split; [done|]|].
      * rewrite Hnil in *. rewrite Nat.sub_0_r in Hf. destruct Hf. cbn in *. rewrite !app_nil_r. by split.
      * destruct (flight_emit _ _ k Hf) as (m & s & E & _ & Hfl).
        -- lia.
        -- cbn [pr_scheduler]. by rewrite Eq.
        -- cbn [pr_scheduler]. eapply Forall_impl; [exact (po_free _ _ _ _ Hp)|]. intros tx <-. apply can_schedule_same.
           rewrite Eq. exact (po_locks _ _ _ _ Hp).
        -- cbn [pr_scheduler pr_in_flight] in *. rewrite E, Done_bind. eexists. split; [done|].
           rewrite Nat.sub_add in Hfl by done. apply Hfl.
  - destruct (complete_ok (pr_scheduler r) id (fo_tiles _ _ Hok)) as (tiles & m & -> & Ht). rewrite Done_bind.
    eexists. split; [done|]. by apply flight_release.
  - unfold PackScheduler_complete_microblock_with_rebate. set (s := if 0 <? _ then _ else pr_scheduler r).
    assert (flight_ok (mkPackRun s (pr_in_flight r) [] [] 0) n) as Hs.
    { destruct Hok. unfold s. case_match; split; cbn; try done; by destruct fo_tiles0. }
    destruct (complete_ok s id (fo_tiles _ _ Hs)) as (tiles & m & -> & Ht). rewrite Done_bind.
    eexists. split; [done|]. exact (flight_release _ n id tiles m Hs Ht _ _ _).
  - destruct (new_block_ok (pr_scheduler r) slot) as (q & -> & Hq). rewrite Done_bind. eexists. split; [done|].
    destruct Hok. split; cbn; try done.
    + unfold is_u64 in *. lia.
    + constructor.
    + intros id locks. split; [done|]. by intros (? & ?%elem_of_nil & _).
    + by intros ? ? ?%elem_of_nil.
    + rewrite Hq. pose proof (f_equal id (lock_count_proper _ _ (filter_app_complement (λ tx, slot < pt_expires_at_slot tx)
        (tq_heap (ps_queue (pr_scheduler r)))))) as Hl. cbn in Hl. rewrite lock_count_app in Hl. lia.
    + destruct fo_tiles0. split; cbn; [by rewrite length_replicate|done].
Qed.

(** ** What a microblock holds *)

Definition txs_of (x : option Microblock) : list PackedTransaction := match x with Some m => mb_transactions m | None => [] end.

Record produced_ok (s : PackScheduler) (x : option Microblock) (s' : PackScheduler) (expired : list PackedTransaction) : Prop := {
  pd_tiles : tiles_ok s → tiles_ok s';
  pd_config : ps_config s' = ps_config s;
  pd_slot : ps_current_slot s' = ps_current_slot s;
  pd_split : strip <$> tq_heap (ps_queue s) ≡ₚ (strip <$> txs_of x) ++ (strip <$> expired) ++ (strip <$> tq_heap (ps_queue s'));
  pd_expired : Forall (λ tx, pt_expires_at_slot tx <= ps_current_slot s) expired;
  pd_count : wrap64 (ps_stats s' transactions_expired) = wrap64 (ps_stats s transactions_expired + Z.of_nat (length expired));
  pd_fresh : Forall (λ tx, ps_current_slot s < pt_expires_at_slot tx) (txs_of x);
  pd_few : (length (txs_of x) <= pc_max_txns_per_microblock (ps_config s))%nat;
  pd_sorted : StronglySorted before (txs_of x);
  pd_limits : within_limits s → within_limits s' ∧ ps_block_cost_units s' = ps_block_cost_units s + total cost (txs_of x)
    ∧ (∀ a, write_cost (ps_conflict_detector s') a = write_cost (ps_conflict_detector s) a + spent a (txs_of x))
    ∧ ∀ m, x = Some m → mb_total_compute_units m = total cost (mb_transactions m)
                        ∧ total cost (mb_transactions m) <= pc_max_cus_per_microblock (ps_config s);
}.

Lemma typed_strip l l' : strip <$> l ≡ₚ strip <$> l' → Forall tx_typed l → Forall tx_typed l'.
Proof.
  intros Hp Hl. assert (Forall tx_typed (strip <$> l')) as Hl' by (rewrite <- Hp; by apply Forall_fmap).
  exact (proj1 (Forall_fmap _ _ _) Hl').
Qed.

(** The microblock is sent out: what changes is within the limits. *)
Lemma packed_limits s0 s k expired (d : ConflictDetector) cost_units :
  within_limits s0 → packing_ok s0 s k expired → costs_ok s0 s k →
  cd_write_cost_per_account d = cd_write_cost_per_account (ps_conflict_detector s) →
  cd_max_write_cost_per_account d = cd_max_write_cost_per_account (ps_conflict_detector s) →
  0 <= cost_units <= pl_max_cost_per_block (pc_limits (ps_config s0)) → ∀ s',
  ps_config s' = ps_config s0 → ps_conflict_detector s' = d → ps_block_cost_units s' = cost_units →
  ps_queue s' = ps_queue (requeue s k) →
  within_limits s' ∧ ∀ a, write_cost (ps_conflict_detector s') a = write_cost (ps_conflict_detector s0) a + spent a (pk_transactions k).
Proof.
  intros Hw Hok Hc Hd Hm Hcost s' Ec Ed Eb Eq. destruct (requeue_ok _ _ _ _ Hok) as (q & Erq & Hp).
  assert (∀ a, write_cost d a = write_cost (ps_conflict_detector s) a) as Hwc by (intros a; unfold write_cost; by rewrite Hd).
  destruct Hw as [Hcfg Hmax _ _ Hq]. split; [|intros a; rewrite Ed, Hwc; apply (co_spent _ _ _ Hc)].
  split; rewrite ?Ec, ?Ed, ?Eb; try done.
  - by rewrite Hm, (po_limit _ _ _ _ Hok).
  - intros a. rewrite Hwc, <- Hmax. apply (co_account _ _ _ Hc).
  - rewrite Eq, Erq. cbn. rewrite <- !fmap_app in Hp. apply typed_strip in Hp; [|done]. rewrite !Forall_app in Hp. tauto.
Qed.

Lemma produce_ok s : tiles_ok s → ∃ x s' expired,
  PackScheduler_produce_microblock s = Done (x, s') ∧ produced_ok s x s' expired.
Proof.
  intros Ht. destruct (produce_cases s) as [->|(s1 & k & expired & Hok & Hc & _ & ->)].
  - exists None, s, []. split; [done|]. split; cbn; try done; [f_equal; lia|lia|constructor|].
    intros Hw. split_and!; [done|unfold total; cbn; lia|intros a; unfold spent, total; cbn; lia|done].
  - destruct (requeue_ok _ _ _ _ Hok) as (q & E & Hp). pose proof (po_count _ _ _ _ Hok) as Hcount.
    case_bool_decide as Hnil.
    + exists None, (requeue s1 k), expired. split; [done|].
      rewrite Hnil in Hp. split; rewrite ?E; cbn; try done; [by destruct Ht|by destruct Hok|lia|constructor|].
      intros Hw. specialize (Hc Hw). rewrite <- E. pose proof (co_spent _ _ _ Hc) as Hs. rewrite Hnil in Hs. split_and!.
      * eapply (packed_limits s s1 k expired (ps_conflict_detector s1) (ps_block_cost_units s)); try done;
          [by destruct Hw|by rewrite E..].
      * rewrite ?E. unfold total. cbn. lia.
      * rewrite ?E. exact Hs.
      * done.
    + assert (tiles_ok (requeue s1 k)) as Ht' by (rewrite E; by destruct Ht).
      destruct (select_ok _ Ht') as (tile & load & Esel & Eload). unfold emit. rewrite Esel, Done_bind, Eload.
      eexists (Some _), _, expired. split; [done|]. rewrite E. split; cbn; try done; try (by destruct Hok).
      * intros _. rewrite E in Eload. cbn in Eload. destruct Ht as [H1 H2]. split; cbn; rewrite length_insert; [done|].
        intros id t cus [[_ [= <- <-]]|[_ ?]]%lookup_insert_Some; [by eapply lookup_lt_Some|by eapply H2].
      * intros Hw. specialize (Hc Hw). destruct (wl_config _ Hw) as [_ _ Hmax _]. pose proof (wl_cost _ Hw).
        pose proof (co_block _ _ _ Hc). pose proof (co_microblock _ _ _ Hc).
        assert (u64_add (ps_block_cost_units s) (pk_total_cu k) = ps_block_cost_units s + pk_total_cu k) as Eadd
          by (apply wrap64_small; unfold is_u64; lia).
        match goal with |- within_limits ?s' ∧ _ =>
          destruct (packed_limits s s1 k expired (ps_conflict_detector s') (ps_block_cost_units s + pk_total_cu k) Hw Hok Hc
            eq_refl eq_refl ltac:(lia) s' eq_refl eq_refl Eadd (f_equal ps_queue (eq_sym E))) as [Hl Hs]
        end.
        split_and!; [exact Hl| |exact Hs|].
        -- rewrite Eadd. f_equal. apply (co_total _ _ _ Hc).
        -- intros m [= <-]. cbn [mb_total_compute_units mb_transactions]. rewrite <- (co_total _ _ _ Hc). split; [done|lia].
Qed.

(** ** Runs *)

Definition op_txs (op : PackOp) : list PackedTransaction := match op with Submit tx => [tx] | _ => [] end.
Definition op_slots (op : PackOp) : list Z := match op with NewBlock slot => [slot] | _ => [] end.
Definition op_typed (op : PackOp) : Prop := Forall tx_typed (op_txs op).
Definition microblock_txs (l : list Microblock) : list PackedTransaction := l ≫= mb_transactions.

(** [slots]: the slots of the run so far. *)
Record account_ok (c : PackConfig) (r : PackRun) (submitted expired : list PackedTransaction) (slots : list Z) : Prop := {
  ao_tiles : tiles_ok (pr_scheduler r);
  ao_config : ps_config (pr_scheduler r) = c;
  ao_split : strip <$> submitted ≡ₚ
    (strip <$> tq_heap (ps_queue (pr_scheduler r))) ++ (strip <$> microblock_txs (pr_produced r)) ++ (strip <$> expired);
  ao_slot : ps_current_slot (pr_scheduler r) ∈ slots;
  ao_expired : Forall (λ tx, ∃ slot, slot ∈ slots ∧ pt_expires_at_slot tx <= slot) expired;
  ao_count : wrap64 (ps_stats (pr_scheduler r) transactions_expired) = wrap64 (Z.of_nat (length expired));
  ao_microblocks : Forall (λ m, (length (mb_transactions m) <= pc_max_txns_per_microblock c)%nat
                                ∧ StronglySorted before (mb_transactions m)) (pr_produced r);
}.

Record limits_ok (r : PackRun) : Prop := {
  lo_within : within_limits (pr_scheduler r);
  lo_rebated : 0 <= pr_rebated r;
  lo_block : total cost (microblock_txs (pr_block r)) <= ps_block_cost_units (pr_scheduler r) + pr_rebated r;
  lo_spent : ∀ a, write_cost (ps_conflict_detector (pr_scheduler r)) a = spent a (microblock_txs (pr_block r));
  lo_fresh : Forall (λ tx, ps_current_slot (pr_scheduler r) < pt_expires_at_slot tx) (microblock_txs (pr_block r));
  lo_microblocks : Forall (λ m, mb_total_compute_units m = total cost (mb_transactions m)
    ∧ total cost (mb_transactions m) <= pc_max_cus_per_microblock (ps_config (pr_scheduler r))) (pr_produced r);
}.

Lemma microblock_txs_snoc l x : microblock_txs (l ++ option_list x) = microblock_txs l ++ txs_of x.
Proof. unfold microblock_txs. rewrite bind_app. f_equal. destruct x; cbn; by rewrite ?app_nil_r. Qed.

Lemma account_produce c r submitted expired slots x s new : account_ok c r submitted expired slots → produced_ok (pr_scheduler r) x s new →
  ∀ in_flight block rebated,
  account_ok c (mkPackRun s in_flight block (pr_produced r ++ option_list x) rebated) submitted (expired ++ new) slots.
Proof.
  intros [Ht Hc Hsp Hsl Hex Hn Hm] Hp in_flight block rebated. split; cbn [pr_scheduler pr_produced].
  - by apply (pd_tiles _ _ _ _ Hp).
  - by rewrite (pd_config _ _ _ _ Hp).
  - rewrite Hsp, (pd_split _ _ _ _ Hp), microblock_txs_snoc, !fmap_app. solve_Permutation.
  - by rewrite (pd_slot _ _ _ _ Hp).
  - apply Forall_app. split; [done|]. eapply Forall_impl; [exact (pd_expired _ _ _ _ Hp)|]. intros tx Hx. by eexists.
  - rewrite (pd_count _ _ _ _ Hp), length_app. unfold wrap64 in *. rewrite <- Zplus_mod_idemp_l, Hn, Zplus_mod_idemp_l. f_equal. lia.
  - apply Forall_app. split; [done|]. destruct x as [m|]; [|constructor]. constructor; [|done]. rewrite <- Hc.
    split; [apply (pd_few _ _ _ _ Hp)|apply (pd_sorted _ _ _ _ Hp)].
Qed.

Lemma limits_produce r x s new : limits_ok r → produced_ok (pr_scheduler r) x s new → ∀ in_flight,
  limits_ok (mkPackRun s in_flight (pr_block r ++ option_list x) (pr_produced r ++ option_list x) (pr_rebated r)).
Proof.
  intros [Hw Hr Hb Hsp Hf Hm] Hp in_flight. destruct (pd_limits _ _ _ _ Hp Hw) as (Hw' & Hcost & Hs & Hx).
  split; cbn [pr_scheduler pr_block pr_produced pr_rebated]; rewrite ?microblock_txs_snoc; try done.
  - rewrite total_app, Hcost. lia.
  - intros a. unfold spent. rewrite total_app, Hs, Hsp. done.
  - rewrite (pd_slot _ _ _ _ Hp). apply Forall_app. split; [done|apply (pd_fresh _ _ _ _ Hp)].
  - rewrite (pd_config _ _ _ _ Hp). apply Forall_app. split; [done|]. destruct x as [m|]; [|constructor].
    constructor; [by apply Hx|done].
Qed.

Lemma release_costs d id :
  cd_write_cost_per_account (ConflictDetector_release d id) = cd_write_cost_per_account d
  ∧ cd_max_write_cost_per_account (ConflictDetector_release d id) = cd_max_write_cost_per_account d.
Proof. unfold ConflictDetector_release. by case_match. Qed.

(** What a completed microblock leaves as it is. *)
Lemma account_release c r submitted expired slots id tiles m :
  account_ok c r submitted expired slots → tiles_ok (set_tiles tiles m (pr_scheduler r)) → ∀ in_flight rebated,
  account_ok c (mkPackRun (set_detector (ConflictDetector_release (ps_conflict_detector (pr_scheduler r)) id)
                             (set_tiles tiles m (pr_scheduler r))) in_flight (pr_block r) (pr_produced r) rebated) submitted expired slots.
Proof. intros [] [] in_flight rebated. by split. Qed.
Lemma limits_release r id tiles m : limits_ok r → ∀ in_flight,
  limits_ok (mkPackRun (set_detector (ConflictDetector_release (ps_conflict_detector (pr_scheduler r)) id)
                          (set_tiles tiles m (pr_scheduler r))) in_flight (pr_block r) (pr_produced r) (pr_rebated r)).
Proof.
  intros [[]] in_flight. destruct (release_costs (ps_conflict_detector (pr_scheduler r)) id) as [E1 E2].
  split; cbn; try done; [split; cbn; try done|]; unfold write_cost in *; rewrite ?E1, ?E2; done.
Qed.

Lemma account_new_block c r submitted expired slots slot : account_ok c r submitted expired slots →
  ∃ r' new, pack_step r (NewBlock slot) = Done r' ∧ account_ok c r' submitted (expired ++ new) (slots ++ [slot])
    ∧ (limits_ok r → limits_ok r').
Proof.
  intros Hok. cbn [pack_step]. destruct (new_block_ok (pr_scheduler r) slot) as (q & -> & Hq). rewrite Done_bind.
  eexists _, (filter (λ tx, ¬ slot < pt_expires_at_slot tx) (tq_heap (ps_queue (pr_scheduler r)))). split; [done|].
  pose proof (filter_app_complement (λ tx, slot < pt_expires_at_slot tx) (tq_heap (ps_queue (pr_scheduler r)))) as Hsp.
  split.
  - destruct Hok. split; cbn; try done.
    + destruct ao_tiles0. split; cbn; [by rewrite length_replicate|done].
    + rewrite ao_split0, Hq, <- Hsp, !fmap_app at 1. solve_Permutation.
    + apply elem_of_app. right. left.
    + apply Forall_app. split.
      * eapply Forall_impl; [exact ao_expired0|]. intros tx (x & ? & ?). exists x. split; [apply elem_of_app; by left|done].
      * apply Forall_forall. intros tx [Hx _]%list_elem_of_filter. exists slot. split; [apply elem_of_app; right; left|lia].
    + unfold stat_add, stat_store.
      rewrite (decide_False (P := transactions_expired = blocks_completed)), decide_True, length_app by done.
      unfold u64_add, wrap64 in *. rewrite Zmod_mod, <- Zplus_mod_idemp_l, ao_count0, Zplus_mod_idemp_l. f_equal. lia.
  - intros [[]]. split; cbn; try done. rewrite <- Hsp, Forall_app in wl_queue0.
    pose proof (ct_cost _ wl_config0). pose proof (ct_write _ wl_config0).
    split; cbn; try done; try lia; [intros a; unfold write_cost; cbn; rewrite lookup_empty; cbn; lia|rewrite Hq; tauto].
Qed.

Lemma account_rebate c r submitted expired slots id rebate : account_ok c r submitted expired slots →
  ∃ r', pack_step r (CompleteWithRebate id rebate) = Done r' ∧ account_ok c r' submitted expired slots ∧ (limits_ok r → limits_ok r').
Proof.
  intros Hok. cbn [pack_step]. unfold PackScheduler_complete_microblock_with_rebate.
  set (s := if 0 <? _ then _ else pr_scheduler r). set (amount := u64_saturating_sub _ _) in *.
  set (r0 := mkPackRun s (pr_in_flight r) (pr_block r) (pr_produced r) (pr_rebated r + amount)).
  assert (account_ok c r0 submitted expired slots) as Hs.
  { destruct Hok. unfold r0, s. case_match; split; cbn; try done; by destruct ao_tiles0. }
  destruct (complete_ok s id (ao_tiles _ _ _ _ _ Hs)) as (tiles & m & -> & Ht). rewrite Done_bind.
  eexists. split; [done|]. split; [exact (account_release _ _ _ _ _ id tiles m Hs Ht _ _)|].
  intros Hl. apply (limits_release r0). destruct Hl as [[]]. unfold r0, s.
  assert (0 <= amount) by (subst amount; unfold u64_saturating_sub; lia).
  destruct (Z.ltb_spec 0 amount); split; cbn -[total microblock_txs]; try done; try lia; try (split; cbn; try done);
    unfold u64_saturating_sub; lia.
Qed.

Lemma run_step c r submitted expired slots op : account_ok c r submitted expired slots →
  ∃ r' new, pack_step r op = Done r' ∧ account_ok c r' (submitted ++ op_txs op) (expired ++ new) (slots ++ op_slots op)
    ∧ (limits_ok r → op_typed op → limits_ok r').
Proof.
  intros Hok. destruct op as [tx| |id|id rebate|slot]; cbn [op_txs op_slots]; rewrite ?(app_nil_r submitted), ?(app_nil_r slots).
  - eexists _, []. split; [done|]. rewrite app_nil_r. split.
    + destruct Hok. split; cbn; try done; [by destruct ao_tiles0|]. rewrite fmap_app, ao_split0. cbn. solve_Permutation.
    + intros [[]] Ht. split; cbn; try done. split; cbn; try done. constructor; [|done]. exact (proj1 (Forall_singleton _ _) Ht).
  - cbn [pack_step]. destruct (produce_ok (pr_scheduler r) (ao_tiles _ _ _ _ _ Hok)) as (x & s & new & -> & Hp). rewrite Done_bind.
    eexists _, new. split; [done|]. split; [by apply account_produce|]. intros Hl _. by eapply limits_produce.
  - cbn [pack_step]. destruct (complete_ok (pr_scheduler r) id (ao_tiles _ _ _ _ _ Hok)) as (tiles & m & -> & Ht). rewrite Done_bind.
    eexists _, []. rewrite app_nil_r. split; [done|]. split; [by apply account_release|]. intros Hl _. by apply limits_release.
  - destruct (account_rebate _ _ _ _ _ id rebate Hok) as (r' & E & Ha & Hl). exists r', []. rewrite app_nil_r. auto.
  - destruct (account_new_block _ _ _ _ _ slot Hok) as (r' & new & E & Ha & Hl). exists r', new. auto.
Qed.

Lemma run_account c ops : ∀ r submitted expired slots, account_ok c r submitted expired slots →
  ∃ r' new, for_each pack_step r ops = Done r' ∧ account_ok c r' (submitted ++ (ops ≫= op_txs)) (expired ++ new) (slots ++ (ops ≫= op_slots))
    ∧ (limits_ok r → Forall op_typed ops → limits_ok r').
Proof.
  induction ops as [|op ops IH]; intros r submitted expired slots Hok; cbn [for_each].
  - exists r, []. by rewrite !app_nil_r.
  - destruct (run_step _ _ _ _ _ op Hok) as (r1 & new1 & -> & Hok1 & Hl1). rewrite Done_bind.
    destruct (IH _ _ _ _ Hok1) as (r2 & new2 & -> & Hok2 & Hl2). exists r2, (new1 ++ new2).
    rewrite !bind_cons. rewrite <- !(assoc_L (++)) in Hok2. split_and!; [done|done|]. intros Hl [? ?]%Forall_cons. auto.
Qed.

Lemma account_start c : account_ok c (mkPackRun (PackScheduler_with_config c) [] [] [] 0) [] [] [0].
Proof. split; cbn; try done; [split; cbn; [rewrite length_replicate; lia|done]|left]. Qed.
Lemma limits_start c : config_typed c → limits_ok (mkPackRun (PackScheduler_with_config c) [] [] [] 0).
Proof.
  intros Hc. pose proof (ct_cost _ Hc). pose proof (ct_write _ Hc). split; cbn; try done; [].
  split; cbn; try done; try lia. intros a. unfold write_cost. cbn. rewrite lookup_empty. cbn. lia.
Qed.

(** ** Theorems *)

(** Neither transaction writes an account that the other one uses. *)
Definition independent (t1 t2 : PackedTransaction) : Prop :=
  ∀ a, (a ∈ pt_write_accounts t1 → (a ∉ pt_write_accounts t2) ∧ a ∉ pt_read_accounts t2)
     ∧ (a ∈ pt_read_accounts t1 → a ∉ pt_write_accounts t2).

Lemma elem_of_lock_set tx a k :
  mkAccountLock a k ∈ build_lock_set tx ↔ a ∈ match k with Write => pt_write_accounts tx | Read => pt_read_accounts tx end.
Proof.
  unfold build_lock_set. rewrite elem_of_app, !list_elem_of_fmap. destruct k; naive_solver.
Qed.
Lemma independent_iff t1 t2 : (∀ l h, l ∈ build_lock_set t1 → h ∈ build_lock_set t2 → ¬ clash l h) ↔ independent t1 t2.
Proof.
  split.
  - intros H a. pose proof (λ k1 k2, H (mkAccountLock a k1) (mkAccountLock a k2)) as Ha. unfold clash in Ha.
    setoid_rewrite elem_of_lock_set in Ha. cbn in Ha.
    pose proof (Ha Write Write). pose proof (Ha Write Read). pose proof (Ha Read Write). cbn in *. naive_solver.
  - intros H [a1 k1] [a2 k2] H1 H2 [E Hk]. cbn in E, Hk. subst a2. rewrite elem_of_lock_set in *.
    specialize (H a1). destruct k1, k2; naive_solver.
Qed.

Lemma flight_start c : is_u64 (pc_max_microblocks_per_block c) →
  flight_ok (mkPackRun (PackScheduler_with_config c) [] [] [] 0) 0.
Proof.
  intros Hc. split; cbn; try done.
  - unfold is_u64 in Hc. lia.
  - constructor.
  - intros id locks. split; [done|]. by intros (? & ?%elem_of_nil & _).
  - by intros ? ? ?%elem_of_nil.
  - split; cbn; [rewrite length_replicate; lia|done].
Qed.
Lemma flight_run ops : ∀ r n, flight_ok r n → Z.of_nat (n + run_locks ops) <= u32_max →
  ∃ r', for_each pack_step r ops = Done r' ∧ flight_ok r' (n + run_locks ops).
Proof.
  induction ops as [|op ops IH]; intros r n Hok Hn; cbn [for_each].
  - exists r. by rewrite Nat.add_0_r.
  - unfold run_locks in *. cbn [sum_list_with] in *. destruct (flight_step r n op Hok) as (r1 & -> & Hok1); [lia|].
    rewrite Done_bind, Nat.add_assoc. apply IH; [done|lia].
Qed.

(** C8. Microblocks in flight do not conflict.  In every run of the scheduler, no two microblocks
    that are in flight hold transactions of which one writes an account that the other reads
    or writes; and the check for conflicts is exact: a transaction can be scheduled if and only
    if it is independent of all the transactions in flight.  (At most 2^32 - 1 locks are
    submitted, so that no counter of locks overflows.) *)
Theorem in_flight_microblocks_independent config ops :
  is_u64 (pc_max_microblocks_per_block config) → Z.of_nat (run_locks ops) <= u32_max →
  ∃ r, pack_run config ops = Done r ∧
    (∀ i j m1 m2 t1 t2, pr_in_flight r !! i = Some m1 → pr_in_flight r !! j = Some m2 → i ≠ j →
       t1 ∈ mb_transactions m1 → t2 ∈ mb_transactions m2 → independent t1 t2) ∧
    (∀ tx, ConflictDetector_can_schedule (ps_conflict_detector (pr_scheduler r)) (build_lock_set tx) = true ↔
       ∀ m t, m ∈ pr_in_flight r → t ∈ mb_transactions m → independent tx t).
Proof.
  intros Hc Hn. destruct (flight_run ops _ 0 (flight_start config Hc) Hn) as (r & E & Hok). exists r. split; [exact E|]. split.
  - intros i j m1 m2 t1 t2 H1 H2 Hij Ht1 Ht2. apply independent_iff. intros l h Hl Hh.
    assert (m1 ≠ m2) as Hne.
    { intros ->. apply Hij. eapply (NoDup_lookup _ i j (mb_id m2)); [exact (fo_ids _ _ Hok)|..]; by rewrite list_lookup_fmap, ?H1, ?H2. }
    eapply (fo_apart _ _ Hok m1 m2); [by eapply list_elem_of_lookup_2..|done| |];
      apply list_elem_of_bind; eauto.
  - intros tx. rewrite (can_schedule_iff _ _ _ (fo_counts _ _ Hok)). setoid_rewrite <- independent_iff.
    setoid_rewrite list_elem_of_bind. split.
    + intros H m t Hm Ht l h Hl Hh. apply (H l h Hl). exists m. split; [|done]. apply list_elem_of_bind. by exists t.
    + intros H l h Hl (m & (t & Hh & Ht)%list_elem_of_bind & Hm). by eapply H.
Qed.

(** C9. A block stays within its limits.  For transactions that name no account to write twice,
    in every run: the costs of the transactions of the current block are at most the limit of
    the block and what was rebated; those of the transactions that write an account at most
    the limit of an account; none had expired; and every microblock has at most the number of
    transactions and the cost configured, and its total is the sum of the costs. *)
Theorem blocks_within_limits config ops :
  config_typed config → Forall op_typed ops →
  ∃ r, pack_run config ops = Done r ∧
    total cost (microblock_txs (pr_block r)) <= pl_max_cost_per_block (pc_limits config) + pr_rebated r ∧
    (∀ a, spent a (microblock_txs (pr_block r)) <= pl_max_write_cost_per_account (pc_limits config)) ∧
    Forall (λ tx, ps_current_slot (pr_scheduler r) < pt_expires_at_slot tx) (microblock_txs (pr_block r)) ∧
    Forall (λ m, (length (mb_transactions m) <= pc_max_txns_per_microblock config)%nat
                 ∧ mb_total_compute_units m = total cost (mb_transactions m)
                 ∧ mb_total_compute_units m <= pc_max_cus_per_microblock config) (pr_produced r).
Proof.
  intros Hc Ht. destruct (run_account config ops _ _ _ _ (account_start config)) as (r & new & E & Ha & Hl).
  specialize (Hl (limits_start config Hc) Ht). exists r. split; [exact E|].
  destruct Hl as [Hw Hr Hb Hs Hf Hm]. destruct Hw as [_ _ Hcost Hacc _]. rewrite (ao_config _ _ _ _ _ Ha) in *. split_and!.
  - lia.
  - intros a. rewrite <- Hs. apply Hacc.
  - done.
  - apply Forall_forall. intros m Hin. rewrite Forall_forall in Hm. destruct (Hm m Hin) as [-> Hle].
    pose proof (ao_microblocks _ _ _ _ _ Ha) as Hall. rewrite Forall_forall in Hall. destruct (Hall m Hin). done.
Qed.

(** C17. No transaction is lost or packed twice.  Every run of the scheduler returns; the
    transactions that were submitted are those in the queue, those of the microblocks, and
    some that had expired by a slot of the run, which [transactions_expired] counts; and every
    microblock lists its transactions in the order of their priority. *)
Theorem transactions_are_conserved config ops : ∃ r expired,
  pack_run config ops = Done r ∧
  strip <$> (ops ≫= op_txs) ≡ₚ
    (strip <$> tq_heap (ps_queue (pr_scheduler r))) ++ (strip <$> microblock_txs (pr_produced r)) ++ (strip <$> expired) ∧
  Forall (λ tx, ∃ slot, slot ∈ 0 :: (ops ≫= op_slots) ∧ pt_expires_at_slot tx <= slot) expired ∧
  wrap64 (ps_stats (pr_scheduler r) transactions_expired) = wrap64 (Z.of_nat (length expired)) ∧
  Forall (λ m, StronglySorted before (mb_transactions m)) (pr_produced r).
Proof.
  destruct (run_account config ops _ _ _ _ (account_start config)) as (r & new & E & [_ _ Hsp _ Hex Hn Hm] & _).
  exists r, new. split_and!; [exact E|exact Hsp|exact Hex|exact Hn|]. eapply Forall_impl; [exact Hm|]. by intros m [_ ?].
Qed.

Definition toy_config : PackConfig := mkPackConfig 2 1000 (mkPackLimits 500 400 300 10000) 2 8.
(** Two microblocks in flight, a third transaction that waits for the first of them, one that
    has expired, and a rebate. *)
Definition toy_ops : list PackOp :=
  [Submit (sample 1 9 100 true 10); Submit (sample 2 8 50 false 10); Produce; Submit (sample 3 7 50 false 10); Produce;
   Submit (sample 1 6 20 false 10); Produce; CompleteWithRebate 1 (mkMicroblockRebate 50 30 false);
   Submit (sample 4 5 10 false 10); Produce;
   Submit (mkPackedTransaction [] [] 0 1 0 false 0 [] [] 0 0); Produce].

Lemma in_flight_microblocks_independent_witness : ∃ r, pack_run toy_config toy_ops = Done r
  ∧ (λ m, pt_write_accounts <$> mb_transactions m) <$> pr_in_flight r = [[[[1]]; [[2]]]; [[[4]]]]
  ∧ ∀ i j m1 m2 t1 t2, pr_in_flight r !! i = Some m1 → pr_in_flight r !! j = Some m2 → i ≠ j →
      t1 ∈ mb_transactions m1 → t2 ∈ mb_transactions m2 → independent t1 t2.
Proof.
  destruct (in_flight_microblocks_independent toy_config toy_ops) as (r & E & H & _);
    [vm_compute; split; discriminate|vm_compute; discriminate|].
  exists r. split; [exact E|]. split; [|exact H].
  assert ((λ r, (λ m, pt_write_accounts <$> mb_transactions m) <$> pr_in_flight r) <$> pack_run toy_config toy_ops
    = Done [[[[1]]; [[2]]]; [[[4]]]]) as Hc by (vm_compute; reflexivity).
  rewrite E in Hc. injection Hc as Hc. exact Hc.
Defined.

Lemma toy_typed : config_typed toy_config ∧ Forall op_typed toy_ops.
Proof.
  split; [split; vm_compute; (split; (discriminate || reflexivity)) || discriminate|].
  unfold toy_ops, op_typed, tx_typed, sample. cbn [op_txs].
  repeat (apply Forall_cons; split; [first [apply Forall_nil_2|apply Forall_singleton; split; [vm_compute; discriminate|apply NoDup_singleton || apply NoDup_nil_2]]|]); apply Forall_nil_2.
Qed.

Lemma blocks_within_limits_witness : ∃ r, pack_run toy_config toy_ops = Done r ∧ length (pr_block r) = 3%nat
  ∧ total cost (microblock_txs (pr_block r)) = 210 ∧ pr_rebated r = 20 ∧ total cost (microblock_txs (pr_block r)) <= 500 + pr_rebated r.
Proof.
  destruct toy_typed as [Hc Ho]. destruct (blocks_within_limits toy_config toy_ops Hc Ho) as (r & E & H & _).
  exists r. split; [exact E|].
  assert ((λ r, (length (pr_block r), total cost (microblock_txs (pr_block r)), pr_rebated r)) <$> pack_run toy_config toy_ops
    = Done (3%nat, 210, 20)) as Hv by (vm_compute; reflexivity).
  rewrite E in Hv. injection Hv as H1 H2 H3. split_and!; [exact H1|exact H2|exact H3|exact H].
Defined.
